(* ===== verification/_CoqProject ===== *)
-Q . S2P
Prelude.v
Memory.v
History.v
Lang.v
Runs.v
Sequential.v
Logic.v
Rules.v
Interleaving.v
Std.v
Output.v
Parking.v
Publish.v
RmwCell.v
Monotone.v
Ids.v
LazyInit.v
Progress.v
Shares.v
LockWord.v
LockApi.v
StdSync.v
Fifo.v
Statistics.v
Threads.v
Orderings.v
OutOfThinAir.v
Fence.v
FencePair.v
SeqConsistent.v
Experiments.v
Linearizable.v
Counted.v
Arc.v
ArcPrograms.v
WeakApi.v
DataCell.v
Weak.v
WeakArc.v
WeakPrograms.v
Optimized.v
OptAlloc.v
OptData.v
OptArc.v
OptMut.v
OptLend.v
OptPrograms.v
SeqRules.v
SeqWeak.v
Flag.v
Channel.v
Channels.v
OneshotApi.v
Checked.v
SingleState.v
Oneshot.v
SeqChannels.v
SpinLock.v
Futex.v
FutexMutex.v
SeqLocks.v
WaitFree.v
Typing.v
