(* ===== verification/Prelude.v ===== *)
(** * A verification of the programs of "Rust Atomics and Locks"

    The repository is a collection of small concurrent programs, one per file
    of src/examples: examples of threads and of memory orderings (chapters 1
    to 3), spin locks (4), channels (5), reference counters (6), experiments
    with the processor (7), futexes (8) and mutexes (9).  This development
    models them as programs over an executable model of the memory of Rust,
    and proves what they do in every execution.

    ** How a Rust function becomes a definition

    [Memory] is the C++20 memory model, which is Rust's, without values out of
    thin air: an atomic keeps the history of its writes, and a thread has
    views that bound which of them it may still read; release writes publish
    the view of their thread, acquire reads and fences take it over.  A plain
    location knows the accesses made to it.  A data race, a use after free, a
    double free or a read of uninitialised memory has no step: the program is
    stuck, which stands for undefined behaviour.
    [Lang] is the free monad [prog] over these operations, with panics (they
    unwind, and run the drops of [with_drop]), undefined behaviour, thread
    creation and loops; a Rust function is translated statement by statement
    to a term of it, with the memory orderings of the source.  Integers are
    [Z], with the wrap-around or the overflow check of their type written out
    ([Prelude], [Std]).  A loop of the source is a [loop] of the monad: it may
    run for ever, and there is no fuel in the programs.
    [Std] has what the sources use of the standard library: the atomics,
    [spawn], [join], [scope], parking, the output macros, and [StdSync] has
    [Mutex] with its poisoning and [Condvar].

    ** What the theorems say

    [safe p I Q] ([Logic]) speaks of every execution of [p] from the empty
    memory, under every schedule and every choice of the values read: no
    thread is ever stuck (so no undefined behaviour), [I] holds of the output
    at every moment, and when the main thread ends, its outcome (a value or a
    panic) and the state satisfy [Q].  As it does not say that an end is
    reached, theorems where this is not obvious also give an execution that
    ends ([can_end]) or prints ([can_print]); [Runs] finds such executions by
    running the program inside Rocq.  Where a program is wrong, the theorem
    exhibits the execution.
    The proofs use a separation logic on Iris: [Logic] and [Rules] (weakest
    preconditions with the views of a thread, one rule per operation),
    [Shares] (locations that are shared and come back), and the protocols
    [Publish], [RmwCell], [Monotone], [LockWord], [Flag] and [Counted], each
    proved once for all atomics used in that way.  [History] and
    [Interleaving] have the combinatorial parts.

    For a thread that is alone there is a second, sequential semantics:
    [Sequential] has a memory with one value per location, and
    [can_end_sequential] says that a program that starts no thread ends in the
    one semantics exactly as it does in the other.  Theorems of the form
    "[can_end p o os] if and only if ..." follow: they say that [p] can end and
    all the ways in which it can, and with them that two implementations are
    equivalent or that a lock taken twice is never returned.  [SeqRules] has
    the rules of the operations.

    ** Which file models what

    - Threads.v: 01-01_pass-closure-to-spawn.rs ([Closures]: the average, with
      the overflow of the sum and the division by zero),
      01-01_thread_id.rs ([ThreadIds]), 01-02_thread-with-scope.rs ([Scoped]),
      src/main.rs ([Hello]).
    - Fifo.v: 01-08-01 ([ParkedConsumer]) and 01-08-02 ([WaitingConsumer]):
      the numbers are printed in order at every moment; 05-01
      ([SimpleChannel]): refinement of the state machine of a queue.
    - Progress.v: 02-01-01 ([StopFlag], over the lines of the input and its
      errors), 02-01-02 ([Report]) and 02-01-02-01 ([ReportParking]).
    - Statistics.v: 02-02-02, both ways of keeping the statistics, and the
      execution in which the average exceeds the peak.
    - Ids.v: 02-02-03 ([Ids]: wrap-around, the panic that comes too late, the
      decrement) and 02-03-01 ([Bounded]); any number of threads.
    - LazyInit.v: 02-03-02 ([LazyKey]) and 03-05-02 ([LazyData]).
    - Orderings.v: 03-03-01 ([StartJoin]), 03-04 ([RelaxedOne],
      [RelaxedTwo], [ThinAir]), 03-05 ([ReleaseAcquire]), 03-05-01
      ([LockExample]); OutOfThinAir.v: the threads of 03-04_out-of-thin-air.rs
      in the two models its comments speak of, both axiomatic: that of C++20
      and a stricter one without cycles of causes.  Fence.v: 03-08;
      FencePair.v: the producer and the consumer of its comments, with the
      fences and without; SeqConsistent.v: 03-07 ([SeqCsts], and that
      [SeqCst] is needed) and the last example of the comments of 03-08
      ([FenceLog], a data race).
    - SpinLock.v: 04-01 ([Minimum]), 04-02 ([Unsafe]), 04-03 ([Guarded]).
    - Channel.v, Flag.v: what the one-shot channels share; Oneshot.v: 05-02,
      with the double free of a message that is received and then dropped;
      Checked.v: 05-03 with three fields; SingleState.v: 05-03 with one state;
      Channels.v: 05-04 ([Typed]), 05-05 ([Borrowed]), 05-06 ([Blocking]);
      SeqChannels.v: what is sent is received, for all the channels, and the
      equivalence of the two channels of 05-03.
    - Arc.v, ArcPrograms.v: 06-01 and 06-01-02; Counted.v is the protocol of
      a reference counter.  Weak.v, WeakArc.v, WeakPrograms.v: 06-02
      ([WeakPtr]); DataCell.v is the cell of the data, to be read by every
      handle and written by one that is alone.
    - Optimized.v: 06-03 ([Optimized], the code and what a pointer owns);
      OptAlloc.v and OptData.v: the protocols of its two counters, the first
      of which [get_mut] locks; OptArc.v, OptMut.v, OptLend.v: the operations;
      OptPrograms.v: the test and the clients.  SeqWeak.v: the equivalence of
      06-02 and 06-03, and of both with two numbers.
    - Experiments.v: 07-02-02 ([Perf], [PerfThree], [PerfAligned]) and
      07-04-03 ([Experiment]).
    - Futex.v: 08-03-01 ([LinuxFutex]); FutexMutex.v: 09-01 ([Simple]),
      09-01-01 ([Avoiding]), 09-01-02 and 09-01-03 ([Spinning]); SeqLocks.v:
      the benchmarks for one thread, which the sources keep in comments, and
      that no lock can be taken twice.
    - WaitFree.v: which operations end after a bounded number of steps of
      their thread, whatever the other threads do, and that a free lock is
      taken by a thread that runs alone.
    - Typing.v: the values that the state of a mutex or of a channel can take,
      at every moment of every execution, by a typing of the programs.

    ** Interfaces

    [LockImpl] and [LockSpec] ([LockApi]) are the interface of a lock: the
    guarded spin lock and the three mutexes are instances, and the counting
    benchmark and the theorem that critical sections take effect one at a time
    ([Linearizable]) are proved against it.  [OneshotImpl] and [OneshotSpec]
    ([OneshotApi]) are that of a one-shot channel with runtime checks, with
    the client of any number of senders and receivers.  [WeakImpl] and
    [WeakSpec] ([WeakApi]) are that of a reference counter with weak pointers:
    06-02 and 06-03 are instances; the test they share, a client that changes
    the data, and a crowd of threads that use the pointers in any order are
    proved against it.  [Futex] and [FutexSpec] are [wait] and [wake_one] of
    the crate atomic_wait, with the documented behaviour as a law (they touch
    the atomic only by loads, and may return at any time); [FutexSeq] and
    [FutexKeeps] say the same for a thread that is alone and for the typing of
    the state; [Kernel] and [KernelSpec] are the futex system call, and
    [LinuxFutex] implements the one with the other.  [polling] and
    [polling_kernel] are concrete instances.  [LockSeq] ([SeqLocks]) and
    [WeakSeq] ([SeqWeak]) are what a lock and a reference counter promise to a
    thread that is alone.

    ** Bounds

    The number of threads, of messages or of iterations is a parameter of the
    theorems where the source has a constant that a client would choose
    ([main_with], [transfer], [Shared.main], ...).  A reference counter is
    verified for as many handles as its theorem allows, at most as many as fit
    the counter; beyond half of [usize] the code aborts, and an abort is a
    thread that makes no more progress.

    ** Not modelled

    - Time: [sleep] and the clock are a step and an input; the alignment and
      the caches that chapter 7 measures have no counterpart in the memory
      model.
    - Values out of thin air in the executable memory model: as in RC11, a
      read takes a value that was written before it was executed.  This
      excludes the values no compiler or processor produces, and also some
      executions of C++20 in which a relaxed store overtakes an earlier load
      of its thread.  Only OutOfThinAir.v has the axioms of C++20 without this
      restriction, for threads that load and store atomics.
    - The other listings in comments: fragments that illustrate one operation
      or repeat the code below them.
    - [SeqCst] accesses are ordered by their order of execution; this is
      stronger than C++20 where [SeqCst] and other accesses to the same atomic
      are mixed, which no program here does.
    - [std::sync::Arc] around the mutex of 02-02-02 and the channel of 05-01
      only keeps them alive and is left out; statics and the locals of [main]
      are allocated and not freed at its end.
    - Liveness under fair scheduling: the theorems do not say that a spinning
      thread gets a lock that others contend for, only that executions in
      which it does exist, that it does when it runs alone, and which
      operations are wait-free. *)

From stdpp Require Export base tactics gmap sets list strings numbers.
From Stdlib Require Export ZArith Lia.

(** ** Hint databases and tactics *)

Create HintDb rust_db.

(** Goals about views are goals about finite sets. *)
Ltac view_solve := set_solver.

(** Case analysis on every [match] and [decide] of a hypothesis that equates
    an option with [Some], dropping the impossible branches. *)
Ltac crush_some H :=
  repeat (case_match; try discriminate H); simplify_eq H.

(** ** Machine integers

    A [w]-bit integer is a [Z]; the operations of the source wrap or check. *)

Definition u32_modulus : Z := 2 ^ 32.
Definition u64_modulus : Z := 2 ^ 64.
(** [usize] is 64 bits wide, as on the targets of the repository. *)
Definition usize_modulus : Z := 2 ^ 64.
Definition usize_MAX : Z := usize_modulus - 1.
Definition i32_MIN : Z := - 2 ^ 31.
Definition i32_MAX : Z := 2 ^ 31 - 1.

(** Wrapping addition of a [w]-bit unsigned integer. *)
Definition wrap_add (modulus a b : Z) : Z := (a + b) mod modulus.
(** Wrapping addition of an [i32] (two's complement). *)
Definition wrap_i32 (a : Z) : Z := (a + 2 ^ 31) mod 2 ^ 32 - 2 ^ 31.

Lemma wrap_add_small modulus a b :
  (0 <= a + b < modulus)%Z → wrap_add modulus a b = (a + b)%Z.
Proof. apply Z.mod_small. Qed.

Lemma wrap_i32_small a : (i32_MIN <= a <= i32_MAX)%Z → wrap_i32 a = a.
Proof.
  unfold wrap_i32, i32_MIN, i32_MAX. intros ?. rewrite Z.mod_small; lia.
Qed.

(** ** Lists *)

(** As many copies as a list has elements. *)
Lemma replicate_as_fmap {A B} (l : list A) (y : B) :
  replicate (length l) y = (λ _, y) <$> l.
Proof. symmetry. by apply const_fmap. Qed.
