(* ===== verification/Memory.v ===== *)
(** * The memory of a Rust program

    Rust gives its atomics the C++20 memory model.  This file holds an
    operational presentation of it in the style of the view-based machines
    for RC11: an atomic location keeps the history of its writes, each at a
    timestamp (its place in the modification order) and with the view it
    publishes; a thread carries the views that bound what it may still read.
    A non-atomic location keeps its value and the accesses made to it, and an
    access that is not ordered after the conflicting ones (a data race) has no
    step, as has an access to freed memory: both are undefined behaviour. *)

From S2P Require Import Prelude.

(** ** Values, locations, orderings *)

(** A value of a non-atomic location.  [VUninit] is the content of a
    [MaybeUninit] that was never written. *)
Inductive val : Type :=
| VUninit
| VUnit
| VInt (z : Z)
| VStr (s : string)
| VList (l : list val)
| VNone
| VSome (v : val).

Notation loc := positive (only parsing).
Notation time := nat (only parsing).

(** [std::sync::atomic::Ordering] *)
Inductive ordering : Type := Relaxed | Release | Acquire | AcqRel | SeqCst.

Definition is_acquire (o : ordering) : bool :=
  match o with Acquire | AcqRel | SeqCst => true | _ => false end.
Definition is_release (o : ordering) : bool :=
  match o with Release | AcqRel | SeqCst => true | _ => false end.
Definition is_seqcst (o : ordering) : bool :=
  match o with SeqCst => true | _ => false end.

(** Equality of values is decidable: [==] and [contains] of the source. *)
Fixpoint val_eq_dec (v w : val) {struct v} : {v = w} + {v ≠ w}.
Proof.
  refine (match v, w with
    | VUninit, VUninit | VUnit, VUnit | VNone, VNone => left eq_refl
    | VInt z, VInt z' => cast_if (decide (z = z'))
    | VStr s, VStr s' => cast_if (decide (s = s'))
    | VList l, VList l' => cast_if (list_eq_dec val_eq_dec l l')
    | VSome v, VSome w => cast_if (val_eq_dec v w)
    | _, _ => right _
    end); abstract congruence.
Defined.
#[export] Instance val_eq_decision : EqDecision val := val_eq_dec.

#[export] Instance val_inhabited : Inhabited val := populate VUnit.

(** ** Views

    A view is a set of events: [Coh l t], "the write at time [t] of [l] has
    been observed", and [Acc e], "the access numbered [e] happened before". *)
Abbreviation event := ((loc * time) + nat)%type.
Abbreviation Coh l t := (inl (l, t) : event).
Abbreviation Acc e := (inr e : event).
#[export] Instance event_countable : Countable event := sum_countable.
Abbreviation view := (@gset event _ event_countable).

(** The views of a thread: what it has observed, what an acquire fence would
    add to that, and what it had observed at its last release fence. *)
Record tview : Type := TView { cur : view; acq : view; frel : view }.

Definition tview_init : tview := TView ∅ ∅ ∅.

(** A thread starts with what its parent has observed. *)
Definition tview_spawn (V : tview) : tview := TView (cur V) (cur V) ∅.

(** Add events to the current view, and further ones to the acquire view. *)
Definition observe (now later : view) (V : tview) : tview :=
  TView (cur V ∪ now) (acq V ∪ now ∪ later) (frel V).

#[export] Instance tview_le : SubsetEq tview :=
  λ V W, cur V ⊆ cur W ∧ acq V ⊆ acq W.

#[export] Instance tview_le_preorder : PreOrder (⊆@{tview}).
Proof.
  split; unfold subseteq, tview_le; [done|].
  intros V W X [] []. split; by etrans.
Qed.

Lemma tview_le_cur (V W : tview) : V ⊆ W → cur V ⊆ cur W.
Proof. by intros []. Qed.
#[export] Hint Resolve tview_le_cur : rust_db.

Lemma observe_le now later V : V ⊆ observe now later V.
Proof. unfold subseteq, tview_le, observe; simpl; split; set_solver. Qed.
#[export] Hint Resolve observe_le : rust_db.

(** ** Cells *)

Record msg : Type := Msg { mval : Z; mview : view }.
#[export] Instance msg_inhabited : Inhabited msg := populate (Msg 0 ∅).
Abbreviation hist := (gmap time msg).

Inductive cell : Type :=
(** an atomic object: its writes, the non-atomic writes made to it (its
    initialisation and those through [&mut]), and every access made to it *)
| CAtomic (h : hist) (nas accs : view)
(** a plain object: its value, the writes and the reads made to it *)
| CData (v : val) (writes reads : view)
| CFreed.

(** What [println!] and [dbg!] wrote: a format string and its arguments. *)
Abbreviation output := (string * list val)%type.

Record state : Type := State {
  heap : gmap loc cell;
  next_event : nat;
  sc_view : view;
  out : list output
}.

Definition state_init : state := State ∅ 0 ∅ [].

Definition set_cell (l : loc) (c : cell) (σ : state) : state :=
  State (<[l := c]> (heap σ)) (S (next_event σ)) (sc_view σ) (out σ).

Definition set_sc (S : view) (σ : state) : state :=
  State (heap σ) (next_event σ) S (out σ).

Definition fresh_loc (m : gmap loc cell) : loc :=
  Pos.succ (map_fold (λ l _ p, Pos.max l p) 1%positive m).

Definition last_time (h : hist) : time := map_fold (λ t _ n, t `max` n) 0 h.

(** [t] is not older than a write of [l] that the view has observed. *)
Definition coh_le (l : loc) (h : hist) (W : view) (t : time) : Prop :=
  map_Forall (λ t' _, Coh l t' ∈ W → t' ≤ t) h.
Definition coh_lt (l : loc) (h : hist) (W : view) (t : time) : Prop :=
  map_Forall (λ t' _, Coh l t' ∈ W → t' < t) h.

#[export] Instance coh_le_dec l h W t : Decision (coh_le l h W t).
Proof. unfold coh_le. apply _. Defined.
#[export] Instance coh_lt_dec l h W t : Decision (coh_lt l h W t).
Proof. unfold coh_lt. apply _. Defined.

(** What bounds an access: the current view, and for a [SeqCst] access also
    the earlier [SeqCst] accesses. *)
Definition bound (o : ordering) (V : tview) (σ : state) : view :=
  cur V ∪ (if is_seqcst o then sc_view σ else ∅).

Definition sc_record (o : ordering) (l : loc) (t : time) (σ : state) : state :=
  if is_seqcst o then set_sc (sc_view σ ∪ {[Coh l t]}) σ else σ.

(** ** Operations *)

Inductive op : Type :=
| OAlloc (v : val)
| OAllocAtomic (z : Z)
| OFree (l : loc)
| ORead (l : loc)
| OWrite (l : loc) (v : val)
| OLoad (l : loc) (o : ordering)
| OStore (l : loc) (z : Z) (o : ordering)
(** Every read-modify-write: [f] gives the value to write, or [None] when the
    comparison fails; a weak one may also fail for no reason. *)
| ORmw (l : loc) (f : Z → option Z) (weak : bool) (succ fail : ordering)
| OFence (o : ordering)
(** Access to an atomic through [&mut]: [get_mut], [into_inner], [*a = ..]. *)
| OGetMut (l : loc)
| OSetMut (l : loc) (z : Z)
| OPrint (x : output)
(** A value supplied by the environment: a clock, the standard input, ... *)
| OInput.

Definition res (o : op) : Type :=
  match o with
  | OAlloc _ | OAllocAtomic _ => loc
  | ORead _ => val
  | OLoad _ _ | OGetMut _ | OInput => Z
  | ORmw _ _ _ _ _ => (Z * bool)%type
  | _ => unit
  end.

(** The choices the machine leaves open: which write is read, where a write
    goes in the modification order, whether a weak exchange fails, and what
    the environment supplies. *)
Record choice : Type := Choice {
  ch_read : time; ch_write : time; ch_fail : bool; ch_input : Z
}.

Definition exec_alloc (v : val) (V : tview) (σ : state)
    : option (loc * tview * state) :=
  let l := fresh_loc (heap σ) in
  let e := {[Acc (next_event σ)]} in
  Some (l, observe e ∅ V, set_cell l (CData v e ∅) σ).

Definition exec_alloc_atomic (z : Z) (V : tview) (σ : state)
    : option (loc * tview * state) :=
  let l := fresh_loc (heap σ) in
  let e := {[Acc (next_event σ)]} in
  Some (l, observe ({[Coh l 0]} ∪ e) ∅ V,
    set_cell l (CAtomic {[0 := Msg z ∅]} e e) σ).

Definition exec_free (l : loc) (V : tview) (σ : state)
    : option (unit * tview * state) :=
  match heap σ !! l with
  | Some (CAtomic _ _ A) =>
      if decide (A ⊆ cur V) then Some ((), V, set_cell l CFreed σ) else None
  | Some (CData _ W R) =>
      if decide (W ∪ R ⊆ cur V) then Some ((), V, set_cell l CFreed σ) else None
  | _ => None
  end.

Definition exec_read (l : loc) (V : tview) (σ : state)
    : option (val * tview * state) :=
  match heap σ !! l with
  | Some (CData v W R) =>
      if decide (W ⊆ cur V) then
        let e := {[Acc (next_event σ)]} in
        Some (v, observe e ∅ V, set_cell l (CData v W (R ∪ e)) σ)
      else None
  | _ => None
  end.

Definition exec_write (l : loc) (v : val) (V : tview) (σ : state)
    : option (unit * tview * state) :=
  match heap σ !! l with
  | Some (CData _ W R) =>
      if decide (W ∪ R ⊆ cur V) then
        let e := {[Acc (next_event σ)]} in
        Some ((), observe e ∅ V, set_cell l (CData v (W ∪ e) R) σ)
      else None
  | _ => None
  end.

(** The views after a load that reads [m] at [t], as access [e]. *)
Definition load_view (o : ordering) (l : loc) (t : time) (m : msg) (e : nat)
    (V : tview) : tview :=
  observe ({[Coh l t]} ∪ {[Acc e]} ∪ (if is_acquire o then mview m else ∅))
    (mview m) V.

Definition store_view (l : loc) (t : time) (e : nat) (V : tview) : tview :=
  observe ({[Coh l t]} ∪ {[Acc e]}) ∅ V.

(** The message a store leaves: a release publishes the whole view. *)
Definition store_msg (o : ordering) (z : Z) (V' : tview) : msg :=
  Msg z (if is_release o then cur V' else frel V').

Definition rmw_view (o : ordering) (l : loc) (t : time) (m : msg) (e : nat)
    (V : tview) : tview :=
  observe ({[Coh l t]} ∪ {[Coh l (S t)]} ∪ {[Acc e]} ∪
    (if is_acquire o then mview m else ∅)) (mview m) V.

Definition rmw_msg (o : ordering) (z : Z) (m : msg) (V' : tview) : msg :=
  Msg z ((if is_release o then cur V' else frel V') ∪ mview m).

Definition exec_load (t : time) (l : loc) (o : ordering) (V : tview) (σ : state)
    : option (Z * tview * state) :=
  match heap σ !! l with
  | Some (CAtomic h N A) =>
      match h !! t with
      | Some m =>
          if decide (N ⊆ cur V ∧ coh_le l h (bound o V σ) t) then
            let e := next_event σ in
            Some (mval m, load_view o l t m e V,
              sc_record o l t (set_cell l (CAtomic h N (A ∪ {[Acc e]})) σ))
          else None
      | None => None
      end
  | _ => None
  end.

Definition exec_store (t : time) (l : loc) (z : Z) (o : ordering)
    (V : tview) (σ : state) : option (unit * tview * state) :=
  match heap σ !! l with
  | Some (CAtomic h N A) =>
      if decide (N ⊆ cur V ∧ h !! t = None ∧ coh_lt l h (bound o V σ) t) then
        let e := next_event σ in
        let V' := store_view l t e V in
        Some ((), V', sc_record o l t
          (set_cell l (CAtomic (<[t := store_msg o z V']> h) N (A ∪ {[Acc e]})) σ))
      else None
  | _ => None
  end.

(** The write of a read-modify-write takes the place right after the write it
    reads, and continues its release sequence. *)
Definition exec_rmw_write (t : time) (l : loc) (z : Z) (o : ordering)
    (V : tview) (σ : state) : option (unit * tview * state) :=
  match heap σ !! l with
  | Some (CAtomic h N A) =>
      match h !! t with
      | Some m =>
          if decide (N ⊆ cur V ∧ h !! (S t) = None ∧ coh_le l h (bound o V σ) t) then
            let e := next_event σ in
            let V' := rmw_view o l t m e V in
            Some ((), V', sc_record o l (S t)
              (set_cell l
                (CAtomic (<[S t := rmw_msg o z m V']> h) N (A ∪ {[Acc e]})) σ))
          else None
      | None => None
      end
  | _ => None
  end.

Definition hist_val (t : time) (l : loc) (σ : state) : option Z :=
  match heap σ !! l with
  | Some (CAtomic h _ _) => mval <$> h !! t
  | _ => None
  end.

Definition exec_rmw (c : choice) (l : loc) (f : Z → option Z) (weak : bool)
    (succ fail : ordering) (V : tview) (σ : state)
    : option ((Z * bool) * tview * state) :=
  v ← hist_val (ch_read c) l σ;
  match (if weak && ch_fail c then None else f v) with
  | Some z =>
      '(_, V', σ') ← exec_rmw_write (ch_read c) l z succ V σ;
      Some ((v, true), V', σ')
  | None =>
      '(_, V', σ') ← exec_load (ch_read c) l fail V σ;
      Some ((v, false), V', σ')
  end.

Definition exec_fence (o : ordering) (V : tview) (σ : state)
    : unit * tview * state :=
  match o with
  | Relaxed => ((), V, σ)
  | Acquire => ((), TView (acq V ∪ cur V) (acq V) (frel V), σ)
  | Release => ((), TView (cur V) (acq V) (cur V), σ)
  | AcqRel => let W := acq V ∪ cur V in ((), TView W W W, σ)
  | SeqCst => let W := acq V ∪ cur V ∪ sc_view σ in
              ((), TView W W W, set_sc W σ)
  end.

Definition exec_get_mut (l : loc) (V : tview) (σ : state)
    : option (Z * tview * state) :=
  match heap σ !! l with
  | Some (CAtomic h N A) =>
      match h !! last_time h with
      | Some m =>
          if decide (A ⊆ cur V) then
            let e := {[Acc (next_event σ)]} in
            Some (mval m, observe e ∅ V,
              set_cell l (CAtomic h (N ∪ e) (A ∪ e)) σ)
          else None
      | None => None
      end
  | _ => None
  end.

(** Overwriting through [&mut]: no other thread can still read an older
    write, so the history starts anew after the last one. *)
Definition exec_set_mut (l : loc) (z : Z) (V : tview) (σ : state)
    : option (unit * tview * state) :=
  match heap σ !! l with
  | Some (CAtomic h N A) =>
      if decide (A ⊆ cur V) then
        let e := {[Acc (next_event σ)]} in
        let t := S (last_time h) in
        let V' := observe ({[Coh l t]} ∪ e) ∅ V in
        Some ((), V', set_cell l (CAtomic {[t := Msg z (cur V')]} (N ∪ e) (A ∪ e)) σ)
      else None
  | _ => None
  end.

Definition exec_op (c : choice) (o : op) (V : tview) (σ : state)
    : option (res o * tview * state) :=
  match o return option (res o * tview * state) with
  | OAlloc v => exec_alloc v V σ
  | OAllocAtomic z => exec_alloc_atomic z V σ
  | OFree l => exec_free l V σ
  | ORead l => exec_read l V σ
  | OWrite l v => exec_write l v V σ
  | OLoad l o => exec_load (ch_read c) l o V σ
  | OStore l z o => exec_store (ch_write c) l z o V σ
  | ORmw l f weak succ fail => exec_rmw c l f weak succ fail V σ
  | OFence o => Some (exec_fence o V σ)
  | OGetMut l => exec_get_mut l V σ
  | OSetMut l z => exec_set_mut l z V σ
  | OPrint x =>
      Some ((), V, State (heap σ) (next_event σ) (sc_view σ) (out σ ++ [x]))
  | OInput => Some (ch_input c, V, σ)
  end.

(** ** Facts about histories *)

Lemma bound_cur o V σ : is_seqcst o = false → bound o V σ = cur V.
Proof. unfold bound. intros ->. set_solver. Qed.

Lemma fresh_loc_fresh m : m !! fresh_loc m = None.
Proof.
  assert (∀ l c, m !! l = Some c →
    (l <= map_fold (λ l _ p, Pos.max l p) 1 m)%positive) as Hle.
  { apply (map_fold_weak_ind (λ p (m : gmap loc cell),
      ∀ l c, m !! l = Some c → (l <= p)%positive)); [done|].
    intros l c m' p _ IH l' c' [[-> ->]|[? H]]%lookup_insert_Some; [lia|].
    specialize (IH _ _ H). lia. }
  destruct (m !! fresh_loc m) as [c|] eqn:Hl; [|done].
  apply Hle in Hl. unfold fresh_loc in Hl. lia.
Qed.

Lemma last_time_ge h t m : h !! t = Some m → t ≤ last_time h.
Proof.
  revert t m. apply (map_fold_weak_ind (λ n (h : hist),
    ∀ t m, h !! t = Some m → t ≤ n)); [done|].
  intros t m h' n _ IH t' m' [[-> ->]|[? H]]%lookup_insert_Some; [lia|].
  specialize (IH _ _ H). lia.
Qed.

(** [t] is the newest write of the history. *)
Definition newest (h : hist) (t : time) : Prop :=
  is_Some (h !! t) ∧ map_Forall (λ t' _, t' ≤ t) h.

Lemma newest_exists h : h ≠ ∅ → ∃ t, newest h t.
Proof.
  induction h as [|t0 m0 h Hnone IH] using map_ind; [done|].
  intros _. destruct (decide (h = ∅)) as [->|Hne].
  { exists t0. split; [by rewrite lookup_insert_eq; eauto|].
    intros t m [[<- ?]|[? Hl]]%lookup_insert_Some; [done|by rewrite lookup_empty in Hl]. }
  destruct (IH Hne) as (t & Hin & Hmax).
  exists (t0 `max` t). split.
  - rewrite lookup_insert_is_Some'. destruct (decide (t0 ≤ t)).
    + right. by rewrite Nat.max_r by lia.
    + left. lia.
  - intros t' m' [[<- ?]|[? Hl]]%lookup_insert_Some; [lia|].
    specialize (Hmax _ _ Hl). simpl in Hmax. lia.
Qed.

Lemma newest_last_time h t : newest h t → last_time h = t.
Proof.
  intros [[m Hm] Hmax]. apply Nat.le_antisymm; [|by eapply last_time_ge].
  revert Hmax. clear m Hm. unfold last_time.
  apply (map_fold_weak_ind (λ n (h : hist), map_Forall (λ t' _, t' ≤ t) h → n ≤ t));
    [lia|].
  intros t' m' h' n Hn IH Hall%map_Forall_insert; [|done].
  destruct Hall as [? Hall]. specialize (IH Hall). lia.
Qed.

Lemma newest_coh_le l h W t : newest h t → coh_le l h W t.
Proof. intros [_ Hmax] t' m Hm _. by eapply Hmax. Qed.

Lemma newest_succ_free h t : newest h t → h !! S t = None.
Proof.
  intros [_ Hmax]. destruct (h !! S t) eqn:E; [|done].
  apply Hmax in E. simpl in E. lia.
Qed.

Lemma newest_coh_lt l h W t : newest h t → coh_lt l h W (S t).
Proof. intros [_ Hmax] t' m Hm _. apply Hmax in Hm. simpl in Hm. lia. Qed.

#[export] Hint Resolve newest_coh_le newest_coh_lt newest_succ_free : rust_db.
