(* ===== verification/History.v ===== *)
(** * Histories of an atomic

    The writes of an atomic whose timestamps have no gap: the next write comes
    last, and a read-modify-write reads the newest one. *)

From S2P Require Import Prelude Memory.

(** From [t0] on no timestamp was skipped: a later write comes last. *)
Definition contiguous (h : hist) (t0 tm : time) : Prop :=
  t0 ≤ tm ∧ ∀ t, t0 ≤ t ≤ tm → is_Some (h !! t).

Lemma newest_unique h t t' : newest h t → newest h t' → t = t'.
Proof.
  intros [[m Hm] Hmax] [[m' Hm'] Hmax'].
  apply Hmax' in Hm. apply Hmax in Hm'. simpl in *. lia.
Qed.

Lemma newest_insert h tm t m : newest h tm → newest (<[t := m]> h) (t `max` tm).
Proof.
  intros [[m' Hm'] Hmax]. split.
  - rewrite lookup_insert_is_Some'. destruct (decide (tm ≤ t)); [left; lia|right].
    rewrite Nat.max_r; [eauto|lia].
  - intros t' m'' [[<- <-]|[_ Hl]]%lookup_insert_Some; [lia|].
    apply Hmax in Hl. simpl in Hl. lia.
Qed.

Lemma newest_insert_last h tm t m : newest h tm → tm ≤ t → newest (<[t := m]> h) t.
Proof.
  intros Hnew Hle. pose proof (newest_insert h tm t m Hnew) as H. by rewrite Nat.max_l in H.
Qed.

Lemma contiguous_rmw h t0 tm t m :
  newest h tm → contiguous h t0 tm → is_Some (h !! t) → h !! S t = None →
  contiguous (<[S t := m]> h) t0 (S t `max` tm).
Proof.
  intros [_ Hmax] [Hle Hc] [mt Ht] Hfree. pose proof (Hmax _ _ Ht) as Htm.
  simpl in Htm. split; [lia|]. intros t' Ht'. rewrite lookup_insert_is_Some'.
  destruct (decide (t' = S t)); [by left|right]. apply Hc.
  destruct (decide (t = tm)) as [->|]; [lia|].
  lia.
Qed.

(** A write not older than [t0] finds only the end free. *)
Lemma contiguous_free h t0 tm t :
  contiguous h t0 tm → t0 ≤ t → h !! t = None → tm < t.
Proof.
  intros [_ Hc] Hle Hnone. destruct (decide (t ≤ tm)) as [Ht|]; [|lia].
  destruct (Hc t) as [? ?]; [lia|]. congruence.
Qed.

(** When all the writes since [t0] are there, a read-modify-write reads the
    newest. *)
Lemma contiguous_newest h t0 tm t m :
  newest h tm → contiguous h t0 tm → t0 ≤ t → h !! t = Some m → h !! S t = None → t = tm.
Proof.
  intros [_ Hmax] Hc Ht0 Hm Hfree.
  pose proof (contiguous_free _ _ _ _ Hc (Nat.le_le_succ_r _ _ Ht0) Hfree).
  specialize (Hmax _ _ Hm). simpl in Hmax. lia.
Qed.

Lemma contiguous_extend h t0 tm m :
  newest h tm → contiguous h t0 tm →
  newest (<[S tm := m]> h) (S tm) ∧ contiguous (<[S tm := m]> h) t0 (S tm).
Proof.
  intros Hnew Hc. replace (S tm) with (S tm `max` tm) at 2 4 by lia. split.
  - by apply newest_insert.
  - apply contiguous_rmw; [done..|apply Hnew|]. by eapply newest_succ_free.
Qed.

Lemma newest_singleton t m : newest {[t := m]} t.
Proof.
  split; [rewrite lookup_singleton_eq; eauto|].
  by intros t' m' [<- _]%lookup_singleton_Some.
Qed.

Lemma contiguous_singleton t m : contiguous {[t := m]} t t.
Proof.
  split; [done|]. intros t' Ht. replace t' with t by lia. rewrite lookup_singleton_eq. eauto.
Qed.

(** ** Histories given by their writes

    [wrote h ws]: the writes of [h] are those of [ws], by time and value. *)
Definition wrote (h : hist) (ws : list (time * Z)) : Prop :=
  ∀ t v, (t, v) ∈ ws ↔ ∃ m, h !! t = Some m ∧ mval m = v.

Lemma wrote_lookup h ws t m : wrote h ws → h !! t = Some m → (t, mval m) ∈ ws.
Proof. intros Hw Hm. apply Hw. eauto. Qed.

Lemma wrote_free h ws t : wrote h ws → h !! t = None → t ∉ ws.*1.
Proof.
  intros Hw Hn ([t' v] & -> & Hin)%list_elem_of_fmap. apply Hw in Hin as (m & Hm & _).
  simpl in Hn. congruence.
Qed.

Lemma wrote_some h ws t v : wrote h ws → (t, v) ∈ ws → ∃ m, h !! t = Some m ∧ mval m = v.
Proof. intros Hw. apply Hw. Qed.

Lemma wrote_singleton t m : wrote {[t := m]} [(t, mval m)].
Proof.
  intros t' v. rewrite list_elem_of_singleton. split.
  - intros [= -> ->]. exists m. by rewrite lookup_singleton_eq.
  - intros (m' & [<- <-]%lookup_singleton_Some & <-). done.
Qed.

Lemma wrote_insert h ws t m :
  wrote h ws → h !! t = None → wrote (<[t := m]> h) ((t, mval m) :: ws).
Proof.
  intros Hw Hn t' v. rewrite elem_of_cons, (Hw t' v). split.
  - intros [[= -> ->]|(m' & Hm' & <-)]; [exists m; by rewrite lookup_insert_eq|].
    exists m'. rewrite lookup_insert_ne; [done|congruence].
  - intros (m' & [[<- <-]|[_ ?]]%lookup_insert_Some & <-); eauto.
Qed.

Lemma wrote_newest h ws t v :
  wrote h ws → (t, v) ∈ ws → Forall (λ p, p.1 ≤ t) ws → newest h t.
Proof.
  intros Hw Hin Hall. split.
  - apply Hw in Hin as (m & -> & _). eauto.
  - intros t' m' Hm'. eapply wrote_lookup in Hm'; [|done].
    rewrite list.Forall_forall in Hall. by apply Hall in Hm'.
Qed.

Lemma wrote_last h ws t v :
  wrote h ((t, v) :: ws) → Forall (λ p, p.1 ≤ t) ws →
  newest h t ∧ ∃ m, h !! t = Some m ∧ mval m = v.
Proof.
  intros Hw Hall. split; [|by apply (wrote_some _ _ _ _ Hw), elem_of_cons; left].
  eapply wrote_newest; [done|by apply elem_of_cons; left|]. by constructor.
Qed.

(** Which of the writes listed is meant. *)
Ltac which_write H :=
  repeat (apply elem_of_cons in H as [H|H]; [simplify_eq|]); [try done..|by apply not_elem_of_nil in H].
