(* ===== verification/Lang.v ===== *)
(** * The language of the models

    A thread is a term of a free monad over the memory operations of
    [Memory], with panics, undefined behaviour, thread creation and loops.
    The Rust functions of the repository are written in this monad, statement
    by statement.  The step function is executable; the relation it induces is
    an Iris language, and [run] replays a schedule. *)

From Stdlib Require Import FunctionalExtensionality.
From iris.program_logic Require Import language.
From S2P Require Import Prelude Memory.

(** ** Programs *)

(** How a computation ends: it returns, or it unwinds with a panic. *)
Inductive outcome (A : Type) : Type :=
| Ok (a : A)
| Panicked (msg : string).
Arguments Ok {A} a.
Arguments Panicked {A} msg.

Inductive prog (A : Type) : Type :=
| Ret (a : A)
| Panic (msg : string)
(** undefined behaviour: no step *)
| UB
| Act (o : op) (k : res o → prog A)
| Fork (child : prog unit) (k : prog A)
(** [loop { .. }]: the body returns the next loop state or the result *)
| Loop (S R : Type) (body : S → prog (S + R)) (s : S) (k : outcome R → prog A).
Arguments Ret {A} a.
Arguments Panic {A} msg.
Arguments UB {A}.
Arguments Act {A} o k.
Arguments Fork {A} child k.
Arguments Loop {A S R} body s k.

Definition of_outcome {A} (o : outcome A) : prog A :=
  match o with Ok a => Ret a | Panicked m => Panic m end.

(** Run [p], then [k] on the way it ended. *)
Fixpoint catch {A B} (p : prog A) (k : outcome A → prog B) : prog B :=
  match p with
  | Ret a => k (Ok a)
  | Panic m => k (Panicked m)
  | UB => UB
  | Act o k' => Act o (λ r, catch (k' r) k)
  | Fork c k' => Fork c (catch k' k)
  | Loop body s k' => Loop body s (λ o, catch (k' o) k)
  end.

(** A panic skips the rest. *)
Definition on_ok {A B} (k : A → prog B) (o : outcome A) : prog B :=
  match o with Ok a => k a | Panicked m => Panic m end.

#[export] Instance prog_ret : MRet prog := @Ret.
#[export] Instance prog_bind : MBind prog := λ A B k p, catch p (on_ok k).

Definition act (o : op) : prog (res o) := Act o Ret.

Definition loop {S R} (body : S → prog (S + R)) (s : S) : prog R :=
  Loop body s of_outcome.

(** One turn of a loop. *)
Definition unroll {A S R} (body : S → prog (S + R)) (s : S)
    (k : outcome R → prog A) : prog A :=
  catch (body s) (λ o,
    match o with
    | Ok (inl s') => Loop body s' k
    | Ok (inr r) => k (Ok r)
    | Panicked m => k (Panicked m)
    end).

Lemma catch_catch {A B C} (p : prog A) (f : outcome A → prog B)
    (g : outcome B → prog C) :
  catch (catch p f) g = catch p (λ o, catch (f o) g).
Proof.
  induction p as [ | | |? o k' IH|? c _ k' IH|? S R body _ s k' IH] in B, C, f, g |- *;
    simpl; try done.
  - f_equal. apply functional_extensionality=> r. apply IH.
  - f_equal. apply IH.
  - f_equal. apply functional_extensionality=> r. apply IH.
Qed.

Lemma catch_of_outcome {A} (p : prog A) : catch p of_outcome = p.
Proof.
  induction p as [ | | |? o k' IH|? c _ k' IH|? S R body _ s k' IH];
    simpl; try done; f_equal; auto; apply functional_extensionality; auto.
Qed.

Lemma catch_on_ok {A B C} (k : A → prog B) (g : outcome B → prog C) o :
  catch (on_ok k o) g =
  match o with Ok a => catch (k a) g | Panicked m => g (Panicked m) end.
Proof. by destruct o. Qed.

Lemma catch_unroll {A B S R} (body : S → prog (S + R)) s k (f : outcome A → prog B) :
  catch (unroll body s k) f = unroll body s (λ o, catch (k o) f).
Proof.
  rewrite /unroll catch_catch. f_equal. apply functional_extensionality. by intros [[]|].
Qed.

(** ** Threads and their steps *)

Abbreviation thread := (prog unit * tview)%type.

Definition step_thread (c : choice) (e : thread) (σ : state)
    : option (thread * state * list thread) :=
  let '(p, V) := e in
  match p with
  | Ret _ | Panic _ | UB => None
  | Act o k =>
      '(r, V', σ') ← exec_op c o V σ; Some ((k r, V'), σ', [])
  | Fork child k => Some ((k, V), σ, [(child, tview_spawn V)])
  | Loop body s k => Some ((unroll body s k, V), σ, [])
  end.

Definition thread_of_val (v : outcome unit * tview) : thread :=
  (of_outcome v.1, v.2).
Definition thread_to_val (e : thread) : option (outcome unit * tview) :=
  match e with
  | (Ret a, V) => Some (Ok a, V)
  | (Panic m, V) => Some (Panicked m, V)
  | _ => None
  end.

Definition thread_step (e : thread) (σ : state) (κ : list unit)
    (e' : thread) (σ' : state) (efs : list thread) : Prop :=
  κ = [] ∧ ∃ c, step_thread c e σ = Some (e', σ', efs).

Lemma rust_lang_mixin : LanguageMixin thread_of_val thread_to_val thread_step.
Proof.
  split.
  - by intros [[a|m] V].
  - intros [p V] v. destruct p; simpl; intros; by simplify_eq.
  - intros [p V] σ κ e' σ' efs (_ & c & Hs). by destruct p.
Qed.

Canonical Structure rust_lang : language := Language rust_lang_mixin.

#[export] Instance state_inhabited : Inhabited (language.state rust_lang) :=
  populate state_init.

(** ** Replaying a schedule *)

Abbreviation config := (list thread * state)%type.

Definition step_at (i : nat) (c : choice) (ρ : config) : option config :=
  e ← ρ.1 !! i;
  '(e', σ', efs) ← step_thread c e ρ.2;
  Some (<[i := e']> ρ.1 ++ efs, σ').

Fixpoint run (sched : list (nat * choice)) (ρ : config) : option config :=
  match sched with
  | [] => Some ρ
  | (i, c) :: sched => ρ' ← step_at i c ρ; run sched ρ'
  end.

Lemma step_at_sound i c ρ ρ' : step_at i c ρ = Some ρ' → erased_step ρ ρ'.
Proof.
  destruct ρ as [tp σ]. unfold step_at; simpl.
  destruct (tp !! i) as [e|] eqn:Hi; [|done]; simpl.
  destruct (step_thread c e σ) as [[[e' σ'] efs]|] eqn:Hs; [|done]; simpl.
  intros [= <-]. exists [].
  eapply (step_atomic (Λ := rust_lang)) with (t1 := take i tp) (t2 := drop (S i) tp).
  - by rewrite take_drop_middle.
  - f_equal. rewrite insert_take_drop; [|by eapply lookup_lt_Some].
    by rewrite -app_assoc.
  - split; [done|]. by exists c.
Qed.

Lemma run_sound sched ρ ρ' : run sched ρ = Some ρ' → rtc erased_step ρ ρ'.
Proof.
  induction sched as [|[i c] sched IH] in ρ |- *; simpl.
  - intros [= ->]. apply rtc_refl.
  - destruct (step_at i c ρ) as [ρ1|] eqn:Hs; [|done]; simpl. intros Hr.
    eapply rtc_l; [by eapply step_at_sound|by apply IH].
Qed.

(** ** What a program promises *)

Definition config_init (p : prog unit) : config := ([(p, tview_init)], state_init).

Definition reachable (p : prog unit) (ρ : config) : Prop :=
  rtc erased_step (config_init p) ρ.

(** Whatever the schedule and the choices of the memory: no thread ever has
    undefined behaviour (a data race, an access to freed or uninitialised
    memory), the state always satisfies [I], and when the main thread ends its
    outcome and the state satisfy [Q]. *)
Definition safe (p : prog unit) (I : state → Prop)
    (Q : outcome unit → state → Prop) : Prop :=
  ∀ tp σ, reachable p (tp, σ) →
    (∀ e, e ∈ tp → not_stuck e σ) ∧
    I σ ∧
    (∀ v tp', tp = thread_of_val v :: tp' → Q v.1 σ).

(** ** Undefined behaviour, found by running *)

(** The next operation has no step, whatever the machine chooses. *)
Definition undefined (e : thread) (σ : state) : bool :=
  let none {A} (x : option A) := match x with None => true | Some _ => false end in
  match e.1 with
  | UB => true
  | Act (OFree l) _ => none (exec_free l e.2 σ)
  | Act (ORead l) _ => none (exec_read l e.2 σ)
  | Act (OWrite l v) _ => none (exec_write l v e.2 σ)
  | _ => false
  end.

Lemma undefined_stuck e σ : undefined e σ = true → ¬ not_stuck e σ.
Proof.
  destruct e as [p V]. intros Hu [[v Hv]|(κ & e' & σ' & efs & _ & c & Hs)].
  - by destruct p.
  - destruct p as [| | |o k| |]; try done. revert Hs. simpl.
    destruct o; try done; cbn in Hu |- *;
      [destruct (exec_free _ _ _)|destruct (exec_read _ _ _)|destruct (exec_write _ _ _ _)];
      done.
Qed.

(** Some thread is in that situation. *)
Definition undefined_config (ρ : config) : bool := existsb (λ e, undefined e ρ.2) ρ.1.

(** A schedule that leads to undefined behaviour. *)
Lemma run_undefined sched p I Q :
  (ρ ← run sched (config_init p); Some (undefined_config ρ)) = Some true →
  ¬ safe p I Q.
Proof.
  destruct (run _ _) as [[tp σ]|] eqn:Hr; [|done]. intros [= Hu] Hsafe.
  apply existsb_exists in Hu as (e & He & Hu).
  destruct (Hsafe tp σ) as [Hns _]; [by eapply run_sound|].
  eapply undefined_stuck; [done|]. apply Hns. by apply list_elem_of_In.
Qed.
