(* ===== verification/Runs.v ===== *)
(** * Executions found by running

    [safe] bounds what a program may do; the executions here show what it can
    do.  [round_robin] gives every thread one step in turn, with the newest
    write for every read, and so finds an execution that ends. *)

From iris.program_logic Require Import language.
From S2P Require Import Prelude Memory Lang.

(** What an execution from the start of [p] to the end of its main thread may
    return and print. *)
Definition can_end (p : prog unit) (o : outcome unit) (os : list output) : Prop :=
  ∃ V tp σ, reachable p (thread_of_val (o, V) :: tp, σ) ∧ out σ = os.

Definition newest_of (l : loc) (σ : state) : time :=
  match heap σ !! l with Some (CAtomic h _ _) => last_time h | _ => 0 end.

(** The choice for the next operation of a thread; [z] is what the
    environment supplies. *)
Definition newest_choice (z : Z) (e : thread) (σ : state) : choice :=
  let at_loc l := Choice (newest_of l σ) (S (newest_of l σ)) false z in
  match e.1 with
  | Act (OLoad l _) _ | Act (OStore l _ _) _ | Act (ORmw l _ _ _ _) _ => at_loc l
  | _ => Choice 0 0 false z
  end.

Fixpoint round_robin (fuel : nat) (z : Z) (i : nat) (ρ : config) : config :=
  match fuel with
  | 0 => ρ
  | S fuel =>
      match ρ.1 !! i with
      | None => round_robin fuel z 0 ρ
      | Some e =>
          let ρ' := default ρ (step_at i (newest_choice z e ρ.2) ρ) in
          match ρ'.1 with
          | e0 :: _ => if thread_to_val e0 then ρ' else round_robin fuel z (S i) ρ'
          | [] => ρ'
          end
      end
  end.

Lemma round_robin_sound fuel z i (ρ : config) : rtc erased_step ρ (round_robin fuel z i ρ).
Proof.
  induction fuel as [|fuel IH] in i, ρ |- *; simpl; [done|].
  destruct (ρ.1 !! i) as [e|]; [|apply IH].
  assert (∀ ρ', rtc erased_step ρ ρ' → rtc erased_step ρ match ρ'.1 with
    | e0 :: _ => if thread_to_val e0 then ρ' else round_robin fuel z (S i) ρ'
    | [] => ρ'
    end) as Hgo.
  { intros ρ' Hr. destruct (ρ'.1) as [|e0 ?]; [done|]. destruct (thread_to_val e0); [done|].
    etrans; [exact Hr|apply IH]. }
  apply Hgo. destruct (step_at _ _ ρ) as [ρ'|] eqn:Hs; [|done].
  apply rtc_once. by eapply step_at_sound.
Qed.

(** How the main thread of a configuration ended, and the output. *)
Definition result (ρ : config) : option (outcome unit * list output) :=
  e ← head ρ.1; v ← thread_to_val e; Some (v.1, out ρ.2).

Lemma can_end_result p o os ρ :
  rtc erased_step (config_init p) ρ → result ρ = Some (o, os) → can_end p o os.
Proof.
  intros Hr Ho. destruct ρ as [[|[q V] tp] σ]; [done|]. unfold result in Ho.
  exists V, tp, σ. destruct q; simplify_eq/=; done.
Qed.

Lemma can_end_by fuel z p o os :
  result (round_robin fuel z 0 (config_init p)) = Some (o, os) → can_end p o os.
Proof. apply can_end_result, round_robin_sound. Qed.

Lemma can_end_run sched p o os :
  (ρ ← run sched (config_init p); result ρ) = Some (o, os) → can_end p o os.
Proof.
  destruct (run _ _) as [ρ|] eqn:Hr; [|done]. apply can_end_result. by eapply run_sound.
Qed.

(** A plan of threads to step; a read may be told which write it reads. *)
Fixpoint follow (plan : list (nat * option time)) (ρ : config) : config :=
  match plan with
  | [] => ρ
  | (i, t) :: plan =>
      let pick e := match t with
        | Some t => Choice t 0 false 0
        | None => newest_choice 0 e ρ.2
        end in
      follow plan (default ρ (e ← ρ.1 !! i; step_at i (pick e) ρ))
  end.

Lemma follow_sound plan (ρ : config) : rtc erased_step ρ (follow plan ρ).
Proof.
  induction plan as [|[i t] plan IH] in ρ |- *; simpl; [done|].
  destruct (ρ.1 !! i) as [e|]; [|apply IH]. simpl.
  destruct (step_at _ _ ρ) as [ρ'|] eqn:Hs; [|apply IH].
  etrans; [|apply IH]. apply rtc_once. by eapply step_at_sound.
Qed.

Lemma can_end_follow plan fuel p o os :
  result (round_robin fuel 0 0 (follow plan (config_init p))) = Some (o, os) → can_end p o os.
Proof. apply can_end_result. etrans; [apply follow_sound|apply round_robin_sound]. Qed.

Ltac by_running fuel :=
  apply (can_end_by (Z.to_nat fuel%Z) 0%Z); vm_compute; reflexivity.

(** What an execution may have printed so far. *)
Definition can_print (p : prog unit) (os : list output) : Prop :=
  ∃ tp σ, reachable p (tp, σ) ∧ out σ = os.

Lemma can_print_by fuel z p :
  can_print p (out (round_robin fuel z 0 (config_init p)).2).
Proof.
  pose proof (round_robin_sound fuel z 0 (config_init p)) as Hr. revert Hr.
  destruct (round_robin _ _ _ _) as [tp σ]. by exists tp, σ.
Qed.

Lemma can_print_run sched p os :
  (out ∘ snd <$> run sched (config_init p)) = Some os → can_print p os.
Proof.
  destruct (run _ _) as [[tp σ]|] eqn:Hr; [|done]. intros [= <-].
  exists tp, σ. split; [by eapply run_sound|done].
Qed.

Lemma can_print_follow plan p os :
  out (follow plan (config_init p)).2 = os → can_print p os.
Proof.
  intros <-. pose proof (follow_sound plan (config_init p)) as Hr. revert Hr.
  destruct (follow _ _) as [tp σ]. by exists tp, σ.
Qed.
