(* ===== verification/Sequential.v ===== *)
(** * A thread that runs alone is sequential

    A reference semantics without views: a heap of plain values that one
    thread reads and writes.  What a program that starts no threads can return
    and print under the memory model of [Memory] is what it can return and
    print here, whatever its orderings ([can_end_sequential]); and here it can
    be computed ([seval]). *)

From iris.program_logic Require Import language.
From S2P Require Import Prelude Memory History Lang Runs.

(** ** The reference semantics *)

Inductive scell : Type := SAtomic (z : Z) | SData (v : val) | SFreed.

Record smem : Type := SMem { sheap : gmap loc scell; sout : list output }.

Definition sinit : smem := SMem ∅ [].

Definition sset (l : loc) (c : scell) (m : smem) : smem :=
  SMem (<[l := c]> (sheap m)) (sout m).

(** The address of a new object, as in [Memory]. *)
Definition sfresh (m : smem) : loc := fresh_loc ((λ _, CFreed) <$> sheap m).

(** One operation; [fail] is whether a weak exchange fails, [z] what the
    environment supplies. *)
Definition sexec (fail : bool) (z : Z) (o : op) (m : smem) : option (res o * smem) :=
  match o return option (res o * smem) with
  | OAlloc v => Some (sfresh m, sset (sfresh m) (SData v) m)
  | OAllocAtomic v => Some (sfresh m, sset (sfresh m) (SAtomic v) m)
  | OFree l =>
      match sheap m !! l with
      | Some (SAtomic _) | Some (SData _) => Some ((), sset l SFreed m)
      | _ => None
      end
  | ORead l => match sheap m !! l with Some (SData v) => Some (v, m) | _ => None end
  | OWrite l v =>
      match sheap m !! l with Some (SData _) => Some ((), sset l (SData v) m) | _ => None end
  | OLoad l _ | OGetMut l =>
      match sheap m !! l with Some (SAtomic v) => Some (v, m) | _ => None end
  | OStore l v _ | OSetMut l v =>
      match sheap m !! l with Some (SAtomic _) => Some ((), sset l (SAtomic v) m) | _ => None end
  | ORmw l f weak _ _ =>
      match sheap m !! l with
      | Some (SAtomic v) =>
          match (if weak && fail then None else f v) with
          | Some v' => Some ((v, true), sset l (SAtomic v') m)
          | None => Some ((v, false), m)
          end
      | _ => None
      end
  | OFence _ => Some ((), m)
  | OPrint x => Some ((), SMem (sheap m) (sout m ++ [x]))
  | OInput => Some (z, m)
  end.

Definition sstep {A} (fail : bool) (z : Z) (ρ : prog A * smem) : option (prog A * smem) :=
  match ρ.1 with
  | Act o k => '(r, m') ← sexec fail z o ρ.2; Some (k r, m')
  | Loop body s k => Some (unroll body s k, ρ.2)
  | _ => None
  end.

Definition sred {A} (ρ ρ' : prog A * smem) : Prop := ∃ fail z, sstep fail z ρ = Some ρ'.

(** [p] can end with the outcome [o] and the memory [m']. *)
Definition sends {A} (p : prog A) (m : smem) (o : outcome A) (m' : smem) : Prop :=
  rtc sred (p, m) (of_outcome o, m').

(** Programs that start no threads. *)
Fixpoint no_fork {A} (p : prog A) : Prop :=
  match p with
  | Fork _ _ => False
  | Act _ k => ∀ r, no_fork (k r)
  | Loop body _ k => (∀ s, no_fork (body s)) ∧ ∀ o, no_fork (k o)
  | _ => True
  end.

(** ** What a program can do, by its structure *)

Lemma sred_act {A} o (k : res o → prog A) m ρ :
  sred (Act o k, m) ρ ↔ ∃ fail z r m', sexec fail z o m = Some (r, m') ∧ ρ = (k r, m').
Proof.
  split.
  - intros (f & z & Hs). revert Hs. cbn. destruct (sexec f z o m) as [[r m']|] eqn:He; [|done].
    intros [= <-]. by exists f, z, r, m'.
  - intros (f & z & r & m' & He & ->). exists f, z. cbn. by rewrite He.
Qed.

Lemma sred_loop {A S R} (body : S → prog (S + R)) s (k : outcome R → prog A) m ρ :
  sred (Loop body s k, m) ρ ↔ ρ = (unroll body s k, m).
Proof. split; [by intros (f & z & [= <-])|]. intros ->. by exists false, 0%Z. Qed.

Lemma sred_value {A} (o : outcome A) m ρ : ¬ sred (of_outcome o, m) ρ.
Proof. intros (f & z & Hs). by destruct o. Qed.

Lemma sred_catch {A B} (p p' : prog A) m m' (k : outcome A → prog B) :
  sred (p, m) (p', m') → sred (catch p k, m) (catch p' k, m').
Proof.
  destruct p as [| | |o k'| |S R body s k']; try (by intros (? & ? & ?)); simpl.
  - intros (f & z & r & m1 & He & [= -> ->])%sred_act. apply sred_act. by exists f, z, r, m1.
  - intros [= -> ->]%sred_loop. apply sred_loop. by rewrite catch_unroll.
Qed.

Lemma nsends_catch {A B} n (p : prog A) m (k : outcome A → prog B) o m' :
  nsteps sred n (catch p k, m) (of_outcome o, m') →
  ∃ n1 n2 o1 m1, n = n1 + n2 ∧ nsteps sred n1 (p, m) (of_outcome o1, m1) ∧
    nsteps sred n2 (k o1, m1) (of_outcome o, m').
Proof.
  revert p m. induction n as [|n IH]; intros p m Hn.
  { inversion Hn as [? Heq|]; subst.
    destruct p as [a|s| | | |]; [exists 0, 0, (Ok a), m'|exists 0, 0, (Panicked s), m'| | | |];
      [split_and!; by repeat constructor..| | | |]; by destruct o. }
  inversion Hn as [|? ? [p2 m2] ? Hs Hn']; subst.
  assert (∀ p1 m1, (p2, m2) = (catch p1 k, m1) → sred (p, m) (p1, m1) →
    ∃ n1 n2 o1 m1, S n = n1 + n2 ∧ nsteps sred n1 (p, m) (of_outcome o1, m1) ∧
      nsteps sred n2 (k o1, m1) (of_outcome o, m')) as Hstep.
  { intros p1 m1 [= -> ->] Hs1. destruct (IH _ _ Hn') as (n1 & n2 & o1 & m2 & -> & H1 & H2).
    exists (S n1), n2, o1, m2. split_and!; [done| |done]. by econstructor. }
  destruct p as [a|s| |o1 k'| |S R body s k'].
  - exists 0, (Datatypes.S n), (Ok a), m. split_and!; [done|constructor|done].
  - exists 0, (Datatypes.S n), (Panicked s), m. split_and!; [done|constructor|done].
  - by destruct Hs as (? & ? & ?).
  - apply sred_act in Hs as (f & z & r & m1 & He & Heq).
    eapply (Hstep (k' r) m1); [done|]. apply sred_act. by exists f, z, r, m1.
  - by destruct Hs as (? & ? & ?).
  - apply sred_loop in Hs. eapply (Hstep (unroll body s k') m); [by rewrite catch_unroll|].
    by apply sred_loop.
Qed.

Lemma sends_catch {A B} (p : prog A) m (k : outcome A → prog B) o m' :
  sends (catch p k) m o m' ↔ ∃ o1 m1, sends p m o1 m1 ∧ sends (k o1) m1 o m'.
Proof.
  split.
  - intros [n Hn]%rtc_nsteps. destruct (nsends_catch _ _ _ _ _ _ Hn)
      as (n1 & n2 & o1 & m1 & -> & H1 & H2).
    exists o1, m1. split; by eapply rtc_nsteps_2.
  - intros (o1 & m1 & H1 & H2). eapply (transitivity (R := rtc sred)); [|exact H2].
    assert (k o1 = catch (of_outcome o1) k) as -> by by destruct o1.
    apply (rtc_congruence (λ ρ, (catch ρ.1 k, ρ.2)) sred _ _ ltac:(intros [] []; apply sred_catch) H1).
Qed.

Lemma sends_of_outcome {A} (o o' : outcome A) m m' :
  sends (of_outcome o) m o' m' ↔ o' = o ∧ m' = m.
Proof.
  split; [|intros [-> ->]; apply rtc_refl]. intros [|(ρ & Hs & _)]%rtc_inv; [|by destruct (sred_value o m ρ)].
  destruct o, o'; by simplify_eq/=.
Qed.

Lemma sends_ret {A} (a : A) m o m' : sends (Ret a) m o m' ↔ o = Ok a ∧ m' = m.
Proof. apply (sends_of_outcome (Ok a)). Qed.
Lemma sends_panic {A} s m (o : outcome A) m' :
  sends (Panic s) m o m' ↔ o = Panicked s ∧ m' = m.
Proof. apply (sends_of_outcome (Panicked s)). Qed.

Lemma sends_act {A} op (k : res op → prog A) m o m' :
  sends (Act op k) m o m' ↔
  ∃ fail z r m1, sexec fail z op m = Some (r, m1) ∧ sends (k r) m1 o m'.
Proof.
  split.
  - intros H. apply rtc_inv in H as [H|(ρ & Hs & Hr)]; [by destruct o|].
    apply sred_act in Hs as (f & z & r & m1 & He & ->). by exists f, z, r, m1.
  - intros (f & z & r & m1 & He & Hr). eapply rtc_l; [|exact Hr].
    apply sred_act. by exists f, z, r, m1.
Qed.

Lemma sends_loop {A S R} (body : S → prog (S + R)) s (k : outcome R → prog A) m o m' :
  sends (Loop body s k) m o m' ↔ sends (unroll body s k) m o m'.
Proof.
  split.
  - intros H. apply rtc_inv in H as [H|(ρ & Hs & Hr)]; [by destruct o|].
    apply sred_loop in Hs as ->. done.
  - intros Hr. eapply rtc_l; [|exact Hr]. by apply sred_loop.
Qed.

Lemma sends_bind {A B} (p : prog A) m (k : A → prog B) o m' :
  sends (p ≫= k) m o m' ↔
  ∃ o1 m1, sends p m o1 m1 ∧
    match o1 with Ok a => sends (k a) m1 o m' | Panicked s => o = Panicked s ∧ m' = m1 end.
Proof.
  rewrite /mbind /prog_bind sends_catch. split.
  - intros (o1 & m1 & H1 & H2). exists o1, m1. split; [done|]. destruct o1; [done|].
    by apply sends_panic.
  - intros (o1 & m1 & H1 & H2). exists o1, m1. split; [done|]. destruct o1; [done|].
    by apply sends_panic.
Qed.

(** ** The memory model, seen by a thread that is alone *)

(** It has seen the newest write of every atomic and every access. *)
Definition cell_rel (W : view) (l : loc) (c : cell) (s : scell) : Prop :=
  match c, s with
  | CAtomic h N A, SAtomic z =>
      ∃ t m, newest h t ∧ h !! t = Some m ∧ mval m = z ∧ N ∪ A ⊆ W ∧ Coh l t ∈ W
  | CData v Ws Rs, SData v' => v = v' ∧ Ws ∪ Rs ⊆ W
  | CFreed, SFreed => True
  | _, _ => False
  end.

Definition alone (V : tview) (σ : state) (m : smem) : Prop :=
  out σ = sout m ∧
  ∀ l, option_Forall2 (cell_rel (cur V) l) (heap σ !! l) (sheap m !! l).

Lemma cell_rel_mono W W' l c s : W ⊆ W' → cell_rel W l c s → cell_rel W' l c s.
Proof.
  intros HW. destruct c, s; simpl; try done; [|intros [? ?]; split; [done|by etrans]].
  intros (t & m & ? & ? & ? & ? & ?). exists t, m. split_and!; try done; [by etrans|by apply HW].
Qed.

Lemma alone_mono V V' σ m : cur V ⊆ cur V' → alone V σ m → alone V' σ m.
Proof.
  intros HV [Ho Hm]. split; [done|]. intros l. specialize (Hm l).
  destruct Hm; constructor. by eapply cell_rel_mono.
Qed.

Lemma alone_sc V S σ m : alone V (set_sc S σ) m ↔ alone V σ m.
Proof. done. Qed.
Lemma alone_sc_record V o l t σ m : alone V (sc_record o l t σ) m ↔ alone V σ m.
Proof. rewrite /sc_record. by destruct (is_seqcst o). Qed.

Lemma alone_set V V' σ m l c s :
  alone V σ m → cur V ⊆ cur V' → cell_rel (cur V') l c s →
  alone V' (set_cell l c σ) (sset l s m).
Proof.
  intros [Ho Hm] HV Hc. split; [done|]. intros l'. simpl.
  destruct (decide (l' = l)) as [->|].
  - rewrite !lookup_insert_eq. by constructor.
  - rewrite !lookup_insert_ne //. specialize (Hm l'). destruct Hm; constructor.
    by eapply cell_rel_mono.
Qed.

(** An operation that leaves the value. *)
Lemma alone_touch V V' σ m l c s :
  alone V σ m → sheap m !! l = Some s → cur V ⊆ cur V' → cell_rel (cur V') l c s →
  alone V' (set_cell l c σ) m.
Proof.
  intros Ha Hl HV Hc. assert (m = sset l s m) as ->; [|by apply (alone_set V)].
  rewrite /sset insert_id //. by destruct m.
Qed.

Lemma alone_lookup V σ m l s :
  alone V σ m → sheap m !! l = Some s → ∃ c, heap σ !! l = Some c ∧ cell_rel (cur V) l c s.
Proof. intros [_ Hm] Hl. specialize (Hm l). rewrite Hl in Hm. inversion Hm; eauto. Qed.
Lemma alone_lookup_cell V σ m l c :
  alone V σ m → heap σ !! l = Some c → ∃ s, sheap m !! l = Some s ∧ cell_rel (cur V) l c s.
Proof. intros [_ Hm] Hl. specialize (Hm l). rewrite Hl in Hm. inversion Hm; eauto. Qed.

Lemma alone_fresh V σ m : alone V σ m → fresh_loc (heap σ) = sfresh m.
Proof.
  intros [_ Hm]. rewrite /sfresh.
  assert ((λ _, CFreed) <$> heap σ = (λ _, CFreed) <$> sheap m) as <-.
  { apply map_eq. intros l. rewrite !lookup_fmap. by destruct (Hm l). }
  by rewrite /fresh_loc map_fold_fmap.
Qed.

(** The bounds leave it one choice of what to read. *)
Lemma alone_reads_newest l h V o σ t0 t :
  newest h t0 → Coh l t0 ∈ cur V → is_Some (h !! t) → coh_le l h (bound o V σ) t → t = t0.
Proof.
  intros [[m0 H0] Hmax] Hcoh [m Hm] Hle. apply Nat.le_antisymm; [by eapply Hmax|].
  eapply Hle; [done|]. rewrite /bound. set_solver.
Qed.

Lemma alone_load V σ m t l o z V' σ' :
  alone V σ m → exec_load t l o V σ = Some (z, V', σ') →
  sheap m !! l = Some (SAtomic z) ∧ alone V' σ' m.
Proof.
  intros Ha. rewrite /exec_load. destruct (heap σ !! l) as [[h N A| |]|] eqn:Hl; [|done..].
  destruct (h !! t) as [mt|] eqn:Ht; [|done]. case_decide as Hd; [|done]. intros [= <- <- <-].
  destruct Hd as [_ Hle].
  destruct (alone_lookup_cell _ _ _ _ _ Ha Hl) as ([z'| |] & Hs & Hc); try done.
  destruct Hc as (t0 & m0 & Hn & Hm0 & Hz & HNA & Hcoh).
  pose proof (alone_reads_newest _ _ _ _ _ _ _ Hn Hcoh (mk_is_Some _ _ Ht) Hle) as ->.
  simplify_eq. split; [done|]. apply alone_sc_record.
  eapply alone_touch; [done..|simpl; set_solver|]. exists t0, mt. simpl. set_solver.
Qed.

Lemma alone_store V σ m t l z o r V' σ' :
  alone V σ m → exec_store t l z o V σ = Some (r, V', σ') →
  (∃ z0, sheap m !! l = Some (SAtomic z0)) ∧ alone V' σ' (sset l (SAtomic z) m).
Proof.
  intros Ha. rewrite /exec_store. destruct (heap σ !! l) as [[h N A| |]|] eqn:Hl; [|done..].
  case_decide as Hd; [|done]. intros [= <- <- <-]. destruct Hd as (_ & _ & Hlt).
  destruct (alone_lookup_cell _ _ _ _ _ Ha Hl) as ([z'| |] & Hs & Hc); try done.
  destruct Hc as (t0 & m0 & Hn & Hm0 & Hz & HNA & Hcoh). split; [by eexists|].
  apply alone_sc_record. eapply alone_set; [done|simpl; set_solver|].
  assert (t0 < t) by (eapply Hlt; [done|]; rewrite /bound; set_solver).
  eexists t, _. split_and!; [eapply newest_insert_last; [done|lia]|by rewrite lookup_insert_eq|done|..];
    simpl; set_solver.
Qed.

Lemma alone_rmw_write V σ m t l v z o r V' σ' :
  alone V σ m → hist_val t l σ = Some v → exec_rmw_write t l z o V σ = Some (r, V', σ') →
  sheap m !! l = Some (SAtomic v) ∧ alone V' σ' (sset l (SAtomic z) m).
Proof.
  intros Ha. rewrite /hist_val /exec_rmw_write.
  destruct (heap σ !! l) as [[h N A| |]|] eqn:Hl; [|done..].
  destruct (h !! t) as [mt|] eqn:Ht; [|done]. intros [= <-].
  case_decide as Hd; [|done]. intros [= <- <- <-]. destruct Hd as (_ & _ & Hle).
  destruct (alone_lookup_cell _ _ _ _ _ Ha Hl) as ([z'| |] & Hs & Hc); try done.
  destruct Hc as (t0 & m0 & Hn & Hm0 & Hz & HNA & Hcoh).
  pose proof (alone_reads_newest _ _ _ _ _ _ _ Hn Hcoh (mk_is_Some _ _ Ht) Hle) as ->.
  simplify_eq. split; [done|]. apply alone_sc_record. eapply alone_set; [done|simpl; set_solver|].
  eexists (S t0), _. split_and!;
    [eapply newest_insert_last; [done|lia]|by rewrite lookup_insert_eq|done|..];
    simpl; set_solver.
Qed.

Lemma alone_rmw V σ m c l f weak o o' r V' σ' :
  alone V σ m → exec_rmw c l f weak o o' V σ = Some (r, V', σ') →
  ∃ m', sexec (ch_fail c) (ch_input c) (ORmw l f weak o o') m = Some (r, m') ∧ alone V' σ' m'.
Proof.
  intros Ha. rewrite /exec_rmw. destruct (hist_val _ l σ) as [v|] eqn:Hv; [|done]. cbn.
  destruct (if weak && ch_fail c then None else f v) as [z|] eqn:Hf; cbn.
  - destruct (exec_rmw_write _ l z o V σ) as [[[u V1] σ1]|] eqn:He; [|done]. intros [= <- <- <-].
    destruct (alone_rmw_write _ _ _ _ _ _ _ _ _ _ _ Ha Hv He) as [Hl Ha'].
    rewrite Hl Hf. by eexists.
  - destruct (exec_load _ l o' V σ) as [[[u V1] σ1]|] eqn:He; [|done]. intros [= <- <- <-].
    assert (u = v) as ->.
    { revert He Hv. rewrite /exec_load /hist_val. destruct (heap σ !! l) as [[h N A| |]|]; try done.
      destruct (h !! ch_read c); [|done]. case_decide; [|done]. by intros [= <- <- <-] [= <-]. }
    destruct (alone_load _ _ _ _ _ _ _ _ _ Ha He) as [Hl Ha']. rewrite Hl Hf. by eexists.
Qed.

Lemma alone_free V σ m l r V' σ' :
  alone V σ m → exec_free l V σ = Some (r, V', σ') →
  ∃ m', sexec false 0 (OFree l) m = Some (r, m') ∧ alone V' σ' m'.
Proof.
  intros Ha. rewrite /exec_free. destruct (heap σ !! l) as [c|] eqn:Hl; [|done].
  destruct (alone_lookup_cell _ _ _ _ _ Ha Hl) as (s & Hs & Hc). cbn. rewrite Hs.
  destruct c, s; try done; case_decide; try done; intros [= <- <- <-]; eexists;
    (split; [done|]); by eapply alone_set.
Qed.

Lemma alone_data V σ m l v W R :
  alone V σ m → heap σ !! l = Some (CData v W R) →
  sheap m !! l = Some (SData v) ∧ W ∪ R ⊆ cur V.
Proof.
  intros Ha Hl. destruct (alone_lookup_cell _ _ _ _ _ Ha Hl) as ([| |] & Hs & Hc); try done.
  destruct Hc as [-> ?]. done.
Qed.

(** What the thread does is what the reference does... *)
Lemma alone_exec V σ m c o r V' σ' :
  alone V σ m → exec_op c o V σ = Some (r, V', σ') →
  ∃ m', sexec (ch_fail c) (ch_input c) o m = Some (r, m') ∧ alone V' σ' m'.
Proof.
  intros Ha. destruct o; cbn [exec_op].
  - intros [= <- <- <-]. cbn. rewrite (alone_fresh _ _ _ Ha). eexists; split; [done|].
    eapply alone_set; [done|simpl; set_solver|]. split; [done|]. simpl. set_solver.
  - intros [= <- <- <-]. cbn. rewrite (alone_fresh _ _ _ Ha). eexists; split; [done|].
    eapply alone_set; [done|simpl; set_solver|]. exists 0, (Msg z ∅).
    split_and!; [apply newest_singleton|by rewrite lookup_singleton_eq|done|simpl; set_solver..].
  - by apply alone_free.
  - rewrite /exec_read. destruct (heap σ !! l) as [[|v W R|]|] eqn:Hl; try done.
    destruct (alone_data _ _ _ _ _ _ _ Ha Hl) as [Hs HW]. case_decide; [|done].
    intros [= <- <- <-]. cbn. rewrite Hs. eexists; split; [done|].
    eapply alone_touch; [done..|simpl; set_solver|]. split; [done|]. simpl. set_solver.
  - rewrite /exec_write. destruct (heap σ !! l) as [[|v' W R|]|] eqn:Hl; try done.
    destruct (alone_data _ _ _ _ _ _ _ Ha Hl) as [Hs HW]. case_decide; [|done].
    intros [= <- <- <-]. cbn. rewrite Hs. eexists; split; [done|].
    eapply alone_set; [done|simpl; set_solver|]. split; [done|]. simpl. set_solver.
  - intros He. destruct (alone_load _ _ _ _ _ _ _ _ _ Ha He) as [Hl Ha']. cbn. rewrite Hl. eauto.
  - intros He. destruct (alone_store _ _ _ _ _ _ _ _ _ _ Ha He) as [[z0 Hl] Ha']. cbn.
    rewrite Hl. destruct r. eauto.
  - by apply alone_rmw.
  - intros [= He]. cbn. eexists. split; [by destruct r|].
    destruct o; simpl in He; simplify_eq; try done; apply (alone_mono V); simpl; try done; set_solver.
  - rewrite /exec_get_mut. destruct (heap σ !! l) as [[h N A| |]|] eqn:Hl; try done.
    destruct (alone_lookup_cell _ _ _ _ _ Ha Hl) as ([z'| |] & Hs & Hc); try done.
    destruct Hc as (t0 & m0 & Hn & Hm0 & Hz & HNA & Hcoh).
    rewrite (newest_last_time _ _ Hn) Hm0. case_decide; [|done]. intros [= <- <- <-]. cbn.
    rewrite Hs Hz. eexists; split; [done|]. eapply alone_touch; [done..|simpl; set_solver|].
    exists t0, m0. simpl. set_solver.
  - rewrite /exec_set_mut. destruct (heap σ !! l) as [[h N A| |]|] eqn:Hl; try done.
    destruct (alone_lookup_cell _ _ _ _ _ Ha Hl) as ([z'| |] & Hs & Hc); try done.
    destruct Hc as (t0 & m0 & Hn & Hm0 & Hz & HNA & Hcoh).
    case_decide; [|done]. intros [= <- <- <-]. cbn. rewrite Hs. eexists; split; [done|].
    eapply alone_set; [done|simpl; set_solver|]. eexists _, _.
    split_and!; [apply newest_singleton|by rewrite lookup_singleton_eq|done|simpl; set_solver..].
  - intros [= <- <- <-]. cbn. eexists; split; [done|]. destruct Ha as [Ho Hm].
    split; [|done]. simpl. by rewrite Ho.
  - intros [= <- <- <-]. cbn. eauto.
Qed.

(** ... and it can do all of that. *)
Lemma alone_can V σ m fail z o :
  alone V σ m → is_Some (sexec fail z o m) →
  ∃ t t', is_Some (exec_op (Choice t t' fail z) o V σ).
Proof.
  intros Ha. assert (∀ l v, sheap m !! l = Some (SAtomic v) → ∃ h N A t mt,
    heap σ !! l = Some (CAtomic h N A) ∧ newest h t ∧ h !! t = Some mt ∧ mval mt = v ∧
    N ⊆ cur V ∧ A ⊆ cur V) as Hat.
  { intros l v Hl. destruct (alone_lookup _ _ _ _ _ Ha Hl) as ([h N A| |] & Hh & Hc); try done.
    destruct Hc as (t & mt & ? & ? & ? & ? & _). exists h, N, A, t, mt. set_solver. }
  assert (∀ l v, sheap m !! l = Some (SData v) → ∃ W R,
    heap σ !! l = Some (CData v W R) ∧ W ⊆ cur V ∧ R ⊆ cur V) as Hda.
  { intros l v Hl. destruct (alone_lookup _ _ _ _ _ Ha Hl) as ([|v' W R|] & Hh & Hc); try done.
    destruct Hc as [-> ?]. exists W, R. set_solver. }
  destruct o; cbn; try (by exists 0, 0); destruct (sheap m !! l) as [[v0|v0|]|] eqn:Hl;
    intros [? ?]; try done;
    first [destruct (Hat _ _ Hl) as (h & N & A & t & mt & Hh & Hn & Hm & Hv & HN & HA)
          |destruct (Hda _ _ Hl) as (W & R & Hh & HW & HR)].
  - exists 0, 0. rewrite /exec_free Hh decide_True //.
  - exists 0, 0. rewrite /exec_free Hh decide_True //. set_solver.
  - exists 0, 0. rewrite /exec_read Hh decide_True //.
  - exists 0, 0. rewrite /exec_write Hh decide_True //. set_solver.
  - exists t, 0. rewrite /exec_load Hh Hm decide_True //. auto with rust_db.
  - exists 0, (S t). rewrite /exec_store Hh decide_True //. auto with rust_db.
  - exists t, 0. rewrite /exec_rmw /hist_val Hh /= Hm /= Hv. rewrite /mbind /=.
    destruct (if weak && fail then None else f v0).
    + rewrite /exec_rmw_write Hh Hm decide_True //. auto with rust_db.
    + rewrite /exec_load Hh Hm decide_True //. auto with rust_db.
  - exists 0, 0. rewrite /exec_get_mut Hh (newest_last_time _ _ Hn) Hm decide_True //.
  - exists 0, 0. rewrite /exec_set_mut Hh decide_True //.
Qed.

Lemma no_fork_catch {A B} (p : prog A) (k : outcome A → prog B) :
  no_fork p → (∀ o, no_fork (k o)) → no_fork (catch p k).
Proof.
  intros Hp Hk.
  induction p as [ | | |? o k' IH|? c _ k' IH|? S R body _ s k' IH]; simpl in *; try done; auto.
  destruct Hp as [Hb Hp]. split; [done|]. auto.
Qed.

Lemma no_fork_bind {A B} (p : prog A) (k : A → prog B) :
  no_fork p → (∀ a, no_fork (k a)) → no_fork (p ≫= k).
Proof. intros Hp Hk. apply no_fork_catch; [done|]. intros [a|m]; [apply Hk|done]. Qed.

(** By following the program. *)
Ltac no_fork_follow :=
  repeat first
    [ progress intros
    | exact Logic.I
    | match goal with
      | |- no_fork (_ ≫= _) => apply no_fork_bind
      | |- no_fork (catch _ _) => apply no_fork_catch
      | |- no_fork (Act _ _) => cbn; intros
      | |- no_fork (Loop _ _ _) => split; intros
      | |- no_fork match ?x with _ => _ end => is_const x; unfold x
      | |- no_fork match ?x with _ => _ end => destruct x
      | |- no_fork ?p => let q := eval red in p in change (no_fork q)
      end ].

Lemma alone_sim p V σ m p' V' σ' c efs :
  no_fork p → alone V σ m → step_thread c (p, V) σ = Some ((p', V'), σ', efs) →
  efs = [] ∧ no_fork p' ∧ ∃ m', sred (p, m) (p', m') ∧ alone V' σ' m'.
Proof.
  intros Hp Ha. destruct p as [| | |o k| |S R body s k]; try done; cbn.
  - destruct (exec_op c o V σ) as [[[r V1] σ1]|] eqn:He; [|done]. intros [= <- <- <- <-].
    destruct (alone_exec _ _ _ _ _ _ _ _ Ha He) as (m' & Hs & Ha'). split_and!; [done|apply Hp|].
    exists m'. split; [|done]. apply sred_act. eauto 10.
  - intros [= <- <- <- <-]. destruct Hp as [Hb Hk]. split_and!; [done| |].
    + apply no_fork_catch; [done|]. intros [[]|]; simpl; auto.
    + exists m. split; [|done]. by apply sred_loop.
Qed.

Lemma alone_complete p V σ m p' m' :
  alone V σ m → sred (p, m) (p', m') →
  ∃ c V' σ', step_thread c (p, V) σ = Some ((p', V'), σ', []) ∧ alone V' σ' m'.
Proof.
  intros Ha. destruct p as [| | |o k| |S R body s k]; try (by intros (? & ? & ?)).
  - intros (f & z & r & m1 & Hs & [= -> ->])%sred_act.
    destruct (alone_can V σ m f z o Ha ltac:(eauto)) as (t & t' & [[[r' V'] σ'] He]).
    destruct (alone_exec _ _ _ _ _ _ _ _ Ha He) as (m2 & Hs' & Ha'). simpl in Hs'.
    rewrite Hs in Hs'. injection Hs' as <- <-. exists (Choice t t' f z), V', σ'. split; [|done].
    cbn. by rewrite He.
  - intros [= -> ->]%sred_loop. exists (Choice 0 0 false 0), V, σ. done.
Qed.

Lemma alone_init : alone tview_init state_init sinit.
Proof. split; [done|]. intros l. rewrite !lookup_empty. constructor. Qed.

Lemma reachable_alone p ρ :
  no_fork p → reachable p ρ →
  ∃ p' V m, ρ.1 = [(p', V)] ∧ no_fork p' ∧ rtc sred (p, sinit) (p', m) ∧ alone V ρ.2 m.
Proof.
  intros Hp. revert ρ. apply rtc_ind_r; [|intros ρ ρ' _ [κ Hs] IH].
  { exists p, tview_init, sinit. split_and!; try done. apply alone_init. }
  destruct IH as (p1 & V & m & Hρ & Hp1 & Hr & Ha). destruct ρ as [tp σ]. simpl in *. subst tp.
  inversion Hs as [e1 σ1 e2 σ2 efs t1 t2 Heq -> Hstep]. simplify_eq.
  destruct t1 as [|? [|? ?]]; simplify_eq/=. destruct e2 as [p2 V2], Hstep as (_ & c & Hstep).
  destruct (alone_sim _ _ _ _ _ _ _ _ _ Hp1 Ha Hstep) as (-> & Hp2 & m2 & Hm2 & Ha2).
  exists p2, V2, m2. split_and!; try done. by eapply rtc_r.
Qed.

Lemma alone_reachable p V0 σ0 m0 p' m :
  alone V0 σ0 m0 → rtc sred (p, m0) (p', m) →
  ∃ V σ, rtc erased_step ([(p, V0)], σ0) ([(p', V)], σ) ∧ alone V σ m.
Proof.
  intros Ha Hr. remember (p, m0) as ρ0 eqn:H0. remember (p', m) as ρ eqn:H1.
  induction Hr as [|? [p1 m1] ? Hs _ IH] in p, m0, V0, σ0, Ha, H0, H1 |- *; simplify_eq.
  { exists V0, σ0. done. }
  destruct (alone_complete _ _ _ _ _ _ Ha Hs) as (c & V1 & σ1 & Hstep & Ha1).
  destruct (IH _ _ _ _ Ha1 eq_refl eq_refl) as (V & σ & Hr & Ha'). exists V, σ. split; [|done].
  eapply rtc_l; [|exact Hr]. apply (step_at_sound 0 c). unfold step_at. cbn [lookup list_lookup fst snd].
  cbn [mbind option_bind]. by rewrite Hstep.
Qed.

(** What a program without threads can return and print is what it can in the
    reference. *)
Lemma can_end_sequential p o os :
  no_fork p → can_end p o os ↔ ∃ m, sends p sinit o m ∧ sout m = os.
Proof.
  intros Hp. split.
  - intros (V & tp & σ & Hr & Ho). destruct (reachable_alone _ _ Hp Hr) as (p' & V' & m & Heq & _ & Hm & Ha).
    exists m. destruct Ha as [<- _]. split; [|done]. revert Heq. cbn.
    by intros [= <- _ _].
  - intros (m & Hm & <-). destruct (alone_reachable _ _ _ _ _ _ alone_init Hm) as (V & σ & Hr & [Ho _]).
    by exists V, [], σ.
Qed.

(** ** Programs with one result *)

(** [p] ends with the outcome [o] and the memory [m'], and with no other. *)
Definition evals {A} (p : prog A) (m : smem) (o : outcome A) (m' : smem) : Prop :=
  ∀ o1 m1, sends p m o1 m1 ↔ o1 = o ∧ m1 = m'.

Lemma evals_ret {A} (a : A) m : evals (Ret a) m (Ok a) m.
Proof. intros ??. apply sends_ret. Qed.
Lemma evals_panic {A} s m : evals (A := A) (Panic s) m (Panicked s) m.
Proof. intros ??. apply sends_panic. Qed.

Lemma evals_catch {A B} (p : prog A) (k : outcome A → prog B) m o1 m1 o m' :
  evals p m o1 m1 → evals (k o1) m1 o m' → evals (catch p k) m o m'.
Proof.
  intros Hp Hk o2 m2. rewrite sends_catch. rewrite -(Hk o2 m2). split.
  - intros (o3 & m3 & [-> ->]%Hp & H). done.
  - intros H. exists o1, m1. split; [by apply Hp|done].
Qed.

Lemma evals_bind {A B} (p : prog A) (k : A → prog B) m a m1 o m' :
  evals p m (Ok a) m1 → evals (k a) m1 o m' → evals (p ≫= k) m o m'.
Proof. intros Hp Hk. by eapply evals_catch. Qed.

(** The operations that leave no choice to a thread that is alone. *)
Definition choiceless (o : op) : bool :=
  match o with ORmw _ _ weak _ _ => negb weak | OInput => false | _ => true end.

Lemma choiceless_sexec o f z f' z' m : choiceless o → sexec f z o m = sexec f' z' o m.
Proof. destruct o as [| | | | | | |? ? [] ? ?| | | | |]; done. Qed.

Lemma evals_act {A} op (k : res op → prog A) m r m1 o m' :
  choiceless op → sexec false 0 op m = Some (r, m1) → evals (k r) m1 o m' →
  evals (Act op k) m o m'.
Proof.
  intros Hc He Hk o2 m2. rewrite sends_act -(Hk o2 m2). split.
  - intros (f & z & r' & m3 & He' & H). rewrite (choiceless_sexec _ _ _ false 0) // He in He'.
    by simplify_eq.
  - intros H. by exists false, 0%Z, r, m1.
Qed.

Lemma evals_loop {A S R} (body : S → prog (S + R)) s (k : outcome R → prog A) m o m' :
  evals (unroll body s k) m o m' → evals (Loop body s k) m o m'.
Proof. intros H o2 m2. rewrite sends_loop. apply H. Qed.

(** A loop whose body may be repeated without effect, as with a weak exchange. *)
Lemma evals_retry {A S R} (body : S → prog (S + R)) s (k : outcome R → prog A) m r m1 o m' :
  (∀ o2 m2, sends (body s) m o2 m2 ↔
    o2 = Ok (inl s) ∧ m2 = m ∨ o2 = Ok (inr r) ∧ m2 = m1) →
  evals (k (Ok r)) m1 o m' → evals (Loop body s k) m o m'.
Proof.
  intros Hb Hk o2 m2. split.
  - intros [n Hn]%rtc_nsteps. induction n as [n IH] using lt_wf_ind.
    inversion Hn as [|n' ? ? ? Hs Hn']; subst; [by destruct o2|]. apply sred_loop in Hs as ->.
    destruct (nsends_catch _ _ _ _ _ _ Hn') as (n1 & n2 & o3 & m3 & -> & H1 & H2).
    apply rtc_nsteps_2 in H1.
    apply Hb in H1 as [[-> ->]|[-> ->]]; [apply (IH n2); [lia|done]|].
    apply Hk. by eapply rtc_nsteps_2.
  - intros H%Hk. apply sends_loop, sends_catch. exists (Ok (inr r)), m1. split; [|done].
    apply Hb. by right.
Qed.

(** The result, computed. *)
Fixpoint seval {A} (fuel : nat) (p : prog A) (m : smem) : option (outcome A * smem) :=
  match fuel with
  | 0 => None
  | S fuel =>
      match p with
      | Ret a => Some (Ok a, m)
      | Panic s => Some (Panicked s, m)
      | Act o k =>
          if choiceless o then '(r, m1) ← sexec false 0 o m; seval fuel (k r) m1 else None
      | Loop body s k => seval fuel (unroll body s k) m
      | UB | Fork _ _ => None
      end
  end.

Lemma seval_sound {A} fuel (p : prog A) m o m' : seval fuel p m = Some (o, m') → evals p m o m'.
Proof.
  revert p m. induction fuel as [|fuel IH]; [done|].
  intros [a|s| |op k| |S R body s k] m; cbn; try done.
  - intros [= <- <-]. apply evals_ret.
  - intros [= <- <-]. apply evals_panic.
  - destruct (choiceless op) eqn:Hc; [|done]. destruct (sexec _ _ _ _) as [[r m1]|] eqn:He; [|done].
    intros H%IH. eapply evals_act; [by rewrite Hc|done|done].
  - intros H%IH. by apply evals_loop.
Qed.

(** A program with one result has it under the memory model too. *)
Lemma evals_can_end p o m' :
  no_fork p → evals p sinit o m' → ∀ o1 os, can_end p o1 os ↔ o1 = o ∧ os = sout m'.
Proof.
  intros Hp He o1 os. rewrite can_end_sequential //. split.
  - by intros (m & [-> ->]%He & <-).
  - intros [-> ->]. exists m'. split; [by apply He|done].
Qed.

(** The same for a program that is evaluated. *)
Lemma seval_can_end fuel p os :
  no_fork p → (∃ m, seval fuel p sinit = Some (Ok tt, m) ∧ sout m = os) →
  ∀ o os', can_end p o os' ↔ o = Ok tt ∧ os' = os.
Proof. intros Hp (m & Hs & <-). eapply evals_can_end; [done|]. by eapply seval_sound. Qed.
