(* ===== verification/Logic.v ===== *)
(** * A program logic for the models

    Weakest preconditions for the programs of [Lang], on Iris's generic ones.
    A triple mentions the views of the thread; ownership of a cell of the
    memory is one assertion, which invariants share between threads, opened
    around a single memory operation. *)

From iris.proofmode Require Import proofmode.
From iris.base_logic.lib Require Import ghost_map ghost_var invariants.
From iris.program_logic Require Import weakestpre lifting adequacy.
From S2P Require Import Prelude Memory Lang.

Class rustGpreS Σ := RustGpreS {
  rust_pre_inv :: invGpreS Σ;
  rust_pre_heap :: ghost_mapG Σ loc cell;
  rust_pre_out :: ghost_varG Σ (list output);
  rust_pre_sc :: ghost_varG Σ view
}.

Class rustGS Σ := RustGS {
  rust_inv :: invGS Σ;
  rust_heap :: ghost_mapG Σ loc cell;
  rust_out :: ghost_varG Σ (list output);
  rust_sc :: ghost_varG Σ view;
  heap_name : gname;
  out_name : gname;
  sc_name : gname
}.

Definition rustΣ : gFunctors :=
  #[invΣ; ghost_mapΣ loc cell; ghost_varΣ (list output); ghost_varΣ view].

#[export] Instance subG_rustΣ Σ : subG rustΣ Σ → rustGpreS Σ.
Proof. solve_inG. Qed.

Definition state_ok `{!rustGS Σ} (σ : state) : iProp Σ :=
  ghost_map_auth heap_name 1 (heap σ) ∗
  ghost_var out_name (1/2) (out σ) ∗
  ghost_var sc_name (1/2) (sc_view σ).

#[export] Instance rust_irisGS `{!rustGS Σ} : irisGS rust_lang Σ := {
  iris_invGS := rust_inv;
  state_interp σ _ _ _ := state_ok σ;
  fork_post _ := True%I;
  num_laters_per_step _ := 0;
  state_interp_mono _ _ _ _ := fupd_intro _ _
}.

(** Ownership of the cell at [l], of what was printed, of the [SeqCst] view. *)
Definition cell_at `{!rustGS Σ} (l : loc) (c : cell) : iProp Σ :=
  l ↪[heap_name] c.
Definition printed `{!rustGS Σ} (o : list output) : iProp Σ :=
  ghost_var out_name (1/2) o.
Definition sc_is `{!rustGS Σ} (W : view) : iProp Σ :=
  ghost_var sc_name (1/2) W.

Notation "l ↦ c" := (cell_at l c) (at level 20, format "l  ↦  c") : bi_scope.

#[export] Instance cell_at_timeless `{!rustGS Σ} l c : Timeless (l ↦ c).
Proof. apply _. Qed.
#[export] Instance printed_timeless `{!rustGS Σ} o : Timeless (printed o).
Proof. apply _. Qed.

(** [wpo p V Φ]: run from the views [V], [p] has no undefined behaviour, and
    when it ends its outcome and final views satisfy [Φ]. *)
Definition wpo `{!rustGS Σ} {A} (p : prog A) (V : tview)
    (Φ : outcome A → tview → iProp Σ) : iProp Σ :=
  ∀ (k : outcome A → prog unit) (Ψ : outcome unit * tview → iProp Σ),
    (∀ o V', ⌜V ⊆ V'⌝ -∗ Φ o V' -∗ WP ((k o, V') : thread) {{ Ψ }}) -∗
    WP ((catch p k, V) : thread) {{ Ψ }}.

(** The same for a program that does not panic. *)
Definition no_panic {Σ A} (Φ : A → tview → iProp Σ) (o : outcome A) (V : tview)
    : iProp Σ :=
  match o with Ok a => Φ a V | Panicked _ => False end.
Definition wpp `{!rustGS Σ} {A} (p : prog A) (V : tview)
    (Φ : A → tview → iProp Σ) : iProp Σ :=
  wpo p V (no_panic Φ).

Section rules.
Context `{!rustGS Σ}.
Implicit Types (V : tview) (σ : state) (l : loc).

(** ** Structural rules *)

Lemma wpo_wand {A} (p : prog A) V Φ Φ' :
  wpo p V Φ -∗ (∀ o V', ⌜V ⊆ V'⌝ -∗ Φ o V' -∗ Φ' o V') -∗ wpo p V Φ'.
Proof.
  iIntros "Hp HΦ" (k Ψ) "Hk". iApply "Hp". iIntros (o V' Hle) "Ho".
  iApply ("Hk" with "[//]"). by iApply "HΦ".
Qed.

Lemma wpp_wand {A} (p : prog A) V Φ Φ' :
  wpp p V Φ -∗ (∀ a V', ⌜V ⊆ V'⌝ -∗ Φ a V' -∗ Φ' a V') -∗ wpp p V Φ'.
Proof.
  iIntros "Hp HΦ". iApply (wpo_wand with "Hp"). iIntros ([a|m] V' Hle) "Ho"; [|done].
  by iApply "HΦ".
Qed.

Lemma wpp_wpo {A} (p : prog A) V Φ :
  wpp p V (λ a, Φ (Ok a)) -∗ wpo p V Φ.
Proof.
  iIntros "Hp". iApply (wpo_wand with "Hp"). iIntros ([a|m] V' Hle) "Ho"; done.
Qed.

Lemma wpo_ret {A} (a : A) V Φ : Φ (Ok a) V -∗ wpo (Ret a) V Φ.
Proof. iIntros "HΦ" (k Ψ) "Hk". by iApply ("Hk" with "[//]"). Qed.

Lemma wpp_ret {A} (a : A) V Φ : Φ a V -∗ wpp (mret a) V Φ.
Proof. iIntros "HΦ". by iApply wpo_ret. Qed.

Lemma wpo_panic {A} m V Φ : Φ (Panicked m) V -∗ wpo (Panic m : prog A) V Φ.
Proof. iIntros "HΦ" (k Ψ) "Hk". by iApply ("Hk" with "[//]"). Qed.

Lemma wpo_catch {A B} (p : prog A) (h : outcome A → prog B) V Φ :
  wpo p V (λ o V', wpo (h o) V' Φ) -∗ wpo (catch p h) V Φ.
Proof.
  iIntros "Hp" (k Ψ) "Hk". rewrite catch_catch. iApply "Hp".
  iIntros (o V' Hle) "Ho". iApply "Ho". iIntros (o' V'' Hle') "Ho".
  iApply ("Hk" with "[%] Ho"). by etrans.
Qed.

Lemma wpo_bind {A B} (p : prog A) (k : A → prog B) V Φ :
  wpo p V (λ o V', match o with
                   | Ok a => wpo (k a) V' Φ
                   | Panicked m => Φ (Panicked m) V'
                   end) -∗
  wpo (p ≫= k) V Φ.
Proof.
  iIntros "Hp". iApply wpo_catch. iApply (wpo_wand with "Hp").
  iIntros ([a|m] V' Hle) "Ho"; [done|]. by iApply wpo_panic.
Qed.

Lemma wpp_bind {A B} (p : prog A) (k : A → prog B) V Φ :
  wpp p V (λ a V', wpp (k a) V' Φ) -∗ wpp (p ≫= k) V Φ.
Proof.
  iIntros "Hp". iApply wpo_bind. iApply (wpo_wand with "Hp").
  iIntros ([a|m] V' Hle) "Ho"; done.
Qed.

Lemma wpp_bind_wpo {A B} (p : prog A) (k : A → prog B) V Φ :
  wpp p V (λ a V', wpo (k a) V' Φ) -∗ wpo (p ≫= k) V Φ.
Proof.
  iIntros "Hp". iApply wpo_bind. iApply (wpo_wand with "Hp").
  iIntros ([a|m] V' Hle) "Ho"; done.
Qed.

Lemma wpo_fupd {A} (p : prog A) V Φ : (|={⊤}=> wpo p V Φ) -∗ wpo p V Φ.
Proof.
  iIntros "Hp" (k Ψ) "Hk". iApply fupd_wp. iMod "Hp". by iApply "Hp".
Qed.

Lemma wpo_post_fupd {A} (p : prog A) V Φ :
  wpo p V (λ o V', |={⊤}=> Φ o V') -∗ wpo p V Φ.
Proof.
  iIntros "Hp" (k Ψ) "Hk". iApply "Hp". iIntros (o V' Hle) "Ho".
  iApply fupd_wp. iMod "Ho". by iApply ("Hk" with "[//]").
Qed.

Lemma wpp_post_fupd {A} (p : prog A) V Φ :
  wpp p V (λ a V', |={⊤}=> Φ a V') -∗ wpp p V Φ.
Proof.
  iIntros "Hp". iApply wpo_post_fupd. iApply (wpo_wand with "Hp").
  by iIntros ([a|m] V' _) "H".
Qed.

#[global] Instance wpo_elim_fupd {A} p P (p' : prog A) V Φ :
  ElimModal True p false (|={⊤}=> P) P (wpo p' V Φ) (wpo p' V Φ).
Proof.
  rewrite /ElimModal bi.intuitionistically_if_elim. iIntros (_) "[HP Hw]".
  iApply wpo_fupd. iMod "HP". iModIntro. by iApply "Hw".
Qed.
#[global] Instance wpp_elim_fupd {A} p P (p' : prog A) V Φ :
  ElimModal True p false (|={⊤}=> P) P (wpp p' V Φ) (wpp p' V Φ).
Proof. apply wpo_elim_fupd. Qed.
#[global] Instance wpo_elim_bupd {A} p P (p' : prog A) V Φ :
  ElimModal True p false (|==> P) P (wpo p' V Φ) (wpo p' V Φ).
Proof.
  rewrite /ElimModal bi.intuitionistically_if_elim. iIntros (_) "[HP Hw]".
  iApply wpo_fupd. iMod "HP". iModIntro. by iApply "Hw".
Qed.
#[global] Instance wpp_elim_bupd {A} p P (p' : prog A) V Φ :
  ElimModal True p false (|==> P) P (wpp p' V Φ) (wpp p' V Φ).
Proof. apply wpo_elim_bupd. Qed.

(** Loops: [I] holds before every turn. *)
Lemma wpo_loop {S R} (I : S → tview → iProp Σ) (body : S → prog (S + R)) s V Φ :
  □ (∀ s V', ⌜V ⊆ V'⌝ -∗ I s V' -∗
     wpo (body s) V' (λ o V'', match o with
       | Ok (inl s') => I s' V''
       | Ok (inr r) => Φ (Ok r) V''
       | Panicked m => Φ (Panicked m) V''
       end)) -∗
  I s V -∗ wpo (loop body s) V Φ.
Proof.
  iIntros "#Hbody HI" (k Ψ) "Hk". rewrite /loop /=.
  iAssert (∀ V1 s, ⌜V ⊆ V1⌝ -∗ I s V1 -∗
    (∀ o V', ⌜V ⊆ V'⌝ -∗ Φ o V' -∗ WP ((k o, V') : thread) {{ Ψ }}) -∗
    WP ((Loop body s (λ o, catch (of_outcome o) k), V1) : thread) {{ Ψ }})%I
    as "Hloop"; last by iApply ("Hloop" with "[//] HI Hk").
  iLöb as "IH". iIntros (V1 s1 Hle1) "HI Hk".
  iApply (wp_lift_pure_step_no_fork _ _ ⊤).
  { intros σ. eexists [], _, _, _. split; [done|]. by exists (Choice 0 0 false 0). }
  { intros κ σ e2 σ2 efs (-> & c & Hs). by simplify_eq/=. }
  iIntros "!> !> !>" (κ e2 efs σ (-> & c & Hs)) "_". simplify_eq/=.
  iApply ("Hbody" with "[//] HI"). iIntros (o V2 Hle2) "Ho".
  assert (V ⊆ V2) by (by etrans).
  destruct o as [[s'|r]|m]; simpl.
  - by iApply ("IH" with "[//] Ho Hk").
  - by iApply ("Hk" with "[//] Ho").
  - by iApply ("Hk" with "[//] Ho").
Qed.

Lemma wpp_loop {S R} (I : S → tview → iProp Σ) (body : S → prog (S + R)) s V Φ :
  □ (∀ s V', ⌜V ⊆ V'⌝ -∗ I s V' -∗
     wpp (body s) V' (λ r V'', match r with
       | inl s' => I s' V''
       | inr r => Φ r V''
       end)) -∗
  I s V -∗ wpp (loop body s) V Φ.
Proof.
  iIntros "#Hbody HI". iApply (wpo_loop I with "[] HI").
  iIntros "!>" (s' V' Hle) "HI". iApply (wpo_wand with "[HI]").
  { by iApply "Hbody". }
  iIntros ([[?|?]|?] V'' ?) "H"; done.
Qed.

Lemma wpo_fork (c : prog unit) V Φ :
  wpo c (tview_spawn V) (λ _ _, True) -∗ Φ (Ok tt) V -∗
  wpo (Fork c (Ret tt)) V Φ.
Proof.
  iIntros "Hc HΦ" (k Ψ) "Hk". iApply wp_lift_step; [done|].
  iIntros (σ ns κ κs nt) "Hσ". iApply fupd_mask_intro; [set_solver|].
  iIntros "Hclose". iSplit.
  { iPureIntro. eexists [], _, _, _. split; [done|]. by exists (Choice 0 0 false 0). }
  iIntros "!>" (e2 σ2 efs (-> & ch & Hs)) "_". simplify_eq/=.
  iMod "Hclose" as "_". iModIntro. iFrame "Hσ". iSplitL "Hk HΦ".
  - by iApply ("Hk" with "[//]").
  - iSplit; [|done]. rewrite -{2}(catch_of_outcome c). iApply "Hc".
    iIntros (o V' _) "_". iApply wp_unfold. destruct o; by rewrite /wp_pre.
Qed.

(** ** The memory operations *)

Lemma wpp_act (o : op) E V Φ :
  (∀ σ, state_ok σ ={⊤,E}=∗
    ⌜∃ c x, exec_op c o V σ = Some x⌝ ∗
    ▷ ∀ c r V' σ', ⌜exec_op c o V σ = Some (r, V', σ')⌝ ={E,⊤}=∗
      state_ok σ' ∗ ⌜V ⊆ V'⌝ ∗ Φ r V') -∗
  wpp (act o) V Φ.
Proof.
  iIntros "H" (k Ψ) "Hk". iApply wp_lift_step; [done|].
  iIntros (σ ns κ κs nt) "Hσ". iMod ("H" with "Hσ") as ((c0 & [[r0 V0] σ0] & Hx)) "H".
  iApply fupd_mask_intro; [set_solver|]. iIntros "Hclose". iSplit.
  { iPureIntro. eexists [], _, _, _. split; [done|]. exists c0. simpl. by rewrite Hx. }
  iIntros "!>" (e2 σ2 efs (-> & c & Hs)) "_". simpl in Hs.
  destruct (exec_op c o V σ) as [[[r V'] σ']|] eqn:He; [|done]. simplify_eq/=.
  iMod "Hclose" as "_". iMod ("H" with "[//]") as "($ & % & HΦ)".
  iModIntro. iSplitL; [|done]. by iApply ("Hk" with "[//]").
Qed.
End rules.

(** ** From the logic back to the machine *)

Lemma adequacy Σ `{!rustGpreS Σ} p tp σ (φ : Prop) :
  reachable p (tp, σ) →
  (∀ `{!rustGS Σ}, ⊢ printed [] -∗ sc_is ∅ ={⊤}=∗ ∃ Ψ : outcome unit → iProp Σ,
     wpo p tview_init (λ o _, Ψ o) ∗
     (⌜∀ e, e ∈ tp → not_stuck e σ⌝ -∗ state_ok σ -∗
      (∀ v tp', ⌜tp = thread_of_val v :: tp'⌝ -∗ Ψ v.1) ={⊤,∅}=∗ ⌜φ⌝)) →
  φ.
Proof.
  intros (n & κs & Hsteps)%erased_steps_nsteps Hwp.
  refine (wp_strong_adequacy Σ rust_lang NotStuck _ _ n κs tp σ φ (λ _, 0) _ Hsteps).
  intros Hinv.
  iMod (ghost_map_alloc_empty (K := loc) (V := cell)) as (γh) "Hh".
  iMod (ghost_var_alloc ([] : list output)) as (γo) "[Ho Hp]".
  iMod (ghost_var_alloc (∅ : view)) as (γs) "[Hs Hsc]".
  pose (G := RustGS Σ Hinv _ _ _ γh γo γs).
  iMod (Hwp G with "Hp Hsc") as (Ψ) "[Hwp Hφ]".
  iModIntro. iExists (λ σ _ _ _, state_ok σ), [λ v, Ψ v.1], (λ _, True)%I, _.
  iFrame "Hh Ho Hs". simpl. iSplitL "Hwp".
  { iSplit; [|done]. iEval (rewrite -(catch_of_outcome p)). iApply "Hwp".
    iIntros (o V' _) "Ho". iApply wp_unfold. destruct o; rewrite /wp_pre /=; by iFrame. }
  iIntros (es' t2' -> Hlen Hns) "Hσ Hpost _".
  iApply ("Hφ" with "[%] Hσ"); [naive_solver|].
  iIntros (v tp' Htp).
  destruct es' as [|e [|]]; simplify_eq/=. iDestruct "Hpost" as "[Hpost _]".
  destruct v as [[]?]; done.
Qed.

Lemma safe_adequacy Σ `{!rustGpreS Σ} p (I : state → Prop) Q :
  (∀ `{!rustGS Σ}, ⊢ printed [] -∗ sc_is ∅ ={⊤}=∗ ∃ Ψ : outcome unit → iProp Σ,
     wpo p tview_init (λ o _, Ψ o) ∗
     ((∀ σ, state_ok σ ={⊤,∅}=∗ ⌜I σ⌝) ∧
      (∀ o σ, Ψ o -∗ state_ok σ ={⊤,∅}=∗ ⌜Q o σ⌝))) →
  safe p I Q.
Proof.
  intros Hwp tp σ Hr. split_and!.
  - apply (adequacy Σ p tp σ _ Hr). iIntros (?) "Hp Hs".
    iMod (Hwp with "Hp Hs") as (Ψ) "[$ _]". iIntros "!> % _ _".
    iApply fupd_mask_intro; [set_solver|]. by iIntros "_".
  - apply (adequacy Σ p tp σ _ Hr). iIntros (?) "Hp Hs".
    iMod (Hwp with "Hp Hs") as (Ψ) "[$ [H _]]". iIntros "!> % Hσ _". by iApply "H".
  - intros v tp' ->. apply (adequacy Σ p _ σ _ Hr). iIntros (?) "Hp Hs".
    iMod (Hwp with "Hp Hs") as (Ψ) "[$ [_ H]]". iIntros "!> % Hσ HΨ".
    iApply ("H" with "[HΨ] Hσ"). by iApply "HΨ".
Qed.

(** The common case: the main thread, when it ends, knows the whole output. *)
Lemma safe_output Σ `{!rustGpreS Σ} p (Q : outcome unit → list output → Prop) :
  (∀ `{!rustGS Σ}, ⊢ printed [] -∗ sc_is ∅ -∗
     wpo p tview_init (λ o _, ∃ os, printed os ∗ ⌜Q o os⌝)) →
  safe p (λ _, True) (λ o σ, Q o (out σ)).
Proof.
  intros Hwp. apply (safe_adequacy Σ). iIntros (?) "Hp Hs !>".
  iExists _. iSplitL; [by iApply (Hwp with "Hp Hs")|]. iSplit.
  - iIntros (σ) "_". iApply fupd_mask_intro; [set_solver|]. by iIntros "_".
  - iIntros (o σ) "(%os & Hp & %HQ) (_ & Ho & _)".
    iDestruct (ghost_var_agree with "Ho Hp") as %->.
    iApply fupd_mask_intro; [set_solver|]. by iIntros "_".
Qed.

(** A program that does not panic. *)
Lemma safe_no_panic Σ `{!rustGpreS Σ} p (Q : list output → Prop) :
  (∀ `{!rustGS Σ}, ⊢ printed [] -∗ sc_is ∅ -∗
     wpp p tview_init (λ _ _, ∃ os, printed os ∗ ⌜Q os⌝)) →
  safe p (λ _, True) (λ o σ, o = Ok tt ∧ Q (out σ)).
Proof.
  intros Hwp. apply (safe_output Σ p (λ o os, o = Ok tt ∧ Q os)).
  iIntros (?) "Hp Hs". iApply (wpo_wand with "[Hp Hs]").
  { iApply (Hwp with "Hp Hs"). }
  iIntros ([[]|m] V _) "H"; [|done]. iDestruct "H" as (os) "[Hp %]".
  iExists os. by iFrame.
Qed.

(** Another one: the output is in an invariant, of which [J] is a part. *)
Definition outN : namespace := nroot .@ "out".

Lemma safe_invariant Σ `{!rustGpreS Σ} p (J : list output → Prop) (Q : outcome unit → Prop) :
  (∀ `{!rustGS Σ}, ⊢ printed [] ={⊤}=∗ ∃ S : list output → iProp Σ,
     inv outN (∃ os, printed os ∗ ⌜J os⌝ ∗ S os) ∗ wpo p tview_init (λ o _, ⌜Q o⌝)) →
  safe p (λ σ, J (out σ)) (λ o _, Q o).
Proof.
  intros Hwp. apply (safe_adequacy Σ). iIntros (?) "Hp _".
  iMod (Hwp with "Hp") as (S) "[#Hinv Hp]". iModIntro. iExists (λ o, ⌜Q o⌝)%I.
  iFrame "Hp". iSplit.
  - iIntros (σ) "(_ & Ho & _)". iInv "Hinv" as (os) "(>Hos & >% & _)" "_".
    iDestruct (ghost_var_agree with "Ho Hos") as %->.
    iApply fupd_mask_intro; [set_solver|]. by iIntros "_".
  - iIntros (o σ) "% _". iApply fupd_mask_intro; [set_solver|]. by iIntros "_".
Qed.

(** A program that does not panic and prints nothing. *)
Lemma safe_quiet Σ `{!rustGpreS Σ} p :
  (∀ `{!rustGS Σ}, ⊢ wpp p tview_init (λ _ _, True)) →
  safe p (λ σ, out σ = []) (λ o _, o = Ok tt).
Proof.
  intros Hwp. apply (safe_invariant Σ p (λ os, os = []) (λ o, o = Ok tt)).
  iIntros (?) "Hp". iExists (λ _, True)%I.
  iMod (inv_alloc outN _ (∃ os, printed os ∗ ⌜os = []⌝ ∗ True) with "[Hp]") as "$".
  { iExists []. by iFrame. }
  iModIntro. iApply (wpo_wand with "[]"); [iApply Hwp|]. by iIntros ([[]|m] V _) "H".
Qed.
