(* ===== verification/Rules.v ===== *)
(** * Rules for the memory operations

    One rule per operation of [Memory].  The rules for atomics let the cell
    come out of an invariant for the duration of the operation. *)

From iris.proofmode Require Import proofmode.
From iris.base_logic.lib Require Import ghost_map ghost_var invariants.
From S2P Require Import Prelude Memory Lang Logic.

(** ** Views grow *)

Lemma load_view_le o l t m e V : V ⊆ load_view o l t m e V.
Proof. apply observe_le. Qed.
Lemma store_view_le l t e V : V ⊆ store_view l t e V.
Proof. apply observe_le. Qed.
Lemma rmw_view_le o l t m e V : V ⊆ rmw_view o l t m e V.
Proof. apply observe_le. Qed.
#[export] Hint Resolve load_view_le store_view_le rmw_view_le : rust_db.

(** An acquire operation adds the view of the message it reads. *)
Lemma load_view_acq o l t m e V :
  is_acquire o = true → mview m ⊆ cur (load_view o l t m e V).
Proof. unfold load_view, observe; simpl. intros ->. set_solver. Qed.
Lemma rmw_view_acq o l t m e V :
  is_acquire o = true → mview m ⊆ cur (rmw_view o l t m e V).
Proof. unfold rmw_view, observe; simpl. intros ->. set_solver. Qed.

(** What is read without acquiring waits for an acquire fence. *)
Lemma load_view_later o l t m e V : mview m ⊆ acq (load_view o l t m e V).
Proof. unfold load_view, observe; simpl. set_solver. Qed.
Lemma rmw_view_later o l t m e V : mview m ⊆ acq (rmw_view o l t m e V).
Proof. unfold rmw_view, observe; simpl. set_solver. Qed.

Lemma load_view_coh o l t m e V : Coh l t ∈ cur (load_view o l t m e V).
Proof. unfold load_view, observe; simpl. set_solver. Qed.
Lemma store_view_coh l t e V : Coh l t ∈ cur (store_view l t e V).
Proof. unfold store_view, observe; simpl. set_solver. Qed.
Lemma rmw_view_coh o l t m e V : Coh l (S t) ∈ cur (rmw_view o l t m e V).
Proof. unfold rmw_view, observe; simpl. set_solver. Qed.

Lemma load_view_acc o l t m e V : Acc e ∈ cur (load_view o l t m e V).
Proof. unfold load_view, observe; simpl. set_solver. Qed.
Lemma store_view_acc l t e V : Acc e ∈ cur (store_view l t e V).
Proof. unfold store_view, observe; simpl. set_solver. Qed.
Lemma rmw_view_acc o l t m e V : Acc e ∈ cur (rmw_view o l t m e V).
Proof. unfold rmw_view, observe; simpl. set_solver. Qed.
#[export] Hint Resolve load_view_acq rmw_view_acq load_view_coh store_view_coh
  rmw_view_coh load_view_acc store_view_acc rmw_view_acc : rust_db.

Section rules.
Context `{!rustGS Σ}.
Implicit Types (V : tview) (σ : state) (l : loc) (h : hist) (N A : view).

Lemma state_ok_lookup σ l c : state_ok σ -∗ l ↦ c -∗ ⌜heap σ !! l = Some c⌝.
Proof. iIntros "(Hh & _) Hl". iApply (ghost_map_lookup with "Hh Hl"). Qed.

Lemma state_ok_set σ l c c' :
  state_ok σ -∗ l ↦ c ==∗ state_ok (set_cell l c' σ) ∗ l ↦ c'.
Proof.
  iIntros "(Hh & $ & $) Hl". by iMod (ghost_map_update c' with "Hh Hl") as "[$ $]".
Qed.

Lemma state_ok_new σ c :
  state_ok σ ==∗
  state_ok (set_cell (fresh_loc (heap σ)) c σ) ∗ fresh_loc (heap σ) ↦ c.
Proof.
  iIntros "(Hh & $ & $)".
  iMod (ghost_map_insert (fresh_loc (heap σ)) c with "Hh") as "[$ $]"; [|done].
  apply fresh_loc_fresh.
Qed.

(** ** Allocation *)

Lemma wpp_alloc v V Φ :
  ▷ (∀ l e, l ↦ CData v {[Acc e]} ∅ -∗ Φ l (observe {[Acc e]} ∅ V)) -∗
  wpp (act (OAlloc v)) V Φ.
Proof.
  iIntros "HΦ". iApply wpp_act. iIntros (σ) "Hσ !>". iSplit.
  { iPureIntro. by exists (Choice 0 0 false 0); eexists. }
  iIntros "!>" (c r V' σ' [= <- <- <-]).
  iMod (state_ok_new with "Hσ") as "[$ Hl]". iModIntro.
  iSplit; [eauto with rust_db|]. by iApply "HΦ".
Qed.

Lemma wpp_alloc_atomic z V Φ :
  ▷ (∀ l e, l ↦ CAtomic {[0 := Msg z ∅]} {[Acc e]} {[Acc e]} -∗
     Φ l (observe ({[Coh l 0]} ∪ {[Acc e]}) ∅ V)) -∗
  wpp (act (OAllocAtomic z)) V Φ.
Proof.
  iIntros "HΦ". iApply wpp_act. iIntros (σ) "Hσ !>". iSplit.
  { iPureIntro. by exists (Choice 0 0 false 0); eexists. }
  iIntros "!>" (c r V' σ' [= <- <- <-]).
  iMod (state_ok_new with "Hσ") as "[$ Hl]". iModIntro.
  iSplit; [eauto with rust_db|]. by iApply "HΦ".
Qed.

(** ** Plain memory *)

Lemma wpp_read_inv E l V Φ :
  (|={⊤,E}=> ∃ v W R, ▷ l ↦ CData v W R ∗ ⌜W ⊆ cur V⌝ ∗
    ▷ (∀ e, l ↦ CData v W (R ∪ {[Acc e]}) ={E,⊤}=∗ Φ v (observe {[Acc e]} ∅ V))) -∗
  wpp (act (ORead l)) V Φ.
Proof.
  iIntros "H". iApply wpp_act. iIntros (σ) "Hσ".
  iMod "H" as (v W R) "(>Hl & % & H)".
  iDestruct (state_ok_lookup with "Hσ Hl") as %Hl. iModIntro. iSplit.
  { iPureIntro. exists (Choice 0 0 false 0). eexists.
    rewrite /= /exec_read Hl decide_True //. }
  iIntros "!>" (c r V' σ'). rewrite /= /exec_read Hl decide_True //.
  iIntros ([= <- <- <-]).
  iMod (state_ok_set with "Hσ Hl") as "[$ Hl]".
  iMod ("H" with "Hl") as "$". eauto with rust_db.
Qed.

Lemma wpp_write_inv E l w V Φ :
  (|={⊤,E}=> ∃ v W R, ▷ l ↦ CData v W R ∗ ⌜W ∪ R ⊆ cur V⌝ ∗
    ▷ (∀ e, l ↦ CData w (W ∪ {[Acc e]}) R ={E,⊤}=∗ Φ tt (observe {[Acc e]} ∅ V))) -∗
  wpp (act (OWrite l w)) V Φ.
Proof.
  iIntros "H". iApply wpp_act. iIntros (σ) "Hσ".
  iMod "H" as (v W R) "(>Hl & % & H)".
  iDestruct (state_ok_lookup with "Hσ Hl") as %Hl. iModIntro. iSplit.
  { iPureIntro. exists (Choice 0 0 false 0). eexists.
    rewrite /= /exec_write Hl decide_True //. }
  iIntros "!>" (c r V' σ'). rewrite /= /exec_write Hl decide_True //.
  iIntros ([= <- <- <-]).
  iMod (state_ok_set with "Hσ Hl") as "[$ Hl]".
  iMod ("H" with "Hl") as "$". eauto with rust_db.
Qed.

(** ** Atomics *)

Lemma wpp_load_inv E l o V Φ :
  is_seqcst o = false →
  (|={⊤,E}=> ∃ h N A, ▷ l ↦ CAtomic h N A ∗ ⌜N ⊆ cur V⌝ ∗ ⌜h ≠ ∅⌝ ∗
    ▷ (∀ t m e, ⌜h !! t = Some m⌝ -∗ ⌜coh_le l h (cur V) t⌝ -∗
       l ↦ CAtomic h N (A ∪ {[Acc e]}) ={E,⊤}=∗
       Φ (mval m) (load_view o l t m e V))) -∗
  wpp (act (OLoad l o)) V Φ.
Proof.
  iIntros (Ho) "H". iApply wpp_act. iIntros (σ) "Hσ".
  iMod "H" as (h N A) "(>Hl & % & %Hne & H)".
  iDestruct (state_ok_lookup with "Hσ Hl") as %Hl. iModIntro.
  pose proof (bound_cur _ V σ Ho) as Hb.
  iSplit.
  { iPureIntro. destruct (newest_exists _ Hne) as (t & Hnew).
    pose proof Hnew as [[m Hm] _]. exists (Choice t 0 false 0). eexists.
    rewrite /= /exec_load Hl Hm decide_True //. eauto with rust_db. }
  iIntros "!>" (c r V' σ'). rewrite /= /exec_load Hl.
  destruct (h !! ch_read c) as [m|] eqn:Hm; [|by iIntros (?)].
  case_decide as Hd; [|by iIntros (?)]. rewrite Hb in Hd. destruct Hd as [_ Hd].
  rewrite /sc_record Ho. iIntros ([= <- <- <-]).
  iMod (state_ok_set with "Hσ Hl") as "[$ Hl]".
  iMod ("H" with "[//] [//] Hl") as "$". eauto with rust_db.
Qed.

Lemma wpp_store_inv E l z o V Φ :
  is_seqcst o = false →
  (|={⊤,E}=> ∃ h N A, ▷ l ↦ CAtomic h N A ∗ ⌜N ⊆ cur V⌝ ∗ ⌜h ≠ ∅⌝ ∗
    ▷ (∀ t e, ⌜h !! t = None⌝ -∗ ⌜coh_lt l h (cur V) t⌝ -∗
       l ↦ CAtomic (<[t := store_msg o z (store_view l t e V)]> h)
             N (A ∪ {[Acc e]}) ={E,⊤}=∗
       Φ tt (store_view l t e V))) -∗
  wpp (act (OStore l z o)) V Φ.
Proof.
  iIntros (Ho) "H". iApply wpp_act. iIntros (σ) "Hσ".
  iMod "H" as (h N A) "(>Hl & % & %Hne & H)".
  iDestruct (state_ok_lookup with "Hσ Hl") as %Hl. iModIntro.
  pose proof (bound_cur _ V σ Ho) as Hb.
  iSplit.
  { iPureIntro. destruct (newest_exists _ Hne) as (t & Hnew).
    exists (Choice 0 (S t) false 0). eexists.
    rewrite /= /exec_store Hl decide_True //. eauto with rust_db. }
  iIntros "!>" (c r V' σ'). rewrite /= /exec_store Hl.
  case_decide as Hd; [|by iIntros (?)]. rewrite Hb in Hd. destruct Hd as (_ & ? & ?).
  rewrite /sc_record Ho. iIntros ([= <- <- <-]).
  iMod (state_ok_set with "Hσ Hl") as "[$ Hl]".
  iMod ("H" with "[//] [//] Hl") as "$". eauto with rust_db.
Qed.

Lemma wpp_rmw_inv E l f weak os fo V Φ :
  is_seqcst os = false → is_seqcst fo = false →
  (|={⊤,E}=> ∃ h N A, ▷ l ↦ CAtomic h N A ∗ ⌜N ⊆ cur V⌝ ∗ ⌜h ≠ ∅⌝ ∗
    ▷ (∀ t m e, ⌜h !! t = Some m⌝ -∗ ⌜coh_le l h (cur V) t⌝ -∗
       (∀ z, ⌜f (mval m) = Some z⌝ -∗ ⌜h !! S t = None⌝ -∗
          l ↦ CAtomic (<[S t := rmw_msg os z m (rmw_view os l t m e V)]> h)
                N (A ∪ {[Acc e]}) ={E,⊤}=∗
          Φ (mval m, true) (rmw_view os l t m e V)) ∧
       (⌜f (mval m) = None ∨ weak = true⌝ -∗
          l ↦ CAtomic h N (A ∪ {[Acc e]}) ={E,⊤}=∗
          Φ (mval m, false) (load_view fo l t m e V)))) -∗
  wpp (act (ORmw l f weak os fo)) V Φ.
Proof.
  iIntros (Hos Hof) "H". iApply wpp_act. iIntros (σ) "Hσ".
  iMod "H" as (h N A) "(>Hl & % & %Hne & H)".
  iDestruct (state_ok_lookup with "Hσ Hl") as %Hl. iModIntro.
  pose proof (bound_cur _ V σ Hos) as Hb. pose proof (bound_cur _ V σ Hof) as Hb'.
  iSplit.
  { iPureIntro. destruct (newest_exists _ Hne) as (t & Hnew).
    pose proof Hnew as [[m Hm] _]. exists (Choice t 0 false 0).
    rewrite /= /exec_rmw /hist_val Hl /= Hm /= andb_false_r.
    destruct (f (mval m)); eexists.
    - rewrite /exec_rmw_write Hl Hm decide_True //. eauto with rust_db.
    - rewrite /exec_load Hl Hm decide_True //. eauto with rust_db. }
  iIntros "!>" (c r V' σ'). rewrite /= /exec_rmw /hist_val Hl /=.
  destruct (h !! ch_read c) as [m|] eqn:Hm; [|by iIntros (?)]. simpl.
  destruct (if weak && ch_fail c then None else f (mval m)) as [z|] eqn:Hf.
  - rewrite /exec_rmw_write Hl Hm. case_decide as Hd; [|by iIntros (?)].
    rewrite Hb in Hd. destruct Hd as (_ & ? & ?). rewrite /sc_record Hos /=.
    iIntros ([= <- <- <-]). iMod (state_ok_set with "Hσ Hl") as "[$ Hl]".
    iDestruct ("H" with "[//] [//]") as "[H _]".
    iMod ("H" with "[%] [//] Hl") as "$"; [|eauto with rust_db].
    by destruct (weak && ch_fail c).
  - rewrite /exec_load Hl Hm. case_decide as Hd; [|by iIntros (?)].
    rewrite Hb' in Hd. destruct Hd as (_ & ?). rewrite /sc_record Hof /=.
    iIntros ([= <- <- <-]). iMod (state_ok_set with "Hσ Hl") as "[$ Hl]".
    iDestruct ("H" with "[//] [//]") as "[_ H]".
    iMod ("H" with "[%] Hl") as "$"; [|eauto with rust_db].
    destruct weak, (ch_fail c); auto.
Qed.
(** ** Fences, exclusive accesses, deallocation, output, input *)

Lemma wpp_fence o V Φ :
  is_seqcst o = false →
  (∀ V', ⌜∀ σ, exec_fence o V σ = (tt, V', σ)⌝ -∗ Φ tt V') -∗
  wpp (act (OFence o)) V Φ.
Proof.
  iIntros (Ho) "H". iApply wpp_act. iIntros (σ) "Hσ !>". iSplit.
  { iPureIntro. by exists (Choice 0 0 false 0); eexists. }
  iIntros "!>" (c r V' σ' Heq). simpl in Heq.
  destruct o; simplify_eq/=; iFrame "Hσ"; (iSplitR;
    [by iPureIntro; split; simpl; set_solver|by iApply "H"]).
Qed.

Lemma wpp_fence_acquire V Φ :
  Φ tt (TView (acq V ∪ cur V) (acq V) (frel V)) -∗
  wpp (act (OFence Acquire)) V Φ.
Proof.
  iIntros "H". iApply wpp_fence; [done|]. iIntros (V' Heq).
  specialize (Heq state_init). by simplify_eq/=.
Qed.

(** The view after an acquire fence. *)
Lemma wpp_acquire_fence V Φ :
  (∀ V', ⌜V ⊆ V'⌝ -∗ ⌜acq V ∪ cur V ⊆ cur V'⌝ -∗ Φ tt V') -∗ wpp (act (OFence Acquire)) V Φ.
Proof.
  iIntros "HΦ". iApply wpp_fence_acquire. iApply "HΦ"; [|done].
  iPureIntro. split; simpl; set_solver.
Qed.

Lemma wpp_get_mut_inv E l V Φ :
  (|={⊤,E}=> ∃ h N A t m, ▷ l ↦ CAtomic h N A ∗ ⌜A ⊆ cur V⌝ ∗
    ⌜newest h t⌝ ∗ ⌜h !! t = Some m⌝ ∗
    ▷ (∀ e, l ↦ CAtomic h (N ∪ {[Acc e]}) (A ∪ {[Acc e]}) ={E,⊤}=∗
       Φ (mval m) (observe {[Acc e]} ∅ V))) -∗
  wpp (act (OGetMut l)) V Φ.
Proof.
  iIntros "H". iApply wpp_act. iIntros (σ) "Hσ".
  iMod "H" as (h N A t m) "(>Hl & % & %Hnew & %Hm & H)".
  iDestruct (state_ok_lookup with "Hσ Hl") as %Hl. iModIntro.
  apply newest_last_time in Hnew. iSplit.
  { iPureIntro. exists (Choice 0 0 false 0). eexists.
    rewrite /= /exec_get_mut Hl Hnew Hm decide_True //. }
  iIntros "!>" (c r V' σ'). rewrite /= /exec_get_mut Hl Hnew Hm decide_True //.
  iIntros ([= <- <- <-]).
  iMod (state_ok_set with "Hσ Hl") as "[$ Hl]".
  iMod ("H" with "Hl") as "$". eauto with rust_db.
Qed.

Lemma wpp_set_mut l h N A z V Φ :
  A ⊆ cur V →
  l ↦ CAtomic h N A -∗
  ▷ (∀ t e, let V' := store_view l t e V in
     l ↦ CAtomic {[t := Msg z (cur V')]} (N ∪ {[Acc e]}) (A ∪ {[Acc e]}) -∗
     Φ tt V') -∗
  wpp (act (OSetMut l z)) V Φ.
Proof.
  iIntros (HA) "Hl H". iApply wpp_act. iIntros (σ) "Hσ".
  iDestruct (state_ok_lookup with "Hσ Hl") as %Hl. iModIntro. iSplit.
  { iPureIntro. exists (Choice 0 0 false 0). eexists.
    rewrite /= /exec_set_mut Hl decide_True //. }
  iIntros "!>" (c r V' σ'). rewrite /= /exec_set_mut Hl decide_True //.
  iIntros ([= <- <- <-]).
  iMod (state_ok_set with "Hσ Hl") as "[$ Hl]". iModIntro.
  iSplit; [eauto with rust_db|]. by iApply ("H" with "Hl").
Qed.

Lemma wpp_free_data l v W R V Φ :
  W ∪ R ⊆ cur V →
  l ↦ CData v W R -∗ ▷ (l ↦ CFreed -∗ Φ tt V) -∗ wpp (act (OFree l)) V Φ.
Proof.
  iIntros (HA) "Hl H". iApply wpp_act. iIntros (σ) "Hσ".
  iDestruct (state_ok_lookup with "Hσ Hl") as %Hl. iModIntro. iSplit.
  { iPureIntro. exists (Choice 0 0 false 0). eexists.
    rewrite /= /exec_free Hl decide_True //. }
  iIntros "!>" (c r V' σ'). rewrite /= /exec_free Hl decide_True //.
  iIntros ([= <- <- <-]).
  iMod (state_ok_set with "Hσ Hl") as "[$ Hl]". iModIntro.
  iSplit; [done|]. by iApply ("H" with "Hl").
Qed.

Lemma wpp_free_atomic l h N A V Φ :
  A ⊆ cur V →
  l ↦ CAtomic h N A -∗ ▷ (l ↦ CFreed -∗ Φ tt V) -∗ wpp (act (OFree l)) V Φ.
Proof.
  iIntros (HA) "Hl H". iApply wpp_act. iIntros (σ) "Hσ".
  iDestruct (state_ok_lookup with "Hσ Hl") as %Hl. iModIntro. iSplit.
  { iPureIntro. exists (Choice 0 0 false 0). eexists.
    rewrite /= /exec_free Hl decide_True //. }
  iIntros "!>" (c r V' σ'). rewrite /= /exec_free Hl decide_True //.
  iIntros ([= <- <- <-]).
  iMod (state_ok_set with "Hσ Hl") as "[$ Hl]". iModIntro.
  iSplit; [done|]. by iApply ("H" with "Hl").
Qed.

Lemma wpp_print_inv E x V Φ :
  (|={⊤,E}=> ∃ o, printed o ∗ ▷ (printed (o ++ [x]) ={E,⊤}=∗ Φ tt V)) -∗
  wpp (act (OPrint x)) V Φ.
Proof.
  iIntros "H". iApply wpp_act. iIntros (σ) "(Hh & Ho & Hs)".
  iMod "H" as (o) "[Hp H]". iDestruct (ghost_var_agree with "Ho Hp") as %Heq.
  iModIntro. iSplit.
  { iPureIntro. by exists (Choice 0 0 false 0); eexists. }
  iIntros "!>" (c r V' σ' [= <- <- <-]).
  iMod (ghost_var_update_halves (o ++ [x]) with "Ho Hp") as "[Ho Hp]".
  iMod ("H" with "Hp") as "$". rewrite /state_ok /= Heq. by iFrame.
Qed.

Lemma wpp_input V Φ : ▷ (∀ z, Φ z V) -∗ wpp (act OInput) V Φ.
Proof.
  iIntros "H". iApply wpp_act. iIntros (σ) "Hσ !>". iSplit.
  { iPureIntro. by exists (Choice 0 0 false 0); eexists. }
  iIntros "!>" (c r V' σ' [= <- <- <-]). iFrame "Hσ". iModIntro.
  iSplit; [done|]. iApply "H".
Qed.

(** ** Exclusive ownership of a plain location

    The accesses made so far happened before the view [W]. *)

Definition own_na (l : loc) (v : val) (W : view) : iProp Σ :=
  ∃ ws rs, l ↦ CData v ws rs ∗ ⌜ws ∪ rs ⊆ W⌝.

#[global] Instance own_na_timeless l v W : Timeless (own_na l v W).
Proof. apply _. Qed.

Lemma own_na_mono l v W W' : W ⊆ W' → own_na l v W -∗ own_na l v W'.
Proof.
  iIntros (Hle) "(%ws & %rs & Hl & %)". iExists ws, rs. iFrame.
  iPureIntro. by etrans.
Qed.

Lemma wpp_new v V Φ :
  ▷ (∀ l V', ⌜V ⊆ V'⌝ -∗ own_na l v (cur V') -∗ Φ l V') -∗
  wpp (act (OAlloc v)) V Φ.
Proof.
  iIntros "H". iApply wpp_alloc. iIntros "!>" (l e) "Hl".
  iApply ("H" with "[%]"); [auto with rust_db|]. iExists _, _. iFrame "Hl".
  iPureIntro. set_solver.
Qed.

Lemma wpp_read l v V Φ :
  own_na l v (cur V) -∗
  ▷ (∀ V', ⌜V ⊆ V'⌝ -∗ own_na l v (cur V') -∗ Φ v V') -∗
  wpp (act (ORead l)) V Φ.
Proof.
  iIntros "(%ws & %rs & Hl & %Hin) H". iApply (wpp_read_inv ⊤).
  iModIntro. iExists _, _, _. iFrame "Hl". iSplit; [iPureIntro; set_solver|].
  iIntros "!>" (e) "Hl !>". iApply ("H" with "[%]"); [auto with rust_db|].
  iExists _, _. iFrame "Hl". iPureIntro. set_solver.
Qed.

Lemma wpp_write l v w V Φ :
  own_na l v (cur V) -∗
  ▷ (∀ V', ⌜V ⊆ V'⌝ -∗ own_na l w (cur V') -∗ Φ tt V') -∗
  wpp (act (OWrite l w)) V Φ.
Proof.
  iIntros "(%ws & %rs & Hl & %Hin) H". iApply (wpp_write_inv ⊤).
  iModIntro. iExists _, _, _. iFrame "Hl". iSplit; [done|].
  iIntros "!>" (e) "Hl !>". iApply ("H" with "[%]"); [auto with rust_db|].
  iExists _, _. iFrame "Hl". iPureIntro. set_solver.
Qed.

Lemma wpp_free l v V Φ :
  own_na l v (cur V) -∗ ▷ Φ tt V -∗ wpp (act (OFree l)) V Φ.
Proof.
  iIntros "(%ws & %rs & Hl & %Hin) H".
  iApply (wpp_free_data with "Hl"); [done|]. by iIntros "!> _".
Qed.
End rules.
