(* ===== verification/Interleaving.v ===== *)
(** * Interleavings

    Several threads that each have a list of things to do: the orders in
    which they can be done, and the ghost state that records how far each
    thread is. *)

From iris.proofmode Require Import proofmode.
From iris.base_logic.lib Require Import ghost_var.
From S2P Require Import Prelude.

(** [interleaving fss log]: [log] merges the lists, keeping their orders. *)
Inductive interleaving {A} : list (list A) → list A → Prop :=
| interleaving_nil fss : Forall (λ fs, fs = []) fss → interleaving fss []
| interleaving_cons fss i f fs log :
    fss !! i = Some (f :: fs) → interleaving (<[i := fs]> fss) log →
    interleaving fss (f :: log).

(** [progress fss log rests]: after [log], the lists [rests] remain. *)
Inductive progress {A} (fss : list (list A)) : list A → list (list A) → Prop :=
| progress_start : progress fss [] fss
| progress_step log rests i f fs :
    progress fss log rests → rests !! i = Some (f :: fs) →
    progress fss (log ++ [f]) (<[i := fs]> rests).

Lemma progress_interleaving {A} (fss : list (list A)) log rests log' :
  progress fss log rests → interleaving rests log' → interleaving fss (log ++ log').
Proof.
  intros Hp. revert log'. induction Hp as [|log rests i f fs _ IH Hi]; intros log' Hl;
    [done|].
  rewrite -app_assoc. apply IH. by eapply interleaving_cons.
Qed.

Lemma progress_done {A} (fss : list (list A)) log rests :
  progress fss log rests → Forall (λ fs, fs = []) rests → interleaving fss log.
Proof.
  intros Hp Hd. rewrite -(app_nil_r log). eapply progress_interleaving; [done|].
  by constructor.
Qed.


(** An interleaving has the elements of the lists. *)
Lemma interleaving_permutation {A} (fss : list (list A)) log :
  interleaving fss log → log ≡ₚ concat fss.
Proof.
  induction 1 as [fss Hd|fss i f fs log Hi _ IH].
  - induction Hd as [|fs fss -> _ IH]; done.
  - rewrite IH. rewrite -{2}(take_drop_middle fss i (f :: fs)) // insert_take_drop;
      [|by eapply lookup_lt_Some].
    rewrite !concat_app /=. by rewrite Permutation_middle.
Qed.

(** ** Who has what left *)

Section todo.
Context {A : Type} `{!ghost_varG Σ (list A)}.

(** The thread named [γ] has [fs] left to do. *)
Definition todo (γ : gname) (fs : list A) : iProp Σ := ghost_var γ (1/2) fs.

(** [log] was done. *)
Definition log_is (fss : list (list A)) (γs : list gname) (log : list A) : iProp Σ :=
  ∃ rests, ⌜progress fss log rests⌝ ∗ [∗ list] γ;fs ∈ γs;rests, todo γ fs.

#[global] Instance todo_timeless γ fs : Timeless (todo γ fs).
Proof. apply _. Qed.
#[global] Instance log_is_timeless fss γs log : Timeless (log_is fss γs log).
Proof. apply _. Qed.

Lemma log_alloc (fss : list (list A)) :
  ⊢ |==> ∃ γs, log_is fss γs [] ∗ [∗ list] γ;fs ∈ γs;fss, todo γ fs.
Proof.
  iAssert (|==> ∃ γs, ([∗ list] γ;fs ∈ γs;fss, todo γ fs) ∗
    [∗ list] γ;fs ∈ γs;fss, todo γ fs)%I as ">(%γs & Hs & Ht)".
  { iInduction fss as [|fs fss] "IH".
    { iModIntro. iExists []. by iSplit. }
    iMod "IH" as (γs) "[Hs Ht]". iMod (ghost_var_alloc fs) as (γ) "[H1 H2]".
    iModIntro. iExists (γ :: γs). iFrame. }
  iModIntro. iExists γs. iSplitL "Hs"; [|done]. iExists fss. iFrame "Hs". iPureIntro. constructor.
Qed.

Lemma log_step fss γs i γ f fs log :
  γs !! i = Some γ →
  log_is fss γs log -∗ todo γ (f :: fs) ==∗ log_is fss γs (log ++ [f]) ∗ todo γ fs.
Proof.
  iIntros (Hi) "(%rests & %Hp & Hs) Hγ".
  iDestruct (big_sepL2_length with "Hs") as %Hlen.
  destruct (rests !! i) as [fs'|] eqn:Hr; last first.
  { apply lookup_ge_None in Hr. apply lookup_lt_Some in Hi. lia. }
  iDestruct (big_sepL2_insert_acc with "Hs") as "[Hs Hclose]"; [done..|].
  iDestruct (ghost_var_agree with "Hs Hγ") as %->.
  iMod (ghost_var_update_halves fs with "Hs Hγ") as "[Hs $]".
  iDestruct ("Hclose" $! γ fs with "Hs") as "Hs". rewrite list_insert_id //.
  iModIntro. iExists _. iFrame "Hs". iPureIntro. by eapply progress_step.
Qed.

Lemma log_progress fss γs log : log_is fss γs log -∗ ⌜∃ rests, progress fss log rests⌝.
Proof. iIntros "(%rests & % & _)". eauto. Qed.

Lemma log_done fss γs log :
  log_is fss γs log -∗ ([∗ list] γ ∈ γs, todo γ []) -∗ ⌜interleaving fss log⌝.
Proof.
  iIntros "(%rests & %Hp & Hs) Hγs".
  iAssert ⌜Forall (λ fs, fs = []) rests⌝%I as %Hd.
  { clear Hp. iInduction γs as [|γ γs] "IH" forall (rests);
      destruct rests as [|r rests]; try done.
    iDestruct "Hs" as "[Hm Hs]". iDestruct "Hγs" as "[Hγ Hγs]".
    iDestruct (ghost_var_agree with "Hm Hγ") as %->.
    iDestruct ("IH" with "Hs Hγs") as %?. iPureIntro. by constructor. }
  iPureIntro. by eapply progress_done.
Qed.
End todo.

#[global] Typeclasses Opaque todo log_is.
