(* ===== verification/Std.v ===== *)
(** * The parts of the standard library the programs use

    [std::sync::atomic], [std::thread] (spawn, join, scope, park, sleep) and
    the output macros, as programs of the monad, with their specifications. *)

From iris.proofmode Require Import proofmode.
From iris.base_logic.lib Require Import invariants token.
From S2P Require Import Prelude Memory Lang Logic Rules.

(** Programs are kept in their monadic form by [simpl]. *)
#[global] Arguments mbind : simpl never.
#[global] Arguments mret : simpl never.

(** ** Atomics

    An [AtomicBool] holds 0 or 1, an [AtomicPtr] an address (0 is null). *)

Definition atomic_new (z : Z) : prog loc := act (OAllocAtomic z).
Definition load (l : loc) (o : ordering) : prog Z := act (OLoad l o).
Definition store (l : loc) (z : Z) (o : ordering) : prog unit := act (OStore l z o).
Definition fence (o : ordering) : prog unit := act (OFence o).
(** [compiler_fence] restrains the compiler only, not other threads. *)
Definition compiler_fence (o : ordering) : prog unit := mret ().

Definition swap (l : loc) (z : Z) (o : ordering) : prog Z :=
  '(v, _) ← act (ORmw l (λ _, Some z) false o Relaxed);
  mret v.

(** [fetch_add] wraps around at the width of the type. *)
Definition fetch_add (modulus : Z) (l : loc) (n : Z) (o : ordering) : prog Z :=
  '(v, _) ← act (ORmw l (λ v, Some (wrap_add modulus v n)) false o Relaxed);
  mret v.
Definition fetch_sub (modulus : Z) (l : loc) (n : Z) (o : ordering) : prog Z :=
  '(v, _) ← act (ORmw l (λ v, Some (wrap_add modulus v (- n))) false o Relaxed);
  mret v.
Definition fetch_max (l : loc) (n : Z) (o : ordering) : prog Z :=
  '(v, _) ← act (ORmw l (λ v, Some (Z.max v n)) false o Relaxed);
  mret v.

(** The function of a compare-and-exchange. *)
Definition cas_fun (current new v : Z) : option Z :=
  if (v =? current)%Z then Some new else None.

(** [Ok] is [inl], [Err] is [inr]. *)
Definition compare_exchange (l : loc) (current new : Z) (succ fail : ordering)
    : prog (Z + Z) :=
  '(v, ok) ← act (ORmw l (cas_fun current new) false succ fail);
  mret (if (ok : bool) then inl v else inr v).
Definition compare_exchange_weak (l : loc) (current new : Z) (succ fail : ordering)
    : prog (Z + Z) :=
  '(v, ok) ← act (ORmw l (cas_fun current new) true succ fail);
  mret (if (ok : bool) then inl v else inr v).

Definition is_ok {A B} (r : A + B) : bool := match r with inl _ => true | _ => false end.
Definition is_err {A B} (r : A + B) : bool := negb (is_ok r).

Definition to_bool (z : Z) : bool := negb (z =? 0)%Z.
Definition of_bool (b : bool) : Z := if b then 1%Z else 0%Z.

Definition load_bool (l : loc) (o : ordering) : prog bool := v ← load l o; mret (to_bool v).
Definition swap_bool (l : loc) (b : bool) (o : ordering) : prog bool :=
  v ← swap l (of_bool b) o; mret (to_bool v).
Definition store_bool (l : loc) (b : bool) (o : ordering) : prog unit :=
  store l (of_bool b) o.

(** ** Control flow and macros *)

(** [while cond { body }] *)
Definition while_loop (cond : prog bool) (body : prog unit) : prog unit :=
  loop (λ _ : unit, b ← cond; if (b : bool) then body;; mret (inl ()) else mret (inr ())) ().

(** [for i in start..start + n { body(i) }] *)
Fixpoint for_range (start : Z) (n : nat) (body : Z → prog unit) : prog unit :=
  match n with
  | 0 => mret ()
  | S n => body start;; for_range (start + 1) n body
  end.

Definition println (fmt : string) (args : list val) : prog unit :=
  act (OPrint (fmt, args)).
Definition assert (b : bool) (msg : string) : prog unit :=
  if b then mret () else Panic msg.
(** [assert_eq!] *)
Definition assert_eq (a b : val) : prog unit :=
  assert (bool_decide (a = b)) "assertion `left == right` failed".
Definition spin_loop : prog unit := mret ().

(** [process::abort]: the thread does not go on.  (The other threads do, here:
    the model allows more than the process, which stops.) *)
Definition abort {A} : prog A := loop (λ _ : unit, mret (inl ())) ().

(** A block at whose end a value is dropped, also when it panics. *)
Definition with_drop {A} (drop : prog unit) (body : prog A) : prog A :=
  catch body (λ o, drop;; of_outcome o).

(** ** Plain memory and integers *)

Definition new_cell (v : val) : prog loc := act (OAlloc v).
Definition read (p : loc) : prog val := act (ORead p).
Definition write (p : loc) (v : val) : prog unit := act (OWrite p v).

Definition read_int (p : loc) : prog Z :=
  v ← read p; match v with VInt z => mret z | _ => UB end.
Definition read_list (p : loc) : prog (list val) :=
  v ← read p; match v with VList l => mret l | _ => UB end.

(** [*p += n] on an [i32], with overflow checks. *)
Definition add_assign_i32 (p : loc) (n : Z) : prog unit :=
  z ← read_int p;
  if decide (i32_MIN <= z + n <= i32_MAX)%Z then write p (VInt (z + n))
  else Panic "attempt to add with overflow".

(** [Vec::push] *)
Definition vec_push (p : loc) (v : val) : prog unit :=
  l ← read_list p; write p (VList (l ++ [v])).

(** A clock reading. *)
Definition clock : prog val := z ← act OInput; mret (VInt z).

(** ** Threads *)

Definition fork (c : prog unit) : prog unit := Fork c (Ret ()).

(** A [JoinHandle] is an atomic that the thread sets when it ends: 1 when it
    returned, 2 when it panicked. *)
Definition exit_code (o : outcome unit) : Z :=
  match o with Ok _ => 1%Z | Panicked _ => 2%Z end.
Definition spawn (c : prog unit) : prog loc :=
  h ← atomic_new 0;
  fork (catch c (λ o, store h (exit_code o) Release));;
  mret h.

(** [join]: wait for the thread; was it free of panics? *)
Definition join (h : loc) : prog bool :=
  loop (λ _ : unit, r ← load h Acquire;
    mret (if (r =? 0)%Z then inl () else inr (r =? 1)%Z)) ().
Definition join_unwrap (h : loc) : prog unit :=
  ok ← join h;
  assert ok "called `Result::unwrap()` on an `Err` value".

(** [thread::scope]: start the threads, run the body, join the threads. *)
Fixpoint spawn_all (fs : list (prog unit)) : prog (list loc) :=
  match fs with
  | [] => mret []
  | f :: fs => h ← spawn f; hs ← spawn_all fs; mret (h :: hs)
  end.
Fixpoint join_all (hs : list loc) : prog bool :=
  match hs with
  | [] => mret true
  | h :: hs => ok ← join h; oks ← join_all hs; mret (ok && oks)
  end.
Definition scope {A} (fs : list (prog unit)) (body : prog A) : prog A :=
  hs ← spawn_all fs;
  catch body (λ o,
    ok ← join_all hs;
    match o with
    | Ok a => if (ok : bool) then mret a else Panic "a scoped thread panicked"
    | Panicked m => Panic m
    end).

(** The token of a thread, for [park] and [unpark].  [park] returns when it
    takes the token, or at any time (a spurious wakeup). *)
Definition park_token_new : prog loc := atomic_new 0.
Definition unpark (tok : loc) : prog unit := _ ← swap tok 1 Release; mret ().
Definition park (tok : loc) : prog unit :=
  loop (λ _ : unit, t ← swap tok 0 Acquire; spurious ← act OInput;
    mret (if (t =? 0)%Z && (spurious =? 0)%Z then inl () else inr ())) ().
Definition sleep : prog unit := mret ().

(** ** Specifications *)

(** Assertions about a view that only grow with it. *)
Class ViewMono {Σ} (P : view → iProp Σ) :=
  view_mono W W' : W ⊆ W' → P W ⊢ P W'.
#[export] Hint Mode ViewMono - ! : typeclass_instances.

(** [mono "H1 H2" Hle]: the hypotheses hold in the larger view as well. *)
Ltac mono_each Hs Hle :=
  lazymatch Hs with
  | [] => idtac
  | ?H :: ?Hs =>
      iDestruct (view_mono with H) as H; [solve [exact Hle | apply Hle]|]; mono_each Hs Hle
  end.
Ltac mono Hs Hle := let Hs := eval vm_compute in (String.words Hs) in mono_each Hs Hle.

#[export] Instance view_mono_const {Σ} (P : iProp Σ) : ViewMono (λ _, P).
Proof. by intros W W' _. Qed.
#[export] Instance view_mono_sep {Σ} (P Q : view → iProp Σ) :
  ViewMono P → ViewMono Q → ViewMono (λ W, P W ∗ Q W)%I.
Proof. intros HP HQ W W' Hle. by rewrite (HP W W') // (HQ W W'). Qed.
#[export] Instance view_mono_exist {Σ X} (P : X → view → iProp Σ) :
  (∀ x, ViewMono (P x)) → ViewMono (λ W, ∃ x, P x W)%I.
Proof. intros HP W W' Hle. iIntros "(%x & H)". iExists x. by iApply (HP x with "H"). Qed.

Lemma big_sepL_const_length {PROP : bi} {A B} (xs : list A) (ys : list B) (C : PROP) :
  length xs = length ys → ([∗ list] _ ∈ xs, C) ⊢ [∗ list] _ ∈ ys, C.
Proof.
  revert ys. induction xs as [|x xs IH]; intros [|y ys] Hlen; simplify_eq/=; [done|].
  by rewrite (IH ys).
Qed.

Section specs.
Context `{!rustGS Σ}.
Implicit Types (V : tview) (l : loc).

Lemma wpp_swap_inv E l z o V Φ :
  is_seqcst o = false →
  (|={⊤,E}=> ∃ h N A, ▷ l ↦ CAtomic h N A ∗ ⌜N ⊆ cur V⌝ ∗ ⌜h ≠ ∅⌝ ∗
    ▷ (∀ t m e, ⌜h !! t = Some m⌝ -∗ ⌜coh_le l h (cur V) t⌝ -∗ ⌜h !! S t = None⌝ -∗
       l ↦ CAtomic (<[S t := rmw_msg o z m (rmw_view o l t m e V)]> h)
             N (A ∪ {[Acc e]}) ={E,⊤}=∗
       Φ (mval m) (rmw_view o l t m e V))) -∗
  wpp (swap l z o) V Φ.
Proof.
  iIntros (Ho) "H". iApply wpp_bind. iApply wpp_rmw_inv; [done..|].
  iMod "H" as (h N A) "(Hl & $ & $ & H)". iModIntro. iFrame "Hl".
  iIntros "!>" (t m e Hm Hc). iSplit.
  - iIntros (z' [= <-] Hfree) "Hl".
    iMod ("H" with "[//] [//] [//] Hl") as "H". iModIntro. by iApply wpp_ret.
  - by iIntros ([?|?]).
Qed.

Lemma wpp_while (I : tview → iProp Σ) cond body V Φ :
  □ (∀ V', ⌜V ⊆ V'⌝ -∗ I V' -∗
     wpp cond V' (λ (b : bool) V2, if b then wpp body V2 (λ _ V3, I V3) else Φ tt V2)) -∗
  I V -∗ wpp (while_loop cond body) V Φ.
Proof.
  iIntros "#H HI". iApply (wpp_loop (λ _, I) with "[] HI").
  iIntros "!>" ([] V' Hle) "HI". iApply wpp_bind.
  iApply (wpp_wand with "[HI]"); [by iApply ("H" with "[//]")|].
  iIntros ([] V2 _) "Hb".
  - iApply wpp_bind. iApply (wpp_wand with "Hb"). iIntros ([] V3 _) "HI".
    by iApply wpp_ret.
  - by iApply wpp_ret.
Qed.

Lemma wpp_for_range (I : Z → tview → iProp Σ) start (n : nat) body V Φ :
  □ (∀ i V', ⌜V ⊆ V'⌝ -∗ ⌜(start <= i < start + Z.of_nat n)%Z⌝ -∗ I i V' -∗
     wpp (body i) V' (λ _ V2, I (i + 1)%Z V2)) -∗
  I start V -∗
  (∀ V', ⌜V ⊆ V'⌝ -∗ I (start + Z.of_nat n)%Z V' -∗ Φ tt V') -∗
  wpp (for_range start n body) V Φ.
Proof.
  iIntros "#H HI HΦ". iInduction n as [|n] "IH" forall (start V) "H"; simpl.
  { iApply wpp_ret. iApply ("HΦ" with "[//]"). by rewrite Z.add_0_r. }
  iApply wpp_bind. iApply (wpp_wand with "[HI]").
  { iApply ("H" with "[//] [%] HI"). lia. }
  iIntros ([] V1 Hle1) "HI". iApply ("IH" with "HI [HΦ]").
  - iIntros (V' Hle) "HI". iApply ("HΦ" with "[%]"); [by etrans|].
    by replace (start + 1 + Z.of_nat n)%Z with (start + Z.of_nat (S n))%Z by lia.
  - iIntros "!>" (i V' Hle Hi) "HI". iApply ("H" with "[%] [%] HI"); [by etrans|lia].
Qed.

Lemma wpo_for_range (I : Z → tview → iProp Σ) start (n : nat) body V Φ :
  □ (∀ i V', ⌜V ⊆ V'⌝ -∗ ⌜(start <= i < start + Z.of_nat n)%Z⌝ -∗ I i V' -∗
     wpo (body i) V' (λ o V2, match o with
       | Ok _ => I (i + 1)%Z V2
       | Panicked m => Φ (Panicked m) V2
       end)) -∗
  I start V -∗
  (∀ V', ⌜V ⊆ V'⌝ -∗ I (start + Z.of_nat n)%Z V' -∗ Φ (Ok tt) V') -∗
  wpo (for_range start n body) V Φ.
Proof.
  iIntros "#H HI HΦ". iInduction n as [|n] "IH" forall (start V) "H"; simpl.
  { iApply wpo_ret. iApply ("HΦ" with "[//]"). by rewrite Z.add_0_r. }
  iApply wpo_bind. iApply (wpo_wand with "[HI]").
  { iApply ("H" with "[//] [%] HI"). lia. }
  iIntros ([[]|m] V1 Hle1) "HI"; [|done]. iApply ("IH" with "HI [HΦ]").
  - iIntros (V' Hle) "HI". iApply ("HΦ" with "[%]"); [by etrans|].
    by replace (start + 1 + Z.of_nat n)%Z with (start + Z.of_nat (S n))%Z by lia.
  - iIntros "!>" (i V' Hle Hi) "HI". iApply ("H" with "[%] [%] HI"); [by etrans|lia].
Qed.

Lemma wpp_fork (c : prog unit) V Φ :
  wpo c (tview_spawn V) (λ _ _, True) -∗ Φ tt V -∗ wpp (fork c) V Φ.
Proof. iIntros "Hc HΦ". by iApply (wpo_fork with "Hc"). Qed.

Lemma wpp_println o fmt args V Φ :
  printed o -∗ ▷ (printed (o ++ [(fmt, args)]) -∗ Φ tt V) -∗
  wpp (println fmt args) V Φ.
Proof.
  iIntros "Hp H". iApply (wpp_print_inv ⊤). iModIntro. iExists o. iFrame "Hp".
  iIntros "!> Hp !>". by iApply "H".
Qed.

Lemma wpp_read_int p z V Φ :
  own_na p (VInt z) (cur V) -∗
  (∀ V', ⌜V ⊆ V'⌝ -∗ own_na p (VInt z) (cur V') -∗ Φ z V') -∗
  wpp (read_int p) V Φ.
Proof.
  iIntros "Hp HΦ". iApply wpp_bind. iApply (wpp_read with "Hp").
  iIntros "!>" (V' Hle) "Hp". iApply wpp_ret. by iApply ("HΦ" with "[//]").
Qed.

Lemma wpp_read_list p vs V Φ :
  own_na p (VList vs) (cur V) -∗
  (∀ V', ⌜V ⊆ V'⌝ -∗ own_na p (VList vs) (cur V') -∗ Φ vs V') -∗
  wpp (read_list p) V Φ.
Proof.
  iIntros "Hp HΦ". iApply wpp_bind. iApply (wpp_read with "Hp").
  iIntros "!>" (V' Hle) "Hp". iApply wpp_ret. by iApply ("HΦ" with "[//]").
Qed.

Lemma wpp_add_assign_i32 p z n V Φ :
  (i32_MIN <= z + n <= i32_MAX)%Z →
  own_na p (VInt z) (cur V) -∗
  (∀ V', ⌜V ⊆ V'⌝ -∗ own_na p (VInt (z + n)) (cur V') -∗ Φ tt V') -∗
  wpp (add_assign_i32 p n) V Φ.
Proof.
  iIntros (Hr) "Hp HΦ". iApply wpp_bind. iApply (wpp_read_int with "Hp").
  iIntros (V1 Hle1) "Hp". rewrite decide_True //. iApply (wpp_write with "Hp").
  iIntros "!>" (V2 Hle2) "Hp". iApply ("HΦ" with "[%] Hp"). by etrans.
Qed.

Lemma wpp_vec_push p vs v V Φ :
  own_na p (VList vs) (cur V) -∗
  (∀ V', ⌜V ⊆ V'⌝ -∗ own_na p (VList (vs ++ [v])) (cur V') -∗ Φ tt V') -∗
  wpp (vec_push p v) V Φ.
Proof.
  iIntros "Hp HΦ". iApply wpp_bind. iApply (wpp_read_list with "Hp").
  iIntros (V1 Hle1) "Hp". iApply (wpp_write with "Hp").
  iIntros "!>" (V2 Hle2) "Hp". iApply ("HΦ" with "[%] Hp"). by etrans.
Qed.

Lemma wpp_clock V Φ : (∀ z, Φ (VInt z) V) -∗ wpp clock V Φ.
Proof.
  iIntros "HΦ". iApply wpp_bind. iApply wpp_input. iIntros "!>" (z).
  iApply wpp_ret. iApply "HΦ".
Qed.

(** *** Spawn and join *)

Context `{!tokenG Σ}.
Definition spawnN : namespace := nroot .@ "spawn".

Definition spawn_inv (γc γj : gname) (h : loc) (N : view)
    (Ψ : outcome unit → view → iProp Σ) : iProp Σ :=
  ∃ hi A, h ↦ CAtomic hi N A ∗
    (⌜hi = {[0 := Msg 0 ∅]}⌝ ∨
     token γc ∗ ∃ t o W, ⌜hi = <[t := Msg (exit_code o) W]> {[0 := Msg 0 ∅]}⌝ ∗
       (Ψ o W ∨ token γj)).

(** The right to join a thread whose final views satisfy [Ψ]. *)
Definition join_handle (h : loc) (W : view)
    (Ψ : outcome unit → view → iProp Σ) : iProp Σ :=
  ∃ γc γj N, ⌜N ⊆ W⌝ ∗ inv spawnN (spawn_inv γc γj h N Ψ) ∗ token γj.

Lemma join_handle_mono h W W' Ψ :
  W ⊆ W' → join_handle h W Ψ -∗ join_handle h W' Ψ.
Proof.
  iIntros (Hle) "(%γc & %γj & %N & % & $ & $)". iPureIntro. by etrans.
Qed.

Lemma wpp_spawn (c : prog unit) Ψ `{!∀ o, ViewMono (Ψ o)} V Φ :
  (∀ V', ⌜cur V ⊆ cur V'⌝ -∗ wpo c V' (λ o V2, Ψ o (cur V2))) -∗
  (∀ h V', ⌜V ⊆ V'⌝ -∗ join_handle h (cur V') Ψ -∗ Φ h V') -∗
  wpp (spawn c) V Φ.
Proof.
  iIntros "Hc HΦ". iApply wpp_bind. iApply wpp_alloc_atomic.
  iIntros "!>" (h e) "Hh". set (V1 := observe _ _ V).
  assert (cur V ⊆ cur V1) by (apply observe_le).
  iMod token_alloc as (γc) "Hγc". iMod token_alloc as (γj) "Hγj".
  iMod (inv_alloc spawnN _ (spawn_inv γc γj h {[Acc e]} Ψ) with "[Hh]") as "#Hinv".
  { iExists _, _. iFrame "Hh". by iLeft. }
  iApply wpp_bind. iApply (wpp_fork with "[Hc Hγc]").
  - iApply wpo_catch. iApply (wpo_wand with "[Hc]").
    { by iApply ("Hc" $! (tview_spawn V1)). }
    iIntros (o V2 [Hle _]) "HΨ". simpl in Hle.
    iApply (wpo_wand _ _ (no_panic (λ _ _, True%I)) with "[-]"); [|by iIntros].
    iApply wpp_store_inv; [done|].
    iInv "Hinv" as (hi A) "[>Hh Hcase]" "Hclose".
    iDestruct "Hcase" as "[>->|[>Hγ _]]"; last first.
    { by iDestruct (token_exclusive with "Hγ Hγc") as %[]. }
    iModIntro. iExists _, {[Acc e]}, A. iFrame "Hh". iSplit.
    { iPureIntro. set_solver. }
    iSplit. { iPureIntro. by apply map_non_empty_singleton. }
    iIntros "!>" (t e' Hfree Hlt) "Hh".
    iMod ("Hclose" with "[-]") as "_"; [|done].
    iNext. iExists _, _. iFrame "Hh". iRight. iFrame "Hγc".
    iExists t, o, _. iSplit; [done|]. iLeft. simpl.
    iApply (view_mono with "HΨ"). apply store_view_le.
  - iApply wpp_ret. iApply ("HΦ" with "[%]"); [apply observe_le|].
    iExists γc, γj, {[Acc e]}. iFrame "Hinv Hγj". iPureIntro. set_solver.
Qed.

Lemma wpp_join h Ψ `{!∀ o, ViewMono (Ψ o)} V Φ :
  join_handle h (cur V) Ψ -∗
  (∀ o V', ⌜V ⊆ V'⌝ -∗ Ψ o (cur V') -∗
     Φ (match o with Ok _ => true | Panicked _ => false end) V') -∗
  wpp (join h) V Φ.
Proof.
  iIntros "(%γc & %γj & %N & %HN & #Hinv & Hγj) HΦ".
  iApply (wpp_loop (λ _ V', token γj ∗ ∀ o V2, ⌜V ⊆ V2⌝ -∗ Ψ o (cur V2) -∗
     Φ (match o with Ok _ => true | Panicked _ => false end) V2)%I
     with "[] [$Hγj $HΦ]").
  iIntros "!>" ([] V1 Hle) "[Hγj HΦ]". iApply wpp_bind.
  iApply wpp_load_inv; [done|].
  iInv "Hinv" as (hi A) "[>Hh Hcase]" "Hclose".
  iAssert (▷ ⌜hi ≠ ∅⌝)%I as "#>%Hne".
  { iNext. iDestruct "Hcase" as "[->|(_ & %t & %o & %W & -> & _)]"; iPureIntro;
      [by apply map_non_empty_singleton|by apply insert_non_empty]. }
  iModIntro. iExists hi, N, A. iFrame "Hh". iSplit.
  { iPureIntro. etrans; [done|apply Hle]. }
  iSplit; [done|].
  iIntros "!>" (t m e Hm Hc) "Hh".
  destruct (decide (mval m = 0%Z)) as [Hz|Hz].
  { iMod ("Hclose" with "[Hh Hcase]") as "_"; [by iExists _, _; iFrame|].
    iModIntro. iApply wpp_ret. rewrite Hz /=. iFrame. }
  iDestruct "Hcase" as "[->|(Hγc & %t' & %o & %W & -> & Hcase)]".
  { apply lookup_singleton_Some in Hm as [<- <-]. done. }
  apply lookup_insert_Some in Hm as [[<- <-]|[_ Hm]]; last first.
  { apply lookup_singleton_Some in Hm as [<- <-]. done. }
  iDestruct "Hcase" as "[HΨ|Hγ]"; last first.
  { by iDestruct (token_exclusive with "Hγ Hγj") as %[]. }
  iMod ("Hclose" with "[Hh Hγc Hγj]") as "_".
  { iExists _, _. iFrame "Hh". iRight. iFrame "Hγc". iExists _, _, _.
    iSplit; [done|]. by iRight. }
  iModIntro. iApply wpp_ret. simpl.
  assert (V ⊆ load_view Acquire h t' (Msg (exit_code o) W) e V1) as Hle'.
  { etrans; [done|]. apply load_view_le. }
  iSpecialize ("HΦ" $! o with "[//] [HΨ]").
  { iApply (view_mono with "HΨ"). by apply (load_view_acq Acquire h t' (Msg (exit_code o) W)). }
  destruct o; simpl; done.
Qed.
(** *** Scopes *)

Definition ok_only (Ψ : view → iProp Σ) (o : outcome unit) (W : view) : iProp Σ :=
  match o with Ok _ => Ψ W | Panicked _ => False end.

#[global] Instance ok_only_mono Ψ `{!ViewMono Ψ} o : ViewMono (ok_only Ψ o).
Proof. intros W W' Hle. destruct o; simpl; [by apply view_mono|done]. Qed.

Lemma wpp_spawn_all {X} (xs : list X) (f : X → prog unit) (Ψ : X → view → iProp Σ)
    `{!∀ x, ViewMono (Ψ x)} V Φ :
  ([∗ list] x ∈ xs, ∀ V', ⌜cur V ⊆ cur V'⌝ -∗ wpp (f x) V' (λ _ V2, Ψ x (cur V2))) -∗
  (∀ hs V', ⌜V ⊆ V'⌝ -∗
     ([∗ list] h;x ∈ hs;xs, join_handle h (cur V') (ok_only (Ψ x))) -∗ Φ hs V') -∗
  wpp (spawn_all (f <$> xs)) V Φ.
Proof.
  iIntros "Hxs HΦ". iInduction xs as [|x xs] "IH" forall (V Φ); simpl.
  { iApply wpp_ret. by iApply ("HΦ" with "[//]"). }
  iDestruct "Hxs" as "[Hx Hxs]". iApply wpp_bind.
  iApply (wpp_spawn _ (ok_only (Ψ x)) with "[Hx]").
  { iIntros (V' Hle). iApply (wpo_wand with "[Hx]"); [by iApply "Hx"|].
    iIntros ([[]|m] V2 _) "H"; done. }
  iIntros (h V1 Hle1) "Hh". iApply wpp_bind. iApply ("IH" with "[Hxs]").
  { iApply (big_sepL_impl with "Hxs"). iIntros "!>" (k y _) "Hy".
    iIntros (V' Hle). iApply "Hy". iPureIntro. etrans; [|done]. apply Hle1. }
  iIntros (hs V2 Hle2) "Hhs". iApply wpp_ret. iApply ("HΦ" with "[%]"); [by etrans|].
  iFrame "Hhs". iApply (join_handle_mono with "Hh"). apply Hle2.
Qed.

Lemma wpp_join_all {X} (xs : list X) (Ψ : X → view → iProp Σ)
    `{!∀ x, ViewMono (Ψ x)} hs V Φ :
  ([∗ list] h;x ∈ hs;xs, join_handle h (cur V) (ok_only (Ψ x))) -∗
  (∀ V', ⌜V ⊆ V'⌝ -∗ ([∗ list] x ∈ xs, Ψ x (cur V')) -∗ Φ true V') -∗
  wpp (join_all hs) V Φ.
Proof.
  iIntros "Hhs HΦ".
  iInduction hs as [|h hs] "IH" forall (xs V Φ); destruct xs as [|x xs]; simpl;
    try done.
  { iApply wpp_ret. by iApply ("HΦ" with "[//]"). }
  iDestruct "Hhs" as "[Hh Hhs]". iApply wpp_bind. iApply (wpp_join with "Hh").
  iIntros (o V1 Hle1) "HΨ". destruct o as [[]|m]; [|done]. simpl.
  iApply wpp_bind. iApply ("IH" with "[Hhs]").
  { iApply (big_sepL2_impl with "Hhs"). iIntros "!>" (k h' y _ _) "Hh".
    iApply (join_handle_mono with "Hh"). apply Hle1. }
  iIntros (V2 Hle2) "Hxs". iApply wpp_ret. iApply ("HΦ" with "[%]"); [by etrans|].
  iFrame "Hxs". iApply (view_mono with "HΨ"). apply Hle2.
Qed.

(** Threads that own disjoint resources, and a body that runs beside them. *)
Lemma wpp_scope {A X} (xs : list X) (f : X → prog unit) (body : prog A)
    (Ψ : X → view → iProp Σ) `{!∀ x, ViewMono (Ψ x)} Φb V Φ :
  ([∗ list] x ∈ xs, ∀ V', ⌜cur V ⊆ cur V'⌝ -∗ wpp (f x) V' (λ _ V2, Ψ x (cur V2))) -∗
  (∀ V', ⌜V ⊆ V'⌝ -∗ wpp body V' Φb) -∗
  (∀ a V1 V2, ⌜V ⊆ V1⌝ -∗ ⌜V1 ⊆ V2⌝ -∗ Φb a V1 -∗
     ([∗ list] x ∈ xs, Ψ x (cur V2)) -∗ Φ a V2) -∗
  wpp (scope (f <$> xs) body) V Φ.
Proof.
  iIntros "Hxs Hbody HΦ". iApply wpp_bind. iApply (wpp_spawn_all xs f Ψ with "Hxs").
  iIntros (hs V1 Hle1) "Hhs". iApply wpo_catch.
  iApply (wpo_wand with "[Hbody]"); [by iApply ("Hbody" with "[//]")|].
  iIntros ([a|m] V2 Hle2) "Hb"; [|done].
  iApply wpp_bind. iApply (wpp_join_all xs Ψ with "[Hhs]").
  { iApply (big_sepL2_impl with "Hhs"). iIntros "!>" (k h' y _ _) "Hh".
    iApply (join_handle_mono with "Hh"). apply Hle2. }
  iIntros (V3 Hle3) "Hxs". iApply wpp_ret.
  iApply ("HΦ" with "[%] [//] Hb Hxs"). by etrans.
Qed.
(** A thread that must not panic, and its join. *)
(** Threads that may panic. *)
Lemma wpp_spawn_all_any (fs : list (prog unit)) V Φ :
  ([∗ list] f ∈ fs, ∀ V', ⌜cur V ⊆ cur V'⌝ -∗ wpo f V' (λ _ _, True)) -∗
  (∀ hs V', ⌜V ⊆ V'⌝ -∗ ([∗ list] h ∈ hs, join_handle h (cur V') (λ _ _, True)) -∗
     Φ hs V') -∗
  wpp (spawn_all fs) V Φ.
Proof.
  iIntros "Hfs HΦ". iInduction fs as [|f fs] "IH" forall (V Φ); simpl.
  { iApply wpp_ret. by iApply ("HΦ" with "[//]"). }
  iDestruct "Hfs" as "[Hf Hfs]". iApply wpp_bind.
  iApply (wpp_spawn _ (λ _ _, True)%I with "Hf"). iIntros (h V1 Hle1) "Hh".
  iApply wpp_bind. iApply ("IH" with "[Hfs]").
  { iApply (big_sepL_impl with "Hfs"). iIntros "!>" (i f' _) "Hf". iIntros (V' Hle).
    iApply "Hf". iPureIntro. etrans; [apply Hle1|done]. }
  iIntros (hs V2 Hle2) "Hhs". iApply wpp_ret. iApply ("HΦ" with "[%]"); [by etrans|].
  iFrame "Hhs". iApply (join_handle_mono with "Hh"). apply Hle2.
Qed.

Lemma wpp_join_all_any hs V Φ :
  ([∗ list] h ∈ hs, join_handle h (cur V) (λ _ _, True)) -∗
  (∀ ok V', ⌜V ⊆ V'⌝ -∗ Φ ok V') -∗ wpp (join_all hs) V Φ.
Proof.
  iIntros "Hhs HΦ". iInduction hs as [|h hs] "IH" forall (V Φ); simpl.
  { iApply wpp_ret. by iApply "HΦ". }
  iDestruct "Hhs" as "[Hh Hhs]". iApply wpp_bind. iApply (wpp_join with "Hh").
  iIntros (o V1 Hle1) "_". iApply wpp_bind. iApply ("IH" with "[Hhs]").
  { iApply (big_sepL_impl with "Hhs"). iIntros "!>" (i h' _) "Hh".
    iApply (join_handle_mono with "Hh"). apply Hle1. }
  iIntros (ok V2 Hle2). iApply wpp_ret. iApply "HΦ". iPureIntro. by etrans.
Qed.

Lemma wpo_scope_any {A} (fs : list (prog unit)) (body : prog A) V :
  ([∗ list] f ∈ fs, ∀ V', ⌜cur V ⊆ cur V'⌝ -∗ wpo f V' (λ _ _, True)) -∗
  (∀ V', ⌜V ⊆ V'⌝ -∗ wpo body V' (λ _ _, True)) -∗
  wpo (scope fs body) V (λ _ _, True).
Proof.
  iIntros "Hfs Hbody". iApply wpp_bind_wpo. iApply (wpp_spawn_all_any with "Hfs").
  iIntros (hs V1 Hle1) "Hhs". iApply wpo_catch.
  iApply (wpo_wand with "[Hbody]"); [by iApply "Hbody"|]. iIntros (o V2 Hle2) "_".
  iApply wpp_bind_wpo. iApply (wpp_join_all_any with "[Hhs]").
  { iApply (big_sepL_impl with "Hhs"). iIntros "!>" (i h' _) "Hh".
    iApply (join_handle_mono with "Hh"). apply Hle2. }
  iIntros (ok V3 _). destruct o, ok; first [by iApply wpo_ret|by iApply wpo_panic].
Qed.

Lemma wpp_spawn_ok (c : prog unit) Ψ `{!ViewMono Ψ} V Φ :
  (∀ V', ⌜cur V ⊆ cur V'⌝ -∗ wpp c V' (λ _ V2, Ψ (cur V2))) -∗
  (∀ h V', ⌜V ⊆ V'⌝ -∗ join_handle h (cur V') (ok_only Ψ) -∗ Φ h V') -∗
  wpp (spawn c) V Φ.
Proof.
  iIntros "Hc HΦ". iApply (wpp_spawn _ (ok_only Ψ) with "[Hc] HΦ").
  iIntros (V' Hle). iApply (wpo_wand with "[Hc]"); [by iApply "Hc"|].
  by iIntros ([[]|m] V2 _) "H".
Qed.

Lemma wpp_join_unwrap h Ψ `{!ViewMono Ψ} V Φ :
  join_handle h (cur V) (ok_only Ψ) -∗
  (∀ V', ⌜V ⊆ V'⌝ -∗ Ψ (cur V') -∗ Φ tt V') -∗
  wpp (join_unwrap h) V Φ.
Proof.
  iIntros "Hh HΦ". iApply wpp_bind. iApply (wpp_join with "Hh").
  iIntros (o V1 Hle1) "HΨ". destruct o as [[]|m]; [|done].
  iApply wpp_ret. by iApply ("HΦ" with "[//]").
Qed.

Lemma wpp_with_drop {A} (d : prog unit) (body : prog A) V Φ :
  wpp body V (λ a V1, wpp d V1 (λ _ V2, Φ a V2)) -∗ wpp (with_drop d body) V Φ.
Proof.
  iIntros "H". iApply wpo_catch. iApply (wpo_wand with "H").
  iIntros ([a|m] V1 _) "H"; [|done]. iApply wpp_bind. iApply (wpp_wand with "H").
  iIntros ([] V2 _) "H". by iApply wpp_ret.
Qed.

Lemma wpo_with_drop {A} (d : prog unit) (body : prog A) V Φ :
  wpo body V (λ o V1, wpp d V1 (λ _ V2, Φ o V2)) -∗ wpo (with_drop d body) V Φ.
Proof.
  iIntros "H". iApply wpo_catch. iApply (wpo_wand with "H"). iIntros (o V1 _) "H".
  iApply wpp_bind_wpo. iApply (wpp_wand with "H"). iIntros ([] V2 _) "H".
  destruct o; [by iApply wpo_ret|by iApply wpo_panic].
Qed.

Lemma wpp_assert_eq v w V (Φ : unit → tview → iProp Σ) :
  v = w → Φ tt V -∗ wpp (assert_eq v w) V Φ.
Proof.
  iIntros (->) "HΦ". rewrite /assert_eq bool_decide_true //. by iApply wpp_ret.
Qed.

(** *** An atomic with one owner *)

Definition own_at (l : loc) (z : Z) (W : view) : iProp Σ :=
  ∃ h N A t m, l ↦ CAtomic h N A ∗ ⌜N ∪ A ⊆ W⌝ ∗ ⌜newest h t⌝ ∗ ⌜h !! t = Some m⌝ ∗
    ⌜mval m = z⌝ ∗ ⌜Coh l t ∈ W⌝.

#[global] Instance own_at_mono l z : ViewMono (own_at l z).
Proof.
  intros W W' Hle. iIntros "(%h & %N & %A & %t & %m & Hl & % & $ & $ & $ & %)".
  iExists N, A. iFrame "Hl". iPureIntro. set_solver.
Qed.

Lemma wpp_at_new z V Φ :
  (∀ l V', ⌜V ⊆ V'⌝ -∗ own_at l z (cur V') -∗ Φ l V') -∗ wpp (atomic_new z) V Φ.
Proof.
  iIntros "HΦ". iApply wpp_alloc_atomic. iIntros "!>" (l e) "Hl".
  iApply ("HΦ" with "[%]"); [apply observe_le|]. iExists _, _, _, 0, _. iFrame "Hl".
  rewrite lookup_singleton_eq. iPureIntro. split; [set_solver|]. split.
  - split; [rewrite lookup_singleton_eq; eauto|].
    by intros t m [<- _]%lookup_singleton_Some.
  - split; [done|]. split; [done|]. simpl. set_solver.
Qed.

Lemma wpp_at_load l z o V Φ :
  is_seqcst o = false →
  own_at l z (cur V) -∗ (∀ V', ⌜V ⊆ V'⌝ -∗ own_at l z (cur V') -∗ Φ z V') -∗
  wpp (load l o) V Φ.
Proof.
  iIntros (Ho) "(%h & %N & %A & %t & %m & Hl & %HA & %Hnew & %Hm & %Hz & %Ht) HΦ".
  iApply (wpp_load_inv ⊤); [done|]. iModIntro. iExists h, N, A. iFrame "Hl".
  iSplit; [iPureIntro; set_solver|]. iSplit.
  { iPureIntro. intros ->. by rewrite lookup_empty in Hm. }
  iIntros "!>" (t' m' e Hm' Hle) "Hl !>".
  assert (t' = t) as ->.
  { pose proof (proj2 Hnew _ _ Hm') as H1. specialize (Hle _ _ Hm Ht). simpl in H1. lia. }
  simplify_eq. pose proof (load_view_le o l t m e V) as Hle'.
  iApply ("HΦ" with "[//]"). iExists h, N, _, t, m. iFrame "Hl". iPureIntro.
  split_and!; [|done..|by apply Hle'].
  pose proof (load_view_acc o l t m e V). destruct Hle'. set_solver.
Qed.

Lemma wpp_at_rmw_any l z f weak os fo V Φ :
  is_seqcst os = false → is_seqcst fo = false →
  own_at l z (cur V) -∗
  (∀ z' V', ⌜f z = Some z'⌝ -∗ ⌜V ⊆ V'⌝ -∗ own_at l z' (cur V') -∗ Φ (z, true) V') ∧
  (∀ V', ⌜f z = None ∨ weak = true⌝ -∗ ⌜V ⊆ V'⌝ -∗ own_at l z (cur V') -∗
     Φ (z, false) V') -∗
  wpp (act (ORmw l f weak os fo)) V Φ.
Proof.
  iIntros (Hos Hfo) "(%h & %N & %A & %t & %m & Hl & %HA & %Hnew & %Hm & %Hz & %Ht) HΦ".
  iApply (wpp_rmw_inv ⊤); [done..|]. iModIntro. iExists h, N, A. iFrame "Hl".
  iSplit; [iPureIntro; set_solver|]. iSplit.
  { iPureIntro. intros ->. by rewrite lookup_empty in Hm. }
  iIntros "!>" (t' m' e Hm' Hle).
  assert (t' = t) as ->.
  { pose proof (proj2 Hnew _ _ Hm') as H1. specialize (Hle _ _ Hm Ht). simpl in H1. lia. }
  simplify_eq. iSplit; last first.
  { iIntros (Hf) "Hl !>". iDestruct "HΦ" as "[_ HΦ]".
    pose proof (load_view_le fo l t m e V) as Hle'.
    iApply ("HΦ" with "[//] [//]"). iExists h, N, _, t, m. iFrame "Hl". iPureIntro.
    split_and!; [|done..|by apply Hle'].
    pose proof (load_view_acc fo l t m e V). destruct Hle'. set_solver. }
  iIntros (z'' Hf' Hfree) "Hl !>". iDestruct "HΦ" as "[HΦ _]".
  pose proof (rmw_view_le os l t m e V) as Hle'.
  iApply ("HΦ" with "[//] [//]"). iExists _, N, _, (S t), _. iFrame "Hl".
  rewrite lookup_insert_eq. iPureIntro. split_and!; [| |done|done|apply rmw_view_coh].
  - pose proof (rmw_view_acc os l t m e V). destruct Hle'. set_solver.
  - split; [rewrite lookup_insert_eq; eauto|].
    intros t' m' [[<- _]|[_ H']]%lookup_insert_Some; [done|].
    apply Hnew in H'. simpl in H'. lia.
Qed.

Lemma wpp_at_rmw l z f weak os fo V Φ :
  is_seqcst os = false → is_seqcst fo = false → weak = false → is_Some (f z) →
  own_at l z (cur V) -∗
  (∀ z' V', ⌜f z = Some z'⌝ -∗ ⌜V ⊆ V'⌝ -∗ own_at l z' (cur V') -∗ Φ (z, true) V') -∗
  wpp (act (ORmw l f weak os fo)) V Φ.
Proof.
  iIntros (Hos Hfo -> [z' Hf]) "Hl HΦ". iApply (wpp_at_rmw_any with "Hl"); [done..|].
  iSplit; [done|]. iIntros (V' [?|?]); congruence.
Qed.

(** [fetch_add] and the like. *)
Lemma wpp_at_update l z (f : Z → Z) o V Φ :
  is_seqcst o = false →
  own_at l z (cur V) -∗ (∀ V', ⌜V ⊆ V'⌝ -∗ own_at l (f z) (cur V') -∗ Φ z V') -∗
  wpp ('(v, _) ← act (ORmw l (λ v, Some (f v)) false o Relaxed); mret v) V Φ.
Proof.
  iIntros (Ho) "Hl HΦ". iApply wpp_bind. iApply (wpp_at_rmw with "Hl"); [done..|by eexists|].
  iIntros (z' V' [= <-] Hle) "Hl". iApply wpp_ret. by iApply ("HΦ" with "[//]").
Qed.
End specs.
