(* ===== verification/Output.v ===== *)
(** * Programs whose threads print

    Every thread has the list of the lines it will print; the output of the
    program is an interleaving of these lists. *)

From iris.proofmode Require Import proofmode.
From iris.base_logic.lib Require Import invariants ghost_var.
From S2P Require Import Prelude Memory Lang Logic Rules Interleaving Std.

Section output.
Context `{!rustGS Σ}.
Implicit Types (fss : list (list output)) (rest : list output).

Definition outputs fss (γs : list gname) : iProp Σ :=
  ∃ log, printed log ∗ log_is fss γs log.

(** The thread named [γ] has the lines [rest] to print. *)
Definition writer fss (γ : gname) rest : iProp Σ :=
  ∃ γs i, ⌜γs !! i = Some γ⌝ ∗ inv outN (outputs fss γs) ∗ todo γ rest.

Lemma wpp_println_writer fss γ fmt args rest V Φ :
  writer fss γ ((fmt, args) :: rest) -∗ (writer fss γ rest -∗ Φ tt V) -∗
  wpp (println fmt args) V Φ.
Proof.
  iIntros "(%γs & %i & %Hi & #Hinv & Hγ) HΦ". iApply wpp_print_inv.
  iInv "Hinv" as (log) "[>Hp >Hlog]" "Hclose". iModIntro. iExists log.
  iFrame "Hp". iIntros "!> Hp". iMod (log_step with "Hlog Hγ") as "[Hlog Hγ]"; [done|].
  iMod ("Hclose" with "[Hp Hlog]") as "_".
  - iExists _. iFrame "Hp Hlog".
  - iModIntro. iApply "HΦ". iExists γs, i. by iFrame "Hinv Hγ".
Qed.

Lemma writers_todo fss γs rest :
  ([∗ list] γ ∈ γs, writer fss γ rest) -∗ [∗ list] γ ∈ γs, todo γ rest.
Proof.
  iIntros "H". iApply (big_sepL_impl with "H"). by iIntros "!>" (k γ _) "(%γs' & %i & _ & _ & $)".
Qed.
End output.

#[global] Typeclasses Opaque writer.

(** The programs that return once all threads have printed their lines. *)
Lemma safe_interleaved Σ `{!rustGpreS Σ} p (fss : list (list output)) :
  (∀ `{!rustGS Σ}, ⊢ ∀ γs, ([∗ list] γ;fs ∈ γs;fss, writer fss γ fs) -∗
     wpp p tview_init (λ _ _, [∗ list] γ ∈ γs, writer fss γ [])) →
  safe p (λ σ, ∃ rests, progress fss (out σ) rests)
    (λ o σ, o = Ok tt ∧ interleaving fss (out σ)).
Proof.
  intros Hwp. apply (safe_adequacy Σ). iIntros (?) "Hp _".
  iMod (log_alloc fss) as (γs) "[Hlog Ht]".
  iMod (inv_alloc outN _ (outputs fss γs) with "[Hp Hlog]") as "#Hinv".
  { iExists []. iFrame "Hp Hlog". }
  iModIntro. iExists (λ o, no_panic (λ _ _, [∗ list] γ ∈ γs, writer fss γ []) o tview_init)%I.
  iSplitL "Ht".
  { iApply (wpo_wand with "[Ht]").
    - iApply Hwp. iApply (big_sepL2_impl with "Ht"). iIntros "!>" (i γ fs Hi _) "Hγ".
      iExists γs, i. by iFrame "Hinv Hγ".
    - by iIntros ([a|m] V _) "H". }
  iSplit.
  - iIntros (σ) "(_ & Ho & _)". iInv "Hinv" as (log) "[>Hp >Hlog]" "_".
    iDestruct (ghost_var_agree with "Ho Hp") as %->.
    iDestruct (log_progress with "Hlog") as %Hpr.
    iApply fupd_mask_intro; [set_solver|]. by iIntros "_".
  - iIntros (o σ) "HΨ (_ & Ho & _)". destruct o as [[]|m]; [|done].
    iDestruct (writers_todo with "HΨ") as "HΨ".
    iInv "Hinv" as (log) "[>Hp >Hlog]" "_".
    iDestruct (ghost_var_agree with "Ho Hp") as %->.
    iDestruct (log_done with "Hlog HΨ") as %Hlog.
    iApply fupd_mask_intro; [set_solver|]. by iIntros "_".
Qed.

(** The output is in an invariant, with [S]; the main thread ends with [T]. *)
Lemma safe_output_inv Σ `{!rustGpreS Σ} p (J : list output → Prop)
    (Q : outcome unit → list output → Prop) :
  (∀ `{!rustGS Σ}, ⊢ printed [] ={⊤}=∗
     ∃ (S : list output → iProp Σ) (T : outcome unit → iProp Σ), ⌜∀ os, Timeless (S os)⌝ ∗
       inv outN (∃ os, printed os ∗ S os) ∗ wpo p tview_init (λ o _, T o) ∗
       ((∀ os, S os -∗ ⌜J os⌝) ∧ (∀ o os, T o -∗ S os -∗ ⌜Q o os⌝))) →
  safe p (λ σ, J (out σ)) (λ o σ, Q o (out σ)).
Proof.
  intros Hwp. apply (safe_adequacy Σ). iIntros (?) "Hp _".
  iMod (Hwp with "Hp") as (S T ?) "(#Hinv & Hp & HJQ)". iModIntro. iExists T.
  iFrame "Hp". iSplit.
  - iIntros (σ) "(_ & Ho & _)". iInv "Hinv" as (os) "(>Hos & >HS)" "_".
    iDestruct (ghost_var_agree with "Ho Hos") as %->. iDestruct "HJQ" as "[HJ _]".
    iDestruct ("HJ" with "HS") as %?.
    iApply fupd_mask_intro; [set_solver|]. by iIntros "_".
  - iIntros (o σ) "HT (_ & Ho & _)". iInv "Hinv" as (os) "(>Hos & >HS)" "_".
    iDestruct (ghost_var_agree with "Ho Hos") as %->. iDestruct "HJQ" as "[_ HQ]".
    iDestruct ("HQ" with "HT HS") as %?.
    iApply fupd_mask_intro; [set_solver|]. by iIntros "_".
Qed.
