(* ===== verification/Parking.v ===== *)
(** * Parking

    [thread::park], [unpark] and [park_timeout], with a token for each thread
    (see [Std]): when a thread wakes up says nothing of what others did, so
    their specifications only say that they return. *)

From iris.proofmode Require Import proofmode.
From iris.base_logic.lib Require Import invariants.
From S2P Require Import Prelude Memory Lang Logic Rules Std.

(** [park_timeout] may return without the token. *)
Definition park_timeout (tok : loc) : prog unit := _ ← swap tok 0 Acquire; mret ().

Section park.
Context `{!rustGS Σ}.

Definition parkN : namespace := nroot .@ "park".

Definition is_park (tok : loc) (W : view) : iProp Σ :=
  ∃ N, ⌜N ⊆ W⌝ ∗ inv parkN (∃ h A, tok ↦ CAtomic h N A ∗ ⌜h ≠ ∅⌝).

#[global] Instance is_park_persistent tok W : Persistent (is_park tok W).
Proof. apply _. Qed.

Lemma is_park_mono tok W W' : W ⊆ W' → is_park tok W -∗ is_park tok W'.
Proof. iIntros (?) "(%N & % & $)". iPureIntro. by etrans. Qed.

Lemma wpp_park_new V Φ :
  (∀ tok V', ⌜V ⊆ V'⌝ -∗ is_park tok (cur V') -∗ Φ tok V') -∗ wpp park_token_new V Φ.
Proof.
  iIntros "HΦ". iApply wpp_post_fupd. iApply wpp_alloc_atomic. iIntros "!>" (tok e) "Htok".
  set (V1 := observe _ _ V).
  iMod (inv_alloc parkN _ (∃ h A, tok ↦ CAtomic h {[Acc e]} A ∗ ⌜h ≠ ∅⌝) with "[Htok]") as "#Hi".
  { iNext. iExists _, _. iFrame. iPureIntro. apply insert_non_empty. }
  iModIntro. iApply ("HΦ" with "[%]"); [apply observe_le|]. iExists _. iFrame "Hi". iPureIntro.
  simpl. set_solver.
Qed.

Lemma wpp_park_swap tok z o V Φ :
  is_seqcst o = false →
  is_park tok (cur V) -∗ (∀ v V', ⌜V ⊆ V'⌝ -∗ Φ v V') -∗ wpp (swap tok z o) V Φ.
Proof.
  iIntros (Ho) "(%N & %HN & #Hi) HΦ". iApply wpp_swap_inv; [done|].
  iInv "Hi" as (h A) "[>Htok >%Hne]" "Hclose". iModIntro. iExists h, N, A. iFrame "Htok".
  do 2 (iSplit; [done|]). iIntros "!>" (t m e Hm Hle Hfree) "Htok".
  iMod ("Hclose" with "[Htok]") as "_".
  { iExists _, _. iFrame. iPureIntro. apply insert_non_empty. }
  iModIntro. iApply "HΦ". iPureIntro. apply rmw_view_le.
Qed.

Lemma wpp_unpark tok V Φ :
  is_park tok (cur V) -∗ (∀ V', ⌜V ⊆ V'⌝ -∗ Φ tt V') -∗ wpp (unpark tok) V Φ.
Proof.
  iIntros "#Hp HΦ". iApply wpp_bind. iApply (wpp_park_swap with "Hp"); [done|].
  iIntros (v V' Hle). iApply wpp_ret. by iApply "HΦ".
Qed.

Lemma wpp_park tok V Φ :
  is_park tok (cur V) -∗ (∀ V', ⌜V ⊆ V'⌝ -∗ Φ tt V') -∗ wpp (park tok) V Φ.
Proof.
  iIntros "#Hp HΦ". iApply (wpp_loop (λ _ _, ∀ V', ⌜V ⊆ V'⌝ -∗ Φ tt V')%I with "[] HΦ").
  iIntros "!>" ([] V1 Hle1) "HΦ". iApply wpp_bind.
  iDestruct (is_park_mono with "Hp") as "Hp'"; [apply Hle1|].
  iApply (wpp_park_swap with "Hp'"); [done|]. iIntros (v V2 Hle2).
  iApply wpp_bind. iApply wpp_input. iIntros "!>" (z). iApply wpp_ret.
  destruct (_ && _); simpl; [done|]. iApply "HΦ". iPureIntro. by etrans.
Qed.

Lemma wpp_park_timeout tok V Φ :
  is_park tok (cur V) -∗ (∀ V', ⌜V ⊆ V'⌝ -∗ Φ tt V') -∗ wpp (park_timeout tok) V Φ.
Proof.
  iIntros "#Hp HΦ". iApply wpp_bind. iApply (wpp_park_swap with "Hp"); [done|].
  iIntros (v V' Hle). iApply wpp_ret. by iApply "HΦ".
Qed.
End park.
