(* ===== verification/Publish.v ===== *)
(** * Atomics that publish what was written before

    A message of an atomic carries the view of the thread that wrote it, when
    the write is a release; a thread that reads it with [Acquire], or with an
    acquire fence afterwards, has that view.  Here every message publishes
    knowledge, [D v W]: what holds, when [v] was read, of a thread that has
    seen [W]. *)

From iris.proofmode Require Import proofmode.
From iris.base_logic.lib Require Import invariants.
From S2P Require Import Prelude Memory Lang Logic Rules Std.

(** The view in which a load sees what the message it read published. *)
Definition read_view (o : ordering) (V : tview) : view := if is_acquire o then cur V else acq V.
Definition write_view (o : ordering) (V : tview) : view := if is_release o then cur V else frel V.

Lemma load_view_read o l t m e V : mview m ⊆ read_view o (load_view o l t m e V).
Proof.
  rewrite /read_view. destruct (is_acquire o) eqn:Ho; [by apply load_view_acq|apply load_view_later].
Qed.

Lemma rmw_view_read o l t m e V : mview m ⊆ read_view o (rmw_view o l t m e V).
Proof.
  rewrite /read_view. destruct (is_acquire o) eqn:Ho; [by apply rmw_view_acq|apply rmw_view_later].
Qed.

Definition pubN : namespace := nroot .@ "pub".

Section publish.
Context `{!rustGS Σ}.
Context (D : Z → view → iProp Σ) `{!∀ v W, Persistent (D v W), !∀ v, ViewMono (D v)}.
Implicit Types (l : loc) (N W : view) (V : tview).

Definition pub_inv l N : iProp Σ :=
  ∃ h A, l ↦ CAtomic h N A ∗ ⌜h ≠ ∅⌝ ∗ [∗ map] m ∈ h, D (mval m) (mview m).
Definition is_pub l W : iProp Σ := ∃ N, ⌜N ⊆ W⌝ ∗ inv (pubN .@ l) (pub_inv l N).

#[global] Instance is_pub_persistent l W : Persistent (is_pub l W).
Proof. apply _. Qed.

Lemma is_pub_mono l W W' : W ⊆ W' → is_pub l W -∗ is_pub l W'.
Proof. iIntros (?) "(%N & % & $)". iPureIntro. by etrans. Qed.

#[global] Instance is_pub_view_mono l : ViewMono (is_pub l).
Proof. intros W W' Hle. iIntros "H". by iApply (is_pub_mono with "H"). Qed.

Lemma is_pub_alloc l z N A W E :
  N ⊆ W → l ↦ CAtomic {[0 := Msg z ∅]} N A -∗ D z ∅ ={E}=∗ is_pub l W.
Proof.
  iIntros (HN) "Hl #HD". iExists N. iSplitR; [done|]. iApply inv_alloc.
  iNext. iExists _, _. iFrame "Hl". rewrite big_sepM_singleton. iFrame "HD".
  iPureIntro. apply map_non_empty_singleton.
Qed.

Lemma wpp_pub_new z V Φ :
  D z ∅ -∗ (∀ l V', ⌜V ⊆ V'⌝ -∗ is_pub l (cur V') -∗ Φ l V') -∗ wpp (atomic_new z) V Φ.
Proof.
  iIntros "#HD HΦ". iApply wpp_post_fupd. iApply wpp_alloc_atomic.
  iIntros "!>" (l e) "Hl". set (V1 := observe _ _ V).
  iMod (is_pub_alloc _ _ _ _ (cur V1) with "Hl HD") as "#Hl"; [simpl; set_solver|].
  iModIntro. iApply ("HΦ" $! l V1 with "[%] Hl"). apply observe_le.
Qed.

Lemma wpp_pub_load l o V Φ :
  is_seqcst o = false → is_pub l (cur V) -∗
  (∀ v V', ⌜V ⊆ V'⌝ -∗ D v (read_view o V') -∗ Φ v V') -∗ wpp (load l o) V Φ.
Proof.
  iIntros (Ho) "(%N & %HN & #Hinv) HΦ". iApply wpp_load_inv; [done|].
  iInv "Hinv" as (h A) "(>Hl & >%Hne & #HD)" "Hclose". iModIntro. iExists h, N, A.
  iFrame "Hl". do 2 (iSplit; [done|]). iIntros "!>" (t m e Hm _) "Hl".
  iDestruct (big_sepM_lookup with "HD") as "HDm"; [exact Hm|].
  iMod ("Hclose" with "[Hl]") as "_"; [iExists h, _; by iFrame "Hl HD"|].
  iModIntro. iApply ("HΦ" with "[%]"); [apply load_view_le|].
  iApply (view_mono with "HDm"). apply load_view_read.
Qed.

Lemma wpp_pub_store l z o V Φ :
  is_seqcst o = false → is_pub l (cur V) -∗ D z (write_view o V) -∗
  (∀ V', ⌜V ⊆ V'⌝ -∗ Φ tt V') -∗ wpp (store l z o) V Φ.
Proof.
  iIntros (Ho) "(%N & %HN & #Hinv) #HDz HΦ". iApply wpp_store_inv; [done|].
  iInv "Hinv" as (h A) "(>Hl & >%Hne & #HD)" "Hclose". iModIntro. iExists h, N, A.
  iFrame "Hl". do 2 (iSplit; [done|]). iIntros "!>" (t e Hfree _) "Hl".
  iMod ("Hclose" with "[Hl]") as "_".
  { iExists _, _. iFrame "Hl". iSplit; [iPureIntro; apply insert_non_empty|]. iNext.
    rewrite big_sepM_insert //. iFrame "HD". iApply (view_mono with "HDz").
    rewrite /write_view /=. pose proof (store_view_le l t e V) as [].
    by destruct (is_release o). }
  iModIntro. iApply "HΦ". iPureIntro. apply store_view_le.
Qed.

Lemma wpp_pub_swap l z o V Φ :
  is_seqcst o = false → is_pub l (cur V) -∗ D z (write_view o V) -∗
  (∀ v V', ⌜V ⊆ V'⌝ -∗ D v (read_view o V') -∗ Φ v V') -∗ wpp (swap l z o) V Φ.
Proof.
  iIntros (Ho) "(%N & %HN & #Hinv) #HDz HΦ". iApply wpp_swap_inv; [done|].
  iInv "Hinv" as (h A) "(>Hl & >%Hne & #HD)" "Hclose". iModIntro. iExists h, N, A.
  iFrame "Hl". do 2 (iSplit; [done|]). iIntros "!>" (t m e Hm _ Hfree) "Hl".
  iDestruct (big_sepM_lookup with "HD") as "HDm"; [exact Hm|].
  iMod ("Hclose" with "[Hl]") as "_".
  { iExists _, _. iFrame "Hl". iSplit; [iPureIntro; apply insert_non_empty|]. iNext.
    rewrite big_sepM_insert //. iFrame "HD". iApply (view_mono with "HDz").
    rewrite /write_view /=. pose proof (rmw_view_le o l t m e V) as [].
    destruct (is_release o); set_solver. }
  iModIntro. iApply ("HΦ" with "[%]"); [apply rmw_view_le|].
  iApply (view_mono with "HDm"). apply rmw_view_read.
Qed.
End publish.

(** ** Data that is no longer written *)

Definition frozenN : namespace := nroot .@ "frozen".

Section frozen.
Context `{!rustGS Σ}.

(** [p] holds [v] for good; a thread that has seen [W] may read it. *)
Definition frozen (p : loc) (v : val) (W : view) : iProp Σ :=
  ∃ Wp, ⌜Wp ⊆ W⌝ ∗ inv frozenN (∃ R, p ↦ CData v Wp R).

#[global] Instance frozen_mono p v : ViewMono (frozen p v).
Proof. intros W W' Hle. iIntros "(%Wp & % & $)". iPureIntro. by etrans. Qed.

#[global] Instance own_na_view_mono p v : ViewMono (own_na p v).
Proof. intros W W' Hle. iIntros "H". by iApply (own_na_mono with "H"). Qed.

Lemma frozen_alloc p v W E : own_na p v W ={E}=∗ frozen p v W.
Proof.
  iIntros "(%ws & %rs & Hp & %Hle)". iExists ws.
  iMod (inv_alloc frozenN _ (∃ R, p ↦ CData v ws R) with "[Hp]") as "$"; [iExists _; iFrame "Hp"|].
  iPureIntro. set_solver.
Qed.

Lemma wpp_read_frozen p v V Φ :
  frozen p v (cur V) -∗ (∀ V', ⌜V ⊆ V'⌝ -∗ Φ v V') -∗ wpp (read p) V Φ.
Proof.
  iIntros "(%Wp & %HW & #Hp) HΦ". iApply wpp_read_inv. iInv "Hp" as (R) ">Hpt" "Hclose".
  iModIntro. iExists v, Wp, R. iFrame "Hpt". iSplit; [done|]. iIntros "!>" (e) "Hpt".
  iMod ("Hclose" with "[Hpt]") as "_"; [iExists _; iFrame "Hpt"|]. iModIntro.
  iApply "HΦ". iPureIntro. apply observe_le.
Qed.
End frozen.
