(* ===== verification/RmwCell.v ===== *)
(** * Atomics that are only changed by read-modify-writes

    Every read-modify-write reads the newest value, so such an atomic behaves
    like a variable that is updated atomically; a plain load may see any
    earlier value.  Also here: counting permissions, and tickets for numbers
    that were handed out. *)

From iris.algebra Require Import auth numbers.
From iris.proofmode Require Import proofmode.
From iris.base_logic.lib Require Import invariants ghost_map.
From S2P Require Import Prelude Memory History Lang Logic Rules Std.

Definition cellN : namespace := nroot .@ "cell".

Section cell.
Context `{!rustGS Σ}.
(** [R v] goes with the newest value, [D v] holds of every value. *)
Context (D R : Z → iProp Σ) `{!∀ v, Persistent (D v), !∀ v, Timeless (D v)}.
Implicit Types (l : loc) (N : view) (V : tview).

Definition cell_inv l N : iProp Σ :=
  ∃ h A tm m, l ↦ CAtomic h N A ∗ ⌜newest h tm⌝ ∗ ⌜contiguous h 0 tm⌝ ∗
    ⌜h !! tm = Some m⌝ ∗ ([∗ map] m' ∈ h, D (mval m')) ∗ R (mval m).

Definition is_cell l (W : view) : iProp Σ := ∃ N, ⌜N ⊆ W⌝ ∗ inv cellN (cell_inv l N).

#[global] Instance is_cell_persistent l W : Persistent (is_cell l W).
Proof. apply _. Qed.

Lemma is_cell_mono l W W' : W ⊆ W' → is_cell l W -∗ is_cell l W'.
Proof. iIntros (?) "(%N & % & $)". iPureIntro. by etrans. Qed.

Lemma wpp_cell_new z V Φ :
  D z -∗ R z -∗ (∀ l V', ⌜V ⊆ V'⌝ -∗ is_cell l (cur V') -∗ Φ l V') -∗
  wpp (atomic_new z) V Φ.
Proof.
  iIntros "#HD HR HΦ". iApply wpp_post_fupd. iApply wpp_alloc_atomic.
  iIntros "!>" (l e) "Hl". set (V1 := observe _ _ V).
  iMod (inv_alloc cellN _ (cell_inv l {[Acc e]}) with "[Hl HR]") as "#Hinv".
  { iNext. iExists _, _, 0, (Msg z ∅). iFrame "Hl". rewrite lookup_singleton_eq big_sepM_singleton /=.
    iFrame "HD HR". iPureIntro. split; [apply newest_singleton|].
    split; [apply contiguous_singleton|done]. }
  iModIntro. iApply ("HΦ" $! l V1 with "[%]"); [apply observe_le|]. iExists _. iFrame "Hinv".
  iPureIntro. simpl. set_solver.
Qed.

Lemma wpp_cell_load l o V Φ :
  is_seqcst o = false →
  is_cell l (cur V) -∗ (∀ v V', ⌜V ⊆ V'⌝ -∗ D v -∗ Φ v V') -∗ wpp (load l o) V Φ.
Proof.
  iIntros (Ho) "(%N & %HN & #Hinv) HΦ". iApply wpp_load_inv; [done|].
  iInv "Hinv" as (h A tm m) "(>Hl & >%Hnew & >%Hcon & >%Hm & >#HD & HR)" "Hclose".
  iModIntro. iExists h, N, A. iFrame "Hl". iSplit; [done|]. iSplit.
  { iPureIntro. intros ->. by rewrite lookup_empty in Hm. }
  iIntros "!>" (t m' e Hm' _) "Hl".
  iDestruct (big_sepM_lookup with "HD") as "HD'"; [exact Hm'|].
  iMod ("Hclose" with "[Hl HR]") as "_".
  { iNext. iExists _, _, _, _. iFrame "Hl HD HR". done. }
  iModIntro. iApply ("HΦ" with "[%] HD'"). apply load_view_le.
Qed.

Lemma wpp_cell_rmw l f weak os fo V Φ :
  is_seqcst os = false → is_seqcst fo = false →
  is_cell l (cur V) -∗
  (∀ v z, ⌜f v = Some z⌝ -∗ D v -∗ R v ={⊤ ∖ ↑cellN}=∗
     D z ∗ R z ∗ ∀ V', ⌜V ⊆ V'⌝ -∗ Φ (v, true) V') ∧
  (∀ v V', ⌜f v = None ∨ weak = true⌝ -∗ ⌜V ⊆ V'⌝ -∗ D v -∗ Φ (v, false) V') -∗
  wpp (act (ORmw l f weak os fo)) V Φ.
Proof.
  iIntros (Hos Hfo) "(%N & %HN & #Hinv) HΦ". iApply wpp_rmw_inv; [done..|].
  iInv "Hinv" as (h A tm m) "(>Hl & >%Hnew & >%Hcon & >%Hm & >#HD & HR)" "Hclose".
  iModIntro. iExists h, N, A. iFrame "Hl". iSplit; [done|]. iSplit.
  { iPureIntro. intros ->. by rewrite lookup_empty in Hm. }
  iIntros "!>" (t m' e Hm' _).
  iDestruct (big_sepM_lookup with "HD") as "HD'"; [exact Hm'|]. iSplit.
  - iIntros (z Hz Hfree) "Hl". iDestruct "HΦ" as "[HΦ _]".
    assert (t = tm) as -> by (eapply (contiguous_newest h 0); [done|done|lia|done|done]).
    simplify_eq. iMod ("HΦ" with "[//] HD' HR") as "(#HDz & HR & HΦ)".
    set (V' := rmw_view _ _ _ _ _ _). set (mz := rmw_msg _ _ _ _).
    destruct (contiguous_extend h 0 tm mz Hnew Hcon) as [Hnew' Hcon'].
    iMod ("Hclose" with "[Hl HR]") as "_".
    { iNext. iExists _, _, (S tm), mz. iFrame "Hl". rewrite lookup_insert_eq.
      rewrite big_sepM_insert //. iFrame "HD HDz HR". done. }
    iModIntro. iApply "HΦ". iPureIntro. apply rmw_view_le.
  - iIntros (Hf) "Hl". iDestruct "HΦ" as "[_ HΦ]". iMod ("Hclose" with "[Hl HR]") as "_".
    { iNext. iExists _, _, _, _. iFrame "Hl HD HR". done. }
    iModIntro. iApply ("HΦ" with "[//] [%] HD'"). apply load_view_le.
Qed.

(** [fetch_add], [fetch_sub], [fetch_max], [swap]. *)
Lemma wpp_cell_update l (f : Z → Z) o V Φ :
  is_seqcst o = false →
  is_cell l (cur V) -∗
  (∀ v, D v -∗ R v ={⊤ ∖ ↑cellN}=∗
     D (f v) ∗ R (f v) ∗ ∀ V', ⌜V ⊆ V'⌝ -∗ Φ v V') -∗
  wpp ('(v, _) ← act (ORmw l (λ v, Some (f v)) false o Relaxed); mret v) V Φ.
Proof.
  iIntros (Ho) "#Hc HΦ". iApply wpp_bind. iApply (wpp_cell_rmw with "Hc"); [done..|].
  iSplit; [|by iIntros (v V' [?|?])]. iIntros (v z [= <-]) "HD HR".
  iMod ("HΦ" with "HD HR") as "($ & $ & HΦ)". iIntros "!>" (V' Hle). iApply wpp_ret.
  by iApply "HΦ".
Qed.
End cell.

(** ** Counting permissions *)

Class countG Σ := CountG { count_inG :: inG Σ (authR natUR) }.
Definition countΣ : gFunctors := #[GFunctor (authR natUR)].
#[export] Instance subG_countΣ Σ : subG countΣ Σ → countG Σ.
Proof. solve_inG. Qed.

Section permits.
Context `{!countG Σ}.

(** There are [n] permits in all; [permits γ k] is [k] of them. *)
Definition permits_total (γ : gname) (n : nat) : iProp Σ := own γ (● n).
Definition permits (γ : gname) (k : nat) : iProp Σ := own γ (◯ k).

Lemma permits_alloc n : ⊢ |==> ∃ γ, permits_total γ n ∗ permits γ n.
Proof.
  iMod (own_alloc (● n ⋅ ◯ n)) as (γ) "[H1 H2]"; [by apply auth_both_valid_discrete|].
  iModIntro. iExists γ. iFrame.
Qed.

Lemma permits_zero γ : ⊢ |==> permits γ 0.
Proof. iApply own_unit. Qed.

Lemma permits_split γ k1 k2 : permits γ (k1 + k2) ⊣⊢ permits γ k1 ∗ permits γ k2.
Proof. by rewrite /permits -own_op -auth_frag_op nat_op. Qed.

Lemma permits_none γ k : permits γ k -∗ permits γ 0 ∗ permits γ k.
Proof. iIntros "H". by iApply (permits_split γ 0 k). Qed.

Lemma permits_le γ n k : permits_total γ n -∗ permits γ k -∗ ⌜k ≤ n⌝.
Proof.
  iIntros "H1 H2". iCombine "H1 H2" gives %[Hle _]%auth_both_valid_discrete.
  iPureIntro. by apply nat_included.
Qed.

Lemma permits_each {A} γ (xs : list A) k :
  permits γ (length xs * k) ⊢ |==> [∗ list] _ ∈ xs, permits γ k.
Proof.
  induction xs as [|x xs IH]; [by iIntros "_ !>"|]. cbn [length Nat.mul].
  rewrite permits_split IH. by iIntros "[$ >$]".
Qed.

Lemma permits_all {A} γ (xs : list A) :
  ([∗ list] _ ∈ xs, permits γ 1) ⊢ ⌜xs = []⌝ ∨ permits γ (length xs).
Proof.
  induction xs as [|x xs IH]; [iIntros "_"; by iLeft|]. cbn [big_opL]. rewrite IH.
  iIntros "[Hx [%Hxs|H]]"; iRight; [by rewrite Hxs|].
  rewrite (permits_split γ 1 (length xs)). iFrame.
Qed.

Lemma permits_gather {A} γ n (xs : list A) :
  permits_total γ n -∗ ([∗ list] _ ∈ xs, permits γ 1) -∗ ⌜length xs ≤ n⌝.
Proof.
  iIntros "Hn Hxs". iDestruct (permits_all with "Hxs") as "[%Hxs|H]".
  - iPureIntro. rewrite Hxs. simpl. lia.
  - iApply (permits_le with "Hn H").
Qed.

(** The same with [k] permits each. *)
Lemma permits_gather_each {A} γ n k (xs : list A) :
  permits_total γ n -∗ ([∗ list] _ ∈ xs, permits γ k) -∗ ⌜length xs * k ≤ n⌝.
Proof.
  iIntros "Hn Hxs".
  iAssert (⌜xs = []⌝ ∨ permits γ (length xs * k))%I with "[Hxs]" as "[-> | H]".
  - iInduction xs as [|x xs] "IH"; [by iLeft|]. iDestruct "Hxs" as "[Hx Hxs]". iRight.
    cbn [length Nat.mul]. rewrite permits_split. iDestruct ("IH" with "Hxs") as "[-> | $]"; [|done].
    simpl. iDestruct (permits_none with "Hx") as "[$ $]".
  - iPureIntro. simpl. lia.
  - iApply (permits_le with "Hn H").
Qed.

(** A total that follows the permits given out. *)
Lemma permits_add γ n : permits_total γ n ==∗ permits_total γ (S n) ∗ permits γ 1.
Proof.
  iIntros "H". iMod (own_update with "H") as "[$ $]"; [|done].
  apply auth_update_alloc, (nat_local_update n 0 (S n) 1). lia.
Qed.

Lemma permits_remove γ n :
  permits_total γ n -∗ permits γ 1 ==∗ ∃ n', ⌜n = S n'⌝ ∗ permits_total γ n'.
Proof.
  iIntros "H1 H2". iDestruct (permits_le with "H1 H2") as %Hle.
  destruct n as [|n]; [lia|]. iExists n. iCombine "H1 H2" as "H".
  iMod (own_update with "H") as "$"; [|done].
  apply auth_update_dealloc, (nat_local_update (S n) 1 n 0). lia.
Qed.
End permits.

(** ** Tickets

    The numbers below [n] have been handed out, each once. *)

Class ticketG Σ := TicketG { ticket_mapG :: ghost_mapG Σ nat unit }.
Definition ticketΣ : gFunctors := #[ghost_mapΣ nat unit].
#[export] Instance subG_ticketΣ Σ : subG ticketΣ Σ → ticketG Σ.
Proof. solve_inG. Qed.

Section tickets.
Context `{!ticketG Σ}.

Definition tickets (γ : gname) (n : nat) : iProp Σ :=
  ghost_map_auth γ 1 (gset_to_gmap () (set_seq 0 n)).
Definition ticket (γ : gname) (k : nat) : iProp Σ := k ↪[γ] ().

Lemma tickets_alloc : ⊢ |==> ∃ γ, tickets γ 0.
Proof. iMod (ghost_map_alloc_empty (K := nat) (V := unit)) as (γ) "H". by iExists γ. Qed.

Lemma tickets_next γ n : tickets γ n ==∗ tickets γ (S n) ∗ ticket γ n.
Proof.
  iIntros "H". iMod (ghost_map_insert n () with "H") as "[H $]".
  { apply lookup_gset_to_gmap_None. rewrite elem_of_set_seq. lia. }
  iModIntro. by rewrite /tickets set_seq_S_end_union_L gset_to_gmap_union_singleton.
Qed.

Lemma ticket_ne γ k1 k2 : ticket γ k1 -∗ ticket γ k2 -∗ ⌜k1 ≠ k2⌝.
Proof. iIntros "H1 H2". iApply (ghost_map_elem_ne with "H1 H2"). Qed.
End tickets.

(** ** Tallies

    [k] threads do something once each; [n] have. *)

Section tally.
Context `{!countG Σ}.
Implicit Types (γ : gname * gname).

Definition tally γ (k n : nat) : iProp Σ :=
  permits_total γ.1 k ∗ permits γ.1 n ∗ permits_total γ.2 n.
Definition due γ : iProp Σ := permits γ.1 1.
Definition paid γ : iProp Σ := permits γ.2 1.

Lemma tally_alloc {X} (xs : list X) :
  ⊢ |==> ∃ γ, tally γ (length xs) 0 ∗ [∗ list] _ ∈ xs, due γ.
Proof.
  iMod (permits_alloc (length xs)) as (γ1) "[H1 H]". iMod (permits_alloc 0) as (γ2) "[H2 _]".
  iDestruct (permits_none with "H") as "[H0 H]". rewrite -{2}(Nat.mul_1_r (length xs)).
  iMod (permits_each with "H") as "H". iModIntro. iExists (γ1, γ2). iFrame.
Qed.

Lemma tally_step γ k n : tally γ k n -∗ due γ ==∗ tally γ k (S n) ∗ paid γ.
Proof.
  iIntros "($ & H1 & H2) H". iMod (permits_add with "H2") as "[$ $]".
  iModIntro. rewrite -(Nat.add_1_l n) permits_split. iFrame.
Qed.

Lemma tally_le γ k n : tally γ k n -∗ ⌜n ≤ k⌝.
Proof. iIntros "(H1 & H2 & _)". iApply (permits_le with "H1 H2"). Qed.

Lemma tally_done {X} (xs : list X) γ k n :
  length xs = k → tally γ k n -∗ ([∗ list] _ ∈ xs, paid γ) -∗ ⌜n = k⌝.
Proof.
  iIntros (<-) "Ht Hp". iDestruct (tally_le with "Ht") as %Hle.
  iDestruct "Ht" as "(_ & _ & H2)".
  iDestruct (permits_gather with "H2 Hp") as %Hge. iPureIntro. lia.
Qed.
End tally.
