(* ===== verification/Monotone.v ===== *)
(** * Atomics whose value only grows

    Coherence: a thread that has read a value of the atomic never reads an
    older one again, so when the values grow with the modification order, what
    one thread reads grows too, with any memory ordering.  The writes are the
    stores of one thread, or read-modify-writes of any number of threads. *)

From iris.proofmode Require Import proofmode.
From iris.base_logic.lib Require Import invariants ghost_map ghost_var.
From S2P Require Import Prelude Memory History Lang Logic Rules Std.

Class monoG Σ := MonoG { mono_mapG :: ghost_mapG Σ nat Z; mono_varG :: ghost_varG Σ nat }.
Definition monoΣ : gFunctors := #[ghost_mapΣ nat Z; ghost_varΣ nat].
#[export] Instance subG_monoΣ Σ : subG monoΣ Σ → monoG Σ.
Proof. solve_inG. Qed.

Definition rising (h : hist) : Prop :=
  ∀ t1 t2 m1 m2, h !! t1 = Some m1 → h !! t2 = Some m2 → t1 ≤ t2 → (mval m1 <= mval m2)%Z.

Lemma rising_singleton t m : rising {[t := m]}.
Proof. intros t1 t2 m1 m2 [_ <-]%lookup_singleton_Some [_ <-]%lookup_singleton_Some _. lia. Qed.

Lemma rising_insert h tm m t m' :
  rising h → newest h tm → h !! tm = Some m → tm < t → (mval m <= mval m')%Z →
  rising (<[t := m']> h).
Proof.
  intros Hr [_ Hmax] Hm Ht Hle t1 t2 m1 m2 H1 H2 H12.
  apply lookup_insert_Some in H1 as [[-> <-]|[_ H1]];
    apply lookup_insert_Some in H2 as [[-> <-]|[Hne H2]]; [lia| | |by eapply Hr].
  - apply Hmax in H2. simpl in H2. lia.
  - etrans; [|exact Hle]. eapply Hr; [done..|]. by apply Hmax in H1.
Qed.

Definition monoN : namespace := nroot .@ "mono".

(** ** What a thread knows *)

Section knowledge.
Context `{!monoG Σ}.
Implicit Types (γ γw : gname) (l : loc) (W : view).

(** A write of [v] has been observed. *)
Definition seen γ l (v : Z) W : iProp Σ := ∃ t, ⌜Coh l t ∈ W⌝ ∗ t ↪[γ]□ v.

#[global] Instance seen_persistent γ l v W : Persistent (seen γ l v W).
Proof. apply _. Qed.
Lemma seen_mono γ l v W W' : W ⊆ W' → seen γ l v W -∗ seen γ l v W'.
Proof. iIntros (?) "(%t & % & $)". iPureIntro. set_solver. Qed.

(** The writer, whose last write was [z]. *)
Definition mono_writer γ γw l (z : Z) (W : view) : iProp Σ :=
  ∃ t, ghost_var γw (1/2) t ∗ ⌜Coh l t ∈ W⌝ ∗ t ↪[γ]□ z.

Lemma mono_writer_mono γ γw l z W W' :
  W ⊆ W' → mono_writer γ γw l z W -∗ mono_writer γ γw l z W'.
Proof. iIntros (?) "(%t & $ & % & $)". iPureIntro. set_solver. Qed.

Lemma mono_writer_seen γ γw l z W : mono_writer γ γw l z W -∗ seen γ l z W.
Proof. iIntros "(%t & _ & % & #H)". iExists t. by iFrame "H". Qed.

End knowledge.

(** ** The atomic *)

Section mono.
Context `{!rustGS Σ, !monoG Σ}.
(** [D] holds of every value; [X] is what the writers know of the history. *)
Context (D : Z → iProp Σ) `{!∀ v, Persistent (D v), !∀ v, Timeless (D v)}.
Context (X : hist → iProp Σ) `{!∀ h, Timeless (X h)}.
Implicit Types (γ : gname) (l : loc) (N W : view) (V : tview) (h : hist).

Definition mono_inv γ l N : iProp Σ :=
  ∃ h A, l ↦ CAtomic h N A ∗ ghost_map_auth γ 1 (mval <$> h) ∗ ⌜h ≠ ∅⌝ ∗ ⌜rising h⌝ ∗
    ([∗ map] t ↦ m ∈ h, t ↪[γ]□ mval m ∗ D (mval m)) ∗ X h.

Definition is_mono γ l W : iProp Σ := ∃ N, ⌜N ⊆ W⌝ ∗ inv monoN (mono_inv γ l N).

#[global] Instance is_mono_persistent γ l W : Persistent (is_mono γ l W).
Proof. apply _. Qed.

Lemma is_mono_mono γ l W W' : W ⊆ W' → is_mono γ l W -∗ is_mono γ l W'.
Proof. iIntros (?) "(%N & % & $)". iPureIntro. by etrans. Qed.

Lemma wpp_mono_new z V Φ :
  D z -∗ (∀ m, ⌜mval m = z⌝ -∗ X {[0 := m]}) -∗
  (∀ γ l V', ⌜V ⊆ V'⌝ -∗ is_mono γ l (cur V') -∗ ⌜Coh l 0 ∈ cur V'⌝ -∗ 0 ↪[γ]□ z -∗ Φ l V') -∗
  wpp (atomic_new z) V Φ.
Proof.
  iIntros "#HD HX HΦ". iApply wpp_post_fupd. iApply wpp_alloc_atomic.
  iIntros "!>" (l e) "Hl". set (V1 := observe _ _ V).
  iMod (ghost_map_alloc_empty (K := nat) (V := Z)) as (γ) "Hγ".
  iMod (ghost_map_insert_persist 0 z with "Hγ") as "[Hγ #H0]"; [done|].
  iMod (inv_alloc monoN _ (mono_inv γ l {[Acc e]}) with "[Hl HX Hγ]") as "#Hinv".
  { iNext. iExists _, _. iFrame "Hl". rewrite map_fmap_singleton big_sepM_singleton /=.
    iFrame "Hγ H0 HD". iSplit; [iPureIntro; apply map_non_empty_singleton|].
    iSplit; [iPureIntro; apply rising_singleton|]. by iApply "HX". }
  iModIntro. iApply ("HΦ" $! γ l V1 with "[%] [] [%] H0"); [apply observe_le| |simpl; set_solver].
  iExists _. iFrame "Hinv". iPureIntro. simpl. set_solver.
Qed.

Lemma wpp_mono_load γ l o v V Φ :
  is_seqcst o = false → is_mono γ l (cur V) -∗ seen γ l v (cur V) -∗
  (∀ v' V', ⌜V ⊆ V'⌝ -∗ ⌜(v <= v')%Z⌝ -∗ D v' -∗ seen γ l v' (cur V') -∗ Φ v' V') -∗
  wpp (load l o) V Φ.
Proof.
  iIntros (Ho) "(%N & %HN & #Hinv) (%t & %Ht & #Hv) HΦ". iApply wpp_load_inv; [done|].
  iInv "Hinv" as (h A) "(>Hl & >Hγ & >%Hne & >%Hr & >#Hm & >HX)" "Hclose".
  iDestruct (ghost_map_lookup with "Hγ Hv") as %(m & <- & Hmt)%lookup_fmap_Some.
  iModIntro. iExists h, N, A. iFrame "Hl". do 2 (iSplit; [done|]).
  iIntros "!>" (t' m' e Hm' Hcoh) "Hl".
  iDestruct (big_sepM_lookup with "Hm") as "[Hv' HD]"; [exact Hm'|].
  iMod ("Hclose" with "[Hl Hγ HX]") as "_"; [iExists h, _; by iFrame "Hl Hγ HX Hm"|].
  iModIntro. iApply ("HΦ" with "[%] [%] HD"); [apply load_view_le| |].
  - eapply Hr; [done..|]. by eapply Hcoh.
  - iExists t'. iFrame "Hv'". iPureIntro. apply load_view_coh.
Qed.

(** A write of [m] at [t], after all others. *)
Lemma mono_extend γ h tm m t m' :
  newest h tm → h !! tm = Some m → tm < t → (mval m <= mval m')%Z → rising h →
  D (mval m') -∗ ([∗ map] t ↦ m ∈ h, t ↪[γ]□ mval m ∗ D (mval m)) -∗
  ghost_map_auth γ 1 (mval <$> h) ==∗
  ghost_map_auth γ 1 (mval <$> <[t := m']> h) ∗ ⌜<[t := m']> h ≠ ∅⌝ ∗ ⌜rising (<[t := m']> h)⌝ ∗
  ([∗ map] t ↦ m ∈ <[t := m']> h, t ↪[γ]□ mval m ∗ D (mval m)) ∗ t ↪[γ]□ mval m'.
Proof.
  iIntros (Hnew Hm Ht Hle Hr) "#HD #Hms Hγ".
  assert (h !! t = None) as Hfree.
  { destruct (h !! t) eqn:E; [|done]. apply Hnew in E. simpl in E. lia. }
  iMod (ghost_map_insert_persist t (mval m') with "Hγ") as "[Hγ #Hv]".
  { by rewrite lookup_fmap Hfree. }
  iModIntro. rewrite fmap_insert big_sepM_insert //. iFrame "Hγ Hv HD Hms".
  iPureIntro. split; [apply insert_non_empty|]. by eapply rising_insert.
Qed.
End mono.

(** ** One thread stores *)

Section store.
Context `{!rustGS Σ, !monoG Σ}.
Context (D : Z → iProp Σ) `{!∀ v, Persistent (D v), !∀ v, Timeless (D v)}.
Implicit Types (γ γw : gname) (l : loc) (V : tview).

Definition last_store γw (h : hist) : iProp Σ := ∃ t, ⌜newest h t⌝ ∗ ghost_var γw (1/2) t.

Lemma wpp_mono_new_writer z V Φ :
  D z -∗
  (∀ γ γw l V', ⌜V ⊆ V'⌝ -∗ is_mono D (last_store γw) γ l (cur V') -∗
     mono_writer γ γw l z (cur V') -∗ Φ l V') -∗
  wpp (atomic_new z) V Φ.
Proof.
  iIntros "#HD HΦ". iApply wpo_fupd. iMod (ghost_var_alloc 0) as (γw) "[H1 H2]". iModIntro.
  iApply (wpp_mono_new D (last_store γw) with "HD [H1]").
  { iIntros (m _). iExists 0. iFrame "H1". iPureIntro. apply newest_singleton. }
  iIntros (γ l V' Hle) "Hl %Hc H0". iApply ("HΦ" with "[//] Hl"). iExists 0. by iFrame "H2 H0".
Qed.

Lemma wpp_mono_store γ γw l z z' o V Φ :
  is_seqcst o = false → (z <= z')%Z →
  is_mono D (last_store γw) γ l (cur V) -∗ mono_writer γ γw l z (cur V) -∗ D z' -∗
  (∀ V', ⌜V ⊆ V'⌝ -∗ mono_writer γ γw l z' (cur V') -∗ Φ tt V') -∗
  wpp (store l z' o) V Φ.
Proof.
  iIntros (Ho Hz) "(%N & %HN & #Hinv) (%t & Hw & %Ht & #Hv) #HD HΦ".
  iApply wpp_store_inv; [done|].
  iInv "Hinv" as (h A) "(>Hl & >Hγ & >%Hne & >%Hr & >#Hm & >(%t0 & %Hnew & Hw'))" "Hclose".
  iDestruct (ghost_var_agree with "Hw Hw'") as %<-.
  iDestruct (ghost_map_lookup with "Hγ Hv") as %(m & <- & Hmt)%lookup_fmap_Some.
  iModIntro. iExists h, N, A. iFrame "Hl". do 2 (iSplit; [done|]).
  iIntros "!>" (t' e Hfree Hcoh) "Hl". set (m' := store_msg _ _ _).
  pose proof (Hcoh _ _ Hmt Ht) as Hlt.
  iMod (mono_extend D γ h t m t' m' with "HD Hm Hγ") as "(Hγ & % & % & #Hm' & #Hv')"; [done..|].
  iMod (ghost_var_update_halves t' with "Hw Hw'") as "[Hw Hw']".
  iMod ("Hclose" with "[Hl Hγ Hw']") as "_".
  { iExists _, _. iFrame "Hl Hγ Hm' Hw'". iPureIntro. split_and!; [done..|].
    replace t' with (t' `max` t) at 2 by lia. by apply newest_insert. }
  iModIntro. iApply ("HΦ" with "[%]"); [apply store_view_le|]. iExists t'. iFrame "Hw Hv'".
  iPureIntro. apply store_view_coh.
Qed.
End store.

(** ** Any number of threads read, modify and write *)

Section rmw.
Context `{!rustGS Σ, !monoG Σ}.
Context (D : Z → iProp Σ) `{!∀ v, Persistent (D v), !∀ v, Timeless (D v)}.
Context (R : Z → iProp Σ) `{!∀ v, Timeless (R v)}.
Implicit Types (γ : gname) (l : loc) (V : tview).

(** [R] holds of the newest value. *)
Definition last_rmw (h : hist) : iProp Σ :=
  ∃ t m, ⌜newest h t⌝ ∗ ⌜contiguous h 0 t⌝ ∗ ⌜h !! t = Some m⌝ ∗ R (mval m).

Lemma wpp_mono_new_rmw z V Φ :
  D z -∗ R z -∗
  (∀ γ l V', ⌜V ⊆ V'⌝ -∗ is_mono D last_rmw γ l (cur V') -∗ seen γ l z (cur V') -∗ Φ l V') -∗
  wpp (atomic_new z) V Φ.
Proof.
  iIntros "#HD HR HΦ". iApply (wpp_mono_new D last_rmw with "HD [HR]").
  { iIntros (m <-). iExists 0, m. iFrame "HR". rewrite lookup_singleton_eq. iPureIntro.
    split; [apply newest_singleton|]. split; [apply contiguous_singleton|done]. }
  iIntros (γ l V' Hle) "Hl %Hc H0". iApply ("HΦ" with "[//] Hl"). iExists 0. by iFrame "H0".
Qed.

(** [fetch_add], [fetch_max]. *)
Lemma wpp_mono_update γ l (f : Z → Z) o V Φ :
  is_seqcst o = false → is_mono D last_rmw γ l (cur V) -∗
  (∀ v, D v -∗ R v ={⊤ ∖ ↑monoN}=∗ ⌜(v <= f v)%Z⌝ ∗ D (f v) ∗ R (f v) ∗
     ∀ V', ⌜V ⊆ V'⌝ -∗ seen γ l (f v) (cur V') -∗ Φ v V') -∗
  wpp ('(v, _) ← act (ORmw l (λ v, Some (f v)) false o Relaxed); mret v) V Φ.
Proof.
  iIntros (Ho) "(%N & %HN & #Hinv) HΦ". iApply wpp_bind. iApply wpp_rmw_inv; [done..|].
  iInv "Hinv" as (h A) "(>Hl & >Hγ & >%Hne & >%Hr & >#Hm & >(%tm & %m & %Hnew & %Hcon & %Hmt & HR))" "Hclose".
  iModIntro. iExists h, N, A. iFrame "Hl". do 2 (iSplit; [done|]).
  iIntros "!>" (t m' e Hm' _). iSplit; [|by iIntros ([?|?])].
  iIntros (z [= <-] Hfree) "Hl".
  assert (t = tm) as -> by (eapply (contiguous_newest h 0); [done|done|lia|done|done]).
  simplify_eq. iDestruct (big_sepM_lookup with "Hm") as "[_ HD]"; [exact Hmt|].
  iMod ("HΦ" with "HD HR") as "(%Hle & #HD' & HR & HΦ)".
  set (V' := rmw_view _ _ _ _ _ _). set (mz := rmw_msg _ _ _ _).
  destruct (contiguous_extend h 0 tm mz Hnew Hcon) as [Hnew' Hcon'].
  iMod (mono_extend D γ h tm m (S tm) mz with "HD' Hm Hγ") as "(Hγ & % & % & #Hm' & #Hv)"; [done|done|lia|done|done|].
  iMod ("Hclose" with "[Hl Hγ HR]") as "_".
  { iExists _, _. iFrame "Hl Hγ Hm'". do 2 (iSplit; [done|]). iExists (S tm), mz.
    iFrame "HR". rewrite lookup_insert_eq. done. }
  iModIntro. iApply wpp_ret. iApply ("HΦ" with "[%]"); [apply rmw_view_le|]. iExists (S tm).
  iFrame "Hv". iPureIntro. apply rmw_view_coh.
Qed.
End rmw.
