(* ===== verification/Ids.v ===== *)
(** * Issuing numbers

    [Ids] is 02-02-03_issuing-ids.rs, [Bounded] is
    02-03-01_issuing-ids-without-overflow.rs.  A [static] of the source is an
    argument of its functions, allocated by [main]. *)

From Stdlib Require Import FunctionalExtensionality.
From iris.proofmode Require Import proofmode.
From iris.base_logic.lib Require Import invariants ghost_map token.
From S2P Require Import Prelude Memory History Lang Runs Logic Rules Std RmwCell.

(** ** The code *)

Module Ids.

Definition allocate_new_id_with_wrap_around (NEXT_ID : loc) : prog Z :=
  fetch_add u32_modulus NEXT_ID 1 Relaxed.

Definition allocate_new_id_with_problem (NEXT_ID : loc) : prog Z :=
  id ← fetch_add u32_modulus NEXT_ID 1 Relaxed;
  v ← load NEXT_ID Relaxed;
  println "current value of NEXT_ID: {}" [VInt v];;
  assert (id <? 10)%Z "too many IDs!";;
  mret id.

Definition allocate_new_id_with_decrement (NEXT_ID : loc) : prog Z :=
  id ← fetch_add u32_modulus NEXT_ID 1 Relaxed;
  if (10 <=? id)%Z then
    _ ← fetch_sub u32_modulus NEXT_ID 1 Relaxed;
    v ← load NEXT_ID Relaxed;
    println "current value of NEXT_ID: {}" [VInt v];;
    Panic "too many IDs!"
  else mret id.

Definition main : prog unit :=
  NEXT_ID1 ← atomic_new 0;
  NEXT_ID2 ← atomic_new 0;
  println "allocate new id with wrap around" [];;
  for_range 0 11 (λ _,
    id ← allocate_new_id_with_wrap_around NEXT_ID1; println "id: {}" [VInt id]);;
  println "" [];;
  println "allocate new id with decrement" [];;
  for_range 0 11 (λ _,
    id ← allocate_new_id_with_decrement NEXT_ID2; println "id: {}" [VInt id]);;
  println "" [].
End Ids.

Module Bounded.

Definition allocate_new_id (NEXT_ID : loc) : prog Z :=
  id ← load NEXT_ID Relaxed;
  loop (λ id,
    assert (id <? 1000)%Z "too many IDs!";;
    r ← compare_exchange_weak NEXT_ID id (id + 1) Relaxed Relaxed;
    match r with
    | inl _ => mret (inr id)
    | inr v => mret (inl v)
    end) id.

Definition main : prog unit :=
  NEXT_ID ← atomic_new 0;
  for_range 0 1001 (λ _, id ← allocate_new_id NEXT_ID; println "id: {}" [VInt id]).
End Bounded.

(** ** A client: [k] threads that take [n] numbers each *)

Definition id_thread (alloc : loc → prog Z) (NEXT_ID : loc) (n : nat) : prog unit :=
  for_range 0 n (λ _, id ← alloc NEXT_ID; println "id: {}" [VInt id]).

Definition id_client (alloc : loc → prog Z) (k n : nat) : prog unit :=
  NEXT_ID ← atomic_new 0;
  scope (replicate k (id_thread alloc NEXT_ID n)) (mret ()).

(** The numbers among the lines printed. *)
Definition id_line (x : output) : option Z :=
  match x with
  | (fmt, [VInt z]) => if decide (fmt = "id: {}"%string) then Some z else None
  | _ => None
  end.
Definition ids_of (os : list output) : list Z := omap id_line os.

(** No number was issued twice, and all are below [B]. *)
Definition unique_ids (B : Z) (os : list output) : Prop :=
  NoDup (ids_of os) ∧ Forall (λ z, 0 <= z < B)%Z (ids_of os).

Section client.
Context `{!rustGS Σ, !ticketG Σ, !tokenG Σ}.
Context (alloc : loc → prog Z) (B : Z) (γ : gname).

Definition ids_out : iProp Σ :=
  ∃ os, printed os ∗ ⌜unique_ids B os⌝ ∗
    [∗ list] z ∈ ids_of os, ∃ k, ⌜z = Z.of_nat k⌝ ∗ ticket γ k.

Lemma wpp_print_id k V Φ :
  (Z.of_nat k < B)%Z → inv outN ids_out -∗ ticket γ k -∗ Φ tt V -∗
  wpp (println "id: {}" [VInt (Z.of_nat k)]) V Φ.
Proof.
  iIntros (Hk) "#Hinv Hk HΦ". iApply wpp_print_inv.
  iInv "Hinv" as (os) "(>Hos & >[%Hnd %Hall] & >Hts)" "Hclose".
  iModIntro. iExists os. iFrame "Hos". iIntros "!> Hos". iFrame "HΦ". iApply "Hclose".
  iAssert ⌜Z.of_nat k ∉ ids_of os⌝%I as %Hnew.
  { iIntros ([i Hi]%list_elem_of_lookup_1).
    iDestruct (big_sepL_lookup with "Hts") as (k' Hk') "Hk'"; [exact Hi|].
    iDestruct (ticket_ne with "Hk Hk'") as %Hne. iPureIntro. lia. }
  iExists _. iFrame "Hos". rewrite /unique_ids /ids_of omap_app big_sepL_app /=.
  iFrame "Hts". iSplit; [|iSplit; [|done]; iExists k; by iFrame]. iPureIntro. split.
  - apply list.NoDup_app. split; [done|]. split; [|apply list.NoDup_singleton].
    intros z Hz ->%list_elem_of_singleton. done.
  - apply list.Forall_app. split; [done|]. constructor; [lia|done].
Qed.

Lemma wpp_print_other fmt args V Φ :
  fmt ≠ "id: {}"%string → inv outN ids_out -∗ Φ tt V -∗ wpp (println fmt args) V Φ.
Proof.
  iIntros (Hf) "#Hinv HΦ". iApply wpp_print_inv.
  iInv "Hinv" as (os) "(>Hos & >%Hu & >Hts)" "Hclose".
  iModIntro. iExists os. iFrame "Hos". iIntros "!> Hos". iFrame "HΦ". iApply "Hclose".
  assert (ids_of (os ++ [(fmt, args)]) = ids_of os) as Heq.
  { rewrite /ids_of omap_app /=. destruct args as [|[] []]; rewrite ?app_nil_r //.
    by rewrite decide_False // app_nil_r. }
  iExists _. iFrame "Hos". rewrite /unique_ids Heq. by iFrame "Hts".
Qed.

(** What the client needs of the allocator: its counter is a cell, and
    [perm n] allows a thread [n] calls. *)
Context (D R : Z → iProp Σ) `{!∀ v, Persistent (D v), !∀ v, Timeless (D v)}.
Context (perm : nat → iProp Σ).

Definition allocates : iProp Σ :=
  □ ∀ l n V, is_cell D R l (cur V) -∗ perm (S n) -∗
    wpo (alloc l) V (λ o _, match o with
      | Ok id => perm n ∗ ∃ k, ⌜id = Z.of_nat k⌝ ∗ ⌜(id < B)%Z⌝ ∗ ticket γ k
      | Panicked _ => True
      end).

Lemma wpo_id_thread l n V :
  inv outN ids_out -∗ allocates -∗ is_cell D R l (cur V) -∗ perm n -∗
  wpo (id_thread alloc l n) V (λ _ _, True).
Proof.
  iIntros "#Hinv #Ha #Hl Hp".
  iApply (wpo_for_range (λ i _, perm (n - Z.to_nat i)) with "[] [Hp]"); [| |by iIntros].
  - iIntros "!>" (i V' Hle Hi) "Hp". iApply wpo_bind.
    replace (n - Z.to_nat i) with (S (n - Z.to_nat (i + 1))) by lia.
    iApply (wpo_wand with "[Hp]").
    { iApply ("Ha" with "[] Hp"). iApply (is_cell_mono with "Hl"). apply Hle. }
    iIntros (o V2 _) "Ho". destruct o as [id|m]; [|done].
    iDestruct "Ho" as "[Hp (%k & -> & %Hk & Ht)]". iApply wpp_wpo.
    by iApply (wpp_print_id with "Hinv Ht").
  - by rewrite Z2Nat.inj_0 Nat.sub_0_r.
Qed.

Lemma wpo_id_client k n V :
  inv outN ids_out -∗ allocates -∗ ([∗ list] _ ∈ seq 0 k, perm n) -∗ D 0 -∗ R 0 -∗
  wpo (id_client alloc k n) V (λ _ _, True).
Proof.
  iIntros "#Hinv #Ha Hp HD HR". iApply wpp_bind_wpo. iApply (wpp_cell_new with "HD HR").
  iIntros (l V1 _) "#Hl". iApply (wpo_scope_any with "[Hp]").
  - pose proof (replicate_as_fmap (seq 0 k) (id_thread alloc l n)) as Heq.
    rewrite length_seq in Heq. rewrite Heq big_sepL_fmap.
    iApply (big_sepL_impl with "Hp"). iIntros "!>" (i j _) "Hp". iIntros (V' Hle).
    iApply (wpo_id_thread with "Hinv Ha [] Hp"). by iApply (is_cell_mono with "Hl").
  - iIntros (V' _). by iApply wpo_ret.
Qed.
End client.

(** ** The allocators *)

Section allocators.
Context `{!rustGS Σ, !ticketG Σ, !countG Σ}.
Context (γ γp γf : gname).

(** *** Wrapping around *)

(** After [n] calls, of at most [M], the counter is [n] modulo 2^32. *)
Definition wrap_state (M : nat) (v : Z) : iProp Σ :=
  ∃ n, ⌜v = (Z.of_nat n mod u32_modulus)%Z⌝ ∗ tickets γ n ∗ permits_total γp M ∗ permits γp n.

Lemma wpp_wrap_alloc M l V n (Φ : Z → tview → iProp Σ) :
  (Z.of_nat M <= u32_modulus)%Z →
  is_cell (λ _, True)%I (wrap_state M) l (cur V) -∗ permits γp (S n) -∗
  (∀ k V', ⌜V ⊆ V'⌝ -∗ permits γp n -∗ ⌜(Z.of_nat k < u32_modulus)%Z⌝ -∗ ticket γ k -∗
     Φ (Z.of_nat k) V') -∗
  wpp (Ids.allocate_new_id_with_wrap_around l) V Φ.
Proof.
  iIntros (HM) "#Hl Hp HΦ". iApply (wpp_cell_update with "Hl"); [done|].
  iIntros (v) "_ (%k & -> & Ht & HM & Hk)". rewrite -(Nat.add_1_l n) permits_split.
  iDestruct "Hp" as "[H1 Hp]". iAssert (permits γp (S k)) with "[Hk H1]" as "Hk".
  { rewrite -(Nat.add_1_l k) permits_split. iFrame. }
  iDestruct (permits_le with "HM Hk") as %Hle.
  iMod (tickets_next with "Ht") as "[Ht Hnew]". iModIntro. iSplit; [done|].
  iSplitL "Ht HM Hk".
  - iExists (S k). iFrame. iPureIntro. rewrite /wrap_add Zplus_mod_idemp_l. f_equal. lia.
  - iIntros (V' HleV). rewrite Z.mod_small; [|lia].
    iApply ("HΦ" with "[//] Hp [%] Hnew"). lia.
Qed.

(** *** Taking back *)

(** [s] calls succeeded; [f] calls have added 1 and not yet taken it back. *)
Definition decr_state (K : nat) (v : Z) : iProp Σ :=
  ∃ s f, ⌜v = Z.of_nat (s + f)⌝ ∗ ⌜s = 10 ∨ f = 0 ∧ s < 10⌝ ∗ tickets γ s ∗
    permits_total γp K ∗ permits γp f ∗ permits_total γf f.

Lemma wpp_decr_add K l V (Φ : Z → tview → iProp Σ) :
  (Z.of_nat K + 10 < u32_modulus)%Z →
  is_cell (λ _, True)%I (decr_state K) l (cur V) -∗ permits γp 1 -∗
  (∀ k V', ⌜V ⊆ V'⌝ -∗
     (⌜k < 10⌝ ∗ permits γp 1 ∗ ticket γ k ∨ ⌜10 ≤ k⌝ ∗ permits γf 1) -∗
     Φ (Z.of_nat k) V') -∗
  wpp (fetch_add u32_modulus l 1 Relaxed) V Φ.
Proof.
  iIntros (HK) "#Hl Hp HΦ". iApply (wpp_cell_update with "Hl"); [done|].
  iIntros (v) "_ (%s & %f & -> & %Hs & Ht & HK & Hf & Hin)".
  destruct Hs as [->|[-> Hs]].
  - iAssert (permits γp (f + 1)) with "[Hf Hp]" as "Hf"; [rewrite permits_split; iFrame|].
    iDestruct (permits_le with "HK Hf") as %Hle.
    iMod (permits_add with "Hin") as "[Hin H1]". iModIntro. iSplit; [done|].
    iSplitR "HΦ H1"; [|iIntros (V' HleV); iApply ("HΦ" with "[//]"); iRight; iFrame; iPureIntro; lia].
    iExists 10, (S f). rewrite Nat.add_1_r. iFrame. iPureIntro.
    rewrite wrap_add_small; lia.
  - iMod (tickets_next with "Ht") as "[Ht Hnew]". iModIntro. iSplit; [done|].
    rewrite Nat.add_0_r.
    iSplitR "HΦ Hp Hnew"; [|iIntros (V' HleV); iApply ("HΦ" with "[//]"); iLeft; by iFrame].
    iExists (S s), 0. iFrame. iPureIntro. rewrite wrap_add_small; lia.
Qed.

Lemma wpp_decr_sub K l V (Φ : Z → tview → iProp Σ) :
  (Z.of_nat K + 10 < u32_modulus)%Z →
  is_cell (λ _, True)%I (decr_state K) l (cur V) -∗ permits γf 1 -∗
  (∀ v V', ⌜V ⊆ V'⌝ -∗ permits γp 1 -∗ Φ v V') -∗
  wpp (fetch_sub u32_modulus l 1 Relaxed) V Φ.
Proof.
  iIntros (HK) "#Hl H1 HΦ". iApply (wpp_cell_update with "Hl"); [done|].
  iIntros (v) "_ (%s & %f & -> & %Hs & Ht & HK & Hf & Hin)".
  iMod (permits_remove with "Hin H1") as (f' ->) "Hin". destruct Hs as [->|[? _]]; [|done].
  iDestruct (permits_le with "HK Hf") as %Hle.
  rewrite -(Nat.add_1_l f') permits_split. iDestruct "Hf" as "[Hp Hf]". iModIntro.
  iSplit; [done|]. iSplitR "HΦ Hp"; [|iIntros (V' HleV); by iApply ("HΦ" with "[//]")].
  iExists 10, f'. iFrame. iPureIntro. rewrite wrap_add_small; lia.
Qed.

Lemma wpo_decr_alloc K l V :
  (Z.of_nat K + 10 < u32_modulus)%Z →
  inv outN (ids_out 10 γ) -∗ is_cell (λ _, True)%I (decr_state K) l (cur V) -∗
  permits γp 1 -∗
  wpo (Ids.allocate_new_id_with_decrement l) V (λ o _, match o with
    | Ok id => permits γp 1 ∗ ∃ k, ⌜id = Z.of_nat k⌝ ∗ ⌜(id < 10)%Z⌝ ∗ ticket γ k
    | Panicked _ => True
    end).
Proof.
  iIntros (HK) "#Hinv #Hl Hp". iApply wpp_bind_wpo. iApply (wpp_decr_add with "Hl Hp"); [done|].
  iIntros (k V1 Hle1) "[(%Hk & Hp & Ht)|[%Hk H1]]".
  - destruct (10 <=? Z.of_nat k)%Z eqn:Hc; [lia|]. iApply wpo_ret. iFrame "Hp".
    iExists k. iFrame. iPureIntro. lia.
  - destruct (10 <=? Z.of_nat k)%Z eqn:Hc; [|lia]. iApply wpp_bind_wpo.
    iApply (wpp_decr_sub with "[] H1"); [done|iApply (is_cell_mono with "Hl"); apply Hle1|].
    iIntros (v V2 Hle2) "Hp". iApply wpp_bind_wpo. iApply (wpp_cell_load (λ _, True)%I (decr_state K) with "[]"); [done| |].
    { iApply (is_cell_mono with "Hl"). etrans; [apply Hle1|apply Hle2]. }
    iIntros (w V3 _) "_". iApply wpp_bind_wpo. iApply (wpp_print_other with "Hinv"); [discriminate|].
    by iApply wpo_panic.
Qed.

(** *** Comparing *)

Definition bounded_state (v : Z) : iProp Σ := ∃ n, ⌜v = Z.of_nat n⌝ ∗ tickets γ n.
Definition bounded_value (v : Z) : iProp Σ := ⌜(0 <= v <= 1000)%Z⌝.

Lemma wpo_bounded_alloc l V :
  is_cell bounded_value bounded_state l (cur V) -∗
  wpo (Bounded.allocate_new_id l) V (λ o _, match o with
    | Ok id => ∃ k, ⌜id = Z.of_nat k⌝ ∗ ⌜(id < 1000)%Z⌝ ∗ ticket γ k
    | Panicked _ => True
    end).
Proof.
  iIntros "#Hl". iApply wpp_bind_wpo. iApply (wpp_cell_load with "Hl"); [done|].
  iIntros (id V1 Hle1) "_". iApply (wpo_loop (λ _ _, True)%I with "[] [//]").
  iIntros "!>" (id' V2 Hle2) "_". iApply wpo_bind.
  destruct (id' <? 1000)%Z eqn:Hid; [|by iApply wpo_panic]. iApply wpo_ret.
  do 2 iApply wpp_bind_wpo. iApply (wpp_cell_rmw bounded_value bounded_state with "[]"); [done..| |].
  { iApply (is_cell_mono with "Hl"). etrans; [apply Hle1|apply Hle2]. }
  iSplit.
  - iIntros (v z). rewrite /cas_fun. destruct (v =? id')%Z eqn:Hv; [|by iIntros (?)].
    iIntros ([= <-]) "_ (%n & -> & Ht)". apply Z.eqb_eq in Hv as <-.
    iMod (tickets_next with "Ht") as "[Ht Hnew]". iModIntro. iSplit; [iPureIntro; lia|].
    iSplitL "Ht"; [iExists (S n); iFrame; iPureIntro; lia|]. iIntros (V' _).
    iApply wpp_ret. iApply wpo_ret. iExists n. iFrame. iPureIntro. lia.
  - iIntros (v V' _ _) "_". iApply wpp_ret. by iApply wpo_ret.
Qed.
End allocators.

(** ** The clients *)

Lemma unique_ids_nil B : unique_ids B [].
Proof. split; constructor. Qed.

(** The closed form of [wpo_id_client]. *)
Lemma id_client_safe Σ `{!rustGpreS Σ, !ticketG Σ, !tokenG Σ} alloc B k n :
  (∀ `{!rustGS Σ} γ, inv outN (ids_out B γ) -∗ tickets γ 0 ={⊤}=∗
     ∃ D R perm, ⌜∀ v, Persistent (D v)⌝ ∗ ⌜∀ v, Timeless (D v)⌝ ∗
       allocates alloc B γ D R perm ∗ ([∗ list] _ ∈ seq 0 k, perm n) ∗ D 0%Z ∗ R 0%Z) →
  safe (id_client alloc k n) (λ σ, unique_ids B (out σ)) (λ _ _, True).
Proof.
  intros Halloc. apply (safe_invariant Σ _ (unique_ids B) (λ _, True)). iIntros (?) "Hp".
  iMod tickets_alloc as (γ) "Ht".
  iMod (inv_alloc outN _ (ids_out B γ) with "[Hp]") as "#Hinv".
  { iExists []. iFrame "Hp". iSplit; [iPureIntro; apply unique_ids_nil|].
    by iApply big_sepL_nil. }
  iMod (Halloc with "Hinv Ht") as (D R perm Hp Ht) "(#Ha & Hp & HD & HR)".
  iModIntro. iExists (λ os, [∗ list] z ∈ ids_of os, ∃ k, ⌜z = Z.of_nat k⌝ ∗ ticket γ k)%I.
  iFrame "Hinv". iApply (wpo_wand with "[Hp HD HR]").
  { iApply (wpo_id_client with "Hinv Ha Hp HD HR"). }
  by iIntros (o V _) "_".
Qed.

(** C27. Threads that take numbers with [allocate_new_id_with_wrap_around], at
    most 2^32 in all, never get the same number twice. *)
Theorem wrap_ids_unique k n (Hkn : (Z.of_nat (k * n) <= u32_modulus)%Z) :
  safe (id_client Ids.allocate_new_id_with_wrap_around k n)
    (λ σ, unique_ids u32_modulus (out σ)) (λ _ _, True).
Proof.
  apply (id_client_safe #[rustΣ; ticketΣ; tokenΣ; countΣ]). iIntros (? γ) "_ Ht".
  iMod (permits_alloc (k * n)) as (γp) "[HM Hp]".
  iDestruct (permits_none with "Hp") as "[H0 Hp]".
  iMod (permits_each γp (seq 0 k) n with "[Hp]") as "Hp"; [by rewrite length_seq|].
  iModIntro. iExists (λ _, True)%I, (wrap_state γ γp (k * n)), (permits γp).
  iFrame "Hp". do 2 (iSplit; [iPureIntro; apply _|]). iSplit; last (iSplit; [done|]).
  - iIntros "!>" (l i V) "Hl Hp". iApply wpp_wpo.
    iApply (wpp_wrap_alloc with "Hl Hp"); [done|]. iIntros (j V' _) "$ %Hj Hj".
    iExists j. by iFrame.
  - iExists 0. by iFrame.
Qed.

Lemma wrap_ids_unique_witness :
  safe (id_client Ids.allocate_new_id_with_wrap_around 4 1000)
    (λ σ, unique_ids u32_modulus (out σ)) (λ _ _, True).
Proof. apply (wrap_ids_unique 4 1000). vm_compute. discriminate. Defined.

(** Fewer than 2^32 - 10 threads that take numbers with
    [allocate_new_id_with_decrement], however often: no number is issued
    twice, and none is 10 or more. *)
Theorem decrement_ids_unique k n (Hk : (Z.of_nat k + 10 < u32_modulus)%Z) :
  safe (id_client Ids.allocate_new_id_with_decrement k n)
    (λ σ, unique_ids 10 (out σ)) (λ _ _, True).
Proof.
  apply (id_client_safe #[rustΣ; ticketΣ; tokenΣ; countΣ]). iIntros (? γ) "#Hinv Ht".
  iMod (permits_alloc k) as (γp) "[HK Hp]". iMod (permits_alloc 0) as (γf) "[Hf _]".
  iDestruct (permits_none with "Hp") as "[H0 Hp]".
  iMod (permits_each γp (seq 0 k) 1 with "[Hp]") as "Hp"; [by rewrite length_seq Nat.mul_1_r|].
  iModIntro. iExists (λ _, True)%I, (decr_state γ γp γf k), (λ _, permits γp 1).
  iFrame "Hp". do 2 (iSplit; [iPureIntro; apply _|]). iSplit; last (iSplit; [done|]).
  - iIntros "!>" (l i V) "Hl Hp". by iApply (wpo_decr_alloc with "Hinv Hl Hp").
  - iExists 0, 0. iFrame. iPureIntro. lia.
Qed.

Lemma decrement_ids_unique_witness :
  safe (id_client Ids.allocate_new_id_with_decrement 4 1000)
    (λ σ, unique_ids 10 (out σ)) (λ _ _, True).
Proof. apply (decrement_ids_unique 4 1000). done. Defined.


(** ** One thread *)

Definition id_lines (v : Z → Z) (n : nat) : list output :=
  (λ i, ("id: {}"%string, [VInt (v i)])) <$> seqZ 0 n.

Lemma id_lines_S v n : id_lines v (S n) = id_lines v n ++ [("id: {}"%string, [VInt (v (Z.of_nat n))])].
Proof. by rewrite /id_lines seqZ_S fmap_app. Qed.

Section sequential.
Context `{!rustGS Σ}.

(** The counter holds [v i] after [i] calls, and call [i] returns [v i]. *)
Lemma wpp_id_thread_seq alloc (v : Z → Z) l n os V Φ :
  □ (∀ i V' Φ', ⌜(0 <= i < Z.of_nat n)%Z⌝ -∗ own_at l (v i) (cur V') -∗
       (∀ V2, ⌜V' ⊆ V2⌝ -∗ own_at l (v (i + 1)%Z) (cur V2) -∗ Φ' (v i) V2) -∗
       wpp (alloc l) V' Φ') -∗
  own_at l (v 0%Z) (cur V) -∗ printed os -∗
  (∀ V', ⌜V ⊆ V'⌝ -∗ own_at l (v (Z.of_nat n)) (cur V') -∗ printed (os ++ id_lines v n) -∗
     Φ tt V') -∗
  wpp (id_thread alloc l n) V Φ.
Proof.
  iIntros "#Ha Hl Hp HΦ".
  iApply (wpp_for_range (λ i V', own_at l (v i) (cur V') ∗
    printed (os ++ id_lines v (Z.to_nat i)))%I with "[] [Hl Hp] [HΦ]").
  - iIntros "!>" (i V' _ Hi) "[Hl Hp]". iApply wpp_bind. iApply ("Ha" with "[%] Hl"); [lia|].
    iIntros (V2 _) "Hl". iApply (wpp_println with "Hp"). iIntros "!> Hp". iFrame "Hl".
    replace (Z.to_nat (i + 1)) with (S (Z.to_nat i)) by lia.
    by rewrite id_lines_S Z2Nat.id ?app_assoc; [|lia].
  - rewrite /id_lines app_nil_r. iFrame.
  - iIntros (V' Hle) "[Hl Hp]". rewrite Z.add_0_l Nat2Z.id. by iApply ("HΦ" with "[//] Hl Hp").
Qed.

Lemma wpp_wrap_seq l i V Φ :
  own_at l (i mod u32_modulus) (cur V) -∗
  (∀ V', ⌜V ⊆ V'⌝ -∗ own_at l ((i + 1) mod u32_modulus) (cur V') -∗
     Φ (i mod u32_modulus)%Z V') -∗
  wpp (Ids.allocate_new_id_with_wrap_around l) V Φ.
Proof.
  iIntros "Hl HΦ". iApply (wpp_at_update with "Hl"); [done|].
  rewrite /wrap_add Zplus_mod_idemp_l. iApply "HΦ".
Qed.

Lemma wpp_decr_seq l i V Φ :
  (0 <= i < 10)%Z → own_at l i (cur V) -∗
  (∀ V', ⌜V ⊆ V'⌝ -∗ own_at l (i + 1) (cur V') -∗ Φ i V') -∗
  wpp (Ids.allocate_new_id_with_decrement l) V Φ.
Proof.
  iIntros (Hi) "Hl HΦ". iApply wpp_bind. iApply (wpp_at_update with "Hl"); [done|].
  iIntros (V1 Hle1) "Hl". rewrite wrap_add_small; [|rewrite /u32_modulus; lia].
  destruct (10 <=? i)%Z eqn:Hc; [lia|]. iApply wpp_ret. by iApply ("HΦ" with "[//] Hl").
Qed.

(** The call that finds no number takes its 1 back, says so and panics. *)
Lemma wpo_decr_full l os V Φ :
  own_at l 10 (cur V) -∗ printed os -∗
  (∀ V', own_at l 10 (cur V') -∗
     printed (os ++ [("current value of NEXT_ID: {}"%string, [VInt 10])]) -∗
     Φ (Panicked "too many IDs!") V') -∗
  wpo (Ids.allocate_new_id_with_decrement l) V Φ.
Proof.
  iIntros "Hl Hp HΦ". iApply wpp_bind_wpo. iApply (wpp_at_update with "Hl"); [done|].
  iIntros (V1 _) "Hl". iApply wpp_bind_wpo. iApply (wpp_at_update with "Hl"); [done|].
  iIntros (V2 _) "Hl". iApply wpp_bind_wpo. iApply (wpp_at_load with "Hl"); [done|].
  iIntros (V3 _) "Hl". iApply wpp_bind_wpo. iApply (wpp_println with "Hp").
  iIntros "!> Hp". iApply wpo_panic. iApply ("HΦ" with "Hl Hp").
Qed.

Lemma wpp_bounded_seq l i V Φ :
  (0 <= i < 1000)%Z → own_at l i (cur V) -∗
  (∀ V', ⌜V ⊆ V'⌝ -∗ own_at l (i + 1) (cur V') -∗ Φ i V') -∗
  wpp (Bounded.allocate_new_id l) V Φ.
Proof.
  iIntros (Hi) "Hl HΦ". iApply wpp_bind. iApply (wpp_at_load with "Hl"); [done|].
  iIntros (V1 Hle1) "Hl".
  iApply (wpp_loop (λ id V', ⌜id = i⌝ ∗ own_at l i (cur V') ∗
    (∀ V2, ⌜V ⊆ V2⌝ -∗ own_at l (i + 1) (cur V2) -∗ Φ i V2))%I with "[] [$Hl $HΦ //]").
  iIntros "!>" (id V2 Hle2) "(-> & Hl & HΦ)". rewrite (proj2 (Z.ltb_lt i 1000)); [|lia].
  iApply wpp_bind. iApply wpp_ret. do 2 iApply wpp_bind. iApply (wpp_at_rmw_any with "Hl"); [done..|].
  rewrite /cas_fun Z.eqb_refl. iSplit.
  - iIntros (z' V3 [= <-] Hle3) "Hl". iApply wpp_ret. iApply wpp_ret.
    iApply ("HΦ" with "[%] Hl"). by do 2 (etrans; [done|]).
  - iIntros (V3 _ _) "Hl". iApply wpp_ret. iApply wpp_ret. by iFrame.
Qed.

Lemma wpo_bounded_full l V Φ :
  own_at l 1000 (cur V) -∗ (∀ V', Φ (Panicked "too many IDs!") V') -∗
  wpo (Bounded.allocate_new_id l) V Φ.
Proof.
  iIntros "Hl HΦ". iApply wpp_bind_wpo. iApply (wpp_at_load with "Hl"); [done|].
  iIntros (V1 _) "Hl". iApply (wpo_loop (λ id V', ⌜id = 1000%Z⌝ ∗ ∀ V', Φ (Panicked "too many IDs!") V')%I with "[] [$HΦ //]").
  iIntros "!>" (id V2 _) "[-> HΦ]". iApply wpo_bind. by iApply wpo_panic.
Qed.
End sequential.

Lemma for_range_add start n m body :
  for_range start (n + m) body =
  (for_range start n body;; for_range (start + Z.of_nat n)%Z m body).
Proof.
  induction n as [|n IH] in start |- *; simpl.
  - by rewrite Z.add_0_r.
  - rewrite IH. replace (start + Z.of_nat (S n))%Z with (start + 1 + Z.of_nat n)%Z by lia.
    rewrite /mbind /prog_bind catch_catch. f_equal.
    by apply functional_extensionality=> -[[]|?].
Qed.

(** One thread that calls [allocate_new_id_with_wrap_around] [n] times gets
    0, 1, 2, ... and after 2^32 numbers starts again at 0. *)
Theorem wrap_around_sequence n :
  safe (NEXT_ID ← atomic_new 0; id_thread Ids.allocate_new_id_with_wrap_around NEXT_ID n)
    (λ _, True) (λ o σ, o = Ok tt ∧ out σ = id_lines (λ i, i mod u32_modulus)%Z n).
Proof.
  apply (safe_no_panic #[rustΣ] _ (λ os, os = _)). iIntros (?) "Hp _".
  iApply wpp_bind. iApply wpp_at_new. iIntros (l V1 _) "Hl".
  iApply (wpp_id_thread_seq _ (λ i, i mod u32_modulus)%Z with "[] Hl Hp").
  - iIntros "!>" (i V2 Φ _) "Hl HΦ". by iApply (wpp_wrap_seq with "Hl").
  - iIntros (V2 _) "_ Hp". iExists _. by iFrame.
Qed.

(** C39. [main] of 02-02-03 prints 0 to 10, then 0 to 9, then that the counter
    is back at 10, and panics. *)
Theorem ids_main_safe :
  let os := [("allocate new id with wrap around"%string, [])] ++ id_lines id 11 ++
    [(""%string, []); ("allocate new id with decrement"%string, [])] ++ id_lines id 10 ++
    [("current value of NEXT_ID: {}"%string, [VInt 10])] in
  safe Ids.main (λ _, True) (λ o σ, o = Panicked "too many IDs!" ∧ out σ = os) ∧
  can_end Ids.main (Panicked "too many IDs!") os.
Proof.
  intros os. split; [|by_running 200%Z].
  apply (safe_output #[rustΣ] _ (λ o os', o = _ ∧ os' = os)). iIntros (?) "Hp _".
  iApply wpp_bind_wpo. iApply wpp_at_new. iIntros (l1 V1 _) "Hl1".
  iApply wpp_bind_wpo. iApply wpp_at_new. iIntros (l2 V2 Hle2) "Hl2".
  iDestruct (view_mono with "Hl1") as "Hl1"; [apply Hle2|].
  iApply wpp_bind_wpo. iApply (wpp_println with "Hp"). iIntros "!> Hp".
  iApply wpp_bind_wpo.
  iApply (wpp_id_thread_seq Ids.allocate_new_id_with_wrap_around
    (λ i, i mod u32_modulus)%Z l1 11 with "[] Hl1 Hp").
  { iIntros "!>" (i V3 Φ _) "Hl HΦ". by iApply (wpp_wrap_seq with "Hl"). }
  iIntros (V3 Hle3) "_ Hp". iDestruct (view_mono with "Hl2") as "Hl2"; [apply Hle3|].
  do 2 (iApply wpp_bind_wpo; iApply (wpp_println with "Hp"); iIntros "!> Hp").
  rewrite (for_range_add 0 10 1). iApply wpo_bind. iApply wpp_bind_wpo.
  iApply (wpp_id_thread_seq Ids.allocate_new_id_with_decrement id l2 10 with "[] Hl2 Hp").
  { iIntros "!>" (i V4 Φ Hi) "Hl HΦ". by iApply (wpp_decr_seq with "Hl"). }
  iIntros (V4 _) "Hl Hp". do 2 iApply wpo_bind. iApply (wpo_decr_full with "Hl Hp").
  iIntros (V5) "_ Hp". iExists _. by iFrame "Hp".
Qed.

(** [main] of 02-03-01 prints 0 to 999, each once, and panics. *)
Theorem bounded_main_safe :
  safe Bounded.main (λ _, True)
    (λ o σ, o = Panicked "too many IDs!" ∧ out σ = id_lines id 1000).
Proof.
  apply (safe_output #[rustΣ] _ (λ o os, o = _ ∧ os = _)). iIntros (?) "Hp _".
  iApply wpp_bind_wpo. iApply wpp_at_new. iIntros (l V1 _) "Hl".
  rewrite (for_range_add 0 1000 1). iApply wpp_bind_wpo.
  iApply (wpp_id_thread_seq Bounded.allocate_new_id id l 1000 with "[] Hl Hp").
  { iIntros "!>" (i V2 Φ Hi) "Hl HΦ". by iApply (wpp_bounded_seq with "Hl"). }
  iIntros (V2 _) "Hl Hp". do 2 iApply wpo_bind. iApply (wpo_bounded_full with "Hl").
  iIntros (V3). iExists _. by iFrame "Hp".
Qed.
