(* ===== verification/LazyInit.v ===== *)
(** * Lazy initialisation

    [LazyKey] is 02-03-02_lazy-initialization.rs, [LazyData] is
    03-05-02_lazy-initialization-with-dereferences.rs.  The first call makes
    the value and publishes it with a compare-and-exchange; threads that lose
    the race take the value of the winner. *)

From iris.proofmode Require Import proofmode.
From iris.base_logic.lib Require Import invariants ghost_map token.
From S2P Require Import Prelude Memory History Lang Runs Logic Rules Std Publish Output.
From S2P Require Import RmwCell.

(** ** The code *)

Module LazyKey.

Definition generate_random_key : prog Z := mret 42%Z.

(** The generator is an argument: the source's is a placeholder. *)
Definition get_key (generate_random_key : prog Z) (KEY : loc) : prog Z :=
  key ← load KEY Relaxed;
  if (key =? 0)%Z then
    new_key ← generate_random_key;
    r ← compare_exchange KEY 0 new_key Relaxed Relaxed;
    match r with
    | inl _ => mret new_key
    | inr k => mret k
    end
  else mret key.

Definition main : prog unit :=
  KEY ← atomic_new 0;
  key ← get_key generate_random_key KEY;
  println "key: {}" [VInt key].
End LazyKey.

Module LazyData.

(** [Data { foo: i32 }] *)
Definition Data (foo : Z) : val := VInt foo.

Definition generate_data : prog val := mret (Data 42).

(** [&*p]: undefined for the null pointer, which is 0. *)
Definition deref (p : Z) : prog loc := match p with Zpos l => mret l | _ => UB end.

Definition get_data (generate_data : prog val) (PTR : loc) : prog loc :=
  p ← load PTR Acquire;
  p ← (if (p =? 0)%Z then
         d ← generate_data;
         b ← new_cell d;
         r ← compare_exchange PTR 0 (Zpos b) Release Acquire;
         match r with
         | inl _ => mret (Zpos b)
         | inr e => act (OFree b);; mret e
         end
       else mret p);
  deref p.

Definition main : prog unit :=
  PTR ← atomic_new 0;
  scope (replicate 100 (_ ← get_data generate_data PTR; mret ())) (mret ()).
End LazyData.

(** ** An atomic that is set once

    It is 0 until a compare-and-exchange gives it another value; [D x v W]
    holds of that value [v] for a thread that has seen [W], where [x] is what
    the threads agree on. *)

Class lazyG Σ := LazyG { lazy_ghost :: ghost_mapG Σ unit val }.
Definition lazyΣ : gFunctors := #[ghost_mapΣ unit val].
#[export] Instance subG_lazyΣ Σ : subG lazyΣ Σ → lazyG Σ.
Proof. solve_inG. Qed.

Definition lazyN : namespace := nroot .@ "lazy".

Section lazy.
Context `{!rustGS Σ, !lazyG Σ}.
Context (D : val → Z → view → iProp Σ) `{!∀ x v W, Persistent (D x v W), !∀ x v, ViewMono (D x v)}.
Implicit Types (γ : gname) (l : loc) (N : view) (V : tview) (x : val).

Definition lazy_state γ (h : hist) : iProp Σ :=
  ⌜h = {[0 := Msg 0 ∅]}⌝ ∗ ghost_map_auth γ 1 (∅ : gmap unit val) ∨
  ∃ x m, ⌜h = <[1 := m]> {[0 := Msg 0 ∅]}⌝ ∗ ⌜mval m ≠ 0%Z⌝ ∗ tt ↪[γ]□ x ∗
    D x (mval m) (mview m).

Definition lazy_inv γ l N : iProp Σ := ∃ h A, l ↦ CAtomic h N A ∗ lazy_state γ h.

Definition is_lazy γ l (W : view) : iProp Σ := ∃ N, ⌜N ⊆ W⌝ ∗ inv lazyN (lazy_inv γ l N).

(** A thread knows the value. *)
Definition lazy_got γ (v : Z) (W : view) : iProp Σ :=
  ∃ x, ⌜v ≠ 0%Z⌝ ∗ tt ↪[γ]□ x ∗ D x v W.

#[global] Instance is_lazy_persistent γ l W : Persistent (is_lazy γ l W).
Proof. apply _. Qed.

Lemma is_lazy_mono γ l W W' : W ⊆ W' → is_lazy γ l W -∗ is_lazy γ l W'.
Proof. iIntros (?) "(%N & % & $)". iPureIntro. by etrans. Qed.

Lemma lazy_got_mono γ v W W' : W ⊆ W' → lazy_got γ v W -∗ lazy_got γ v W'.
Proof.
  iIntros (?) "(%x & $ & $ & HD)". by iApply (view_mono with "HD").
Qed.

Lemma wpp_lazy_new γ V Φ :
  ghost_map_auth γ 1 (∅ : gmap unit val) -∗
  (∀ l V', ⌜V ⊆ V'⌝ -∗ is_lazy γ l (cur V') -∗ Φ l V') -∗ wpp (atomic_new 0) V Φ.
Proof.
  iIntros "Hγ HΦ". iApply wpp_post_fupd. iApply wpp_alloc_atomic.
  iIntros "!>" (l e) "Hl". set (V1 := observe _ _ V).
  iMod (inv_alloc lazyN _ (lazy_inv γ l {[Acc e]}) with "[Hl Hγ]") as "#Hinv".
  { iNext. iExists _, _. iFrame "Hl". iLeft. by iFrame "Hγ". }
  iModIntro. iApply ("HΦ" $! l V1 with "[%]"); [apply observe_le|]. iExists _.
  iFrame "Hinv". iPureIntro. simpl. set_solver.
Qed.

(** What a message tells the thread that reads it. *)
Lemma lazy_read γ h t m (W : view) :
  h !! t = Some m → mview m ⊆ W → lazy_state γ h -∗
  ⌜m = Msg 0 ∅⌝ ∗ ⌜t = 0⌝ ∨ lazy_got γ (mval m) W.
Proof.
  iIntros (Hm HW) "[[-> _]|(%x & %m' & -> & %Hne & #Hx & HD)]".
  - apply lookup_singleton_Some in Hm as [<- <-]. by iLeft.
  - apply lookup_insert_Some in Hm as [[<- <-]|[_ [<- <-]%lookup_singleton_Some]]; [|by iLeft].
    iRight. iExists x. iFrame "Hx". iSplit; [done|]. by iApply (view_mono with "HD").
Qed.

Lemma lazy_state_ne γ h : lazy_state γ h -∗ ⌜h ≠ ∅⌝.
Proof.
  iIntros "[[-> _]|(%x & %m' & -> & _)]"; iPureIntro; [apply map_non_empty_singleton|apply insert_non_empty].
Qed.

Lemma wpp_lazy_load γ l o V Φ :
  is_seqcst o = false → is_lazy γ l (cur V) -∗
  (∀ v V', ⌜V ⊆ V'⌝ -∗ ⌜v = 0%Z⌝ ∨ lazy_got γ v (read_view o V') -∗ Φ v V') -∗
  wpp (load l o) V Φ.
Proof.
  iIntros (Ho) "(%N & %HN & #Hinv) HΦ". iApply wpp_load_inv; [done|].
  iInv "Hinv" as (h A) "(>Hl & Hs)" "Hclose".
  iAssert (▷ ⌜h ≠ ∅⌝)%I as "#>%Hne"; [iNext; by iApply lazy_state_ne|].
  iModIntro. iExists h, N, A. iFrame "Hl". do 2 (iSplit; [done|]).
  iIntros "!>" (t m e Hm _) "Hl".
  iDestruct (lazy_read with "Hs") as "#Hgot"; [exact Hm|apply (load_view_read o l t m e V)|].
  iMod ("Hclose" with "[Hl Hs]") as "_"; [iExists h, _; by iFrame|].
  iModIntro. iApply ("HΦ" with "[%]"); [apply load_view_le|].
  iDestruct "Hgot" as "[[-> _]|Hgot]"; [by iLeft|by iRight].
Qed.

(** The exchange: [R] is what the thread offers to publish the value. *)
Lemma wpp_lazy_set γ l z x R os fo V Φ :
  is_seqcst os = false → is_seqcst fo = false → z ≠ 0%Z → is_lazy γ l (cur V) -∗
  R -∗ (R ={⊤ ∖ ↑lazyN}=∗ D x z (write_view os V)) -∗
  (∀ r V', ⌜V ⊆ V'⌝ -∗
     match r with
     | inl _ => lazy_got γ z (write_view os V)
     | inr v => R ∗ lazy_got γ v (read_view fo V')
     end -∗ Φ r V') -∗
  wpp (compare_exchange l 0 z os fo) V Φ.
Proof.
  iIntros (Hos Hfo Hz) "(%N & %HN & #Hinv) HR HD HΦ". iApply wpp_bind. iApply wpp_rmw_inv; [done..|].
  iInv "Hinv" as (h A) "(>Hl & Hs)" "Hclose".
  iAssert (▷ ⌜h ≠ ∅⌝)%I as "#>%Hne"; [iNext; by iApply lazy_state_ne|].
  iModIntro. iExists h, N, A. iFrame "Hl". do 2 (iSplit; [done|]).
  iIntros "!>" (t m e Hm _). iSplit.
  - iIntros (z' Hz' Hfree) "Hl". rewrite /cas_fun in Hz'.
    destruct (mval m =? 0)%Z eqn:Hm0; simplify_eq. apply Z.eqb_eq in Hm0.
    iDestruct "Hs" as "[[-> Hγ]|(%y & %m' & -> & %Hne' & _)]"; last first.
    { apply lookup_insert_Some in Hm as [[<- <-]|[_ [<- _]%lookup_singleton_Some]]; [done|].
      by rewrite lookup_insert_eq in Hfree. }
    apply lookup_singleton_Some in Hm as [<- <-]. iMod ("HD" with "HR") as "#HD".
    iMod (ghost_map_insert_persist tt x with "Hγ") as "[_ #Hx]"; [done|].
    set (V' := rmw_view os l 0 _ e V). pose proof (rmw_view_le os l 0 (Msg 0 ∅) e V) as Hle.
    iMod ("Hclose" with "[Hl]") as "_".
    { iExists _, _. iFrame "Hl". iRight. iExists x, _. iSplit; [done|]. iSplit; [done|].
      iFrame "Hx". iApply (view_mono with "HD"). rewrite /write_view /=.
      destruct (is_release os); [|set_solver]. destruct Hle. set_solver. }
    iModIntro. iApply wpp_ret. iApply ("HΦ" with "[//]"). iExists x. by iFrame "Hx HD".
  - iIntros (Hf) "Hl".
    iDestruct (lazy_read with "Hs") as "#Hgot"; [exact Hm|apply (load_view_read fo l t m e V)|].
    iMod ("Hclose" with "[Hl Hs]") as "_"; [iExists h, _; by iFrame|].
    iModIntro. iApply wpp_ret. iApply ("HΦ" with "[%]"); [apply load_view_le|]. iFrame "HR".
    iDestruct "Hgot" as "[[-> _]|Hgot]"; [by destruct Hf|done].
Qed.
End lazy.

(** ** Clients: threads that print what they got *)

(** All lines are the same. *)
Definition same_lines (fmt : string) (os : list output) : Prop :=
  ∃ x, Forall (λ y, y = (fmt, [x])) os.

Section clients.
Context `{!rustGS Σ, !lazyG Σ, !countG Σ}.
Implicit Types (V : tview) (l : loc).

(** *** The key *)

Definition key_is (x : val) (v : Z) (W : view) : iProp Σ := ⌜x = VInt v⌝.

#[global] Instance key_is_mono x v : ViewMono (key_is x v).
Proof. by intros W W' _. Qed.

Lemma wpp_get_key γ gen l V Φ :
  (∀ V' Φ', (∀ z, ⌜z ≠ 0%Z⌝ -∗ Φ' z V') -∗ wpp gen V' Φ') -∗
  is_lazy key_is γ l (cur V) -∗
  (∀ v V', tt ↪[γ]□ VInt v -∗ Φ v V') -∗
  wpp (LazyKey.get_key gen l) V Φ.
Proof.
  iIntros "Hgen #Hl HΦ". iApply wpp_bind.
  iApply (wpp_lazy_load key_is with "Hl"); [done|]. iIntros (v V1 Hle1) "Hv".
  destruct (v =? 0)%Z eqn:Hv0.
  - iApply wpp_bind. iApply "Hgen". iIntros (z Hz). iApply wpp_bind.
    iApply (wpp_lazy_set key_is γ l z (VInt z) True with "[] [//] []"); [done..| | |].
    + iApply (is_lazy_mono with "Hl"). apply Hle1.
    + by iIntros "_ !>".
    + iIntros ([v'|v'] V2 _) "H"; iApply wpp_ret; iApply "HΦ".
      * by iDestruct "H" as (x) "(_ & Hx & ->)".
      * by iDestruct "H" as "(_ & %x & _ & Hx & ->)".
  - apply Z.eqb_neq in Hv0. iDestruct "Hv" as "[%|Hv]"; [done|]. iApply wpp_ret.
    iApply "HΦ". by iDestruct "Hv" as (x) "(_ & Hx & ->)".
Qed.

(** *** The data *)

Definition data_is (x : val) (v : Z) (W : view) : iProp Σ := ∃ p, ⌜v = Zpos p⌝ ∗ frozen p x W.

#[global] Instance data_is_mono x v : ViewMono (data_is x v).
Proof. intros W W' Hle. iIntros "(%p & $ & H)". by iApply (view_mono with "H"). Qed.

Lemma wpp_get_data γ gen l V Φ :
  (∀ V' Φ', (∀ x, Φ' x V') -∗ wpp gen V' Φ') -∗
  is_lazy data_is γ l (cur V) -∗
  (∀ x p V', tt ↪[γ]□ x -∗ data_is x (Zpos p) (cur V') -∗ Φ p V') -∗
  wpp (LazyData.get_data gen l) V Φ.
Proof.
  iIntros "Hgen #Hl HΦ". iApply wpp_bind.
  iApply (wpp_lazy_load data_is with "Hl"); [done|]. iIntros (v V1 Hle1) "Hv".
  iApply wpp_bind.
  iAssert (∀ v V', lazy_got data_is γ v (cur V') -∗ wpp (LazyData.deref v) V' Φ)%I
    with "[HΦ]" as "HΦ".
  { iIntros (v' V') "(%x & _ & Hx & #Hd)". iPoseProof "Hd" as (p ->) "_".
    iApply wpp_ret. by iApply ("HΦ" with "Hx Hd"). }
  destruct (v =? 0)%Z eqn:Hv0; last first.
  { apply Z.eqb_neq in Hv0. iDestruct "Hv" as "[%|Hv]"; [done|]. iApply wpp_ret.
    by iApply "HΦ". }
  iApply wpp_bind. iApply "Hgen". iIntros (x). iApply wpp_bind. iApply wpp_alloc.
  iIntros "!>" (b e) "Hb". set (V2 := observe _ _ V1). iApply wpp_bind.
  assert (V ⊆ V2) as Hle2 by (etrans; [done|apply observe_le]).
  iApply (wpp_lazy_set data_is γ l (Zpos b) x (own_na b x (cur V2)) with "[] [Hb] []"); [done..| | | |].
  - iApply (is_lazy_mono with "Hl"). apply Hle2.
  - iExists _, _. iFrame "Hb". iPureIntro. subst V2. simpl. set_solver.
  - iIntros "Hb". iMod (frozen_alloc with "Hb") as "Hb". iModIntro. iExists b. by iFrame "Hb".
  - iIntros ([v'|v'] V3 Hle3) "H".
    + iApply wpp_ret. iApply "HΦ". iApply (lazy_got_mono with "H"). apply Hle3.
    + iDestruct "H" as "[(%ws & %rs & Hb & %Hb) H]". iApply wpp_bind.
      iApply (wpp_free_data with "Hb"); [destruct Hle3; by etrans|].
      iIntros "!> _". iApply wpp_ret. by iApply "HΦ".
Qed.

(** *** Printing what they got *)

(** [n] of the [k] threads have printed their line, with the value agreed on. *)
Definition same_out γ (γt : gname * gname) fmt (k : nat) (os : list output) : iProp Σ :=
  tally γt k (length os) ∗
  (⌜os = []⌝ ∨ ∃ x, tt ↪[γ]□ x ∗ ⌜Forall (λ y, y = (fmt, [x])) os⌝).

Lemma wpp_print_same γ γt fmt k x V Φ :
  inv outN (∃ os, printed os ∗ same_out γ γt fmt k os) -∗ due γt -∗ tt ↪[γ]□ x -∗
  (paid γt -∗ Φ tt V) -∗ wpp (println fmt [x]) V Φ.
Proof.
  iIntros "#Hinv Hd #Hx HΦ". iApply wpp_print_inv.
  iInv "Hinv" as (os) "(>Hos & >Ht & >Hsame)" "Hclose". iModIntro. iExists os.
  iFrame "Hos". iIntros "!> Hos". iMod (tally_step with "Ht Hd") as "[Ht Hp]".
  iMod ("Hclose" with "[Hos Ht Hsame]") as "_"; [|by iApply "HΦ"].
  iExists _. iFrame "Hos". rewrite /same_out length_app Nat.add_1_r. iFrame "Ht". iRight.
  iExists x. iFrame "Hx". rewrite list.Forall_app list.Forall_singleton.
  iDestruct "Hsame" as "[->|(%y & Hy & %Hall)]"; [done|].
  by iDestruct (ghost_map_elem_agree with "Hx Hy") as %->.
Qed.

Lemma same_out_lines γ γt fmt k os : same_out γ γt fmt k os -∗ ⌜same_lines fmt os⌝.
Proof.
  iIntros "[_ [->|(%x & _ & %)]]"; iPureIntro; [by exists VUnit|by exists x].
Qed.
End clients.

Definition lazy_client (thread : loc → prog unit) (k : nat) : prog unit :=
  l ← atomic_new 0; scope (replicate k (thread l)) (mret ()).

(** Any key but 0, and any data. *)
Definition random_key : prog Z := z ← act OInput; mret (1 + z mod (u64_modulus - 1))%Z.
Definition random_data : prog val := z ← act OInput; mret (LazyData.Data (wrap_i32 z)).

Definition key_thread (KEY : loc) : prog unit :=
  key ← LazyKey.get_key random_key KEY; println "key: {}" [VInt key].
Definition data_thread (PTR : loc) : prog unit :=
  p ← LazyData.get_data random_data PTR; d ← read p; println "{:?}" [d].

Section programs.
Context `{!rustGS Σ, !lazyG Σ, !countG Σ}.

Lemma wpp_key_thread γ γt k l V :
  is_lazy key_is γ l (cur V) -∗
  inv outN (∃ os, printed os ∗ same_out γ γt "key: {}" k os) -∗ due γt -∗
  wpp (key_thread l) V (λ _ _, paid γt).
Proof.
  iIntros "Hl #Hinv Hd". iApply wpp_bind. iApply (wpp_get_key with "[] Hl").
  - iIntros (V' Φ') "HΦ". iApply wpp_bind. iApply wpp_input. iIntros "!>" (z).
    iApply wpp_ret. iApply "HΦ". iPureIntro.
    pose proof (Z.mod_pos_bound z (u64_modulus - 1) eq_refl). lia.
  - iIntros (v V') "Hx". iApply (wpp_print_same with "Hinv Hd Hx"). by iIntros "$".
Qed.

Lemma wpp_data_thread γ γt k l V :
  is_lazy data_is γ l (cur V) -∗
  inv outN (∃ os, printed os ∗ same_out γ γt "{:?}" k os) -∗ due γt -∗
  wpp (data_thread l) V (λ _ _, paid γt).
Proof.
  iIntros "Hl #Hinv Hd". iApply wpp_bind. iApply (wpp_get_data with "[] Hl").
  { iIntros (V' Φ') "HΦ". iApply wpp_bind. iApply wpp_input. iIntros "!>" (z).
    iApply wpp_ret. iApply "HΦ". }
  iIntros (x p V') "Hx (%p' & %Heq & #Hp)". simplify_eq. iApply wpp_bind.
  iApply (wpp_read_frozen with "Hp"). iIntros (V2 _).
  iApply (wpp_print_same with "Hinv Hd Hx"). by iIntros "$".
Qed.
End programs.

(** The closed form, for both. *)
Lemma lazy_client_safe Σ `{!rustGpreS Σ, !lazyG Σ, !countG Σ, !tokenG Σ} thread fmt k
    (D : ∀ `{!rustGS Σ}, val → Z → view → iProp Σ)
    `{!∀ (G : rustGS Σ) x v W, Persistent (D x v W)}
    `{!∀ (G : rustGS Σ) x v, ViewMono (D x v)} :
  (∀ `{!rustGS Σ} γ γt l V, is_lazy D γ l (cur V) -∗
     inv outN (∃ os, printed os ∗ same_out γ γt fmt k os) -∗ due γt -∗
     wpp (thread l) V (λ _ _, paid γt)) →
  safe (lazy_client thread k) (λ σ, same_lines fmt (out σ))
    (λ o σ, o = Ok tt ∧ length (out σ) = k).
Proof.
  intros Hth. apply (safe_output_inv Σ _ _ (λ o os, o = Ok tt ∧ length os = k)).
  iIntros (?) "Hp". iMod (tally_alloc (seq 0 k)) as (γt) "[Ht Hds]". rewrite length_seq.
  iMod (ghost_map_alloc_empty (K := unit) (V := val)) as (γ) "Hγ".
  iExists (same_out γ γt fmt k), (λ o, ⌜o = Ok tt⌝ ∗ [∗ list] _ ∈ seq 0 k, paid γt)%I.
  iMod (inv_alloc outN _ (∃ os, printed os ∗ same_out γ γt fmt k os) with "[Hp Ht]") as "#Hinv".
  { iExists []. iFrame "Hp Ht". by iLeft. }
  iModIntro. iFrame "Hinv". iSplit; [iPureIntro; apply _|]. iSplitL.
  - iApply (wpo_wand _ _ (no_panic (λ _ _, [∗ list] _ ∈ seq 0 k, paid γt)%I) with "[Hγ Hds]").
    2: { iIntros ([[]|m] V _) "H"; [by iFrame "H"|done]. }
    iApply wpp_bind. iApply (wpp_lazy_new (D _) with "Hγ"). iIntros (l V1 Hle1) "#Hl".
    pose proof (replicate_as_fmap (seq 0 k) (thread l)) as Heq. rewrite length_seq in Heq.
    rewrite Heq. iApply (wpp_scope (seq 0 k) _ _ (λ _ _, paid γt) (λ _ _, True)%I with "[Hds]").
    + iApply (big_sepL_impl with "Hds"). iIntros "!>" (i j _) "Hd". iIntros (V' Hle).
      iApply (Hth with "[] Hinv Hd"). by iApply (is_lazy_mono with "Hl").
    + iIntros (V' _). by iApply wpp_ret.
    + by iIntros (a V2 V3 _ _) "_ H".
  - iSplit; [iIntros (os); iApply same_out_lines|]. iIntros (o os) "[-> H] [Ht _]".
    iDestruct (tally_done with "Ht H") as %->; [apply length_seq|done].
Qed.

(** Any number of threads that call [get_key], with a generator that makes
    any key but 0: all print the same key. *)
Theorem lazy_keys_agree k :
  safe (lazy_client key_thread k) (λ σ, same_lines "key: {}" (out σ))
    (λ o σ, o = Ok tt ∧ length (out σ) = k).
Proof.
  apply (lazy_client_safe #[rustΣ; lazyΣ; countΣ; tokenΣ] _ _ _ (λ _, key_is)).
  iIntros (? γ γt l V). apply wpp_key_thread.
Qed.

(** C20. Any number of threads that call [get_data] and read the data behind
    the reference: no data race, no access to freed memory, and all read the
    same data. *)
Theorem lazy_data_agree k :
  safe (lazy_client data_thread k) (λ σ, same_lines "{:?}" (out σ))
    (λ o σ, o = Ok tt ∧ length (out σ) = k).
Proof.
  apply (lazy_client_safe #[rustΣ; lazyΣ; countΣ; tokenΣ] _ _ _ (λ _, data_is)).
  iIntros (? γ γt l V). apply wpp_data_thread.
Qed.

(** [main] of 02-03-02 prints the key 42. *)
Theorem lazy_key_main_safe :
  safe LazyKey.main (λ _, True)
    (λ o σ, o = Ok tt ∧ out σ = [("key: {}"%string, [VInt 42])]) ∧
  can_end LazyKey.main (Ok tt) [("key: {}"%string, [VInt 42])].
Proof.
  split; [|by_running 20%Z]. apply (safe_no_panic #[rustΣ] _ (λ os, os = _)).
  iIntros (?) "Hp _". iApply wpp_bind. iApply wpp_at_new. iIntros (l V1 _) "Hl".
  do 2 iApply wpp_bind. iApply (wpp_at_load with "Hl"); [done|]. iIntros (V2 _) "Hl".
  iApply wpp_bind. iApply wpp_ret. do 2 iApply wpp_bind.
  iApply (wpp_at_rmw with "Hl"); [done..|by eexists|]. iIntros (z V3 _ _) "_".
  do 2 iApply wpp_ret. iApply (wpp_println with "Hp"). iIntros "!> Hp". iExists _. by iFrame.
Qed.

(** [main] of 03-05-02: a hundred threads make, publish and drop the data
    without undefined behaviour, and [main] returns. *)
Theorem lazy_data_main_safe :
  safe LazyData.main (λ σ, out σ = []) (λ o _, o = Ok tt) ∧ can_end LazyData.main (Ok tt) [].
Proof.
  split; [|by_running 60000%Z]. apply (safe_quiet #[rustΣ; lazyΣ; tokenΣ]). iIntros (?).
  iMod (ghost_map_alloc_empty (K := unit) (V := val)) as (γ) "Hγ".
  iApply wpp_bind. iApply (wpp_lazy_new data_is with "Hγ"). iIntros (l V1 Hle1) "#Hl".
  rewrite (replicate_as_fmap (seq 0 100)).
  iApply (wpp_scope (seq 0 100) _ _ (λ _ _, True)%I (λ _ _, True)%I); [| |by iIntros].
  - iApply big_sepL_intro. iIntros "!>" (i j _ V' Hle). iApply wpp_bind.
    iApply (wpp_get_data with "[]"); [|by iApply (is_lazy_mono with "Hl")|].
    + iIntros (V2 Φ') "HΦ". by iApply wpp_ret.
    + iIntros (x p V2) "_ _". by iApply wpp_ret.
  - iIntros (V' _). by iApply wpp_ret.
Qed.
