(* ===== verification/Progress.v ===== *)
(** * Reporting progress and stopping a thread

    [Report] is 02-01-02_progress-report.rs, [ReportParking] is
    02-01-02-01_progress-report-with-parking.rs, [StopFlag] is
    02-01-01_stop-flag.rs.  One thread stores to an atomic, the other reads it
    again and again. *)

From stdpp Require Import sorting.
From iris.proofmode Require Import proofmode.
From iris.base_logic.lib Require Import invariants token.
From S2P Require Import Prelude Memory History Lang Runs Logic Rules Std Parking.
From S2P Require Import Monotone.

(** ** The code *)

Module Report.

Definition process_item (_ : Z) : prog unit := sleep.

Definition worker (num_done : loc) : prog unit :=
  for_range 0 100 (λ i, process_item i;; store num_done (i + 1) Relaxed).

Definition report_loop (num_done : loc) : prog unit :=
  loop (λ _ : unit,
    n ← load num_done Relaxed;
    if (n =? 100)%Z then mret (inr ())
    else println "Working.. {n}/100 done" [VInt n];; sleep;; mret (inl ())) ().

Definition main : prog unit :=
  num_done ← atomic_new 0;
  scope [worker num_done] (report_loop num_done);;
  println "Done!" [].
End Report.

Module ReportParking.

Definition process_item (_ : Z) : prog unit := sleep.

Definition worker (num_done main_thread : loc) : prog unit :=
  for_range 0 100 (λ i,
    process_item i;; store num_done (i + 1) Relaxed;; unpark main_thread).

Definition report_loop (num_done main_thread : loc) : prog unit :=
  loop (λ _ : unit,
    n ← load num_done Relaxed;
    if (n =? 100)%Z then mret (inr ())
    else println "Working.. {n}/100 done" [VInt n];; park_timeout main_thread;; mret (inl ())) ().

Definition main : prog unit :=
  num_done ← atomic_new 0;
  main_thread ← park_token_new;
  scope [worker num_done main_thread] (report_loop num_done main_thread);;
  println "Done!" [].
End ReportParking.

Module StopFlag.

Definition some_work : prog unit := sleep.

Definition background (STOP : loc) : prog unit :=
  while_loop (b ← load_bool STOP Relaxed; mret (negb b)) some_work.

(** [for line in stdin().lines()]: an element is a line, or an input error. *)
Fixpoint commands (lines : list (option string)) : prog unit :=
  match lines with
  | [] => mret ()
  | None :: _ => Panic "called `Result::unwrap()` on an `Err` value"
  | Some line :: lines =>
      if decide (line = "help"%string) then println "commands: help, stop" [];; commands lines
      else if decide (line = "stop"%string) then mret ()
      else println "unknown command: {cmd}" [VStr line];; commands lines
  end.

Definition main (stdin : list (option string)) : prog unit :=
  STOP ← atomic_new 0;
  background_thread ← spawn (background STOP);
  commands stdin;;
  store_bool STOP true Relaxed;;
  join_unwrap background_thread.
End StopFlag.

(** ** Progress reports *)

Definition report_lines (ns : list Z) : list output :=
  (λ n, ("Working.. {n}/100 done"%string, [VInt n])) <$> ns.

(** The numbers reported never go down, and stay below 100. *)
Definition rising_reports (ns : list Z) : Prop :=
  StronglySorted Z.le ns ∧ Forall (λ n, 0 <= n < 100)%Z ns.

Lemma rising_reports_snoc ns n :
  rising_reports ns → Forall (λ a, a <= n)%Z ns → (0 <= n < 100)%Z → rising_reports (ns ++ [n]).
Proof.
  intros [Hs Hb] Hn Hr. split.
  - apply StronglySorted_app_2; [|done|by repeat constructor].
    intros a b Ha ->%list_elem_of_singleton. rewrite list.Forall_forall in Hn. by apply Hn.
  - apply list.Forall_app. split; [done|]. by constructor.
Qed.

Section report.
Context `{!rustGS Σ, !monoG Σ}.

Definition below_100 (v : Z) : iProp Σ := ⌜(0 <= v <= 100)%Z⌝.

(** What the loop has printed; [v] was read last. *)
Definition reported (γ : gname) (l : loc) (V : tview) : iProp Σ :=
  ∃ ns v, printed (report_lines ns) ∗ ⌜rising_reports ns⌝ ∗
    ⌜Forall (λ a, a <= v)%Z ns⌝ ∗ seen γ l v (cur V).

Lemma wpp_report_store γ γw l i V Φ :
  (0 <= i < 100)%Z →
  is_mono below_100 (last_store γw) γ l (cur V) -∗ mono_writer γ γw l i (cur V) -∗
  (∀ V', ⌜V ⊆ V'⌝ -∗ mono_writer γ γw l (i + 1) (cur V') -∗ Φ tt V') -∗
  wpp (store l (i + 1) Relaxed) V Φ.
Proof.
  iIntros (Hi) "#Hl Hw HΦ". iApply (wpp_mono_store below_100 with "Hl Hw"); [done|lia| |done].
  iPureIntro. lia.
Qed.

Lemma wpp_report_worker γ γw l V :
  is_mono below_100 (last_store γw) γ l (cur V) -∗ mono_writer γ γw l 0 (cur V) -∗
  wpp (Report.worker l) V (λ _ _, True).
Proof.
  iIntros "#Hl Hw". iApply (wpp_for_range (λ i V', mono_writer γ γw l i (cur V'))%I with "[] Hw").
  - iIntros "!>" (i V' Hle Hi) "Hw". iApply wpp_bind. iApply wpp_ret.
    iApply (wpp_report_store with "[] Hw"); [lia|iApply (is_mono_mono with "Hl"); apply Hle|].
    by iIntros (V2 _) "$".
  - by iIntros.
Qed.

Lemma wpp_parking_worker γ γw l tok V :
  is_mono below_100 (last_store γw) γ l (cur V) -∗ mono_writer γ γw l 0 (cur V) -∗
  is_park tok (cur V) -∗ wpp (ReportParking.worker l tok) V (λ _ _, True).
Proof.
  iIntros "#Hl Hw #Ht".
  iApply (wpp_for_range (λ i V', mono_writer γ γw l i (cur V'))%I with "[] Hw").
  - iIntros "!>" (i V' Hle Hi) "Hw". iApply wpp_bind. iApply wpp_ret. iApply wpp_bind.
    iApply (wpp_report_store with "[] Hw"); [lia|iApply (is_mono_mono with "Hl"); apply Hle|].
    iIntros (V2 Hle2) "Hw". iApply (wpp_unpark with "[]").
    { iApply (is_park_mono with "Ht"). etrans; [apply Hle|apply Hle2]. }
    iIntros (V3 Hle3). iApply (mono_writer_mono with "Hw"). by apply tview_le_cur.
  - by iIntros.
Qed.

(** One turn of the loop; [wait] is what it does before the next one. *)
Lemma wpp_report_loop γ X `{!∀ h, Timeless (X h)} l (wait : prog unit) V Φ :
  is_mono below_100 X γ l (cur V) -∗
  □ (∀ V' Φ', ⌜V ⊆ V'⌝ -∗ (∀ V2, ⌜V' ⊆ V2⌝ -∗ Φ' tt V2) -∗ wpp wait V' Φ') -∗
  reported γ l V -∗
  (∀ V' ns, printed (report_lines ns) -∗ ⌜rising_reports ns⌝ -∗ Φ tt V') -∗
  wpp (loop (λ _ : unit,
    n ← load l Relaxed;
    if (n =? 100)%Z then mret (inr ())
    else println "Working.. {n}/100 done" [VInt n];; wait;; mret (inl ())) ()) V Φ.
Proof.
  iIntros "#Hl #Hw Hr HΦ".
  iApply (wpp_loop (λ _ V', reported γ l V' ∗
    (∀ V' ns, printed (report_lines ns) -∗ ⌜rising_reports ns⌝ -∗ Φ tt V'))%I with "[] [$Hr $HΦ]").
  iIntros "!>" ([] V1 Hle1) "[(%ns & %v & Hp & %Hns & %Hv & Hs) HΦ]". iApply wpp_bind.
  iApply (wpp_mono_load below_100 X γ l _ v with "[] Hs"); [done| |].
  { iApply (is_mono_mono with "Hl"). apply Hle1. }
  iIntros (n V2 Hle2 Hvn) "%Hn Hs". destruct (n =? 100)%Z eqn:Hn100.
  { iApply wpp_ret. by iApply ("HΦ" with "Hp"). }
  apply Z.eqb_neq in Hn100. iApply wpp_bind. iApply (wpp_println with "Hp"). iIntros "!> Hp".
  iApply wpp_bind. iApply "Hw"; [iPureIntro; by etrans|]. iIntros (V3 Hle3). iApply wpp_ret.
  iFrame "HΦ". iExists (ns ++ [n]), n.
  assert (Forall (λ a, a <= n)%Z ns) as Hall by (eapply Forall_impl; [|exact Hv]; simpl; lia).
  iSplitL "Hp"; [by rewrite /report_lines fmap_app|].
  iSplit; [iPureIntro; apply rising_reports_snoc; [done|done|lia]|].
  iSplit; [iPureIntro; apply list.Forall_app; split; [done|]; by constructor|].
  iApply (seen_mono with "Hs"). apply Hle3.
Qed.

Lemma reported_mono γ l V V' : V ⊆ V' → reported γ l V -∗ reported γ l V'.
Proof.
  iIntros (Hle) "(%ns & %v & $ & $ & % & Hs)". iExists v. iSplit; [done|].
  iApply (seen_mono with "Hs"). apply Hle.
Qed.

(** Before the first turn. *)
Lemma reported_nil γ γw l V :
  printed [] -∗ mono_writer γ γw l 0 (cur V) -∗ reported γ l V ∗ mono_writer γ γw l 0 (cur V).
Proof.
  iIntros "Hp Hw". iDestruct (mono_writer_seen with "Hw") as "#Hs". iFrame "Hw".
  iExists [], 0%Z. iFrame "Hp Hs". iPureIntro. split; [by split; constructor|done].
Qed.
End report.

(** C35. [main] of 02-01-02: the progress reported never goes down and stays
    below 100, and the last line is the only "Done!". *)
Theorem report_main_safe :
  safe Report.main (λ _, True) (λ o σ, o = Ok tt ∧
    ∃ ns, out σ = report_lines ns ++ [("Done!"%string, [])] ∧ rising_reports ns) ∧
  ∃ os, can_end Report.main (Ok tt) os.
Proof.
  split; [|eexists; by_running 10000%Z]. apply (safe_no_panic #[rustΣ; monoΣ; tokenΣ] _ (λ os, ∃ ns, os = _ ∧ _)). iIntros (?) "Hp _".
  iApply wpp_bind. iApply (wpp_mono_new_writer below_100 with "[%]"); [lia|].
  iIntros (γ γw l V1 _) "#Hl Hw". iDestruct (reported_nil with "Hp Hw") as "[Hr Hw]".
  iApply wpp_bind.
  iApply (wpp_scope [()] (λ _, Report.worker l) _ (λ _ _, True)%I
    (λ _ _, ∃ ns, printed (report_lines ns) ∗ ⌜rising_reports ns⌝)%I with "[Hw] [Hr]").
  - rewrite big_sepL_singleton. iIntros (V2 Hle2).
    iApply (wpp_report_worker with "[] [Hw]"); [by iApply (is_mono_mono with "Hl")|].
    by iApply (mono_writer_mono with "Hw").
  - iIntros (V2 Hle2). iApply (wpp_report_loop γ (last_store γw) with "[] [] [Hr]").
    + iApply (is_mono_mono with "Hl"). apply Hle2.
    + iIntros "!>" (V' Φ' _) "HΦ". iApply wpp_ret. by iApply "HΦ".
    + by iApply (reported_mono with "Hr").
    + iIntros (V' ns) "Hp %Hns". iExists ns. by iFrame "Hp".
  - iIntros ([] V2 V3 _ _) "(%ns & Hp & %Hns) _". iApply (wpp_println with "Hp").
    iIntros "!> Hp". iExists _. iFrame "Hp". by iExists ns.
Qed.

(** The same with [park_timeout] and [unpark] instead of sleeping. *)
Theorem report_parking_main_safe :
  safe ReportParking.main (λ _, True) (λ o σ, o = Ok tt ∧
    ∃ ns, out σ = report_lines ns ++ [("Done!"%string, [])] ∧ rising_reports ns) ∧
  ∃ os, can_end ReportParking.main (Ok tt) os.
Proof.
  split; [|eexists; by_running 10000%Z]. apply (safe_no_panic #[rustΣ; monoΣ; tokenΣ] _ (λ os, ∃ ns, os = _ ∧ _)). iIntros (?) "Hp _".
  iApply wpp_bind. iApply (wpp_mono_new_writer below_100 with "[%]"); [lia|].
  iIntros (γ γw l V0 _) "#Hl Hw". iApply wpp_bind. iApply wpp_park_new.
  iIntros (tok V1 Hle1) "#Ht". iDestruct (mono_writer_mono with "Hw") as "Hw"; [apply Hle1|].
  iDestruct (is_mono_mono with "Hl") as "Hl1"; [apply Hle1|]. iClear "Hl". iRename "Hl1" into "Hl".
  iDestruct (reported_nil with "Hp Hw") as "[Hr Hw]". iApply wpp_bind.
  iApply (wpp_scope [()] (λ _, ReportParking.worker l tok) _ (λ _ _, True)%I
    (λ _ _, ∃ ns, printed (report_lines ns) ∗ ⌜rising_reports ns⌝)%I with "[Hw] [Hr]").
  - rewrite big_sepL_singleton. iIntros (V2 Hle2).
    iApply (wpp_parking_worker with "[] [Hw]"); [by iApply (is_mono_mono with "Hl")| |].
    + by iApply (mono_writer_mono with "Hw").
    + by iApply (is_park_mono with "Ht").
  - iIntros (V2 Hle2). iApply (wpp_report_loop γ (last_store γw) with "[] [] [Hr]").
    + iApply (is_mono_mono with "Hl"). apply Hle2.
    + iIntros "!>" (V' Φ' Hle') "HΦ". iApply (wpp_park_timeout with "[] HΦ").
      iApply (is_park_mono with "Ht"). etrans; [apply Hle2|apply Hle'].
    + by iApply (reported_mono with "Hr").
    + iIntros (V' ns) "Hp %Hns". iExists ns. by iFrame "Hp".
  - iIntros ([] V2 V3 _ _) "(%ns & Hp & %Hns) _". iApply (wpp_println with "Hp").
    iIntros "!> Hp". iExists _. iFrame "Hp". by iExists ns.
Qed.

(** ** The stop flag *)

(** The session ends with the first input error or [stop]. *)
Definition ends_session (x : option string) : Prop := x = None ∨ x = Some "stop"%string.
#[local] Instance ends_session_dec x : Decision (ends_session x).
Proof. apply _. Defined.

Definition reply (x : option string) : output :=
  match x with
  | Some s => if decide (s = "help"%string) then ("commands: help, stop"%string, [])
              else ("unknown command: {cmd}"%string, [VStr s])
  | None => (""%string, [])
  end.

(** The replies to the lines before that, and how the session ends. *)
Definition session (lines : list (option string)) : list output * outcome unit :=
  match list_find ends_session lines with
  | Some (i, None) =>
      (reply <$> take i lines, Panicked "called `Result::unwrap()` on an `Err` value")
  | Some (i, Some _) => (reply <$> take i lines, Ok tt)
  | None => (reply <$> lines, Ok tt)
  end.

Lemma session_cons x lines :
  ¬ ends_session x →
  session (x :: lines) = (reply x :: (session lines).1, (session lines).2).
Proof.
  intros Hx. rewrite /session /= decide_False //.
  by destruct (list_find ends_session lines) as [[i [s|]]|].
Qed.

Section stop.
Context `{!rustGS Σ, !monoG Σ}.

Lemma wpo_commands lines os V Φ :
  printed os -∗
  (printed (os ++ (session lines).1) -∗ Φ (session lines).2 V) -∗
  wpo (StopFlag.commands lines) V Φ.
Proof.
  iIntros "Hp HΦ". iInduction lines as [|[s|] lines] "IH" forall (os).
  - iApply wpo_ret. iApply "HΦ". by rewrite app_nil_r.
  - cbn [StopFlag.commands]. destruct (decide (s = "help"%string)) as [->|Hh].
    { rewrite session_cons; [|by intros [|]]. iApply wpp_bind_wpo. iApply (wpp_println with "Hp").
      iIntros "!> Hp". iApply ("IH" with "Hp"). by rewrite -app_assoc. }
    destruct (decide (s = "stop"%string)) as [->|Hs].
    { iApply wpo_ret. iApply "HΦ". by rewrite app_nil_r. }
    rewrite session_cons; [|intros [|]; congruence]. iApply wpp_bind_wpo.
    iApply (wpp_println with "Hp"). iIntros "!> Hp". iApply ("IH" with "Hp").
    rewrite -app_assoc /= decide_False //.
  - iApply wpo_panic. iApply "HΦ". by rewrite app_nil_r.
Qed.

Lemma wpp_background γ X `{!∀ h, Timeless (X h)} l V :
  is_mono (λ _, True)%I X γ l (cur V) -∗ seen γ l 0 (cur V) -∗
  wpp (StopFlag.background l) V (λ _ _, True).
Proof.
  iIntros "#Hl #Hs". iApply (wpp_while (λ _, True)%I with "[] [//]").
  iIntros "!>" (V' Hle) "_". do 2 iApply wpp_bind.
  iApply (wpp_mono_load (λ _, True)%I X γ l _ 0 with "[] []"); [done| | |].
  - iApply (is_mono_mono with "Hl"). apply Hle.
  - iApply (seen_mono with "Hs"). apply Hle.
  - iIntros (v V2 _ _) "_ _". do 2 iApply wpp_ret. destruct (negb _); [by iApply wpp_ret|done].
Qed.
End stop.

