(* ===== verification/Shares.v ===== *)
(** * Shared access that ends

    A location shared between threads by reference, until its owner has it
    back: [na_share] is a fraction of the right to read a plain location,
    [at_share] a fraction of the right to use an atomic.  A share remembers
    the accesses made through it, so that the owner of all the shares has
    observed every access and may drop or mutate the location. *)

From iris.proofmode Require Import proofmode.
From iris.algebra Require Import gset.
From iris.algebra.lib Require Import frac_auth.
From iris.base_logic.lib Require Import invariants cancelable_invariants ghost_var.
From S2P Require Import Prelude Memory Lang Logic Rules Std.

Class shareG Σ := ShareG {
  share_cinvG :: cinvG Σ;
  share_accG :: inG Σ (frac_authR (gsetUR event));
  share_naG :: ghost_varG Σ (val * view);
  share_lentG :: ghost_varG Σ (val * view * view)
}.
Definition shareΣ : gFunctors :=
  #[cinvΣ; GFunctor (frac_authR (gsetUR event)); ghost_varΣ (val * view);
    ghost_varΣ (val * view * view)].
#[export] Instance subG_shareΣ Σ : subG shareΣ Σ → shareG Σ.
Proof. solve_inG. Qed.

Section shares.
Context `{!rustGS Σ, !shareG Σ}.
Implicit Types (V : tview) (l : loc) (W S : view) (q : Qp).

Definition shareN : namespace := nroot .@ "share".

(** Names: the invariant's, and that of its accesses. *)
Abbreviation share_name := (gname * gname)%type.

(** The invariant of a share has a name space of its own, so that two of them
    can be opened together. *)
Definition share_cinv (γ : share_name) (P : iProp Σ) : iProp Σ :=
  cinv (shareN .@ γ.1) γ.1 P.

#[global] Instance share_cinv_persistent γ P : Persistent (share_cinv γ P).
Proof. apply _. Qed.

(** ** Recording accesses *)

(** What all the shares of something have seen: [record γ A] is the whole,
    [recorded γ q W] a share of it, whose part was seen in the view [W]. *)
Definition record (γ : gname) (A : view) : iProp Σ := own γ (●F A).
Definition recorded (γ : gname) (q : Qp) (W : view) : iProp Σ :=
  ∃ S, own γ (◯F{q} S) ∗ ⌜S ⊆ W⌝.

Lemma recorded_mono γ q W W' : W ⊆ W' → recorded γ q W -∗ recorded γ q W'.
Proof. iIntros (?) "(%S & $ & %)". iPureIntro. by etrans. Qed.

Lemma recorded_split γ q1 q2 W :
  recorded γ (q1 + q2) W ⊣⊢ recorded γ q1 W ∗ recorded γ q2 W.
Proof.
  iSplit.
  - iIntros "(%S & HS & %)". rewrite -{1}(idemp_L (∪) S) -gset_op frac_auth_frag_op own_op.
    iDestruct "HS" as "[HS1 HS2]". iSplitL "HS1"; iExists S; by iFrame.
  - iIntros "[(%S1 & HS1 & %) (%S2 & HS2 & %)]". iExists (S1 ∪ S2).
    iCombine "HS1 HS2" as "HS". iFrame "HS". iPureIntro. set_solver.
Qed.

(** Only one of the parts has seen it. *)
Lemma recorded_split_empty γ q1 q2 W :
  recorded γ (q1 + q2) W -∗ recorded γ q1 W ∗ recorded γ q2 ∅.
Proof.
  iIntros "(%S & HS & %)". rewrite -{1}(right_id_L ∅ (∪) S) -gset_op frac_auth_frag_op own_op.
  iDestruct "HS" as "[HS1 HS2]". iSplitL "HS1"; [iExists S|iExists ∅]; by iFrame.
Qed.

Lemma record_add γ A q W X :
  record γ A -∗ recorded γ q W ==∗ record γ (A ∪ X) ∗ recorded γ q (W ∪ X).
Proof.
  iIntros "HA (%S & HS & %)". iCombine "HA HS" as "H".
  iMod (own_update with "H") as "[$ H]".
  { apply (frac_auth_update _ _ _ (A ∪ X) (S ∪ X)).
    rewrite (comm_L (∪) A) (comm_L (∪) S) -!gset_op. by apply op_local_update_discrete. }
  iModIntro. iExists _. iFrame "H". iPureIntro. set_solver.
Qed.

Lemma record_all γ A W : record γ A -∗ recorded γ 1 W -∗ ⌜A ⊆ W⌝.
Proof.
  iIntros "HA (%S & HS & %)". iCombine "HA HS" gives %Hv.
  apply frac_auth_agree_L in Hv as ->. done.
Qed.

Lemma record_alloc A W : A ⊆ W → ⊢ |==> ∃ γ, record γ A ∗ recorded γ 1 W.
Proof.
  iIntros (HA). iMod (own_alloc (●F A ⋅ ◯F A)) as (γ) "[H HS]"; [by apply frac_auth_valid|].
  iModIntro. iExists γ. iFrame "H". iExists A. by iFrame.
Qed.

Lemma recorded_exclusive γ q W1 W2 : recorded γ 1 W1 -∗ recorded γ q W2 -∗ False.
Proof.
  iIntros "(%S1 & H1 & _) (%S2 & H2 & _)". iCombine "H1 H2" gives %Hv.
  rewrite -frac_auth_frag_op frac_auth_frag_valid in Hv.
  destruct Hv as [Hv%frac_valid _]. by apply Qp.not_add_le_l in Hv.
Qed.

Definition accesses (γ : share_name) (A : view) : iProp Σ := record γ.2 A.
Definition access_share (γ : share_name) (q : Qp) (W : view) : iProp Σ :=
  cinv_own γ.1 q ∗ recorded γ.2 q W.

Lemma access_share_mono γ q W W' : W ⊆ W' → access_share γ q W -∗ access_share γ q W'.
Proof. iIntros (?) "[$ H]". by iApply (recorded_mono with "H"). Qed.

Lemma access_share_split γ q1 q2 W :
  access_share γ (q1 + q2) W ⊣⊢ access_share γ q1 W ∗ access_share γ q2 W.
Proof.
  rewrite /access_share recorded_split. iSplit.
  - iIntros "[[$ $] [$ $]]".
  - iIntros "[[H1 $] [H2 $]]". by iCombine "H1 H2" as "$".
Qed.

Lemma accesses_add γ A q W X :
  accesses γ A -∗ access_share γ q W ==∗
  accesses γ (A ∪ X) ∗ access_share γ q (W ∪ X).
Proof. iIntros "HA [$ H]". by iApply (record_add with "HA H"). Qed.

Lemma accesses_all γ A W : accesses γ A -∗ access_share γ 1 W -∗ ⌜A ⊆ W⌝.
Proof. iIntros "HA [_ H]". iApply (record_all with "HA H"). Qed.

Lemma accesses_alloc A W E :
  A ⊆ W →
  ⊢ |={E}=> ∃ γ, accesses γ A ∗ access_share γ 1 W ∗
      ∀ P, ▷ P ={E}=∗ share_cinv γ P.
Proof.
  iIntros (HA). iMod (record_alloc A W) as (γa) "[HA HS]"; [done|].
  iMod (cinv_own_excl_alloc (λ _, True)) as (γc _) "[Hexcl Hown]"; [apply pred_infinite_True|].
  iModIntro. iExists (γc, γa). iFrame.
  iIntros (P) "HP". iApply inv_alloc. iLeft. iFrame.
Qed.

Lemma access_share_distinct γ1 γ2 q W1 W2 :
  access_share γ1 1 W1 -∗ access_share γ2 q W2 -∗ ⌜γ1.1 ≠ γ2.1⌝.
Proof.
  iIntros "[H1 _] [H2 _]" (Heq). rewrite Heq.
  iDestruct (cinv_own_valid with "H1 H2") as %Hv. by apply Qp.not_add_le_l in Hv.
Qed.

(** Opening the invariant of a share, and taking it down with all shares. *)
Lemma share_acc_mask γ q W P E :
  ↑(shareN .@ γ.1) ⊆ E →
  share_cinv γ P -∗ access_share γ q W ={E,E ∖ ↑(shareN .@ γ.1)}=∗
  ▷ P ∗ access_share γ q W ∗ (▷ P ={E ∖ ↑(shareN .@ γ.1),E}=∗ True).
Proof.
  iIntros (HE) "#Hc [Hown HS]".
  iMod (cinv_acc with "Hc Hown") as "($ & Hown & $)"; [done|]. by iFrame.
Qed.

Lemma share_acc γ q W P :
  share_cinv γ P -∗ access_share γ q W ={⊤,⊤ ∖ ↑shareN}=∗
  ▷ P ∗ access_share γ q W ∗ (▷ P ={⊤ ∖ ↑shareN,⊤}=∗ True).
Proof.
  iIntros "#Hc HS". iMod (share_acc_mask with "Hc HS") as "($ & $ & Hclose)"; [done|].
  iMod (fupd_mask_subseteq (⊤ ∖ ↑shareN)) as "Hm"; [solve_ndisj|].
  iIntros "!> HP". iMod "Hm" as "_". by iApply "Hclose".
Qed.

Lemma share_cancel γ W P E :
  ↑shareN ⊆ E →
  share_cinv γ P -∗ access_share γ 1 W ={E}=∗
  ▷ P ∗ ∀ A, accesses γ A -∗ ⌜A ⊆ W⌝.
Proof.
  iIntros (HE) "#Hc [Hown HS]".
  iMod (cinv_cancel with "Hc Hown") as "$"; [solve_ndisj|].
  iIntros "!>" (A) "HA". iApply (record_all with "HA HS").
Qed.

(** ** Reading a plain location

    The shares agree on the value; all of them together may change it. *)

Definition na_inv (γ : share_name) (γo : gname) (l : loc) : iProp Σ :=
  ∃ v ws rs, l ↦ CData v ws rs ∗ accesses γ (ws ∪ rs) ∗ ghost_var γo (1/2) (v, ws).

Definition na_share (γ : share_name) (γo : gname) (l : loc) (v : val) (q : Qp) (W : view)
    : iProp Σ :=
  share_cinv γ (na_inv γ γo l) ∗ access_share γ q W ∗
  ∃ ws, ghost_var γo (q / 2) (v, ws) ∗ ⌜ws ⊆ W⌝.

Lemma na_share_mono γ γo l v q W W' :
  W ⊆ W' → na_share γ γo l v q W -∗ na_share γ γo l v q W'.
Proof.
  iIntros (Hle) "($ & HS & %ws & Ho & %)".
  iSplitL "HS"; [by iApply (access_share_mono with "HS")|].
  iExists ws. iFrame. iPureIntro. by etrans.
Qed.

Lemma na_share_agree γ γo l v1 v2 q1 q2 W1 W2 :
  na_share γ γo l v1 q1 W1 -∗ na_share γ γo l v2 q2 W2 -∗ ⌜v1 = v2⌝.
Proof.
  iIntros "(_ & _ & %ws1 & H1 & _) (_ & _ & %ws2 & H2 & _)".
  by iDestruct (ghost_var_agree with "H1 H2") as %[= -> ->].
Qed.

Lemma na_share_split γ γo l v q1 q2 W :
  na_share γ γo l v (q1 + q2) W ⊣⊢ na_share γ γo l v q1 W ∗ na_share γ γo l v q2 W.
Proof.
  rewrite /na_share access_share_split Qp.div_add_distr. iSplit.
  - iIntros "(#$ & [$ $] & %ws & [H1 H2] & %)". iSplitL "H1"; iExists ws; by iFrame.
  - iIntros "[(#$ & $ & %ws & H1 & %) (_ & $ & %ws2 & H2 & _)]".
    iDestruct (ghost_var_agree with "H1 H2") as %[= ->].
    iCombine "H1 H2" as "H". iExists ws2. by iFrame.
Qed.

Lemma na_share_alloc l v W E :
  own_na l v W ={E}=∗ ∃ γ γo, na_share γ γo l v 1 W.
Proof.
  iIntros "(%ws & %rs & Hl & %Hin)".
  iMod (accesses_alloc (ws ∪ rs) W) as (γ) "(HA & HS & Halloc)"; [done|].
  iMod (ghost_var_alloc (v, ws)) as (γo) "[Ho Ho']".
  iMod ("Halloc" $! (na_inv γ γo l) with "[Hl HA Ho']") as "#Hc".
  { iNext. iExists v, ws, rs. iFrame. }
  iModIntro. iExists γ, γo. iFrame "Hc HS". iExists ws. iFrame. iPureIntro. set_solver.
Qed.

Lemma na_share_cancel γ γo l v W E :
  ↑shareN ⊆ E → na_share γ γo l v 1 W ={E}=∗ own_na l v W.
Proof.
  iIntros (HE) "(#Hc & HS & %ws' & Ho & _)".
  iMod (share_cancel with "Hc HS") as "[>(%v' & %ws & %rs & Hl & HA & Ho') Hall]"; [done|].
  iDestruct (ghost_var_agree with "Ho Ho'") as %[= -> ->].
  iDestruct ("Hall" with "HA") as %?. iModIntro. iExists ws, rs. by iFrame.
Qed.

Lemma wpp_read_share γ γo l v q V Φ :
  na_share γ γo l v q (cur V) -∗
  ▷ (∀ V', ⌜V ⊆ V'⌝ -∗ na_share γ γo l v q (cur V') -∗ Φ v V') -∗
  wpp (read l) V Φ.
Proof.
  iIntros "(#Hc & HS & %ws & Ho & %Hws) HΦ". iApply wpp_read_inv.
  iMod (share_acc with "Hc HS") as "(>(%v' & %ws' & %rs & Hl & HA & Ho') & HS & Hclose)".
  iDestruct (ghost_var_agree with "Ho Ho'") as %[= <- <-]. iModIntro.
  iExists v, ws, rs. iFrame "Hl". iSplit; [done|]. iIntros "!>" (e) "Hl".
  iMod (accesses_add _ _ _ _ {[Acc e]} with "HA HS") as "[HA HS]".
  iMod ("Hclose" with "[Hl HA Ho']") as "_".
  { iExists v, ws, _. iFrame. by rewrite (assoc_L (∪)). }
  iModIntro. iApply ("HΦ" with "[%]"); [apply observe_le|]. iFrame "Hc HS".
  iExists ws. iFrame. iPureIntro. set_solver.
Qed.

Lemma wpp_write_share γ γo l v w V Φ :
  na_share γ γo l v 1 (cur V) -∗
  ▷ (∀ V', ⌜V ⊆ V'⌝ -∗ na_share γ γo l w 1 (cur V') -∗ Φ tt V') -∗
  wpp (write l w) V Φ.
Proof.
  iIntros "(#Hc & HS & %ws & Ho & %Hws) HΦ". iApply wpp_write_inv.
  iMod (share_acc with "Hc HS") as "(>(%v' & %ws' & %rs & Hl & HA & Ho') & HS & Hclose)".
  iDestruct (ghost_var_agree with "Ho Ho'") as %[= <- <-].
  iDestruct (accesses_all with "HA HS") as %Hall. iModIntro.
  iExists v, ws, rs. iFrame "Hl". iSplit; [done|]. iIntros "!>" (e) "Hl".
  iMod (accesses_add _ _ _ _ {[Acc e]} with "HA HS") as "[HA HS]".
  iMod (ghost_var_update_halves (w, ws ∪ {[Acc e]}) with "Ho Ho'") as "[Ho Ho']".
  iMod ("Hclose" with "[Hl HA Ho']") as "_".
  { iExists w, _, rs. iFrame.
    by replace (ws ∪ {[Acc e]} ∪ rs) with (ws ∪ rs ∪ {[Acc e]}) by set_solver. }
  iModIntro. iApply ("HΦ" with "[%]"); [apply observe_le|]. iFrame "Hc HS".
  iExists _. iFrame "Ho". iPureIntro. set_solver.
Qed.

(** ** Lending a plain location

    Shares of the location record the accesses; the right to its content,
    [lent_own], moves between threads on its own. *)

Definition lent_inv (γ : share_name) (γo : gname) (l : loc) : iProp Σ :=
  ∃ v ws rs, l ↦ CData v ws rs ∗ accesses γ (ws ∪ rs) ∗ ghost_var γo (1/2) (v, ws, rs).

Definition lent_share (γ : share_name) (γo : gname) (l : loc) (q : Qp) (W : view)
    : iProp Σ :=
  share_cinv γ (lent_inv γ γo l) ∗ access_share γ q W.

Definition lent_own (γo : gname) (v : val) (W : view) : iProp Σ :=
  ∃ ws rs, ghost_var γo (1/2) (v, ws, rs) ∗ ⌜ws ∪ rs ⊆ W⌝.

Lemma lent_share_mono γ γo l q W W' :
  W ⊆ W' → lent_share γ γo l q W -∗ lent_share γ γo l q W'.
Proof. iIntros (Hle) "[$ HS]". by iApply (access_share_mono with "HS"). Qed.

Lemma lent_share_split γ γo l q1 q2 W :
  lent_share γ γo l (q1 + q2) W ⊣⊢ lent_share γ γo l q1 W ∗ lent_share γ γo l q2 W.
Proof.
  rewrite /lent_share access_share_split. iSplit.
  - iIntros "[#$ [$ $]]".
  - iIntros "[[$ $] [_ $]]".
Qed.

#[global] Instance lent_own_mono γo v : ViewMono (lent_own γo v).
Proof.
  intros W W' Hle. iIntros "(%ws & %rs & $ & %)". iPureIntro. by etrans.
Qed.

Lemma lent_alloc l v W E :
  own_na l v W ={E}=∗ ∃ γ γo, lent_share γ γo l 1 W ∗ lent_own γo v W.
Proof.
  iIntros "(%ws & %rs & Hl & %Hin)".
  iMod (accesses_alloc (ws ∪ rs) W) as (γ) "(HA & HS & Halloc)"; [done|].
  iMod (ghost_var_alloc (v, ws, rs)) as (γo) "[Ho Ho']".
  iMod ("Halloc" $! (lent_inv γ γo l) with "[Hl HA Ho']") as "#Hc".
  { iNext. iExists v, ws, rs. iFrame. }
  iModIntro. iExists γ, γo. iFrame "Hc HS". iExists ws, rs. by iFrame.
Qed.

Lemma lent_cancel γ γo l W E :
  ↑shareN ⊆ E → lent_share γ γo l 1 W ={E}=∗ ∃ v, own_na l v W.
Proof.
  iIntros (HE) "[#Hc HS]".
  iMod (share_cancel with "Hc HS") as "[>(%v & %ws & %rs & Hl & HA & _) Hall]"; [done|].
  iDestruct ("Hall" with "HA") as %?. iModIntro. iExists v, ws, rs. by iFrame.
Qed.

Lemma lent_cancel_own γ γo l v W W' E :
  ↑shareN ⊆ E → lent_share γ γo l 1 W -∗ lent_own γo v W' ={E}=∗ own_na l v W.
Proof.
  iIntros (HE) "[#Hc HS] (%ws' & %rs' & Ho & _)".
  iMod (share_cancel with "Hc HS") as "[>(%v' & %ws & %rs & Hl & HA & Ho') Hall]"; [done|].
  iDestruct (ghost_var_agree with "Ho Ho'") as %[= -> -> ->].
  iDestruct ("Hall" with "HA") as %?. iModIntro. iExists ws, rs. by iFrame.
Qed.

Lemma wpp_read_lent γ γo l v q V Φ :
  lent_share γ γo l q (cur V) -∗ lent_own γo v (cur V) -∗
  ▷ (∀ V', ⌜V ⊆ V'⌝ -∗ lent_share γ γo l q (cur V') -∗ lent_own γo v (cur V') -∗
     Φ v V') -∗
  wpp (read l) V Φ.
Proof.
  iIntros "[#Hc HS] (%ws & %rs & Ho & %Hin) HΦ". iApply wpp_read_inv.
  iMod (share_acc with "Hc HS") as "(>(%v' & %ws' & %rs' & Hl & HA & Ho') & HS & Hclose)".
  iDestruct (ghost_var_agree with "Ho Ho'") as %[= -> -> ->].
  iModIntro. iExists _, _, _. iFrame "Hl". iSplit; [iPureIntro; set_solver|].
  iIntros "!>" (e) "Hl". iMod (accesses_add _ _ _ _ {[Acc e]} with "HA HS") as "[HA HS]".
  iMod (ghost_var_update_halves (v', ws', rs' ∪ {[Acc e]}) with "Ho Ho'") as "[Ho Ho']".
  iMod ("Hclose" with "[Hl HA Ho']") as "_".
  { iExists _, _, _. iFrame "Hl Ho'". by rewrite (assoc_L (∪)). }
  iModIntro. iApply ("HΦ" with "[%] [HS]"); [apply observe_le|by iFrame "Hc HS"|].
  iExists _, _. iFrame "Ho". iPureIntro. set_solver.
Qed.

Lemma wpp_write_lent γ γo l v w q V Φ :
  lent_share γ γo l q (cur V) -∗ lent_own γo v (cur V) -∗
  ▷ (∀ V', ⌜V ⊆ V'⌝ -∗ lent_share γ γo l q (cur V') -∗ lent_own γo w (cur V') -∗
     Φ tt V') -∗
  wpp (write l w) V Φ.
Proof.
  iIntros "[#Hc HS] (%ws & %rs & Ho & %Hin) HΦ". iApply wpp_write_inv.
  iMod (share_acc with "Hc HS") as "(>(%v' & %ws' & %rs' & Hl & HA & Ho') & HS & Hclose)".
  iDestruct (ghost_var_agree with "Ho Ho'") as %[= -> -> ->].
  iModIntro. iExists _, _, _. iFrame "Hl". iSplit; [done|].
  iIntros "!>" (e) "Hl". iMod (accesses_add _ _ _ _ {[Acc e]} with "HA HS") as "[HA HS]".
  iMod (ghost_var_update_halves (w, ws' ∪ {[Acc e]}, rs') with "Ho Ho'") as "[Ho Ho']".
  iMod ("Hclose" with "[Hl HA Ho']") as "_".
  { iExists _, _, _. iFrame "Hl Ho'".
    by replace (ws' ∪ {[Acc e]} ∪ rs') with (ws' ∪ rs' ∪ {[Acc e]}) by set_solver. }
  iModIntro. iApply ("HΦ" with "[%] [HS]"); [apply observe_le|by iFrame "Hc HS"|].
  iExists _, _. iFrame "Ho". iPureIntro. set_solver.
Qed.

(** ** Using an atomic

    [Pr h A] is the protocol: what holds of the writes [h] made so far; [A]
    collects what the users of the atomic had observed when they used it.
    Every user has observed [B], which includes the initialisation. *)

Definition at_inv (γ : share_name) (l : loc) (B : view) (Pr : hist → view → iProp Σ)
    : iProp Σ :=
  ∃ h N A A', l ↦ CAtomic h N A ∗ ⌜N ⊆ B⌝ ∗ accesses γ A' ∗ ⌜A ⊆ A'⌝ ∗ ⌜h ≠ ∅⌝ ∗ Pr h A'.

Definition at_share (γ : share_name) (l : loc) (B : view) (Pr : hist → view → iProp Σ)
    (q : Qp) (W : view) : iProp Σ :=
  share_cinv γ (at_inv γ l B Pr) ∗ ⌜B ⊆ W⌝ ∗ access_share γ q W.

Lemma at_share_mono γ l B Pr q W W' :
  W ⊆ W' → at_share γ l B Pr q W -∗ at_share γ l B Pr q W'.
Proof.
  iIntros (Hle) "($ & % & HS)". iSplit; [iPureIntro; by etrans|].
  by iApply (access_share_mono with "HS").
Qed.

Lemma at_share_split γ l B Pr q1 q2 W :
  at_share γ l B Pr (q1 + q2) W ⊣⊢ at_share γ l B Pr q1 W ∗ at_share γ l B Pr q2 W.
Proof.
  rewrite /at_share access_share_split. iSplit.
  - iIntros "(#Hc & % & H1 & H2)". iSplitL "H1"; by iFrame "#∗".
  - iIntros "[(#Hc & % & H1) (_ & _ & H2)]". by iFrame "#∗".
Qed.

(** A share for each element of a list. *)
Lemma at_share_each {X} γ l B Pr q W (x : X) xs :
  at_share γ l B Pr (pos_to_Qp (Pos.of_succ_nat (length xs)) * q) W ⊣⊢
  [∗ list] _ ∈ x :: xs, at_share γ l B Pr q W.
Proof.
  induction xs as [|y xs IH] in x |- *.
  - by rewrite big_sepL_singleton /= Qp.mul_1_l.
  - rewrite big_sepL_cons -(IH y) -at_share_split. cbn [length].
    by rewrite SuccNat2Pos.inj_succ Pplus_one_succ_l -pos_to_Qp_add Qp.mul_add_distr_r Qp.mul_1_l.
Qed.

Lemma at_share_deal {X} γ l B Pr (xs : list X) :
  xs ≠ [] → ∃ q, ∀ W, at_share γ l B Pr 1 W ⊣⊢ [∗ list] _ ∈ xs, at_share γ l B Pr q W.
Proof.
  destruct xs as [|x xs]; [done|]. intros _.
  exists (1 / pos_to_Qp (Pos.of_succ_nat (length xs)))%Qp. intros W.
  by rewrite -at_share_each Qp.mul_div_r.
Qed.

Lemma at_share_base γ l B Pr q W : at_share γ l B Pr q W -∗ ⌜B ⊆ W⌝.
Proof. by iIntros "(_ & % & _)". Qed.

Lemma at_share_alloc B l h N A (Pr : share_name → hist → view → iProp Σ) W E :
  N ⊆ B → B ∪ A ⊆ W → h ≠ ∅ →
  l ↦ CAtomic h N A -∗ (∀ γ, Pr γ h W) ={E}=∗ ∃ γ, at_share γ l B (Pr γ) 1 W.
Proof.
  iIntros (HN HA Hne) "Hl HPr".
  iMod (accesses_alloc W W) as (γ) "(HA & HS & Halloc)"; [done|].
  iMod ("Halloc" $! (at_inv γ l B (Pr γ)) with "[Hl HA HPr]") as "#Hc".
  { iNext. iExists h, N, A, W. iFrame "Hl HA". iSplit; [done|].
    iSplit; [iPureIntro; set_solver|]. iSplit; [done|]. iApply "HPr". }
  iModIntro. iExists γ. iFrame "Hc HS". iPureIntro. set_solver.
Qed.

Lemma at_share_cancel γ l B Pr W E :
  ↑shareN ⊆ E →
  at_share γ l B Pr 1 W ={E}=∗
  ∃ h N A A', l ↦ CAtomic h N A ∗ ⌜A ⊆ W⌝ ∗ ⌜A' ⊆ W⌝ ∗ ⌜h ≠ ∅⌝ ∗ ▷ Pr h A'.
Proof.
  iIntros (HE) "(#Hc & % & HS)".
  iMod (share_cancel with "Hc HS")
    as "[(%h & %N & %A & %A' & >Hl & _ & >HA & >% & >% & HPr) Hall]"; [done|].
  iDestruct ("Hall" with "HA") as %?. iModIntro. iExists h, N, A, A'. iFrame.
  iPureIntro. split; [by etrans|done].
Qed.

(** Recording an access [e] made with the views [W']. *)
Lemma at_inv_record γ l B Pr q W W' e h N A A' :
  N ⊆ B → A ⊆ A' → W ⊆ W' → Acc e ∈ W' → h ≠ ∅ →
  l ↦ CAtomic h N (A ∪ {[Acc e]}) -∗ accesses γ A' -∗ access_share γ q W ==∗
  access_share γ q W' ∗ (Pr h (A' ∪ W') -∗ at_inv γ l B Pr).
Proof.
  iIntros (HN HA HW He Hne) "Hl HA HS".
  iMod (accesses_add _ _ _ _ W' with "HA HS") as "[HA HS]". iModIntro. iSplitL "HS".
  { iApply (access_share_mono with "HS"). set_solver. }
  iIntros "HPr". iExists h, N, _, _. iFrame. iPureIntro. split; [done|].
  split; [set_solver|done].
Qed.

(** The rule of a read-modify-write in its general form: the share may go
    into the protocol with the step. *)
Lemma wpp_rmw_open γ l B Pr q f weak os fo V Φ :
  is_seqcst os = false → is_seqcst fo = false → B ⊆ cur V →
  share_cinv γ (at_inv γ l B Pr) -∗ access_share γ q (cur V) -∗
  ▷ (∀ h A t m e, ⌜h !! t = Some m⌝ -∗ ⌜coh_le l h (cur V) t⌝ -∗ Pr h A -∗
     (∀ z, let V' := rmw_view os l t m e V in
        ⌜f (mval m) = Some z⌝ -∗ ⌜h !! S t = None⌝ -∗
        access_share γ q (cur V') ={⊤ ∖ ↑shareN}=∗
        Pr (<[S t := rmw_msg os z m V']> h) (A ∪ cur V') ∗ Φ (mval m, true) V') ∧
     (let V' := load_view fo l t m e V in
        ⌜f (mval m) = None ∨ weak = true⌝ -∗
        access_share γ q (cur V') ={⊤ ∖ ↑shareN}=∗
        Pr h (A ∪ cur V') ∗ Φ (mval m, false) V')) -∗
  wpp (act (ORmw l f weak os fo)) V Φ.
Proof.
  iIntros (Hos Hfo HB) "#Hc HS HΦ". iApply wpp_rmw_inv; [done..|].
  iMod (share_acc with "Hc HS")
    as "((%h & %N & %A & %A' & >Hl & >%HN & >HA & >%HA & >%Hne & HPr) & HS & Hclose)".
  iModIntro. iExists h, N, A. iFrame "Hl". iSplit; [iPureIntro; by etrans|].
  iSplit; [done|].
  iIntros "!>" (t m e Hm Hle). iDestruct ("HΦ" $! h A' t m e with "[//] [//] HPr") as "HΦ".
  iSplit.
  - iIntros (z Hz Hfree) "Hl". iDestruct "HΦ" as "[HΦ _]".
    iMod (at_inv_record with "Hl HA HS") as "[HS Hat]";
      [done|done|apply rmw_view_le|apply rmw_view_acc|apply insert_non_empty|].
    iMod ("HΦ" with "[//] [//] HS") as "[HPr $]".
    iApply "Hclose". iNext. by iApply "Hat".
  - iIntros (Hf) "Hl". iDestruct "HΦ" as "[_ HΦ]".
    iMod (at_inv_record with "Hl HA HS") as "[HS Hat]";
      [done|done|apply load_view_le|apply load_view_acc|done|].
    iMod ("HΦ" with "[//] HS") as "[HPr $]". iApply "Hclose". iNext. by iApply "Hat".
Qed.

Lemma wpp_share_load γ l B Pr q o V Φ :
  is_seqcst o = false →
  at_share γ l B Pr q (cur V) -∗
  ▷ (∀ h A t m e, let V' := load_view o l t m e V in
     ⌜h !! t = Some m⌝ -∗ ⌜coh_le l h (cur V) t⌝ -∗
     Pr h A ={⊤ ∖ ↑shareN}=∗
     Pr h (A ∪ cur V') ∗ (at_share γ l B Pr q (cur V') -∗ Φ (mval m) V')) -∗
  wpp (load l o) V Φ.
Proof.
  iIntros (Ho) "(#Hc & %HB & HS) HΦ". iApply wpp_load_inv; [done|].
  iMod (share_acc with "Hc HS")
    as "((%h & %N & %A & %A' & >Hl & >%HN & >HA & >%HA & >%Hne & HPr) & HS & Hclose)".
  iModIntro. iExists h, N, A. iFrame "Hl". iSplit; [iPureIntro; by etrans|].
  iSplit; [done|].
  iIntros "!>" (t m e Hm Hle) "Hl".
  iMod (at_inv_record with "Hl HA HS") as "[HS Hat]";
    [done|done|apply load_view_le|apply load_view_acc|done|].
  iMod ("HΦ" with "[//] [//] HPr") as "[HPr HΦ]".
  iMod ("Hclose" with "[HPr Hat]") as "_"; [iNext; by iApply "Hat"|].
  iModIntro. iApply "HΦ". iFrame "#∗".
  iPureIntro. etrans; [done|apply load_view_le].
Qed.

Lemma wpp_share_store γ l B Pr q z o V Φ :
  is_seqcst o = false →
  at_share γ l B Pr q (cur V) -∗
  ▷ (∀ h A t e, let V' := store_view l t e V in
     ⌜h !! t = None⌝ -∗ ⌜coh_lt l h (cur V) t⌝ -∗
     Pr h A ={⊤ ∖ ↑shareN}=∗
     Pr (<[t := store_msg o z V']> h) (A ∪ cur V') ∗
     (at_share γ l B Pr q (cur V') -∗ Φ tt V')) -∗
  wpp (store l z o) V Φ.
Proof.
  iIntros (Ho) "(#Hc & %HB & HS) HΦ". iApply wpp_store_inv; [done|].
  iMod (share_acc with "Hc HS")
    as "((%h & %N & %A & %A' & >Hl & >%HN & >HA & >%HA & >%Hne & HPr) & HS & Hclose)".
  iModIntro. iExists h, N, A. iFrame "Hl". iSplit; [iPureIntro; by etrans|].
  iSplit; [done|].
  iIntros "!>" (t e Hfree Hlt) "Hl".
  iMod (at_inv_record with "Hl HA HS") as "[HS Hat]";
    [done|done|apply store_view_le|apply store_view_acc|apply insert_non_empty|].
  iMod ("HΦ" with "[//] [//] HPr") as "[HPr HΦ]".
  iMod ("Hclose" with "[HPr Hat]") as "_"; [iNext; by iApply "Hat"|].
  iModIntro. iApply "HΦ". iFrame "#∗".
  iPureIntro. etrans; [done|apply store_view_le].
Qed.

Lemma wpp_share_rmw γ l B Pr q f weak os fo V Φ :
  is_seqcst os = false → is_seqcst fo = false →
  at_share γ l B Pr q (cur V) -∗
  ▷ (∀ h A t m e, ⌜h !! t = Some m⌝ -∗ ⌜coh_le l h (cur V) t⌝ -∗ Pr h A -∗
     (∀ z, let V' := rmw_view os l t m e V in
        ⌜f (mval m) = Some z⌝ -∗ ⌜h !! S t = None⌝ ={⊤ ∖ ↑shareN}=∗
        Pr (<[S t := rmw_msg os z m V']> h) (A ∪ cur V') ∗
        (at_share γ l B Pr q (cur V') -∗ Φ (mval m, true) V')) ∧
     (let V' := load_view fo l t m e V in
        ⌜f (mval m) = None ∨ weak = true⌝ ={⊤ ∖ ↑shareN}=∗
        Pr h (A ∪ cur V') ∗ (at_share γ l B Pr q (cur V') -∗ Φ (mval m, false) V'))) -∗
  wpp (act (ORmw l f weak os fo)) V Φ.
Proof.
  iIntros (Hos Hfo) "(#Hc & %HB & HS) HΦ".
  iApply (wpp_rmw_open with "Hc HS"); [done..|].
  iIntros "!>" (h A t m e Hm Hle) "HPr". iDestruct ("HΦ" with "[//] [//] HPr") as "HΦ". iSplit.
  - iIntros (z Hz Hfree) "HS". iDestruct "HΦ" as "[HΦ _]".
    iMod ("HΦ" with "[//] [//]") as "[$ HΦ]". iApply "HΦ". iFrame "#∗".
    iPureIntro. etrans; [done|apply rmw_view_le].
  - iIntros (Hf) "HS". iDestruct "HΦ" as "[_ HΦ]". iMod ("HΦ" with "[//]") as "[$ HΦ]".
    iApply "HΦ". iFrame "#∗".
    iPureIntro. etrans; [done|apply load_view_le].
Qed.

Lemma wpp_share_swap γ l B Pr q z o V Φ :
  is_seqcst o = false →
  at_share γ l B Pr q (cur V) -∗
  ▷ (∀ h A t m e, let V' := rmw_view o l t m e V in
     ⌜h !! t = Some m⌝ -∗ ⌜coh_le l h (cur V) t⌝ -∗ ⌜h !! S t = None⌝ -∗
     Pr h A ={⊤ ∖ ↑shareN}=∗
     Pr (<[S t := rmw_msg o z m V']> h) (A ∪ cur V') ∗
     (at_share γ l B Pr q (cur V') -∗ Φ (mval m) V')) -∗
  wpp (swap l z o) V Φ.
Proof.
  iIntros (Ho) "Hl HΦ". iApply wpp_bind. iApply (wpp_share_rmw with "Hl"); [done..|].
  iIntros "!>" (h A t m e Hm Hle) "HPr". iSplit; [|by iIntros ([?|?])].
  iIntros (z' [= <-] Hfree). iMod ("HΦ" with "[//] [//] [//] HPr") as "[$ HΦ]".
  iIntros "!> HS". iApply wpp_ret. by iApply "HΦ".
Qed.
End shares.

(** ** Resources that are divided between threads *)

Class FracView {Σ} (P : Qp → view → iProp Σ) : Prop := {
  #[global] frac_view_mono q :: ViewMono (P q);
  frac_view_split q1 q2 W : P (q1 + q2)%Qp W ⊣⊢ P q1 W ∗ P q2 W
}.
#[export] Hint Mode FracView - ! : typeclass_instances.

Lemma frac_view_halves {Σ} (P : Qp → view → iProp Σ) `{!FracView P} W :
  P 1%Qp W ⊣⊢ P (1/2)%Qp W ∗ P (1/2)%Qp W.
Proof. by rewrite -frac_view_split Qp.half_half. Qed.

Lemma frac_view_div_2 {Σ} (P : Qp → view → iProp Σ) `{!FracView P} q W :
  P q W ⊣⊢ P (q/2)%Qp W ∗ P (q/2)%Qp W.
Proof. by rewrite -frac_view_split Qp.div_2. Qed.

#[export] Instance recorded_frac `{!rustGS Σ, !shareG Σ} γ : FracView (recorded γ).
Proof.
  split; [|intros; apply recorded_split].
  intros q W W' ?. by iApply recorded_mono.
Qed.
#[export] Instance access_share_frac `{!rustGS Σ, !shareG Σ} γ : FracView (access_share γ).
Proof.
  split; [|intros; apply access_share_split].
  intros q W W' ?. by iApply access_share_mono.
Qed.
#[export] Instance na_share_frac `{!rustGS Σ, !shareG Σ} γ γo l v :
  FracView (na_share γ γo l v).
Proof.
  split; [|intros; apply na_share_split].
  intros q W W' ?. by iApply na_share_mono.
Qed.
#[export] Instance at_share_frac `{!rustGS Σ, !shareG Σ} γ l B Pr :
  FracView (at_share γ l B Pr).
Proof.
  split; [|intros; apply at_share_split].
  intros q W W' ?. by iApply at_share_mono.
Qed.
#[export] Instance lent_share_frac `{!rustGS Σ, !shareG Σ} γ γo l :
  FracView (lent_share γ γo l).
Proof.
  split; [|intros; apply lent_share_split].
  intros q W W' ?. by iApply lent_share_mono.
Qed.
#[export] Instance sep_frac {Σ} (P Q : Qp → view → iProp Σ) :
  FracView P → FracView Q → FracView (λ q W, P q W ∗ Q q W)%I.
Proof.
  intros HP HQ. split.
  - intros q W W' ?. by rewrite (view_mono W W') // (view_mono (P := Q q) W W').
  - intros q1 q2 W. rewrite !frac_view_split. iSplit; iIntros "[[$ $] [$ $]]".
Qed.
