(* ===== verification/LockWord.v ===== *)
(** * The protocol of a lock word

    Every lock of the repository is one atomic word: 0 when free, another
    value when held.  A thread takes the lock by a read-modify-write that
    reads 0 with [Acquire] and frees it by writing 0 with [Release], with a
    store or with a swap.  This file proves the protocol once, for every such
    word: the view published with the 0 that is read carries the resource the
    lock protects, and only the newest 0 can be read by an acquisition. *)

From iris.proofmode Require Import proofmode.
From iris.base_logic.lib Require Import invariants ghost_var.
From S2P Require Import Prelude Memory History Lang Logic Rules Std.

(** ** Histories of a lock word *)

(** A write of 0 whose next timestamp is free can only be the newest write:
    every other 0 was consumed by the acquisition that follows it. *)
Definition zero_is_newest (h : hist) (tm : time) : Prop :=
  ∀ t m, h !! t = Some m → mval m = 0%Z → h !! S t = None → t = tm.

(** Writing a value other than 0 right after a write. *)
Lemma zero_is_newest_rmw h tm t m z :
  newest h tm → zero_is_newest h tm → is_Some (h !! t) → h !! S t = None →
  mval m = z → z ≠ 0%Z →
  zero_is_newest (<[S t := m]> h) (S t `max` tm).
Proof.
  intros [_ Hmax] Hz [mt Ht] Hfree <- Hne t' m' Hl Hm' Hn.
  apply lookup_insert_Some in Hl as [[<- <-]|[? Hl]]; [done|].
  apply lookup_insert_None in Hn as [Hn ?].
  assert (t' = tm) as -> by eauto. apply Hmax in Ht. simpl in Ht. lia.
Qed.

(** A write at the very end. *)
Lemma zero_is_newest_last h tm t m :
  newest h tm → zero_is_newest h tm → (∀ m', h !! tm = Some m' → mval m' ≠ 0%Z) →
  tm < t → zero_is_newest (<[t := m]> h) t.
Proof.
  intros [_ Hmax] Hz Hne Hlt t' m' Hl Hm' Hn.
  apply lookup_insert_Some in Hl as [[<- <-]|[? Hl]]; [done|].
  apply lookup_insert_None in Hn as [Hn ?]. exfalso.
  assert (t' = tm) as -> by eauto. by eapply Hne.
Qed.

(** Every value of the word is 0 (free) or one of the values [D] (held). *)
Definition word_values (D : Z → Prop) (h : hist) : Prop :=
  ∀ t m, h !! t = Some m → mval m = 0%Z ∨ D (mval m).

Lemma word_values_insert D h t m :
  word_values D h → mval m = 0%Z ∨ D (mval m) → word_values D (<[t := m]> h).
Proof. intros Hd Hm t' m' [[<- <-]|[_ ?]]%lookup_insert_Some; eauto. Qed.

Class lockG Σ := LockG { lock_timeG :: ghost_varG Σ time }.
Definition lockΣ : gFunctors := #[ghost_varΣ time].
#[export] Instance subG_lockΣ Σ : subG lockΣ Σ → lockG Σ.
Proof. solve_inG. Qed.

(** ** The invariant *)

Section lock_word.
Context `{!rustGS Σ, !lockG Σ}.
Implicit Types (V : tview) (l : loc) (R : view → iProp Σ).

Definition lockN : namespace := nroot .@ "lock".

Definition lock_state (γ : gname) (N : view) (h : hist) (tm : time) (m : msg)
    (R : view → iProp Σ) : iProp Σ :=
  (⌜mval m = 0%Z⌝ ∗ (∃ t0 : time, ghost_var γ 1 t0) ∗ R (mview m ∪ N)) ∨
  (⌜mval m ≠ 0%Z⌝ ∗ ∃ t0 : time, ghost_var γ (1/2) t0 ∗ ⌜contiguous h t0 tm⌝).

Definition lock_inv (γ : gname) (l : loc) (N : view) (D : Z → Prop) (R : view → iProp Σ)
    : iProp Σ :=
  ∃ h N0 A tm m, l ↦ CAtomic h N0 A ∗ ⌜N0 ⊆ N⌝ ∗ ⌜newest h tm⌝ ∗
    ⌜h !! tm = Some m⌝ ∗ ⌜zero_is_newest h tm⌝ ∗ ⌜word_values D h⌝ ∗
    lock_state γ N h tm m R.

(** The lock word [l] protects [R]; a thread that uses it has observed [N],
    the initialisation of the lock. *)
Definition is_lock (γ : gname) (l : loc) (N : view) (D : Z → Prop)
    (R : view → iProp Σ) : iProp Σ :=
  inv lockN (lock_inv γ l N D R).

(** The right to unlock: the holder observed its own acquisition. *)
Definition locked (γ : gname) (l : loc) (W : view) : iProp Σ :=
  ∃ t0 : time, ghost_var γ (1/2) t0 ∗ ⌜Coh l t0 ∈ W⌝.

#[global] Instance is_lock_persistent γ l N D R : Persistent (is_lock γ l N D R).
Proof. apply _. Qed.
#[global] Instance locked_timeless γ l W : Timeless (locked γ l W).
Proof. apply _. Qed.

Lemma locked_mono γ l W W' : W ⊆ W' → locked γ l W -∗ locked γ l W'.
Proof. iIntros (?) "(%t0 & Ht & %)". iExists t0. iFrame. iPureIntro. set_solver. Qed.

Lemma is_lock_alloc D R l N0 N A W E :
  N0 ⊆ N →
  l ↦ CAtomic {[0 := Msg 0 W]} N0 A -∗ R (W ∪ N) ={E}=∗ ∃ γ, is_lock γ l N D R.
Proof.
  iIntros (HN) "Hl HR". iMod (ghost_var_alloc 0) as (γ) "Hγ". iExists γ.
  iApply inv_alloc. iNext. iExists _, _, _, 0, _. iFrame "Hl".
  iSplit; [done|]. iSplit.
  { iPureIntro. split; [by rewrite lookup_singleton_eq; eauto|].
    by intros t m [<- _]%lookup_singleton_Some. }
  rewrite lookup_singleton_eq. iSplit; [done|]. iSplit.
  { iPureIntro. by intros t m [<- _]%lookup_singleton_Some. }
  iSplit.
  { iPureIntro. intros t m [_ <-]%lookup_singleton_Some. by left. }
  iLeft. simpl. by iFrame.
Qed.

(** Writing another value right after one that says that the lock is held
    leaves it as it was. *)
Lemma lock_state_rmw γ N h tm m t m1 m' R :
  newest h tm → h !! tm = Some m → h !! t = Some m1 → mval m1 ≠ 0%Z →
  h !! S t = None → mval m' ≠ 0%Z →
  lock_state γ N h tm m R -∗
  ∃ m2, ⌜<[S t := m']> h !! (S t `max` tm) = Some m2⌝ ∗
    lock_state γ N (<[S t := m']> h) (S t `max` tm) m2 R.
Proof.
  iIntros (Hnew Hm Hm1 H1 Hfree H') "Hst". destruct (decide (t = tm)) as [->|Hne].
  - simplify_eq. iExists m'. rewrite Nat.max_l; [|lia]. rewrite lookup_insert_eq.
    iSplit; [done|]. iDestruct "Hst" as "[[% _]|(_ & %t0 & Hγ & %Hco)]"; [done|].
    iRight. iSplit; [done|]. iExists t0. iFrame. iPureIntro.
    eapply contiguous_rmw in Hco; [|done..]. rewrite Nat.max_l in Hco; [done|lia].
  - assert (t < tm) as Hlt by (apply Hnew in Hm1; simpl in Hm1; lia).
    assert (S t ≠ tm) by (intros <-; congruence).
    iExists m. rewrite Nat.max_r; [|lia]. rewrite lookup_insert_ne //. iSplit; [done|].
    iDestruct "Hst" as "[H|(% & %t0 & Hγ & %Hco)]"; [by iLeft|iRight].
    iSplit; [done|]. iExists t0. iFrame. iPureIntro.
    eapply contiguous_rmw in Hco; [|done..]. rewrite Nat.max_r in Hco; [done|lia].
Qed.

(** An attempt to take the lock with a read-modify-write. *)
Lemma wpp_acquire γ l N D R `{!ViewMono R} f weak os fo V Φ :
  is_seqcst os = false → is_seqcst fo = false → is_acquire os = true →
  (∀ v z, f v = Some z → z ≠ 0%Z ∧ D z) →
  N ⊆ cur V →
  is_lock γ l N D R -∗
  (∀ v (ok : bool) V', ⌜V ⊆ V'⌝ -∗ ⌜v = 0%Z ∨ D v⌝ -∗ ⌜if ok then is_Some (f v) else f v = None ∨ weak = true⌝ -∗
     (if ok && (v =? 0)%Z then locked γ l (cur V') ∗ R (cur V') else True) -∗
     Φ (v, ok) V') -∗
  wpp (act (ORmw l f weak os fo)) V Φ.
Proof.
  iIntros (Hos Hfo Hacq Hf HN) "#Hinv HΦ". iApply wpp_rmw_inv; [done..|].
  iInv "Hinv" as (h N0 A tm m) "(>Hl & >%HN0 & >%Hnew & >%Hm & >%Hz & >%Hd & Hst)" "Hclose".
  iModIntro. iExists h, N0, A. iFrame "Hl". iSplit; [iPureIntro; by etrans|]. iSplit.
  { iPureIntro. intros ->. by rewrite lookup_empty in Hm. }
  iIntros "!>" (t m' e Hm' Hc). iSplit; last first.
  { iIntros (Hfail) "Hl". iMod ("Hclose" with "[Hl Hst]") as "_".
    { iExists _, _, _, _, _. by iFrame. }
    iModIntro. iApply ("HΦ" $! _ false with "[%] [%] [//]"); [apply load_view_le|eauto|done]. }
  iIntros (z Hfz Hfree) "Hl". destruct (Hf _ _ Hfz) as [Hz0 HD].
  set (V' := rmw_view os l t m' e V). set (m'' := rmw_msg os z m' V').
  assert (newest (<[S t := m'']> h) (S t `max` tm)) as Hnew'
    by by apply newest_insert.
  assert (zero_is_newest (<[S t := m'']> h) (S t `max` tm)) as Hz'
    by (by eapply zero_is_newest_rmw).
  assert (word_values D (<[S t := m'']> h)) as Hd'
    by (apply word_values_insert; [done|by right]).
  destruct (decide (mval m' = 0%Z)) as [H0|H0].
  - (* the lock was free: [m'] is the newest write *)
    assert (t = tm) as -> by eauto. simplify_eq.
    iDestruct "Hst" as "[(_ & (%t0 & Hγ) & HR)|(% & _)]"; [|done].
    iMod (ghost_var_update (S tm) with "Hγ") as "[Hγ Hγ']".
    rewrite Nat.max_l in Hnew' Hz'; [|lia..].
    iMod ("Hclose" with "[Hl Hγ]") as "_".
    { iExists _, _, _, (S tm), m''. iFrame "Hl". rewrite lookup_insert_eq.
      do 5 (iSplit; [done|]). iRight. iSplit; [done|]. iExists _. iFrame "Hγ".
      iPureIntro. split; [lia|]. intros t' ?. replace t' with (S tm) by lia.
      rewrite lookup_insert_eq. eauto. }
    iModIntro. iApply ("HΦ" $! _ true with "[%] [%] [%]"); [apply rmw_view_le|by eauto..|].
    rewrite H0 /=. iSplitL "Hγ'".
    + iExists _. iFrame. iPureIntro. apply rmw_view_coh.
    + iApply (view_mono with "HR"). apply union_least; [by apply rmw_view_acq|].
      etrans; [done|apply rmw_view_le].
  - (* the lock was held: the write changes nothing *)
    iDestruct (lock_state_rmw _ _ _ _ _ t m' m'' with "Hst") as (m2) "[%Hm2 Hst]"; [done..|].
    iMod ("Hclose" with "[Hl Hst]") as "_"; [iExists _, _, _, _, m2; by iFrame|].
    iModIntro. iApply ("HΦ" $! _ true with "[%] [%] [%]"); [apply rmw_view_le|by eauto..|].
    rewrite (proj2 (Z.eqb_neq _ _) H0) /=. done.
Qed.
(** The two ways the source takes a lock. *)
Lemma wpp_acquire_swap γ l N D R `{!ViewMono R} z V Φ :
  z ≠ 0%Z → D z → N ⊆ cur V →
  is_lock γ l N D R -∗
  (∀ v V', ⌜V ⊆ V'⌝ -∗ ⌜v = 0%Z ∨ D v⌝ -∗
     (if (v =? 0)%Z then locked γ l (cur V') ∗ R (cur V') else True) -∗ Φ v V') -∗
  wpp (swap l z Acquire) V Φ.
Proof.
  iIntros (Hz HD HN) "#Hlk HΦ". iApply wpp_bind.
  iApply (wpp_acquire with "Hlk"); [done..|naive_solver|done|].
  iIntros (v ok V' Hle Hv Hok) "H". iApply wpp_ret. iApply ("HΦ" with "[//] [//]").
  destruct ok; [done|]. by destruct Hok.
Qed.

Lemma wpp_acquire_cas γ l N D R `{!ViewMono R} weak z V Φ :
  z ≠ 0%Z → D z → N ⊆ cur V →
  is_lock γ l N D R -∗
  (∀ v (ok : bool) V', ⌜V ⊆ V'⌝ -∗ ⌜v = 0%Z ∨ D v⌝ -∗
     (if ok then locked γ l (cur V') ∗ R (cur V') else True) -∗ Φ (v, ok) V') -∗
  wpp (act (ORmw l (cas_fun 0 z) weak Acquire Relaxed)) V Φ.
Proof.
  iIntros (Hz HD HN) "#Hlk HΦ". iApply (wpp_acquire with "Hlk"); [done..| |done|].
  { intros v z'. rewrite /cas_fun. case_match; naive_solver. }
  iIntros (v ok V' Hle Hv Hok) "H". iApply ("HΦ" with "[//] [//]"). destruct ok; [|done].
  destruct Hok as [z' Hz']. revert Hz'. rewrite /cas_fun.
  by destruct (v =? 0)%Z.
Qed.

(** Freeing the lock: a write of 0 at [t], later than the acquisition. *)
Lemma lock_inv_release γ l N D R `{!ViewMono R} h N0 A tm t0 t W :
  N0 ⊆ N → newest h tm → zero_is_newest h tm → word_values D h → (∀ m, h !! tm = Some m → mval m ≠ 0%Z) →
  tm < t →
  l ↦ CAtomic (<[t := Msg 0 W]> h) N0 A -∗ ghost_var γ 1 (t0 : time) -∗ R W -∗
  lock_inv γ l N D R.
Proof.
  iIntros (HN Hnew Hz Hd Hne Hlt) "Hl Hγ HR". iExists _, _, _, t, (Msg 0 W). iFrame "Hl".
  rewrite lookup_insert_eq. iSplit; [done|]. iSplit.
  { iPureIntro. replace t with (t `max` tm) at 2 by lia. by apply newest_insert. }
  iSplit; [done|]. iSplit.
  { iPureIntro. by eapply zero_is_newest_last. }
  iSplit.
  { iPureIntro. apply word_values_insert; [done|by left]. }
  iLeft. iSplit; [done|]. iFrame "Hγ". iApply (view_mono with "HR").
  apply union_subseteq_l.
Qed.

(** The holder's view of an opened invariant. *)
Lemma lock_state_held γ l N W h tm m R :
  newest h tm → h !! tm = Some m →
  locked γ l W -∗ lock_state γ N h tm m R -∗
  ⌜mval m ≠ 0%Z⌝ ∗ ∃ t0, ghost_var γ 1 t0 ∗ ⌜Coh l t0 ∈ W⌝ ∗ ⌜contiguous h t0 tm⌝.
Proof.
  iIntros (Hnew Hm) "(%t1 & H1 & %) [(_ & (%t0 & H) & _)|(% & %t0 & H & %)]".
  - by iDestruct (ghost_var_valid_2 with "H H1") as %[? _].
  - iDestruct (ghost_var_agree with "H H1") as %->. iCombine "H H1" as "H".
    iSplit; [done|]. iExists t1. by iFrame.
Qed.

Lemma wpp_release_store γ l N D R `{!ViewMono R} V Φ :
  N ⊆ cur V →
  is_lock γ l N D R -∗ locked γ l (cur V) -∗ R (cur V) -∗
  (∀ V', ⌜V ⊆ V'⌝ -∗ Φ tt V') -∗
  wpp (store l 0 Release) V Φ.
Proof.
  iIntros (HN) "#Hinv Hlk HR HΦ". iApply wpp_store_inv; [done|].
  iInv "Hinv" as (h N0 A tm m) "(>Hl & >%HN0 & >%Hnew & >%Hm & >%Hz & >%Hd & Hst)" "Hclose".
  iModIntro. iExists h, N0, A. iFrame "Hl". iSplit; [iPureIntro; by etrans|]. iSplit.
  { iPureIntro. intros ->. by rewrite lookup_empty in Hm. }
  iIntros "!>" (t e Hfree Hlt) "Hl".
  iDestruct (lock_state_held with "Hlk Hst") as (Hne) "(%t0 & Hγ & %Hcoh & %Hco)"; [done..|].
  assert (t0 < t) as Ht0.
  { destruct (proj2 Hco t0) as [m0 Hm0]; [split; [lia|apply Hco]|]. by apply (Hlt t0 m0). }
  iMod ("Hclose" with "[Hl Hγ HR]") as "_".
  { iNext. iApply (lock_inv_release with "Hl Hγ"); [done|done|done|done|by naive_solver|..].
    - eapply contiguous_free; [done| |done]. lia.
    - iApply (view_mono with "HR"). apply store_view_le. }
  iModIntro. iApply "HΦ". iPureIntro. apply store_view_le.
Qed.

(** The swap returns the value that marked the lock as held. *)
Lemma wpp_release_swap γ l N D R `{!ViewMono R} V Φ :
  N ⊆ cur V →
  is_lock γ l N D R -∗ locked γ l (cur V) -∗ R (cur V) -∗
  (∀ v V', ⌜V ⊆ V'⌝ -∗ ⌜D v⌝ -∗ Φ v V') -∗
  wpp (swap l 0 Release) V Φ.
Proof.
  iIntros (HN) "#Hinv Hlk HR HΦ". iApply wpp_swap_inv; [done|].
  iInv "Hinv" as (h N0 A tm m) "(>Hl & >%HN0 & >%Hnew & >%Hm & >%Hz & >%Hd & Hst)" "Hclose".
  iModIntro. iExists h, N0, A. iFrame "Hl". iSplit; [iPureIntro; by etrans|]. iSplit.
  { iPureIntro. intros ->. by rewrite lookup_empty in Hm. }
  iIntros "!>" (t m' e Hm' Hle Hfree) "Hl".
  iDestruct (lock_state_held with "Hlk Hst") as (Hne) "(%t0 & Hγ & %Hcoh & %Hco)"; [done..|].
  assert (t0 ≤ t) as Ht0.
  { destruct (proj2 Hco t0) as [m0 Hm0]; [split; [lia|apply Hco]|]. by apply (Hle t0 m0). }
  assert (tm < S t) as Hlt.
  { eapply contiguous_free; [done| |done]. lia. }
  assert (t = tm) as ->.
  { destruct Hnew as [_ Hmax]. apply Hmax in Hm'. simpl in Hm'. lia. }
  simplify_eq. iMod ("Hclose" with "[Hl Hγ HR]") as "_".
  { iNext. iApply (lock_inv_release with "Hl Hγ"); [done|done|done|done|by naive_solver|lia|].
    iApply (view_mono with "HR"). etrans; [|apply union_subseteq_l]. apply rmw_view_le. }
  iModIntro. iApply ("HΦ" with "[%] [%]"); [apply rmw_view_le|].
  by destruct (Hd tm m).
Qed.

(** Reading the word, whoever holds the lock. *)
Lemma wpp_lock_load γ l N D R o V Φ :
  is_seqcst o = false → N ⊆ cur V →
  is_lock γ l N D R -∗
  (∀ v V', ⌜V ⊆ V'⌝ -∗ ⌜v = 0%Z ∨ D v⌝ -∗ Φ v V') -∗
  wpp (load l o) V Φ.
Proof.
  iIntros (Ho HN) "#Hinv HΦ". iApply wpp_load_inv; [done|].
  iInv "Hinv" as (h N0 A tm m) "(>Hl & >%HN0 & >%Hnew & >%Hm & >%Hz & >%Hd & Hst)" "Hclose".
  iModIntro. iExists h, N0, A. iFrame "Hl". iSplit; [iPureIntro; by etrans|]. iSplit.
  { iPureIntro. intros ->. by rewrite lookup_empty in Hm. }
  iIntros "!>" (t m' e Hm' Hc) "Hl". iMod ("Hclose" with "[Hl Hst]") as "_".
  { iExists _, _, _, _, _. by iFrame. }
  iModIntro. iApply ("HΦ" with "[%] [%]"); [apply load_view_le|eauto].
Qed.
End lock_word.

#[global] Typeclasses Opaque is_lock locked.
