(* ===== verification/LockApi.v ===== *)
(** * The interface of a lock

    [SpinLock<T>] and the three versions of [Mutex<T>] have the same shape: a
    lock word and a value, [new], [lock], and the release done by the drop of
    the guard.  [LockImpl] holds the operations, [LockSpec] what a client may
    rely on; the counting benchmark of chapter 9 is verified against it. *)

From iris.proofmode Require Import proofmode.
From iris.base_logic.lib Require Import invariants ghost_var token.
From S2P Require Import Prelude Memory Lang Logic Rules Std LockWord.

(** [SpinLock<T> { locked, value }], [Mutex<T> { state, value }] *)
Record lock_obj : Type := LockObj { word : loc; value : loc }.

Class LockImpl : Type := {
  lock_new : val → prog lock_obj;
  lock_acquire : lock_obj → prog unit;
  lock_drop : lock_obj → prog unit;
  (** the values of the word that mean "held" *)
  lock_held : Z → Prop
}.

Section api.
Context `{!rustGS Σ, !lockG Σ, I : LockImpl}.

(** What the lock protects: the value, and the client's invariant on it. *)
Definition protected (p : loc) (P : val → iProp Σ) (W : view) : iProp Σ :=
  ∃ v, own_na p v W ∗ P v.

#[global] Instance protected_mono p P : ViewMono (protected p P).
Proof.
  intros W W' Hle. iIntros "(%v & Hv & $)". by iApply (own_na_mono with "Hv").
Qed.

Definition is_mutex (γ : gname) (x : lock_obj) (W : view) (P : val → iProp Σ)
    : iProp Σ :=
  ∃ N, ⌜N ⊆ W⌝ ∗ is_lock γ (word x) N lock_held (protected (value x) P).

#[global] Instance is_mutex_persistent γ x W P : Persistent (is_mutex γ x W P).
Proof. apply _. Qed.

Lemma is_mutex_mono γ x W W' P : W ⊆ W' → is_mutex γ x W P -∗ is_mutex γ x W' P.
Proof. iIntros (?) "(%N & % & $)". iPureIntro. by etrans. Qed.

(** The guard: the lock is held and its value is accessible. *)
Definition guard (γ : gname) (x : lock_obj) (W : view) (P : val → iProp Σ)
    : iProp Σ :=
  locked γ (word x) W ∗ protected (value x) P W.
End api.

Class LockSpec `{!rustGS Σ, !lockG Σ} (I : LockImpl) : Prop := {
  lock_new_spec P v V Φ :
    P v -∗
    (∀ γ x V', ⌜V ⊆ V'⌝ -∗ is_mutex γ x (cur V') P -∗ Φ x V') -∗
    wpp (lock_new v) V Φ;
  lock_acquire_spec γ x P V Φ :
    is_mutex γ x (cur V) P -∗
    (∀ V', ⌜V ⊆ V'⌝ -∗ guard γ x (cur V') P -∗ Φ tt V') -∗
    wpp (lock_acquire x) V Φ;
  lock_drop_spec γ x P V Φ :
    is_mutex γ x (cur V) P -∗ guard γ x (cur V) P -∗
    (∀ V', ⌜V ⊆ V'⌝ -∗ Φ tt V') -∗
    wpp (lock_drop x) V Φ
}.

(** Allocating the two fields, as every [new] does. *)
Definition new_lock_obj (v : val) : prog lock_obj :=
  w ← atomic_new 0;
  p ← new_cell v;
  mret (LockObj w p).

Lemma wpp_new_lock_obj `{!rustGS Σ, !lockG Σ, I : LockImpl} (P : val → iProp Σ) v V Φ :
  P v -∗
  (∀ γ x V', ⌜V ⊆ V'⌝ -∗ is_mutex γ x (cur V') P -∗ Φ x V') -∗
  wpp (new_lock_obj v) V Φ.
Proof.
  iIntros "HP HΦ". iApply wpp_bind. iApply wpp_alloc_atomic.
  iIntros "!>" (w e) "Hw". set (V1 := observe _ _ V).
  iApply wpp_bind. iApply wpp_new. iIntros "!>" (p V2 Hle) "Hp".
  iMod (is_lock_alloc lock_held (protected p P) w _ (cur V2) with "Hw [Hp HP]") as (γ) "#Hlk".
  { etrans; [|apply Hle]. set_solver. }
  { iExists v. iFrame "HP". iApply (own_na_mono with "Hp"). set_solver. }
  iApply wpp_ret. iApply ("HΦ" $! γ with "[%]").
  { etrans; [apply observe_le|done]. }
  iExists (cur V2). by iSplit.
Qed.

(** ** Using a lock *)

(** A block that holds a guard: the guard is dropped when the block ends,
    also by a panic. *)
Definition with_guard `{LockImpl} {A} (x : lock_obj) (body : prog A) : prog A :=
  lock_acquire x;;
  with_drop (lock_drop x) body.

Lemma wpp_with_guard `{!rustGS Σ, !lockG Σ, I : LockImpl, !LockSpec I} {A}
    γ x P (body : prog A) V Φ :
  is_mutex γ x (cur V) P -∗
  (∀ v V', ⌜V ⊆ V'⌝ -∗ own_na (value x) v (cur V') -∗ P v -∗
     wpp body V' (λ a V2, ∃ v', own_na (value x) v' (cur V2) ∗ P v' ∗
       ∀ V3, ⌜V2 ⊆ V3⌝ -∗ Φ a V3)) -∗
  wpp (with_guard x body) V Φ.
Proof.
  iIntros "#Hm Hbody". iApply wpp_bind. iApply (lock_acquire_spec with "Hm").
  iIntros (V1 Hle1) "[Hlk (%v & Hv & HP)]".
  iApply wpp_with_drop. iApply (wpp_wand with "[Hbody Hv HP]").
  { iApply ("Hbody" with "[//] Hv HP"). }
  iIntros (a V2 Hle2) "(%v' & Hv & HP & HΦ)".
  iApply (lock_drop_spec with "[] [Hlk Hv HP]").
  { iApply (is_mutex_mono with "Hm"). etrans; [apply Hle1|apply Hle2]. }
  { iSplitL "Hlk"; [iApply (locked_mono with "Hlk"); apply Hle2|].
    iExists v'. iFrame. }
  iIntros (V3 Hle3). by iApply "HΦ".
Qed.

(** [*m.lock() += 1] *)
Definition lock_incr `{LockImpl} (m : lock_obj) : prog unit :=
  with_guard m (add_assign_i32 (value m) 1).

(** The benchmark of chapter 9 for [k] threads of [n] increments each. *)
Definition bench `{LockImpl} (k n : nat) : prog unit :=
  m ← lock_new (VInt 0);
  _ ← clock;
  scope (replicate k (for_range 0 n (λ _, lock_incr m))) (mret ());;
  duration ← clock;
  with_guard m (
    v ← read (value m);
    println "locked {} times in {:?}" [v; duration]).

(** *** Counting the increments

    Each thread owns a counter of its own; the lock protects their sum. *)

Lemma sum_list_insert (ns : list nat) i n :
  ns !! i = Some n → sum_list (<[i := S n]> ns) = S (sum_list ns).
Proof.
  revert i. induction ns as [|m ns IH]; intros [|i] Hi; simplify_eq/=; [lia|].
  rewrite IH //.
Qed.

Lemma sum_list_le (ns : list nat) n :
  Forall (λ m, m ≤ n) ns → sum_list ns ≤ length ns * n.
Proof. induction 1; simpl; lia. Qed.

Lemma sum_list_lt (ns : list nat) i n m :
  Forall (λ m, m ≤ n) ns → ns !! i = Some m → m < n → sum_list ns < length ns * n.
Proof.
  intros Hall. revert i. induction Hall as [|m' ns Hm' Hall IH]; intros [|i] Hi Hlt;
    simplify_eq/=.
  - apply sum_list_le in Hall. lia.
  - specialize (IH _ Hi Hlt). lia.
Qed.

Section counting.
Context `{!rustGS Σ, !lockG Σ}.

Definition shares (γs : list gname) (ns : list nat) : iProp Σ :=
  [∗ list] γ;n ∈ γs;ns, ghost_var γ (1/2) n.

(** The value under the lock is the sum of the counters, each at most [n]. *)
Definition counted (n : nat) (γs : list gname) (v : val) : iProp Σ :=
  ∃ ns, ⌜v = VInt (Z.of_nat (sum_list ns))⌝ ∗ ⌜Forall (λ m, m ≤ n) ns⌝ ∗ shares γs ns.

Lemma shares_alloc k :
  ⊢ |==> ∃ γs, ⌜length γs = k⌝ ∗ shares γs (replicate k 0) ∗
    [∗ list] γ ∈ γs, ghost_var γ (1/2) 0.
Proof.
  iInduction k as [|k] "IH"; simpl.
  { iModIntro. iExists []. rewrite /shares /=. by iSplit. }
  iMod "IH" as (γs) "(%Hlen & Hs & Hl)". iMod (ghost_var_alloc 0) as (γ) "[H1 H2]".
  iModIntro. iExists (γ :: γs). iSplit; [by rewrite /= Hlen|]. rewrite /shares /=.
  iFrame.
Qed.

Lemma counted_incr n γs i γ m v :
  γs !! i = Some γ → m < n →
  counted n γs v -∗ ghost_var γ (1/2) m ==∗
  ∃ z, ⌜v = VInt z⌝ ∗ ⌜(0 <= z < Z.of_nat (length γs * n))%Z⌝ ∗
    counted n γs (VInt (z + 1)) ∗ ghost_var γ (1/2) (S m).
Proof.
  iIntros (Hi Hlt) "(%ns & -> & %Hall & Hs) Hγ".
  iDestruct (big_sepL2_length with "Hs") as %Hlen.
  destruct (ns !! i) as [m'|] eqn:Hn; last first.
  { apply lookup_ge_None in Hn. apply lookup_lt_Some in Hi. lia. }
  iDestruct (big_sepL2_insert_acc with "Hs") as "[Hs Hclose]"; [done..|].
  iDestruct (ghost_var_agree with "Hs Hγ") as %->.
  iMod (ghost_var_update_halves (S m) with "Hs Hγ") as "[Hs $]".
  iDestruct ("Hclose" $! γ (S m) with "Hs") as "Hs". rewrite list_insert_id //.
  iModIntro. iExists _. iSplit; [done|]. iSplit.
  { iPureIntro. pose proof (sum_list_lt _ _ _ _ Hall Hn Hlt). lia. }
  iExists (<[i := S m]> ns). iFrame "Hs". iSplit; iPureIntro.
  - rewrite (sum_list_insert _ _ m) //. f_equal. lia.
  - by apply Forall_insert; [|lia].
Qed.

Lemma counted_total n γs v :
  counted n γs v -∗ ([∗ list] γ ∈ γs, ghost_var γ (1/2) n) -∗
  ⌜v = VInt (Z.of_nat (length γs * n))⌝.
Proof.
  iIntros "(%ns & -> & _ & Hs) Hγs".
  iAssert ⌜sum_list ns = (length γs * n)%nat⌝%I as %->; [|done].
  iInduction γs as [|γ γs] "IH" forall (ns); destruct ns as [|m ns]; try done.
  iDestruct "Hs" as "[Hm Hs]". iDestruct "Hγs" as "[Hγ Hγs]".
  iDestruct (ghost_var_agree with "Hm Hγ") as %->.
  iDestruct ("IH" with "Hs Hγs") as %Hsum. iPureIntro. simpl. lia.
Qed.

Context `{!tokenG Σ, I : LockImpl, !LockSpec I}.

Lemma wpp_lock_incr γ m n γs i γi j V Φ :
  γs !! i = Some γi → j < n → (Z.of_nat (length γs * n) <= i32_MAX)%Z →
  is_mutex γ m (cur V) (counted n γs) -∗ ghost_var γi (1/2) j -∗
  (∀ V', ⌜V ⊆ V'⌝ -∗ ghost_var γi (1/2) (S j) -∗ Φ tt V') -∗
  wpp (lock_incr m) V Φ.
Proof.
  iIntros (Hi Hj Hmax) "#Hm Hγ HΦ". iApply (wpp_with_guard with "Hm").
  iIntros (v V1 Hle1) "Hv HP".
  iMod (counted_incr with "HP Hγ") as (z -> Hz) "[HP Hγ]"; [done..|].
  iApply (wpp_add_assign_i32 with "Hv").
  { rewrite /i32_MIN. lia. }
  iIntros (V2 Hle2) "Hv". iExists _. iFrame "Hv HP".
  iIntros (V3 Hle3). iApply ("HΦ" with "[%] Hγ"). do 2 (etrans; [done|]). done.
Qed.

Lemma wpp_bench_thread γ m n γs i γi V :
  γs !! i = Some γi → (Z.of_nat (length γs * n) <= i32_MAX)%Z →
  is_mutex γ m (cur V) (counted n γs) -∗ ghost_var γi (1/2) 0 -∗
  wpp (for_range 0 n (λ _, lock_incr m)) V (λ _ _, ghost_var γi (1/2) n).
Proof.
  iIntros (Hi Hmax) "#Hm Hγ".
  iApply (wpp_for_range (λ j _, ghost_var γi (1/2) (Z.to_nat j)) with "[] [Hγ]"); [|done|].
  - iIntros "!>" (j V' Hle Hj) "Hγ".
    iApply (wpp_lock_incr γ m n γs i γi with "[] Hγ"); [done|lia|done|..].
    { iApply (is_mutex_mono with "Hm"). apply Hle. }
    iIntros (V2 _) "Hγ". by replace (Z.to_nat (j + 1)) with (S (Z.to_nat j)) by lia.
  - iIntros (V' _) "Hγ". by rewrite Z.add_0_l Nat2Z.id.
Qed.

Lemma wpp_bench k n V :
  (Z.of_nat (k * n) <= i32_MAX)%Z →
  printed [] -∗
  wpp (bench k n) V (λ _ _, ∃ d, printed
    [("locked {} times in {:?}"%string, [VInt (Z.of_nat (k * n)); VInt d])]).
Proof.
  iIntros (Hmax) "Hp". iMod (shares_alloc k) as (γs) "(%Hlen & Hs & Hγs)". subst k.
  iApply wpp_bind. iApply (lock_new_spec (counted n γs) with "[Hs]").
  { iExists _. iFrame "Hs". iSplit; iPureIntro.
    - by rewrite sum_list_replicate Nat.mul_0_r.
    - apply Forall_replicate. lia. }
  iIntros (γ m V1 Hle1) "#Hm". iApply wpp_bind. iApply wpp_clock. iIntros (z).
  iApply wpp_bind. rewrite replicate_as_fmap.
  iApply (wpp_scope _ _ _ (λ γi _, ghost_var γi (1/2) n)
    (λ _ _, True)%I with "[Hγs] []").
  { iApply (big_sepL_impl with "Hγs"). iIntros "!>" (i γi Hi) "Hγ".
    iIntros (V' Hle). iApply (wpp_bench_thread γ m n γs i with "[] Hγ"); [done..|].
    by iApply (is_mutex_mono with "Hm"). }
  { iIntros (V' _). by iApply wpp_ret. }
  iIntros ([] V2 V3 Hle2 Hle3) "_ Hγs". iApply wpp_bind. iApply wpp_clock. iIntros (d).
  iApply (wpp_with_guard with "[]").
  { iApply (is_mutex_mono with "Hm"). etrans; [apply Hle2|apply Hle3]. }
  iIntros (v V4 Hle4) "Hv HP". iDestruct (counted_total with "HP Hγs") as %->.
  iApply wpp_bind. iApply (wpp_read with "Hv"). iIntros "!>" (V5 Hle5) "Hv".
  iApply (wpp_println with "Hp"). iIntros "!> Hp". iExists _. iFrame "Hv HP".
  iIntros (V6 _). iExists d. iFrame.
Qed.
End counting.

(** The closed form of the benchmark: whatever the schedule and the memory
    choose, it has no data race and prints the number of increments. *)
Lemma bench_safe `{I : LockImpl} k n :
  (∀ Σ `{!rustGS Σ, !lockG Σ}, LockSpec I) →
  (Z.of_nat (k * n) <= i32_MAX)%Z →
  safe (bench k n) (λ _, True) (λ o σ, o = Ok tt ∧ ∃ d,
    out σ = [("locked {} times in {:?}"%string, [VInt (Z.of_nat (k * n)); VInt d])]).
Proof.
  intros HI Hmax. apply (safe_no_panic #[rustΣ; lockΣ; tokenΣ] _ (λ os, ∃ d,
    os = [("locked {} times in {:?}"%string, [VInt (Z.of_nat (k * n)); VInt d])])).
  iIntros (?) "Hp _". iApply (wpp_wand with "[Hp]").
  { by iApply (wpp_bench with "Hp"). }
  iIntros ([] V _) "(%d & Hp)". iExists _. iFrame "Hp". eauto.
Qed.
