(* ===== verification/StdSync.v ===== *)
(** * [std::sync::Mutex] and [Condvar]

    As far as the programs of the repository use them: a mutex with its
    poison flag, which a panic in a critical section sets and [unwrap]
    turns into a panic, and a condition variable as a counter of
    notifications, whose waiters may also wake up for no reason. *)

From iris.proofmode Require Import proofmode.
From iris.base_logic.lib Require Import invariants ghost_var.
From S2P Require Import Prelude Memory History Lang Logic Rules Std RmwCell LockWord.

(** ** The code *)

Record Mutex : Type := MkMutex { m_locked : loc; m_poison : loc; m_data : loc }.

Definition mutex_new (v : val) : prog Mutex :=
  d ← new_cell v; p ← atomic_new 0; l ← atomic_new 0; mret (MkMutex l p d).

Definition raw_lock (m : Mutex) : prog unit :=
  while_loop (swap_bool (m_locked m) true Acquire) spin_loop.
Definition raw_unlock (m : Mutex) : prog unit := store_bool (m_locked m) false Release.

Definition poison_error : string := "called `Result::unwrap()` on an `Err` value: PoisonError".

(** Once the lock is taken: [unwrap] of the result. *)
Definition unwrap_guard (m : Mutex) : prog unit :=
  p ← load_bool (m_poison m) Relaxed;
  if (p : bool) then raw_unlock m;; Panic poison_error else mret ().

(** [m.lock().unwrap()] *)
Definition lock_unwrap (m : Mutex) : prog unit := raw_lock m;; unwrap_guard m.

(** The guard is dropped; when a panic does it, the mutex is poisoned. *)
Definition drop_guard {A} (m : Mutex) (o : outcome A) : prog A :=
  match o with
  | Ok a => raw_unlock m;; mret a
  | Panicked e => store_bool (m_poison m) true Relaxed;; raw_unlock m;; Panic e
  end.

(** A block that holds the guard. *)
Definition guarded {A} (m : Mutex) (body : prog A) : prog A :=
  lock_unwrap m;; catch body (drop_guard m).

(** [Condvar::new] *)
Definition condvar_new : prog loc := atomic_new 0.
Definition notify_one (c : loc) : prog unit := _ ← fetch_add u32_modulus c 1 Relaxed; mret ().

(** [c.wait(guard).unwrap()] *)
Definition wait_unwrap (c : loc) (m : Mutex) : prog unit :=
  v ← load c Relaxed;
  raw_unlock m;;
  while_loop (v' ← load c Relaxed; spurious ← act OInput;
    mret ((v' =? v) && (spurious =? 0))%Z) (mret ());;
  lock_unwrap m.

(** [VecDeque] *)
Definition push_back (p : loc) (v : val) : prog unit := vec_push p v.
Definition pop_front (p : loc) : prog (option val) :=
  l ← read_list p;
  match l with
  | [] => mret None
  | v :: l => write p (VList l);; mret (Some v)
  end.

(** ** An atomic with one owner is stored to *)

Section own_at.
Context `{!rustGS Σ}.

Lemma wpp_at_store l z z' o V Φ :
  is_seqcst o = false → own_at l z (cur V) -∗
  (∀ V', ⌜V ⊆ V'⌝ -∗ own_at l z' (cur V') -∗ Φ tt V') -∗ wpp (store l z' o) V Φ.
Proof.
  iIntros (Ho) "(%h & %N & %A & %t & %m & Hl & %HA & %Hnew & %Hm & %Hz & %Ht) HΦ".
  iApply (wpp_store_inv ⊤); [done|]. iModIntro. iExists h, N, A. iFrame "Hl".
  iSplit; [iPureIntro; set_solver|]. iSplit.
  { iPureIntro. intros ->. by rewrite lookup_empty in Hm. }
  iIntros "!>" (t' e Hfree Hcoh) "Hl !>". pose proof (Hcoh _ _ Hm Ht) as Hlt.
  pose proof (store_view_le l t' e V) as Hle'. iApply ("HΦ" with "[//]").
  iExists _, N, _, t', _. iFrame "Hl". rewrite lookup_insert_eq. iPureIntro.
  split_and!; [| |done|done|apply store_view_coh].
  - pose proof (store_view_acc l t' e V). destruct Hle'. set_solver.
  - pose proof (newest_insert h t t' (store_msg o z' (store_view l t' e V)) Hnew) as Hn.
    by rewrite Nat.max_l in Hn; [|lia].
Qed.
End own_at.

(** ** The mutex *)

Section mutex.
Context `{!rustGS Σ, !lockG Σ}.
(** [P] is protected; [sound] promises that no critical section panics. *)
Context (sound : bool) (P : loc → view → iProp Σ) `{!∀ d, ViewMono (P d)}.
Implicit Types (m : Mutex) (N : view) (V : tview).

Definition mutex_res m (W : view) : iProp Σ :=
  own_at (m_poison m) 0 W ∗ P (m_data m) W ∨ ⌜sound = false⌝ ∗ own_at (m_poison m) 1 W.

#[global] Instance mutex_res_mono m : ViewMono (mutex_res m).
Proof.
  intros W W' Hle. iIntros "[[Hp HP]|[% Hp]]".
  - iLeft. iSplitL "Hp"; [by iApply (view_mono with "Hp")|by iApply (view_mono with "HP")].
  - iRight. iSplit; [done|]. by iApply (view_mono with "Hp").
Qed.

Definition is_mutex γ m (W : view) : iProp Σ :=
  ∃ N, ⌜N ⊆ W⌝ ∗ is_lock γ (m_locked m) N (λ z, z = 1%Z) (mutex_res m).

(** The thread holds the lock, which is not poisoned. *)
Definition holds γ m V : iProp Σ :=
  locked γ (m_locked m) (cur V) ∗ own_at (m_poison m) 0 (cur V).

#[global] Instance is_mutex_persistent γ m W : Persistent (is_mutex γ m W).
Proof. apply _. Qed.

Lemma std_mutex_mono γ m W W' : W ⊆ W' → is_mutex γ m W -∗ is_mutex γ m W'.
Proof. iIntros (?) "(%N & % & $)". iPureIntro. by etrans. Qed.

Lemma holds_mono γ m V V' : V ⊆ V' → holds γ m V -∗ holds γ m V'.
Proof.
  iIntros (Hle) "[Hl Hp]". iSplitL "Hl"; [iApply (locked_mono with "Hl")|iApply (view_mono with "Hp")];
    apply Hle.
Qed.

Lemma wpp_mutex_new v V Φ :
  (∀ d V', ⌜V ⊆ V'⌝ -∗ own_na d v (cur V') ={⊤}=∗ P d (cur V')) -∗
  (∀ γ m V', ⌜V ⊆ V'⌝ -∗ is_mutex γ m (cur V') -∗ Φ m V') -∗
  wpp (mutex_new v) V Φ.
Proof.
  iIntros "HP HΦ". iApply wpp_bind. iApply wpp_new. iIntros "!>" (d V1 Hle1) "Hd".
  iApply wpo_fupd. iMod ("HP" with "[//] Hd") as "HP". iModIntro.
  iApply wpp_bind. iApply wpp_at_new. iIntros (p V2 Hle2) "Hp".
  iApply wpp_bind. iApply wpp_post_fupd. iApply wpp_alloc_atomic. iIntros "!>" (l e) "Hl".
  set (V3 := observe _ _ V2). assert (V2 ⊆ V3) as Hle3 by apply observe_le.
  iMod (is_lock_alloc (λ z, z = 1%Z) (mutex_res (MkMutex l p d)) l _ (cur V3) with "Hl [Hp HP]") as (γ) "#Hlk".
  { subst V3. simpl. set_solver. }
  { iLeft. destruct Hle2, Hle3. iSplitL "Hp"; [iApply (view_mono with "Hp")|iApply (view_mono with "HP")];
      simpl; set_solver. }
  iModIntro. iApply wpp_ret. clearbody V3. iApply ("HΦ" with "[%]"); [by do 2 (etrans; [done|])|].
  iExists _. iFrame "Hlk". done.
Qed.

Lemma wpp_raw_lock γ m V Φ :
  is_mutex γ m (cur V) -∗
  (∀ V', ⌜V ⊆ V'⌝ -∗ locked γ (m_locked m) (cur V') -∗ mutex_res m (cur V') -∗ Φ tt V') -∗
  wpp (raw_lock m) V Φ.
Proof.
  iIntros "(%N & %HN & #Hl) HΦ". iApply (wpp_while (λ _, ∀ V', ⌜V ⊆ V'⌝ -∗
    locked γ (m_locked m) (cur V') -∗ mutex_res m (cur V') -∗ Φ tt V')%I with "[] HΦ").
  iIntros "!>" (V1 Hle1) "HΦ". iApply wpp_bind.
  iApply (wpp_acquire_swap with "Hl"); [done|done|destruct Hle1; by etrans|].
  iIntros (v V2 Hle2 Hv) "H". iApply wpp_ret. destruct Hv as [->| ->]; simpl.
  - iDestruct "H" as "[Hk HR]". iApply ("HΦ" with "[%] Hk HR"). by etrans.
  - by iApply wpp_ret.
Qed.

Lemma wpp_raw_unlock γ m V Φ :
  is_mutex γ m (cur V) -∗ locked γ (m_locked m) (cur V) -∗ mutex_res m (cur V) -∗
  (∀ V', ⌜V ⊆ V'⌝ -∗ Φ tt V') -∗ wpp (raw_unlock m) V Φ.
Proof.
  iIntros "(%N & %HN & #Hl) Hk HR HΦ". by iApply (wpp_release_store with "Hl Hk HR").
Qed.

(** Leaving the critical section in order. *)
Lemma wpp_unlock γ m V Φ :
  is_mutex γ m (cur V) -∗ holds γ m V -∗ P (m_data m) (cur V) -∗
  (∀ V', ⌜V ⊆ V'⌝ -∗ Φ tt V') -∗ wpp (raw_unlock m) V Φ.
Proof.
  iIntros "#Hm [Hk Hp] HP". iApply (wpp_raw_unlock with "Hm Hk"). iLeft. iFrame.
Qed.

Lemma wpo_lock_unwrap γ m V Φ :
  is_mutex γ m (cur V) -∗
  ((∀ V', ⌜V ⊆ V'⌝ -∗ holds γ m V' -∗ P (m_data m) (cur V') -∗ Φ (Ok tt) V') ∧
   (∀ V', ⌜sound = false⌝ -∗ Φ (Panicked poison_error) V')) -∗
  wpo (lock_unwrap m) V Φ.
Proof.
  iIntros "#Hm HΦ". iApply wpp_bind_wpo. iApply (wpp_raw_lock with "Hm").
  iIntros (V1 Hle1) "Hk [[Hp HP]|[%Hs Hp]]"; iApply wpp_bind_wpo; iApply wpp_bind;
    (iApply (wpp_at_load with "Hp"); [done|]; iIntros (V2 Hle2) "Hp"; iApply wpp_ret).
  - iApply wpo_ret. iDestruct "HΦ" as "[HΦ _]". iApply ("HΦ" with "[%] [Hk Hp]"); [by etrans| |].
    + iFrame "Hp". iApply (locked_mono with "Hk"). apply Hle2.
    + iApply (view_mono with "HP"). apply Hle2.
  - iApply wpp_bind_wpo. iApply (wpp_raw_unlock with "[] [Hk] [Hp]").
    + iApply (std_mutex_mono with "Hm"). etrans; [apply Hle1|apply Hle2].
    + iApply (locked_mono with "Hk"). apply Hle2.
    + iRight. by iFrame "Hp".
    + iIntros (V3 _). iApply wpo_panic. iDestruct "HΦ" as "[_ HΦ]". by iApply "HΦ".
Qed.

Lemma wpo_guarded {A} γ m (body : prog A) V Φ :
  is_mutex γ m (cur V) -∗
  (∀ V1, ⌜V ⊆ V1⌝ -∗ P (m_data m) (cur V1) -∗
     wpo body V1 (λ o V2, match o with
       | Ok a => P (m_data m) (cur V2) ∗ ∀ V3, ⌜V ⊆ V3⌝ -∗ Φ (Ok a) V3
       | Panicked e => ⌜sound = false⌝ ∗ ∀ V3, Φ (Panicked e) V3
       end)) ∧ (∀ V', ⌜sound = false⌝ -∗ Φ (Panicked poison_error) V') -∗
  wpo (guarded m body) V Φ.
Proof.
  iIntros "#Hm H". iApply wpo_bind. iApply (wpo_lock_unwrap with "Hm"). iSplit.
  2: { iDestruct "H" as "[_ H]". iIntros (V' Hs). by iApply "H". }
  iIntros (V1 Hle1) "Hh HP". iDestruct "H" as "[H _]". iApply wpo_catch.
  iApply (wpo_wand with "[H HP]"); [by iApply ("H" with "[//] HP")|].
  iIntros (o V2 Hle2) "Ho". iDestruct (std_mutex_mono with "Hm") as "Hm2".
  { etrans; [apply Hle1|apply Hle2]. }
  iDestruct (holds_mono with "Hh") as "Hh"; [done|]. destruct o as [a|e]; simpl.
  - iDestruct "Ho" as "[HP HΦ]". iApply wpp_bind_wpo. iApply (wpp_unlock with "Hm2 Hh HP").
    iIntros (V3 Hle3). iApply wpo_ret. iApply "HΦ". iPureIntro. by do 2 (etrans; [done|]).
  - iDestruct "Ho" as "[%Hs HΦ]". iDestruct "Hh" as "[Hk Hp]". iApply wpp_bind_wpo.
    iApply (wpp_at_store _ _ 1 with "Hp"); [done|]. iIntros (V3 Hle3) "Hp". iApply wpp_bind_wpo.
    iApply (wpp_raw_unlock with "[] [Hk] [Hp]").
    + iApply (std_mutex_mono with "Hm2"). apply Hle3.
    + iApply (locked_mono with "Hk"). apply Hle3.
    + iRight. by iFrame "Hp".
    + iIntros (V4 _). by iApply wpo_panic.
Qed.
End mutex.

(** ** Waiting *)

Section condvar.
Context `{!rustGS Σ, !lockG Σ}.
Context (sound : bool) (P : loc → view → iProp Σ) `{!∀ d, ViewMono (P d)}.
Implicit Types (c : loc) (m : Mutex) (V : tview).

Definition is_condvar c (W : view) : iProp Σ := is_cell (λ _, True)%I (λ _, True)%I c W.

#[global] Instance is_condvar_persistent c W : Persistent (is_condvar c W).
Proof. apply _. Qed.

Lemma wpp_condvar_new V Φ :
  (∀ c V', ⌜V ⊆ V'⌝ -∗ is_condvar c (cur V') -∗ Φ c V') -∗ wpp condvar_new V Φ.
Proof. iIntros "HΦ". by iApply (wpp_cell_new (λ _, True)%I (λ _, True)%I with "[//] [//]"). Qed.

Lemma wpp_notify_one c V Φ :
  is_condvar c (cur V) -∗ (∀ V', ⌜V ⊆ V'⌝ -∗ Φ tt V') -∗ wpp (notify_one c) V Φ.
Proof.
  iIntros "#Hc HΦ". iApply wpp_bind. iApply (wpp_cell_update with "Hc"); [done|].
  iIntros (v) "_ _ !>". do 2 (iSplit; [done|]). iIntros (V' Hle). iApply wpp_ret. by iApply "HΦ".
Qed.

Lemma wpo_wait_unwrap γ c m V Φ :
  is_condvar c (cur V) -∗ is_mutex sound P γ m (cur V) -∗ holds γ m V -∗ P (m_data m) (cur V) -∗
  ((∀ V', ⌜V ⊆ V'⌝ -∗ holds γ m V' -∗ P (m_data m) (cur V') -∗ Φ (Ok tt) V') ∧
   (∀ V', ⌜sound = false⌝ -∗ Φ (Panicked poison_error) V')) -∗
  wpo (wait_unwrap c m) V Φ.
Proof.
  iIntros "#Hc #Hm Hh HP HΦ". iApply wpp_bind_wpo. iApply (wpp_cell_load with "Hc"); [done|].
  iIntros (v V1 Hle1) "_". iApply wpp_bind_wpo. iDestruct (holds_mono with "Hh") as "Hh"; [done|].
  iApply (wpp_unlock sound P with "[] Hh [HP]").
  { iApply (std_mutex_mono with "Hm"). apply Hle1. }
  { iApply (view_mono with "HP"). apply Hle1. }
  iIntros (V2 Hle2). iApply wpp_bind_wpo.
  assert (V ⊆ V2) as HleV2 by by etrans.
  iApply (wpp_wand _ _ (λ _ _, True)%I).
  { iApply (wpp_while (λ _, True)%I with "[] [//]"). iIntros "!>" (V3 Hle3) "_". iApply wpp_bind.
    iApply (wpp_cell_load (λ _, True)%I (λ _, True)%I with "[]"); [done| |].
    { iApply (is_cell_mono with "Hc"). etrans; [apply HleV2|apply Hle3]. }
    iIntros (v' V4 _) "_". iApply wpp_bind. iApply wpp_input. iIntros "!>" (z). iApply wpp_ret.
    destruct (_ && _); [by iApply wpp_ret|done]. }
  iIntros ([] V3 Hle3) "_". assert (V ⊆ V3) as HleV3 by by etrans.
  iApply (wpo_lock_unwrap sound P with "[]"); [iApply (std_mutex_mono with "Hm"); apply HleV3|].
  iSplit; [iDestruct "HΦ" as "[HΦ _]"|iDestruct "HΦ" as "[_ $]"]. iIntros (V4 Hle4).
  iApply "HΦ". iPureIntro. by etrans.
Qed.
End condvar.
