(* ===== verification/Fifo.v ===== *)
(** * Queues behind a mutex

    [SimpleChannel] is 05-01_simple-channel-with-mutex.rs, [ParkedConsumer] is
    01-08-01_thread-parking.rs and [WaitingConsumer] is
    01-08-02_condition_variables.rs: one thread puts 0, 1, 2, ... into a
    [VecDeque], another takes them out and prints them.  The [Arc] handles of
    05-01 only keep the channel alive and are left out. *)

From iris.proofmode Require Import proofmode.
From iris.base_logic.lib Require Import invariants ghost_var mono_nat token.
From S2P Require Import Prelude Memory History Lang Runs Logic Rules Std Parking Output.
From S2P Require Import RmwCell LockWord StdSync.

(** ** The code *)

Module SimpleChannel.

Record Channel : Type := MkChannel { queue : Mutex; item_ready : loc }.

Definition default : prog Channel :=
  queue ← mutex_new (VList []); item_ready ← condvar_new; mret (MkChannel queue item_ready).

Definition send (c : Channel) (message : val) : prog unit :=
  guarded (queue c) (push_back (m_data (queue c)) message);;
  notify_one (item_ready c).

Definition receive (c : Channel) : prog val :=
  lock_unwrap (queue c);;
  loop (λ _ : unit,
    r ← pop_front (m_data (queue c));
    match r with
    | Some message => raw_unlock (queue c);; mret (inr message)
    | None => wait_unwrap (item_ready c) (queue c);; mret (inl ())
    end) ().

(** The closures of [main], for any number of messages. *)
Definition sender (c : Channel) (n : nat) : prog unit :=
  for_range 0 n (λ i, println "Sending: {i}" [VInt i];; send c (VInt i);; sleep).
Definition receiver (c : Channel) (n : nat) : prog unit :=
  for_range 0 n (λ _, message ← receive c; println "Received: {message}" [message]).

Definition transfer (n : nat) : prog unit :=
  channel ← default;
  sender ← spawn (sender channel n);
  receiver ← spawn (receiver channel n);
  join_unwrap receiver;;
  join_unwrap sender.

Definition main : prog unit := transfer 5.
End SimpleChannel.

(** [for i in 0.. { body }] on [i32] *)
Definition range_from (body : Z → prog unit) : prog unit :=
  loop (λ i, if (i =? i32_MAX)%Z then Panic "attempt to add with overflow"
             else body i;; mret (inl (i + 1)%Z)) 0%Z.

(** [thread::current().id()]: the next number of a counter, drawn when the
    thread is made. *)
Definition thread_id_new (COUNTER : loc) : prog Z :=
  last ← fetch_add u64_modulus COUNTER 1 Relaxed; mret (last + 1)%Z.

Module ParkedConsumer.

Definition consumer (queue : Mutex) (id : Z) (token : loc) : prog unit :=
  println "consumer thread id: {consumer_thread_id:?}" [VInt id];;
  loop (λ _ : unit,
    item ← guarded queue (pop_front (m_data queue));
    match item with
    | Some item => println "item = {}" [item]
    | None => park token
    end;;
    mret (inl ())) ().

Definition producer (queue : Mutex) (token : loc) : prog unit :=
  range_from (λ i, guarded queue (push_back (m_data queue) (VInt i));; unpark token;; sleep).

Definition main : prog unit :=
  COUNTER ← atomic_new 0;
  main_thread_id ← thread_id_new COUNTER;
  queue ← mutex_new (VList []);
  println "main thread id: {main_thread_id:?}" [VInt main_thread_id];;
  println "producer thread id: {producer_thread_id:?}" [VInt main_thread_id];;
  consumer_thread_id ← thread_id_new COUNTER;
  token ← park_token_new;
  scope [consumer queue consumer_thread_id token] (producer queue token).
End ParkedConsumer.

Module WaitingConsumer.

Definition consumer (queue : Mutex) (not_empty : loc) : prog unit :=
  loop (λ _ : unit,
    lock_unwrap queue;;
    item ← loop (λ _ : unit,
      r ← pop_front (m_data queue);
      match r with
      | Some item => mret (inr item)
      | None => wait_unwrap not_empty queue;; mret (inl ())
      end) ();
    println "item = {}" [item];;
    raw_unlock queue;;
    mret (inl ())) ().

Definition producer (queue : Mutex) (not_empty : loc) : prog unit :=
  range_from (λ i, guarded queue (push_back (m_data queue) (VInt i));; notify_one not_empty;; sleep).

Definition main : prog unit :=
  queue ← mutex_new (VList []);
  not_empty ← condvar_new;
  scope [consumer queue not_empty] (producer queue not_empty).
End WaitingConsumer.

(** ** The queue *)

Class fifoG Σ := FifoG {
  fifo_varG :: ghost_varG Σ nat; fifo_monoG :: mono_natG Σ; fifo_tokenG :: tokenG Σ
}.
Definition fifoΣ : gFunctors := #[ghost_varΣ nat; mono_natΣ; tokenΣ].
#[export] Instance subG_fifoΣ Σ : subG fifoΣ Σ → fifoG Σ.
Proof. solve_inG. Qed.

(** How many have been put in, how many taken out, and what is announced
    before it is put in. *)
Record fifo_name : Type := FifoName { fifo_in : gname; fifo_out : gname; fifo_lb : gname }.

Definition items (r n : nat) : list val := (λ k, VInt (Z.of_nat k)) <$> seq r n.

Section fifo.
Context `{!rustGS Σ, !fifoG Σ}.
Implicit Types (γ : fifo_name) (d : loc) (W : view) (V : tview).

(** [r] items have been taken out of the [r + n] put in. *)
Definition fifo γ d W : iProp Σ :=
  ∃ r n, own_na d (VList (items r n)) W ∗ ghost_var (fifo_in γ) (1/2) (r + n) ∗
    ghost_var (fifo_out γ) (1/2) r ∗ mono_nat_lb_own (fifo_lb γ) (r + n).

Definition fifo_put γ (s : nat) : iProp Σ := ghost_var (fifo_in γ) (1/2) s.
Definition fifo_took γ (r : nat) : iProp Σ := ghost_var (fifo_out γ) (1/2) r.
(** [k] items have been announced. *)
Definition announced γ (k : nat) : iProp Σ := mono_nat_lb_own (fifo_lb γ) k.

#[global] Instance fifo_mono γ d : ViewMono (fifo γ d).
Proof.
  intros W W' Hle. iIntros "(%r & %n & Hd & $ & $ & $)". by iApply (own_na_mono with "Hd").
Qed.

Lemma wpp_fifo_push γ d s V Φ :
  fifo γ d (cur V) -∗ fifo_put γ s -∗ announced γ (S s) -∗
  (∀ V', ⌜V ⊆ V'⌝ -∗ fifo γ d (cur V') -∗ fifo_put γ (S s) -∗ Φ tt V') -∗
  wpp (push_back d (VInt (Z.of_nat s))) V Φ.
Proof.
  iIntros "(%r & %n & Hd & Hs & Hr & _) Hs' #Ha HΦ".
  iDestruct (ghost_var_agree with "Hs Hs'") as %<-. iApply wpp_post_fupd.
  iApply (wpp_vec_push with "Hd"). iIntros (V' Hle) "Hd".
  iMod (ghost_var_update_halves (S (r + n)) with "Hs Hs'") as "[Hs Hs']". iModIntro.
  iApply ("HΦ" with "[//] [Hd Hs Hr] Hs'"). iExists r, (S n). rewrite Nat.add_succ_r. iFrame "Hs Hr Ha".
  by rewrite /items seq_S fmap_app.
Qed.

Lemma wpp_fifo_pop γ d r V Φ :
  fifo γ d (cur V) -∗ fifo_took γ r -∗
  (∀ o V', ⌜V ⊆ V'⌝ -∗ fifo γ d (cur V') -∗
     match o with
     | Some v => ⌜v = VInt (Z.of_nat r)⌝ ∗ fifo_took γ (S r) ∗ announced γ (S r)
     | None => fifo_took γ r
     end -∗ Φ o V') -∗
  wpp (pop_front d) V Φ.
Proof.
  iIntros "(%r' & %n & Hd & Hs & Hr & #Ha) Hr' HΦ".
  iDestruct (ghost_var_agree with "Hr Hr'") as %->. iApply wpp_post_fupd. iApply wpp_bind.
  iApply (wpp_read_list with "Hd"). iIntros (V1 Hle1) "Hd". destruct n as [|n]; simpl.
  - iApply wpp_ret. iModIntro. iApply ("HΦ" $! None with "[//] [Hd Hs Hr] Hr'"). iExists r, 0. by iFrame.
  - iApply wpp_bind. iApply (wpp_write with "Hd"). iIntros "!>" (V2 Hle2) "Hd". iApply wpp_ret.
    iMod (ghost_var_update_halves (S r) with "Hr Hr'") as "[Hr Hr']". iModIntro.
    iApply ("HΦ" $! (Some _) with "[%] [Hd Hs Hr] [Hr']"); [by etrans| |].
    + iExists (S r), n. rewrite Nat.add_succ_r /=. by iFrame "Hd Hs Hr Ha".
    + iFrame "Hr'". iSplit; [done|]. iApply (mono_nat_lb_own_le with "Ha"). lia.
Qed.

Lemma fifo_alloc :
  ⊢ |==> ∃ γ, fifo_put γ 0 ∗ fifo_took γ 0 ∗ mono_nat_auth_own (fifo_lb γ) 1 0 ∗
    ∀ d W, own_na d (VList []) W -∗ fifo γ d W.
Proof.
  iMod (ghost_var_alloc 0) as (γ1) "[H1 H1']". iMod (ghost_var_alloc 0) as (γ2) "[H2 H2']".
  iMod (mono_nat_own_alloc 0) as (γ3) "[H3 #Hlb]". iModIntro. iExists (FifoName γ1 γ2 γ3).
  iFrame "H1 H2 H3". iIntros (d W) "Hd". iExists 0, 0. by iFrame.
Qed.

(** *** The channel *)

Section channel.
Context `{!lockG Σ}.
Import SimpleChannel.
Implicit Types (c : Channel).

Definition is_channel γ γl c W : iProp Σ :=
  is_mutex true (fifo γ) γl (queue c) W ∗ is_condvar (item_ready c) W.

Lemma is_channel_mono γ γl c W W' : W ⊆ W' → is_channel γ γl c W -∗ is_channel γ γl c W'.
Proof.
  iIntros (Hle) "[Hm Hc]". iSplitL "Hm"; [by iApply (std_mutex_mono with "Hm")|].
  by iApply (is_cell_mono with "Hc").
Qed.

Lemma wpp_channel_default γ V Φ :
  (∀ d W, own_na d (VList []) W -∗ fifo γ d W) -∗
  (∀ γl c V', ⌜V ⊆ V'⌝ -∗ is_channel γ γl c (cur V') -∗ Φ c V') -∗ wpp default V Φ.
Proof.
  iIntros "Hf HΦ". iApply wpp_bind. iApply (wpp_mutex_new true (fifo γ) with "[Hf]").
  { iIntros (d V' _) "Hd !>". by iApply "Hf". }
  iIntros (γl m V1 Hle1) "#Hm". iApply wpp_bind. iApply wpp_condvar_new.
  iIntros (cv V2 Hle2) "#Hc". iApply wpp_ret. iApply ("HΦ" with "[%]"); [by etrans|].
  iFrame "Hc". iApply (std_mutex_mono with "Hm"). apply Hle2.
Qed.

Lemma wpp_channel_send γ γl c s V Φ :
  is_channel γ γl c (cur V) -∗ fifo_put γ s -∗ announced γ (S s) -∗
  (∀ V', ⌜V ⊆ V'⌝ -∗ fifo_put γ (S s) -∗ Φ tt V') -∗
  wpp (send c (VInt (Z.of_nat s))) V Φ.
Proof.
  iIntros "#[Hm Hc] Hs #Ha HΦ". iApply wpp_bind.
  iApply (wpo_guarded true (fifo γ) with "Hm"). iSplit; [|by iIntros].
  iIntros (V1 Hle1) "Hf". iApply wpp_wpo. iApply (wpp_fifo_push with "Hf Hs Ha").
  iIntros (V2 Hle2) "$ Hs". iIntros (V3 Hle3). iApply (wpp_notify_one with "[]").
  { iApply (is_cell_mono with "Hc"). apply Hle3. }
  iIntros (V4 Hle4). iApply ("HΦ" with "[%] Hs"). by etrans.
Qed.

(** Taking an item, waiting while there is none, with the lock held. *)
Lemma wpo_take γ γl m cv r (k : val → prog (unit + val)) V Φ :
  is_mutex true (fifo γ) γl m (cur V) -∗ is_condvar cv (cur V) -∗ fifo_took γ r -∗
  holds γl m V -∗ fifo γ (m_data m) (cur V) -∗
  (∀ V', ⌜V ⊆ V'⌝ -∗ holds γl m V' -∗ fifo γ (m_data m) (cur V') -∗ fifo_took γ (S r) -∗
     announced γ (S r) -∗
     wpp (k (VInt (Z.of_nat r))) V' (λ x V2, match x with inl _ => False | inr v => Φ v V2 end)) -∗
  wpp (loop (λ _ : unit,
    o ← pop_front (m_data m);
    match o with
    | Some v => k v
    | None => wait_unwrap cv m;; mret (inl ())
    end) ()) V Φ.
Proof.
  iIntros "#Hm #Hc Hr Hh Hf HΦ".
  iApply (wpp_loop (λ _ V', fifo_took γ r ∗ holds γl m V' ∗ fifo γ (m_data m) (cur V') ∗
    (∀ V2, ⌜V ⊆ V2⌝ -∗ holds γl m V2 -∗ fifo γ (m_data m) (cur V2) -∗ fifo_took γ (S r) -∗
     announced γ (S r) -∗
     wpp (k (VInt (Z.of_nat r))) V2 (λ x V3, match x with inl _ => False | inr v => Φ v V3 end)))%I
    with "[] [$Hr $Hh $Hf $HΦ]").
  iIntros "!>" ([] V1 Hle1) "(Hr & Hh & Hf & HΦ)". iApply wpp_bind.
  iApply (wpp_fifo_pop with "Hf Hr"). iIntros (o V2 Hle2) "Hf Ho".
  iDestruct (holds_mono with "Hh") as "Hh"; [done|]. assert (V ⊆ V2) as HleV by by etrans.
  destruct o as [v|].
  - iDestruct "Ho" as (->) "[Hr Ha]". iApply (wpp_wand with "[-]").
    { by iApply ("HΦ" with "[//] Hh Hf Hr Ha"). }
    by iIntros ([[]|v] V3 _) "H".
  - iApply wpp_bind. iApply (wpo_wait_unwrap true (fifo γ) with "[] [] Hh Hf").
    + iApply (is_cell_mono with "Hc"). apply HleV.
    + iApply (std_mutex_mono with "Hm"). apply HleV.
    + iSplit; [|by iIntros]. iIntros (V3 Hle3) "Hh Hf". iApply wpp_ret. by iFrame.
Qed.

Lemma wpp_channel_receive γ γl c r V Φ :
  is_channel γ γl c (cur V) -∗ fifo_took γ r -∗
  (∀ V', ⌜V ⊆ V'⌝ -∗ fifo_took γ (S r) -∗ announced γ (S r) -∗ Φ (VInt (Z.of_nat r)) V') -∗
  wpp (receive c) V Φ.
Proof.
  iIntros "#[Hm Hc] Hr HΦ". iApply wpp_bind.
  iApply (wpo_lock_unwrap true (fifo γ) with "Hm"). iSplit; [|by iIntros].
  iIntros (V1 Hle1) "Hh Hf". iApply (wpo_take with "[] [] Hr Hh Hf").
  { iApply (std_mutex_mono with "Hm"). apply Hle1. }
  { iApply (is_cell_mono with "Hc"). apply Hle1. }
  iIntros (V2 Hle2) "Hh Hf Hr Ha". iApply wpp_bind. assert (V ⊆ V2) as HleV by by etrans.
  iApply (wpp_unlock true (fifo γ) with "[] Hh Hf"); [iApply (std_mutex_mono with "Hm"); apply HleV|].
  iIntros (V3 Hle3). iApply wpp_ret. iApply ("HΦ" with "[%] Hr Ha"). by etrans.
Qed.
End channel.
End fifo.

(** ** What the channel promises

    A state machine: [s] messages have been announced and [r] received, in
    order, and none before it was announced. *)

Inductive channel_log : nat → nat → list output → Prop :=
| log_start : channel_log 0 0 []
| log_sending s r os :
    channel_log s r os →
    channel_log (S s) r (os ++ [("Sending: {i}"%string, [VInt (Z.of_nat s)])])
| log_received s r os :
    channel_log s r os → r < s →
    channel_log s (S r) (os ++ [("Received: {message}"%string, [VInt (Z.of_nat r)])]).

Section transfer.
Context `{!rustGS Σ, !fifoG Σ, !lockG Σ}.
Import SimpleChannel.
Implicit Types (γ : fifo_name) (γs γr : gname) (V : tview).

Definition channel_out γ γs γr (os : list output) : iProp Σ :=
  ∃ s r, ⌜channel_log s r os⌝ ∗ mono_nat_auth_own (fifo_lb γ) 1 s ∗
    ghost_var γs (1/2) s ∗ ghost_var γr (1/2) r.

Lemma wpp_print_sending γ γs γr s V Φ :
  inv outN (∃ os, printed os ∗ channel_out γ γs γr os) -∗ ghost_var γs (1/2) s -∗
  (ghost_var γs (1/2) (S s) -∗ announced γ (S s) -∗ Φ tt V) -∗
  wpp (println "Sending: {i}" [VInt (Z.of_nat s)]) V Φ.
Proof.
  iIntros "#Hinv Hs HΦ". iApply wpp_print_inv.
  iInv "Hinv" as (os) ">(Hos & %s' & %r & %Hlog & Hm & Hs' & Hr)" "Hclose".
  iDestruct (ghost_var_agree with "Hs Hs'") as %<-. iModIntro. iExists os. iFrame "Hos".
  iIntros "!> Hos". iMod (ghost_var_update_halves (S s) with "Hs Hs'") as "[Hs Hs']".
  iMod (mono_nat_own_update (S s) with "Hm") as "[Hm #Hlb]"; [lia|].
  iMod ("Hclose" with "[Hos Hm Hs' Hr]") as "_".
  { iExists _. iFrame "Hos". iExists (S s), r. iFrame. iPureIntro. by constructor. }
  iModIntro. iApply ("HΦ" with "Hs Hlb").
Qed.

Lemma wpp_print_received γ γs γr r V Φ :
  inv outN (∃ os, printed os ∗ channel_out γ γs γr os) -∗ ghost_var γr (1/2) r -∗
  announced γ (S r) -∗ (ghost_var γr (1/2) (S r) -∗ Φ tt V) -∗
  wpp (println "Received: {message}" [VInt (Z.of_nat r)]) V Φ.
Proof.
  iIntros "#Hinv Hr #Ha HΦ". iApply wpp_print_inv.
  iInv "Hinv" as (os) ">(Hos & %s & %r' & %Hlog & Hm & Hs & Hr')" "Hclose".
  iDestruct (ghost_var_agree with "Hr Hr'") as %<-. iModIntro. iExists os. iFrame "Hos".
  iDestruct (mono_nat_lb_own_valid with "Hm Ha") as %[_ Hlt].
  iIntros "!> Hos". iMod (ghost_var_update_halves (S r) with "Hr Hr'") as "[Hr Hr']".
  iMod ("Hclose" with "[Hos Hm Hs Hr']") as "_".
  { iExists _. iFrame "Hos". iExists s, (S r). iFrame. iPureIntro. by constructor. }
  iModIntro. iApply ("HΦ" with "Hr").
Qed.

Lemma wpp_channel_sender γ γl γs γr c n V :
  inv outN (∃ os, printed os ∗ channel_out γ γs γr os) -∗ is_channel γ γl c (cur V) -∗
  fifo_put γ 0 -∗ ghost_var γs (1/2) 0 -∗ wpp (sender c n) V (λ _ _, ghost_var γs (1/2) n).
Proof.
  iIntros "#Hinv #Hc Hp Hs".
  iApply (wpp_for_range (λ i _, fifo_put γ (Z.to_nat i) ∗ ghost_var γs (1/2) (Z.to_nat i))%I
    with "[] [Hp Hs]"); [|by iSplitL "Hp"|].
  - iIntros "!>" (i V1 Hle1 Hi) "[Hp Hs]". 
    replace (VInt i) with (VInt (Z.of_nat (Z.to_nat i))) by (f_equal; lia).
    iApply wpp_bind. iApply (wpp_print_sending with "Hinv Hs"). iIntros "Hs #Ha".
    iApply wpp_bind. iApply (wpp_channel_send with "[] Hp Ha").
    { iApply (is_channel_mono with "Hc"). apply Hle1. }
    iIntros (V2 _) "Hp". iApply wpp_ret.
    replace (Z.to_nat (i + 1)) with (S (Z.to_nat i)) by lia. by iFrame.
  - iIntros (V1 _) "[_ Hs]". by rewrite Z.add_0_l Nat2Z.id.
Qed.

Lemma wpp_channel_receiver γ γl γs γr c n V :
  inv outN (∃ os, printed os ∗ channel_out γ γs γr os) -∗ is_channel γ γl c (cur V) -∗
  fifo_took γ 0 -∗ ghost_var γr (1/2) 0 -∗ wpp (receiver c n) V (λ _ _, ghost_var γr (1/2) n).
Proof.
  iIntros "#Hinv #Hc Ht Hr".
  iApply (wpp_for_range (λ i _, fifo_took γ (Z.to_nat i) ∗ ghost_var γr (1/2) (Z.to_nat i))%I
    with "[] [Ht Hr]"); [|by iSplitL "Ht"|].
  - iIntros "!>" (i V1 Hle1 Hi) "[Ht Hr]". iApply wpp_bind. iApply (wpp_channel_receive with "[] Ht").
    { iApply (is_channel_mono with "Hc"). apply Hle1. }
    iIntros (V2 _) "Ht #Ha". iApply (wpp_print_received with "Hinv Hr Ha"). iIntros "Hr".
    replace (Z.to_nat (i + 1)) with (S (Z.to_nat i)) by lia. by iFrame.
  - iIntros (V1 _) "[_ Hr]". by rewrite Z.add_0_l Nat2Z.id.
Qed.
End transfer.

(** C8. One thread sends [n] messages over the channel of 05-01, another
    receives [n]: at every moment the output is that of the state machine
    (every message arrives once, in order, after it was sent), and the program
    ends with all [n] received. *)
Theorem transfer_refines_fifo n :
  safe (SimpleChannel.transfer n) (λ σ, ∃ s r, channel_log s r (out σ))
    (λ o σ, o = Ok tt ∧ channel_log n n (out σ)) ∧
  ∃ os, can_end SimpleChannel.main (Ok tt) os.
Proof.
  split; [|eexists; by_running 3000%Z]. apply (safe_output_inv #[rustΣ; fifoΣ; lockΣ] _ (λ os, ∃ s r, channel_log s r os)
    (λ o os, o = Ok tt ∧ channel_log n n os)).
  iIntros (?) "Hp". iMod fifo_alloc as (γ) "(Hput & Htook & Hm & Hf)".
  iMod (ghost_var_alloc 0) as (γs) "[Hs Hs']". iMod (ghost_var_alloc 0) as (γr) "[Hr Hr']".
  iMod (inv_alloc outN _ (∃ os, printed os ∗ channel_out γ γs γr os) with "[Hp Hm Hs' Hr']") as "#Hinv".
  { iExists []. iFrame "Hp". iExists 0, 0. iFrame. iPureIntro. constructor. }
  iModIntro. iExists (channel_out γ γs γr),
    (λ o, ⌜o = Ok tt⌝ ∗ ghost_var γs (1/2) n ∗ ghost_var γr (1/2) n)%I.
  iFrame "Hinv". iSplit; [iPureIntro; apply _|]. iSplitL; [|iSplit].
  - iApply wpp_bind_wpo. iApply (wpp_channel_default with "Hf"). iIntros (γl c V1 _) "#Hc".
    iApply wpp_bind_wpo. iApply (wpp_spawn_ok _ (λ _, ghost_var γs (1/2) n) with "[Hput Hs]").
    { iIntros (V Hle). iApply (wpp_channel_sender with "Hinv [] Hput Hs").
      by iApply (is_channel_mono with "Hc"). }
    iIntros (hs V2 Hle2) "Hhs". iApply wpp_bind_wpo.
    iApply (wpp_spawn_ok _ (λ _, ghost_var γr (1/2) n) with "[Htook Hr]").
    { iIntros (V Hle). iApply (wpp_channel_receiver with "Hinv [] Htook Hr").
      iApply (is_channel_mono with "Hc"). etrans; [apply Hle2|done]. }
    iIntros (hr V3 Hle3) "Hhr". iApply wpp_bind_wpo. iApply (wpp_join_unwrap with "Hhr").
    iIntros (V4 Hle4) "Hr". iApply wpp_wpo.
    iDestruct (join_handle_mono with "Hhs") as "Hhs"; [etrans; [apply Hle3|apply Hle4]|].
    iApply (wpp_join_unwrap with "Hhs"). iIntros (V5 _) "Hs". by iFrame.
  - iIntros (os) "(%s & %r & %Hlog & _)". iPureIntro. eauto.
  - iIntros (o os) "(-> & Hs & Hr) (%s & %r & %Hlog & _ & Hs' & Hr')".
    iDestruct (ghost_var_agree with "Hs Hs'") as %<-.
    by iDestruct (ghost_var_agree with "Hr Hr'") as %<-.
Qed.

(** ** The programs that do not end *)

Definition item_of (x : output) : option val :=
  match x with
  | (fmt, [v]) => if decide (fmt = "item = {}"%string) then Some v else None
  | _ => None
  end.

(** The items printed are 0, 1, 2, ... *)
Definition in_order (os : list output) : Prop := ∃ r, omap item_of os = items 0 r.

Section consumers.
Context `{!rustGS Σ, !fifoG Σ, !lockG Σ}.
Implicit Types (γ : fifo_name) (γr : gname) (V : tview) (m : Mutex).

Definition consumer_out γr (os : list output) : iProp Σ :=
  ∃ r, ⌜omap item_of os = items 0 r⌝ ∗ ghost_var γr (1/2) r.

Lemma wpp_print_item γr r V Φ :
  inv outN (∃ os, printed os ∗ consumer_out γr os) -∗ ghost_var γr (1/2) r -∗
  (ghost_var γr (1/2) (S r) -∗ Φ tt V) -∗
  wpp (println "item = {}" [VInt (Z.of_nat r)]) V Φ.
Proof.
  iIntros "#Hinv Hr HΦ". iApply wpp_print_inv.
  iInv "Hinv" as (os) ">(Hos & %r' & %Hlog & Hr')" "Hclose".
  iDestruct (ghost_var_agree with "Hr Hr'") as %<-. iModIntro. iExists os. iFrame "Hos".
  iIntros "!> Hos". iMod (ghost_var_update_halves (S r) with "Hr Hr'") as "[Hr Hr']".
  iMod ("Hclose" with "[Hos Hr']") as "_"; [|by iApply "HΦ"].
  iExists _. iFrame "Hos". iExists (S r). iFrame. iPureIntro.
  by rewrite omap_app Hlog /items seq_S fmap_app.
Qed.

Lemma wpp_print_no_item γr fmt args V Φ :
  fmt ≠ "item = {}"%string → inv outN (∃ os, printed os ∗ consumer_out γr os) -∗
  Φ tt V -∗ wpp (println fmt args) V Φ.
Proof.
  iIntros (Hf) "#Hinv HΦ". iApply wpp_print_inv.
  iInv "Hinv" as (os) ">(Hos & %r & %Hlog & Hr)" "Hclose". iModIntro. iExists os. iFrame "Hos".
  iIntros "!> Hos". iFrame "HΦ". iApply "Hclose". iExists _. iFrame "Hos". iExists r. iFrame.
  iPureIntro. rewrite omap_app Hlog. destruct args as [|? []]; rewrite /= ?app_nil_r //.
  by rewrite decide_False // app_nil_r.
Qed.

(** The producers: [wake] is what they do after each item. *)
Lemma wpo_producer γ γl m (wake : prog unit) V :
  is_mutex true (fifo γ) γl m (cur V) -∗ fifo_put γ 0 -∗
  mono_nat_auth_own (fifo_lb γ) 1 0 -∗
  □ (∀ V' Φ', ⌜V ⊆ V'⌝ -∗ (∀ V2, Φ' tt V2) -∗ wpp wake V' Φ') -∗
  wpo (range_from (λ i, guarded m (push_back (m_data m) (VInt i));; wake;; sleep)) V (λ _ _, True).
Proof.
  iIntros "#Hm Hp Ha #Hw".
  iApply (wpo_loop (λ i _, ∃ s, ⌜i = Z.of_nat s⌝ ∗ fifo_put γ s ∗
    mono_nat_auth_own (fifo_lb γ) 1 s)%I with "[] [Hp Ha]"); [|iExists 0; by iFrame].
  iIntros "!>" (i V1 Hle1) "(%s & -> & Hp & Ha)".
  destruct (_ =? i32_MAX)%Z; [by iApply wpo_panic|].
  iApply wpo_fupd. iMod (mono_nat_own_update (S s) with "Ha") as "[Ha #Hlb]"; [lia|]. iModIntro.
  iApply wpp_wpo. do 2 iApply wpp_bind. iApply (wpo_guarded true (fifo γ) with "[]").
  { iApply (std_mutex_mono with "Hm"). apply Hle1. }
  iSplit; [|by iIntros]. iIntros (V2 _) "Hf". iApply wpp_wpo.
  iApply (wpp_fifo_push with "Hf Hp Hlb"). iIntros (V3 _) "$ Hp". iIntros (V4 Hle4).
  iApply wpp_bind. iApply "Hw"; [iPureIntro; by etrans|]. iIntros (V5). do 2 iApply wpp_ret.
  iExists (S s). iFrame. iPureIntro. lia.
Qed.

(** A scope with one thread that does not end. *)
Lemma wpo_scope_forever (c body : prog unit) V Φ :
  (∀ V', ⌜cur V ⊆ cur V'⌝ -∗ wpp c V' (λ _ _, False)) -∗
  (∀ V', ⌜V ⊆ V'⌝ -∗ wpo body V' (λ _ _, True)) -∗
  wpo (scope [c] body) V Φ.
Proof.
  iIntros "Hc Hb". iApply wpp_bind_wpo.
  iApply (wpp_spawn_all [()] (λ _, c) (λ _ _, False)%I with "[Hc]").
  { by rewrite big_sepL_singleton. }
  iIntros (hs V1 Hle1) "Hhs". iApply wpo_catch.
  iApply (wpo_wand with "[Hb]"); [by iApply "Hb"|]. iIntros (o V2 Hle2) "_".
  iApply wpp_bind_wpo. iApply (wpp_join_all [()] (λ _ _, False)%I with "[Hhs]").
  { iApply (big_sepL2_impl with "Hhs"). iIntros "!>" (k h y _ _) "Hh".
    iApply (join_handle_mono with "Hh"). apply Hle2. }
  iIntros (V3 _) "Hf". rewrite big_sepL_singleton. iDestruct "Hf" as "[]".
Qed.
End consumers.

Section consumer_threads.
Context `{!rustGS Σ, !fifoG Σ, !lockG Σ}.
Implicit Types (γ : fifo_name) (V : tview) (m : Mutex).

Lemma wpp_parked_consumer γ γl γr m id tok V :
  inv outN (∃ os, printed os ∗ consumer_out γr os) -∗ is_mutex true (fifo γ) γl m (cur V) -∗
  is_park tok (cur V) -∗ fifo_took γ 0 -∗ ghost_var γr (1/2) 0 -∗
  wpp (ParkedConsumer.consumer m id tok) V (λ _ _, False).
Proof.
  iIntros "#Hinv #Hm #Ht Hf Hr". iApply wpp_bind.
  iApply (wpp_print_no_item with "Hinv"); [discriminate|].
  iApply (wpp_loop (λ _ _, ∃ r, fifo_took γ r ∗ ghost_var γr (1/2) r)%I with "[] [Hf Hr]").
  2: { iExists 0. iFrame. }
  iIntros "!>" ([] V1 Hle1) "(%r & Hf & Hr)". iApply wpp_bind.
  iApply (wpo_guarded true (fifo γ) with "[]"); [iApply (std_mutex_mono with "Hm"); apply Hle1|].
  iSplit; [|by iIntros]. iIntros (V2 _) "Hq". iApply wpp_wpo. iApply (wpp_fifo_pop with "Hq Hf").
  iIntros (o V3 _) "$ Ho". iIntros (V4 Hle4). iApply wpp_bind. destruct o as [v|].
  - iDestruct "Ho" as (->) "[Hf _]". iApply (wpp_print_item with "Hinv Hr"). iIntros "Hr".
    iApply wpp_ret. iExists (S r). iFrame.
  - iApply (wpp_park with "[]").
    { iApply (is_park_mono with "Ht"). etrans; [apply Hle1|apply Hle4]. }
    iIntros (V5 _). iApply wpp_ret. iExists r. iFrame.
Qed.

Lemma wpp_waiting_consumer γ γl γr m cv V :
  inv outN (∃ os, printed os ∗ consumer_out γr os) -∗ is_mutex true (fifo γ) γl m (cur V) -∗
  is_condvar cv (cur V) -∗ fifo_took γ 0 -∗ ghost_var γr (1/2) 0 -∗
  wpp (WaitingConsumer.consumer m cv) V (λ _ _, False).
Proof.
  iIntros "#Hinv #Hm #Hc Hf Hr".
  iApply (wpp_loop (λ _ _, ∃ r, fifo_took γ r ∗ ghost_var γr (1/2) r)%I with "[] [Hf Hr]").
  2: { iExists 0. iFrame. }
  iIntros "!>" ([] V1 Hle1) "(%r & Hf & Hr)". iApply wpp_bind.
  iDestruct (std_mutex_mono with "Hm") as "Hm1"; [apply Hle1|].
  iApply (wpo_lock_unwrap true (fifo γ) with "Hm1"). iSplit; [|by iIntros].
  iIntros (V2 Hle2) "Hh Hq". iApply wpp_bind. iApply (wpo_take with "[] [] Hf Hh Hq").
  { iApply (std_mutex_mono with "Hm1"). apply Hle2. }
  { iApply (is_cell_mono with "Hc"). etrans; [apply Hle1|apply Hle2]. }
  iIntros (V3 Hle3) "Hh Hq Hf _". iApply wpp_ret. iApply wpp_bind.
  iApply (wpp_print_item with "Hinv Hr"). iIntros "Hr". iApply wpp_bind.
  iApply (wpp_unlock true (fifo γ) with "[] Hh Hq").
  { iApply (std_mutex_mono with "Hm1"). etrans; [apply Hle2|apply Hle3]. }
  iIntros (V4 _). iApply wpp_ret. iExists (S r). iFrame.
Qed.
End consumer_threads.

(** The closed form: the output is in [in_order], the program does not end. *)
Lemma consumer_safe Σ `{!rustGpreS Σ, !fifoG Σ} p :
  (∀ `{!rustGS Σ} γr, inv outN (∃ os, printed os ∗ consumer_out γr os) -∗
     ghost_var γr (1/2) 0 -∗ wpo p tview_init (λ _ _, False)) →
  safe p (λ σ, in_order (out σ)) (λ _ _, False).
Proof.
  intros Hp. apply (safe_output_inv Σ _ in_order (λ _ _, False)). iIntros (?) "Hos".
  iMod (ghost_var_alloc 0) as (γr) "[Hr Hr']".
  iMod (inv_alloc outN _ (∃ os, printed os ∗ consumer_out γr os) with "[Hos Hr']") as "#Hinv".
  { iExists []. iFrame "Hos". iExists 0. by iFrame. }
  iModIntro. iExists (consumer_out γr), (λ _, False)%I. iFrame "Hinv".
  iSplit; [iPureIntro; apply _|]. iSplitL; [by iApply (Hp with "Hinv Hr")|]. iSplit.
  - iIntros (os) "(%r & %Hr & _)". iPureIntro. by exists r.
  - by iIntros (o os) "[]".
Qed.

(** [main] of 01-08-01: the consumer prints 0, 1, 2, ..., skipping nothing
    and repeating nothing, and the program does not end. *)
Theorem parked_main_safe :
  safe ParkedConsumer.main (λ σ, in_order (out σ)) (λ _ _, False) ∧
  ∃ os, can_print ParkedConsumer.main os ∧ omap item_of os = items 0 3.
Proof.
  split; [|eexists; split; [apply (can_print_by 120 0)|vm_compute; reflexivity]].
  apply (consumer_safe #[rustΣ; fifoΣ; lockΣ]). iIntros (? γr) "#Hinv Hr". iApply wpo_fupd.
  iMod fifo_alloc as (γ) "(Hput & Htook & Ha & Hf)". iModIntro.
  iApply wpp_bind_wpo. iApply wpp_at_new. iIntros (ctr V1 _) "Hctr". iApply wpp_bind_wpo.
  iApply wpp_bind. iApply (wpp_at_update with "Hctr"); [done|]. iIntros (V2 _) "Hctr".
  iApply wpp_ret. iApply wpp_bind_wpo. iApply (wpp_mutex_new true (fifo γ) with "[Hf]").
  { iIntros (d V' _) "Hd !>". by iApply "Hf". }
  iIntros (γl m V3 Hle3) "#Hm". do 2 (iApply wpp_bind_wpo; iApply (wpp_print_no_item with "Hinv"); [discriminate|]).
  iApply wpp_bind_wpo. iApply wpp_bind. iDestruct (view_mono with "Hctr") as "Hctr"; [apply Hle3|].
  iApply (wpp_at_update with "Hctr"); [done|]. iIntros (V4 Hle4) "_". iApply wpp_ret.
  iApply wpp_bind_wpo. iApply wpp_park_new. iIntros (tok V5 Hle5) "#Ht".
  iDestruct (std_mutex_mono with "Hm") as "Hm5"; [etrans; [apply Hle4|apply Hle5]|].
  iApply (wpo_scope_forever with "[Htook Hr]").
  - iIntros (V Hle). iApply (wpp_parked_consumer with "Hinv [] [] Htook Hr").
    + by iApply (std_mutex_mono with "Hm5").
    + by iApply (is_park_mono with "Ht").
  - iIntros (V Hle). iApply (wpo_producer with "[] Hput Ha").
    + iApply (std_mutex_mono with "Hm5"). apply Hle.
    + iIntros "!>" (V' Φ' Hle') "HΦ". iApply (wpp_unpark with "[]").
      { iApply (is_park_mono with "Ht"). etrans; [apply Hle|apply Hle']. }
      iIntros (V'' _). iApply "HΦ".
Qed.

(** C37. [main] of 01-08-02: the same, with the condition variable. *)
Theorem waiting_main_safe :
  safe WaitingConsumer.main (λ σ, in_order (out σ)) (λ _ _, False) ∧
  ∃ os, can_print WaitingConsumer.main os ∧ omap item_of os = items 0 3.
Proof.
  split; [|eexists; split; [apply (can_print_by 180 0)|vm_compute; reflexivity]].
  apply (consumer_safe #[rustΣ; fifoΣ; lockΣ]). iIntros (? γr) "#Hinv Hr". iApply wpo_fupd.
  iMod fifo_alloc as (γ) "(Hput & Htook & Ha & Hf)". iModIntro.
  iApply wpp_bind_wpo. iApply (wpp_mutex_new true (fifo γ) with "[Hf]").
  { iIntros (d V' _) "Hd !>". by iApply "Hf". }
  iIntros (γl m V1 Hle1) "#Hm". iApply wpp_bind_wpo. iApply wpp_condvar_new.
  iIntros (cv V2 Hle2) "#Hc". iDestruct (std_mutex_mono with "Hm") as "Hm2"; [apply Hle2|].
  iApply (wpo_scope_forever with "[Htook Hr]").
  - iIntros (V Hle). iApply (wpp_waiting_consumer with "Hinv [] [] Htook Hr").
    + by iApply (std_mutex_mono with "Hm2").
    + by iApply (is_cell_mono with "Hc").
  - iIntros (V Hle). iApply (wpo_producer with "[] Hput Ha").
    + iApply (std_mutex_mono with "Hm2"). apply Hle.
    + iIntros "!>" (V' Φ' Hle') "HΦ". iApply (wpp_notify_one with "[]").
      { iApply (is_cell_mono with "Hc"). etrans; [apply Hle|apply Hle']. }
      iIntros (V'' _). iApply "HΦ".
Qed.
