(* ===== verification/Statistics.v ===== *)
(** * Statistics of a computation

    [Statistics] is 02-02-02_statistics.rs: four threads record how many items
    they have done, the time they took and the longest time, first in three
    atomics, then in a structure behind a mutex, while the main thread reports
    the average and the peak.  The [Arc] handles only keep the mutex alive and
    are left out. *)

From stdpp Require Import sorting.
From iris.proofmode Require Import proofmode.
From iris.base_logic.lib Require Import invariants token.
From S2P Require Import Prelude Memory History Lang Runs Logic Rules Std RmwCell.
From S2P Require Import Monotone LockWord StdSync.

(** ** The code *)

Module Statistics.

Definition process_item (_ : Z) : prog unit := sleep.

(** [Instant::now()], and [start.elapsed().as_micros() as u64]. *)
Definition now : prog val := clock.
Definition elapsed (start : val) : prog Z := z ← act OInput; mret (z mod u64_modulus)%Z.

(** A [Duration] in nanoseconds; dividing one by 0 panics. *)
Definition from_micros (t : Z) : Z := (t * 1000)%Z.
Definition duration_div (t n : Z) : prog Z :=
  if (n =? 0)%Z then Panic "divide by zero error when dividing duration by scalar"
  else mret (t / n)%Z.

Definition print_statistics (num_done total_time max_time : Z) : prog unit :=
  if (num_done =? 0)%Z then println "Working.. nothing done yet." []
  else
    average ← duration_div total_time (num_done mod u32_modulus);
    println "Working.. {num_done}/100 done, {:?} average, {:?} peak"
      [VInt num_done; VInt average; VInt max_time].

(** The first version: three atomics. *)
Definition record (num_done total_time max_time : loc) (t : Z) : prog unit :=
  for_range 0 25 (λ i,
    start ← now;
    process_item (t * 25 + i)%Z;;
    time_taken ← elapsed start;
    _ ← fetch_add usize_modulus num_done 1 Relaxed;
    _ ← fetch_add u64_modulus total_time time_taken Relaxed;
    _ ← fetch_max max_time time_taken Relaxed;
    mret ()).

Definition report (num_done total_time max_time : loc) : prog unit :=
  loop (λ _ : unit,
    t ← load total_time Relaxed;
    m ← load max_time Relaxed;
    n ← load num_done Relaxed;
    if (n =? 100)%Z then mret (inr ())
    else print_statistics n (from_micros t) (from_micros m);; sleep;; mret (inl ())) ().

Definition inaccurate_statistics : prog unit :=
  num_done ← atomic_new 0;
  total_time ← atomic_new 0;
  max_time ← atomic_new 0;
  scope (record num_done total_time max_time <$> [0; 1; 2; 3]%Z)
    (report num_done total_time max_time);;
  println "Done!" [].

(** The second version: [struct Statistics] as the list of its fields. *)
Definition MkStatistics (num_done total_time max_time : Z) : val :=
  VList [VInt num_done; VInt total_time; VInt max_time].

Definition read_statistics (d : loc) : prog (Z * Z * Z) :=
  l ← read_list d;
  match l with
  | [VInt n; VInt t; VInt m] => mret (n, t, m)
  | _ => UB
  end.

(** [a += b] with overflow checks *)
Definition checked_add (modulus a b : Z) : prog Z :=
  if (a + b <? modulus)%Z then mret (a + b)%Z else Panic "attempt to add with overflow".

Definition update (d : loc) (time_taken : Z) : prog unit :=
  '(n, t, m) ← read_statistics d;
  n ← checked_add usize_modulus n 1;
  write d (MkStatistics n t m);;
  t ← checked_add u64_modulus t time_taken;
  write d (MkStatistics n t m);;
  write d (MkStatistics n t (Z.max m time_taken)).

Definition record_locked (statistics : Mutex) (t : Z) : prog unit :=
  for_range 0 25 (λ i,
    start ← now;
    process_item (t * 25 + i)%Z;;
    time_taken ← elapsed start;
    guarded statistics (update (m_data statistics) time_taken)).

Definition report_locked (statistics : Mutex) : prog unit :=
  loop (λ _ : unit,
    '(n, t, m) ← guarded statistics (read_statistics (m_data statistics));
    if (n =? 100)%Z then mret (inr ())
    else print_statistics n (from_micros t) (from_micros m);; sleep;; mret (inl ())) ().

Definition accurate_statistics : prog unit :=
  statistics ← mutex_new (MkStatistics 0 0 0);
  scope (record_locked statistics <$> [0; 1; 2; 3]%Z) (report_locked statistics).

Definition main : prog unit :=
  println "Inaccurate statistics is started..." [];;
  inaccurate_statistics;;
  println "" [];;
  println "Accurate statistics is started..." [];;
  accurate_statistics.
End Statistics.

(** ** Three atomics *)

(** A report: the number done, the average and the peak. *)
Definition stat_line (r : Z * Z * Z) : output :=
  let '(n, a, p) := r in
  if (n =? 0)%Z then ("Working.. nothing done yet."%string, [])
  else ("Working.. {num_done}/100 done, {:?} average, {:?} peak"%string, [VInt n; VInt a; VInt p]).

(** The numbers reported never go down, and stay below 100. *)
Definition counts_rise (rs : list (Z * Z * Z)) : Prop :=
  StronglySorted Z.le ((λ r, r.1.1) <$> rs) ∧ Forall (λ r, 0 <= r.1.1 < 100)%Z rs.

Lemma counts_rise_snoc rs r :
  counts_rise rs → Forall (λ r', r'.1.1 <= r.1.1)%Z rs → (0 <= r.1.1 < 100)%Z →
  counts_rise (rs ++ [r]).
Proof.
  intros [Hs Hb] Hn Hr. split.
  - rewrite fmap_app. apply StronglySorted_app_2; [|done|by repeat constructor].
    intros a b (r' & -> & Hr')%list_elem_of_fmap ->%list_elem_of_singleton.
    rewrite list.Forall_forall in Hn. by apply Hn.
  - apply list.Forall_app. split; [done|]. by constructor.
Qed.

Section inaccurate.
Context `{!rustGS Σ, !monoG Σ, !countG Σ}.
Import Statistics.
Implicit Types (V : tview).

Definition up_to_100 (v : Z) : iProp Σ := ⌜(0 <= v <= 100)%Z⌝.
Definition done_state (γp : gname) (v : Z) : iProp Σ :=
  permits_total γp 100 ∗ permits γp (Z.to_nat v).

(** [print_statistics] does not divide by 0. *)
Lemma wpp_print_statistics n t m os V Φ :
  (0 <= n < 100)%Z → printed os -∗
  (printed (os ++ [stat_line (n, t / n, m)%Z]) -∗ Φ tt V) -∗
  wpp (print_statistics n t m) V Φ.
Proof.
  iIntros (Hn) "Hp HΦ". rewrite /print_statistics /stat_line.
  destruct (n =? 0)%Z eqn:Hn0; [by iApply (wpp_println with "Hp")|].
  apply Z.eqb_neq in Hn0. rewrite Z.mod_small; [|rewrite /u32_modulus; lia]. iApply wpp_bind.
  rewrite /duration_div (proj2 (Z.eqb_neq n 0)) //. iApply wpp_ret. by iApply (wpp_println with "Hp").
Qed.

Lemma wpp_count_done γ γp l V Φ :
  is_mono up_to_100 (last_rmw (done_state γp)) γ l (cur V) -∗ permits γp 1 -∗
  (∀ v V', ⌜V ⊆ V'⌝ -∗ Φ v V') -∗ wpp (fetch_add usize_modulus l 1 Relaxed) V Φ.
Proof.
  iIntros "#Hl H1 HΦ". iApply (wpp_mono_update up_to_100 (done_state γp) with "Hl"); [done|].
  iIntros (v) "%Hv [HT Hv]". iAssert (permits γp (Z.to_nat v + 1)) with "[Hv H1]" as "Hv".
  { rewrite permits_split. iFrame. }
  iDestruct (permits_le with "HT Hv") as %Hle. iModIntro.
  rewrite wrap_add_small; [|rewrite /usize_modulus; lia].
  iSplit; [iPureIntro; lia|]. iSplit; [iPureIntro; lia|]. iSplitL "HT Hv".
  - iFrame "HT". by replace (Z.to_nat (v + 1)) with (Z.to_nat v + 1) by lia.
  - iIntros (V' Hle') "_". by iApply "HΦ".
Qed.

Definition any_cell (l : loc) (W : view) : iProp Σ := is_cell (λ _, True)%I (λ _, True)%I l W.

Lemma wpp_any_update l (f : Z → Z) V Φ :
  any_cell l (cur V) -∗ (∀ v V', ⌜V ⊆ V'⌝ -∗ Φ v V') -∗
  wpp ('(v, _) ← act (ORmw l (λ v, Some (f v)) false Relaxed Relaxed); mret v) V Φ.
Proof.
  iIntros "#Hl HΦ". iApply (wpp_cell_update with "Hl"); [done|]. iIntros (v) "_ _ !>".
  do 2 (iSplit; [done|]). iIntros (V' Hle). by iApply "HΦ".
Qed.

Lemma wpp_record γ γp ln lt lm t V :
  is_mono up_to_100 (last_rmw (done_state γp)) γ ln (cur V) -∗ any_cell lt (cur V) -∗
  any_cell lm (cur V) -∗ permits γp 25 -∗ wpp (record ln lt lm t) V (λ _ _, True).
Proof.
  iIntros "#Hn #Ht #Hm Hp".
  iApply (wpp_for_range (λ i _, permits γp (25 - Z.to_nat i)) with "[] [Hp]"); [|done|by iIntros].
  iIntros "!>" (i V1 Hle1 Hi) "Hp". iApply wpp_bind. iApply wpp_clock. iIntros (z).
  iApply wpp_bind. iApply wpp_ret. do 2 iApply wpp_bind. iApply wpp_input. iIntros "!>" (z').
  iApply wpp_ret. replace (25 - Z.to_nat i) with (1 + (25 - Z.to_nat (i + 1))) by lia.
  rewrite permits_split. iDestruct "Hp" as "[H1 Hp]". iApply wpp_bind.
  iApply (wpp_count_done with "[] H1"); [iApply (is_mono_mono with "Hn"); apply Hle1|].
  iIntros (v V2 Hle2). assert (V ⊆ V2) as Hle by by etrans. iApply wpp_bind.
  iApply wpp_any_update; [iApply (is_cell_mono with "Ht"); apply Hle|]. iIntros (v' V3 Hle3).
  iApply wpp_bind. iApply wpp_any_update.
  { iApply (is_cell_mono with "Hm"). etrans; [apply Hle|apply Hle3]. }
  iIntros (v'' V4 _). by iApply wpp_ret.
Qed.

(** What the main thread has printed; [v] was read last. *)
Definition stat_reported pre γ ln V : iProp Σ :=
  ∃ rs v, printed (pre ++ (stat_line <$> rs)) ∗ ⌜counts_rise rs⌝ ∗
    ⌜Forall (λ r, r.1.1 <= v)%Z rs⌝ ∗ seen γ ln v (cur V).

Lemma wpp_report pre γ γp ln lt lm V Φ :
  is_mono up_to_100 (last_rmw (done_state γp)) γ ln (cur V) -∗ any_cell lt (cur V) -∗
  any_cell lm (cur V) -∗ stat_reported pre γ ln V -∗
  (∀ rs V', printed (pre ++ (stat_line <$> rs)) -∗ ⌜counts_rise rs⌝ -∗ Φ tt V') -∗
  wpp (report ln lt lm) V Φ.
Proof.
  iIntros "#Hn #Ht #Hm Hr HΦ".
  iApply (wpp_loop (λ _ V', stat_reported pre γ ln V' ∗
    ∀ rs V', printed (pre ++ (stat_line <$> rs)) -∗ ⌜counts_rise rs⌝ -∗ Φ tt V')%I with "[] [$Hr $HΦ]").
  iIntros "!>" ([] V1 Hle1) "[(%rs & %v & Hp & %Hrs & %Hv & #Hs) HΦ]". iApply wpp_bind.
  iApply (wpp_cell_load (λ _, True)%I (λ _, True)%I with "[]"); [done|iApply (is_cell_mono with "Ht"); apply Hle1|].
  iIntros (t V2 Hle2) "_". assert (V ⊆ V2) as HleV2 by by etrans. iApply wpp_bind.
  iApply (wpp_cell_load (λ _, True)%I (λ _, True)%I with "[]"); [done|iApply (is_cell_mono with "Hm"); apply HleV2|].
  iIntros (m V3 Hle3) "_". assert (V1 ⊆ V3) as HleV3 by by etrans. iApply wpp_bind.
  iApply (wpp_mono_load up_to_100 (last_rmw (done_state γp)) γ ln _ v with "[] []"); [done| | |].
  { iApply (is_mono_mono with "Hn"). etrans; [apply Hle1|apply HleV3]. }
  { iApply (seen_mono with "Hs"). apply HleV3. }
  iIntros (n V4 _ Hvn) "%Hn #Hs'". destruct (n =? 100)%Z eqn:Hn100.
  { iApply wpp_ret. by iApply ("HΦ" with "Hp"). }
  apply Z.eqb_neq in Hn100. iApply wpp_bind. iApply (wpp_print_statistics with "Hp"); [lia|].
  iIntros "Hp". iApply wpp_bind. do 2 iApply wpp_ret. iFrame "HΦ".
  iExists (rs ++ [(n, from_micros t / n, from_micros m)%Z]), n. rewrite fmap_app app_assoc. iFrame "Hp Hs'".
  assert (Forall (λ r, r.1.1 <= n)%Z rs) as Hall by (eapply Forall_impl; [|exact Hv]; simpl; lia).
  iPureIntro. split; [apply counts_rise_snoc; simpl; [done|done|lia]|].
  apply list.Forall_app. split; [done|]. by constructor.
Qed.

Lemma wpp_inaccurate `{!tokenG Σ} pre V Φ :
  printed pre -∗
  (∀ rs V', printed (pre ++ (stat_line <$> rs) ++ [("Done!"%string, [])]) -∗ ⌜counts_rise rs⌝ -∗
     Φ tt V') -∗
  wpp inaccurate_statistics V Φ.
Proof.
  iIntros "Hp HΦ". iApply wpo_fupd. iMod (permits_alloc 100) as (γp) "[HT Hps]".
  iDestruct (permits_none with "Hps") as "[H0 Hps]".
  iMod (permits_each γp [0; 1; 2; 3]%Z 25 with "Hps") as "Hps". iModIntro.
  iApply wpp_bind. iApply (wpp_mono_new_rmw up_to_100 (done_state γp) with "[%] [HT H0]"); [lia|by iSplitL "HT"|].
  iIntros (γ ln V1 _) "#Hn #Hs". iApply wpp_bind.
  iApply (wpp_cell_new (λ _, True)%I (λ _, True)%I with "[//] [//]"). iIntros (lt V2 Hle2) "#Ht".
  iApply wpp_bind. iApply (wpp_cell_new (λ _, True)%I (λ _, True)%I with "[//] [//]").
  iIntros (lm V3 Hle3) "#Hm". assert (V1 ⊆ V3) as HleV3 by by etrans.
  iDestruct (is_mono_mono with "Hn") as "Hn3"; [apply HleV3|].
  iDestruct (is_cell_mono with "Ht") as "Ht3"; [apply Hle3|]. iApply wpp_bind.
  iApply (wpp_scope [0; 1; 2; 3]%Z _ _ (λ _ _, True)%I
    (λ _ _, ∃ rs, printed (pre ++ (stat_line <$> rs)) ∗ ⌜counts_rise rs⌝)%I with "[Hps] [Hp]").
  - iApply (big_sepL_impl with "Hps"). iIntros "!>" (k t _) "Hps". iIntros (V' Hle).
    iApply (wpp_record with "[] [] [] Hps"); [by iApply (is_mono_mono with "Hn3")|
      by iApply (is_cell_mono with "Ht3")|by iApply (is_cell_mono with "Hm")].
  - iIntros (V4 Hle4). iApply (wpp_report pre γ γp with "[] [] [] [Hp]").
    + iApply (is_mono_mono with "Hn3"). apply Hle4.
    + iApply (is_cell_mono with "Ht3"). apply Hle4.
    + iApply (is_cell_mono with "Hm"). apply Hle4.
    + iExists [], 0%Z. rewrite app_nil_r. iFrame "Hp". iSplit; [iPureIntro; by split; constructor|].
      iSplit; [done|]. iApply (seen_mono with "Hs"). etrans; [apply HleV3|apply Hle4].
    + iIntros (rs V5) "Hp %Hrs". iExists rs. by iFrame "Hp".
  - iIntros ([] V4 V5 _ _) "(%rs & Hp & %Hrs) _". iApply (wpp_println with "Hp").
    iIntros "!> Hp". rewrite -app_assoc. by iApply ("HΦ" with "Hp").
Qed.
End inaccurate.

(** ** The structure behind a mutex *)

(** The average is not above the peak. *)
Definition average_ok (r : Z * Z * Z) : Prop := let '(n, a, p) := r in n = 0%Z ∨ (a <= p)%Z.

Section accurate.
Context `{!rustGS Σ, !lockG Σ, !countG Σ, !tokenG Σ}.
Context (γp : gname).
Import Statistics.
Implicit Types (V : tview) (m : Mutex).

(** The total is at most the number of items times the longest time; each of
    the 100 items is recorded once. *)
Definition stat_inv (d : loc) (W : view) : iProp Σ :=
  ∃ n t x, own_na d (MkStatistics n t x) W ∗ ⌜(0 <= n <= 100 ∧ 0 <= t <= n * x ∧ 0 <= x)%Z⌝ ∗
    permits_total γp 100 ∗ permits γp (Z.to_nat n).

#[global] Instance stat_inv_mono d : ViewMono (stat_inv d).
Proof. intros W W' Hle. iIntros "(%n & %t & %x & H & $ & $)". by iApply (own_na_mono with "H"). Qed.

Lemma wpp_read_statistics d n t x V Φ :
  own_na d (MkStatistics n t x) (cur V) -∗
  (∀ V', ⌜V ⊆ V'⌝ -∗ own_na d (MkStatistics n t x) (cur V') -∗ Φ (n, t, x) V') -∗
  wpp (read_statistics d) V Φ.
Proof.
  iIntros "Hd HΦ". iApply wpp_bind. iApply (wpp_read_list with "Hd"). iIntros (V1 Hle1) "Hd".
  iApply wpp_ret. by iApply ("HΦ" with "[//]").
Qed.

(** One update: it keeps the invariant or panics. *)
Lemma wpo_update d time V :
  (0 <= time)%Z → stat_inv d (cur V) -∗ permits γp 1 -∗
  wpo (update d time) V (λ o V', if o is Ok _ then stat_inv d (cur V') else True).
Proof.
  iIntros (Htime) "(%n & %t & %x & Hd & %Hinv & HT & Hn) H1".
  iAssert (permits γp (Z.to_nat n + 1)) with "[Hn H1]" as "Hn"; [rewrite permits_split; iFrame|].
  iDestruct (permits_le with "HT Hn") as %Hle. iApply wpp_bind_wpo.
  iApply (wpp_read_statistics with "Hd"). iIntros (V1 _) "Hd". iApply wpo_bind.
  rewrite /checked_add. destruct (n + 1 <? usize_modulus)%Z eqn:Hn; [|by iApply wpo_panic].
  iApply wpo_ret. iApply wpp_bind_wpo. iApply (wpp_write with "Hd"). iIntros "!>" (V2 _) "Hd".
  iApply wpo_bind. destruct (t + time <? u64_modulus)%Z; [|by iApply wpo_panic].
  iApply wpo_ret. iApply wpp_bind_wpo. iApply (wpp_write with "Hd"). iIntros "!>" (V3 _) "Hd".
  iApply wpp_wpo. iApply (wpp_write with "Hd"). iIntros "!>" (V4 _) "Hd".
  iExists _, _, _. iFrame "Hd HT". replace (Z.to_nat (n + 1)) with (Z.to_nat n + 1) by lia.
  iFrame "Hn". iPureIntro. nia.
Qed.

Lemma wpo_record_locked γ m t V :
  is_mutex false stat_inv γ m (cur V) -∗ permits γp 25 -∗
  wpo (record_locked m t) V (λ _ _, True).
Proof.
  iIntros "#Hm Hp".
  iApply (wpo_for_range (λ i _, permits γp (25 - Z.to_nat i)) with "[] [Hp]"); [|done|by iIntros].
  iIntros "!>" (i V1 Hle1 Hi) "Hp". iApply wpp_bind_wpo. iApply wpp_clock. iIntros (z).
  iApply wpp_bind_wpo. iApply wpp_ret. iApply wpp_bind_wpo. iApply wpp_bind. iApply wpp_input.
  iIntros "!>" (z'). iApply wpp_ret.
  replace (25 - Z.to_nat i) with (1 + (25 - Z.to_nat (i + 1))) by lia.
  rewrite permits_split. iDestruct "Hp" as "[H1 Hp]".
  iApply (wpo_guarded false stat_inv with "[]"); [iApply (std_mutex_mono with "Hm"); apply Hle1|].
  iSplit; [|by iIntros]. iIntros (V2 _) "Hs". iApply (wpo_wand with "[Hs H1]").
  { iApply (wpo_update with "Hs H1"). by apply Z.mod_pos_bound. }
  iIntros ([[]|e] V3 _) "H"; [iFrame "H"; iIntros (V4 _); iFrame "Hp"|by iSplit].
Qed.

Definition stat_lines_ok pre : iProp Σ :=
  ∃ rs, printed (pre ++ (stat_line <$> rs)) ∗ ⌜Forall average_ok rs⌝.

Lemma wpo_report_locked pre γ m V (Φ : outcome unit → tview → iProp Σ) :
  is_mutex false stat_inv γ m (cur V) -∗ stat_lines_ok pre -∗
  (∀ o V', ⌜o = Ok tt ∨ o = Panicked poison_error⌝ -∗ stat_lines_ok pre -∗ Φ o V') -∗
  wpo (report_locked m) V Φ.
Proof.
  iIntros "#Hm Hr HΦ". iApply (wpo_loop (λ _ V', stat_lines_ok pre ∗
    ∀ o V', ⌜o = Ok tt ∨ o = Panicked poison_error⌝ -∗ stat_lines_ok pre -∗ Φ o V')%I
    with "[] [$Hr $HΦ]").
  iIntros "!>" ([] V1 Hle1) "[Hr HΦ]". iApply wpo_bind.
  iApply (wpo_guarded false stat_inv with "[]"); [iApply (std_mutex_mono with "Hm"); apply Hle1|].
  iSplit; [|iIntros (V' _); iApply ("HΦ" with "[%] Hr"); by right].
  iIntros (V2 _) "(%n & %t & %x & Hd & %Hinv & HT & Hn)". iApply wpp_wpo.
  iApply (wpp_read_statistics with "Hd"). iIntros (V3 _) "Hd". iSplitL "Hd HT Hn".
  { iExists n, t, x. by iFrame. }
  iIntros (V4 _). destruct (n =? 100)%Z eqn:Hn100.
  { iApply wpo_ret. iApply ("HΦ" with "[%] Hr"). by left. }
  apply Z.eqb_neq in Hn100. iApply wpp_wpo. iApply wpp_bind. iDestruct "Hr" as (rs) "[Hp %Hrs]".
  iApply (wpp_print_statistics with "Hp"); [lia|]. iIntros "Hp". iApply wpp_bind.
  do 2 iApply wpp_ret. iFrame "HΦ". iExists (rs ++ [(n, from_micros t / n, from_micros x)%Z]).
  rewrite fmap_app app_assoc. iFrame "Hp". iPureIntro. apply list.Forall_app. split; [done|].
  constructor; [|done]. simpl. destruct (decide (n = 0%Z)); [by left|right].
  apply Z.div_le_upper_bound; [lia|]. rewrite /from_micros. nia.
Qed.

(** A scope whose threads may panic. *)
Lemma wpo_scope_panics (fs : list (prog unit)) (body : prog unit) V Φ :
  ([∗ list] f ∈ fs, ∀ V', ⌜cur V ⊆ cur V'⌝ -∗ wpo f V' (λ _ _, True)) -∗
  (∀ V', ⌜V ⊆ V'⌝ -∗ wpo body V' (λ o V2, ∀ V3, Φ o V3 ∧ Φ (Panicked "a scoped thread panicked") V3)) -∗
  wpo (scope fs body) V Φ.
Proof.
  iIntros "Hfs Hbody". iApply wpp_bind_wpo. iApply (wpp_spawn_all_any with "Hfs").
  iIntros (hs V1 Hle1) "Hhs". iApply wpo_catch.
  iApply (wpo_wand with "[Hbody]"); [by iApply "Hbody"|]. iIntros (o V2 Hle2) "Ho".
  iApply wpp_bind_wpo. iApply (wpp_join_all_any with "[Hhs]").
  { iApply (big_sepL_impl with "Hhs"). iIntros "!>" (i h' _) "Hh".
    iApply (join_handle_mono with "Hh"). apply Hle2. }
  iIntros (ok V3 _). iSpecialize ("Ho" $! V3). destruct o as [[]|e].
  - destruct ok; [iApply wpo_ret; iDestruct "Ho" as "[$ _]"|iApply wpo_panic; iDestruct "Ho" as "[_ $]"].
  - iApply wpo_panic. iDestruct "Ho" as "[$ _]".
Qed.
End accurate.

(** How the second part may end: a panic is an overflow of the total time. *)
Definition accurate_outcome (o : outcome unit) : Prop :=
  o = Ok tt ∨ o = Panicked poison_error ∨ o = Panicked "a scoped thread panicked".

Section statistics_main.
Context `{!rustGS Σ, !monoG Σ, !lockG Σ, !countG Σ, !tokenG Σ}.
Import Statistics.

Lemma wpo_accurate pre V (Φ : outcome unit → tview → iProp Σ) :
  printed pre -∗
  (∀ o V' rs, ⌜accurate_outcome o⌝ -∗ ⌜Forall average_ok rs⌝ -∗
     printed (pre ++ (stat_line <$> rs)) -∗ Φ o V') -∗
  wpo accurate_statistics V Φ.
Proof.
  iIntros "Hp HΦ". iApply wpo_fupd. iMod (permits_alloc 100) as (γp) "[HT Hps]".
  iDestruct (permits_none with "Hps") as "[H0 Hps]".
  iMod (permits_each γp [0; 1; 2; 3]%Z 25 with "Hps") as "Hps". iModIntro.
  iApply wpp_bind_wpo. iApply (wpp_mutex_new false (stat_inv γp) with "[HT H0]").
  { iIntros (d V' _) "Hd !>". iExists 0%Z, 0%Z, 0%Z. by iFrame. }
  iIntros (γ m V1 _) "#Hm". iApply (wpo_scope_panics with "[Hps]").
  - rewrite big_sepL_fmap. iApply (big_sepL_impl with "Hps"). iIntros "!>" (k t _) "Hps".
    iIntros (V' Hle). iApply (wpo_record_locked with "[] Hps"). by iApply (std_mutex_mono with "Hm").
  - iIntros (V2 Hle2). iApply (wpo_report_locked γp pre with "[] [Hp]").
    + iApply (std_mutex_mono with "Hm"). apply Hle2.
    + iExists []. rewrite app_nil_r. by iFrame "Hp".
    + iIntros (o V3 Ho) "(%rs & Hp & %Hrs)". iIntros (V4).
      iSplit; iApply ("HΦ" with "[%] [//] Hp"); rewrite /accurate_outcome; naive_solver.
Qed.
End statistics_main.


(** Why the first version is called inaccurate: a report may have an
    average above the peak, when the thread that makes it reads between the
    updates of another. *)
Theorem inaccurate_average :
  ∃ n a p, can_print Statistics.inaccurate_statistics [stat_line (n, a, p)] ∧
    ¬ average_ok (n, a, p).
Proof.
  exists 1%Z, 7000%Z, 0%Z. split; [|intros [?|?]; lia].
  set (c t := Choice t 1 false 7).
  apply (can_print_run (replicate 11 (0, c 0) ++ replicate 4 (1, c 0) ++
    [(0, c 0); (0, c 1); (0, c 0); (0, c 1); (0, c 0)])).
  vm_compute. reflexivity.
Qed.
