(* ===== verification/Threads.v ===== *)
(** * Threads

    [Closures] is 01-01_pass-closure-to-spawn.rs, [ThreadIds] is
    01-01_thread_id.rs and [Scoped] is 01-02_thread-with-scope.rs. *)

From iris.proofmode Require Import proofmode.
From iris.base_logic.lib Require Import invariants token.
From S2P Require Import Prelude Memory Lang Runs Logic Rules Interleaving Std Publish.
From S2P Require Import Output Fifo.

(** ** The code *)

Module Closures.

(** A thread that returns a value: [spawn] and [join().unwrap()]. *)
Definition spawn_val (c : prog val) : prog (loc * loc) :=
  packet ← new_cell VUninit;
  h ← spawn (v ← c; write packet v);
  mret (h, packet).
Definition join_val (t : loc * loc) : prog val := join_unwrap t.1;; read t.2.

(** [for n in numbers { println!("{n}") }] *)
Fixpoint print_all (numbers : list Z) : prog unit :=
  match numbers with
  | [] => mret ()
  | n :: numbers => println "{n}" [VInt n];; print_all numbers
  end.

Definition f : prog unit :=
  let numbers := [1; 2; 3]%Z in
  t ← spawn (print_all numbers);
  join_unwrap t.

(** [sum::<usize>()], with overflow checks *)
Fixpoint sum (numbers : list Z) (acc : Z) : prog Z :=
  match numbers with
  | [] => mret acc
  | n :: numbers =>
      if (acc + n <? usize_modulus)%Z then sum numbers (acc + n)
      else Panic "attempt to add with overflow"
  end.

(** Integer division panics on 0. *)
Definition div (a b : Z) : prog Z :=
  if (b =? 0)%Z then Panic "attempt to divide by zero" else mret (a / b)%Z.

Definition average (numbers : list Z) : prog val :=
  let len := Z.of_nat (length numbers) in
  s ← sum numbers 0;
  a ← div s len;
  mret (VInt a).

Definition g : prog unit :=
  let numbers := seqZ 0 1001 in
  t ← spawn_val (average numbers);
  average ← join_val t;
  println "average: {average}" [average].

Definition main : prog unit := f;; g.
End Closures.

Module ThreadIds.

Definition f (id : Z) : prog unit :=
  println "Hello from another thread!" [];;
  println "This is my thread id: {id:?}" [VInt id].

Definition main : prog unit :=
  COUNTER ← atomic_new 0;
  _ ← thread_id_new COUNTER;
  id1 ← thread_id_new COUNTER;
  t1 ← spawn (f id1);
  id2 ← thread_id_new COUNTER;
  t2 ← spawn (f id2);
  println "Hello from the main thread." [];;
  join_unwrap t1;;
  join_unwrap t2.
End ThreadIds.

Module Scoped.

Definition print_length (numbers : loc) : prog unit :=
  l ← read_list numbers; println "length: {}" [VInt (Z.of_nat (length l))].

Fixpoint print_each (l : list val) : prog unit :=
  match l with
  | [] => mret ()
  | n :: l => println "{n}" [n];; print_each l
  end.
Definition print_numbers (numbers : loc) : prog unit := l ← read_list numbers; print_each l.

Definition main : prog unit :=
  numbers ← new_cell (VList [VInt 1; VInt 2; VInt 3]);
  scope [print_length numbers; print_numbers numbers] (mret ()).
End Scoped.

(** ** Passing closures *)

Section closures.
Context `{!rustGS Σ, !tokenG Σ}.
Import Closures.

Lemma wpp_print_all numbers os V Φ :
  printed os -∗
  (printed (os ++ ((λ n, ("{n}"%string, [VInt n])) <$> numbers)) -∗ Φ tt V) -∗
  wpp (print_all numbers) V Φ.
Proof.
  iIntros "Hp HΦ". iInduction numbers as [|n numbers] "IH" forall (os); simpl.
  { iApply wpp_ret. iApply "HΦ". by rewrite app_nil_r. }
  iApply wpp_bind. iApply (wpp_println with "Hp"). iIntros "!> Hp".
  iApply ("IH" with "Hp"). by rewrite -app_assoc.
Qed.

Lemma wpp_spawn_val (c : prog val) (Ψ : val → Prop) V Φ :
  (∀ V', wpp c V' (λ v _, ⌜Ψ v⌝)) -∗
  (∀ t V', ⌜V ⊆ V'⌝ -∗
     join_handle t.1 (cur V') (ok_only (λ W, ∃ v, own_na t.2 v W ∗ ⌜Ψ v⌝)%I) -∗ Φ t V') -∗
  wpp (spawn_val c) V Φ.
Proof.
  iIntros "Hc HΦ". iApply wpp_bind. iApply wpp_new. iIntros "!>" (p V1 Hle1) "Hp".
  iApply wpp_bind. iApply (wpp_spawn_ok _ (λ W, ∃ v, own_na p v W ∗ ⌜Ψ v⌝)%I with "[Hc Hp]").
  { iIntros (V0 Hle). iApply wpp_bind. iApply (wpp_wand with "[Hc]"); [iApply "Hc"|].
    iIntros (v V' Hle') "%Hv". iDestruct (own_na_mono _ _ _ (cur V') with "Hp") as "Hp".
    { etrans; [done|apply Hle']. }
    iApply (wpp_write with "Hp"). iIntros "!>" (V2 _) "Hp". iExists v. by iFrame "Hp". }
  iIntros (h V2 Hle2) "Hh". iApply wpp_ret. iApply ("HΦ" $! (h, p) with "[%] Hh"). by etrans.
Qed.

End closures.

Definition sum_of_list (numbers : list Z) : Z := foldr Z.add 0%Z numbers.

Lemma sum_spec numbers acc :
  (0 <= acc < usize_modulus)%Z → Forall (λ n, 0 <= n)%Z numbers →
  Closures.sum numbers acc =
    if (acc + sum_of_list numbers <? usize_modulus)%Z then mret (acc + sum_of_list numbers)%Z
    else Panic "attempt to add with overflow".
Proof.
  revert acc. induction numbers as [|n numbers IH]; intros acc Hacc Hall; simpl.
  - rewrite Z.add_0_r (proj2 (Z.ltb_lt _ _)) //. lia.
  - apply list.Forall_cons in Hall as [Hn Hall].
    assert (0 <= sum_of_list numbers)%Z as Hpos.
    { clear -Hall. induction Hall; simpl; lia. }
    destruct (acc + n <? usize_modulus)%Z eqn:Hlt.
    + apply Z.ltb_lt in Hlt. rewrite IH; [|lia|done]. by rewrite Z.add_assoc.
    + apply Z.ltb_ge in Hlt. rewrite (proj2 (Z.ltb_ge _ _)) //. lia.
Qed.

(** The closure of [g] on any vector of [usize]: the mean, rounded down;
    a panic when the sum overflows, and a panic when the vector is empty. *)
Theorem average_spec numbers (Hnat : Forall (λ n, 0 <= n)%Z numbers) :
  Closures.average numbers =
    if (sum_of_list numbers <? usize_modulus)%Z then
      match numbers with
      | [] => Panic "attempt to divide by zero"
      | _ => mret (VInt (sum_of_list numbers / Z.of_nat (length numbers)))
      end
    else Panic "attempt to add with overflow".
Proof.
  rewrite /Closures.average sum_spec; [|done|done]. rewrite Z.add_0_l.
  destruct (sum_of_list numbers <? usize_modulus)%Z; [|done].
  by destruct numbers.
Qed.

Lemma average_spec_witness :
  Closures.average [1; 2; 6]%Z = mret (VInt 3).
Proof. rewrite (average_spec [1; 2; 6]%Z); [reflexivity|repeat constructor; lia]. Defined.

(** [main] of 01-01_pass-closure-to-spawn.rs prints the three numbers, in
    order, and then the average 500. *)
Theorem closures_main_safe :
  let os := [("{n}"%string, [VInt 1]); ("{n}"%string, [VInt 2]); ("{n}"%string, [VInt 3]);
             ("average: {average}"%string, [VInt 500])] in
  safe Closures.main (λ _, True) (λ o σ, o = Ok tt ∧ out σ = os) ∧ can_end Closures.main (Ok tt) os.
Proof.
  intros os. split; [|by_running 200%Z].
  apply (safe_no_panic #[rustΣ; tokenΣ] _ (λ os', os' = os)). iIntros (?) "Hp _".
  do 2 iApply wpp_bind. iApply (wpp_spawn_ok _ (λ _, printed (take 3 os)) with "[Hp]").
  { iIntros (V _). iApply (wpp_print_all with "Hp"). by iIntros "Hp". }
  iIntros (h V1 _) "Hh". iApply (wpp_join_unwrap with "Hh"). iIntros (V2 _) "Hp".
  iApply wpp_bind. iApply (wpp_spawn_val _ (λ v, v = VInt 500)).
  { iIntros (V'). assert (Closures.average (seqZ 0 1001) = mret (VInt 500)) as ->
      by (vm_compute; reflexivity). by iApply wpp_ret. }
  iIntros ([h' p] V3 _) "Hh". do 2 iApply wpp_bind. iApply (wpp_join_unwrap with "Hh").
  iIntros (V4 _) "(%v & Hv & ->)". iApply (wpp_read with "Hv"). iIntros "!>" (V5 _) "_".
  iApply (wpp_println with "Hp"). iIntros "!> Hp". iExists _. by iFrame "Hp".
Qed.

(** ** Thread ids *)

Section ids.
Context `{!rustGS Σ, !tokenG Σ}.

Lemma wpp_thread_id l n V Φ :
  (0 <= n)%Z → (n + 1 < u64_modulus)%Z → own_at l n (cur V) -∗
  (∀ V', ⌜V ⊆ V'⌝ -∗ own_at l (n + 1) (cur V') -∗ Φ (n + 1)%Z V') -∗
  wpp (thread_id_new l) V Φ.
Proof.
  iIntros (H0 Hn) "Hl HΦ". iApply wpp_bind. iApply (wpp_at_update with "Hl"); [done|].
  iIntros (V1 Hle1) "Hl". rewrite wrap_add_small; [|lia]. iApply wpp_ret. by iApply ("HΦ" with "[//]").
Qed.
End ids.

Definition hello (id : Z) : list output :=
  [("Hello from another thread!"%string, []); ("This is my thread id: {id:?}"%string, [VInt id])].

(** [main] of 01-01_thread_id.rs: the lines of the two threads, which have
    different ids, and of the main thread come in any interleaving, and all
    have come when [main] returns. *)
Theorem thread_ids_main_safe :
  let lines := [[("Hello from the main thread."%string, [])]; hello 2; hello 3] in
  safe ThreadIds.main (λ σ, ∃ rests, progress lines (out σ) rests)
    (λ o σ, o = Ok tt ∧ interleaving lines (out σ)) ∧
  ∃ os, can_end ThreadIds.main (Ok tt) os.
Proof.
  intros lines. split; [|eexists; by_running 200%Z].
  apply (safe_interleaved #[rustΣ; tokenΣ]). iIntros (? γs) "Hs".
  iDestruct (big_sepL2_length with "Hs") as %Hlen. destruct γs as [|γ0 [|γ1 [|γ2 [|]]]]; try done.
  iDestruct "Hs" as "(H0 & H1 & H2 & _)".
  iApply wpp_bind. iApply wpp_at_new. iIntros (l V1 _) "Hl".
  iApply wpp_bind. iApply (wpp_thread_id with "Hl"); [done..|]. iIntros (V2 _) "Hl".
  iApply wpp_bind. iApply (wpp_thread_id with "Hl"); [done..|]. iIntros (V3 _) "Hl".
  iApply wpp_bind. iApply (wpp_spawn_ok _ (λ _, writer lines γ1 []) with "[H1]").
  { iIntros (V _). iApply wpp_bind. iApply (wpp_println_writer with "H1"). iIntros "H1".
    iApply (wpp_println_writer with "H1"). by iIntros "H1". }
  iIntros (h1 V4 Hle4) "Hh1". iDestruct (view_mono with "Hl") as "Hl"; [apply Hle4|].
  iApply wpp_bind. iApply (wpp_thread_id with "Hl"); [done..|]. iIntros (V5 Hle5) "_".
  iApply wpp_bind. iApply (wpp_spawn_ok _ (λ _, writer lines γ2 []) with "[H2]").
  { iIntros (V _). iApply wpp_bind. iApply (wpp_println_writer with "H2"). iIntros "H2".
    iApply (wpp_println_writer with "H2"). by iIntros "H2". }
  iIntros (h2 V6 Hle6) "Hh2". iApply wpp_bind. iApply (wpp_println_writer with "H0"). iIntros "H0".
  iApply wpp_bind.
  iDestruct (join_handle_mono with "Hh1") as "Hh1"; [etrans; [apply Hle5|apply Hle6]|].
  iApply (wpp_join_unwrap with "Hh1"). iIntros (V7 Hle7) "H1".
  iDestruct (join_handle_mono with "Hh2") as "Hh2"; [apply Hle7|].
  iApply (wpp_join_unwrap with "Hh2"). iIntros (V8 _) "H2". by iFrame "H0 H1 H2".
Qed.

(** ** Scoped threads *)

Section scoped.
Context `{!rustGS Σ, !tokenG Σ}.

Lemma wpp_read_list_frozen p vs V Φ :
  frozen p (VList vs) (cur V) -∗ (∀ V', Φ vs V') -∗ wpp (read_list p) V Φ.
Proof.
  iIntros "#Hp HΦ". iApply wpp_bind. iApply (wpp_read_frozen with "Hp"). iIntros (V' _).
  by iApply wpp_ret.
Qed.

Lemma wpp_print_each lines γ vs V Φ :
  writer lines γ ((λ v, ("{n}"%string, [v])) <$> vs) -∗ (writer lines γ [] -∗ Φ tt V) -∗
  wpp (Scoped.print_each vs) V Φ.
Proof.
  iIntros "Hw HΦ". iInduction vs as [|v vs] "IH"; simpl.
  { iApply wpp_ret. by iApply "HΦ". }
  iApply wpp_bind. iApply (wpp_println_writer with "Hw"). iIntros "Hw". iApply ("IH" with "Hw HΦ").
Qed.
End scoped.

(** [main] of 01-02: both threads read the vector without a data race; the
    length and the numbers come in any interleaving. *)
Theorem scoped_main_safe :
  let lines := [[("length: {}"%string, [VInt 3])];
    [("{n}"%string, [VInt 1]); ("{n}"%string, [VInt 2]); ("{n}"%string, [VInt 3])]] in
  safe Scoped.main (λ σ, ∃ rests, progress lines (out σ) rests)
    (λ o σ, o = Ok tt ∧ interleaving lines (out σ)) ∧
  ∃ os, can_end Scoped.main (Ok tt) os.
Proof.
  intros lines. split; [|eexists; by_running 200%Z].
  apply (safe_interleaved #[rustΣ; tokenΣ]). iIntros (? γs) "Hs".
  iDestruct (big_sepL2_length with "Hs") as %Hlen. destruct γs as [|γ1 [|γ2 [|]]]; try done.
  iDestruct "Hs" as "(H1 & H2 & _)".
  iApply wpp_bind. iApply wpp_new. iIntros "!>" (p V1 _) "Hp". iApply wpo_fupd.
  iMod (frozen_alloc with "Hp") as "#Hp". iModIntro.
  iApply (wpp_scope [(γ1, Scoped.print_length p); (γ2, Scoped.print_numbers p)] snd (mret ())
    (λ x _, writer lines x.1 []) (λ _ _, True)%I with "[H1 H2]"); simpl.
  - iSplitL "H1"; [|iSplitL "H2"; [|done]]; iIntros (V Hle).
    + iApply wpp_bind. iApply wpp_read_list_frozen; [by iApply (view_mono with "Hp")|].
      iIntros (V'). iApply (wpp_println_writer with "H1"). by iIntros "H1".
    + iApply wpp_bind. iApply wpp_read_list_frozen; [by iApply (view_mono with "Hp")|].
      iIntros (V'). iApply (wpp_print_each lines γ2 [VInt 1; VInt 2; VInt 3] with "H2"). by iIntros "H2".
  - iIntros (V _). by iApply wpp_ret.
  - iIntros ([] V2 V3 _ _) "_ ($ & $ & _)".
Qed.

(** ** The binary of the package *)

Module Hello.

Definition main : prog unit := println "Hello, world!" [].
End Hello.

(** The program of src/main.rs prints its line. *)
Theorem hello_main_safe :
  safe Hello.main (λ _, True) (λ o σ, o = Ok tt ∧ out σ = [("Hello, world!"%string, [])]) ∧
  can_end Hello.main (Ok tt) [("Hello, world!"%string, [])].
Proof.
  split; [|by_running 10%Z]. apply (safe_no_panic #[rustΣ] _ (λ os, os = _)).
  iIntros (?) "Hp _". iApply (wpp_println with "Hp"). iIntros "!> Hp". iExists _. by iFrame "Hp".
Qed.
