(* ===== verification/Orderings.v ===== *)
(** * The programs of chapter 3, on memory orderings

    [StartJoin] is 03-03-01_starting-thread-and-joining.rs, [RelaxedOne] and
    [RelaxedTwo] are 03-04_relaxed-ordering.rs and
    03-04_relaxed-ordering2.rs, [ThinAir] is 03-04_out-of-thin-air.rs,
    [ReleaseAcquire] is 03-05_release-acquire-ordering.rs and [LockExample] is
    03-05-01_lock-example.rs.  A [static] is allocated by [main] and passed to
    the functions. *)

From iris.proofmode Require Import proofmode.
From iris.base_logic.lib Require Import invariants ghost_map ghost_var token.
From S2P Require Import Prelude Memory History Lang Runs Logic Rules Std Publish.
From S2P Require Import Monotone LockWord.

(** [fetch_add] of an [AtomicI32] *)
Definition fetch_add_i32 (l : loc) (n : Z) (o : ordering) : prog Z :=
  '(v, _) ← act (ORmw l (λ v, Some (wrap_i32 (v + n))) false o Relaxed); mret v.

(** ** The code *)

Module StartJoin.

Definition f (X : loc) : prog unit :=
  x ← load X Relaxed;
  assert ((x =? 1) || (x =? 2))%Z "assertion failed: x == 1 || x == 2".

Definition main : prog unit :=
  X ← atomic_new 0;
  store X 1 Relaxed;;
  t ← spawn (f X);
  store X 2 Relaxed;;
  join_unwrap t;;
  store X 3 Relaxed.
End StartJoin.

Module RelaxedOne.

Definition a (X : loc) : prog unit :=
  sleep;; _ ← fetch_add_i32 X 5 Relaxed; sleep;; _ ← fetch_add_i32 X 10 Relaxed; mret ().

Definition b (X : loc) : prog unit :=
  a ← load X Relaxed;
  sleep;;
  b ← load X Relaxed;
  sleep;;
  c ← load X Relaxed;
  d ← load X Relaxed;
  println "{a}, {b}, {c}, {d}" [VInt a; VInt b; VInt c; VInt d].

Definition main : prog unit :=
  X ← atomic_new 0;
  handle_a ← spawn (a X);
  handle_b ← spawn (b X);
  join_unwrap handle_a;;
  join_unwrap handle_b.
End RelaxedOne.

Module RelaxedTwo.

Definition a1 (X : loc) : prog unit := _ ← fetch_add_i32 X 5 Relaxed; sleep.
Definition a2 (X : loc) : prog unit := _ ← fetch_add_i32 X 10 Relaxed; sleep.

Definition b (X : loc) : prog unit :=
  a ← load X Relaxed;
  sleep;;
  b ← load X Relaxed;
  sleep;;
  c ← load X Relaxed;
  sleep;;
  d ← load X Relaxed;
  println "{a}, {b}, {c}, {d}" [VInt a; VInt b; VInt c; VInt d].

Definition main : prog unit :=
  X ← atomic_new 0;
  handle_b ← spawn (b X);
  handle_a2 ← spawn (a2 X);
  handle_a1 ← spawn (a1 X);
  join_unwrap handle_a1;;
  join_unwrap handle_a2;;
  join_unwrap handle_b.
End RelaxedTwo.

Module ThinAir.

Definition copy (from to : loc) : prog unit := x ← load from Relaxed; store to x Relaxed.

Definition main : prog unit :=
  X ← atomic_new 0;
  Y ← atomic_new 0;
  a ← spawn (copy X Y);
  b ← spawn (copy Y X);
  join_unwrap a;;
  join_unwrap b;;
  x ← load X Relaxed; assert_eq (VInt x) (VInt 0);;
  y ← load Y Relaxed; assert_eq (VInt y) (VInt 0).
End ThinAir.

Module ReleaseAcquire.

Definition producer (DATA READY : loc) : prog unit :=
  store DATA 123 Relaxed;; store_bool READY true Release.

Definition main : prog unit :=
  DATA ← atomic_new 0;
  READY ← atomic_new 0;
  _ ← spawn (producer DATA READY);
  while_loop (b ← load_bool READY Acquire; mret (negb b)) (sleep;; println "waiting..." []);;
  d ← load DATA Relaxed;
  println "{}" [VInt d].
End ReleaseAcquire.

Module LockExample.

(** [DATA.push(c)] *)
Definition string_push (p : loc) (c : string) : prog unit :=
  v ← read p;
  match v with VStr s => write p (VStr (s ++ c)) | _ => UB end.

Definition f (DATA LOCKED : loc) : prog unit :=
  r ← compare_exchange LOCKED 0 1 Acquire Relaxed;
  if is_ok r then string_push DATA "!";; store_bool LOCKED false Release
  else mret ().

Definition main : prog unit :=
  DATA ← new_cell (VStr "");
  LOCKED ← atomic_new 0;
  scope (replicate 100 (f DATA LOCKED)) (mret ()).
End LockExample.

(** ** Starting and joining *)

(** Something that happens once. *)
Class onceG Σ := OnceG { once_mapG :: ghost_mapG Σ unit unit }.
Definition onceΣ : gFunctors := #[ghost_mapΣ unit unit].
#[export] Instance subG_onceΣ Σ : subG onceΣ Σ → onceG Σ.
Proof. solve_inG. Qed.

Section once.
Context `{!onceG Σ}.
Definition pending (γ : gname) : iProp Σ := ghost_map_auth γ 1 (∅ : gmap unit unit).
Definition shot (γ : gname) : iProp Σ := tt ↪[γ]□ ().

Lemma pending_alloc : ⊢ |==> ∃ γ, pending γ.
Proof. iMod (ghost_map_alloc_empty (K := unit) (V := unit)) as (γ) "H". by iExists γ. Qed.
Lemma pending_shoot γ : pending γ ==∗ shot γ.
Proof. iIntros "H". by iMod (ghost_map_insert_persist tt () with "H") as "[_ $]". Qed.
Lemma pending_shot γ : pending γ -∗ shot γ -∗ False.
Proof.
  iIntros "H1 H2". by iDestruct (ghost_map_lookup with "H1 H2") as %?%lookup_empty_Some.
Qed.
End once.

Section start_join.
Context `{!rustGS Σ, !monoG Σ, !onceG Σ}.

(** The third store comes after the join. *)
Definition start_value (γ : gname) (v : Z) : iProp Σ := ⌜(v <= 2)%Z⌝ ∨ shot γ.

Lemma wpp_start_f γ γm γw X V :
  is_mono (start_value γ) (last_store γw) γm X (cur V) -∗ seen γm X 1 (cur V) -∗
  pending γ -∗ wpp (StartJoin.f X) V (λ _ _, pending γ).
Proof.
  iIntros "#HX #Hs Hp". iApply wpp_bind.
  iApply (wpp_mono_load (start_value γ) with "HX Hs"); [done|].
  iIntros (x V1 _ Hx) "[%Hx2|Hd] _"; [|iDestruct (pending_shot with "Hp Hd") as %[]].
  assert (x = 1 ∨ x = 2)%Z as [-> | ->] by lia; by iApply wpp_ret.
Qed.
End start_join.

(** [main] of 03-03-01: in every execution the thread reads 1 or 2, so its
    assertion holds and the join succeeds. *)
Theorem start_join_safe :
  safe StartJoin.main (λ σ, out σ = []) (λ o _, o = Ok tt) ∧ can_end StartJoin.main (Ok tt) [].
Proof.
  split; [|by_running 100%Z]. apply (safe_quiet #[rustΣ; monoΣ; onceΣ; tokenΣ]). iIntros (?).
  iMod pending_alloc as (γ) "Hp". iApply wpp_bind.
  iApply (wpp_mono_new_writer (start_value γ)); [by iLeft|].
  iIntros (γm γw X V1 _) "#HX Hw". iApply wpp_bind.
  iApply (wpp_mono_store (start_value γ) with "HX Hw"); [done|lia|by iLeft|].
  iIntros (V2 Hle2) "Hw". iDestruct (mono_writer_seen with "Hw") as "#Hs".
  iDestruct (is_mono_mono with "HX") as "HX2"; [apply Hle2|].
  iApply wpp_bind. iApply (wpp_spawn_ok _ (λ _, pending γ) with "[Hp]").
  { iIntros (V' Hle). iApply (wpp_start_f with "[] [] Hp"); [by iApply (is_mono_mono with "HX2")|].
    by iApply (seen_mono with "Hs"). }
  iIntros (h V3 Hle3) "Hh". iDestruct (is_mono_mono with "HX2") as "HX3"; [apply Hle3|].
  iDestruct (mono_writer_mono with "Hw") as "Hw"; [apply Hle3|]. iApply wpp_bind.
  iApply (wpp_mono_store (start_value γ) with "HX3 Hw"); [done|lia|by iLeft|].
  iIntros (V4 Hle4) "Hw". iApply wpp_bind.
  iDestruct (join_handle_mono with "Hh") as "Hh"; [apply Hle4|].
  iApply (wpp_join_unwrap with "Hh"). iIntros (V5 Hle5) "Hp". iApply wpo_fupd.
  iMod (pending_shoot with "Hp") as "#Hd". iModIntro.
  iApply (wpp_mono_store (start_value γ) γm γw X 2 with "[] [Hw]"); [done|lia| | |by iRight|by iIntros].
  - iApply (is_mono_mono with "HX3"). etrans; [apply Hle4|apply Hle5].
  - iApply (mono_writer_mono with "Hw"). apply Hle5.
Qed.

(** ** Relaxed operations on one atomic *)

(** The line printed by [b]: four of the values [vs], in the order of the
    modifications. *)
Definition four_loads (vs : list Z) (os : list output) : Prop :=
  ∃ a b c d, os = [("{a}, {b}, {c}, {d}"%string, [VInt a; VInt b; VInt c; VInt d])] ∧
    (a <= b <= c)%Z ∧ (c <= d)%Z ∧ Forall (λ v, v ∈ vs) [a; b; c; d].

Section relaxed.
Context `{!rustGS Σ, !monoG Σ, !ghost_varG Σ bool}.
Context (vs : list Z).
Implicit Types (X : loc) (V : tview).

Definition one_of (v : Z) : iProp Σ := ⌜v ∈ vs⌝.

(** Which of the two additions have been made. *)
Definition sum_of (b1 b2 : bool) : Z := (if b1 then 5 else 0) + (if b2 then 10 else 0).
Definition added (γ1 γ2 : gname) (v : Z) : iProp Σ :=
  ∃ b1 b2, ⌜v = sum_of b1 b2⌝ ∗ ghost_var γ1 (1/2) b1 ∗ ghost_var γ2 (1/2) b2.

Lemma wpp_add_5 γm γ1 γ2 X (S : iProp Σ) V Φ :
  (∀ b2, S -∗ ghost_var γ2 (1/2) b2 -∗ ⌜sum_of true b2 ∈ vs⌝) →
  is_mono one_of (last_rmw (added γ1 γ2)) γm X (cur V) -∗ ghost_var γ1 (1/2) false -∗ S -∗
  (∀ v V', ⌜V ⊆ V'⌝ -∗ ghost_var γ1 (1/2) true -∗ S -∗ Φ v V') -∗
  wpp (fetch_add_i32 X 5 Relaxed) V Φ.
Proof.
  iIntros (HS) "#HX Hγ S HΦ".
  iApply (wpp_mono_update one_of (added γ1 γ2) γm X (λ v, wrap_i32 (v + 5)) with "HX"); [done|].
  iIntros (v) "_ (%b1 & %b2 & -> & H1 & H2)". iDestruct (ghost_var_agree with "Hγ H1") as %<-.
  iMod (ghost_var_update_halves true with "Hγ H1") as "[Hγ H1]".
  iDestruct (HS with "S H2") as %Hin.
  assert (wrap_i32 (sum_of false b2 + 5) = sum_of true b2) as -> by by destruct b2.
  iModIntro. iSplit; [iPureIntro; destruct b2; done|]. iSplit; [done|].
  iSplitL "H1 H2"; [iExists true, b2; by iFrame|]. iIntros (V' Hle) "_".
  iApply ("HΦ" with "[//] Hγ S").
Qed.

Lemma wpp_add_10 γm γ1 γ2 X (S : iProp Σ) V Φ :
  (∀ b1, S -∗ ghost_var γ1 (1/2) b1 -∗ ⌜sum_of b1 true ∈ vs⌝) →
  is_mono one_of (last_rmw (added γ1 γ2)) γm X (cur V) -∗ ghost_var γ2 (1/2) false -∗ S -∗
  (∀ v V', ⌜V ⊆ V'⌝ -∗ ghost_var γ2 (1/2) true -∗ S -∗ Φ v V') -∗
  wpp (fetch_add_i32 X 10 Relaxed) V Φ.
Proof.
  iIntros (HS) "#HX Hγ S HΦ".
  iApply (wpp_mono_update one_of (added γ1 γ2) γm X (λ v, wrap_i32 (v + 10)) with "HX"); [done|].
  iIntros (v) "_ (%b1 & %b2 & -> & H1 & H2)". iDestruct (ghost_var_agree with "Hγ H2") as %<-.
  iMod (ghost_var_update_halves true with "Hγ H2") as "[Hγ H2]".
  iDestruct (HS with "S H1") as %Hin.
  assert (wrap_i32 (sum_of b1 false + 10) = sum_of b1 true) as -> by by destruct b1.
  iModIntro. iSplit; [iPureIntro; destruct b1; done|]. iSplit; [done|].
  iSplitL "H1 H2"; [iExists b1, true; by iFrame|]. iIntros (V' Hle) "_".
  iApply ("HΦ" with "[//] Hγ S").
Qed.

(** The four loads; [RelaxedTwo.b] only sleeps once more. *)
Lemma wpp_four_loads γm X Y `{!∀ h, Timeless (Y h)} V :
  is_mono one_of Y γm X (cur V) -∗ seen γm X 0 (cur V) -∗ printed [] -∗
  wpp (RelaxedOne.b X) V (λ _ _, ∃ os, printed os ∗ ⌜four_loads vs os⌝).
Proof.
  iIntros "#HX Hs Hp". iApply wpp_bind. iApply (wpp_mono_load one_of Y with "HX Hs"); [done|].
  iIntros (a V1 Hle1 _) "%Ha Hs". iApply wpp_bind. iApply wpp_ret.
  iDestruct (is_mono_mono with "HX") as "HX1"; [apply Hle1|].
  iApply wpp_bind. iApply (wpp_mono_load one_of Y with "HX1 Hs"); [done|].
  iIntros (b V2 Hle2 Hab) "%Hb Hs". iApply wpp_bind. iApply wpp_ret.
  iDestruct (is_mono_mono with "HX1") as "HX2"; [apply Hle2|].
  iApply wpp_bind. iApply (wpp_mono_load one_of Y with "HX2 Hs"); [done|].
  iIntros (c V3 Hle3 Hbc) "%Hc Hs".
  iDestruct (is_mono_mono with "HX2") as "HX3"; [apply Hle3|].
  iApply wpp_bind. iApply (wpp_mono_load one_of Y with "HX3 Hs"); [done|].
  iIntros (d V4 Hle4 Hcd) "%Hd Hs". iApply (wpp_println with "Hp"). iIntros "!> Hp".
  iExists _. iFrame "Hp". iPureIntro. exists a, b, c, d. split; [done|]. split; [done|].
  split; [done|]. by repeat constructor.
Qed.
End relaxed.

Section relaxed_programs.
Context `{!rustGS Σ, !monoG Σ, !ghost_varG Σ bool}.
Implicit Types (X : loc) (V : tview).

Lemma wpp_relaxed_a γm γ1 γ2 X V :
  is_mono (one_of [0; 5; 15]%Z) (last_rmw (added γ1 γ2)) γm X (cur V) -∗
  ghost_var γ1 (1/2) false -∗ ghost_var γ2 (1/2) false -∗
  wpp (RelaxedOne.a X) V (λ _ _, True).
Proof.
  iIntros "#HX H1 H2". iApply wpp_bind. iApply wpp_ret. iApply wpp_bind.
  iApply (wpp_add_5 with "HX H1 H2").
  { iIntros (b2) "H2 H2'". iDestruct (ghost_var_agree with "H2 H2'") as %<-. iPureIntro. set_solver. }
  iIntros (v V1 Hle1) "H1 H2". iApply wpp_bind. iApply wpp_ret. iApply wpp_bind.
  iApply (wpp_add_10 with "[] H2 H1"); [|iApply (is_mono_mono with "HX"); apply Hle1|].
  { iIntros (b1) "H1 H1'". iDestruct (ghost_var_agree with "H1 H1'") as %<-. iPureIntro. set_solver. }
  iIntros (v' V2 _) "_ _". by iApply wpp_ret.
Qed.

Lemma wpp_relaxed_a1 γm γ1 γ2 X V :
  is_mono (one_of [0; 5; 10; 15]%Z) (last_rmw (added γ1 γ2)) γm X (cur V) -∗
  ghost_var γ1 (1/2) false -∗ wpp (RelaxedTwo.a1 X) V (λ _ _, True).
Proof.
  iIntros "#HX H1". iApply wpp_bind. iApply (wpp_add_5 _ _ _ _ _ True%I with "HX H1 [//]").
  { iIntros ([]) "_ _"; iPureIntro; set_solver. }
  iIntros (v V1 _) "_ _". by iApply wpp_ret.
Qed.

Lemma wpp_relaxed_a2 γm γ1 γ2 X V :
  is_mono (one_of [0; 5; 10; 15]%Z) (last_rmw (added γ1 γ2)) γm X (cur V) -∗
  ghost_var γ2 (1/2) false -∗ wpp (RelaxedTwo.a2 X) V (λ _ _, True).
Proof.
  iIntros "#HX H2". iApply wpp_bind. iApply (wpp_add_10 _ _ _ _ _ True%I with "HX H2 [//]").
  { iIntros ([]) "_ _"; iPureIntro; set_solver. }
  iIntros (v V1 _) "_ _". by iApply wpp_ret.
Qed.

(** The atomic and the permission to make the two additions. *)
Lemma wpp_relaxed_new vs V Φ :
  0%Z ∈ vs →
  (∀ γm γ1 γ2 X V', is_mono (one_of vs) (last_rmw (added γ1 γ2)) γm X (cur V') -∗
     seen γm X 0 (cur V') -∗ ghost_var γ1 (1/2) false -∗ ghost_var γ2 (1/2) false -∗ Φ X V') -∗
  wpp (atomic_new 0) V Φ.
Proof.
  iIntros (H0) "HΦ". iApply wpo_fupd. iMod (ghost_var_alloc false) as (γ1) "[H1 H1']".
  iMod (ghost_var_alloc false) as (γ2) "[H2 H2']". iModIntro.
  iApply (wpp_mono_new_rmw (one_of vs) (added γ1 γ2) with "[//] [H1' H2']").
  { iExists false, false. by iFrame. }
  iIntros (γm X V1 _) "HX Hs". iApply ("HΦ" with "HX Hs H1 H2").
Qed.
End relaxed_programs.

(** [main] of 03-04_relaxed-ordering.rs: [b] prints four of 0, 5 and 15,
    and never an older value after a newer one. *)
Theorem relaxed_one_safe :
  safe RelaxedOne.main (λ _, True) (λ o σ, o = Ok tt ∧ four_loads [0; 5; 15]%Z (out σ)) ∧
  ∃ os, can_end RelaxedOne.main (Ok tt) os.
Proof.
  split; [|eexists; by_running 100%Z].
  apply (safe_no_panic #[rustΣ; monoΣ; ghost_varΣ bool; tokenΣ] _ (four_loads _)).
  iIntros (?) "Hp _". iApply wpp_bind. iApply (wpp_relaxed_new [0; 5; 15]%Z); [set_solver|].
  iIntros (γm γ1 γ2 X V1) "#HX #Hs H1 H2". iApply wpp_bind.
  iApply (wpp_spawn_ok _ (λ _, True)%I with "[H1 H2]").
  { iIntros (V Hle). iApply (wpp_relaxed_a with "[] H1 H2"). by iApply (is_mono_mono with "HX"). }
  iIntros (ha V2 Hle2) "Ha". iApply wpp_bind.
  iApply (wpp_spawn_ok _ (λ _, ∃ os, printed os ∗ ⌜four_loads [0; 5; 15]%Z os⌝)%I with "[Hp]").
  { iIntros (V Hle). iApply (wpp_four_loads [0; 5; 15]%Z γm X (last_rmw (added γ1 γ2)) with "[] [] Hp").
    - iApply (is_mono_mono with "HX"). etrans; [apply Hle2|done].
    - iApply (seen_mono with "Hs"). etrans; [apply Hle2|done]. }
  iIntros (hb V3 Hle3) "Hb". iApply wpp_bind.
  iDestruct (join_handle_mono with "Ha") as "Ha"; [apply Hle3|].
  iApply (wpp_join_unwrap with "Ha").
  iIntros (V4 Hle4) "_".
  iDestruct (join_handle_mono with "Hb") as "Hb"; [apply Hle4|].
  iApply (wpp_join_unwrap with "Hb").
  by iIntros (V5 _) "H".
Qed.

(** [main] of 03-04_relaxed-ordering2.rs: the two additions may come in
    either order, the loads of [b] follow the one there is. *)
Theorem relaxed_two_safe :
  safe RelaxedTwo.main (λ _, True) (λ o σ, o = Ok tt ∧ four_loads [0; 5; 10; 15]%Z (out σ)) ∧
  ∃ os, can_end RelaxedTwo.main (Ok tt) os.
Proof.
  split; [|eexists; by_running 100%Z].
  apply (safe_no_panic #[rustΣ; monoΣ; ghost_varΣ bool; tokenΣ] _ (four_loads _)).
  iIntros (?) "Hp _". iApply wpp_bind. iApply (wpp_relaxed_new [0; 5; 10; 15]%Z); [set_solver|].
  iIntros (γm γ1 γ2 X V1) "#HX #Hs H1 H2". iApply wpp_bind.
  iApply (wpp_spawn_ok _ (λ _, ∃ os, printed os ∗ ⌜four_loads [0; 5; 10; 15]%Z os⌝)%I with "[Hp]").
  { iIntros (V Hle).
    iApply (wpp_four_loads [0; 5; 10; 15]%Z γm X (last_rmw (added γ1 γ2)) with "[] [] Hp").
    - by iApply (is_mono_mono with "HX").
    - by iApply (seen_mono with "Hs"). }
  iIntros (hb V2 Hle2) "Hb". iApply wpp_bind.
  iDestruct (is_mono_mono with "HX") as "HX2"; [apply Hle2|].
  iApply (wpp_spawn_ok _ (λ _, True)%I with "[H2]").
  { iIntros (V Hle). iApply (wpp_relaxed_a2 with "[] H2"). by iApply (is_mono_mono with "HX2"). }
  iIntros (ha2 V3 Hle3) "Ha2". iApply wpp_bind.
  iDestruct (is_mono_mono with "HX2") as "HX3"; [apply Hle3|].
  iApply (wpp_spawn_ok _ (λ _, True)%I with "[H1]").
  { iIntros (V Hle). iApply (wpp_relaxed_a1 with "[] H1"). by iApply (is_mono_mono with "HX3"). }
  iIntros (ha1 V4 Hle4) "Ha1". iApply wpp_bind. iApply (wpp_join_unwrap with "Ha1").
  iIntros (V5 Hle5) "_". iApply wpp_bind.
  iDestruct (join_handle_mono with "Ha2") as "Ha2"; [etrans; [apply Hle4|apply Hle5]|].
  iApply (wpp_join_unwrap with "Ha2"). iIntros (V6 Hle6) "_".
  iDestruct (join_handle_mono with "Hb") as "Hb".
  { etrans; [apply Hle3|]. etrans; [apply Hle4|]. etrans; [apply Hle5|apply Hle6]. }
  iApply (wpp_join_unwrap with "Hb"). by iIntros (V7 _) "H".
Qed.

(** ** Values out of thin air *)

Section thin_air.
Context `{!rustGS Σ, !monoG Σ}.

Definition zero (v : Z) : iProp Σ := ⌜v = 0%Z⌝.

Lemma wpp_copy γx γxw γy γyw X Y V :
  is_mono zero (last_store γxw) γx X (cur V) -∗ seen γx X 0 (cur V) -∗
  is_mono zero (last_store γyw) γy Y (cur V) -∗ mono_writer γy γyw Y 0 (cur V) -∗
  wpp (ThinAir.copy X Y) V (λ _ _, True).
Proof.
  iIntros "#HX #Hs #HY Hw". iApply wpp_bind. iApply (wpp_mono_load zero with "HX Hs"); [done|].
  iIntros (x V1 Hle1 _) "-> _".
  iApply (wpp_mono_store zero γy γyw Y 0 0 with "[] [Hw]"); [done..| | |done|by iIntros].
  - iApply (is_mono_mono with "HY"). apply Hle1.
  - iApply (mono_writer_mono with "Hw"). apply Hle1.
Qed.

Lemma wpp_load_zero γ γw X V V' (Φ : Z → tview → iProp Σ) :
  cur V ⊆ cur V' → is_mono zero (last_store γw) γ X (cur V) -∗ seen γ X 0 (cur V) -∗
  (∀ V2, ⌜V' ⊆ V2⌝ -∗ Φ 0%Z V2) -∗ wpp (load X Relaxed) V' Φ.
Proof.
  iIntros (Hle) "#HX #Hs HΦ".
  iApply (wpp_mono_load zero (last_store γw) γ X _ 0 with "[] []"); [done| | |].
  - by iApply (is_mono_mono with "HX").
  - by iApply (seen_mono with "Hs").
  - iIntros (x V1 Hle1 _) "-> _". by iApply "HΦ".
Qed.
End thin_air.

(** [main] of 03-04_out-of-thin-air.rs: both assertions hold, in this model
    as on every real implementation. *)
Theorem thin_air_safe :
  safe ThinAir.main (λ σ, out σ = []) (λ o _, o = Ok tt) ∧ can_end ThinAir.main (Ok tt) [].
Proof.
  split; [|by_running 200%Z]. apply (safe_quiet #[rustΣ; monoΣ; tokenΣ]). iIntros (?).
  iApply wpp_bind. iApply (wpp_mono_new_writer zero with "[//]"). iIntros (γx γxw X V1 _) "#HX Hx".
  iApply wpp_bind. iApply (wpp_mono_new_writer zero with "[//]"). iIntros (γy γyw Y V2 Hle2) "#HY Hy".
  iDestruct (is_mono_mono with "HX") as "HX2"; [apply Hle2|].
  iDestruct (mono_writer_mono with "Hx") as "Hx"; [apply Hle2|].
  iDestruct (mono_writer_seen with "Hx") as "#Hsx". iDestruct (mono_writer_seen with "Hy") as "#Hsy".
  iApply wpp_bind. iApply (wpp_spawn_ok _ (λ _, True)%I with "[Hy]").
  { iIntros (V Hle). iApply (wpp_copy γx γxw γy γyw with "[] [] [] [Hy]");
      [by iApply (is_mono_mono with "HX2")|by iApply (seen_mono with "Hsx")|
       by iApply (is_mono_mono with "HY")|by iApply (mono_writer_mono with "Hy")]. }
  iIntros (ha V3 Hle3) "Ha". iApply wpp_bind.
  iApply (wpp_spawn_ok _ (λ _, True)%I with "[Hx]").
  { iIntros (V Hle). pose proof (tview_le_cur _ _ Hle3) as Hle3'.
    iApply (wpp_copy γy γyw γx γxw with "[] [] [] [Hx]");
      [iApply (is_mono_mono with "HY")|iApply (seen_mono with "Hsy")|
       iApply (is_mono_mono with "HX2")|iApply (mono_writer_mono with "Hx")]; by etrans. }
  iIntros (hb V4 Hle4) "Hb". iApply wpp_bind.
  iDestruct (join_handle_mono with "Ha") as "Ha"; [apply Hle4|].
  iApply (wpp_join_unwrap with "Ha"). iIntros (V5 Hle5) "_". iApply wpp_bind.
  iDestruct (join_handle_mono with "Hb") as "Hb"; [apply Hle5|].
  iApply (wpp_join_unwrap with "Hb"). iIntros (V6 Hle6) "_".
  assert (cur V2 ⊆ cur V6) as Hle by (destruct Hle3, Hle4, Hle5, Hle6; set_solver).
  iApply wpp_bind. iApply (wpp_load_zero with "HX2 Hsx"); [done|]. iIntros (V7 Hle7).
  iApply wpp_bind. iApply wpp_assert_eq; [done|].
  iApply wpp_bind. iApply (wpp_load_zero with "HY Hsy"); [destruct Hle7; set_solver|].
  iIntros (V8 Hle8). by iApply wpp_assert_eq.
Qed.

(** ** Release and acquire *)

Section release_acquire.
Context `{!rustGS Σ, !monoG Σ}.

(** Reading [true] tells that the data was written. *)
Definition ready_tells (γ : gname) (DATA : loc) (v : Z) (W : view) : iProp Σ :=
  ⌜v = 0%Z⌝ ∨ seen γ DATA 123 W.
Definition data_value (v : Z) : iProp Σ := ⌜(v <= 123)%Z⌝.

#[global] Instance ready_tells_mono γ DATA v : ViewMono (ready_tells γ DATA v).
Proof. intros W W' Hle. iIntros "[$|H]". iRight. by iApply (seen_mono with "H"). Qed.

Lemma wpp_producer γ γw DATA READY V :
  is_mono data_value (last_store γw) γ DATA (cur V) -∗ mono_writer γ γw DATA 0 (cur V) -∗
  is_pub (ready_tells γ DATA) READY (cur V) -∗
  wpp (ReleaseAcquire.producer DATA READY) V (λ _ _, True).
Proof.
  iIntros "#HD Hw #HR". iApply wpp_bind.
  iApply (wpp_mono_store data_value with "HD Hw"); [done|lia|done|]. iIntros (V1 Hle1) "Hw".
  iApply (wpp_pub_store (ready_tells γ DATA) with "[] [Hw]"); [done| | |by iIntros].
  - iApply (is_pub_mono with "HR"). apply Hle1.
  - iRight. by iApply mono_writer_seen.
Qed.

(** The wait: it ends when [true] is read, by a thread that then sees the data. *)
Lemma wpp_await γ DATA READY V Φ :
  is_pub (ready_tells γ DATA) READY (cur V) -∗ printed [] -∗
  (∀ n V', ⌜V ⊆ V'⌝ -∗ printed (replicate n ("waiting..."%string, [])) -∗
     seen γ DATA 123 (cur V') -∗ Φ tt V') -∗
  wpp (while_loop (b ← load_bool READY Acquire; mret (negb b)) (sleep;; println "waiting..." []))
    V Φ.
Proof.
  iIntros "#HR Hp HΦ". iApply (wpp_while (λ _, ∃ n, printed (replicate n ("waiting..."%string, [])) ∗
    ∀ n V', ⌜V ⊆ V'⌝ -∗ printed (replicate n ("waiting..."%string, [])) -∗
     seen γ DATA 123 (cur V') -∗ Φ tt V')%I with "[] [Hp HΦ]"); [|iExists 0; by iFrame].
  iIntros "!>" (V1 Hle1) "(%n & Hp & HΦ)". do 2 iApply wpp_bind.
  iApply (wpp_pub_load (ready_tells γ DATA) with "[]"); [done|iApply (is_pub_mono with "HR"); apply Hle1|].
  iIntros (v V2 Hle2) "Hv". do 2 iApply wpp_ret. destruct (to_bool v) eqn:Hb; simpl.
  - iDestruct "Hv" as "[->|Hv]"; [done|]. iApply ("HΦ" with "[%] Hp Hv"). by etrans.
  - iApply wpp_bind. iApply wpp_ret. iApply (wpp_println with "Hp"). iIntros "!> Hp".
    iExists (S n). rewrite replicate_S_end. iFrame "Hp HΦ".
Qed.
End release_acquire.

(** [main] of 03-05: the last line is 123 in every execution, whatever the
    number of "waiting..." before it. *)
Theorem release_acquire_safe :
  safe ReleaseAcquire.main (λ _, True) (λ o σ, o = Ok tt ∧
    ∃ n, out σ = replicate n ("waiting..."%string, []) ++ [("{}"%string, [VInt 123])]) ∧
  ∃ os, can_end ReleaseAcquire.main (Ok tt) os.
Proof.
  split; [|eexists; by_running 200%Z].
  apply (safe_no_panic #[rustΣ; monoΣ; tokenΣ] _ (λ os, ∃ n, os = _)). iIntros (?) "Hp _".
  iApply wpp_bind. iApply (wpp_mono_new_writer data_value 0 with "[%]"); [lia|].
  iIntros (γ γw DATA V1 _) "#HD Hw".
  iApply wpp_bind. iApply (wpp_pub_new (ready_tells γ DATA)); [by iLeft|].
  iIntros (READY V2 Hle2) "#HR". iDestruct (is_mono_mono with "HD") as "HD2"; [apply Hle2|].
  iDestruct (mono_writer_mono with "Hw") as "Hw"; [apply Hle2|].
  iApply wpp_bind. iApply (wpp_spawn_ok _ (λ _, True)%I with "[Hw]").
  { iIntros (V Hle). iApply (wpp_producer with "[] [Hw] []"); [by iApply (is_mono_mono with "HD2")|
      by iApply (mono_writer_mono with "Hw")|by iApply (is_pub_mono with "HR")]. }
  iIntros (h V3 Hle3) "_". iApply wpp_bind.
  iDestruct (is_pub_mono with "HR") as "HR3"; [apply Hle3|].
  iApply (wpp_await with "HR3 Hp"). iIntros (n V4 Hle4) "Hp Hs". iApply wpp_bind.
  iDestruct (is_mono_mono with "HD2") as "HD4"; [etrans; [apply Hle3|apply Hle4]|].
  iApply (wpp_mono_load data_value with "HD4 Hs"); [done|]. iIntros (d V5 _ Hd) "%Hd' _".
  assert (d = 123%Z) as -> by lia. iApply (wpp_println with "Hp"). iIntros "!> Hp".
  iExists _. iFrame "Hp". by iExists n.
Qed.

(** ** A lock *)

Section lock_example.
Context `{!rustGS Σ, !lockG Σ}.

Definition some_text (p : loc) (W : view) : iProp Σ := ∃ s, own_na p (VStr s) W.

#[global] Instance some_text_mono p : ViewMono (some_text p).
Proof. intros W W' Hle. iIntros "(%s & H)". iExists s. by iApply (own_na_mono with "H"). Qed.

Lemma wpp_lock_example γ p l N V :
  N ⊆ cur V → is_lock γ l N (λ z, z = 1%Z) (some_text p) -∗
  wpp (LockExample.f p l) V (λ _ _, True).
Proof.
  iIntros (HN) "#Hl". do 2 iApply wpp_bind.
  iApply (wpp_acquire_cas with "Hl"); [done..|]. iIntros (v [|] V1 Hle1 _) "H"; iApply wpp_ret; simpl.
  2: { by iApply wpp_ret. }
  iDestruct "H" as "[Hk (%s & Hp)]". do 2 iApply wpp_bind. iApply (wpp_read with "Hp").
  iIntros "!>" (V2 Hle2) "Hp". iApply (wpp_write with "Hp"). iIntros "!>" (V3 Hle3) "Hp".
  iApply (wpp_release_store with "Hl [Hk] [Hp]").
  - destruct Hle1, Hle2, Hle3. set_solver.
  - iApply (locked_mono with "Hk"). destruct Hle2, Hle3. set_solver.
  - by iExists _.
  - by iIntros.
Qed.
End lock_example.

(** [main] of 03-05-01: a hundred threads try the lock and push to the
    string without a data race. *)
Theorem lock_example_safe :
  safe LockExample.main (λ σ, out σ = []) (λ o _, o = Ok tt) ∧ can_end LockExample.main (Ok tt) [].
Proof.
  split; [|by_running 60000%Z]. apply (safe_quiet #[rustΣ; lockΣ; tokenΣ]). iIntros (?).
  iApply wpp_bind. iApply wpp_alloc. iIntros "!>" (p e1) "Hp".
  iApply wpp_bind. iApply wpp_post_fupd. iApply wpp_alloc_atomic. iIntros "!>" (l e2) "Hl".
  set (V2 := observe _ _ _).
  iMod (is_lock_alloc (λ z, z = 1%Z) (some_text p) l _ (cur V2) with "Hl [Hp]") as (γ) "#Hlk".
  { subst V2. simpl. set_solver. }
  { iExists _, _, _. iFrame "Hp". iPureIntro. subst V2. simpl. set_solver. }
  iModIntro. clearbody V2. rewrite (replicate_as_fmap (seq 0 100)).
  iApply (wpp_scope (seq 0 100) _ _ (λ _ _, True)%I (λ _ _, True)%I); [| |by iIntros].
  - iApply big_sepL_intro. iIntros "!>" (i j _ V' Hle). by iApply (wpp_lock_example with "Hlk").
  - iIntros (V' _). by iApply wpp_ret.
Qed.
