(* ===== verification/OutOfThinAir.v ===== *)
(** * Values out of thin air

    The comments of 03-04_out-of-thin-air.rs speak of two memory models: that of
    C++20, which judges an execution as a whole and lets values justify
    themselves, and a stricter one without cycles of causes.  Here are both, as
    axioms on candidate executions: the events of the threads, which write each
    load reads from, and the order of the writes to each atomic.  The loads of
    a thread of a program return anything; the axioms say which executions
    make sense. *)

From stdpp Require Import relations.
From S2P Require Import Prelude Memory Lang Std Orderings.

(** ** The events of a thread *)

Inductive label : Type :=
| LLoad (l : loc) (v : Z) (o : ordering)
| LStore (l : loc) (v : Z) (o : ordering).

(** What a thread does when its loads return [vs]; the model is for threads that
    load and store atomics, and end. *)
Fixpoint labels {A} (p : prog A) (vs : list Z) : option (list label) :=
  match p with
  | Ret _ => match vs with [] => Some [] | _ => None end
  | Act (OLoad l o) k =>
      match vs with v :: vs => (LLoad l v o ::.) <$> labels (k v) vs | [] => None end
  | Act (OStore l v o) k => (LStore l v o ::.) <$> labels (k tt) vs
  | _ => None
  end.

(** ** Candidate executions *)

(** The initial write of an atomic, and the [n]-th event of thread [i]. *)
Inductive event : Type := Init (l : loc) | At (i n : nat).

Record execution : Type := Execution {
  events : list (list label);
  (** which write a load reads from *)
  reads_from : event → event;
  (** the modification order of an atomic *)
  modification : loc → list event
}.

(** An execution of these threads. *)
Definition candidate (ps : list (prog unit)) (x : execution) : Prop :=
  Forall2 (λ p ls, ∃ vs, labels p vs = Some ls) ps (events x).

(** The atomics start at 0, as in the program. *)
Definition label_of (x : execution) (e : event) : option label :=
  match e with
  | Init l => Some (LStore l 0 Relaxed)
  | At i n => match events x !! i with Some ls => ls !! n | None => None end
  end.

Definition is_load (x : execution) (e : event) (l : loc) (v : Z) : Prop :=
  ∃ o, label_of x e = Some (LLoad l v o).
Definition is_store (x : execution) (e : event) (l : loc) (v : Z) : Prop :=
  ∃ o, label_of x e = Some (LStore l v o).

(** *** Relations *)

(** The order in the thread; the initial writes come before the threads. *)
Definition sequenced (e e' : event) : Prop :=
  match e, e' with
  | Init _, At _ _ => True
  | At i n, At j m => i = j ∧ n < m
  | _, _ => False
  end.

(** An acquire load synchronises with the release store it reads from. *)
Definition synchronises (x : execution) (e e' : event) : Prop :=
  reads_from x e' = e ∧ (∃ l v o, label_of x e = Some (LStore l v o) ∧ is_release o) ∧
  ∃ l v o, label_of x e' = Some (LLoad l v o) ∧ is_acquire o.

Definition happens_before (x : execution) : relation event :=
  tc (λ e e', sequenced e e' ∨ synchronises x e e').

(** [e] comes before [e'] in the modification order of [l]. *)
Definition modified_before (x : execution) (l : loc) (e e' : event) : Prop :=
  ∃ i j, modification x l !! i = Some e ∧ modification x l !! j = Some e' ∧ i < j.

(** *** The axioms of C++20, as far as loads and stores need them *)

Record consistent (x : execution) : Prop := {
  (** a load reads a value that was written *)
  reads_a_store e l v : is_load x e l v → is_store x (reads_from x e) l v;
  (** the modification order is a total order of the writes *)
  modification_stores l e : e ∈ modification x l ↔ ∃ v, is_store x e l v;
  modification_nodup l : NoDup (modification x l);
  (** nothing happens before itself *)
  hb_irreflexive e : ¬ happens_before x e e;
  (** coherence: write-write, read-read, write-read, read-write *)
  coherent_ww l e e' v v' : is_store x e l v → is_store x e' l v' →
    happens_before x e e' → modified_before x l e e';
  coherent_rr l e e' v v' : is_load x e l v → is_load x e' l v' →
    happens_before x e e' → ¬ modified_before x l (reads_from x e') (reads_from x e);
  coherent_wr l e e' v v' : is_store x e l v → is_load x e' l v' →
    happens_before x e e' → ¬ modified_before x l (reads_from x e') e;
  coherent_rw l e e' v v' : is_load x e l v → is_store x e' l v' →
    happens_before x e e' → modified_before x l (reads_from x e) e'
}.

(** *** The stricter model: no cycle of causes *)

(** A load depends on the store it reads from, an event on those before it. *)
Definition causes (x : execution) (e e' : event) : Prop :=
  sequenced e e' ∨ reads_from x e' = e ∧ ∃ l v, is_load x e' l v.

Definition grounded (x : execution) : Prop := ∀ e, ¬ tc (causes x) e e.

(** What is left in an atomic at the end. *)
Definition final (x : execution) (l : loc) (v : Z) : Prop :=
  ∃ e, is_store x e l v ∧ e ∈ modification x l ∧ ∀ e', ¬ modified_before x l e e'.

(** ** The program *)

(** The statics. *)
Definition X : loc := 1.
Definition Y : loc := 2.

(** The two threads of [main]. *)
Definition threads : list (prog unit) := [ThinAir.copy X Y; ThinAir.copy Y X].

(** The threads load [a] and [b]. *)
Definition thread_events (a b : Z) : list (list label) :=
  [[LLoad X a Relaxed; LStore Y a Relaxed]; [LLoad Y b Relaxed; LStore X b Relaxed]].

Lemma candidate_events x : candidate threads x → ∃ a b, events x = thread_events a b.
Proof.
  assert (∀ from to vs ls, labels (ThinAir.copy from to) vs = Some ls →
    ∃ a, ls = [LLoad from a Relaxed; LStore to a Relaxed]) as Hcopy.
  { intros from to [|a [|? ?]] ls; cbn; try done. intros [= <-]. by exists a. }
  unfold candidate. destruct x as [evs rf mo]. simpl.
  intros (l1 & ls & [vs1 H1] & Hls & ->)%Forall2_cons_inv_l.
  apply Forall2_cons_inv_l in Hls as (l2 & ls2 & [vs2 H2] & ->%Forall2_nil_inv_l & ->).
  destruct (Hcopy _ _ _ _ H1) as [a ->]. destruct (Hcopy _ _ _ _ H2) as [b ->]. by exists a, b.
Qed.

(** The events, by what they do. *)
Lemma thread_stores x a b e l v :
  events x = thread_events a b → is_store x e l v →
  e = Init l ∧ v = 0%Z ∨ e = At 0 1 ∧ l = Y ∧ v = a ∨ e = At 1 1 ∧ l = X ∧ v = b.
Proof.
  intros Hx [o Ho]. destruct e as [l'|[|[|i]] [|[|[|n]]]]; simpl in Ho;
    rewrite ?Hx in Ho; simpl in Ho; simplify_eq/=; auto 10.
Qed.

Lemma thread_loads x a b e l v :
  events x = thread_events a b → is_load x e l v →
  e = At 0 0 ∧ l = X ∧ v = a ∨ e = At 1 0 ∧ l = Y ∧ v = b.
Proof.
  intros Hx [o Ho]. destruct e as [l'|[|[|i]] [|[|[|n]]]]; simpl in Ho;
    rewrite ?Hx in Ho; simpl in Ho; simplify_eq/=; auto 10.
Qed.

(** ** The stricter model *)

(** If one of the threads loads something else than 0, each has it from the
    other. *)
Lemma grounded_loads x a b :
  events x = thread_events a b → consistent x → grounded x → a = 0%Z ∧ b = 0%Z.
Proof.
  intros Hx Hc Hg.
  assert (is_load x (At 0 0) X a) as Ha by (exists Relaxed; simpl; by rewrite Hx).
  assert (is_load x (At 1 0) Y b) as Hb by (exists Relaxed; simpl; by rewrite Hx).
  pose proof (reads_a_store x Hc _ _ _ Ha) as Hra.
  pose proof (reads_a_store x Hc _ _ _ Hb) as Hrb.
  apply (thread_stores x a b) in Hra as [[Hra ->]|[(? & ? & ?)|(Hra & _ & ->)]]; try done.
  - apply (thread_stores x 0 b) in Hrb as [[? ->]|[(? & ? & ->)|(? & ? & ?)]]; done.
  - apply (thread_stores x b b) in Hrb as [[? ->]|[(Hrb & _ & _)|(? & ? & ?)]]; try done.
    destruct (Hg (At 0 0)). apply (tc_l _ _ (At 0 1)); [by left; simpl; lia|].
    apply (tc_l _ _ (At 1 0)); [right; eauto|].
    apply (tc_l _ _ (At 1 1)); [by left; simpl; lia|]. apply tc_once. right. eauto.
Qed.

(** The modification order has a last write. *)
Lemma final_exists x l : consistent x → ∃ v, final x l v.
Proof.
  intros Hc. assert (Init l ∈ modification x l) as Hin.
  { apply (modification_stores x Hc). by exists 0%Z, Relaxed. }
  destruct (lookup_lt_is_Some_2 (modification x l) (pred (length (modification x l)))) as [e He].
  { destruct (modification x l); [by apply not_elem_of_nil in Hin|]. simpl. lia. }
  assert (e ∈ modification x l) as Hel by by eapply list_elem_of_lookup_2.
  destruct (proj1 (modification_stores x Hc l e) Hel) as [v Hv]. exists v, e.
  split_and!; [done..|]. intros e' (i & j & Hi & Hj & Hlt).
  pose proof (NoDup_lookup _ _ _ _ (modification_nodup x Hc l) Hi He). apply lookup_lt_Some in Hj. lia.
Qed.

(** C15. In the stricter model, where every value has a cause that does not depend on
    it, both atomics are 0 at the end, and so the assertions of 03-04 hold. *)
Theorem thin_air_excluded x (Hx : candidate threads x) (Hc : consistent x) (Hg : grounded x) v :
  (final x X v ↔ v = 0%Z) ∧ (final x Y v ↔ v = 0%Z).
Proof.
  destruct (candidate_events x Hx) as (a & b & Hev).
  destruct (grounded_loads x a b Hev Hc Hg) as [-> ->].
  assert (∀ l v, final x l v → v = 0%Z) as Hzero.
  { intros l w (e & He & _). apply (thread_stores _ _ _ _ _ _ Hev) in He. naive_solver. }
  split; (split; [apply Hzero|]); intros ->; [destruct (final_exists x X Hc) as [w Hw]
    |destruct (final_exists x Y Hc) as [w Hw]]; by rewrite <-(Hzero _ _ Hw).
Qed.

(** ** The model of C++20 *)

(** Each thread reads what the other one writes. *)
Definition circular (v : Z) : execution :=
  Execution (thread_events v v)
    (λ e, match e with At 0 0 => At 1 1 | At 1 0 => At 0 1 | _ => e end)
    (λ l, Init l :: if decide (l = X) then [At 1 1] else if decide (l = Y) then [At 0 1] else []).

(** Each thread reads the initial value. *)
Definition plain : execution :=
  Execution (thread_events 0 0)
    (λ e, match e with At 0 0 => Init X | At 1 0 => Init Y | _ => e end)
    (λ l, Init l :: if decide (l = X) then [At 1 1] else if decide (l = Y) then [At 0 1] else []).

(** Without release and acquire only the order in a thread counts. *)
Lemma relaxed_happens_before x a b e e' :
  events x = thread_events a b → happens_before x e e' → sequenced e e'.
Proof.
  intros Hx. induction 1 as [e e' H|e e1 e' H _ IH].
  - destruct H as [H|(_ & _ & l & v & o & Hl & Ho)]; [done|].
    destruct e' as [|[|[|i]] [|[|[|n]]]]; simpl in Hl; rewrite ?Hx in Hl; by simplify_eq/=.
  - destruct H as [H|(_ & _ & l & v & o & Hl & Ho)].
    + destruct e as [|i n], e1 as [|j m], e' as [|k p]; simpl in *; try done. lia.
    + destruct e1 as [|[|[|i]] [|[|[|n]]]]; simpl in Hl; rewrite ?Hx in Hl; by simplify_eq/=.
Qed.

(** The loads are free to read any store of the same value. *)
Lemma copies_consistent x a b :
  events x = thread_events a b →
  modification x = modification (circular 0) →
  is_store x (reads_from x (At 0 0)) X a → is_store x (reads_from x (At 1 0)) Y b →
  consistent x.
Proof.
  intros Hx Hm Ha Hb.
  assert (∀ e e', happens_before x e e' → sequenced e e') as Hseq
    by (intros e e'; by eapply relaxed_happens_before).
  assert (is_store x (At 0 1) Y a) as HY by (exists Relaxed; simpl; by rewrite Hx).
  assert (is_store x (At 1 1) X b) as HX by (exists Relaxed; simpl; by rewrite Hx).
  assert (∀ l, NoDup (modification x l)) as Hnd.
  { intros l. rewrite Hm. simpl. repeat case_decide; repeat constructor; set_solver. }
  assert (∀ l e, e ∈ modification x l ↔ ∃ v, is_store x e l v) as Hmo.
  { intros l e. rewrite Hm. simpl. split.
    - intros [->|He]%elem_of_cons; [by exists 0%Z, Relaxed|]. repeat case_decide; set_solver.
    - intros [v [[-> _]|[(-> & -> & _)|(-> & -> & _)]]%(thread_stores _ _ _ _ _ _ Hx)]; set_solver. }
  split; try done.
  - intros e l v [(-> & -> & ->)|(-> & -> & ->)]%(thread_loads _ _ _ _ _ _ Hx); done.
  - intros [l|i n] He%Hseq; simpl in He; [done|lia].
  - intros l e e' v v' H1 H2 H3%Hseq.
    destruct (thread_stores _ _ _ _ _ _ Hx H1) as [[-> ->]|[(-> & -> & ->)|(-> & -> & ->)]];
      destruct (thread_stores _ _ _ _ _ _ Hx H2) as [[-> ->]|[(-> & ? & ->)|(-> & ? & ->)]];
      simpl in H3; try done; try lia; subst l; exists 0, 1; rewrite Hm; split_and!; simpl; done || lia.
  - intros l e e' v v' H1 H2 H3%Hseq.
    destruct (thread_loads _ _ _ _ _ _ Hx H1) as [(-> & -> & ->)|(-> & -> & ->)];
      destruct (thread_loads _ _ _ _ _ _ Hx H2) as [(-> & ? & ->)|(-> & ? & ->)];
      simpl in H3; try done; lia.
  - intros l e e' v v' H1 H2 H3%Hseq.
    destruct (thread_stores _ _ _ _ _ _ Hx H1) as [[-> ->]|[(-> & -> & ->)|(-> & -> & ->)]].
    + intros (i & j & _ & Hj & Hlt). pose proof (NoDup_lookup _ j 0 (Init l) (Hnd l) Hj) as Hz.
      rewrite Hz in Hlt; [lia|]. by rewrite Hm.
    + destruct (thread_loads _ _ _ _ _ _ Hx H2) as [(-> & ? & ->)|(-> & ? & ->)]; simpl in H3; lia.
    + destruct (thread_loads _ _ _ _ _ _ Hx H2) as [(-> & ? & ->)|(-> & ? & ->)]; simpl in H3; lia.
  - intros l e e' v v' H1 H2 H3%Hseq.
    destruct (thread_loads _ _ _ _ _ _ Hx H1) as [(-> & -> & ->)|(-> & -> & ->)];
      destruct (thread_stores _ _ _ _ _ _ Hx H2) as [[-> ->]|[(-> & ? & ->)|(-> & ? & ->)]];
      simpl in H3; try done; lia.
Qed.

Lemma circular_candidate v : candidate threads (circular v).
Proof. repeat constructor; by exists [v]. Qed.

Lemma circular_consistent v : consistent (circular v).
Proof. apply (copies_consistent _ v v); [done..|by exists Relaxed|by exists Relaxed]. Qed.

Lemma plain_consistent : consistent plain.
Proof. apply (copies_consistent _ 0 0); [done..|by exists Relaxed|by exists Relaxed]. Qed.

(** C16. In the model of C++20 the two threads of 03-04 can end with any value in both
    atomics: each reads the value from the other, and no axiom forbids it.  Such
    an execution is not grounded unless the value is 0. *)
Theorem thin_air_allowed (v : Z) :
  ∃ x, candidate threads x ∧ consistent x ∧ (final x X v ∧ final x Y v) ∧
    (grounded x → v = 0%Z).
Proof.
  exists (circular v). split_and!; [apply circular_candidate|apply circular_consistent|..|].
  - exists (At 1 1). split_and!; [by exists Relaxed|simpl; set_solver|].
    intros e' (i & j & Hi & Hj & Hlt). destruct i as [|[|i]], j as [|[|j]]; simplify_eq/=; lia.
  - exists (At 0 1). split_and!; [by exists Relaxed|simpl; set_solver|].
    intros e' (i & j & Hi & Hj & Hlt). destruct i as [|[|i]], j as [|[|j]]; simplify_eq/=; lia.
  - intros Hg. by apply (grounded_loads (circular v) v v eq_refl (circular_consistent v) Hg).
Qed.

(** In [plain] a cause comes before what it causes. *)
Lemma plain_grounded : grounded plain.
Proof.
  set (rank e := match e with Init _ => 0 | At _ n => S n end).
  assert (∀ e e', causes plain e e' → rank e < rank e') as Hc.
  { intros e e' [H|(<- & l & v & Hl)].
    - destruct e, e'; simpl in *; try done; lia.
    - destruct (thread_loads plain 0 0 _ _ _ eq_refl Hl) as [(-> & _)|(-> & _)]; simpl; lia. }
  assert (∀ e e', tc (causes plain) e e' → rank e < rank e') as Hr.
  { intros e e'. induction 1 as [e e' H%Hc|e e1 e' H%Hc _ IH]; lia. }
  intros e He%Hr. lia.
Qed.

Lemma thin_air_excluded_witness : final plain X 0 ∧ final plain Y 0.
Proof.
  split; eapply thin_air_excluded; try reflexivity;
    first [apply plain_consistent|apply plain_grounded|idtac];
    repeat constructor; by exists [0%Z].
Defined.
