(* ===== verification/Fence.v ===== *)
(** * An acquire fence

    [Fences] is 03-08_fence.rs: ten threads write their data and set a flag
    with [Release]; the main thread reads the flags with [Relaxed] and then
    executes one acquire fence for all of them. *)

From iris.proofmode Require Import proofmode.
From iris.base_logic.lib Require Import invariants token.
From S2P Require Import Prelude Memory Lang Runs Logic Rules Std Publish.

Module Fences.

Definition some_calculation (i : nat) : prog Z := sleep;; mret (Z.of_nat (i * i)).

(** [[e; n]] *)
Fixpoint array_new (n : nat) (mk : prog loc) : prog (list loc) :=
  match n with
  | 0 => mret []
  | S n => l ← mk; ls ← array_new n mk; mret (l :: ls)
  end.

(** [a[i]] *)
Definition index (a : list loc) (i : nat) : prog loc :=
  match a !! i with Some l => mret l | None => Panic "index out of bounds" end.

Definition worker (DATA READY : list loc) (i : nat) : prog unit :=
  data ← some_calculation i;
  p ← index DATA i;
  write p (VInt data);;
  r ← index READY i;
  store_bool r true Release.

(** [for i in 0..n { thread::spawn(..) }], without joining *)
Fixpoint start (f : nat → prog unit) (ixs : list nat) : prog unit :=
  match ixs with
  | [] => mret ()
  | i :: ixs => _ ← spawn (f i); start f ixs
  end.

(** [array::from_fn(|i| READY[i].load(Relaxed))] *)
Fixpoint load_all (READY : list loc) : prog (list bool) :=
  match READY with
  | [] => mret []
  | r :: READY => b ← load_bool r Relaxed; bs ← load_all READY; mret (b :: bs)
  end.

Fixpoint print_ready (DATA : list loc) (ready : list bool) (i : nat) : prog unit :=
  match ready with
  | [] => mret ()
  | b :: ready =>
      (if (b : bool) then
         p ← index DATA i;
         v ← read p;
         println "data{i} = {}" [VInt (Z.of_nat i); v]
       else mret ());;
      print_ready DATA ready (S i)
  end.

Definition main : prog unit :=
  DATA ← array_new 10 (new_cell (VInt 0));
  READY ← array_new 10 (atomic_new 0);
  start (worker DATA READY) (seq 0 10);;
  sleep;;
  ready ← load_all READY;
  if existsb id ready then
    fence Acquire;;
    print_ready DATA ready 0
  else mret ().
End Fences.

(** ** Proofs *)

Section fences.
Context `{!rustGS Σ, !tokenG Σ}.
Implicit Types (V : tview) (ip : nat * loc).

(** Reading [true] tells that the data of the thread can be read. *)
Definition fence_data ip (W : view) : iProp Σ := frozen ip.2 (VInt (Z.of_nat (ip.1 * ip.1))) W.
Definition fence_tells ip (v : Z) (W : view) : iProp Σ := ⌜v = 0%Z⌝ ∨ fence_data ip W.

#[global] Instance fence_tells_mono ip v : ViewMono (fence_tells ip v).
Proof. intros W W' Hle. iIntros "[$|H]". iRight. by iApply (view_mono with "H"). Qed.

Lemma wpp_array_new {X} (xs : list X) mk (Ψ : X → loc → view → iProp Σ)
    `{!∀ x l, ViewMono (Ψ x l)} n V Φ :
  length xs = n →
  □ (∀ x V' Φ', (∀ l V2, ⌜V' ⊆ V2⌝ -∗ Ψ x l (cur V2) -∗ Φ' l V2) -∗ wpp mk V' Φ') -∗
  (∀ ls V', ⌜V ⊆ V'⌝ -∗ ([∗ list] x;l ∈ xs;ls, Ψ x l (cur V')) -∗ Φ ls V') -∗
  wpp (Fences.array_new n mk) V Φ.
Proof.
  iIntros (<-) "#Hmk HΦ". iInduction xs as [|x xs] "IH" forall (V Φ); simpl.
  { iApply wpp_ret. by iApply "HΦ". }
  iApply wpp_bind. iApply "Hmk". iIntros (l V1 Hle1) "Hx". iApply wpp_bind.
  iApply "IH". iIntros (ls V2 Hle2) "Hxs". iApply wpp_ret.
  iApply ("HΦ" with "[%]"); [by etrans|]. iFrame "Hxs". iApply (view_mono with "Hx"). apply Hle2.
Qed.

Lemma wpp_start (f : nat → prog unit) ixs V Φ :
  ([∗ list] i ∈ ixs, ∀ V', ⌜cur V ⊆ cur V'⌝ -∗ wpp (f i) V' (λ _ _, True)) -∗
  (∀ V', ⌜V ⊆ V'⌝ -∗ Φ tt V') -∗ wpp (Fences.start f ixs) V Φ.
Proof.
  iIntros "Hf HΦ". iInduction ixs as [|i ixs] "IH" forall (V); simpl.
  { iApply wpp_ret. by iApply "HΦ". }
  iDestruct "Hf" as "[Hi Hf]". iApply wpp_bind. iApply (wpp_spawn_ok _ (λ _, True)%I with "[Hi]").
  { iIntros (V' Hle). by iApply "Hi". }
  iIntros (h V1 Hle1) "_". iApply ("IH" with "[Hf]").
  - iApply (big_sepL_impl with "Hf"). iIntros "!>" (k j _) "H". iIntros (V' Hle). iApply "H".
    iPureIntro. etrans; [apply Hle1|done].
  - iIntros (V' Hle). iApply "HΦ". iPureIntro. by etrans.
Qed.

Lemma wpp_fence_worker DATA READY i p r V :
  DATA !! i = Some p → READY !! i = Some r →
  own_na p (VInt 0) (cur V) -∗ is_pub (fence_tells (i, p)) r (cur V) -∗
  wpp (Fences.worker DATA READY i) V (λ _ _, True).
Proof.
  iIntros (Hp Hr) "Hp #Hr". iApply wpp_bind. iApply wpp_bind. do 2 iApply wpp_ret. iApply wpp_bind.
  rewrite /Fences.index Hp Hr. iApply wpp_ret. iApply wpp_bind. iApply (wpp_write with "Hp").
  iIntros "!>" (V1 Hle1) "Hp". iApply wpo_fupd. iMod (frozen_alloc with "Hp") as "#Hp".
  iModIntro. iApply wpp_bind. iApply wpp_ret.
  iApply (wpp_pub_store (fence_tells (i, p)) with "[] []"); [done| | |by iIntros].
  - iApply (is_pub_mono with "Hr"). apply Hle1.
  - by iRight.
Qed.

(** All of them. *)
Lemma fence_workers n DATA READY V1 V2 :
  V1 ⊆ V2 →
  ([∗ list] _;p ∈ seq 0 n;DATA, own_na p (VInt 0) (cur V1)) -∗
  ([∗ list] ip;r ∈ zip (seq 0 n) DATA;READY, is_pub (fence_tells ip) r (cur V2)) -∗
  [∗ list] i ∈ seq 0 n, ∀ V', ⌜cur V2 ⊆ cur V'⌝ -∗
    wpp (Fences.worker DATA READY i) V' (λ _ _, True).
Proof.
  iIntros (Hle) "HD #HR". iDestruct (big_sepL2_length with "HR") as %HRlen.
  iDestruct (big_sepL2_length with "HD") as %HDlen.
  iDestruct (big_sepL2_impl _ (λ _ i _, ∀ V', ⌜cur V2 ⊆ cur V'⌝ -∗
    wpp (Fences.worker DATA READY i) V' (λ _ _, True))%I with "HD []") as "H"; last first.
  { iEval (rewrite big_sepL2_const_sepL_l) in "H". by iDestruct "H" as "[_ $]". }
  iIntros "!>" (k i p Hi Hp) "Hp". iIntros (V' Hle').
  assert (zip (seq 0 n) DATA !! k = Some (i, p)) as Hk by (apply lookup_zip_Some; done).
  destruct (lookup_lt_is_Some_2 READY k) as [r Hr]; [rewrite -HRlen; by eapply lookup_lt_Some|].
  apply lookup_seq in Hi as [-> _]. iDestruct (big_sepL2_lookup with "HR") as "Hr"; [done..|].
  iApply (wpp_fence_worker with "[Hp] []"); [done..| |].
  - iApply (own_na_mono with "Hp"). destruct Hle. set_solver.
  - by iApply (is_pub_mono with "Hr").
Qed.

(** What the relaxed loads found, for an acquire fence to use. *)
Lemma wpp_load_all ips rs V Φ :
  ([∗ list] ip;r ∈ ips;rs, is_pub (fence_tells ip) r (cur V)) -∗
  (∀ bs V', ⌜V ⊆ V'⌝ -∗ ([∗ list] ip;b ∈ ips;bs, ⌜b = false⌝ ∨ fence_data ip (acq V')) -∗
     Φ bs V') -∗
  wpp (Fences.load_all rs) V Φ.
Proof.
  iIntros "#Hrs HΦ". iInduction rs as [|r rs] "IH" forall (ips V Φ) "Hrs"; simpl.
  { iDestruct (big_sepL2_nil_inv_r with "Hrs") as %->. iApply wpp_ret. by iApply "HΦ". }
  destruct ips as [|ip ips]; [done|]. iEval (rewrite big_sepL2_cons) in "Hrs".
  iDestruct "Hrs" as "[Hr Hrs']".
  do 2 iApply wpp_bind.
  iApply (wpp_pub_load (fence_tells ip) with "Hr"); [done|]. iIntros (v V1 Hle1) "#Hv".
  iApply wpp_ret. iApply wpp_bind. iApply ("IH" $! ips with "[HΦ] []").
  - iIntros (bs V2 Hle2) "#Hbs". iApply wpp_ret. iApply ("HΦ" with "[%]"); [by etrans|].
    iFrame "Hbs". iDestruct "Hv" as "[->|Hv]"; [by iLeft|]. iRight.
    iApply (view_mono with "Hv"). apply Hle2.
  - iIntros "!>". iApply (big_sepL2_impl with "Hrs'"). iIntros "!>" (k ip' r' _ _) "H".
    iApply (is_pub_mono with "H"). apply Hle1.
Qed.

Definition fence_line (i : nat) : output :=
  ("data{i} = {}"%string, [VInt (Z.of_nat i); VInt (Z.of_nat (i * i))]).

(** [ips] are the elements of [DATA] from [i] on, with their indices. *)
Definition indexed (DATA : list loc) (i : nat) (ips : list (nat * loc)) : Prop :=
  ∀ k ip, ips !! k = Some ip → ip.1 = i + k ∧ DATA !! (i + k) = Some ip.2.

Lemma indexed_cons DATA i ip ips :
  indexed DATA i (ip :: ips) → ip.1 = i ∧ DATA !! i = Some ip.2 ∧ indexed DATA (S i) ips.
Proof.
  intros H. destruct (H 0 ip eq_refl) as [H1 H2]. rewrite Nat.add_0_r in H1, H2.
  split_and!; [done..|]. intros k ip' Hk. destruct (H (S k) ip' Hk) as [H3 H4].
  by rewrite Nat.add_succ_r -Nat.add_succ_l in H3, H4.
Qed.

Lemma wpp_print_ready DATA ips bs os i V Φ :
  indexed DATA i ips →
  ([∗ list] ip;b ∈ ips;bs, ⌜b = false⌝ ∨ fence_data ip (cur V)) -∗ printed os -∗
  (∀ ixs V', ⌜ixs `sublist_of` seq i (length ips)⌝ -∗ printed (os ++ (fence_line <$> ixs)) -∗
     Φ tt V') -∗
  wpp (Fences.print_ready DATA bs i) V Φ.
Proof.
  iIntros (Hips) "#Hbs Hp HΦ".
  iInduction bs as [|b bs] "IH" forall (i ips os V Φ Hips) "Hbs".
  { iApply wpp_ret. iApply ("HΦ" $! []); [iPureIntro; apply sublist_nil_l|]. by rewrite app_nil_r. }
  destruct ips as [|ip ips]; [done|]. apply indexed_cons in Hips as (Hi & Hp & Hips).
  iEval (rewrite big_sepL2_cons) in "Hbs". iDestruct "Hbs" as "[Hb Hbs']". cbn [Fences.print_ready length seq].
  iApply wpp_bind. destruct b.
  - iDestruct "Hb" as "[%|Hb]"; [done|]. rewrite /Fences.index Hp. iApply wpp_bind.
    iApply wpp_ret. iApply wpp_bind. iApply (wpp_read_frozen with "Hb"). iIntros (V1 Hle1).
    iApply (wpp_println with "Hp"). iIntros "!> Hp". rewrite Hi.
    iApply ("IH" $! (S i) ips with "[//] Hp [HΦ]").
    + iIntros (ixs V' Hsub) "Hp". iApply ("HΦ" $! (i :: ixs) with "[%]"); [by constructor|].
      by rewrite -app_assoc.
    + iIntros "!>". iApply (big_sepL2_impl with "Hbs'"). iIntros "!>" (k ip' b' _ _) "[$|H]".
      iRight. iApply (view_mono with "H"). apply Hle1.
  - iApply wpp_ret. iApply ("IH" $! (S i) ips with "[//] Hp [HΦ] Hbs'").
    iIntros (ixs V' Hsub) "Hp". iApply ("HΦ" $! ixs with "[%] Hp"). by constructor.
Qed.
End fences.

(** C24. [main] of 03-08: whatever flags are seen set, the data of those threads
    is read without a data race, thanks to the one acquire fence, and is the
    square of the index. *)
Theorem fence_main_safe :
  safe Fences.main (λ _, True) (λ o σ, o = Ok tt ∧
    ∃ ixs, ixs `sublist_of` seq 0 10 ∧ out σ = fence_line <$> ixs) ∧
  ∃ os, can_end Fences.main (Ok tt) os.
Proof.
  split; [|eexists; by_running 5000%Z].
  apply (safe_no_panic #[rustΣ; tokenΣ] _ (λ os, ∃ ixs, _ ∧ os = _)). iIntros (?) "Hp _".
  iApply wpp_bind. iApply (wpp_array_new (seq 0 10) _ (λ _ p W, own_na p (VInt 0) W)); [done|..].
  { iIntros "!>" (i V Φ) "HΦ". by iApply wpp_new. }
  iIntros (DATA V1 _) "HD". iDestruct (big_sepL2_length with "HD") as %HDlen.
  iApply wpp_bind.
  assert (length (zip (seq 0 10) DATA) = 10) as Hlen by (rewrite length_zip -HDlen; done).
  iApply (wpp_array_new (zip (seq 0 10) DATA) _ (λ ip r W, is_pub (fence_tells ip) r W)); [done|..].
  { iIntros "!>" (ip V Φ) "HΦ". iApply (wpp_pub_new (fence_tells ip)); [by iLeft|done]. }
  iIntros (READY V2 Hle2) "#HR". iDestruct (big_sepL2_length with "HR") as %HRlen.
  iApply wpp_bind. iApply (wpp_start with "[HD]").
  { iApply (fence_workers with "HD HR"). apply Hle2. }
  iIntros (V3 Hle3). iApply wpp_bind. iApply wpp_ret. iApply wpp_bind.
  iApply (wpp_load_all (zip (seq 0 10) DATA) with "[]").
  { iApply (big_sepL2_impl with "HR"). iIntros "!>" (k ip r _ _) "H".
    iApply (is_pub_mono with "H"). apply Hle3. }
  iIntros (bs V4 _) "#Hbs". destruct (existsb id bs).
  - iApply wpp_bind. iApply wpp_fence_acquire.
    iApply (wpp_print_ready _ (zip (seq 0 10) DATA) with "[] Hp").
    + intros k [i p] (Hk & Hp)%lookup_zip_Some. apply lookup_seq in Hk as [-> _]. done.
    + iApply (big_sepL2_impl with "Hbs"). iIntros "!>" (k ip b _ _) "[$|H]". iRight.
      iApply (view_mono with "H"). simpl. set_solver.
    + iIntros (ixs V5 Hsub) "Hp". iExists _. iFrame "Hp". iPureIntro. exists ixs.
      by rewrite Hlen in Hsub.
  - iApply wpp_ret. iExists []. iFrame "Hp". iPureIntro. exists []. split; [apply sublist_nil_l|done].
Qed.
