(* ===== verification/FencePair.v ===== *)
(** * A release fence and an acquire fence

    [FencePair] is the producer and the consumer of the comments of
    03-08_fence.rs, in which both accesses to the flag are [Relaxed] and the
    two fences alone order the data; the statics are allocated by [client],
    which runs the producer beside the consumer.  Either fence can be left
    out, to show what it is for. *)

From iris.proofmode Require Import proofmode.
From iris.base_logic.lib Require Import invariants token.
From S2P Require Import Prelude Memory Lang Runs Logic Rules Std Publish.

Module FencePair.

Definition producer_with (fenced : bool) (DATA READY : loc) : prog unit :=
  write DATA (VInt 42);;
  (if fenced then fence Release else mret ());;
  store_bool READY true Relaxed.

Definition consumer_with (fenced : bool) (DATA READY : loc) : prog unit :=
  while_loop (b ← load_bool READY Relaxed; mret (negb b)) (mret ());;
  (if fenced then fence Acquire else mret ());;
  value ← read DATA;
  println "{}" [value].

Definition producer : loc → loc → prog unit := producer_with true.
Definition consumer : loc → loc → prog unit := consumer_with true.

Definition client_with (producer consumer : loc → loc → prog unit) : prog unit :=
  DATA ← new_cell (VInt 0);
  READY ← atomic_new 0;
  _ ← spawn (producer DATA READY);
  consumer DATA READY.
Definition client : prog unit := client_with producer consumer.
End FencePair.

(** ** Proofs *)

Section fence_pair.
Context `{!rustGS Σ}.

(** Reading [true] tells that the data was written. *)
Definition pair_tells (DATA : loc) (v : Z) (W : view) : iProp Σ :=
  ⌜v = 0%Z⌝ ∨ frozen DATA (VInt 42) W.

#[global] Instance pair_tells_mono DATA v : ViewMono (pair_tells DATA v).
Proof. intros W W' Hle. iIntros "[$|H]". iRight. by iApply (view_mono with "H"). Qed.

(** After a release fence, a relaxed store publishes what the thread has seen. *)
Lemma wpp_release_fence V Φ :
  (∀ V', ⌜V ⊆ V'⌝ -∗ ⌜cur V ⊆ write_view Relaxed V'⌝ -∗ Φ tt V') -∗
  wpp (fence Release) V Φ.
Proof.
  iIntros "HΦ". iApply wpp_fence; [done|]. iIntros (V' Heq).
  specialize (Heq state_init). simplify_eq/=.
  iApply "HΦ"; iPureIntro; [split|]; simpl; set_solver.
Qed.

Lemma wpp_fence_producer DATA READY V :
  own_na DATA (VInt 0) (cur V) -∗ is_pub (pair_tells DATA) READY (cur V) -∗
  wpp (FencePair.producer DATA READY) V (λ _ _, True).
Proof.
  iIntros "HD #HR". iApply wpp_bind. iApply (wpp_write with "HD").
  iIntros "!>" (V1 Hle1) "HD". iApply wpo_fupd. iMod (frozen_alloc with "HD") as "#HD".
  iModIntro. iApply wpp_bind. iApply wpp_release_fence. iIntros (V2 Hle2 Hrel).
  iApply (wpp_pub_store (pair_tells DATA) with "[] []"); [done| | |by iIntros].
  - iApply (is_pub_mono with "HR"). etrans; [apply Hle1|apply Hle2].
  - iRight. by iApply (view_mono with "HD").
Qed.

(** The wait leaves the data for an acquire fence to make visible. *)
Lemma wpp_fence_wait DATA READY V Φ :
  is_pub (pair_tells DATA) READY (cur V) -∗
  (∀ V', ⌜V ⊆ V'⌝ -∗ frozen DATA (VInt 42) (acq V') -∗ Φ tt V') -∗
  wpp (while_loop (b ← load_bool READY Relaxed; mret (negb b)) (mret ())) V Φ.
Proof.
  iIntros "#HR HΦ". iApply (wpp_while (λ _, ∀ V', ⌜V ⊆ V'⌝ -∗
    frozen DATA (VInt 42) (acq V') -∗ Φ tt V')%I with "[] HΦ").
  iIntros "!>" (V1 Hle1) "HΦ". do 2 iApply wpp_bind.
  iApply (wpp_pub_load (pair_tells DATA) with "[]");
    [done|iApply (is_pub_mono with "HR"); apply Hle1|].
  iIntros (v V2 Hle2) "Hv". do 2 iApply wpp_ret. destruct (to_bool v) eqn:Hb; simpl.
  - iDestruct "Hv" as "[->|Hv]"; [done|]. iApply ("HΦ" with "[%] Hv"). by etrans.
  - by iApply wpp_ret.
Qed.

Lemma wpp_fence_consumer DATA READY V :
  is_pub (pair_tells DATA) READY (cur V) -∗ printed [] -∗
  wpp (FencePair.consumer DATA READY) V
    (λ _ _, ∃ os, printed os ∗ ⌜os = [("{}"%string, [VInt 42])]⌝).
Proof.
  iIntros "#HR Hp". iApply wpp_bind. iApply (wpp_fence_wait with "HR").
  iIntros (V1 _) "#HD". iApply wpp_bind. iApply wpp_acquire_fence. iIntros (V2 _ Hacq).
  iApply wpp_bind. iApply (wpp_read_frozen with "[]").
  { iApply (view_mono with "HD"). set_solver. }
  iIntros (V3 _). iApply (wpp_println with "Hp"). iIntros "!> Hp". iExists _. by iFrame "Hp".
Qed.
End fence_pair.

(** C17. The producer and the consumer of the comments of 03-08: the fences alone
    make the data visible, so that the consumer reads it without a data race
    and prints 42 in every execution; when either of the fences is left out
    there is an execution with a data race. *)
Theorem fence_pair_safe :
  safe FencePair.client (λ _, True)
    (λ o σ, o = Ok tt ∧ out σ = [("{}"%string, [VInt 42])]) ∧
  can_end FencePair.client (Ok tt) [("{}"%string, [VInt 42])] ∧
  (∀ I Q, ¬ safe (FencePair.client_with (FencePair.producer_with false) FencePair.consumer) I Q) ∧
  (∀ I Q, ¬ safe (FencePair.client_with FencePair.producer (FencePair.consumer_with false)) I Q).
Proof.
  split; [|split; [by_running 200%Z|]].
  - apply (safe_no_panic #[rustΣ; tokenΣ] _ (λ os, os = _)). iIntros (?) "Hp _".
    iApply wpp_bind. iApply wpp_new. iIntros "!>" (DATA V1 _) "HD".
    iApply wpp_bind. iApply (wpp_pub_new (pair_tells DATA)); [by iLeft|].
    iIntros (READY V2 Hle2) "#HR". iApply wpp_bind.
    iApply (wpp_spawn_ok _ (λ _, True)%I with "[HD]").
    { iIntros (V Hle). iApply (wpp_fence_producer with "[HD]"); [|by iApply (is_pub_mono with "HR")].
      iApply (own_na_mono with "HD"). etrans; [apply Hle2|done]. }
    iIntros (h V3 Hle3) "_". iApply (wpp_fence_consumer with "[] Hp").
    iApply (is_pub_mono with "HR"). apply Hle3.
  - set (c := Choice 1 1 false 0). split; intros I Q.
    + apply (run_undefined (replicate 4 (0, c) ++ replicate 2 (1, c) ++ replicate 3 (0, c))).
      vm_compute. reflexivity.
    + apply (run_undefined (replicate 4 (0, c) ++ replicate 3 (1, c) ++ replicate 2 (0, c))).
      vm_compute. reflexivity.
Qed.
