(* ===== verification/SeqConsistent.v ===== *)
(** * Sequentially consistent operations

    [SeqCsts] is 03-07_sequentially-consistent.rs: each of two threads raises
    its flag and touches the string when the other flag is down.  Here are the
    rules for [SeqCst] accesses, the proof that the threads never touch the
    string together, and the execution in which they do when the accesses are
    only [Release] and [Acquire]. *)

From iris.proofmode Require Import proofmode.
From iris.base_logic.lib Require Import invariants ghost_map ghost_var token.
From S2P Require Import Prelude Memory History Lang Runs Logic Rules Std Orderings.

Module SeqCsts.

(** The closure of a thread: its flag, the other flag, the string; the source
    has [SeqCst] for both orderings. *)
Definition thread (st ld : ordering) (A B S : loc) : prog unit :=
  store_bool A true st;;
  b ← load_bool B ld;
  if (b : bool) then mret () else LockExample.string_push S "!".

Definition main_with (st ld : ordering) : prog unit :=
  A ← atomic_new 0;
  B ← atomic_new 0;
  S ← new_cell (VStr "");
  a ← spawn (thread st ld A B S);
  b ← spawn (thread st ld B A S);
  join_unwrap a;;
  join_unwrap b.

Definition main : prog unit := main_with SeqCst SeqCst.
End SeqCsts.

(** The example of a [SeqCst] fence in the comments of 03-08_fence.rs. *)
Module FenceLog.

Definition thread_a (LOG : loc) : prog unit :=
  vec_push LOG (VStr "A1");; fence SeqCst;; vec_push LOG (VStr "A2").
Definition thread_b (LOG : loc) : prog unit :=
  vec_push LOG (VStr "B1");; fence SeqCst;; vec_push LOG (VStr "B2").

Definition client : prog unit :=
  LOG ← new_cell (VList []);
  a ← spawn (thread_a LOG);
  b ← spawn (thread_b LOG);
  join_unwrap a;;
  join_unwrap b.
End FenceLog.

(** ** Rules *)

Section rules.
Context `{!rustGS Σ}.
Implicit Types (V : tview) (l : loc) (h : hist) (N A S : view).

Lemma state_ok_sc σ S S' : state_ok σ -∗ sc_is S ==∗ ⌜sc_view σ = S⌝ ∗ state_ok (set_sc S' σ) ∗ sc_is S'.
Proof.
  iIntros "($ & $ & Hs) H". iDestruct (ghost_var_agree with "Hs H") as %->.
  by iMod (ghost_var_update_halves S' with "Hs H") as "[$ $]".
Qed.

Lemma wpp_load_sc_inv E l V Φ :
  (|={⊤,E}=> ∃ h N A S, ▷ l ↦ CAtomic h N A ∗ sc_is S ∗ ⌜N ⊆ cur V⌝ ∗ ⌜h ≠ ∅⌝ ∗
    ▷ (∀ t m e, ⌜h !! t = Some m⌝ -∗ ⌜coh_le l h (cur V ∪ S) t⌝ -∗
       l ↦ CAtomic h N (A ∪ {[Acc e]}) -∗ sc_is (S ∪ {[Coh l t]}) ={E,⊤}=∗
       Φ (mval m) (load_view SeqCst l t m e V))) -∗
  wpp (act (OLoad l SeqCst)) V Φ.
Proof.
  iIntros "H". iApply wpp_act. iIntros (σ) "Hσ".
  iMod "H" as (h N A S) "(>Hl & HS & % & %Hne & H)".
  iDestruct (state_ok_lookup with "Hσ Hl") as %Hl.
  iAssert ⌜sc_view σ = S⌝%I as %HS.
  { iDestruct "Hσ" as "(_ & _ & Hs)". iApply (ghost_var_agree with "Hs HS"). }
  iModIntro. iSplit.
  { iPureIntro. destruct (newest_exists _ Hne) as (t & Hnew).
    pose proof Hnew as [[m Hm] _]. exists (Choice t 0 false 0). eexists.
    rewrite /= /exec_load Hl Hm decide_True //. eauto with rust_db. }
  iIntros "!>" (c r V' σ'). rewrite /= /exec_load Hl.
  destruct (h !! ch_read c) as [m|] eqn:Hm; [|by iIntros (?)].
  case_decide as Hd; [|by iIntros (?)]. rewrite /bound /= HS in Hd. destruct Hd as [_ Hd].
  rewrite /sc_record /=. iIntros ([= <- <- <-]).
  iMod (state_ok_set with "Hσ Hl") as "[Hσ Hl]". simpl. rewrite HS.
  iMod (state_ok_sc _ S with "Hσ HS") as "(_ & $ & HS)".
  iMod ("H" with "[//] [//] Hl HS") as "$". eauto with rust_db.
Qed.

Lemma wpp_store_sc_inv E l z V Φ :
  (|={⊤,E}=> ∃ h N A S, ▷ l ↦ CAtomic h N A ∗ sc_is S ∗ ⌜N ⊆ cur V⌝ ∗ ⌜h ≠ ∅⌝ ∗
    ▷ (∀ t e, ⌜h !! t = None⌝ -∗ ⌜coh_lt l h (cur V ∪ S) t⌝ -∗
       l ↦ CAtomic (<[t := store_msg SeqCst z (store_view l t e V)]> h)
             N (A ∪ {[Acc e]}) -∗ sc_is (S ∪ {[Coh l t]}) ={E,⊤}=∗
       Φ tt (store_view l t e V))) -∗
  wpp (act (OStore l z SeqCst)) V Φ.
Proof.
  iIntros "H". iApply wpp_act. iIntros (σ) "Hσ".
  iMod "H" as (h N A S) "(>Hl & HS & % & %Hne & H)".
  iDestruct (state_ok_lookup with "Hσ Hl") as %Hl.
  iAssert ⌜sc_view σ = S⌝%I as %HS.
  { iDestruct "Hσ" as "(_ & _ & Hs)". iApply (ghost_var_agree with "Hs HS"). }
  iModIntro. iSplit.
  { iPureIntro. destruct (newest_exists _ Hne) as (t & Hnew).
    exists (Choice 0 (Datatypes.S t) false 0). eexists.
    rewrite /= /exec_store Hl decide_True //. eauto with rust_db. }
  iIntros "!>" (c r V' σ'). rewrite /= /exec_store Hl.
  case_decide as Hd; [|by iIntros (?)]. rewrite /bound /= HS in Hd. destruct Hd as (_ & ? & ?).
  rewrite /sc_record /=. iIntros ([= <- <- <-]).
  iMod (state_ok_set with "Hσ Hl") as "[Hσ Hl]". simpl. rewrite HS.
  iMod (state_ok_sc _ S with "Hσ HS") as "(_ & $ & HS)".
  iMod ("H" with "[//] [//] Hl HS") as "$". eauto with rust_db.
Qed.
End rules.

(** ** The protocol *)

Definition scN : namespace := nroot .@ "sc".

(** A thread: its flag, the initialisation of the flag, whether the flag is
    up, and the right to touch the string. *)
Record side : Type := Side { flag_loc : loc; flag_init : view; side_up : gname; side_right : gname }.

Section protocol.
Context `{!rustGS Σ, !ghost_varG Σ bool, !tokenG Σ}.
Implicit Types (x y : side) (S W : view) (V : tview).

(** The writes of a flag: raised once, by an access that is in [S]. *)
Definition flag_hist l (up : bool) S (h : hist) : Prop :=
  if up then ∃ t m, 0 < t ∧ h = <[t := m]> {[0 := Msg 0 ∅]} ∧ mval m = 1%Z ∧ Coh l t ∈ S
  else h = {[0 := Msg 0 ∅]}.

Definition flag_state x (up : bool) S : iProp Σ :=
  ∃ h A, flag_loc x ↦ CAtomic h (flag_init x) A ∗ ⌜flag_hist (flag_loc x) up S h⌝ ∗
    ghost_var (side_up x) (1/2) up.

Definition sc_prot x y (P : iProp Σ) : iProp Σ :=
  ∃ S ux uy, sc_is S ∗ flag_state x ux S ∗ flag_state y uy S ∗
    (P ∨ ⌜ux = true⌝ ∗ token (side_right x) ∨ ⌜uy = true⌝ ∗ token (side_right y)).

Lemma sc_prot_sym x y P : sc_prot x y P -∗ sc_prot y x P.
Proof.
  iIntros "(%S & %ux & %uy & HS & Hx & Hy & HP)". iExists S, uy, ux. iFrame "HS Hx Hy".
  iDestruct "HP" as "[$|[H|H]]"; auto.
Qed.

Lemma flag_hist_ne l up S h : flag_hist l up S h → h ≠ ∅.
Proof.
  destruct up; [intros (t & m & _ & -> & _); apply insert_non_empty|intros ->; apply insert_non_empty].
Qed.

Lemma flag_hist_mono l up S S' h : S ⊆ S' → flag_hist l up S h → flag_hist l up S' h.
Proof. destruct up; [|done]. intros HS (t & m & ? & ? & ? & ?). exists t, m. set_solver. Qed.

Lemma flag_state_mono x up S S' : S ⊆ S' → flag_state x up S -∗ flag_state x up S'.
Proof.
  iIntros (HS) "(%h & %A & Hl & %Hh & Hu)". iExists h, A. iFrame. iPureIntro.
  by eapply flag_hist_mono.
Qed.

(** An [SeqCst] load that reads 0 comes before the flag is raised. *)
Lemma flag_hist_down l up S W h t m :
  flag_hist l up S h → h !! t = Some m → coh_le l h (W ∪ S) t → mval m = 0%Z → up = false.
Proof.
  destruct up; [|done]. intros (t1 & m1 & Ht1 & -> & Hm1 & HS) Hm Hcoh Hm0. exfalso.
  assert (t1 ≤ t) as Hle.
  { apply (Hcoh t1 m1); [by rewrite lookup_insert_eq|set_solver]. }
  apply lookup_insert_Some in Hm as [[<- <-]|[_ [<- _]%lookup_singleton_Some]]; [congruence|lia].
Qed.

Lemma wpp_raise x y P V Φ :
  flag_init x ⊆ cur V → Coh (flag_loc x) 0 ∈ cur V →
  inv scN (sc_prot x y P) -∗ ghost_var (side_up x) (1/2) false -∗
  (∀ V', ⌜V ⊆ V'⌝ -∗ ghost_var (side_up x) (1/2) true -∗ Φ tt V') -∗
  wpp (store (flag_loc x) 1 SeqCst) V Φ.
Proof.
  iIntros (Hi Hc) "#Hinv Hu HΦ". iApply wpp_store_sc_inv.
  iInv "Hinv" as (S ux uy) "(>HS & >(%h & %A & Hl & %Hh & Hu') & >Hy & HP)" "Hclose".
  iDestruct (ghost_var_agree with "Hu Hu'") as %<-.
  iModIntro. iExists h, _, A, S. iFrame "Hl HS". iSplit; [done|].
  iSplit; [iPureIntro; by eapply flag_hist_ne|]. iIntros "!>" (t e Hfree Hcoh) "Hl HS".
  iMod (ghost_var_update_halves true with "Hu Hu'") as "[Hu Hu']". simpl in Hh. subst h.
  assert (0 < t) as Ht.
  { apply (Hcoh 0 (Msg 0 ∅)); [by rewrite lookup_singleton_eq|set_solver]. }
  iMod ("Hclose" with "[Hl HS Hu' Hy HP]") as "_".
  { iExists _, true, uy. iFrame "HS". iSplitL "Hl Hu'".
    - iExists _, _. iFrame "Hl Hu'". iPureIntro. eexists t, _. split_and!; [done..|]. set_solver.
    - iSplitL "Hy"; [iApply (flag_state_mono with "Hy"); set_solver|].
      iDestruct "HP" as "[$|[[% _]|H]]"; [done|]. by iRight; iRight. }
  iModIntro. iApply ("HΦ" with "[%] Hu"). apply store_view_le.
Qed.

Lemma wpp_look x y P `{!Timeless P} V Φ :
  flag_init y ⊆ cur V →
  inv scN (sc_prot x y P) -∗ ghost_var (side_up x) (1/2) true -∗ token (side_right x) -∗
  (∀ v V', ⌜V ⊆ V'⌝ -∗ (⌜v ≠ 0%Z⌝ ∨ P) -∗ Φ v V') -∗
  wpp (load (flag_loc y) SeqCst) V Φ.
Proof.
  iIntros (Hi) "#Hinv Hu Ht HΦ". iApply wpp_load_sc_inv.
  iInv "Hinv" as (S ux uy) "(>HS & >Hx & >(%h & %A & Hl & %Hh & Hu') & >HP)" "Hclose".
  iModIntro. iExists h, _, A, S. iFrame "Hl HS". iSplit; [done|].
  iSplit; [iPureIntro; by eapply flag_hist_ne|]. iIntros "!>" (t m e Hm Hcoh) "Hl HS".
  iAssert ⌜ux = true⌝%I as %->.
  { iDestruct "Hx" as (h' A') "(_ & _ & Hx)". by iDestruct (ghost_var_agree with "Hu Hx") as %<-. }
  iAssert ((⌜mval m ≠ 0%Z⌝ ∨ P) ∗
    (P ∨ ⌜true = true⌝ ∗ token (side_right x) ∨ ⌜uy = true⌝ ∗ token (side_right y)))%I
    with "[HP Ht]" as "[HP' HP]".
  { destruct (decide (mval m = 0%Z)) as [Hm0|Hne]; [|iFrame "HP"; by iLeft].
    assert (uy = false) as -> by (by eapply flag_hist_down).
    iDestruct "HP" as "[HP|[[_ Ht']|[% _]]]"; [|iDestruct (token_exclusive with "Ht Ht'") as %[]|done].
    iSplitL "HP"; [by iRight|]. iRight. iLeft. by iFrame "Ht". }
  iMod ("Hclose" with "[Hl HS Hu' Hx HP]") as "_".
  { iExists _, true, uy. iFrame "HS HP". iSplitL "Hx"; [iApply (flag_state_mono with "Hx"); set_solver|].
    iExists h, _. iFrame "Hl Hu'". iPureIntro. eapply flag_hist_mono; [|done]. set_solver. }
  iModIntro. iApply ("HΦ" with "[%] HP'"). apply load_view_le.
Qed.
End protocol.

Section threads.
Context `{!rustGS Σ, !ghost_varG Σ bool, !tokenG Σ}.
Implicit Types (x y : side) (V : tview).

Lemma wpp_sc_thread x y s W V :
  flag_init x ⊆ cur V → flag_init y ⊆ cur V → Coh (flag_loc x) 0 ∈ cur V → W ⊆ cur V →
  inv scN (sc_prot x y (own_na s (VStr "") W)) -∗
  ghost_var (side_up x) (1/2) false -∗ token (side_right x) -∗
  wpp (SeqCsts.thread SeqCst SeqCst (flag_loc x) (flag_loc y) s) V (λ _ _, True).
Proof.
  iIntros (Hx Hy Hc HW) "#Hinv Hu Ht". iApply wpp_bind. iApply (wpp_raise with "Hinv Hu"); [done..|].
  iIntros (V1 Hle1) "Hu". do 2 iApply wpp_bind.
  iApply (wpp_look with "Hinv Hu Ht"); [destruct Hle1; by etrans|].
  iIntros (v V2 Hle2) "Hv". iApply wpp_ret. destruct (to_bool v) eqn:Hb; [by iApply wpp_ret|].
  iDestruct "Hv" as "[%Hne|Hs]".
  { rewrite /to_bool in Hb. apply negb_false_iff, Z.eqb_eq in Hb. done. }
  iDestruct (own_na_mono _ _ _ (cur V2) with "Hs") as "Hs"; [destruct Hle1, Hle2; set_solver|].
  iApply wpp_bind. iApply (wpp_read with "Hs"). iIntros "!>" (V3 _) "Hs".
  iApply (wpp_write with "Hs"). by iIntros "!>" (V4 _) "_".
Qed.

(** A flag that is down. *)
Lemma wpp_side_new V Φ :
  (∀ x V', ⌜V ⊆ V'⌝ -∗ ⌜flag_init x ⊆ cur V'⌝ -∗ ⌜Coh (flag_loc x) 0 ∈ cur V'⌝ -∗
     (∀ S, flag_state x false S) -∗ ghost_var (side_up x) (1/2) false -∗ token (side_right x) -∗
     Φ (flag_loc x) V') -∗
  wpp (atomic_new 0) V Φ.
Proof.
  iIntros "HΦ". iApply wpp_post_fupd. iApply wpp_alloc_atomic. iIntros "!>" (l e) "Hl".
  iMod (ghost_var_alloc false) as (γ1) "[H1 H2]". iMod token_alloc as (γ2) "Ht". iModIntro.
  iApply ("HΦ" $! (Side l {[Acc e]} γ1 γ2) with "[%] [%] [%] [Hl H1] H2 Ht").
  - apply observe_le.
  - simpl. set_solver.
  - simpl. set_solver.
  - iIntros (S). iExists _, _. by iFrame "Hl H1".
Qed.
End threads.

(** C23. [main] of 03-07: at most one of the threads touches the string, so
    there is no data race. *)
Theorem seqcst_main_safe :
  safe SeqCsts.main (λ _, True) (λ o _, o = Ok tt) ∧ can_end SeqCsts.main (Ok tt) [].
Proof.
  split; [|by_running 200%Z].
  apply (safe_output #[rustΣ; ghost_varΣ bool; tokenΣ] _ (λ o _, o = Ok tt)).
  iIntros (?) "Hp Hsc". iApply wpp_bind_wpo. iApply wpp_side_new.
  iIntros (x V1 _ Hx1 Hc1) "Hx Hux Htx". iApply wpp_bind_wpo. iApply wpp_side_new.
  iIntros (y V2 Hle2 Hy2 Hc2) "Hy Huy Hty". iApply wpp_bind_wpo. iApply wpp_new.
  iIntros "!>" (s V3 Hle3) "Hs". iApply wpo_fupd.
  iMod (inv_alloc scN _ (sc_prot x y (own_na s (VStr "") (cur V3))) with "[Hsc Hx Hy Hs]") as "#Hinv".
  { iExists ∅, false, false. iFrame "Hsc Hs". iSplitL "Hx"; [iApply "Hx"|iApply "Hy"]. }
  iModIntro. pose proof (tview_le_cur _ _ Hle2). pose proof (tview_le_cur _ _ Hle3).
  iApply wpp_bind_wpo. iApply (wpp_spawn_ok _ (λ _, True)%I with "[Hux Htx]").
  { iIntros (V Hle). iApply (wpp_sc_thread with "Hinv Hux Htx"); [set_solver..|done]. }
  iIntros (ha V4 Hle4) "Ha". pose proof (tview_le_cur _ _ Hle4).
  iApply wpp_bind_wpo. iApply (wpp_spawn_ok _ (λ _, True)%I with "[Huy Hty]").
  { iIntros (V Hle). iApply (wpp_sc_thread y x s (cur V3) with "[] Huy Hty"); [set_solver..|].
    iApply (inv_iff with "Hinv"). iIntros "!> !>". iSplit; iIntros "H"; by iApply sc_prot_sym. }
  iIntros (hb V5 Hle5) "Hb". iApply wpp_bind_wpo.
  iDestruct (join_handle_mono with "Ha") as "Ha"; [apply Hle5|].
  iApply (wpp_join_unwrap with "Ha"). iIntros (V6 Hle6) "_". iApply wpp_wpo.
  iDestruct (join_handle_mono with "Hb") as "Hb"; [apply Hle6|].
  iApply (wpp_join_unwrap with "Hb"). iIntros (V7 _) "_". iExists _. by iFrame "Hp".
Qed.


(** C40. The example of the comments of 03-08, which says that the log is one of
    two sequences thanks to the fences: the fences do not order the pushes,
    and two threads that run it have a data race. *)
Theorem fence_log_race I Q : ¬ safe FenceLog.client I Q.
Proof.
  set (c := Choice 0 1 false 0).
  apply (run_undefined (replicate 5 (0, c) ++ [(1, c); (1, c)])).
  vm_compute. reflexivity.
Qed.
