(* ===== verification/Experiments.v ===== *)
(** * Experiments with the processor

    [Perf], [PerfThree] and [PerfAligned] are the measurements of
    07-02-02_performance-impact*.rs: one thread stores for ever while [main]
    loads and prints the time it took.  [Experiment] is
    07-04-03_experiment.rs: threads increment a counter under a lock, first
    with [Relaxed] operations on the lock, then with [Acquire] and [Release].
    The numbers of threads and of iterations are parameters of [main_with];
    [main] has those of the source. *)

From iris.proofmode Require Import proofmode.
From iris.base_logic.lib Require Import invariants ghost_var token mono_nat.
From S2P Require Import Prelude Memory History Lang Runs Logic Rules Std Publish.
From S2P Require Import RmwCell Shares.
From S2P Require Import LockWord.

(** [loop { body }] that is never left. *)
Definition forever (body : prog unit) : prog unit := while_loop (mret true) body.

(** ** The code *)

Module Perf.

Definition main_with (n : nat) : prog unit :=
  A ← atomic_new 0;
  _ ← spawn (forever (store A 0 Relaxed));
  start ← clock;
  for_range 0 n (λ _, _ ← load A Relaxed; mret ());;
  elapsed ← clock;
  println "Elapsed: {:?}" [elapsed].
Definition main : prog unit := main_with (Z.to_nat 1000000000).
End Perf.

Module PerfThree.

Definition main_with (n : nat) : prog unit :=
  A0 ← atomic_new 0; A1 ← atomic_new 0; A2 ← atomic_new 0;
  _ ← spawn (forever (store A0 0 Relaxed;; store A2 0 Relaxed));
  start ← clock;
  for_range 0 n (λ _, _ ← load A1 Relaxed; mret ());;
  elapsed ← clock;
  println "Elapsed: {:?}" [elapsed].
Definition main : prog unit := main_with (Z.to_nat 1000000000).
End PerfThree.

Module PerfAligned.

Definition main_with (n : nat) : prog unit :=
  A0 ← atomic_new 0; A1 ← atomic_new 0; A2 ← atomic_new 0;
  _ ← spawn (forever (store A0 1 Relaxed;; store A2 1 Relaxed));
  start ← clock;
  for_range 0 n (λ _, _ ← load A1 Relaxed; mret ());;
  elapsed ← clock;
  println "Elapsed: {:?}" [elapsed].
Definition main : prog unit := main_with (Z.to_nat 1000000000).
End PerfAligned.

Module Experiment.

(** [old + 1] on a [usize], with overflow checks. *)
Definition add_one (old : Z) : prog Z :=
  if (old =? usize_MAX)%Z then Panic "attempt to add with overflow" else mret (old + 1)%Z.

Definition increment (counter : loc) : prog unit :=
  old ← load counter Relaxed;
  new ← add_one old;
  store counter new Relaxed.

Definition relaxed_thread (locked counter : loc) (iters : nat) : prog unit :=
  for_range 0 iters (λ _,
    while_loop (swap_bool locked true Relaxed) (mret ());;
    compiler_fence Acquire;;
    increment counter;;
    compiler_fence Release;;
    store_bool locked false Relaxed).

Definition thread (locked counter : loc) (iters : nat) : prog unit :=
  for_range 0 iters (λ _,
    while_loop (swap_bool locked true Acquire) (mret ());;
    increment counter;;
    store_bool locked false Release).

(** One half of [main]. *)
Definition count (body : loc → loc → nat → prog unit) (threads iters : nat) : prog unit :=
  locked ← atomic_new 0;
  counter ← atomic_new 0;
  scope (replicate threads (body locked counter iters)) (mret ());;
  n ← act (OGetMut counter);
  println "{}" [VInt n].

Definition main_with (threads iters : nat) : prog unit :=
  count relaxed_thread threads iters;;
  count thread threads iters.
Definition main : prog unit := main_with 4 (Z.to_nat 1000000).
End Experiment.

(** ** The measurements *)

Section perf.
Context `{!rustGS Σ, !tokenG Σ}.

Abbreviation atomic := (is_pub (λ _ _, True)%I).

Lemma wpp_forever body V Φ :
  □ (∀ V', ⌜V ⊆ V'⌝ -∗ wpp body V' (λ _ _, True)) -∗ wpp (forever body) V Φ.
Proof.
  iIntros "#H". iApply (wpp_while (λ _, True)%I); [|done]. iIntros "!>" (V' Hle) "_".
  iApply wpp_ret. by iApply "H".
Qed.

Lemma wpp_loads l n V Φ :
  atomic l (cur V) -∗ (∀ V', ⌜V ⊆ V'⌝ -∗ Φ tt V') -∗
  wpp (for_range 0 n (λ _, _ ← load l Relaxed; mret ())) V Φ.
Proof.
  iIntros "#Hl HΦ". iApply (wpp_for_range (λ _ _, True)%I with "[] [//]").
  - iIntros "!>" (i V' Hle _) "_". iApply wpp_bind.
    iApply (wpp_pub_load (λ _ _, True)%I with "[]"); [done| |].
    { iApply (is_pub_mono with "Hl"). apply Hle. }
    iIntros (v V2 _) "_". by iApply wpp_ret.
  - iIntros (V' Hle) "_". by iApply "HΦ".
Qed.

(** What the three programs have in common. *)
Lemma wpp_measure writer l n V :
  printed [] -∗ atomic l (cur V) -∗
  □ (∀ V', ⌜cur V ⊆ cur V'⌝ -∗ wpp writer V' (λ _ _, True)) -∗
  wpp (_ ← spawn (forever writer); start ← clock;
       for_range 0 n (λ _, _ ← load l Relaxed; mret ());;
       elapsed ← clock; println "Elapsed: {:?}" [elapsed]) V
    (λ _ _, ∃ os, printed os ∗ ⌜∃ z, os = [("Elapsed: {:?}"%string, [VInt z])]⌝).
Proof.
  iIntros "Hp #Hl #Hw". iApply wpp_bind. iApply (wpp_spawn_ok _ (λ _, True)%I with "[]").
  { iIntros (V1 Hle1). iApply wpp_forever. iIntros "!>" (V' Hle). iApply "Hw".
    iPureIntro. etrans; [exact Hle1|apply Hle]. }
  iIntros (h V1 Hle1) "_". iApply wpp_bind. iApply wpp_clock. iIntros (z).
  iApply wpp_bind. iApply (wpp_loads with "[]").
  { iApply (is_pub_mono with "Hl"). apply Hle1. }
  iIntros (V2 _). iApply wpp_bind. iApply wpp_clock. iIntros (z').
  iApply (wpp_println with "Hp"). iIntros "!> Hp". iExists _. iFrame "Hp". eauto.
Qed.

Lemma wpp_stores_two l1 l2 z V :
  atomic l1 (cur V) -∗ atomic l2 (cur V) -∗
  wpp (store l1 z Relaxed;; store l2 z Relaxed) V (λ _ _, True).
Proof.
  iIntros "#H1 #H2". iApply wpp_bind. iApply (wpp_pub_store with "H1"); [done..|].
  iIntros (V' Hle). iApply (wpp_pub_store (λ _ _, True)%I with "[]"); [done| |done|by iIntros].
  iApply (is_pub_mono with "H2"). apply Hle.
Qed.
End perf.

Definition timed (os : list output) : Prop := ∃ z, os = [("Elapsed: {:?}"%string, [VInt z])].

Lemma perf_safe n : safe (Perf.main_with n) (λ _, True) (λ o σ, o = Ok tt ∧ timed (out σ)).
Proof.
  apply (safe_no_panic #[rustΣ; tokenΣ]). iIntros (?) "Hp _". iApply wpp_bind.
  iApply (wpp_pub_new (λ _ _, True)%I with "[//]"). iIntros (l V _) "#Hl".
  iApply (wpp_measure with "Hp Hl"). iIntros "!>" (V' Hle).
  iApply (wpp_pub_store (λ _ _, True)%I with "[]"); [done| |done|by iIntros].
  by iApply (is_pub_mono with "Hl").
Qed.

Lemma perf_three_safe z n :
  safe (A0 ← atomic_new 0; A1 ← atomic_new 0; A2 ← atomic_new 0;
        _ ← spawn (forever (store A0 z Relaxed;; store A2 z Relaxed));
        start ← clock; for_range 0 n (λ _, _ ← load A1 Relaxed; mret ());;
        elapsed ← clock; println "Elapsed: {:?}" [elapsed])
    (λ _, True) (λ o σ, o = Ok tt ∧ timed (out σ)).
Proof.
  apply (safe_no_panic #[rustΣ; tokenΣ]). iIntros (?) "Hp _".
  iApply wpp_bind. iApply (wpp_pub_new (λ _ _, True)%I with "[//]"). iIntros (l0 V0 _) "#H0".
  iApply wpp_bind. iApply (wpp_pub_new (λ _ _, True)%I with "[//]"). iIntros (l1 V1 Hle1) "#H1".
  iApply wpp_bind. iApply (wpp_pub_new (λ _ _, True)%I with "[//]"). iIntros (l2 V2 Hle2) "#H2".
  iApply (wpp_measure with "Hp").
  { iApply (is_pub_mono with "H1"). apply Hle2. }
  iIntros "!>" (V' Hle). iApply wpp_stores_two; [iApply (is_pub_mono with "H0")|by iApply (is_pub_mono with "H2")].
  etrans; [apply Hle1|]. etrans; [apply Hle2|done].
Qed.

(** The three measurements of 07-02-02 have no data race with the thread that
    stores for ever; [main] prints the elapsed time, once. *)
Theorem perf_mains_safe :
  safe Perf.main (λ _, True) (λ o σ, o = Ok tt ∧ timed (out σ)) ∧
  safe PerfThree.main (λ _, True) (λ o σ, o = Ok tt ∧ timed (out σ)) ∧
  safe PerfAligned.main (λ _, True) (λ o σ, o = Ok tt ∧ timed (out σ)).
Proof.
  split; [exact (perf_safe _)|]. split; exact (perf_three_safe _ _).
Qed.

(** ** The counter under the lock *)

Class experimentG Σ := ExperimentG {
  experiment_varG :: ghost_varG Σ (time * nat);
  experiment_monoG :: mono_natG Σ;
  experiment_countG :: countG Σ;
  experiment_shareG :: shareG Σ;
  experiment_lockG :: lockG Σ
}.
Definition experimentΣ : gFunctors :=
  #[ghost_varΣ (time * nat); mono_natΣ; countΣ; shareΣ; lockΣ].
#[export] Instance subG_experimentΣ Σ : subG experimentΣ Σ → experimentG Σ.
Proof. solve_inG. Qed.

Section experiment.
Context `{!rustGS Σ, !experimentG Σ, !tokenG Σ}.
Context (total : nat) (Htotal : (Z.of_nat total <= usize_MAX)%Z).
Implicit Types (l : loc) (W B : view) (V : tview) (h : hist) (γ : gname * gname).

(** A thread with [k] increments to do, and one that did [k]. *)
Definition to_do γ (k : nat) : iProp Σ := permits γ.1 k.
Definition did γ (k : nat) : iProp Σ := permits γ.2 k.

Lemma to_do_step γ n k :
  tally γ total n -∗ to_do γ (S k) ==∗ ⌜n < total⌝ ∗ tally γ total (S n) ∗ to_do γ k ∗ did γ 1.
Proof.
  iIntros "Ht Hk". rewrite /to_do -Nat.add_1_l permits_split. iDestruct "Hk" as "[H1 $]".
  iMod (tally_step with "Ht H1") as "[Ht $]". iDestruct (tally_le with "Ht") as %Hle.
  iFrame "Ht". iPureIntro. lia.
Qed.

Lemma to_do_lt γ n k : tally γ total n -∗ to_do γ (S k) -∗ ⌜n < total⌝.
Proof.
  iIntros "(H1 & H2 & _) Hk". iAssert (permits γ.1 (n + S k)) with "[H2 Hk]" as "H".
  { rewrite permits_split. iFrame. }
  iDestruct (permits_le with "H1 H") as %Hle. iPureIntro. lia.
Qed.

Lemma did_step γ j : did γ j -∗ did γ 1 -∗ did γ (S j).
Proof. iIntros "H1 H2". rewrite /did -(Nat.add_1_r j) permits_split. by iSplitL "H1". Qed.

(** [add_one] does not overflow. *)
Lemma wpp_add_one z V (Φ : Z → tview → iProp Σ) :
  (0 <= z < Z.of_nat total)%Z → Φ (z + 1)%Z V -∗ wpp (Experiment.add_one z) V Φ.
Proof.
  iIntros (Hz) "HΦ". rewrite /Experiment.add_one.
  destruct (Z.eqb_spec z usize_MAX); [lia|]. by iApply wpp_ret.
Qed.

(** Only the holder of the lock uses the counter, and it has seen the newest
    value: the counter is exact. *)
Definition exact_pr (γt : gname) γ h (A : view) : iProp Σ :=
  ∃ tm m c, ⌜newest h tm⌝ ∗ ⌜h !! tm = Some m⌝ ∗ ⌜mval m = Z.of_nat c⌝ ∗
    ghost_var γt (1/2) (tm, c) ∗ tally γ total c.
Definition exact (γt : gname) l W : iProp Σ :=
  ∃ t c, ghost_var γt (1/2) (t, c) ∗ ⌜Coh l t ∈ W⌝.

#[global] Instance exact_mono γt l : ViewMono (exact γt l).
Proof. intros W W' Hle. iIntros "(%t & %c & $ & %)". iPureIntro. set_solver. Qed.

Lemma wpp_increment_exact γs γt γ l B q k V Φ :
  at_share γs l B (exact_pr γt γ) q (cur V) -∗ exact γt l (cur V) -∗ to_do γ (S k) -∗
  (∀ V', ⌜V ⊆ V'⌝ -∗ at_share γs l B (exact_pr γt γ) q (cur V') -∗ exact γt l (cur V') -∗
     to_do γ k -∗ did γ 1 -∗ Φ tt V') -∗
  wpp (Experiment.increment l) V Φ.
Proof.
  iIntros "Hs (%t0 & %c & Hγ & %Hcoh) Hk HΦ". iApply wpp_bind.
  iApply (wpp_share_load with "Hs"); [done|].
  iIntros "!>" (h A t m e) "%Hm %Hle (%tm & %m' & %c' & %Hnew & %Hm' & %Hv & Hγ' & Ht)".
  iDestruct (ghost_var_agree with "Hγ Hγ'") as %[= <- <-].
  iDestruct (to_do_lt with "Ht Hk") as %Hlt.
  assert (t = t0) as ->.
  { apply (Hle _ _ Hm') in Hcoh. destruct Hnew as [_ Hmax]. specialize (Hmax _ _ Hm). simpl in *. lia. }
  simplify_eq. iModIntro. iSplitL "Hγ' Ht"; [iExists _, _, _; by iFrame|]. iIntros "Hs".
  set (V1 := load_view _ _ _ _ _ _). iApply wpp_bind. iApply wpp_add_one; [lia|].
  iApply (wpp_share_store with "Hs"); [done|].
  iIntros "!>" (h2 A2 t2 e2) "%Hfree %Hlt2 (%tm & %m2 & %c2 & %Hnew2 & %Hm2 & %Hv2 & Hγ' & Ht)".
  iDestruct (ghost_var_agree with "Hγ Hγ'") as %[= <- <-].
  iMod (to_do_step with "Ht Hk") as "(_ & Ht & Hk & Hd)".
  iMod (ghost_var_update_halves (t2, S c) with "Hγ Hγ'") as "[Hγ Hγ']".
  assert (t0 < t2) as Hlt3.
  { apply (Hlt2 _ _ Hm2). apply load_view_coh. }
  iModIntro. iSplitL "Hγ' Ht".
  { iExists t2, _, (S c). rewrite lookup_insert_eq. iFrame "Hγ' Ht". iPureIntro. split.
    - apply (newest_insert_last _ t0); [done|lia].
    - split; [done|]. simpl. lia. }
  iIntros "Hs". iApply ("HΦ" with "[%] Hs [Hγ] Hk Hd").
  - etrans; [apply load_view_le|apply store_view_le].
  - iExists _, _. iFrame. iPureIntro. apply store_view_coh.
Qed.

(** The thread takes the lock, increments and frees the lock. *)
Lemma wpp_thread γl locked N γs γt γ l B q iters V :
  N ⊆ cur V →
  is_lock γl locked N (λ z, z = 1%Z) (exact γt l) -∗
  at_share γs l B (exact_pr γt γ) q (cur V) -∗ to_do γ iters -∗ did γ 0 -∗
  wpp (Experiment.thread locked l iters) V (λ _ V',
    at_share γs l B (exact_pr γt γ) q (cur V') ∗ did γ iters).
Proof.
  iIntros (HN) "#Hl Hs Hk Hd".
  iApply (wpp_for_range (λ i V', ∃ j : nat, ⌜i = Z.of_nat j⌝ ∗
    at_share γs l B (exact_pr γt γ) q (cur V') ∗ to_do γ (iters - j) ∗ did γ j)%I with "[] [Hs Hk Hd]").
  - iIntros "!>" (i V1 Hle1 Hi) "(%j & -> & Hs & Hk & Hd)". iApply wpp_bind.
    iApply (wpp_while (λ V', at_share γs l B (exact_pr γt γ) q (cur V') ∗ to_do γ (iters - j) ∗
      did γ j)%I with "[] [$Hs $Hk $Hd]").
    iIntros "!>" (V2 Hle2) "(Hs & Hk & Hd)". iApply wpp_bind.
    iApply (wpp_acquire_swap with "Hl"); [done..|destruct Hle1, Hle2; set_solver|].
    iIntros (v V3 Hle3 Hv) "H". iApply wpp_ret. rewrite /to_bool.
    iDestruct (at_share_mono with "Hs") as "Hs"; [apply Hle3|].
    destruct (v =? 0)%Z; simpl; [|iApply wpp_ret; by iFrame].
    iDestruct "H" as "[Hlk HR]". iApply wpp_bind.
    replace (iters - j) with (S (iters - S j)) by lia.
    iApply (wpp_increment_exact with "Hs HR Hk"). iIntros (V4 Hle4) "Hs HR Hk Hd1".
    iApply (wpp_release_store with "Hl [Hlk] HR").
    + destruct Hle1, Hle2, Hle3, Hle4. set_solver.
    + iApply (locked_mono with "Hlk"). apply Hle4.
    + iIntros (V5 Hle5). iExists (S j). iFrame "Hk". iSplit; [iPureIntro; lia|].
      iSplitL "Hs"; [iApply (at_share_mono with "Hs"); apply Hle5|].
      by iApply (did_step with "Hd").
  - iExists 0. rewrite Nat.sub_0_r. by iFrame.
  - iIntros (V' Hle) "(%j & %Hj & $ & _ & Hd)". by replace j with iters by lia.
Qed.

(** With [Relaxed] operations on the lock nothing is known of the value that is
    read but that it was written: the counter is at most the number of
    increments. *)
Definition loose_values h (c : nat) : Prop :=
  map_Forall (λ t m, (0 <= mval m <= Z.of_nat c)%Z ∧ (t = 0 ∨ (1 <= mval m)%Z)) h ∧
  (c = 0 ∨ ∃ t, t ≠ 0 ∧ is_Some (h !! t)).
Definition loose_pr (γm : gname) γ h (A : view) : iProp Σ :=
  ∃ c, mono_nat_auth_own γm 1 c ∗ tally γ total c ∗ ⌜loose_values h c⌝ ∗ ⌜is_Some (h !! 0)⌝.

Lemma loose_values_store h c t m z :
  loose_values h c → (0 <= z <= Z.of_nat c)%Z → t ≠ 0 → mval m = (z + 1)%Z →
  loose_values (<[t := m]> h) (S c).
Proof.
  intros [Hall _] Hz Ht Hm. split.
  - intros t' m' [[<- <-]|[_ Hl]]%lookup_insert_Some; [lia|].
    destruct (Hall _ _ Hl) as [? ?]. split; [lia|done].
  - right. exists t. split; [done|]. rewrite lookup_insert_eq. eauto.
Qed.

Lemma wpp_increment_loose γs γm γ l B q k V Φ :
  Coh l 0 ∈ B →
  at_share γs l B (loose_pr γm γ) q (cur V) -∗ to_do γ (S k) -∗
  (∀ V', ⌜V ⊆ V'⌝ -∗ at_share γs l B (loose_pr γm γ) q (cur V') -∗ to_do γ k -∗ did γ 1 -∗
     Φ tt V') -∗
  wpp (Experiment.increment l) V Φ.
Proof.
  iIntros (H0) "Hs Hk HΦ". iApply wpp_bind. iApply (wpp_share_load with "Hs"); [done|].
  iIntros "!>" (h A t m e) "%Hm %Hle (%c & Hm & Ht & %Hv & %Hi)".
  destruct (proj1 Hv _ _ Hm) as [Hmv _]. iDestruct (to_do_lt with "Ht Hk") as %Hlt.
  iDestruct (mono_nat_lb_own_get with "Hm") as "#Hlb".
  iModIntro. iSplitL "Hm Ht"; [iExists _; by iFrame|]. iIntros "Hs".
  set (V1 := load_view _ _ _ _ _ _). iApply wpp_bind. iApply wpp_add_one; [lia|].
  iDestruct (at_share_base with "Hs") as %HB.
  iApply (wpp_share_store with "Hs"); [done|].
  iIntros "!>" (h2 A2 t2 e2) "%Hfree %Hlt2 (%c2 & Hm & Ht & %Hv2 & [%m0 %Hi2])".
  iDestruct (mono_nat_lb_own_valid with "Hm Hlb") as %[_ Hc].
  iMod (to_do_step with "Ht Hk") as "(_ & Ht & Hk & Hd)".
  iMod (mono_nat_own_update (S c2) with "Hm") as "[Hm _]"; [lia|].
  assert (0 < t2) by (apply (Hlt2 _ _ Hi2); set_solver).
  iModIntro. iSplitL "Hm Ht".
  { iExists _. iFrame "Hm Ht". iPureIntro. split.
    - apply (loose_values_store _ _ _ _ (mval m)); [done|lia..|done].
    - apply lookup_insert_is_Some'. by right. }
  iIntros "Hs". iApply ("HΦ" with "[%] Hs Hk Hd").
  etrans; [apply load_view_le|apply store_view_le].
Qed.

Lemma wpp_relaxed_thread locked γs γm γ l B q iters V :
  Coh l 0 ∈ B → is_pub (λ _ _, True)%I locked (cur V) -∗
  at_share γs l B (loose_pr γm γ) q (cur V) -∗ to_do γ iters -∗ did γ 0 -∗
  wpp (Experiment.relaxed_thread locked l iters) V (λ _ V',
    at_share γs l B (loose_pr γm γ) q (cur V') ∗ did γ iters).
Proof.
  iIntros (H0) "#Hl Hs Hk Hd".
  iApply (wpp_for_range (λ i V', ∃ j : nat, ⌜i = Z.of_nat j⌝ ∗
    at_share γs l B (loose_pr γm γ) q (cur V') ∗ to_do γ (iters - j) ∗ did γ j)%I with "[] [Hs Hk Hd]").
  - iIntros "!>" (i V1 Hle1 Hi) "(%j & -> & Hs & Hk & Hd)". iApply wpp_bind.
    iApply (wpp_while (λ V', at_share γs l B (loose_pr γm γ) q (cur V') ∗ to_do γ (iters - j) ∗
      did γ j)%I with "[] [$Hs $Hk $Hd]").
    iIntros "!>" (V2 Hle2) "(Hs & Hk & Hd)". iApply wpp_bind.
    iDestruct (is_pub_mono _ _ _ (cur V2) with "Hl") as "Hl2"; [destruct Hle1, Hle2; set_solver|].
    iApply (wpp_pub_swap with "Hl2"); [done..|]. iIntros (v V3 Hle3) "_". iApply wpp_ret.
    iDestruct (at_share_mono with "Hs") as "Hs"; [apply Hle3|].
    destruct (to_bool v); [iApply wpp_ret; by iFrame|].
    iApply wpp_bind. iApply wpp_ret. iApply wpp_bind.
    replace (iters - j) with (S (iters - S j)) by lia.
    iApply (wpp_increment_loose with "Hs Hk"); [done|]. iIntros (V4 Hle4) "Hs Hk Hd1".
    iApply wpp_bind. iApply wpp_ret.
    iDestruct (is_pub_mono _ _ _ (cur V4) with "Hl2") as "Hl4"; [destruct Hle3, Hle4; set_solver|].
    iApply (wpp_pub_store with "Hl4"); [done..|].
    iIntros (V5 Hle5). iExists (S j). iFrame "Hk". iSplit; [iPureIntro; lia|].
    iSplitL "Hs"; [iApply (at_share_mono with "Hs"); apply Hle5|].
    by iApply (did_step with "Hd").
  - iExists 0. rewrite Nat.sub_0_r. by iFrame.
  - iIntros (V' Hle) "(%j & %Hj & $ & _ & Hd)". by replace j with iters by lia.
Qed.

(** *** One half of [main] *)

Lemma to_do_alloc : ⊢ |==> ∃ γ, tally γ total 0 ∗ to_do γ total.
Proof.
  iMod (permits_alloc total) as (γ1) "[H1 H]". iMod (permits_alloc 0) as (γ2) "[H2 _]".
  iDestruct (permits_none with "H") as "[H0 H]". iModIntro. iExists (γ1, γ2). iFrame.
Qed.

(** The protocol [Pr] of the counter lets the threads run, and after all the
    increments the newest value satisfies [P]. *)
Definition counts (body : loc → loc → nat → prog unit) (iters : nat) (P : Z → Prop) γ
    (γs : gname * gname) locked l B Pr W : iProp Σ :=
  ⌜∀ h A, Timeless (Pr h A)⌝ ∗ at_share γs l B Pr 1 W ∗
  □ (∀ q V, ⌜W ⊆ cur V⌝ -∗ at_share γs l B Pr q (cur V) -∗ to_do γ iters -∗ did γ 0 -∗
     wpp (body locked l iters) V (λ _ V', at_share γs l B Pr q (cur V') ∗ did γ iters)) ∗
  (∀ h A, ⌜h ≠ ∅⌝ -∗ Pr h A -∗ ∃ c, tally γ total c ∗
     ⌜c = total → ∃ t m, newest h t ∧ h !! t = Some m ∧ P (mval m)⌝).

Lemma wpp_count body threads iters (P : Z → Prop) os V :
  total = threads * iters → threads ≠ 0 →
  (∀ γ locked l N A W, N ⊆ W → A ⊆ W → Coh l 0 ∈ W →
     (∃ N1 A1, ⌜N1 ⊆ W⌝ ∗ locked ↦ CAtomic {[0 := Msg 0 ∅]} N1 A1) -∗
     l ↦ CAtomic {[0 := Msg 0 ∅]} N A -∗ tally γ total 0 ={⊤}=∗
     ∃ γs B Pr, counts body iters P γ γs locked l B Pr W) →
  printed os -∗
  wpp (Experiment.count body threads iters) V (λ _ _,
    ∃ a, ⌜P a⌝ ∗ printed (os ++ [("{}"%string, [VInt a])])).
Proof.
  iIntros (Htot Hn Hsetup) "Hp". iMod to_do_alloc as (γ) "[Ht Hk]".
  iApply wpp_bind. iApply wpp_alloc_atomic. iIntros "!>" (locked e1) "Hl1".
  iApply wpp_bind. iApply wpp_post_fupd. iApply wpp_alloc_atomic. iIntros "!>" (l e2) "Hl2".
  set (V2 := observe _ _ (observe _ _ V)).
  iMod (Hsetup γ locked l _ _ (cur V2) with "[Hl1] Hl2 Ht") as (γs B Pr) "(%Htl & Hs & #Hbody & Hend)".
  1-3: subst V2; simpl; set_solver.
  { iExists _, _. iFrame "Hl1". iPureIntro. subst V2. simpl. set_solver. }
  iModIntro. clearbody V2. iApply wpp_bind. set (xs := seq 0 threads).
  assert (length xs = threads) as Hlen by apply length_seq.
  destruct (at_share_deal γs l B Pr xs) as [q Hq]; [intros Hnil; by rewrite Hnil in Hlen|].
  rewrite -{1}Hlen (replicate_as_fmap xs) Hq. rewrite {1}Htot -Hlen.
  iMod (permits_each with "Hk") as "Hk". iCombine "Hs Hk" as "H". rewrite -big_sepL_sep.
  iApply (wpp_scope xs _ _ (λ _ W, at_share γs l B Pr q W ∗ did γ iters)%I (λ _ _, True)%I with "[H]").
  - iApply (big_sepL_impl with "H"). iIntros "!>" (i j _) "[Hs Hk]". iIntros (V' Hle).
    iMod (permits_zero γ.2) as "H0".
    iApply ("Hbody" with "[//] [Hs] Hk H0"). by iApply (at_share_mono with "Hs").
  - iIntros (V' _). by iApply wpp_ret.
  - iIntros ([] V3 V4 _ _) "_ H". rewrite big_sepL_sep -Hq. iDestruct "H" as "[Hs Hd]".
    iApply wpp_bind. iApply (wpp_get_mut_inv ⊤).
    iMod (at_share_cancel with "Hs") as (h N A A') "(Hl & %HA & _ & %Hne & >HPr)"; [done|].
    iDestruct ("Hend" with "[//] HPr") as (c) "[Ht %Hc]".
    iDestruct (tally_le with "Ht") as %Hle. iDestruct "Ht" as "(_ & _ & Ht)".
    iDestruct (permits_gather_each with "Ht Hd") as %Hge.
    destruct Hc as (t & m & Hnew & Hm & HP); [lia|].
    iModIntro. iExists h, N, A, t, m. iFrame "Hl". do 3 (iSplit; [done|]).
    iIntros "!>" (e) "_ !>". iApply (wpp_println with "Hp"). iIntros "!> Hp". iExists _. by iFrame "Hp".
Qed.

Lemma wpp_count_exact threads iters os V :
  total = threads * iters → threads ≠ 0 → printed os -∗
  wpp (Experiment.count Experiment.thread threads iters) V (λ _ _,
    ∃ a, ⌜a = Z.of_nat total⌝ ∗ printed (os ++ [("{}"%string, [VInt a])])).
Proof.
  intros Htot Hn. apply wpp_count; [done..|].
  iIntros (γ locked l N A W HN HA H0) "(%N1 & %A1 & %HN1 & Hl1) Hl2 Ht".
  iMod (ghost_var_alloc (0, 0)) as (γt) "[Hγ Hγ']".
  iMod (at_share_alloc W l _ _ _ (λ _, exact_pr γt γ) W with "Hl2 [Hγ' Ht]") as (γs) "Hs".
  { done. } { set_solver. } { apply map_non_empty_singleton. }
  { iIntros (_). iExists 0, _, 0. rewrite lookup_singleton_eq. iFrame. iPureIntro.
    split; [apply newest_singleton|done]. }
  iMod (is_lock_alloc (λ z, z = 1%Z) (exact γt l) _ _ W with "Hl1 [Hγ]") as (γl) "#Hlk"; [done| |].
  { iExists 0, 0. iFrame. iPureIntro. set_solver. }
  iModIntro. iExists γs, W, _. iFrame "Hs". iSplit; [iPureIntro; apply _|]. iSplit.
  - iIntros "!>" (q V' Hle) "Hs Hk Hd". by iApply (wpp_thread with "Hlk Hs Hk Hd").
  - iIntros (h A' _) "(%tm & %m & %c & %Hnew & %Hm & %Hv & _ & $)". iPureIntro. naive_solver.
Qed.

Lemma loose_newest h c :
  h ≠ ∅ → c ≠ 0 → loose_values h c →
  ∃ t m, newest h t ∧ h !! t = Some m ∧ (1 <= mval m <= Z.of_nat c)%Z.
Proof.
  intros Hne Hc [Hall [?|(t' & Ht' & [m' Hm'])]]; [done|].
  destruct (newest_exists h Hne) as [t Hnew]. pose proof Hnew as [[m Hm] Hmax].
  exists t, m. split; [done|]. split; [done|]. destruct (Hall _ _ Hm) as [? [-> | ?]]; [|lia].
  apply Hmax in Hm'. simpl in Hm'. lia.
Qed.

Lemma wpp_count_loose threads iters os V :
  total = threads * iters → threads ≠ 0 → total ≠ 0 → printed os -∗
  wpp (Experiment.count Experiment.relaxed_thread threads iters) V (λ _ _,
    ∃ a, ⌜(1 <= a <= Z.of_nat total)%Z⌝ ∗ printed (os ++ [("{}"%string, [VInt a])])).
Proof.
  intros Htot Hn Hne. apply wpp_count; [done..|].
  iIntros (γ locked l N A W HN HA H0) "(%N1 & %A1 & %HN1 & Hl1) Hl2 Ht".
  iMod (mono_nat_own_alloc 0) as (γm) "[Hm _]".
  iMod (at_share_alloc W l _ _ _ (λ _, loose_pr γm γ) W with "Hl2 [Hm Ht]") as (γs) "Hs".
  { done. } { set_solver. } { apply map_non_empty_singleton. }
  { iIntros (_). iExists 0. rewrite lookup_singleton_eq. iFrame. iPureIntro.
    split; [|by eexists]. split; [|by left].
    intros t m [<- <-]%lookup_singleton_Some. split; [simpl; lia|by left]. }
  iMod (is_pub_alloc (λ _ _, True)%I _ _ _ _ W with "Hl1 [//]") as "#Hlk"; [done|].
  iModIntro. iExists γs, W, _. iFrame "Hs". iSplit; [iPureIntro; apply _|]. iSplit.
  - iIntros "!>" (q V' Hle) "Hs Hk Hd". iApply (wpp_relaxed_thread with "[] Hs Hk Hd"); [done|].
    by iApply (is_pub_mono with "Hlk").
  - iIntros (h A' Hh) "(%c & _ & $ & %Hv & _)". iPureIntro. intros ->. by apply loose_newest.
Qed.
End experiment.

(** The two lines that 07-04-03 prints, for [total] increments. *)
Definition experiment_lines (total : Z) (os : list output) : Prop :=
  ∃ a, (1 <= a <= total)%Z ∧ os = [("{}"%string, [VInt a]); ("{}"%string, [VInt total])].

Lemma experiment_safe threads iters :
  threads ≠ 0 → iters ≠ 0 → (Z.of_nat threads * Z.of_nat iters <= usize_MAX)%Z →
  safe (Experiment.main_with threads iters) (λ _, True) (λ o σ, o = Ok tt ∧
    experiment_lines (Z.of_nat threads * Z.of_nat iters) (out σ)).
Proof.
  intros Ht Hi Hmax. rewrite -Nat2Z.inj_mul in Hmax |- *.
  apply (safe_no_panic #[rustΣ; experimentΣ; tokenΣ] _ (experiment_lines _)).
  iIntros (?) "Hp _". iApply wpp_bind.
  iApply (wpp_wand with "[Hp]").
  { iApply (wpp_count_loose (threads * iters) with "Hp"); [done|done|done|lia]. }
  iIntros ([] V _) "(%a & %Ha & Hp)". iApply (wpp_wand with "[Hp]").
  { by iApply (wpp_count_exact (threads * iters) with "Hp"). }
  iIntros ([] V' _) "(%b & -> & Hp)". iExists _. iFrame "Hp". iPureIntro. by exists a.
Qed.

(** The steps of a run of two threads in which the second one takes the lock
    after the first has freed it, and still reads the old value. *)
Definition lost_update : list (nat * option time) :=
  replicate 6 (0, None) ++ replicate 12 (1, None) ++ replicate 2 (2, None) ++ [(2, Some 0)].

(** C22. [main] of 07-04-03: with [Acquire] and [Release] on the lock the counter
    ends at exactly 4,000,000.  With [Relaxed] operations it only ends between
    1 and 4,000,000, and the loss happens: two threads with one iteration each
    can print 1, then 2. *)
Theorem experiment_main_safe :
  safe Experiment.main (λ _, True) (λ o σ, o = Ok tt ∧ experiment_lines 4000000 (out σ)) ∧
  can_end (Experiment.main_with 2 1) (Ok tt) [("{}"%string, [VInt 1]); ("{}"%string, [VInt 2])].
Proof.
  split.
  - assert (Z.of_nat 4 * Z.of_nat (Z.to_nat 1000000) = 4000000)%Z as Hn by (rewrite Z2Nat.id; lia).
    rewrite -Hn. apply (experiment_safe 4 (Z.to_nat 1000000)); [done|lia|by rewrite Hn].
  - apply (can_end_follow lost_update 400). vm_compute. reflexivity.
Qed.
