(* ===== verification/Linearizable.v ===== *)
(** * Critical sections take effect one at a time

    For every lock that meets [LockSpec]: threads that each run a list of
    updates of the protected value, every update under its own guard, leave
    the value that some sequential interleaving of the updates computes. *)

From iris.proofmode Require Import proofmode.
From iris.base_logic.lib Require Import invariants ghost_var token.
From S2P Require Import Prelude Memory Lang Logic Rules Std Interleaving LockWord.
From S2P Require Import LockApi.

(** Apply the updates of a log in order. *)
Definition replay (v : val) (log : list (val → val)) : val :=
  foldl (λ v f, f v) v log.

(** ** The client *)

Definition update `{LockImpl} (m : lock_obj) (f : val → val) : prog unit :=
  with_guard m (v ← read (value m); write (value m) (f v)).

Fixpoint updates `{LockImpl} (m : lock_obj) (fs : list (val → val)) : prog unit :=
  match fs with
  | [] => mret ()
  | f :: fs => update m f;; updates m fs
  end.

Definition client `{LockImpl} (v0 : val) (fss : list (list (val → val))) : prog unit :=
  m ← lock_new v0;
  scope (updates m <$> fss) (mret ());;
  with_guard m (v ← read (value m); println "{}" [v]).

Class linG Σ := LinG { lin_varG :: ghost_varG Σ (list (val → val)) }.
Definition linΣ : gFunctors := #[ghost_varΣ (list (val → val))].
#[export] Instance subG_linΣ Σ : subG linΣ Σ → linG Σ.
Proof. solve_inG. Qed.

Section proof.
Context `{!rustGS Σ, !lockG Σ, !linG Σ, !tokenG Σ, I : LockImpl, !LockSpec I}.

(** The value is the replay of the log. *)
Definition logged (v0 : val) (fss : list (list (val → val))) (γs : list gname)
    (v : val) : iProp Σ :=
  ∃ log, ⌜v = replay v0 log⌝ ∗ log_is fss γs log.

Lemma wpp_updates γ m v0 fss γs i γi fs V :
  γs !! i = Some γi →
  is_mutex γ m (cur V) (logged v0 fss γs) -∗ todo γi fs -∗
  wpp (updates m fs) V (λ _ _, todo γi []).
Proof.
  iIntros (Hi) "#Hm Hγ". iInduction fs as [|f fs] "IH" forall (V) "Hm"; simpl.
  { by iApply wpp_ret. }
  iApply wpp_bind. iApply (wpp_with_guard with "Hm"). iIntros (v V1 Hle1) "Hv HP".
  iDestruct "HP" as (log) "[-> Hlog]".
  iMod (log_step with "Hlog Hγ") as "[Hlog Hγ]"; [done|].
  iApply wpp_bind. iApply (wpp_read with "Hv"). iIntros "!>" (V2 Hle2) "Hv".
  iApply (wpp_write with "Hv"). iIntros "!>" (V3 Hle3) "Hv". iExists _. iFrame "Hv Hlog".
  iSplit; [by rewrite /replay foldl_app|].
  iIntros (V4 Hle4). iApply ("IH" with "Hγ"). iApply (is_mutex_mono with "Hm").
  etrans; [apply Hle1|]. etrans; [apply Hle2|]. etrans; [apply Hle3|apply Hle4].
Qed.

Lemma wpp_client v0 fss V :
  printed [] -∗
  wpp (client v0 fss) V (λ _ _, ∃ log, ⌜interleaving fss log⌝ ∗
    printed [("{}"%string, [replay v0 log])]).
Proof.
  iIntros "Hp". iMod (log_alloc fss) as (γs) "[Hs Ht]". iApply wpp_bind.
  iApply (lock_new_spec (logged v0 fss γs) with "[Hs]").
  { iExists []. by iFrame "Hs". }
  iIntros (γ m V1 Hle1) "#Hm".
  iAssert ⌜length γs = length fss⌝%I as %Hlen.
  { by iDestruct (big_sepL2_length with "Ht") as %?. }
  iApply wpp_bind.
  assert (updates m <$> fss = (λ c, updates m c.2) <$> zip γs fss) as ->.
  { by rewrite (list_fmap_compose snd) snd_zip; [|lia]. }
  iApply (wpp_scope (zip γs fss) _ _ (λ c _, todo c.1 [])
    (λ _ _, True)%I with "[Ht] []").
  { rewrite big_sepL2_alt. iDestruct "Ht" as "[_ Ht]".
    iApply (big_sepL_impl with "Ht"). iIntros "!>" (i [γi fs] Hi) "Hγ".
    iIntros (V' Hle). apply lookup_zip_Some in Hi as [Hi _].
    iApply (wpp_updates with "[] Hγ"); [done|]. by iApply (is_mutex_mono with "Hm"). }
  { iIntros (V' _). by iApply wpp_ret. }
  iIntros ([] V2 V3 Hle2 Hle3) "_ Ht".
  iAssert ([∗ list] γi ∈ γs, todo γi [])%I with "[Ht]" as "Ht".
  { iEval (rewrite -(fst_zip γs fss); [|lia]). by rewrite big_sepL_fmap. }
  iApply (wpp_with_guard with "[]").
  { iApply (is_mutex_mono with "Hm"). etrans; [apply Hle2|apply Hle3]. }
  iIntros (v V4 Hle4) "Hv HP".
  iDestruct "HP" as (log) "[-> HP]". iDestruct (log_done with "HP Ht") as %Hlog.
  iApply wpp_bind. iApply (wpp_read with "Hv"). iIntros "!>" (V5 Hle5) "Hv".
  iApply (wpp_println with "Hp"). iIntros "!> Hp". iExists _. iFrame "Hv HP". iSplit; [done|].
  iIntros (V6 _). iExists log. by iFrame.
Qed.
End proof.

(** The closed form, for every implementation that meets the interface. *)
Lemma client_safe `{I : LockImpl} v0 fss :
  (∀ Σ `{!rustGS Σ, !lockG Σ}, LockSpec I) →
  safe (client v0 fss) (λ _, True) (λ o σ, o = Ok tt ∧ ∃ log,
    interleaving fss log ∧ out σ = [("{}"%string, [replay v0 log])]).
Proof.
  intros HI. apply (safe_no_panic #[rustΣ; lockΣ; linΣ; tokenΣ] _ (λ os, ∃ log,
    interleaving fss log ∧ os = [("{}"%string, [replay v0 log])])).
  iIntros (?) "Hp _". iApply (wpp_wand with "[Hp]").
  { by iApply (wpp_client with "Hp"). }
  iIntros ([] V _) "(%log & % & Hp)". iExists _. iFrame "Hp". eauto.
Qed.
