(* ===== verification/Counted.v ===== *)
(** * The protocol of a reference counter

    The protocol gives each handle an identity: the map of the protocol says
    when the handle was made, its last operation on the counter, and the
    fraction of the data it may use.  The fractions of the handles that are
    gone wait in the newest write of the counter.  Used by the counter of
    06-01 and by both counters of 06-02. *)

From Stdlib Require Import Qcanon.
From iris.proofmode Require Import proofmode.
From iris.base_logic.lib Require Import ghost_map.
From S2P Require Import Prelude Memory History Lang Logic Rules Std Shares.

(** ** Counting the handles *)

(** A handle: when it was made, its last operation, its fraction. *)
Abbreviation handles := (gmap nat (time * time * Qp)).

Definition total (M : handles) : Qc := map_fold (λ _ x s, Qp_to_Qc x.2 + s)%Qc 0%Qc M.

Lemma total_insert M i x :
  M !! i = None → total (<[i := x]> M) = (Qp_to_Qc x.2 + total M)%Qc.
Proof. intros Hi. rewrite /total map_fold_insert_L //. intros. ring. Qed.

Lemma total_delete M i x :
  M !! i = Some x → total M = (Qp_to_Qc x.2 + total (delete i M))%Qc.
Proof. intros Hi. rewrite /total (map_fold_delete_L _ _ i x) //. intros. ring. Qed.

Lemma total_update M i x y :
  M !! i = Some x →
  total (<[i := y]> M) = (Qp_to_Qc y.2 + (total M - Qp_to_Qc x.2))%Qc.
Proof.
  intros Hi. rewrite -insert_delete_eq total_insert ?lookup_delete_eq //.
  rewrite (total_delete M i x) //. ring.
Qed.

Lemma total_pos M : M ≠ ∅ → (0 < total M)%Qc.
Proof.
  induction M as [|i x M Hi IH] using map_ind; [done|]. intros _. rewrite total_insert //.
  destruct (decide (M = ∅)) as [->|Hne].
  - rewrite /total map_fold_empty Qcplus_0_r. apply Qp_prf.
  - apply (Qclt_le_trans _ (Qp_to_Qc x.2)); [apply Qp_prf|].
    rewrite -{1}(Qcplus_0_r (Qp_to_Qc x.2)). apply Qcplus_le_compat; [apply Qcle_refl|].
    by apply Qclt_le_weak, IH.
Qed.

Lemma total_Qp M : M ≠ ∅ → ∃ s : Qp, Qp_to_Qc s = total M.
Proof. intros HM. by exists (mk_Qp (total M) (total_pos M HM)). Qed.

(** The handles that existed at [t]. *)
Definition made_by (t : time) (M : handles) : handles := filter (λ x, x.2.1.1 ≤ t) M.

(** A write of the counter counts at least the handles that existed and are
    still there. *)
Definition counts_handles (h : hist) (M : handles) : Prop :=
  ∀ t m, h !! t = Some m → (Z.of_nat (size (made_by t M)) <= mval m)%Z.

(** Who saw the count 1 since [t0] while holding a handle made the next
    operation. *)
Definition sole_operates (t0 : time) (h : hist) (tm : time) (M : handles) : Prop :=
  ∀ i b a q t m, M !! i = Some (b, a, q) → h !! t = Some m → mval m = 1%Z →
    t0 ≤ t → b ≤ t → t < tm → t < a.

(** [cl]: since when only handles operate on the counter, if this is kept
    track of. *)
Definition handles_ok (cl : option time) (h : hist) (tm : time) (M : handles) : Prop :=
  newest h tm ∧ contiguous h 0 tm ∧ counts_handles h M ∧
  (∀ t0, cl = Some t0 → sole_operates t0 h tm M) ∧
  (∀ i b a q, M !! i = Some (b, a, q) → b ≤ a ∧ a ≤ tm) ∧
  (∀ m, h !! tm = Some m → mval m = Z.of_nat (size M)).

Lemma made_by_size t M : size (made_by t M) ≤ size M.
Proof. apply map_subseteq_size, map_filter_subseteq. Qed.

(** The fields that [made_by] looks at do not change with an operation. *)
Lemma made_by_operate t M i b a a' q q' :
  M !! i = Some (b, a, q) → size (made_by t (<[i := (b, a', q')]> M)) = size (made_by t M).
Proof.
  intros Hi. rewrite /made_by. destruct (decide (b ≤ t)).
  - rewrite map_filter_insert_True //. apply map_size_insert_Some. exists (b, a, q).
    by apply map_lookup_filter_Some.
  - rewrite map_filter_insert_False // map_filter_delete. rewrite map_size_delete_None //.
    apply map_lookup_filter_None. right. by intros x ?; simplify_eq/=.
Qed.

Lemma made_by_later t M i b a q : t < b → made_by t (<[i := (b, a, q)]> M) ⊆ made_by t M.
Proof.
  intros Hlt. rewrite /made_by map_filter_insert_False; [|simpl; lia].
  apply map_filter_strong_subseteq_ext. intros j x [? [_ ?]%lookup_delete_Some]. done.
Qed.

Lemma made_by_two t M i j x y :
  i ≠ j → M !! i = Some x → M !! j = Some y → x.1.1 ≤ t → y.1.1 ≤ t →
  2 ≤ size (made_by t M).
Proof.
  intros Hne Hi Hj Hx Hy.
  trans (size ({[i := x; j := y]} : handles)).
  { rewrite map_size_insert_None ?lookup_singleton_ne // map_size_singleton. done. }
  apply map_subseteq_size, insert_subseteq_l; [|apply map_singleton_subseteq_l];
    by apply map_lookup_filter_Some.
Qed.

(** The next write, by a holder of a handle when the counter is closed. *)
Lemma handles_ok_operate cl cl' h tm M m' M' :
  handles_ok cl h tm M →
  (∀ t0, cl' = Some t0 → t0 ≤ tm → cl = cl') →
  (∀ t, t ≤ tm → size (made_by t M') ≤ size (made_by t M)) →
  (∀ j b' a' q', M' !! j = Some (b', a', q') →
     b' ≤ a' ∧ a' ≤ S tm ∧
     (a' = S tm ∨ M !! j = Some (b', a', q') ∧
        (∀ t0, cl' = Some t0 → t0 ≤ tm → ∃ i x, i ≠ j ∧ M !! i = Some x))) →
  mval m' = Z.of_nat (size M') →
  handles_ok cl' (<[S tm := m']> h) (S tm) M'.
Proof.
  intros (Hnew & Hcon & Hcnt & Hsole & Hba & Hval) Hcl Hmade HM' Hm'.
  destruct (contiguous_extend h 0 tm m' Hnew Hcon) as [Hnew' Hcon'].
  split; [done|]. split; [done|]. split; [|split; [|split]].
  - intros t m [[<- <-]|[Hne Hm]]%lookup_insert_Some.
    { rewrite Hm'. pose proof (made_by_size (S tm) M'). lia. }
    pose proof (proj2 Hnew _ _ Hm) as Ht. simpl in Ht.
    pose proof (Hmade t Ht). specialize (Hcnt _ _ Hm). lia.
  - intros t0 Ht0 j b' a' q' t m Hj [[<- <-]|[_ Hm]]%lookup_insert_Some Hone H0 Hb Ht; [lia|].
    destruct (HM' _ _ _ _ Hj) as (_ & _ & [->|[HjM Hi]]); [lia|].
    assert (t0 ≤ tm) as Htm by lia.
    destruct (decide (t = tm)) as [->|].
    2: { eapply (Hsole t0); [by rewrite (Hcl t0)|done..|lia]. }
    destruct (Hi t0 Ht0 Htm) as (i & [[b a] q] & Hne & HiM). destruct (Hba _ _ _ _ HiM).
    pose proof (made_by_two tm M i j _ _ Hne HiM HjM ltac:(simpl; lia) Hb).
    specialize (Hcnt _ _ Hm). lia.
  - intros j b' a' q' Hj. by destruct (HM' _ _ _ _ Hj) as (? & ? & _).
  - intros m. rewrite lookup_insert_eq. by intros [= <-].
Qed.

Lemma handles_ok_clone cl h tm M i b a q q1 q2 k m' :
  handles_ok cl h tm M → M !! i = Some (b, a, q) → M !! k = None →
  mval m' = (Z.of_nat (size M) + 1)%Z →
  handles_ok cl (<[S tm := m']> h) (S tm)
    (<[k := (S tm, S tm, q2)]> (<[i := (b, S tm, q1)]> M)).
Proof.
  intros Hok Hi Hk Hm'. assert (k ≠ i) by congruence.
  pose proof Hok as (_ & _ & _ & _ & Hba & _).
  eapply handles_ok_operate; [done..| | |].
  - intros t Ht. rewrite -(made_by_operate t M i b a (S tm) q q1) //.
    apply map_subseteq_size, made_by_later. lia.
  - intros j b' a' q' [[<- [= <- <- <-]]|[? Hj]]%lookup_insert_Some; [lia|].
    apply lookup_insert_Some in Hj as [[<- [= <- <- <-]]|[? Hj]].
    { destruct (Hba _ _ _ _ Hi). lia. }
    destruct (Hba _ _ _ _ Hj). split; [done|]. split; [lia|]. right. split; [done|]. by eauto.
  - rewrite map_size_insert_None ?lookup_insert_ne // map_size_insert_Some; [lia|eauto].
Qed.

(** A handle made without one. *)
Definition since (cl : option time) (t : time) : option time := (λ _, t) <$> cl.

Lemma handles_ok_join cl h tm M k q m' :
  handles_ok cl h tm M → M !! k = None → mval m' = (Z.of_nat (size M) + 1)%Z →
  handles_ok (since cl (S tm)) (<[S tm := m']> h) (S tm) (<[k := (S tm, S tm, q)]> M).
Proof.
  intros Hok Hk Hm'. pose proof Hok as (_ & _ & _ & _ & Hba & _).
  eapply handles_ok_operate; [done| | | |].
  - intros t0 Ht0 Hle. destruct cl; simplify_eq/=. lia.
  - intros t Ht. apply map_subseteq_size, made_by_later. lia.
  - intros j b' a' q' [[<- [= <- <- <-]]|[? Hj]]%lookup_insert_Some; [lia|].
    destruct (Hba _ _ _ _ Hj). split; [done|]. split; [lia|]. right. split; [done|].
    intros t0 Ht0 Hle. destruct cl; simplify_eq/=. lia.
  - rewrite map_size_insert_None //. lia.
Qed.

(** A write that does not change the count. *)
Lemma handles_ok_touch h tm M m' :
  handles_ok None h tm M → mval m' = Z.of_nat (size M) →
  handles_ok None (<[S tm := m']> h) (S tm) M.
Proof.
  intros Hok Hm'. pose proof Hok as (_ & _ & _ & _ & Hba & _).
  eapply handles_ok_operate; [done..| |done]. intros j b a q Hj.
  destruct (Hba _ _ _ _ Hj). split; [done|]. split; [lia|]. by right.
Qed.

Lemma handles_ok_drop cl h tm M i b a q m' :
  handles_ok cl h tm M → M !! i = Some (b, a, q) →
  mval m' = (Z.of_nat (size M) - 1)%Z →
  handles_ok cl (<[S tm := m']> h) (S tm) (delete i M).
Proof.
  intros Hok Hi Hm'. pose proof Hok as (_ & _ & _ & _ & Hba & _).
  assert (size M ≠ 0) by (intros ->%map_size_empty_inv; done).
  eapply handles_ok_operate; [done..| | |].
  - intros t Ht. apply map_subseteq_size. apply map_filter_subseteq_mono, delete_subseteq.
  - intros j b' a' q' [? Hj]%lookup_delete_Some. destruct (Hba _ _ _ _ Hj).
    split; [done|]. split; [lia|]. right. split; [done|]. by eauto.
  - rewrite map_size_delete_Some; [lia|eauto].
Qed.

Lemma map_size_1_inv (M : handles) i x : M !! i = Some x → size M = 1 → M = {[i := x]}.
Proof.
  intros Hi Hs. rewrite -(insert_delete_id M i x) //.
  rewrite (map_size_empty_inv (delete i M)) ?insert_empty //.
  rewrite map_size_delete_Some; [lia|eauto].
Qed.

(** The fractions do not matter. *)
Lemma handles_ok_frac cl h tm i b a q q' :
  handles_ok cl h tm {[i := (b, a, q)]} → handles_ok cl h tm {[i := (b, a, q')]}.
Proof.
  intros (Hnew & Hcon & Hcnt & Hsole & Hba & Hval).
  assert (∀ t, size (made_by t {[i := (b, a, q')]}) = size (made_by t {[i := (b, a, q)]})) as Heq.
  { intros t. rewrite -(made_by_operate t {[i := (b, a, q)]} i b a a q q') ?insert_singleton_eq //.
    by rewrite lookup_singleton_eq. }
  split; [done|]. split; [done|]. split; [|split; [|split]].
  - intros t m Hm. rewrite Heq. by apply Hcnt.
  - intros t0 Hcl j b' a' q2 t m [<- [= <- <- <-]]%lookup_singleton_Some.
    apply (Hsole t0 Hcl i b a q). by rewrite lookup_singleton_eq.
  - intros j b' a' q2 [<- [= <- <- <-]]%lookup_singleton_Some.
    apply (Hba i b a q). by rewrite lookup_singleton_eq.
  - intros m Hm. rewrite (Hval m Hm) !map_size_singleton. done.
Qed.

(** A holder that reads 1 reads the newest write: it is the only one. *)
Lemma handles_ok_sole t0 l h tm M i b a q W t m :
  handles_ok (Some t0) h tm M → t0 ≤ t → M !! i = Some (b, a, q) → Coh l a ∈ W → coh_le l h W t →
  h !! t = Some m → mval m = 1%Z →
  t = tm ∧ M = {[i := (b, a, q)]}.
Proof.
  intros (Hnew & Hcon & Hcnt & Hsole & Hba & Hval) H0 Hi Ha Hcoh Hm Hone.
  destruct (Hba _ _ _ _ Hi) as [Hb Hle].
  assert (a ≤ t) as Hat.
  { destruct (proj2 Hcon a) as [ma Hma]; [lia|]. by apply (Hcoh a ma). }
  assert (t = tm) as ->.
  { pose proof (proj2 Hnew _ _ Hm) as Ht. simpl in Ht.
    destruct (decide (t = tm)); [done|].
    enough (t < a) by lia. eapply Hsole; [done..| |]; lia. }
  split; [done|]. specialize (Hval _ Hm).
  apply map_size_1_inv; [done|lia].
Qed.

(** ** The protocol *)

Class arcG Σ := ArcG {
  arc_handlesG :: ghost_mapG Σ nat (time * time * Qp);
  arc_creditsG :: ghost_mapG Σ nat time;
  arc_goneG :: ghost_mapG Σ unit time
}.
Definition arcΣ : gFunctors :=
  #[ghost_mapΣ nat (time * time * Qp); ghost_mapΣ nat time; ghost_mapΣ unit time].
#[export] Instance subG_arcΣ Σ : subG arcΣ Σ → arcG Σ.
Proof. solve_inG. Qed.

(** The shares of the counter, its handles and their tokens, the credits for
    clones, whether the last handle is gone, and how many credits there are: a
    clone takes a credit, a drop returns it. *)
Record arc_name : Type := ArcName {
  arc_shares : gname * gname; arc_handles : gname; arc_ids : gname;
  arc_credits : gname; arc_gone : gname; arc_budget : nat
}.

(** A credit remembers the drop that returned it: the newest operation was
    made by a handle that is there, or returned a credit that is there. *)
Definition last_operation (tm : time) (M : handles) (K : gmap nat time) : Prop :=
  (∃ i b q, M !! i = Some (b, tm, q)) ∨ (∃ k, K !! k = Some tm).

Definition opt_Qc (r : option Qp) : Qc :=
  match r with Some q => Qp_to_Qc q | None => 0%Qc end.

(** Who has the fraction 1 is the only one. *)
Lemma total_one (M : handles) i b a c r :
  M !! i = Some (b, a, c) → (opt_Qc r + total M)%Qc = Qp_to_Qc c → M = {[i := (b, a, c)]}.
Proof.
  intros Hi Hr. rewrite (total_delete M i _ Hi) /= in Hr.
  destruct (decide (delete i M = ∅)) as [Hd|Hd].
  { rewrite -(insert_delete_id M i (b, a, c)) // Hd insert_empty //. }
  exfalso. pose proof (total_pos _ Hd) as Hpos.
  assert (0 <= opt_Qc r)%Qc as H0 by (destruct r; [apply Qclt_le_weak, Qp_prf|apply Qcle_refl]).
  assert (opt_Qc r + total (delete i M) = 0)%Qc as Hz.
  { trans (opt_Qc r + (Qp_to_Qc c + total (delete i M)) - Qp_to_Qc c)%Qc; [ring|rewrite Hr; ring]. }
  apply (Qclt_not_le _ _ Hpos). rewrite -Hz.
  rewrite -{1}(Qcplus_0_l (total _)). apply Qcplus_le_compat; [done|apply Qcle_refl].
Qed.

Section counted.
Context `{!arcG Σ}.

(** The right to make one more clone: the counter does not overflow. *)
Definition credit (γ : arc_name) (l : loc) (W : view) : iProp Σ :=
  ∃ (k : nat) (t : time), k ↪[arc_credits γ] t ∗ ⌜Coh l t ∈ W⌝.

#[global] Instance credit_mono γ l : ViewMono (credit γ l).
Proof. intros W W' ?. iIntros "(%k & %t & $ & %)". iPureIntro. set_solver. Qed.

Lemma credits_alloc n :
  ⊢ |==> ∃ γk (K : gmap nat time), ghost_map_auth γk 1 K ∗ ⌜size K = n⌝ ∗
      [∗ list] _ ∈ seq 0 n, ∃ k : nat, k ↪[γk] 0.
Proof.
  induction n as [|n IH].
  { iMod (ghost_map_alloc_empty (K := nat) (V := time)) as (γk) "HK". iModIntro. iExists γk, ∅. iFrame "HK".
    iSplit; [by rewrite map_size_empty|done]. }
  iMod IH as (γk K) "(HK & %HK & Hk)". set (k := fresh (dom K)).
  assert (K !! k = None) by apply not_elem_of_dom, is_fresh.
  iMod (ghost_map_insert k 0 with "HK") as "[HK Hk']"; [done|]. iModIntro.
  iExists γk, _. iFrame "HK". iSplit.
  - iPureIntro. rewrite map_size_insert_None //. lia.
  - rewrite seq_S big_sepL_app big_sepL_singleton. iFrame "Hk". by iExists k.
Qed.

Lemma credits_init γ l W n :
  Coh l 0 ∈ W → ([∗ list] _ ∈ seq 0 n, ∃ k : nat, k ↪[arc_credits γ] 0) -∗
  [∗ list] _ ∈ seq 0 n, credit γ l W.
Proof.
  iIntros (H0) "Hk". iApply (big_sepL_impl with "Hk"). iIntros "!>" (? ? _) "(%j & Hj)".
  iExists j, 0. by iFrame.
Qed.

Lemma credits_all γk l (W : view) (K : gmap nat time) (L : list nat) :
  size K = length L →
  ghost_map_auth γk 1 K -∗ ([∗ list] _ ∈ L, ∃ (k : nat) (t : time), k ↪[γk] t ∗ ⌜Coh l t ∈ W⌝) -∗
  ⌜∀ k t, K !! k = Some t → Coh l t ∈ W⌝.
Proof.
  iIntros (Hlen) "HK HL". iInduction L as [|x L] "IH" forall (K Hlen).
  { iPureIntro. apply map_size_empty_inv in Hlen as ->. by intros k t ?%lookup_empty_Some. }
  iDestruct "HL" as "[(%k & %t & Hk & %Ht) HL]".
  iDestruct (ghost_map_lookup with "HK Hk") as %Hk.
  iMod (ghost_map_delete with "HK Hk") as "HK".
  iDestruct ("IH" with "[%] HK HL") as %Hall.
  { rewrite map_size_delete_Some; [simpl in Hlen; lia|eauto]. }
  iPureIntro. intros k' t' Hk'. destruct (decide (k = k')) as [->|]; [by simplify_eq|].
  apply (Hall k'). by rewrite lookup_delete_ne.
Qed.

Lemma credits_size γ l W (K : gmap nat time) (L : list nat) :
  ghost_map_auth (arc_credits γ) 1 K -∗ ([∗ list] _ ∈ L, credit γ l W) -∗
  ⌜length L ≤ size K⌝.
Proof.
  iIntros "HK HL".
  iInduction L as [|x L] "IH" forall (K); [iPureIntro; apply Nat.le_0_l|].
  iDestruct "HL" as "[(%k & %t & Hk & _) HL]".
  iDestruct (ghost_map_lookup with "HK Hk") as %Hk.
  iMod (ghost_map_delete with "HK Hk") as "HK". iDestruct ("IH" with "HK HL") as %Hlen.
  iPureIntro. rewrite map_size_delete_Some in Hlen; [|eauto].
  assert (size K ≠ 0) by (intros ->%map_size_empty_inv; done). simpl. lia.
Qed.

Definition all_credits (γ : arc_name) (l : loc) (W : view) : iProp Σ :=
  [∗ list] _ ∈ seq 0 (arc_budget γ), credit γ l W.

#[global] Instance all_credits_mono γ l : ViewMono (all_credits γ l).
Proof.
  intros W W' Hle. iIntros "H". iApply (big_sepL_impl with "H").
  iIntros "!>" (? ? _) "Hk". by iApply (view_mono with "Hk").
Qed.

(** The token of a handle, which is needed to drop it; it knows when the handle
    was made. *)
Definition alive_since (γ : arc_name) (i : nat) (b : time) : iProp Σ := i ↪[arc_ids γ] b.
Definition alive (γ : arc_name) (i : nat) : iProp Σ := ∃ b, alive_since γ i b.

Definition ids (M : handles) : gmap nat time := (λ x, x.1.1) <$> M.

Lemma ids_update (M : handles) i b a a' q q' :
  M !! i = Some (b, a, q) → ids (<[i := (b, a', q')]> M) = ids M.
Proof. intros Hi. rewrite /ids fmap_insert insert_id // lookup_fmap Hi //. Qed.

Lemma alive_made γ (M : handles) i dq b :
  ghost_map_auth (arc_ids γ) 1 (ids M) -∗ i ↪[arc_ids γ]{dq} b -∗
  ⌜∃ a q, M !! i = Some (b, a, q)⌝.
Proof.
  iIntros "HM Hi". iDestruct (ghost_map_lookup with "HM Hi") as %Hi. iPureIntro.
  rewrite lookup_fmap in Hi. destruct (M !! i) as [[[b' a] q]|]; simplify_eq/=. by eexists _, _.
Qed.

(** The token, for who knows that the handle is there. *)
Definition born (γ : arc_name) (l : loc) (i : nat) (W : view) : iProp Σ := ∃ b, alive_since γ i b ∗ ⌜Coh l b ∈ W⌝.

#[global] Instance born_mono γ l i : ViewMono (born γ l i).
Proof. intros W W' Hle. iIntros "(%b & $ & %)". iPureIntro. by apply Hle. Qed.

Lemma born_alive γ l i W : born γ l i W -∗ alive γ i.
Proof. iIntros "(%b & H & _)". by iExists b. Qed.

(** The last handle was dropped with the write [t]. *)
Definition gone (γ : arc_name) (t : time) : iProp Σ := tt ↪[arc_gone γ]□ t.
Definition not_gone (γ : arc_name) : iProp Σ := ghost_map_auth (arc_gone γ) 1 (∅ : gmap unit time).

#[global] Instance gone_persistent γ t : Persistent (gone γ t).
Proof. apply _. Qed.

Lemma not_gone_alloc : ⊢ |==> ∃ γg, ghost_map_auth γg 1 (∅ : gmap unit time).
Proof. iMod (ghost_map_alloc_empty (K := unit) (V := time)) as (γ) "H". by iExists γ. Qed.
Lemma gone_now γ t : not_gone γ ==∗ gone γ t.
Proof. iIntros "H". by iMod (ghost_map_insert_persist tt t with "H") as "[_ $]". Qed.
Lemma not_gone_gone γ t : not_gone γ -∗ gone γ t -∗ False.
Proof.
  iIntros "H1 H2". by iDestruct (ghost_map_lookup with "H1 H2") as %?%lookup_empty_Some.
Qed.

(** *** The invariant *)

(** What a handle owns: [Pt q]. *)
Context (Pt : Qp → view → iProp Σ) `{!FracView Pt}.
Implicit Types (γ : arc_name) (M : handles) (h : hist) (c q : Qp) (l : loc) (W R : view).

Definition returned (r : option Qp) W : iProp Σ :=
  match r with Some q => Pt q W | None => True end.

Lemma returned_mono r W W' : W ⊆ W' → returned r W -∗ returned r W'.
Proof. iIntros (?) "H". destruct r; simpl; [|done]. by iApply (view_mono with "H"). Qed.

Lemma returned_add r q W :
  returned r W -∗ Pt q W -∗
  ∃ r', ⌜opt_Qc r' = (Qp_to_Qc q + opt_Qc r)%Qc⌝ ∗ returned r' W.
Proof.
  iIntros "Hr Hq". destruct r as [q'|].
  - iExists (Some (q + q')%Qp). rewrite /= frac_view_split.
    iFrame. iPureIntro. apply Qp.to_Qc_inj_add.
  - iExists (Some q). iFrame. iPureIntro. simpl. ring.
Qed.

Lemma returned_full r c W : opt_Qc r = Qp_to_Qc c → returned r W -∗ Pt c W.
Proof.
  iIntros (Hr) "H". destruct r as [q|].
  - simpl in Hr. apply Qp.to_Qc_inj_iff in Hr as ->. done.
  - exfalso. pose proof (Qp_prf c) as Hc. simpl in Hr. rewrite -Hr in Hc. by apply Qclt_not_eq in Hc.
Qed.

(** The handles own [c] in all; what dropped handles owned waits, for who has
    the view [R], which the newest write carries. *)
Definition counter_proto (cl : option time) γ c M R h : iProp Σ :=
  ∃ K tm m, ghost_map_auth (arc_ids γ) 1 (ids M) ∗
    ⌜map_Forall (λ _ m, (0 <= mval m <= Z.of_nat (S (arc_budget γ)))%Z) h⌝ ∗
    ghost_map_auth (arc_handles γ) 1 M ∗ ghost_map_auth (arc_credits γ) 1 K ∗
    ⌜handles_ok cl h tm M⌝ ∗ ⌜h !! tm = Some m⌝ ∗
    ⌜(size M + size K)%nat = S (arc_budget γ)⌝ ∗ ⌜last_operation tm M K⌝ ∗
    ⌜(Z.of_nat (S (arc_budget γ)) <= usize_MAX)%Z⌝ ∗ ⌜R ⊆ mview m⌝ ∗
    (⌜M = ∅⌝ ∗ gone γ tm ∨
     not_gone γ ∗ ∃ r, ⌜(opt_Qc r + total M)%Qc = Qp_to_Qc c⌝ ∗ returned r R).

#[global] Instance counter_proto_timeless cl γ c M R h `{!∀ q W, Timeless (Pt q W)} :
  Timeless (counter_proto cl γ c M R h).
Proof.
  assert (∀ r W, Timeless (returned r W)) by (intros [?|] W; apply _). apply _.
Qed.

(** A read-modify-write reads the newest write, which counts the handles. *)
Lemma counter_newest cl γ c M R h t m :
  h !! t = Some m → h !! S t = None →
  counter_proto cl γ c M R h -∗ ⌜handles_ok cl h t M⌝ ∗ ⌜mval m = Z.of_nat (size M)⌝.
Proof.
  iIntros (Hm Hfree) "(%K & %tm & %m' & _ & _ & HM & HK & %Hok & %Hm' & _)".
  pose proof Hok as (Hnew & Hcon & _ & _ & _ & Hval).
  assert (t = tm) as -> by (eapply contiguous_newest; [done|done|apply Nat.le_0_l|done|done]).
  iPureIntro. split; [done|by apply Hval].
Qed.

Lemma counter_clone cl γ c M R h t m m' i b a q j (k : nat) (tk : time) :
  h !! t = Some m → h !! S t = None → M !! j = None →
  mval m' = (mval m + 1)%Z → mview m ⊆ mview m' →
  counter_proto cl γ c M R h -∗ i ↪[arc_handles γ] (b, a, q) -∗ k ↪[arc_credits γ] tk ==∗
  ⌜(0 <= mval m < usize_MAX)%Z⌝ ∗
  counter_proto cl γ c (<[j := (S t, S t, (q / 2)%Qp)]> (<[i := (b, S t, (q / 2)%Qp)]> M)) R
    (<[S t := m']> h) ∗
  i ↪[arc_handles γ] (b, S t, (q / 2)%Qp) ∗ j ↪[arc_handles γ] (S t, S t, (q / 2)%Qp) ∗
  alive_since γ j (S t).
Proof.
  iIntros (Hm Hfree Hj Hv Hw) "HPr Hi Hk".
  iDestruct (counter_newest with "HPr") as %[Hok Hval]; [done..|].
  iDestruct "HPr" as (K tm m'') "(Hd & %Hb & HM & HK & %Hok' & %Hm'' & %Hsz & %Hlast & %Hmax & %HR & Hr)".
  assert (tm = t) as -> by (eapply newest_unique; [apply Hok'|apply Hok]). simplify_eq.
  iDestruct (ghost_map_lookup with "HM Hi") as %Hi.
  iDestruct (ghost_map_lookup with "HK Hk") as %Hk.
  iMod (ghost_map_delete with "HK Hk") as "HK".
  iMod (ghost_map_update (b, S t, (q / 2)%Qp) with "HM Hi") as "[HM $]".
  iMod (ghost_map_insert j (S t, S t, (q / 2)%Qp) with "HM") as "[HM $]".
  { rewrite lookup_insert_ne //. congruence. }
  iMod (ghost_map_insert j (S t) with "Hd") as "[Hd Hd']"; [by rewrite lookup_fmap Hj|].
  assert (size K ≠ 0) by (intros ->%map_size_empty_inv; done). iModIntro.
  iSplitR; [iPureIntro; lia|]. iSplitR "Hd'"; [|done].
  iExists _, (S t), _. iFrame "HM HK". iSplitL "Hd".
  { rewrite {2}/ids fmap_insert. by rewrite -/(ids _) (ids_update _ _ _ _ _ _ _ Hi). }
  iSplit; [iPureIntro; apply map_Forall_insert_2; [lia|done]|]. iSplit.
  { iPureIntro. eapply handles_ok_clone; [done..|]. by rewrite Hv Hval. }
  rewrite lookup_insert_eq. iSplit; [done|]. iSplit.
  { iPureIntro. rewrite map_size_insert_None ?lookup_insert_ne; [|congruence..].
    rewrite map_size_insert_Some; [|eauto]. rewrite map_size_delete_Some; [|eauto]. lia. }
  iSplit.
  { iPureIntro. left. exists j, (S t), (q / 2)%Qp. by rewrite lookup_insert_eq. }
  iSplit; [done|]. iSplit; [iPureIntro; by etrans|].
  iRight. iDestruct "Hr" as "[[-> _]|($ & %r & %Hr & $)]"; [done|].
  iPureIntro. rewrite total_insert ?lookup_insert_ne; [|congruence..].
  rewrite (total_update _ _ (b, a, q)) //= -Hr -{3}(Qp.div_2 q) Qp.to_Qc_inj_add. ring.
Qed.

(** A new handle for who has none, with a part of its own. *)
Lemma counter_join cl γ c M R h t m m' q j (k : nat) (tk : time) :
  h !! t = Some m → h !! S t = None → M !! j = None → mval m ≠ 0%Z →
  mval m' = (mval m + 1)%Z → mview m ⊆ mview m' →
  counter_proto cl γ c M R h -∗ k ↪[arc_credits γ] tk ==∗
  ⌜(0 <= mval m < usize_MAX)%Z⌝ ∗
  counter_proto (since cl (S t)) γ (c + q) (<[j := (S t, S t, q)]> M) R (<[S t := m']> h) ∗
  j ↪[arc_handles γ] (S t, S t, q) ∗ alive_since γ j (S t).
Proof.
  iIntros (Hm Hfree Hj Hne Hv Hw) "HPr Hk".
  iDestruct (counter_newest with "HPr") as %[Hok Hval]; [done..|].
  iDestruct "HPr" as (K tm m'') "(Hd & %Hb & HM & HK & %Hok' & %Hm'' & %Hsz & %Hlast & %Hmax & %HR & Hr)".
  assert (tm = t) as -> by (eapply newest_unique; [apply Hok'|apply Hok]). simplify_eq.
  iDestruct (ghost_map_lookup with "HK Hk") as %Hk.
  iMod (ghost_map_delete with "HK Hk") as "HK".
  iMod (ghost_map_insert j (S t, S t, q) with "HM") as "[HM $]"; [done|].
  iMod (ghost_map_insert j (S t) with "Hd") as "[Hd Hd']"; [by rewrite lookup_fmap Hj|].
  assert (size K ≠ 0) by (intros ->%map_size_empty_inv; done). iModIntro.
  iSplitR; [iPureIntro; lia|]. iSplitR "Hd'"; [|done].
  iExists _, (S t), _. iFrame "HM HK". iSplitL "Hd"; [by rewrite {2}/ids fmap_insert|].
  iSplit; [iPureIntro; apply map_Forall_insert_2; [lia|done]|]. iSplit.
  { iPureIntro. eapply handles_ok_join; [done..|]. by rewrite Hv Hval. }
  rewrite lookup_insert_eq. iSplit; [done|]. iSplit.
  { iPureIntro. rewrite map_size_insert_None // map_size_delete_Some; [|eauto]. lia. }
  iSplit.
  { iPureIntro. left. exists j, (S t), q. by rewrite lookup_insert_eq. }
  iSplit; [done|]. iSplit; [iPureIntro; by etrans|].
  iRight. iDestruct "Hr" as "[[-> _]|($ & %r & %Hr & $)]".
  { by rewrite map_size_empty in Hval. }
  iPureIntro. rewrite total_insert //= Qp.to_Qc_inj_add -Hr. ring.
Qed.

(** Giving up a handle; the last one takes all that was returned. *)
Lemma counter_drop cl γ c M R h t m W i b a q :
  h !! t = Some m → h !! S t = None →
  counter_proto cl γ c M R h -∗ i ↪[arc_handles γ] (b, a, q) -∗ alive γ i -∗ Pt q W ==∗
  ⌜(1 <= mval m <= usize_MAX)%Z⌝ ∗ ⌜mval m = Z.of_nat (size M)⌝ ∗ ⌜is_Some (M !! i)⌝ ∗ ⌜R ⊆ mview m⌝ ∗
  counter_proto cl γ c (delete i M) (W ∪ R) (<[S t := Msg (mval m - 1) (W ∪ mview m)]> h) ∗
  (∃ k : nat, k ↪[arc_credits γ] S t) ∗
  (⌜mval m = 1%Z⌝ ∗ gone γ (S t) ∗ Pt c (W ∪ R) ∨ ⌜mval m ≠ 1%Z⌝).
Proof.
  iIntros (Hm Hfree) "HPr Hi (%b' & Hd') Hp".
  iDestruct (counter_newest with "HPr") as %[Hok Hval]; [done..|].
  iDestruct "HPr" as (K tm m'') "(Hd & %Hb & HM & HK & %Hok' & %Hm'' & %Hsz & %Hlast & %Hmax & %HR & Hr)".
  assert (tm = t) as -> by (eapply newest_unique; [apply Hok'|apply Hok]). simplify_eq.
  iDestruct (ghost_map_lookup with "HM Hi") as %Hi.
  assert (size M ≠ 0) as Hne by (intros ->%map_size_empty_inv; done).
  iMod (ghost_map_delete with "HM Hi") as "HM".
  iMod (ghost_map_delete with "Hd Hd'") as "Hd". rewrite -fmap_delete -/(ids _).
  iDestruct "Hr" as "[[-> _]|(Hg & %r & %Hr & Hret)]"; [done|].
  iDestruct (returned_add _ _ (W ∪ R) with "[Hret] [Hp]") as (r' Hr') "Hret".
  { iApply (returned_mono with "Hret"). set_solver. }
  { iApply (view_mono with "Hp"). set_solver. }
  assert ((opt_Qc r' + total (delete i M))%Qc = Qp_to_Qc c) as Htot.
  { rewrite Hr' -Hr (total_delete M i (b, a, q)) //=. ring. }
  assert (handles_ok cl (<[S t := Msg (mval m - 1) (W ∪ mview m)]> h) (S t) (delete i M)).
  { eapply handles_ok_drop; [done..|]. by rewrite /= Hval. }
  set (k := fresh (dom K)). assert (K !! k = None) by apply not_elem_of_dom, is_fresh.
  assert ((size (delete i M) + size (<[k := S t]> K))%nat = S (arc_budget γ)).
  { rewrite map_size_delete_Some; [|eauto]. rewrite map_size_insert_None //. lia. }
  iMod (ghost_map_insert k (S t) with "HK") as "[HK Hk]"; [done|].
  iAssert (|==> (⌜delete i M = ∅⌝ ∗ gone γ (S t) ∨ not_gone γ ∗ ∃ r,
      ⌜(opt_Qc r + total (delete i M))%Qc = Qp_to_Qc c⌝ ∗ returned r (W ∪ R)) ∗
    (⌜mval m = 1%Z⌝ ∗ gone γ (S t) ∗ Pt c (W ∪ R) ∨ ⌜mval m ≠ 1%Z⌝))%I
    with "[Hg Hret]" as ">[Hr $]".
  { destruct (decide (mval m = 1%Z)) as [Hone|Hone].
    - iMod (gone_now _ (S t) with "Hg") as "#Hg". iModIntro.
      assert (delete i M = ∅) as Hempty.
      { apply map_size_empty_inv. rewrite map_size_delete_Some; [|eauto]. lia. }
      iSplitR; [by iLeft; iFrame "Hg"|]. iLeft. iFrame "Hg". iSplit; [done|].
      iApply (returned_full with "Hret"). rewrite -Htot Hempty. rewrite /total map_fold_empty. ring.
    - iModIntro. iSplitL; [|by iRight]. iRight. iFrame "Hg". iExists r'. by iFrame. }
  iModIntro. iSplit; [iPureIntro; lia|]. iSplit; [done|]. iSplit; [by eauto|].
  iSplit; [done|]. iSplitR "Hk"; [|by iExists k]. iExists _, (S t), (Msg (mval m - 1) (W ∪ mview m)). iFrame "Hd HM HK Hr".
  iSplit; [iPureIntro; apply map_Forall_insert_2; [simpl; lia|done]|].
  rewrite lookup_insert_eq. do 2 (iSplit; [done|]). iSplit; [done|]. iSplit; [|iPureIntro; split; [done|simpl; set_solver]].
  iPureIntro. right. exists k. by rewrite lookup_insert_eq.
Qed.

Lemma counter_handle cl γ c M R h i dq (x : time * time * Qp) :
  counter_proto cl γ c M R h -∗ i ↪[arc_handles γ]{dq} x -∗ ⌜M !! i = Some x⌝.
Proof.
  iIntros "(%K & %tm & %m' & _ & _ & HM & _) Hi". iApply (ghost_map_lookup with "HM Hi").
Qed.

Lemma counter_made cl γ c M R h i dq b :
  counter_proto cl γ c M R h -∗ i ↪[arc_ids γ]{dq} b -∗ ⌜∃ a q, M !! i = Some (b, a, q)⌝.
Proof. iIntros "(%K & %tm & %m' & Hd & _) Hi". by iApply (alive_made with "Hd Hi"). Qed.

Lemma counter_bound cl γ c M R h t m :
  h !! t = Some m →
  counter_proto cl γ c M R h -∗ ⌜(0 <= mval m <= Z.of_nat (S (arc_budget γ)))%Z⌝.
Proof. iIntros (Hm) "(%K & %tm & %m' & _ & %Hb & _)". iPureIntro. by apply (Hb t). Qed.

Lemma counter_alive cl γ c M R h t m i (x : time * time * Qp) j :
  h !! t = Some m → h !! S t = None →
  counter_proto cl γ c M R h -∗ i ↪[arc_handles γ] x -∗ alive γ i -∗ alive γ j -∗ ⌜mval m ≠ 1%Z⌝.
Proof.
  iIntros (Hm Hfree) "HPr Hi (%b & Hi') (%b' & Hj)".
  iDestruct (counter_newest with "HPr") as %[Hok Hval]; [done..|].
  iDestruct (ghost_map_elem_ne with "Hi' Hj") as %Hne.
  iDestruct (counter_handle with "HPr Hi") as %Hi.
  iDestruct (counter_made with "HPr Hj") as %(a & q & Hj). iPureIntro. rewrite Hval.
  intros H1. rewrite (map_size_1_inv M i x) in Hj; [|done|lia].
  by rewrite lookup_singleton_ne in Hj.
Qed.

(** While a handle is there, no write since it was made is 0. *)
Lemma counter_positive cl γ c M R h t m i b :
  h !! t = Some m → b ≤ t →
  counter_proto cl γ c M R h -∗ alive_since γ i b -∗ ⌜(1 <= mval m)%Z⌝.
Proof.
  iIntros (Hm Hb) "HPr Hi". iDestruct (counter_made with "HPr Hi") as %(a & q & Hi).
  iDestruct "HPr" as (K tm m'') "(_ & _ & _ & _ & %Hok & _)". iPureIntro.
  destruct Hok as (_ & _ & Hcnt & _). specialize (Hcnt _ _ Hm).
  assert (size (made_by t M) ≠ 0); [|lia]. intros Hs%map_size_empty_inv.
  assert (made_by t M !! i = None) as Hn by by rewrite Hs. revert Hn.
  rewrite /made_by. apply (proj2 (not_eq_None_Some _)). exists (b, a, q).
  by apply map_lookup_filter_Some.
Qed.

(** When the last handle is gone, the counter stays 0. *)
Lemma counter_born cl γ c M R l h t m i W :
  h !! t = Some m → coh_le l h W t →
  counter_proto cl γ c M R h -∗ born γ l i W -∗ ⌜(1 <= mval m)%Z⌝.
Proof.
  iIntros (Hm Hle) "HPr (%b & Hi & %Hb)". iDestruct (counter_made with "HPr Hi") as %(a & q & Hi).
  iAssert ⌜∃ tm, handles_ok cl h tm M⌝%I as %(tm & Hok).
  { iDestruct "HPr" as (K tm m'') "(_ & _ & _ & _ & %Hok & _)". by eauto. }
  iApply (counter_positive with "HPr Hi"); [done|].
  destruct Hok as (_ & Hcon & _ & _ & Hba & _). destruct (Hba _ _ _ _ Hi).
  destruct (proj2 Hcon b) as [mb Hmb]; [lia|]. by apply (Hle b mb).
Qed.

Lemma counter_gone cl γ c M R h t :
  counter_proto cl γ c M R h -∗ gone γ t -∗ ⌜M = ∅⌝ ∗ ⌜newest h t⌝ ∗
  ⌜∃ m, h !! t = Some m ∧ mval m = 0%Z⌝.
Proof.
  iIntros "(%K & %tm & %m & _ & _ & _ & _ & %Hok & %Hm & _ & _ & _ & _ & [[-> #Hg]|[Hg _]]) #Hg'"; last first.
  { by iDestruct (not_gone_gone with "Hg Hg'") as "[]". }
  iDestruct (ghost_map_elem_agree with "Hg Hg'") as %->. iPureIntro.
  destruct Hok as (Hnew & _ & _ & _ & _ & Hval). split; [done|]. split; [done|].
  exists m. split; [done|]. by rewrite (Hval _ Hm) map_size_empty.
Qed.

(** The fraction of the only handle, with what the others returned. *)
Lemma counter_take cl γ c R h i b a q :
  counter_proto cl γ c {[i := (b, a, q)]} R h -∗ i ↪[arc_handles γ] (b, a, q) ==∗
  counter_proto cl γ c {[i := (b, a, c)]} R h ∗ i ↪[arc_handles γ] (b, a, c) ∗
  ∃ r t m, ⌜newest h t⌝ ∗ ⌜h !! t = Some m⌝ ∗ ⌜(Qp_to_Qc q + opt_Qc r)%Qc = Qp_to_Qc c⌝ ∗
    ⌜R ⊆ mview m⌝ ∗ returned r R.
Proof.
  iIntros "(%K & %tm & %m & Hd & %Hb & HM & HK & %Hok & %Hm & %Hsz & %Hlast & %Hmax & %HR & Hr) Hi".
  iMod (ghost_map_update (b, a, c) with "HM Hi") as "[HM $]". iModIntro.
  iDestruct "Hr" as "[[%Hr _]|(Hg & %r & %Hr & Hret)]".
  { by apply map_non_empty_singleton in Hr. }
  iSplitR "Hret"; last first.
  { iExists r, tm, m. iFrame. iPureIntro. split; [apply Hok|]. split; [done|].
    split; [|done]. rewrite -Hr -insert_empty total_insert // /total map_fold_empty /=. ring. }
  rewrite insert_singleton_eq. iExists K, tm, m. iFrame "HM HK".
  iSplitL "Hd"; [by rewrite /ids !map_fmap_singleton|]. iSplit; [done|].
  rewrite !map_size_singleton in Hsz |- *. iSplit.
  { iPureIntro. by eapply handles_ok_frac. }
  do 2 (iSplit; [done|]). iSplit.
  { iPureIntro. destruct Hlast as [(j & b' & q' & [<- [= <- <- _]]%lookup_singleton_Some)|?];
      [left|by right]. exists i, b, c. by rewrite lookup_singleton_eq. }
  do 2 (iSplit; [done|]). iRight. iFrame "Hg". iExists None. iSplit; [|done].
  iPureIntro. rewrite -insert_empty total_insert // /total map_fold_empty /=. ring.
Qed.

(** A holder that reads 1 takes what the other handles returned. *)
Lemma counter_sole t0 γ c M R l h t m W i b a q :
  t0 ≤ t →
  h !! t = Some m → coh_le l h W t → Coh l a ∈ W → mval m = 1%Z →
  counter_proto (Some t0) γ c M R h -∗ i ↪[arc_handles γ] (b, a, q) ==∗
  ⌜M = {[i := (b, a, q)]}⌝ ∗
  counter_proto (Some t0) γ c {[i := (b, a, c)]} R h ∗ i ↪[arc_handles γ] (b, a, c) ∗
  ∃ r, ⌜(Qp_to_Qc q + opt_Qc r)%Qc = Qp_to_Qc c⌝ ∗ returned r (mview m).
Proof.
  iIntros (H0 Hm Hle Ha H1) "HPr Hi". iDestruct (counter_handle with "HPr Hi") as %Hi.
  iAssert ⌜newest h t ∧ M = {[i := (b, a, q)]}⌝%I as %[Hnew ->].
  { iDestruct "HPr" as (K tm m') "(_ & _ & _ & _ & %Hok & _)". iPureIntro.
    destruct (handles_ok_sole _ _ _ _ _ _ _ _ _ _ _ _ Hok H0 Hi Ha Hle Hm H1) as [-> ->].
    split; [apply Hok|done]. }
  iMod (counter_take with "HPr Hi") as "($ & $ & %r & %t' & %m' & %Hnew' & %Hm' & %Hr & %HR & Hret)".
  iModIntro. iSplit; [done|]. iExists r. iSplit; [done|].
  assert (t' = t) as -> by by eapply newest_unique. simplify_eq.
  by iApply (returned_mono with "Hret").
Qed.

(** Whoever has a credit may write the same count again, at any later time. *)
Lemma counter_touch γ c M R h tm m m' (k : nat) (tk : time) :
  newest h tm → h !! tm = Some m → mval m' = mval m → R ⊆ mview m' → M ≠ ∅ →
  counter_proto None γ c M R h -∗ k ↪[arc_credits γ] tk ==∗
  counter_proto None γ c M R (<[S tm := m']> h) ∗ k ↪[arc_credits γ] S tm.
Proof.
  iIntros (Hnew Hm Hv Hw Hne) "(%K & %tm' & %m0 & Hd & %Hb & HM & HK & %Hok & %Hm0 & %Hsz & %Hlast & %Hmax & %HR & Hr) Hk".
  assert (tm' = tm) as -> by (eapply newest_unique; [apply Hok|done]). simplify_eq.
  iDestruct (ghost_map_lookup with "HK Hk") as %Hk.
  iMod (ghost_map_update (S tm) with "HK Hk") as "[HK $]". iModIntro.
  assert (mval m = Z.of_nat (size M)) as Hval by by apply Hok.
  iExists _, (S tm), m'. iFrame "Hd HM HK". iSplit.
  { iPureIntro. apply map_Forall_insert_2; [rewrite Hv; by apply (Hb tm)|done]. }
  iSplit; [iPureIntro; apply handles_ok_touch; [done|by rewrite Hv]|].
  rewrite lookup_insert_eq. iSplit; [done|]. iSplit.
  { iPureIntro. rewrite map_size_insert_Some; [done|eauto]. }
  iSplit; [iPureIntro; right; exists k; by rewrite lookup_insert_eq|].
  do 2 (iSplit; [done|]).
  iDestruct "Hr" as "[[-> _]|Hr]"; [done|by iRight].
Qed.

Lemma counter_jump γ c M R h tm m t m' (k : nat) (tk : time) :
  newest h tm → h !! tm = Some m → mval m' = mval m → R ⊆ mview m' → tm < t → M ≠ ∅ →
  counter_proto None γ c M R h -∗ k ↪[arc_credits γ] tk ==∗
  ∃ h', ⌜newest h' t⌝ ∗ ⌜h' !! t = Some m'⌝ ∗ counter_proto None γ c M R h' ∗ k ↪[arc_credits γ] t.
Proof.
  intros Hnew Hm Hv Hw Ht HM. apply Nat.le_exists_sub in Ht as (n & -> & _).
  iInduction n as [|n] "IH" forall (h tm m tk Hnew Hm Hv Hw); iIntros "HPr Hk";
    (iMod (counter_touch with "HPr Hk") as "[HPr Hk]"; [done..|]);
    (assert (newest (<[S tm := m']> h) (S tm)) as Hnew' by (eapply newest_insert_last; [done|lia])).
  - iModIntro. iExists _. iFrame "HPr Hk". rewrite lookup_insert_eq. done.
  - rewrite Nat.add_succ_comm.
    iApply ("IH" $! _ _ m' with "[//] [%] [//] [//] HPr Hk"). apply lookup_insert_eq.
Qed.

(** Who has a handle and all the credits has the only handle, and has seen
    the newest write of the counter. *)
Lemma counter_credits_newest cl γ c M R l h W i dq b a q :
  Coh l a ∈ W →
  counter_proto cl γ c M R h -∗ i ↪[arc_handles γ]{dq} (b, a, q) -∗ all_credits γ l W -∗
  ⌜∃ tm m, newest h tm ∧ h !! tm = Some m ∧ mval m = 1%Z ∧ Coh l tm ∈ W⌝.
Proof.
  iIntros (Ha) "(%K & %tm & %m & _ & _ & HM & HK & %Hok & %Hm & %Hsz & %Hlast & _) Hi Hc".
  iDestruct (ghost_map_lookup with "HM Hi") as %Hi.
  assert (size M ≠ 0) by (intros ->%map_size_empty_inv; done).
  iAssert ⌜arc_budget γ ≤ size K⌝%I as %HK.
  { iDestruct (credits_size with "HK Hc") as %HK. by rewrite length_seq in HK. }
  iDestruct (credits_all with "HK Hc") as %Hall; [rewrite length_seq; lia|]. iPureIntro.
  pose proof Hok as (Hnew & _ & _ & _ & _ & Hval).
  assert (M = {[i := (b, a, q)]}) as HM by (apply map_size_1_inv; [done|lia]).
  exists tm, m. split; [done|]. split; [done|].
  split; [by rewrite (Hval _ Hm) HM map_size_singleton|].
  destruct Hlast as [(j & b' & q' & Hj)|[k Hk]]; [|by eapply Hall].
  rewrite HM in Hj. by apply lookup_singleton_Some in Hj as [_ [= _ <- _]].
Qed.

Lemma counter_all_credits cl γ c M R l h t m W i b a q :
  h !! t = Some m → coh_le l h W t → Coh l a ∈ W →
  counter_proto cl γ c M R h -∗ i ↪[arc_handles γ] (b, a, q) -∗ all_credits γ l W -∗
  ⌜mval m = 1%Z⌝.
Proof.
  iIntros (Hm Hle Ha) "HPr Hi Hc".
  iDestruct (counter_credits_newest with "HPr Hi Hc") as %(tm & m' & Hnew & Hm' & H1 & Htm); [done|].
  iPureIntro. pose proof (proj2 Hnew _ _ Hm) as Ht. pose proof (Hle _ _ Hm' Htm) as Ht'.
  simpl in Ht, Ht'. assert (t = tm) as -> by lia. by simplify_eq.
Qed.

(** There is no credit left over. *)
Lemma counter_no_credit cl γ c M R l h W i dq (x : time * time * Qp) (k : nat) (tk : time) :
  counter_proto cl γ c M R h -∗ i ↪[arc_handles γ]{dq} x -∗ all_credits γ l W -∗
  k ↪[arc_credits γ] tk -∗ False.
Proof.
  iIntros "(%K & %tm & %m & _ & _ & HM & HK & _ & _ & %Hsz & _) Hi Hc Hk".
  iDestruct (ghost_map_lookup with "HM Hi") as %Hi.
  iDestruct (ghost_map_lookup with "HK Hk") as %Hk.
  iMod (ghost_map_delete with "HK Hk") as "HK".
  iDestruct (credits_size with "HK Hc") as %HK. iPureIntro.
  rewrite length_seq map_size_delete_Some in HK; [|eauto].
  assert (size M ≠ 0) by (intros ->%map_size_empty_inv; done).
  assert (size K ≠ 0) by (intros ->%map_size_empty_inv; done). lia.
Qed.

(** *** A new counter *)

Lemma handles_ok_new cl q : handles_ok cl {[0 := Msg 1 ∅]} 0 {[0 := (0, 0, q)]}.
Proof.
  split; [|split; [|split; [|split; [|split]]]].
  - apply newest_singleton.
  - apply contiguous_singleton.
  - intros t m [<- <-]%lookup_singleton_Some. simpl.
    etrans; [apply Nat2Z.inj_le, made_by_size|by rewrite map_size_singleton].
  - intros t0 _ i b a q' t m _ [<- _]%lookup_singleton_Some. lia.
  - by intros i b a q' [_ [= <- <- _]]%lookup_singleton_Some.
  - intros m. rewrite lookup_singleton_eq map_size_singleton. by intros [= <-].
Qed.
End counted.

Lemma counter_new `{!arcG Σ} cl c n :
  (Z.of_nat (S n) <= usize_MAX)%Z →
  ⊢ |==> ∃ γh γi γk γg,
    (∀ γs (Pt : Qp → view → iProp Σ),
       counter_proto Pt cl (ArcName γs γh γi γk γg n) c {[0 := (0, 0, c)]} ∅ {[0 := Msg 1 ∅]}) ∗
    0 ↪[γh] (0, 0, c) ∗ 0 ↪[γi] 0 ∗ [∗ list] _ ∈ seq 0 n, ∃ k : nat, k ↪[γk] 0.
Proof.
  iIntros (Hn). iMod (ghost_map_alloc ({[0 := (0, 0, c)]} : handles)) as (γh) "[HM Hi]".
  iMod (ghost_map_alloc (ids {[0 := (0, 0, c)]})) as (γi) "[Hd Hi']".
  iMod (credits_alloc n) as (γk K) "(HK & %HK & Hk)". iMod not_gone_alloc as (γg) "Hg".
  iModIntro. iExists γh, γi, γk, γg. rewrite {2}/ids map_fmap_singleton !big_sepM_singleton.
  iFrame "Hi Hi' Hk". iIntros (γs Pt).
  iExists K, 0, _. iFrame "Hd HM HK". rewrite lookup_singleton_eq.
  iSplit; [iPureIntro; apply map_Forall_singleton; simpl; lia|].
  iSplit; [iPureIntro; apply handles_ok_new|]. iSplit; [done|]. iSplit.
  { iPureIntro. by rewrite map_size_singleton HK. }
  iSplit; [iPureIntro; left; exists 0, 0, c; by rewrite lookup_singleton_eq|].
  iSplit; [done|]. iSplit; [done|]. iRight. iFrame "Hg". iExists None. iSplit; [|done]. iPureIntro.
  rewrite -insert_empty total_insert // /total map_fold_empty /=. ring.
Qed.

(** What dropped handles returned can be taken out, and something put in. *)
Lemma counter_returned `{!arcG Σ} Pt cl γ c M R h :
  M ≠ ∅ →
  counter_proto Pt cl γ c M R h -∗
  ∃ r tm m, ⌜newest h tm⌝ ∗ ⌜h !! tm = Some m⌝ ∗ ⌜R ⊆ mview m⌝ ∗
    ⌜(opt_Qc r + total M)%Qc = Qp_to_Qc c⌝ ∗ returned Pt r R ∗
    ∀ (Pt' : Qp → view → iProp Σ) r' R' c',
      ⌜(opt_Qc r' + total M)%Qc = Qp_to_Qc c'⌝ -∗ ⌜R' ⊆ mview m⌝ -∗ returned Pt' r' R' -∗
      counter_proto Pt' cl γ c' M R' h.
Proof.
  iIntros (Hne) "(%K & %tm & %m & Hd & %Hb & HM & HK & %Hok & %Hm & %Hsz & %Hlast & %Hmax & %HR & Hr)".
  iDestruct "Hr" as "[[-> _]|(Hg & %r & %Hr & Hret)]"; [done|].
  iExists r, tm, m. iFrame "Hret". do 4 (iSplit; [by iPureIntro; auto; apply Hok|]).
  iIntros (Pt' r' R' c' Hr' HR') "Hret". iExists K, tm, m. iFrame "Hd HM HK".
  do 7 (iSplit; [done|]). iRight. iFrame "Hg". iExists r'. by iFrame.
Qed.
