(* ===== verification/Arc.v ===== *)
(** * The reference counters of chapter 6, without weak pointers

    [Basic] is 06-01_basic-reference-counter.rs; 06-01-02_updating.rs is the
    same code with [get_mut] and a [main].

    A handle owns a fraction of the counter and of the data; the protocol of
    the counter is that of [Counted]. *)

From Stdlib Require Import Qcanon.
From iris.proofmode Require Import proofmode.
From iris.base_logic.lib Require Import invariants cancelable_invariants ghost_map.
From S2P Require Import Prelude Memory History Lang Logic Rules Std Shares Counted.

(** ** The code *)

Module Basic.
Section code.
Context {X : Type}.

(** [Arc<T> { ptr: NonNull<ArcData<T>> }] with
    [ArcData<T> { ref_count: AtomicUsize, data: T }]: the addresses of the two
    fields; [X] is how the fields of [T] are laid out. *)
Record Arc : Type := MkArc { ref_count : loc; data : X }.

(** [mk] stores the data in the new allocation. *)
Definition new (mk : prog X) : prog Arc :=
  ref_count ← atomic_new 1;
  data ← mk;
  mret (MkArc ref_count data).

Definition deref (self : Arc) : X := data self.

Definition clone (self : Arc) : prog Arc :=
  n ← fetch_add usize_modulus (ref_count self) 1 Relaxed;
  if (usize_MAX / 2 <? n)%Z then abort else mret (MkArc (ref_count self) (data self)).

(** [drop(Box::from_raw(..))] drops the data and frees the allocation;
    [drop_data] does so for the data. *)
Definition drop (drop_data : X → prog unit) (self : Arc) : prog unit :=
  n ← fetch_sub usize_modulus (ref_count self) 1 Release;
  if (n =? 1)%Z then
    fence Acquire;;
    drop_data (data self);;
    act (OFree (ref_count self))
  else mret ().

Definition get_mut (arc : Arc) : prog (option X) :=
  n ← load (ref_count arc) Relaxed;
  if (n =? 1)%Z then fence Acquire;; mret (Some (data arc)) else mret None.
End code.
Arguments Arc : clear implicits.
End Basic.

(** ** The handles *)

Section arc.
Context `{!rustGS Σ, !shareG Σ, !arcG Σ}.
Context (P : Qp → view → iProp Σ) `{!FracView P}.
Implicit Types (V : tview) (l : loc) (W : view) (γ : arc_name).

(** What a handle owns of the counter and of the data. *)
Definition part γ (q : Qp) W : iProp Σ := access_share (arc_shares γ) q W ∗ P q W.

#[global] Instance part_frac γ : FracView (part γ).
Proof. apply _. Qed.

Definition arc_proto γ (h : hist) : iProp Σ := ∃ M R, counter_proto (part γ) (Some 0) γ 1 M R h.

Definition is_arc γ l (N : view) : iProp Σ :=
  share_cinv (arc_shares γ) (at_inv (arc_shares γ) l N (λ h _, arc_proto γ h)).

Definition handle γ (i : nat) l (q : Qp) W : iProp Σ :=
  ∃ b a, i ↪[arc_handles γ] (b, a, q) ∗ ⌜Coh l a ∈ W⌝.

(** An [Arc] with the counter [l]; without its token it can be used, but not
    dropped. *)
Definition arc_shown γ (i : nat) l W : iProp Σ :=
  ∃ N q, is_arc γ l N ∗ ⌜N ⊆ W⌝ ∗ handle γ i l q W ∗ part γ q W.
Definition arc γ (i : nat) l W : iProp Σ := arc_shown γ i l W ∗ alive γ i.

#[global] Instance handle_mono γ i l q : ViewMono (handle γ i l q).
Proof. intros W W' Hle. iIntros "(%b & %a & $ & %)". iPureIntro. by apply Hle. Qed.

Lemma arc_shown_mono γ i l W W' : W ⊆ W' → arc_shown γ i l W -∗ arc_shown γ i l W'.
Proof.
  iIntros (Hle) "(%N & %q & #Hc & % & Hi & Hp)".
  iExists N, q. iFrame "Hc". iSplit; [iPureIntro; by etrans|].
  iSplitL "Hi"; [by iApply (view_mono with "Hi")|by iApply (view_mono with "Hp")].
Qed.

Lemma arc_mono γ i l W W' : W ⊆ W' → arc γ i l W -∗ arc γ i l W'.
Proof. iIntros (Hle) "[Hi $]". by iApply (arc_shown_mono with "Hi"). Qed.

Lemma arc_show γ i l W : arc γ i l W ⊣⊢ arc_shown γ i l W ∗ alive γ i.
Proof. done. Qed.

(** *** The operations *)

Lemma arc_alloc_named γh γi γk γg l N A W n E :
  N ∪ A ⊆ W → Coh l 0 ∈ W →
  l ↦ CAtomic {[0 := Msg 1 ∅]} N A -∗
  (∀ γs Pt, counter_proto Pt (Some 0) (ArcName γs γh γi γk γg n) 1 {[0 := (0, 0, 1%Qp)]} ∅ {[0 := Msg 1 ∅]}) -∗
  0 ↪[γh] (0, 0, 1%Qp) -∗ P 1 W ={E}=∗
  ∃ γs, arc_shown (ArcName γs γh γi γk γg n) 0 l W.
Proof.
  iIntros (HA Hcoh) "Hl HPr Hi HP".
  iMod (at_share_alloc N l _ _ _ (λ γs h _, arc_proto (ArcName γs γh γi γk γg n) h) with "Hl [HPr]")
    as (γs) "(#Hc & % & HS)"; [done|done|apply insert_non_empty| |].
  { iIntros (γs). iExists _, _. iApply "HPr". }
  iModIntro. iExists γs, N, 1%Qp. iFrame "Hc HS HP". iSplit; [done|]. iExists 0, 0. by iFrame.
Qed.

Lemma arc_alloc l N A W n E :
  N ∪ A ⊆ W → Coh l 0 ∈ W → (Z.of_nat (S n) <= usize_MAX)%Z →
  l ↦ CAtomic {[0 := Msg 1 ∅]} N A -∗ P 1 W ={E}=∗
  ∃ γ i, arc γ i l W ∗ ⌜arc_budget γ = n⌝ ∗ [∗ list] _ ∈ seq 0 n, credit γ l W.
Proof.
  iIntros (HA Hcoh Hn) "Hl HP".
  iMod (counter_new (Some 0) 1 n Hn) as (γh γi γk γg) "(HPr & Hi & Hi' & Hk)".
  iMod (arc_alloc_named with "Hl HPr Hi HP") as (γs) "Ha"; [done..|].
  iModIntro. iExists _, 0. iFrame "Ha". iSplitL "Hi'"; [by iExists 0|]. iSplit; [done|]. by iApply (credits_init (ArcName γs γh γi γk γg n) with "Hk").
Qed.

Lemma wpp_abort {A} V (Φ : A → tview → iProp Σ) : ⊢ wpp abort V Φ.
Proof.
  iApply (wpp_loop (λ _ _, True)%I with "[] [//]").
  iIntros "!>" ([] V' _) "_". by iApply wpp_ret.
Qed.

Lemma wpp_arc_incr γ i l V Φ :
  arc_shown γ i l (cur V) -∗ credit γ l (cur V) -∗
  (∀ n j V', ⌜V ⊆ V'⌝ -∗ arc_shown γ i l (cur V') -∗ arc γ j l (cur V') -∗ Φ n V') -∗
  wpp (fetch_add usize_modulus l 1 Relaxed) V Φ.
Proof.
  iIntros "(%N & %q & #Hc & %HN & (%b & %a & Hi & %Ha) & HS & HP) (%k & %tk & Hk & _) HΦ".
  iApply wpp_bind. iApply (wpp_rmw_open with "Hc HS"); [done..|].
  iIntros "!>" (h A t m e Hm Hle) "(%M & %R & HPr)". iSplit; [|by iIntros ([?|?])].
  iIntros (z [= <-] Hfree) "HS". set (V' := rmw_view _ _ _ _ _ _).
  set (j := fresh (dom M)). assert (M !! j = None) as Hj by apply not_elem_of_dom, is_fresh.
  iMod (counter_clone _ _ _ _ _ _ _ _ _ (rmw_msg Relaxed (mval m + 1) m V') with "HPr Hi Hk")
    as "(%Hlt & HPr & Hi & Hj & Hd)"; [done..|simpl; set_solver|].
  rewrite wrap_add_small; [|rewrite /usize_MAX in Hlt; lia].
  iModIntro. iSplitL "HPr"; [iExists _, _; iFrame "HPr"|]. iApply wpp_ret.
  assert (V ⊆ V') as Hle' by apply rmw_view_le. rewrite -{1 2}(Qp.div_2 q).
  iDestruct (access_share_split with "HS") as "[HS1 HS2]".
  rewrite frac_view_split. iDestruct "HP" as "[HP1 HP2]".
  iApply ("HΦ" $! _ j with "[//] [Hi HS1 HP1] [Hj HS2 HP2 Hd]");
    [|iFrame "Hd"]; iExists N, (q / 2)%Qp; (iFrame "Hc"; iSplit; [iPureIntro; etrans; [done|apply Hle']|]).
  - iFrame "HS1". iSplitL "Hi"; [|iApply (view_mono with "HP1"); apply Hle'].
    iExists _, _. iFrame. iPureIntro. apply rmw_view_coh.
  - iFrame "HS2". iSplitL "Hj"; [|iApply (view_mono with "HP2"); apply Hle'].
    iExists _, _. iFrame. iPureIntro. apply rmw_view_coh.
Qed.

Lemma wpp_arc_clone {X} γ i l (x : X) V Φ :
  arc γ i l (cur V) -∗ credit γ l (cur V) -∗
  (∀ j V', ⌜V ⊆ V'⌝ -∗ arc γ i l (cur V') -∗ arc γ j l (cur V') -∗
     Φ (Basic.MkArc l x) V') -∗
  wpp (Basic.clone (Basic.MkArc l x)) V Φ.
Proof.
  iIntros "[Ha Hd] Hk HΦ". iApply wpp_bind. iApply (wpp_arc_incr with "Ha Hk").
  iIntros (n j V' Hle) "Hi Hj". case_match; [iApply wpp_abort|]. iApply wpp_ret.
  by iApply ("HΦ" with "[//] [$Hi $Hd] Hj").
Qed.

(** Freeing the counter after the last handle. *)
Lemma wpp_arc_free γ l N W V Φ :
  W ⊆ cur V → is_arc γ l N -∗ access_share (arc_shares γ) 1 W -∗ Φ tt V -∗
  wpp (act (OFree l)) V Φ.
Proof.
  iIntros (HW) "#Hc HS HΦ".
  iMod (share_cancel with "Hc HS") as "[(%h & %N' & %A & %A' & >Hl & _ & >HA & >%HA & _) Hall]"; [done|].
  iDestruct ("Hall" with "HA") as %HA'.
  iApply (wpp_free_atomic with "Hl"); [by do 2 (etrans; [done|])|]. by iIntros "!> _".
Qed.

(** The last handle is gone: after an acquire fence all is there. *)
Definition last_arc γ l V : iProp Σ :=
  ∃ N W t, is_arc γ l N ∗ ⌜N ⊆ cur V⌝ ∗ ⌜W ⊆ acq V ∪ cur V⌝ ∗ gone γ t ∗ part γ 1 W.

(** [F] is what is known about the count. *)
Lemma wpp_arc_decr (F : iProp Σ) (Q : Z → Prop) γ i l V Φ :
  (∀ h t m b a q, ⌜h !! t = Some m⌝ -∗ ⌜h !! S t = None⌝ -∗ ⌜coh_le l h (cur V) t⌝ -∗
     ⌜Coh l a ∈ cur V⌝ -∗ arc_proto γ h -∗ i ↪[arc_handles γ] (b, a, q) -∗ alive γ i -∗ F -∗
     ⌜Q (mval m)⌝) -∗
  F -∗ arc γ i l (cur V) -∗
  (∀ n V', ⌜V ⊆ V'⌝ -∗ ⌜Q n⌝ -∗ F -∗ credit γ l (cur V') -∗
     (⌜n = 1%Z⌝ ∗ last_arc γ l V' ∨ ⌜n ≠ 1%Z⌝) -∗ Φ n V') -∗
  wpp (fetch_sub usize_modulus l 1 Release) V Φ.
Proof.
  iIntros "HQ HF [(%N & %q & #Hc & %HN & (%b & %a & Hi & %Ha) & HS & HP) Hd] HΦ".
  iApply wpp_bind. iApply (wpp_rmw_open with "Hc HS"); [done..|].
  iIntros "!>" (h A t m e Hm Hle) "HPr". iSplit; [|by iIntros ([?|?])].
  iIntros (z [= <-] Hfree) "HS". set (V1 := rmw_view _ _ _ _ _ _).
  assert (V ⊆ V1) as Hle1 by apply rmw_view_le.
  iDestruct ("HQ" with "[//] [//] [//] [//] HPr Hi Hd HF") as %HQ. iDestruct "HPr" as (M R) "HPr".
  iMod (counter_drop _ _ _ _ _ _ _ _ _ (cur V1) with "HPr Hi Hd [HS HP]")
    as "(%Hlt & _ & _ & %HR & HPr & (%k & Hk) & Hlast)"; [done..| |].
  { iFrame "HS". iApply (view_mono with "HP"). apply Hle1. }
  rewrite wrap_add_small; [|rewrite /usize_MAX in Hlt; lia].
  iModIntro. iSplitL "HPr"; [by iExists _, _|]. iApply wpp_ret.
  iApply ("HΦ" with "[//] [//] HF [Hk]").
  { iExists k, (S t). iFrame. iPureIntro. apply rmw_view_coh. }
  iDestruct "Hlast" as "[(%H1 & Hg & Hp)|%Hne]"; [iLeft|by iRight]. iSplit; [done|].
  iExists N, _, _. iFrame "Hc Hg Hp". iPureIntro. split; [etrans; [done|apply Hle1]|].
  pose proof (rmw_view_later Release l t m e V). set_solver.
Qed.

Lemma wpp_arc_drop_frame {X} (F : iProp Σ) (Q : Z → Prop) γ i l (x : X) dd V Φ :
  (∀ h t m b a q, ⌜h !! t = Some m⌝ -∗ ⌜h !! S t = None⌝ -∗ ⌜coh_le l h (cur V) t⌝ -∗
     ⌜Coh l a ∈ cur V⌝ -∗ arc_proto γ h -∗ i ↪[arc_handles γ] (b, a, q) -∗ alive γ i -∗ F -∗
     ⌜Q (mval m)⌝) -∗
  F -∗ arc γ i l (cur V) -∗
  (∀ V', ⌜V ⊆ V'⌝ -∗ ⌜Q 1%Z⌝ -∗ F -∗ P 1 (cur V') -∗ wpp (dd x) V' Φ) ∧
  (∀ n V', ⌜V ⊆ V'⌝ -∗ ⌜Q n⌝ -∗ ⌜n ≠ 1%Z⌝ -∗ F -∗ credit γ l (cur V') -∗ Φ tt V') -∗
  wpp (Basic.drop dd (Basic.MkArc l x)) V Φ.
Proof.
  iIntros "HQ HF Ha HΦ". iApply wpp_bind. iApply (wpp_arc_decr with "HQ HF Ha").
  iIntros (n V1 Hle1 HQ) "HF Hk [[-> Hlast]|%Hne]"; last first.
  { rewrite (proj2 (Z.eqb_neq _ _) Hne). iApply wpp_ret. by iApply ("HΦ" with "[//] [//] [//] HF"). }
  iDestruct "HΦ" as "[HΦ _]". iDestruct "Hlast" as (N W t) "(#Hc & _ & %HW & _ & HS & HP)".
  iApply wpp_bind. iApply wpp_acquire_fence. iIntros (V2 Hle2 Hacq).
  iApply wpp_bind. iApply (wpp_wand with "[HΦ HP HF]").
  { iApply ("HΦ" with "[%] [//] HF"); [by etrans|]. iApply (view_mono with "HP"). by etrans. }
  iIntros ([] V3 Hle3) "HΦ". iApply (wpp_arc_free with "Hc HS HΦ").
  etrans; [exact HW|]. etrans; [done|apply Hle3].
Qed.

(** What [counter_alive] and [counter_all_credits] say of [arc_proto]. *)
Lemma arc_proto_alive γ h t m i (x : time * time * Qp) j :
  h !! t = Some m → h !! S t = None →
  arc_proto γ h -∗ i ↪[arc_handles γ] x -∗ alive γ i -∗ alive γ j -∗ ⌜mval m ≠ 1%Z⌝.
Proof. iIntros (Hm Hf) "(%M & %R & HPr) Hi Hi' Hj". by iApply (counter_alive with "HPr Hi Hi' Hj"). Qed.

Lemma arc_proto_all_credits γ l h t m W i b a q :
  h !! t = Some m → coh_le l h W t → Coh l a ∈ W →
  arc_proto γ h -∗ i ↪[arc_handles γ] (b, a, q) -∗ all_credits γ l W -∗ ⌜mval m = 1%Z⌝.
Proof.
  iIntros (Hm Hle Ha) "(%M & %R & HPr) Hi Hc". by iApply (counter_all_credits with "HPr Hi Hc").
Qed.

Lemma wpp_arc_drop {X} γ i l (x : X) dd V Φ :
  arc γ i l (cur V) -∗
  (∀ V', ⌜V ⊆ V'⌝ -∗ P 1 (cur V') -∗ wpp (dd x) V' Φ) ∧
  (∀ V', ⌜V ⊆ V'⌝ -∗ credit γ l (cur V') -∗ Φ tt V') -∗
  wpp (Basic.drop dd (Basic.MkArc l x)) V Φ.
Proof.
  iIntros "Harc HΦ".
  iApply (wpp_arc_drop_frame True%I (λ _, True) with "[] [//] Harc"); [eauto|]. iSplit.
  - iIntros (V' Hle _ _). iDestruct "HΦ" as "[HΦ _]". by iApply "HΦ".
  - iIntros (n V' Hle _ _ _). iDestruct "HΦ" as "[_ HΦ]". by iApply "HΦ".
Qed.

(** Dropping a handle while another one is alive. *)
Lemma wpp_arc_drop_alive {X} γ i j l (x : X) dd V Φ :
  arc γ i l (cur V) -∗ alive γ j -∗
  (∀ V', ⌜V ⊆ V'⌝ -∗ alive γ j -∗ credit γ l (cur V') -∗ Φ tt V') -∗
  wpp (Basic.drop dd (Basic.MkArc l x)) V Φ.
Proof.
  iIntros "Harc Hj HΦ".
  iApply (wpp_arc_drop_frame (alive γ j) (λ n, n ≠ 1%Z) with "[] Hj Harc").
  { iIntros (h t m b a q Hm Hfree _ _) "HPr Hi Hi' Hj".
    by iApply (arc_proto_alive with "HPr Hi Hi' Hj"). }
  iSplit; [by iIntros (V' _ ?)|]. iIntros (n V' Hle _ _) "Hj". by iApply ("HΦ" with "[//]").
Qed.

(** Dropping the last handle, known as such from the credits. *)
Lemma wpp_arc_drop_last {X} γ i l (x : X) dd V Φ :
  all_credits γ l (cur V) -∗ arc γ i l (cur V) -∗
  (∀ V', ⌜V ⊆ V'⌝ -∗ P 1 (cur V') -∗ wpp (dd x) V' Φ) -∗
  wpp (Basic.drop dd (Basic.MkArc l x)) V Φ.
Proof.
  iIntros "Hcr Harc HΦ".
  iApply (wpp_arc_drop_frame (all_credits γ l (cur V)) (λ n, n = 1%Z) with "[] Hcr Harc").
  { iIntros (h t m b a q Hm Hfree Hle Ha) "HPr Hi _ Hcr".
    by iApply (arc_proto_all_credits with "HPr Hi Hcr"). }
  iSplit; [|by iIntros (n V' _ -> ?)]. iIntros (V' Hle _) "_". by iApply "HΦ".
Qed.

(** The load of [get_mut]; [F] is what is known about the value read.  Who
    reads 1 has everything after an acquire fence, and may give it back. *)
Lemma wpp_arc_count (F : view → iProp Σ) (Q : Z → Prop) γ i l V Φ :
  (∀ h t m b a q, ⌜h !! t = Some m⌝ -∗ ⌜coh_le l h (cur V) t⌝ -∗ ⌜Coh l a ∈ cur V⌝ -∗
     arc_proto γ h -∗ i ↪[arc_handles γ] (b, a, q) -∗ F (cur V) -∗ ⌜Q (mval m)⌝) -∗
  F (cur V) -∗ arc_shown γ i l (cur V) -∗
  (∀ n V', ⌜V ⊆ V'⌝ -∗ ⌜Q n⌝ -∗ F (cur V) -∗
     (⌜n ≠ 1%Z⌝ ∗ arc_shown γ i l (cur V') ∨
      ⌜n = 1%Z⌝ ∗ ∃ N, is_arc γ l N ∗ ⌜N ⊆ cur V'⌝ ∗ handle γ i l 1 (cur V') ∗
        ∀ W, ⌜acq V' ∪ cur V' ⊆ W⌝ -∗ part γ 1 W) -∗ Φ n V') -∗
  wpp (load l Relaxed) V Φ.
Proof.
  iIntros "HQ HF (%N & %q & #Hc & %HN & (%b & %a & Hi & %Ha) & HS & HP) HΦ".
  iApply (wpp_share_load _ l N (λ h _, arc_proto γ h) q with "[HS]"); [done| |].
  { by iFrame "Hc HS". }
  iIntros "!>" (h A t m e Hm Hle) "HPr". set (V1 := load_view _ _ _ _ _ _).
  assert (V ⊆ V1) as Hle1 by apply load_view_le.
  iDestruct ("HQ" with "[//] [//] [//] HPr Hi HF") as %HQ. iDestruct "HPr" as (M R) "HPr".
  destruct (decide (mval m = 1%Z)) as [H1|H1]; last first.
  { iModIntro. iSplitL "HPr"; [by iExists M, R|]. iIntros "(_ & %HN' & HS)".
    iApply ("HΦ" with "[//] [//] HF"). iLeft. iSplit; [done|].
    iExists N, q. iFrame "Hc HS". iSplit; [done|]. iSplitL "Hi".
    - iExists b, a. iFrame. iPureIntro. by apply Hle1.
    - iApply (view_mono with "HP"). apply Hle1. }
  iMod (counter_sole with "HPr Hi") as "(_ & HPr & Hi & %r & %Hr & Hret)"; [lia|done..|].
  iModIntro. iSplitL "HPr"; [by iExists _, _|]. iIntros "(_ & %HN' & HS)".
  iApply ("HΦ" with "[//] [//] HF"). iRight. iSplit; [done|]. iExists N. iFrame "Hc".
  iSplit; [done|]. iSplitL "Hi"; [iExists b, a; iFrame; iPureIntro; by apply Hle1|].
  iIntros (W HW).
  iDestruct (returned_add (part γ) _ q W with "[Hret] [HS HP]") as (r' Hr') "Hret".
  { iApply (returned_mono with "Hret"). etrans; [|exact HW].
    etrans; [apply load_view_later|apply union_subseteq_l]. }
  { iSplitL "HS"; [iApply (access_share_mono with "HS"); set_solver|].
    iApply (view_mono with "HP"). destruct Hle1. set_solver. }
  iApply (returned_full with "Hret"). by rewrite Hr'.
Qed.

Lemma wpp_arc_get_mut_frame {X} (F : view → iProp Σ) `{!ViewMono F} (Q : Z → Prop)
    γ i l (x : X) V Φ :
  (∀ h t m b a q, ⌜h !! t = Some m⌝ -∗ ⌜coh_le l h (cur V) t⌝ -∗ ⌜Coh l a ∈ cur V⌝ -∗
     arc_proto γ h -∗ i ↪[arc_handles γ] (b, a, q) -∗ F (cur V) -∗ ⌜Q (mval m)⌝) -∗
  F (cur V) -∗ arc γ i l (cur V) -∗
  (∀ n V', ⌜V ⊆ V'⌝ -∗ ⌜Q n⌝ -∗ ⌜n ≠ 1%Z⌝ -∗ F (cur V') -∗ arc γ i l (cur V') -∗
     Φ None V') ∧
  (∀ V', ⌜V ⊆ V'⌝ -∗ F (cur V') -∗ P 1 (cur V') -∗
     (∀ V2, ⌜V' ⊆ V2⌝ -∗ P 1 (cur V2) -∗ arc γ i l (cur V2)) -∗ Φ (Some x) V') -∗
  wpp (Basic.get_mut (Basic.MkArc l x)) V Φ.
Proof.
  iIntros "HQ HF [Ha Hd] HΦ". iApply wpp_bind. iApply (wpp_arc_count with "HQ HF Ha").
  iIntros (n V1 Hle1 HQ) "HF [[%Hne Ha]|(-> & %N & #Hc & %HN & Hi & Hall)]".
  { rewrite (proj2 (Z.eqb_neq _ _) Hne). iApply wpp_ret. iDestruct "HΦ" as "[HΦ _]".
    iApply ("HΦ" with "[//] [//] [//] [HF] [$Ha $Hd]"). iApply (view_mono with "HF"). apply Hle1. }
  iDestruct "HΦ" as "[_ HΦ]". iApply wpp_bind.
  iApply wpp_acquire_fence. iIntros (V2 Hle2 Hacq). iApply wpp_ret.
  iDestruct ("Hall" with "[//]") as "[HS HP]".
  iApply ("HΦ" with "[%] [HF] HP"); [by etrans| |].
  { iApply (view_mono with "HF"). etrans; [apply Hle1|apply Hle2]. }
  iIntros (V3 Hle3) "HP". iFrame "Hd". iExists N, 1%Qp. iFrame "Hc HP". iSplit.
  { iPureIntro. etrans; [done|]. etrans; [apply Hle2|apply Hle3]. }
  iSplitL "Hi"; [iApply (view_mono with "Hi"); etrans; [apply Hle2|apply Hle3]|].
  iApply (access_share_mono with "HS"). apply Hle3.
Qed.

(** [get_mut] gives out the data only to the last handle... *)
Lemma wpp_arc_get_mut {X} γ i l (x : X) V Φ :
  arc γ i l (cur V) -∗
  (∀ V', ⌜V ⊆ V'⌝ -∗ arc γ i l (cur V') -∗ Φ None V') ∧
  (∀ V', ⌜V ⊆ V'⌝ -∗ P 1 (cur V') -∗
     (∀ V2, ⌜V' ⊆ V2⌝ -∗ P 1 (cur V2) -∗ arc γ i l (cur V2)) -∗ Φ (Some x) V') -∗
  wpp (Basic.get_mut (Basic.MkArc l x)) V Φ.
Proof.
  iIntros "Harc HΦ".
  iApply (wpp_arc_get_mut_frame (λ _, True)%I (λ _, True) with "[] [//] Harc"); [eauto|].
  iSplit.
  - iIntros (n V' Hle _ _ _) "Harc". iDestruct "HΦ" as "[HΦ _]". by iApply ("HΦ" with "[//]").
  - iIntros (V' Hle _) "HP Hback". iDestruct "HΦ" as "[_ HΦ]".
    by iApply ("HΦ" with "[//] HP").
Qed.

(** ... and does so once the other handles are known to be gone. *)
Lemma wpp_arc_get_mut_last {X} γ i l (x : X) V Φ :
  all_credits γ l (cur V) -∗ arc γ i l (cur V) -∗
  (∀ V', ⌜V ⊆ V'⌝ -∗ all_credits γ l (cur V') -∗ P 1 (cur V') -∗
     (∀ V2, ⌜V' ⊆ V2⌝ -∗ P 1 (cur V2) -∗ arc γ i l (cur V2)) -∗ Φ (Some x) V') -∗
  wpp (Basic.get_mut (Basic.MkArc l x)) V Φ.
Proof.
  iIntros "Hc Harc HΦ".
  iApply (wpp_arc_get_mut_frame (all_credits γ l) (λ n, n = 1%Z) with "[] Hc Harc").
  { iIntros (h t m b a q Hm Hle Ha) "HPr Hi Hc".
    by iApply (arc_proto_all_credits with "HPr Hi Hc"). }
  iSplit; [by iIntros (n V' _ -> ?)|done].
Qed.

(** After the last handle there is no token. *)
Lemma arc_gone_alive γ l N t q W i :
  is_arc γ l N -∗ gone γ t -∗ access_share (arc_shares γ) q W -∗ alive γ i ={⊤}=∗ False.
Proof.
  iIntros "#Hc #Hg HS (%b & Hi)".
  iMod (share_acc with "Hc HS")
    as "((%h & %N' & %A & %A' & _ & _ & _ & _ & _ & (%M & %R & %K & %tm & %m & >Hd & _ & _ & _ & _ & _ & _ & _ & _ & _ & Hr)) & _ & _)".
  iAssert (▷ ⌜M = ∅⌝)%I with "[Hr]" as ">%HM".
  { iDestruct "Hr" as "[[$ _]|[Hr _]]". iNext. by iDestruct (not_gone_gone with "Hr Hg") as "[]". }
  iDestruct (alive_made with "Hd Hi") as %(a & q' & Hx). by rewrite HM lookup_empty in Hx.
Qed.

(** Who has the fraction 1 has the only handle. *)
Lemma arc_sole_alive γ l N q W i j W' E :
  ↑(shareN .@ (arc_shares γ).1) ⊆ E →
  is_arc γ l N -∗ handle γ i l 1 W' -∗ access_share (arc_shares γ) q W -∗ alive γ j ={E}=∗
  ⌜j = i⌝ ∗ handle γ i l 1 W' ∗ access_share (arc_shares γ) q W ∗ alive γ j.
Proof.
  iIntros (HE) "#Hc (%b & %a & Hi & %Ha) HS (%b' & Hj)".
  iMod (share_acc_mask with "Hc HS")
    as "((%h & %N' & %A & %A' & Hl & HN & HA & HA' & Hne & (%M & %R & %K & %tm & %m & >Hd & Hb & >HM & HK & H1 & H2 & H3 & H4 & H5 & H6 & Hr)) & HS & Hclose)"; [done|].
  iDestruct (ghost_map_lookup with "HM Hi") as %Hi.
  iDestruct (alive_made with "Hd Hj") as %(a' & q' & Hy).
  iAssert (▷ ⌜M = {[i := (b, a, 1%Qp)]}⌝)%I as "#HM1".
  { iDestruct "Hr" as "[[>%HM _]|(_ & %r & >%Hr & _)]"; [by rewrite HM lookup_empty in Hi|].
    iPureIntro. by apply (total_one _ _ _ _ _ r). }
  iMod "HM1" as %HM. rewrite HM in Hy. apply lookup_singleton_Some in Hy as [<- _].
  iMod ("Hclose" with "[Hl HN HA HA' Hne Hd Hb HM HK H1 H2 H3 H4 H5 H6 Hr]") as "_".
  { iNext. iExists h, N', A, A'. iFrame "Hl HN HA HA' Hne". iExists M, R, K, tm, m. iFrame. }
  iModIntro. iFrame "HS". iSplit; [done|]. iSplitR "Hj"; [iExists b, a; by iFrame|by iExists _].
Qed.

(** The data behind a handle. *)
Lemma arc_shown_data γ i l W :
  arc_shown γ i l W -∗ ∃ q, P q W ∗ ∀ W', ⌜W ⊆ W'⌝ -∗ P q W' -∗ arc_shown γ i l W'.
Proof.
  iIntros "(%N & %q & #Hc & %HN & Hi & HS & HP)". iExists q.
  iFrame "HP". iIntros (W' Hle) "HP". iExists N, q. iFrame "Hc HP".
  iSplit; [iPureIntro; by etrans|]. iSplitL "Hi"; [by iApply (view_mono with "Hi")|].
  by iApply (access_share_mono with "HS").
Qed.

Lemma arc_data γ i l W :
  arc γ i l W -∗ ∃ q, P q W ∗ ∀ W', ⌜W ⊆ W'⌝ -∗ P q W' -∗ arc γ i l W'.
Proof.
  iIntros "[Ha $]". iApply (arc_shown_data with "Ha").
Qed.
End arc.

(** [new], with the data that [mk] makes. *)
Lemma wpp_arc_new `{!rustGS Σ, !shareG Σ, !arcG Σ} {X} (mk : prog X) n V
    (Φ : Basic.Arc X → tview → iProp Σ) :
  (Z.of_nat (S n) <= usize_MAX)%Z →
  (∀ V1, ⌜V ⊆ V1⌝ -∗ wpp mk V1 (λ x V2, ∃ P, ∃ _ : FracView P, P 1%Qp (cur V2) ∗
     ∀ γ i l, ⌜arc_budget γ = n⌝ -∗ arc P γ i l (cur V2) -∗
       ([∗ list] _ ∈ seq 0 n, credit γ l (cur V2)) -∗ Φ (Basic.MkArc l x) V2)) -∗
  wpp (Basic.new mk) V Φ.
Proof.
  iIntros (Hn) "H". iApply wpp_bind. iApply wpp_alloc_atomic. iIntros "!>" (l e) "Hl".
  set (V1 := observe _ _ V). assert (V ⊆ V1) as Hle1 by apply observe_le.
  assert ({[Acc e]} ∪ {[Acc e]} ∪ {[Coh l 0]} ⊆ cur V1) as HV1 by (simpl; set_solver).
  clearbody V1. iApply wpp_bind. iApply (wpp_wand with "[H]"); [by iApply "H"|].
  iIntros (x V2 Hle2) "(%P & %HP & HP & HΦ)".
  iMod (arc_alloc P l _ _ (cur V2) n with "Hl HP")
    as (γa i) "(Ha & %Hb & Hk)"; [|apply Hle2; set_solver|done|].
  { etrans; [|apply Hle2]. set_solver. }
  iApply wpp_ret. by iApply ("HΦ" with "[//] Ha").
Qed.
