(* ===== verification/ArcPrograms.v ===== *)
(** * Programs that use the reference counter of chapter 6

    [Test] is the test of 06-01_basic-reference-counter.rs, [Updating] the
    [main] of 06-01-02_updating.rs, [Shared] a client in which any number of
    threads hold handles of the same data. *)

From iris.proofmode Require Import proofmode.
From iris.base_logic.lib Require Import invariants cancelable_invariants ghost_map
  ghost_var token.
From S2P Require Import Prelude Memory History Lang Logic Rules Std Shares Counted Arc.

(** ** The test *)

Module Test.

(** The drop of [("hello", DetectDrop)] counts itself in [NUM_DROPS]. *)
Definition drop_data (num_drops : loc) (p : loc) : prog unit :=
  _ ← fetch_add usize_modulus num_drops 1 Relaxed;
  act (OFree p).

Definition test : prog unit :=
  num_drops ← atomic_new 0;
  x ← Basic.new (new_cell (VStr "hello"));
  y ← Basic.clone x;
  t ← spawn (with_drop (Basic.drop (drop_data num_drops) x) (
    v ← read (Basic.deref x); assert_eq v (VStr "hello")));
  with_drop (Basic.drop (drop_data num_drops) y) (
    v ← read (Basic.deref y);
    assert_eq v (VStr "hello");;
    join_unwrap t;;
    n ← load num_drops Relaxed;
    assert_eq (VInt n) (VInt 0));;
  n ← load num_drops Relaxed;
  assert_eq (VInt n) (VInt 1).

Section proof.
Context `{!rustGS Σ, !shareG Σ, !arcG Σ, !tokenG Σ}.

Lemma wpp_drop_data num p n γ γo v V Φ :
  (0 <= n < usize_MAX)%Z →
  own_at num n (cur V) -∗ na_share γ γo p v 1 (cur V) -∗
  (∀ V', ⌜V ⊆ V'⌝ -∗ own_at num (n + 1) (cur V') -∗ Φ tt V') -∗
  wpp (drop_data num p) V Φ.
Proof.
  iIntros (Hn) "Hnum Hp HΦ". do 2 iApply wpp_bind.
  iApply (wpp_at_rmw with "Hnum"); [done..|by eexists|].
  iIntros (z V1 [= <-] Hle1) "Hnum". rewrite wrap_add_small; [|rewrite /usize_MAX in Hn; lia].
  iApply wpp_ret. iMod (na_share_cancel with "Hp") as "Hp"; [done|].
  iDestruct (own_na_mono with "Hp") as "Hp"; [apply Hle1|].
  iApply (wpp_free with "Hp"). iNext. by iApply ("HΦ" with "[//]").
Qed.

Lemma wpp_test V : ⊢ wpp test V (λ _ _, True).
Proof.
  iApply wpp_bind. iApply wpp_at_new. iIntros (num V0 Hle0) "Hnum".
  do 2 iApply wpp_bind. iApply wpp_alloc_atomic. iIntros "!>" (l e) "Hl".
  set (V1 := observe _ _ V0). iApply wpp_bind. iApply wpp_new.
  iIntros "!>" (p V2 Hle2) "Hp". iApply wpp_ret.
  iMod (na_share_alloc with "Hp") as (γ γo) "Hp".
  iMod (arc_alloc (na_share γ γo p (VStr "hello")) l _ _ (cur V2) 1 with "Hl Hp")
    as (γa i) "(Hx & %Hbudget & Hk & _)"; [|apply Hle2; simpl; set_solver|done|].
  { etrans; [|apply Hle2]. simpl. set_solver. }
  assert (V0 ⊆ V2) as Hle02 by (etrans; [apply observe_le|done]).
  iApply wpp_bind. iApply (wpp_arc_clone with "Hx Hk"). iIntros (j V3 Hle3) "Hx Hy".
  iDestruct (arc_show with "Hy") as "[Hy Hj]".
  iApply wpp_bind. iApply (wpp_spawn_ok _ (λ W, alive γa j ∗ credit γa l W)%I with "[Hx Hj]").
  { iIntros (V' Hle). iDestruct (arc_mono with "Hx") as "Hx"; [exact Hle|].
    iApply wpp_with_drop. iDestruct (arc_data with "Hx") as (q) "[HP Hx]".
    iApply wpp_bind. iApply (wpp_read_share with "HP"). iIntros "!>" (V4 Hle4) "HP".
    iApply wpp_ret. iDestruct ("Hx" with "[%] HP") as "Hx"; [apply Hle4|].
    iApply (wpp_arc_drop_alive with "Hx Hj"). iIntros (V5 _) "$ $". }
  iIntros (t V4 Hle4) "Ht". iDestruct (arc_shown_mono with "Hy") as "Hy"; [apply Hle4|].
  assert (V0 ⊆ V4) as Hle04 by (etrans; [done|by etrans]).
  iDestruct (view_mono with "Hnum") as "Hnum"; [apply Hle04|].
  iApply wpp_bind. iApply wpp_with_drop. iApply wpp_bind.
  iDestruct (arc_shown_data with "Hy") as (q) "[HP Hy]".
  iApply (wpp_read_share with "HP"). iIntros "!>" (V5 Hle5) "HP".
  iDestruct ("Hy" with "[%] HP") as "Hy"; [apply Hle5|].
  iApply wpp_bind. iApply wpp_ret. iApply wpp_bind.
  iDestruct (join_handle_mono with "Ht") as "Ht"; [apply Hle5|].
  iApply (wpp_join_unwrap with "Ht").
  iIntros (V6 Hle6) "[Hj Hk]". iDestruct (arc_shown_mono with "Hy") as "Hy"; [apply Hle6|].
  iDestruct (arc_show with "[$Hy $Hj]") as "Hy".
  iApply wpp_bind. iApply (wpp_at_load with "[Hnum]"); [done| |].
  { iApply (view_mono with "Hnum"). etrans; [apply Hle5|apply Hle6]. }
  iIntros (V7 Hle7) "Hnum". iApply wpp_ret.
  iDestruct (arc_mono with "Hy") as "Hy"; [apply Hle7|].
  iApply (wpp_arc_drop_last with "[Hk] Hy").
  { rewrite /all_credits Hbudget /=. iSplitL; [|done].
    iApply (view_mono with "Hk"). apply Hle7. }
  iIntros (V8 Hle8) "HP". iApply (wpp_drop_data with "[Hnum] HP"); [done| |].
  { iApply (view_mono with "Hnum"). apply Hle8. }
  iIntros (V9 Hle9) "Hnum". iApply wpp_bind. iApply (wpp_at_load with "Hnum"); [done|].
  iIntros (V10 _) "_". by iApply wpp_ret.
Qed.
End proof.
End Test.

(** ** Updating through [get_mut] *)

Module Updating.

(** [String::push_str] *)
Definition push_str (p : loc) (t : string) : prog unit :=
  v ← read p;
  match v with VStr s => write p (VStr (s ++ t)) | _ => UB end.

Definition drop_data (p : loc) : prog unit := act (OFree p).

Definition main : prog unit :=
  a ← Basic.new (new_cell (VStr "hello"));
  with_drop (Basic.drop drop_data a) (
    b ← Basic.clone a;
    with_drop (Basic.drop drop_data b) (
      v ← read (Basic.data b);
      println "b: {}" [v]);;
    r ← Basic.get_mut a;
    match r with
    | Some s => push_str s ", world"
    | None => mret ()
    end;;
    v ← read (Basic.data a);
    println "a: {}" [v]).

Section proof.
Context `{!rustGS Σ, !shareG Σ, !arcG Σ, !ghost_varG Σ val}.

(** The string, and its value as the main thread knows it. *)
Definition text (γ : gname * gname) (γo γv : gname) (p : loc) (q : Qp) (W : view)
    : iProp Σ :=
  ∃ v, na_share γ γo p v q W ∗ ghost_var γv (q / 2) v.

#[local] Instance text_frac γ γo γv p : FracView (text γ γo γv p).
Proof.
  split; [apply _|]. intros q1 q2 W. rewrite /text. iSplit.
  - iIntros "(%v & Hp & Hv)". rewrite na_share_split Qp.div_add_distr.
    iDestruct "Hp" as "[Hp1 Hp2]". iDestruct "Hv" as "[Hv1 Hv2]".
    iSplitL "Hp1 Hv1"; iExists v; iFrame.
  - iIntros "[(%v & Hp1 & Hv1) (%w & Hp2 & Hv2)]".
    iDestruct (ghost_var_agree with "Hv1 Hv2") as %->. iExists w.
    rewrite na_share_split Qp.div_add_distr. iCombine "Hv1 Hv2" as "$". iFrame.
Qed.

Lemma wpp_text_read γ γo γv p v q V Φ :
  text γ γo γv p q (cur V) -∗ ghost_var γv (1/2) v -∗
  (∀ V', ⌜V ⊆ V'⌝ -∗ text γ γo γv p q (cur V') -∗ ghost_var γv (1/2) v -∗ Φ v V') -∗
  wpp (read p) V Φ.
Proof.
  iIntros "(%w & Hp & Hw) Hv HΦ". iDestruct (ghost_var_agree with "Hw Hv") as %->.
  iApply (wpp_read_share with "Hp"). iIntros "!>" (V' Hle) "Hp".
  iApply ("HΦ" with "[//] [Hp Hw] Hv"). iExists v. iFrame.
Qed.

Lemma wpp_push_str γ γo γv p s t V Φ :
  text γ γo γv p 1 (cur V) -∗ ghost_var γv (1/2) (VStr s) -∗
  (∀ V', ⌜V ⊆ V'⌝ -∗ text γ γo γv p 1 (cur V') -∗ ghost_var γv (1/2) (VStr (s ++ t)) -∗
     Φ tt V') -∗
  wpp (push_str p t) V Φ.
Proof.
  iIntros "Hp Hv HΦ". iApply wpp_bind. iApply (wpp_text_read with "Hp Hv").
  iIntros (V1 Hle1) "(%w & Hp & Hw) Hv". iDestruct (ghost_var_agree with "Hw Hv") as %->.
  iMod (ghost_var_update_halves (VStr (s ++ t)) with "Hw Hv") as "[Hw Hv]".
  iApply (wpp_write_share with "Hp"). iIntros "!>" (V2 Hle2) "Hp".
  iApply ("HΦ" with "[%] [Hp Hw] Hv"); [by etrans|]. iExists _. iFrame.
Qed.

Lemma wpp_text_drop γ γo γv p V Φ :
  text γ γo γv p 1 (cur V) -∗ Φ tt V -∗ wpp (drop_data p) V Φ.
Proof.
  iIntros "(%v & Hp & _) HΦ". iMod (na_share_cancel with "Hp") as "Hp"; [done|].
  by iApply (wpp_free with "Hp").
Qed.

Lemma wpp_updating_main V :
  printed [] -∗
  wpp main V (λ _ _, printed [("b: {}"%string, [VStr "hello"]);
    ("a: {}"%string, [VStr "hello, world"])]).
Proof.
  iIntros "Hout". do 2 iApply wpp_bind. iApply wpp_alloc_atomic. iIntros "!>" (l e) "Hl".
  set (V1 := observe _ _ V). iApply wpp_bind. iApply wpp_new.
  iIntros "!>" (p V2 Hle2) "Hp". iApply wpp_ret.
  iMod (na_share_alloc with "Hp") as (γ γo) "Hp".
  iMod (ghost_var_alloc (VStr "hello")) as (γv) "[Hv Hv']".
  iMod (arc_alloc (text γ γo γv p) l _ _ (cur V2) 1 with "Hl [Hp Hv']")
    as (γa i) "(Ha & %Hbudget & Hk & _)"; [|apply Hle2; simpl; set_solver|done| |].
  { etrans; [|apply Hle2]. simpl. set_solver. }
  { iExists _. iFrame. }
  iApply wpp_with_drop. iApply wpp_bind.
  iApply (wpp_arc_clone with "Ha Hk"). iIntros (j V3 Hle3) "Ha Hb".
  iApply wpp_bind. iApply wpp_with_drop. iDestruct (arc_data with "Hb") as (q) "[HP Hb]".
  iApply wpp_bind. iApply (wpp_text_read with "HP Hv"). iIntros (V4 Hle4) "HP Hv".
  iDestruct ("Hb" with "[%] HP") as "Hb"; [apply Hle4|].
  iDestruct (arc_mono with "Ha") as "Ha"; [apply Hle4|].
  iDestruct (arc_show with "Ha") as "[Ha Hi]".
  iApply (wpp_println with "Hout"). iIntros "!> Hout".
  iApply (wpp_arc_drop_alive with "Hb Hi"). iIntros (V5 Hle5) "Hi Hk".
  iDestruct (arc_shown_mono with "Ha") as "Ha"; [apply Hle5|].
  iDestruct (arc_show with "[$Ha $Hi]") as "Ha".
  iAssert (all_credits γa l (cur V5)) with "[Hk]" as "Hk".
  { rewrite /all_credits Hbudget /=. by iFrame. }
  iApply wpp_bind. iApply (wpp_arc_get_mut_last with "Hk Ha").
  iIntros (V6 Hle6) "Hk HP Ha". iApply wpp_bind. iApply (wpp_push_str with "HP Hv").
  iIntros (V7 Hle7) "HP Hv". iDestruct ("Ha" with "[//] HP") as "Ha".
  iDestruct (arc_data with "Ha") as (q') "[HP Ha]".
  iApply wpp_bind. iApply (wpp_text_read with "HP Hv"). iIntros (V8 Hle8) "HP Hv".
  iDestruct ("Ha" with "[%] HP") as "Ha"; [apply Hle8|].
  iApply (wpp_println with "Hout"). iIntros "!> Hout".
  iApply (wpp_arc_drop with "Ha"). iSplit.
  - iIntros (V9 _) "HP". by iApply (wpp_text_drop with "HP").
  - by iIntros (V9 _) "_".
Qed.
End proof.
End Updating.

(** ** Handles in many threads *)

Module Shared.

Definition drop_data (p : loc) : prog unit := act (OFree p).

(** Threads that are not joined, each with a clone that it drops. *)
Fixpoint readers (a : Basic.Arc loc) (v0 : val) (n : nat) : prog unit :=
  match n with
  | 0 => mret ()
  | S n =>
      b ← Basic.clone a;
      _ ← spawn (with_drop (Basic.drop drop_data b) (
        v ← read (Basic.deref b); assert_eq v v0));
      readers a v0 n
  end.

Definition main (v0 : val) (n : nat) : prog unit :=
  a ← Basic.new (new_cell v0);
  with_drop (Basic.drop drop_data a) (readers a v0 n).

Section proof.
Context `{!rustGS Σ, !shareG Σ, !arcG Σ, !tokenG Σ}.

Lemma wpp_handle_drop γ γo p v γa i l V (Φ : unit → tview → iProp Σ) :
  arc (na_share γ γo p v) γa i l (cur V) -∗ (∀ V', Φ tt V') -∗
  wpp (Basic.drop drop_data (Basic.MkArc l p)) V Φ.
Proof.
  iIntros "Ha HΦ". iApply (wpp_arc_drop with "Ha"). iSplit.
  - iIntros (V' _) "HP". iMod (na_share_cancel with "HP") as "HP"; [done|].
    by iApply (wpp_free with "HP").
  - by iIntros (V' _) "_".
Qed.

Lemma wpp_readers γ γo p v γa i l n V (Φ : unit → tview → iProp Σ) :
  arc (na_share γ γo p v) γa i l (cur V) -∗
  ([∗ list] _ ∈ seq 0 n, credit γa l (cur V)) -∗
  (∀ V', arc (na_share γ γo p v) γa i l (cur V') -∗ Φ tt V') -∗
  wpp (readers (Basic.MkArc l p) v n) V Φ.
Proof.
  iIntros "Ha Hk HΦ". iInduction n as [|n] "IH" forall (V).
  { iApply wpp_ret. by iApply "HΦ". }
  rewrite seq_S big_sepL_app. iDestruct "Hk" as "(Hks & Hk & _)".
  iApply wpp_bind. iApply (wpp_arc_clone with "Ha Hk"). iIntros (j V1 Hle1) "Ha Hb".
  iApply wpp_bind. iApply (wpp_spawn_ok _ (λ _, True)%I with "[Hb]").
  { iIntros (V' Hle). iDestruct (arc_mono with "Hb") as "Hb"; [exact Hle|].
    iApply wpp_with_drop. iDestruct (arc_data with "Hb") as (q) "[HP Hb]".
    iApply wpp_bind. iApply (wpp_read_share with "HP"). iIntros "!>" (V2 Hle2) "HP".
    rewrite /assert_eq bool_decide_true //. iApply wpp_ret.
    iDestruct ("Hb" with "[%] HP") as "Hb"; [apply Hle2|].
    iApply (wpp_handle_drop with "Hb"). by iIntros. }
  iIntros (h V2 Hle2) "_". iApply ("IH" with "[Ha] [Hks] HΦ").
  - iApply (arc_mono with "Ha"). apply Hle2.
  - iApply (big_sepL_impl with "Hks"). iIntros "!>" (? ? _) "Hk".
    iApply (view_mono with "Hk"). etrans; [apply Hle1|apply Hle2].
Qed.

Lemma wpp_shared_main v n V :
  (Z.of_nat (S n) <= usize_MAX)%Z → ⊢ wpp (main v n) V (λ _ _, True).
Proof.
  iIntros (Hn). do 2 iApply wpp_bind. iApply wpp_alloc_atomic. iIntros "!>" (l e) "Hl".
  set (V1 := observe _ _ V). iApply wpp_bind. iApply wpp_new.
  iIntros "!>" (p V2 Hle2) "Hp". iApply wpp_ret.
  iMod (na_share_alloc with "Hp") as (γ γo) "Hp".
  iMod (arc_alloc (na_share γ γo p v) l _ _ (cur V2) n with "Hl Hp")
    as (γa i) "(Ha & _ & Hk)"; [|apply Hle2; simpl; set_solver|done|].
  { etrans; [|apply Hle2]. simpl. set_solver. }
  iApply wpp_with_drop. iApply (wpp_readers with "Ha Hk"). iIntros (V3) "Ha".
  iApply (wpp_handle_drop with "Ha"). by iIntros.
Qed.
End proof.
End Shared.

(** ** What the programs do *)

(** The test of 06-01: the data is read by both threads without a
    race, and all assertions hold, so the data is dropped exactly once, after
    the last handle is gone. *)
Theorem arc_test_safe :
  safe Test.test (λ _, True) (λ o σ, o = Ok tt ∧ out σ = []).
Proof.
  apply (safe_no_panic #[rustΣ; shareΣ; arcΣ; tokenΣ] _ (λ os, os = _)). iIntros (?) "Hp _".
  iApply (wpp_wand with "[]"); [by iApply Test.wpp_test|].
  iIntros ([] V _) "_". iExists _. by iFrame.
Qed.

(** The [main] of 06-01-02: after the clone is dropped [get_mut]
    returns the data, and the update through it is seen by the later read. *)
Theorem updating_main_safe :
  safe Updating.main (λ _, True) (λ o σ, o = Ok tt ∧
    out σ = [("b: {}"%string, [VStr "hello"]); ("a: {}"%string, [VStr "hello, world"])]).
Proof.
  apply (safe_no_panic #[rustΣ; shareΣ; arcΣ; ghost_varΣ val] _ (λ os, os = _)).
  iIntros (?) "Hp _".
  iApply (wpp_wand with "[Hp]"); [by iApply (Updating.wpp_updating_main with "Hp")|].
  iIntros ([] V _) "Hp". iExists _. by iFrame.
Qed.

(** C4. Any number of threads that share the data by handles of 06-01,
    each reading it and dropping its handle in any order: no race, no use
    after free, no double free, every reader sees the value. *)
Theorem arc_shared_safe v n (Hn : (Z.of_nat (S n) <= usize_MAX)%Z) :
  safe (Shared.main v n) (λ _, True) (λ o σ, o = Ok tt ∧ out σ = []).
Proof.
  apply (safe_no_panic #[rustΣ; shareΣ; arcΣ; tokenΣ] _ (λ os, os = _)). iIntros (?) "Hp _".
  iApply (wpp_wand with "[]"); [by iApply Shared.wpp_shared_main|].
  iIntros ([] V _) "_". iExists _. by iFrame.
Qed.

Lemma arc_shared_safe_witness :
  safe (Shared.main (VStr "hello") 3) (λ _, True) (λ o σ, o = Ok tt ∧ out σ = []).
Proof. apply (arc_shared_safe (VStr "hello") 3). vm_compute. discriminate. Defined.
