(* ===== verification/WeakApi.v ===== *)
(** * The interface of a reference counter with weak pointers

    The [Arc] and [Weak] of 06-02_weak-pointer.rs and those of
    06-03_optimization.rs are used in the same way.  [WeakImpl] holds the
    operations, [WeakSpec] what a client may rely on.  Verified against it are
    the test, which is the same in both files, and a client with any number of
    threads. *)

From iris.proofmode Require Import proofmode.
From iris.base_logic.lib Require Import invariants ghost_var token.
From S2P Require Import Prelude Memory Lang Logic Rules Std.

(** [A] is [Arc<T>] and [B] is [Weak<T>]; [glue] drops a [T].  [w_read] reads
    the data through the reference that [Deref] returns, [w_put] assigns to the
    one that [get_mut] returns. *)
Class WeakImpl (A B : Type) : Type := {
  w_new : val → prog A;
  w_downgrade : A → prog B;
  w_upgrade : B → prog (option A);
  w_read : A → prog val;
  w_get_mut : A → prog (option loc);
  w_put : loc → val → prog unit;
  w_clone : A → prog A;
  w_clone_weak : B → prog B;
  w_drop : (val → prog unit) → A → prog unit;
  w_drop_weak : (val → prog unit) → B → prog unit
}.

(** What is shared along with the value of the data. *)
Class FracVal {Σ} (T : Qp → val → iProp Σ) : Prop := {
  #[global] frac_val_timeless q v :: Timeless (T q v);
  frac_val_split q1 q2 v : T (q1 + q2)%Qp v ⊣⊢ T q1 v ∗ T q2 v
}.

(** [w_strong k] is an [Arc], which can be dropped with its token [w_alive k];
    [w_weak] is a [Weak].  [w_acr] and [w_dcr] are the rights to make one more
    handle of the allocation or of the data; as many as there are at the start,
    [w_budget], are there again when only one [Arc] is left.  [w_gone]: the last
    [Arc] was dropped.  [w_lent r v]: the data, of value [v], is borrowed from
    the [Arc] by [r]. *)
Class WeakSpec `{!rustGS Σ} {A B} (I : WeakImpl A B) (T : Qp → val → iProp Σ) : Type := {
  w_name : Type;
  w_budget : w_name → nat * nat;
  w_strong : w_name → nat → A → view → iProp Σ;
  w_alive : w_name → nat → view → iProp Σ;
  w_weak : w_name → B → view → iProp Σ;
  w_acr : w_name → view → iProp Σ;
  w_dcr : w_name → view → iProp Σ;
  w_gone : w_name → view → iProp Σ;
  w_lent : w_name → nat → A → loc → val → view → iProp Σ;
  #[global] w_strong_mono γ k a :: ViewMono (w_strong γ k a);
  #[global] w_alive_mono γ k :: ViewMono (w_alive γ k);
  #[global] w_weak_mono γ b :: ViewMono (w_weak γ b);
  #[global] w_acr_mono γ :: ViewMono (w_acr γ);
  #[global] w_dcr_mono γ :: ViewMono (w_dcr γ);
  #[global] w_gone_mono γ :: ViewMono (w_gone γ);
  #[global] w_lent_mono γ k a r v :: ViewMono (w_lent γ k a r v);
  #[global] w_gone_persistent γ W :: Persistent (w_gone γ W);
  w_new_spec v na nd V (Φ : A → tview → iProp Σ) :
    (Z.of_nat (S (S na)) < usize_MAX - 1)%Z → (Z.of_nat (S nd) < usize_MAX - 1)%Z →
    T 1%Qp v -∗
    (∀ γ k a V', ⌜V ⊆ V'⌝ -∗ ⌜w_budget γ = (na, nd)⌝ -∗ w_strong γ k a (cur V') -∗
       w_alive γ k (cur V') -∗ ([∗ list] _ ∈ seq 0 na, w_acr γ (cur V')) -∗
       ([∗ list] _ ∈ seq 0 nd, w_dcr γ (cur V')) -∗ Φ a V') -∗
    wpp (w_new v) V Φ;
  w_downgrade_spec γ k a V (Φ : B → tview → iProp Σ) :
    w_strong γ k a (cur V) -∗ w_acr γ (cur V) -∗
    (∀ b V', ⌜V ⊆ V'⌝ -∗ w_strong γ k a (cur V') -∗ w_weak γ b (cur V') -∗ Φ b V') -∗
    wpp (w_downgrade a) V Φ;
  w_read_spec γ k a V (Φ : val → tview → iProp Σ) :
    w_strong γ k a (cur V) -∗
    (∀ q v V', ⌜V ⊆ V'⌝ -∗ T q v -∗ (T q v -∗ w_strong γ k a (cur V')) -∗ Φ v V') -∗
    wpp (w_read a) V Φ;
  w_clone_spec γ k a V (Φ : A → tview → iProp Σ) :
    w_strong γ k a (cur V) -∗ w_acr γ (cur V) -∗ w_dcr γ (cur V) -∗
    (∀ k' a' V', ⌜V ⊆ V'⌝ -∗ w_strong γ k a (cur V') -∗ w_strong γ k' a' (cur V') -∗
       w_alive γ k' (cur V') -∗ Φ a' V') -∗
    wpp (w_clone a) V Φ;
  w_clone_weak_spec γ b V (Φ : B → tview → iProp Σ) :
    w_weak γ b (cur V) -∗ w_acr γ (cur V) -∗
    (∀ b' V', ⌜V ⊆ V'⌝ -∗ w_weak γ b (cur V') -∗ w_weak γ b' (cur V') -∗ Φ b' V') -∗
    wpp (w_clone_weak b) V Φ;
  (** [upgrade] succeeds or not; it does while some [Arc] is known to be there,
      and does not after the last one. *)
  w_upgrade_spec γ b V (Φ : option A → tview → iProp Σ) :
    w_weak γ b (cur V) -∗ w_acr γ (cur V) -∗ w_dcr γ (cur V) -∗
    (∀ V', ⌜V ⊆ V'⌝ -∗ w_weak γ b (cur V') -∗ w_acr γ (cur V') -∗ w_dcr γ (cur V') -∗
       Φ None V') ∧
    (∀ k a V', ⌜V ⊆ V'⌝ -∗ w_weak γ b (cur V') -∗ w_strong γ k a (cur V') -∗
       w_alive γ k (cur V') -∗ Φ (Some a) V') -∗
    wpp (w_upgrade b) V Φ;
  w_upgrade_alive_spec γ b k0 V (Φ : option A → tview → iProp Σ) :
    w_weak γ b (cur V) -∗ w_acr γ (cur V) -∗ w_dcr γ (cur V) -∗ w_alive γ k0 (cur V) -∗
    (∀ k a V', ⌜V ⊆ V'⌝ -∗ w_weak γ b (cur V') -∗ w_strong γ k a (cur V') -∗
       w_alive γ k (cur V') -∗ w_alive γ k0 (cur V') -∗ Φ (Some a) V') -∗
    wpp (w_upgrade b) V Φ;
  w_upgrade_gone_spec γ b V (Φ : option A → tview → iProp Σ) :
    w_weak γ b (cur V) -∗ w_acr γ (cur V) -∗ w_dcr γ (cur V) -∗ w_gone γ (cur V) -∗
    (∀ V', ⌜V ⊆ V'⌝ -∗ w_weak γ b (cur V') -∗ w_acr γ (cur V') -∗ w_dcr γ (cur V') -∗
       Φ None V') -∗
    wpp (w_upgrade b) V Φ;
  (** The last [Arc] drops the data; it is not the last one while another one
      is there, and it is when all the rights to make one are back. *)
  w_drop_spec glue γ k a V (Φ : unit → tview → iProp Σ) :
    w_strong γ k a (cur V) -∗ w_alive γ k (cur V) -∗
    (∀ V', ⌜V ⊆ V'⌝ -∗ w_acr γ (cur V') -∗ w_dcr γ (cur V') -∗ Φ tt V') ∧
    (∀ v V', ⌜V ⊆ V'⌝ -∗ T 1%Qp v -∗
       wpp (glue v) V' (λ _ V2, ∀ V3, ⌜V2 ⊆ V3⌝ -∗ w_acr γ (cur V3) -∗ w_dcr γ (cur V3) -∗
         Φ tt V3)) -∗
    wpp (w_drop glue a) V Φ;
  w_drop_alive_spec glue γ k a k0 V (Φ : unit → tview → iProp Σ) :
    w_strong γ k a (cur V) -∗ w_alive γ k (cur V) -∗ w_alive γ k0 (cur V) -∗
    (∀ V', ⌜V ⊆ V'⌝ -∗ w_alive γ k0 (cur V') -∗ w_acr γ (cur V') -∗ w_dcr γ (cur V') -∗
       Φ tt V') -∗
    wpp (w_drop glue a) V Φ;
  w_drop_last_spec glue γ k a V (Φ : unit → tview → iProp Σ) :
    w_strong γ k a (cur V) -∗ w_alive γ k (cur V) -∗
    ([∗ list] _ ∈ seq 0 (w_budget γ).2, w_dcr γ (cur V)) -∗
    (∀ v V', ⌜V ⊆ V'⌝ -∗ T 1%Qp v -∗
       wpp (glue v) V' (λ _ V2, ∀ V3, ⌜V2 ⊆ V3⌝ -∗ w_gone γ (cur V3) -∗ w_acr γ (cur V3) -∗
         w_dcr γ (cur V3) -∗ Φ tt V3)) -∗
    wpp (w_drop glue a) V Φ;
  w_drop_weak_spec glue γ b V (Φ : unit → tview → iProp Σ) :
    w_weak γ b (cur V) -∗ (∀ V', ⌜V ⊆ V'⌝ -∗ w_acr γ (cur V') -∗ Φ tt V') -∗
    wpp (w_drop_weak glue b) V Φ;
  (** [get_mut] may give out the data, and does when nothing else is left. *)
  w_get_mut_spec γ k a V (Φ : option loc → tview → iProp Σ) :
    w_strong γ k a (cur V) -∗
    (∀ V', ⌜V ⊆ V'⌝ -∗ w_strong γ k a (cur V') -∗ Φ None V') ∧
    (∀ r v V', ⌜V ⊆ V'⌝ -∗ w_lent γ k a r v (cur V') -∗ T 1%Qp v -∗ Φ (Some r) V') -∗
    wpp (w_get_mut a) V Φ;
  w_get_mut_last_spec γ k a V (Φ : option loc → tview → iProp Σ) :
    w_strong γ k a (cur V) -∗
    ([∗ list] _ ∈ seq 0 (w_budget γ).1, w_acr γ (cur V)) -∗
    ([∗ list] _ ∈ seq 0 (w_budget γ).2, w_dcr γ (cur V)) -∗
    (∀ r v V', ⌜V ⊆ V'⌝ -∗ w_lent γ k a r v (cur V') -∗ T 1%Qp v -∗ Φ (Some r) V') -∗
    wpp (w_get_mut a) V Φ;
  w_put_spec γ k a r v w V (Φ : unit → tview → iProp Σ) :
    w_lent γ k a r v (cur V) -∗
    (∀ V', ⌜V ⊆ V'⌝ -∗ w_lent γ k a r w (cur V') -∗ Φ tt V') -∗
    wpp (w_put r w) V Φ;
  w_lent_end γ k a r v W : w_lent γ k a r v W -∗ T 1%Qp v ={⊤}=∗ w_strong γ k a W
}.

(** ** The clients *)

Section code.
Context `{I : WeakImpl A B}.

(** [o.unwrap()] *)
Definition unwrap_arc (o : option A) : prog A :=
  match o with
  | Some a => mret a
  | None => Panic "called `Option::unwrap()` on a `None` value"
  end.

(** [b.upgrade().is_some()], where the temporary is dropped. *)
Definition upgrade_is_some (glue : val → prog unit) (b : B) : prog bool :=
  o ← w_upgrade b;
  match o with Some a => w_drop glue a;; mret true | None => mret false end.

(** The drop of [("hello", DetectDrop)] counts itself in [NUM_DROPS]. *)
Definition detect_drop (num_drops : loc) (_ : val) : prog unit :=
  _ ← fetch_add usize_modulus num_drops 1 Relaxed; mret ().

Definition weak_test : prog unit :=
  num_drops ← atomic_new 0;
  let glue := detect_drop num_drops in
  x ← w_new (VStr "hello");
  y ← w_downgrade x;
  z ← w_downgrade x;
  t ← spawn (with_drop (w_drop_weak glue y) (
    o ← w_upgrade y;
    y ← unwrap_arc o;
    with_drop (w_drop glue y) (
      v ← w_read y; assert_eq v (VStr "hello"))));
  with_drop (w_drop_weak glue z) (
    with_drop (w_drop glue x) (
      v ← w_read x;
      assert_eq v (VStr "hello");;
      join_unwrap t;;
      n ← load num_drops Relaxed;
      assert_eq (VInt n) (VInt 0);;
      s ← upgrade_is_some glue z;
      assert s "assertion failed: z.upgrade().is_some()");;
    n ← load num_drops Relaxed;
    assert_eq (VInt n) (VInt 1);;
    s ← upgrade_is_some glue z;
    assert (negb s) "assertion failed: z.upgrade().is_none()").

Definition no_glue (_ : val) : prog unit := mret ().

(** When the other pointers are gone, [get_mut] gives access. *)
Definition weak_update (v0 v1 : val) : prog unit :=
  x ← w_new v0;
  w ← w_downgrade x;
  y ← w_clone x;
  with_drop (w_drop no_glue x) (
    w_drop_weak no_glue w;;
    w_drop no_glue y;;
    o ← w_get_mut x;
    match o with
    | Some r => w_put r v1
    | None => Panic "called `Option::unwrap()` on a `None` value"
    end;;
    v ← w_read x;
    assert_eq v v1).

(** A crowd of threads.  Some have a [Weak], which they try to upgrade; some
    have an [Arc], by which they change the data if they can, and which they
    exchange for a [Weak]. *)
Definition tell (v : val) : prog unit := println "dropped {}" [v].

Definition check_value (v0 v1 : val) (a : A) : prog unit :=
  v ← w_read a; assert (bool_decide (v = v0 ∨ v = v1)) "unexpected value".

(** [if let Some(r) = Arc::get_mut(&mut a) { *r = v }] *)
Definition update_alone (v : val) (a : A) : prog unit :=
  o ← w_get_mut a;
  match o with Some r => w_put r v | None => mret () end.

Definition weak_user (v0 v1 : val) (b : B) : prog unit :=
  with_drop (w_drop_weak tell b) (
    o ← w_upgrade b;
    match o with
    | Some a => with_drop (w_drop tell a) (check_value v0 v1 a)
    | None => mret ()
    end).

Definition arc_user (v0 v1 : val) (a : A) : prog unit :=
  b ← with_drop (w_drop tell a) (
    update_alone v1 a;;
    check_value v0 v1 a;;
    w_downgrade a);
  weak_user v0 v1 b.

Fixpoint spawn_users (v0 v1 : val) (a : A) (kinds : list bool) : prog unit :=
  match kinds with
  | [] => mret ()
  | true :: kinds => a' ← w_clone a; _ ← spawn (arc_user v0 v1 a'); spawn_users v0 v1 a kinds
  | false :: kinds => b ← w_downgrade a; _ ← spawn (weak_user v0 v1 b); spawn_users v0 v1 a kinds
  end.

Definition weak_crowd (v0 v1 : val) (kinds : list bool) : prog unit :=
  a ← w_new v0;
  with_drop (w_drop tell a) (spawn_users v0 v1 a kinds).
End code.

(** What has been printed: nothing, or that the data was dropped, once. *)
Definition dropped_once (v0 v1 : val) (os : list output) : Prop :=
  os = [] ∨ ∃ v, (v = v0 ∨ v = v1) ∧ os = [("dropped {}"%string, [v])].

(** ** The test *)

Definition hello {Σ} (q : Qp) (v : val) : iProp Σ := ⌜v = VStr "hello"⌝.

#[export] Instance hello_frac {Σ} : FracVal (Σ := Σ) hello.
Proof. split; [apply _|]. intros q1 q2 v. iSplit; [by iIntros "#$"|by iIntros "[$ _]"]. Qed.

Section test.
Context `{!rustGS Σ, !tokenG Σ, I : WeakImpl A B, !WeakSpec I (hello (Σ := Σ))}.

Lemma wpp_read_hello γ k a V Φ :
  w_strong γ k a (cur V) -∗
  (∀ V', ⌜V ⊆ V'⌝ -∗ w_strong γ k a (cur V') -∗ Φ tt V') -∗
  wpp (v ← w_read a; assert_eq v (VStr "hello")) V Φ.
Proof.
  iIntros "Ha HΦ". iApply wpp_bind. iApply (w_read_spec with "Ha").
  iIntros (q v V' Hle) "%Hv Ha". subst v. iDestruct ("Ha" with "[//]") as "Ha".
  iApply wpp_ret. by iApply ("HΦ" with "[//]").
Qed.

(** The thread; the [Arc] of [main] is there until it is joined. *)
Lemma wpp_test_thread glue γ b k0 V Φ :
  w_weak γ b (cur V) -∗ w_acr γ (cur V) -∗ w_dcr γ (cur V) -∗ w_alive γ k0 (cur V) -∗
  (∀ V', ⌜V ⊆ V'⌝ -∗ w_alive γ k0 (cur V') -∗ w_acr γ (cur V') -∗ w_dcr γ (cur V') -∗ Φ tt V') -∗
  wpp (with_drop (w_drop_weak glue b) (
    o ← w_upgrade b;
    y ← unwrap_arc o;
    with_drop (w_drop glue y) (v ← w_read y; assert_eq v (VStr "hello")))) V Φ.
Proof.
  iIntros "Hb Hk Hd Hi HΦ". iApply wpp_with_drop. iApply wpp_bind.
  iApply (w_upgrade_alive_spec with "Hb Hk Hd Hi"). iIntros (k a V1 Hle1) "Hb Ha Hk Hi".
  iApply wpp_bind. iApply wpp_ret. iApply wpp_with_drop. iApply (wpp_read_hello with "Ha").
  iIntros (V2 Hle2) "Ha".
  iDestruct (view_mono with "Hk") as "Hk"; [apply Hle2|].
  iDestruct (view_mono with "Hi") as "Hi"; [apply Hle2|].
  iApply (w_drop_alive_spec with "Ha Hk Hi"). iIntros (V3 Hle3) "Hi Hk Hd".
  iApply (w_drop_weak_spec with "[Hb]").
  { iApply (view_mono with "Hb"). etrans; [apply Hle2|apply Hle3]. }
  iIntros (V4 Hle4) "_". iApply ("HΦ" with "[%] [Hi] [Hk] [Hd]").
  { do 3 (etrans; [done|]). done. }
  - iApply (view_mono with "Hi"). apply Hle4.
  - iApply (view_mono with "Hk"). apply Hle4.
  - iApply (view_mono with "Hd"). apply Hle4.
Qed.

Lemma wpp_upgrade_is_some glue γ b k0 V Φ :
  w_weak γ b (cur V) -∗ w_acr γ (cur V) -∗ w_dcr γ (cur V) -∗ w_alive γ k0 (cur V) -∗
  (∀ V', ⌜V ⊆ V'⌝ -∗ w_weak γ b (cur V') -∗ w_alive γ k0 (cur V') -∗ w_acr γ (cur V') -∗
     w_dcr γ (cur V') -∗ Φ true V') -∗
  wpp (upgrade_is_some glue b) V Φ.
Proof.
  iIntros "Hb Hk Hd Hi HΦ". iApply wpp_bind.
  iApply (w_upgrade_alive_spec with "Hb Hk Hd Hi"). iIntros (k a V1 Hle1) "Hb Ha Hk Hi".
  iApply wpp_bind. iApply (w_drop_alive_spec with "Ha Hk Hi"). iIntros (V2 Hle2) "Hi Hk Hd".
  iApply wpp_ret. iApply ("HΦ" with "[%] [Hb] Hi Hk Hd"); [by etrans|].
  iApply (view_mono with "Hb"). apply Hle2.
Qed.

Lemma wpp_weak_test V : ⊢ wpp weak_test V (λ _ _, True).
Proof.
  iApply wpp_bind. iApply wpp_at_new. iIntros (num V0 Hle0) "Hnum".
  iApply wpp_bind. iApply (w_new_spec (T := hello) _ 3 1 with "[//]"); [done..|].
  iIntros (γ k x V1 Hle1 Hb) "Hx Hi (Hk1 & Hk2 & Hk3 & _) [Hd _]".
  iApply wpp_bind. iApply (w_downgrade_spec with "Hx Hk1"). iIntros (y V2 Hle2) "Hx Hy".
  mono "Hi Hk2 Hk3 Hd" Hle2.
  iApply wpp_bind. iApply (w_downgrade_spec with "Hx Hk2"). iIntros (z V3 Hle3) "Hx Hz".
  mono "Hi Hk3 Hd Hy" Hle3.
  iApply wpp_bind.
  iApply (wpp_spawn_ok _ (λ W, w_alive γ k W ∗ w_acr γ W ∗ w_dcr γ W)%I with "[Hi Hk3 Hd Hy]").
  { iIntros (V' Hle). mono "Hi Hk3 Hd Hy" Hle.
    iApply (wpp_test_thread with "Hy Hk3 Hd Hi"). iIntros (V4 _) "$ $ $". }
  iIntros (t V4 Hle4) "Ht". mono "Hx Hz" Hle4.
  assert (V0 ⊆ V4) as Hle04 by (do 3 (etrans; [done|]); done). mono "Hnum" Hle04.
  iApply wpp_with_drop. iApply wpp_bind. iApply wpp_with_drop.
  iApply wpp_bind. iApply (w_read_spec with "Hx").
  iIntros (q v V5 Hle5) "%Hv Hx". subst v. iDestruct ("Hx" with "[//]") as "Hx".
  mono "Hz Hnum" Hle5. iDestruct (join_handle_mono with "Ht") as "Ht"; [apply Hle5|].
  iApply wpp_bind. iApply wpp_ret. iApply wpp_bind. iApply (wpp_join_unwrap with "Ht").
  iIntros (V6 Hle6) "(Hi & Hk & Hd)". mono "Hx Hz Hnum" Hle6.
  iApply wpp_bind. iApply (wpp_at_load with "Hnum"); [done|]. iIntros (V7 Hle7) "Hnum".
  mono "Hx Hz Hi Hk Hd" Hle7. iApply wpp_bind. iApply wpp_ret.
  iApply wpp_bind. iApply (wpp_upgrade_is_some with "Hz Hk Hd Hi").
  iIntros (V8 Hle8) "Hz Hi Hk Hd". mono "Hx Hnum" Hle8. iApply wpp_ret.
  iApply (w_drop_last_spec with "Hx Hi [Hd]"); [rewrite Hb /=; by iFrame|].
  iIntros (v V9 Hle9) "_". mono "Hnum Hz Hk" Hle9.
  do 2 iApply wpp_bind. iApply (wpp_at_rmw with "Hnum"); [done..|by eexists|].
  iIntros (n V10 [= <-] Hle10) "Hnum". mono "Hz Hk" Hle10. do 2 iApply wpp_ret.
  iIntros (V11 Hle11) "#Hg _ Hd". mono "Hnum Hz Hk" Hle11.
  iApply wpp_bind. iApply (wpp_at_load with "Hnum"); [done|]. iIntros (V12 Hle12) "Hnum".
  mono "Hz Hk Hd" Hle12. iApply wpp_bind. iApply wpp_ret.
  iApply wpp_bind. iApply wpp_bind. iApply (w_upgrade_gone_spec with "Hz Hk Hd []").
  { iApply (view_mono with "Hg"). apply Hle12. }
  iIntros (V13 Hle13) "Hz _ _". do 2 iApply wpp_ret.
  iApply (w_drop_weak_spec with "Hz"). by iIntros.
Qed.
End test.

(** ** The update *)

(** The value, as the main thread knows it. *)
Definition known {Σ} `{!ghost_varG Σ val} (γv : gname) (q : Qp) (v : val) : iProp Σ :=
  ghost_var γv (q / 2) v.

#[export] Instance known_frac {Σ} `{!ghost_varG Σ val} γv : FracVal (Σ := Σ) (known γv).
Proof.
  split; [apply _|]. intros q1 q2 v. rewrite /known Qp.div_add_distr. iSplit.
  - iIntros "[$ $]".
  - iIntros "[H1 H2]". iCombine "H1 H2" as "$".
Qed.

Section update.
Context `{!rustGS Σ, !ghost_varG Σ val, I : WeakImpl A B}.

Lemma wpp_weak_update γv `{!WeakSpec I (known γv)} v0 v1 V :
  ghost_var γv 1 v0 -∗ wpp (weak_update v0 v1) V (λ _ _, True).
Proof.
  iIntros "[Hv Hv']". iApply wpp_bind.
  iApply (w_new_spec (T := known γv) _ 2 1 with "Hv'"); [done..|].
  iIntros (γ k x V1 Hle1 Hb) "Hx Hi (Hk1 & Hk2 & _) [Hd _]".
  iApply wpp_bind. iApply (w_downgrade_spec with "Hx Hk1"). iIntros (w V2 Hle2) "Hx Hw".
  mono "Hi Hk2 Hd" Hle2. iApply wpp_bind. iApply (w_clone_spec with "Hx Hk2 Hd").
  iIntros (k' y V3 Hle3) "Hx Hy Hi'". mono "Hi Hw" Hle3.
  iApply wpp_with_drop. iApply wpp_bind. iApply (w_drop_weak_spec with "Hw").
  iIntros (V4 Hle4) "Hk1". mono "Hx Hy Hi Hi'" Hle4. iApply wpp_bind.
  iApply (w_drop_alive_spec with "Hy Hi' Hi"). iIntros (V5 Hle5) "Hi Hk2 Hd".
  mono "Hx Hk1" Hle5. iApply wpp_bind.
  iApply (w_get_mut_last_spec with "Hx [Hk1 Hk2] [Hd]"); [rewrite Hb /=; by iFrame..|].
  iIntros (r v V6 Hle6) "Hl Ht". mono "Hi" Hle6.
  iMod (ghost_var_update_halves v1 with "Hv Ht") as "[Hv Ht]".
  iApply wpp_bind. iApply wpp_post_fupd. iApply (w_put_spec with "Hl"). iIntros (V7 Hle7) "Hl".
  iMod (w_lent_end with "Hl Ht") as "Hx". iModIntro. mono "Hi" Hle7.
  iApply wpp_bind. iApply (w_read_spec with "Hx"). iIntros (q u V8 Hle8) "Ht Hx". mono "Hi" Hle8.
  iDestruct (ghost_var_agree with "Hv Ht") as %<-. iDestruct ("Hx" with "Ht") as "Hx".
  rewrite /assert_eq /assert bool_decide_true //. iApply wpp_ret.
  iApply (w_drop_spec with "Hx Hi"). iSplit; [by iIntros|]. iIntros (v2 V9 _) "_".
  iApply wpp_ret. by iIntros.
Qed.
End update.

(** ** The crowd *)

(** Who has all of the data has the right to say that it was dropped. *)
Definition one_of {Σ} `{!ghost_varG Σ unit} (v0 v1 : val) (γt : gname) (q : Qp) (v : val)
    : iProp Σ :=
  ⌜v = v0 ∨ v = v1⌝ ∗ ghost_var γt q tt.

#[export] Instance one_of_frac {Σ} `{!ghost_varG Σ unit} v0 v1 γt :
  FracVal (Σ := Σ) (one_of v0 v1 γt).
Proof.
  split; [apply _|]. intros q1 q2 v. rewrite /one_of. iSplit.
  - iIntros "[#$ [$ $]]".
  - iIntros "[[$ H1] [_ H2]]". iCombine "H1 H2" as "$".
Qed.

Section crowd.
Context `{!rustGS Σ, !tokenG Σ, !ghost_varG Σ unit, I : WeakImpl A B}.
Context (v0 v1 : val) (γt : gname) `{!WeakSpec I (one_of v0 v1 γt)}.
Implicit Types (γ : w_name) (V : tview).

Definition users_out : iProp Σ :=
  ∃ os, printed os ∗ ⌜dropped_once v0 v1 os⌝ ∗ (⌜os = []⌝ ∨ ghost_var γt 1 tt).

Lemma wpp_tell v V Φ :
  inv outN users_out -∗ one_of v0 v1 γt 1 v -∗ Φ tt V -∗ wpp (tell v) V Φ.
Proof.
  iIntros "#Hinv [%Hv Ht] HΦ". iApply wpp_print_inv.
  iInv "Hinv" as (os) "(>Hos & >_ & >Hcase)" "Hclose". iModIntro. iExists os. iFrame "Hos".
  iIntros "!> Hos". iDestruct "Hcase" as "[->|Ht']"; last first.
  { by iDestruct (ghost_var_valid_2 with "Ht Ht'") as %[? _]. }
  iFrame "HΦ". iApply "Hclose". iExists _. iFrame "Hos Ht". iPureIntro. right. by exists v.
Qed.

Lemma wpp_user_drop γ k a V Φ :
  inv outN users_out -∗ w_strong γ k a (cur V) -∗ w_alive γ k (cur V) -∗
  (∀ V', ⌜V ⊆ V'⌝ -∗ w_acr γ (cur V') -∗ w_dcr γ (cur V') -∗ Φ tt V') -∗
  wpp (w_drop tell a) V Φ.
Proof.
  iIntros "#Hinv Ha Hi HΦ". iApply (w_drop_spec with "Ha Hi"). iSplit; [done|].
  iIntros (v V1 Hle1) "HT". iApply (wpp_tell with "Hinv HT"). iIntros (V2 Hle2).
  iApply "HΦ". iPureIntro. by etrans.
Qed.

Lemma wpp_user_read γ k a V Φ :
  w_strong γ k a (cur V) -∗ (∀ V', ⌜V ⊆ V'⌝ -∗ w_strong γ k a (cur V') -∗ Φ tt V') -∗
  wpp (check_value v0 v1 a) V Φ.
Proof.
  iIntros "Ha HΦ". iApply wpp_bind. iApply (w_read_spec with "Ha").
  iIntros (q v V' Hle) "[%Hv Ht] Ha". iDestruct ("Ha" with "[$Ht //]") as "Ha".
  rewrite /assert bool_decide_true //. iApply wpp_ret. by iApply ("HΦ" with "[//]").
Qed.

Lemma wpp_weak_user γ b V :
  inv outN users_out -∗ w_weak γ b (cur V) -∗ w_acr γ (cur V) -∗ w_dcr γ (cur V) -∗
  wpp (weak_user v0 v1 b) V (λ _ _, True).
Proof.
  iIntros "#Hinv Hb Hk Hd". iApply wpp_with_drop. iApply wpp_bind.
  iApply (w_upgrade_spec with "Hb Hk Hd"). iSplit.
  - iIntros (V1 Hle1) "Hb _ _". iApply wpp_ret. iApply (w_drop_weak_spec with "Hb"). by iIntros.
  - iIntros (k a V1 Hle1) "Hb Ha Hi". iApply wpp_with_drop. iApply (wpp_user_read with "Ha").
    iIntros (V2 Hle2) "Ha". mono "Hb Hi" Hle2. iApply (wpp_user_drop with "Hinv Ha Hi").
    iIntros (V3 Hle3) "_ _". mono "Hb" Hle3. iApply (w_drop_weak_spec with "Hb"). by iIntros.
Qed.

Lemma wpp_user_update γ k a V Φ :
  w_strong γ k a (cur V) -∗ (∀ V', ⌜V ⊆ V'⌝ -∗ w_strong γ k a (cur V') -∗ Φ tt V') -∗
  wpp (update_alone v1 a) V Φ.
Proof.
  iIntros "Ha HΦ". iApply wpp_bind. iApply (w_get_mut_spec with "Ha"). iSplit.
  - iIntros (V1 Hle1) "Ha". iApply wpp_ret. by iApply ("HΦ" with "[//]").
  - iIntros (r v V1 Hle1) "Hl [_ Ht]". iApply wpp_post_fupd. iApply (w_put_spec with "Hl").
    iIntros (V2 Hle2) "Hl". iMod (w_lent_end with "Hl [$Ht]") as "Ha"; [by eauto|].
    iApply ("HΦ" with "[%] Ha"). by etrans.
Qed.

Lemma wpp_arc_user γ k a V :
  inv outN users_out -∗ w_strong γ k a (cur V) -∗ w_alive γ k (cur V) -∗ w_acr γ (cur V) -∗
  wpp (arc_user v0 v1 a) V (λ _ _, True).
Proof.
  iIntros "#Hinv Ha Hi Hk". iApply wpp_bind. iApply wpp_with_drop.
  iApply wpp_bind. iApply (wpp_user_update with "Ha"). iIntros (V1 Hle1) "Ha".
  iApply wpp_bind. iApply (wpp_user_read with "Ha"). iIntros (V2 Hle2) "Ha".
  assert (V ⊆ V2) as Hle by by etrans. mono "Hi Hk" Hle.
  iApply (w_downgrade_spec with "Ha Hk"). iIntros (b V3 Hle3) "Ha Hb". mono "Hi" Hle3.
  iApply (wpp_user_drop with "Hinv Ha Hi"). iIntros (V4 Hle4) "Hk Hd". mono "Hb" Hle4.
  iApply (wpp_weak_user with "Hinv Hb Hk Hd").
Qed.

Lemma wpp_spawn_users γ k a kinds V Φ :
  inv outN users_out -∗ w_strong γ k a (cur V) -∗
  ([∗ list] _ ∈ kinds, w_acr γ (cur V) ∗ w_acr γ (cur V) ∗ w_dcr γ (cur V)) -∗
  (∀ V', ⌜V ⊆ V'⌝ -∗ w_strong γ k a (cur V') -∗ Φ tt V') -∗
  wpp (spawn_users v0 v1 a kinds) V Φ.
Proof.
  iIntros "#Hinv Ha Hks HΦ". iInduction kinds as [|kind kinds] "IH" forall (V).
  { iApply wpp_ret. by iApply ("HΦ" with "[//]"). }
  iDestruct "Hks" as "[(Hk1 & Hk2 & Hd) Hks]".
  iAssert (∀ V2, ⌜V ⊆ V2⌝ -∗ w_strong γ k a (cur V2) -∗ wpp (spawn_users v0 v1 a kinds) V2 Φ)%I
    with "[Hks HΦ]" as "IH'".
  { iIntros (V2 Hle) "Ha". iApply ("IH" with "Ha [Hks]").
    - iApply (big_sepL_impl with "Hks"). iIntros "!>" (? ? _) "(H1 & H2 & H3)".
      mono "H1 H2 H3" Hle. iFrame.
    - iIntros (V3 Hle3). iApply "HΦ". iPureIntro. by etrans. }
  destruct kind.
  - iApply wpp_bind. iApply (w_clone_spec with "Ha Hk1 Hd").
    iIntros (k' a' V1 Hle1) "Ha Ha' Hi". mono "Hk2" Hle1. iApply wpp_bind.
    iApply (wpp_spawn_ok _ (λ _, True)%I with "[Ha' Hi Hk2]").
    { iIntros (V' Hle). mono "Ha' Hi Hk2" Hle. by iApply (wpp_arc_user with "Hinv Ha' Hi"). }
    iIntros (h V2 Hle2) "_". mono "Ha" Hle2. iApply ("IH'" with "[%] Ha"). by etrans.
  - iApply wpp_bind. iApply (w_downgrade_spec with "Ha Hk1").
    iIntros (b V1 Hle1) "Ha Hb". mono "Hk2 Hd" Hle1. iApply wpp_bind.
    iApply (wpp_spawn_ok _ (λ _, True)%I with "[Hb Hk2 Hd]").
    { iIntros (V' Hle). mono "Hb Hk2 Hd" Hle. by iApply (wpp_weak_user with "Hinv Hb Hk2"). }
    iIntros (h V2 Hle2) "_". mono "Ha" Hle2. iApply ("IH'" with "[%] Ha"). by etrans.
Qed.

Lemma wpp_weak_crowd kinds V :
  (Z.of_nat (S (S (length kinds + length kinds))) < usize_MAX - 1)%Z →
  inv outN users_out -∗ ghost_var γt 1 tt -∗ wpp (weak_crowd v0 v1 kinds) V (λ _ _, True).
Proof.
  iIntros (Hn) "#Hinv Ht". iApply wpp_bind.
  iApply (w_new_spec (T := one_of v0 v1 γt) _ (length kinds + length kinds) (length kinds)
    with "[$Ht]"); [done|lia|by eauto|].
  iIntros (γ k a V1 Hle1 _) "Ha Hi Hk Hd". rewrite seq_app big_sepL_app.
  iDestruct "Hk" as "[Hk1 Hk2]".
  iApply wpp_with_drop. iApply (wpp_spawn_users with "Hinv Ha [Hk1 Hk2 Hd]").
  { iAssert ([∗ list] _ ∈ seq 0 (length kinds), w_acr γ (cur V1) ∗ w_acr γ (cur V1) ∗
      w_dcr γ (cur V1))%I with "[Hk1 Hk2 Hd]" as "H"; last first.
    { iApply (big_sepL_const_length with "H"). by rewrite length_seq. }
    rewrite !big_sepL_sep. iFrame "Hk1 Hd". iApply (big_sepL_const_length with "Hk2").
    by rewrite !length_seq. }
  iIntros (V2 Hle2) "Ha". mono "Hi" Hle2. iApply (wpp_user_drop with "Hinv Ha Hi"). by iIntros.
Qed.
End crowd.

(** The closed forms, for every implementation that meets the interface. *)
Lemma weak_test_safe `{I : WeakImpl A B} Σ `{!rustGpreS Σ, !tokenG Σ} :
  (∀ `{!rustGS Σ}, WeakSpec I hello) →
  safe weak_test (λ σ, out σ = []) (λ o _, o = Ok tt).
Proof.
  intros HI. apply (safe_quiet Σ). iIntros (?). specialize (HI _). iApply wpp_weak_test.
Qed.

Lemma weak_crowd_safe `{I : WeakImpl A B} Σ `{!rustGpreS Σ, !tokenG Σ, !ghost_varG Σ unit}
    v0 v1 kinds :
  (∀ `{!rustGS Σ} γt, WeakSpec I (one_of v0 v1 γt)) →
  (Z.of_nat (S (S (length kinds + length kinds))) < usize_MAX - 1)%Z →
  safe (weak_crowd v0 v1 kinds) (λ σ, dropped_once v0 v1 (out σ)) (λ o _, o = Ok tt).
Proof.
  intros HI Hn. apply (safe_invariant Σ _ (dropped_once v0 v1) (λ o, o = Ok tt)).
  iIntros (?) "Hp". iMod (ghost_var_alloc tt) as (γt) "Ht".
  iExists (λ os, ⌜os = []⌝ ∨ ghost_var γt 1 tt)%I.
  iMod (inv_alloc outN _ (users_out v0 v1 γt) with "[Hp]") as "#Hinv".
  { iExists []. iFrame "Hp". iSplit; [by iPureIntro; left|]. by iLeft. }
  iModIntro. iFrame "Hinv". specialize (HI _ γt). iApply (wpo_wand with "[Ht]").
  { by iApply (wpp_weak_crowd with "Hinv Ht"). }
  by iIntros ([[]|m] V _) "H".
Qed.

Lemma weak_update_safe `{I : WeakImpl A B} Σ `{!rustGpreS Σ, !ghost_varG Σ val} v0 v1 :
  (∀ `{!rustGS Σ} γv, WeakSpec I (known γv)) →
  safe (weak_update v0 v1) (λ σ, out σ = []) (λ o _, o = Ok tt).
Proof.
  intros HI. apply (safe_quiet Σ). iIntros (?).
  iMod (ghost_var_alloc v0) as (γv) "Hv". specialize (HI _ γv).
  by iApply (wpp_weak_update with "Hv").
Qed.
