(* ===== verification/DataCell.v ===== *)
(** * The cell of the data

    The memory that holds the data of a reference counter.  The right to the
    cell, [data_share], goes with the allocation; the right to its content,
    [data_val], goes with the data.  All of the first frees the cell, all of
    the second writes it, a part of both reads it. *)

From iris.proofmode Require Import proofmode.
From iris.algebra Require Import gset.
From iris.algebra.lib Require Import frac_auth.
From iris.base_logic.lib Require Import invariants ghost_var ghost_map.
From S2P Require Import Prelude Memory Lang Logic Rules Std Shares WeakApi.

(** The accesses as the handles of the allocation and as those of the data know
    them, and the value. *)
Record cell_name : Type := CellName {
  cell_shares : gname * gname; cell_acc : gname; cell_val : gname
}.

Section cell.
Context `{!rustGS Σ, !shareG Σ}.
Implicit Types (γ : cell_name) (p : loc) (v w : val) (q : Qp) (W S : view) (V : tview).

Definition data_inv γ p : iProp Σ :=
  ∃ v ws rs, p ↦ CData v ws rs ∗ accesses (cell_shares γ) (ws ∪ rs) ∗
    record (cell_acc γ) (ws ∪ rs) ∗ ghost_var (cell_val γ) (1/2) (v, ws).

Definition data_share γ p q W : iProp Σ :=
  share_cinv (cell_shares γ) (data_inv γ p) ∗ access_share (cell_shares γ) q W.
Definition data_val γ q v W : iProp Σ :=
  recorded (cell_acc γ) q W ∗ ∃ ws, ghost_var (cell_val γ) (q / 2) (v, ws) ∗ ⌜ws ⊆ W⌝.

#[global] Instance data_share_frac γ p : FracView (data_share γ p).
Proof.
  split.
  - intros q W W' Hle. iIntros "[$ H]". by iApply (access_share_mono with "H").
  - intros q1 q2 W. rewrite /data_share access_share_split. iSplit.
    + iIntros "[#$ [$ $]]".
    + iIntros "[[$ $] [_ $]]".
Qed.

#[global] Instance data_val_mono γ q v : ViewMono (data_val γ q v).
Proof.
  intros W W' Hle. iIntros "[H (%ws & $ & %)]".
  iSplitL; [by iApply (recorded_mono with "H")|]. iPureIntro. by etrans.
Qed.

Lemma data_val_agree γ q1 q2 v1 v2 W1 W2 :
  data_val γ q1 v1 W1 -∗ data_val γ q2 v2 W2 -∗ ⌜v1 = v2⌝.
Proof.
  iIntros "[_ (%ws1 & H1 & _)] [_ (%ws2 & H2 & _)]".
  by iDestruct (ghost_var_agree with "H1 H2") as %[= -> _].
Qed.

Lemma data_val_split γ q1 q2 v W :
  data_val γ (q1 + q2) v W ⊣⊢ data_val γ q1 v W ∗ data_val γ q2 v W.
Proof.
  rewrite /data_val recorded_split Qp.div_add_distr. iSplit.
  - iIntros "[[$ $] (%ws & [H1 H2] & %)]". iSplitL "H1"; iExists ws; by iFrame.
  - iIntros "[[$ (%ws1 & H1 & %)] [$ (%ws2 & H2 & _)]]".
    iDestruct (ghost_var_agree with "H1 H2") as %[= <-]. iExists ws1.
    iCombine "H1 H2" as "$". done.
Qed.

(** There is no more than the whole. *)
Lemma data_val_exclusive γ q v1 v2 W1 W2 :
  data_val γ 1 v1 W1 -∗ data_val γ q v2 W2 -∗ False.
Proof. iIntros "[H1 _] [H2 _]". iApply (recorded_exclusive with "H1 H2"). Qed.

Lemma data_alloc l v W E :
  own_na l v W ={E}=∗ ∃ γ, data_share γ l 1 W ∗ data_val γ 1 v W.
Proof.
  iIntros "(%ws & %rs & Hl & %Hin)".
  iMod (accesses_alloc (ws ∪ rs) W) as (γc) "(HA & HS & Halloc)"; [done|].
  iMod (record_alloc (ws ∪ rs) W) as (γa) "[HA' HS']"; [done|].
  iMod (ghost_var_alloc (v, ws)) as (γv) "[Ho Ho']".
  set (γ := CellName γc γa γv).
  iMod ("Halloc" $! (data_inv γ l) with "[Hl HA HA' Ho']") as "#Hc".
  { iNext. iExists v, ws, rs. iFrame. }
  iModIntro. iExists γ. iFrame "Hc HS HS'". iExists ws. iFrame. iPureIntro. set_solver.
Qed.

Lemma wpp_data_read γ p qa q v V Φ :
  data_share γ p qa (cur V) -∗ data_val γ q v (cur V) -∗
  (∀ V', ⌜V ⊆ V'⌝ -∗ data_share γ p qa (cur V') -∗ data_val γ q v (cur V') -∗ Φ v V') -∗
  wpp (read p) V Φ.
Proof.
  iIntros "[#Hc HS] [Hs (%ws & Ho & %Hws)] HΦ". iApply wpp_read_inv.
  iMod (share_acc with "Hc HS") as "(>(%v' & %ws' & %rs & Hl & HA & HA' & Ho') & HS & Hclose)".
  iDestruct (ghost_var_agree with "Ho Ho'") as %[= <- <-]. iModIntro.
  iExists v, ws, rs. iFrame "Hl". iSplit; [done|]. iIntros "!>" (e) "Hl".
  iMod (accesses_add _ _ _ _ {[Acc e]} with "HA HS") as "[HA HS]".
  iMod (record_add _ _ _ _ {[Acc e]} with "HA' Hs") as "[HA' Hs]".
  iMod ("Hclose" with "[Hl HA HA' Ho']") as "_".
  { iExists v, ws, _. iFrame "Hl Ho'". rewrite (assoc_L (∪)). iFrame. }
  iModIntro. iApply ("HΦ" with "[%] [HS]"); [apply observe_le|by iFrame "Hc HS"|].
  iFrame "Hs". iExists ws. iFrame. iPureIntro. set_solver.
Qed.

Lemma wpp_data_write γ p qa v w V Φ :
  data_share γ p qa (cur V) -∗ data_val γ 1 v (cur V) -∗
  (∀ V', ⌜V ⊆ V'⌝ -∗ data_share γ p qa (cur V') -∗ data_val γ 1 w (cur V') -∗ Φ tt V') -∗
  wpp (write p w) V Φ.
Proof.
  iIntros "[#Hc HS] [Hs (%ws & Ho & %Hws)] HΦ". iApply wpp_write_inv.
  iMod (share_acc with "Hc HS") as "(>(%v' & %ws' & %rs & Hl & HA & HA' & Ho') & HS & Hclose)".
  iDestruct (ghost_var_agree with "Ho Ho'") as %[= <- <-].
  iDestruct (record_all with "HA' Hs") as %Hall. iModIntro.
  iExists v, ws, rs. iFrame "Hl". iSplit; [done|]. iIntros "!>" (e) "Hl".
  iMod (accesses_add _ _ _ _ {[Acc e]} with "HA HS") as "[HA HS]".
  iMod (record_add _ _ _ _ {[Acc e]} with "HA' Hs") as "[HA' Hs]".
  iMod (ghost_var_update_halves (w, ws ∪ {[Acc e]}) with "Ho Ho'") as "[Ho Ho']".
  iMod ("Hclose" with "[Hl HA HA' Ho']") as "_".
  { iExists w, _, rs. iFrame "Hl Ho'".
    replace (ws ∪ {[Acc e]} ∪ rs) with (ws ∪ rs ∪ {[Acc e]}) by set_solver. iFrame. }
  iModIntro. iApply ("HΦ" with "[%] [HS]"); [apply observe_le|by iFrame "Hc HS"|].
  iFrame "Hs". iExists _. iFrame. iPureIntro. set_solver.
Qed.

Lemma data_cancel γ p v W W' E :
  ↑shareN ⊆ E → data_share γ p 1 W -∗ data_val γ 1 v W' ={E}=∗ own_na p v W.
Proof.
  iIntros (HE) "[#Hc HS] [_ (%ws' & Ho & _)]".
  iMod (share_cancel with "Hc HS") as "[>(%v' & %ws & %rs & Hl & HA & _ & Ho') Hall]"; [done|].
  iDestruct (ghost_var_agree with "Ho Ho'") as %[= -> ->].
  iDestruct ("Hall" with "HA") as %?. iModIntro. iExists ws, rs. by iFrame.
Qed.

(** A part of the content, with what belongs to the data; [f v] is what the
    cell holds when the data is [v]. *)
Context (T : Qp → val → iProp Σ) `{!FracVal T} (f : val → val) `{!Inj eq eq f}.

Definition cell_part γ q W : iProp Σ := ∃ v, data_val γ q (f v) W ∗ T q v.

#[global] Instance cell_part_frac γ : FracView (cell_part γ).
Proof.
  split.
  - intros q W W' Hle. iIntros "(%v & H & $)". by iApply (view_mono with "H").
  - intros q1 q2 W. rewrite /cell_part. iSplit.
    + iIntros "(%v & H & HT)". rewrite data_val_split frac_val_split.
      iDestruct "H" as "[H1 H2]". iDestruct "HT" as "[T1 T2]". iSplitL "H1 T1"; iExists v; iFrame.
    + iIntros "[(%v & H1 & T1) (%w & H2 & T2)]".
      iDestruct (data_val_agree with "H1 H2") as %->%(inj f). iExists w.
      rewrite data_val_split frac_val_split. iFrame.
Qed.

Lemma cell_part_exclusive γ q W1 W2 : cell_part γ 1 W1 -∗ cell_part γ q W2 -∗ False.
Proof.
  iIntros "(%v & H1 & _) (%w & H2 & _)". iApply (data_val_exclusive with "H1 H2").
Qed.
End cell.

#[export] Instance vsome_inj : Inj eq eq VSome.
Proof. by intros v w [= ->]. Qed.

(** ** A view that all the handles have seen

    What a protocol keeps in reserve may be used by who has seen the view [B];
    the handles together own the right to change it. *)

Section based.
Context `{!ghost_varG Σ view}.
Implicit Types (γ : gname) (q p : Qp) (B W : view).

Definition based γ q W : iProp Σ := ∃ B, ghost_var γ (q / 2) B ∗ ⌜B ⊆ W⌝.

#[global] Instance based_frac γ : FracView (based γ).
Proof.
  split.
  - intros q W W' Hle. iIntros "(%B & $ & %)". iPureIntro. by etrans.
  - intros q1 q2 W. rewrite /based Qp.div_add_distr. iSplit.
    + iIntros "(%B & [H1 H2] & %)". iSplitL "H1"; iExists B; by iFrame.
    + iIntros "[(%B & H1 & %) (%B' & H2 & _)]".
      iDestruct (ghost_var_agree with "H1 H2") as %<-. iCombine "H1 H2" as "H". iExists B. by iFrame.
Qed.

Lemma based_seen γ p q B W : ghost_var γ p B -∗ based γ q W -∗ ⌜B ⊆ W⌝.
Proof. iIntros "HB (%B' & HB' & %)". by iDestruct (ghost_var_agree with "HB HB'") as %->. Qed.

Lemma based_exclusive γ q B W : ghost_var γ 1 B -∗ based γ q W -∗ False.
Proof.
  iIntros "HB (%B' & HB' & _)". iCombine "HB HB'" gives %[Hv _]. by apply Qp.not_add_le_l in Hv.
Qed.

Lemma based_all γ B W : ghost_var γ (1/2) B -∗ based γ 1 W -∗ ghost_var γ 1 B ∗ ⌜B ⊆ W⌝.
Proof.
  iIntros "HB (%B' & HB' & %)". iDestruct (ghost_var_agree with "HB HB'") as %<-.
  iCombine "HB HB'" as "$". done.
Qed.

Lemma based_set γ B W : ghost_var γ 1 B ==∗ ghost_var γ (1/2) W ∗ based γ 1 W.
Proof.
  iIntros "HB". iMod (ghost_var_update W with "HB") as "[$ HB]". iModIntro. iExists W. by iFrame.
Qed.

Lemma based_alloc W : ⊢ |==> ∃ γ, ghost_var γ (1/2) W ∗ based γ 1 W.
Proof.
  iMod (ghost_var_alloc W) as (γ) "[H H']". iModIntro. iExists γ. iFrame "H". iExists W. by iFrame.
Qed.
End based.

(** Half of what is divided, and the parts of a ghost element. *)
#[export] Instance half_frac {Σ} (P : Qp → view → iProp Σ) :
  FracView P → FracView (λ q, P (q / 2)%Qp).
Proof.
  intros HP. split; [intros q; apply _|]. intros q1 q2 W. by rewrite Qp.div_add_distr frac_view_split.
Qed.
#[export] Instance elem_frac `{Countable K, !ghost_mapG Σ K X} γ (k : K) (x : X) :
  FracView (λ q _, k ↪[γ]{#q} x)%I.
Proof.
  split; [by intros q W W' _|]. intros q1 q2 W. iSplit.
  - iIntros "[$ $]".
  - iIntros "[H1 H2]". by iCombine "H1 H2" as "$".
Qed.
