(* ===== verification/Weak.v ===== *)
(** * The reference counter with weak pointers

    [WeakPtr] is the code of 06-02_weak-pointer.rs.  A [Weak] is a handle of
    [alloc_ref_count], in the protocol of [Arc]; what it owns is a fraction of
    the allocation.  An [Arc] is such a handle, whose token lies in the
    protocol of [data_ref_count], together with a handle of that counter; what
    that handle owns is a fraction of the data.  A weak pointer that is
    upgraded has no fraction of the data to give away, so the protocol keeps a
    part in reserve. *)

From Stdlib Require Import Qcanon.
From iris.proofmode Require Import proofmode.
From iris.algebra Require Import gset.
From iris.algebra.lib Require Import frac_auth.
From iris.base_logic.lib Require Import invariants cancelable_invariants ghost_map ghost_var.
From S2P Require Import Prelude Memory History Lang Logic Rules Std Shares Counted Arc.
From S2P Require Import WeakApi DataCell.

(** ** The code *)

Module WeakPtr.

(** The addresses of the fields; [data] holds an [Option<T>]. *)
Record ArcData : Type := MkArcData {
  data_ref_count : loc; alloc_ref_count : loc; data : loc
}.
Record Weak : Type := MkWeak { ptr : ArcData }.
Record Arc : Type := MkArc { weak : Weak }.

Definition new (v : val) : prog Arc :=
  d ← atomic_new 1;
  a ← atomic_new 1;
  p ← new_cell (VSome v);
  mret (MkArc (MkWeak (MkArcData d a p))).

(** [option.as_mut().unwrap()]: the place of the data *)
Definition unwrap_data (p : loc) : prog loc :=
  o ← read p;
  match o with
  | VSome _ => mret p
  | VNone => Panic "called `Option::unwrap()` on a `None` value"
  | _ => UB
  end.

Definition get_mut (arc : Arc) : prog (option loc) :=
  let x := ptr (weak arc) in
  n ← load (alloc_ref_count x) Relaxed;
  if (n =? 1)%Z then
    fence Acquire;;
    p ← unwrap_data (data x);
    mret (Some p)
  else mret None.

Definition clone_weak (self : Weak) : prog Weak :=
  n ← fetch_add usize_modulus (alloc_ref_count (ptr self)) 1 Relaxed;
  if (usize_MAX / 2 <? n)%Z then abort else mret (MkWeak (ptr self)).

Definition downgrade (arc : Arc) : prog Weak := clone_weak (weak arc).

Definition upgrade (self : Weak) : prog (option Arc) :=
  let d := data_ref_count (ptr self) in
  n ← load d Relaxed;
  loop (λ n,
    if (n =? 0)%Z then mret (inr None)
    else
      assert (n <? usize_MAX)%Z "assertion failed: n < usize::MAX";;
      r ← compare_exchange_weak d n (n + 1) Relaxed Relaxed;
      match r with
      | inr e => mret (inl e)
      | inl _ => w ← clone_weak self; mret (inr (Some (MkArc w)))
      end) n.

(** [&**arc] reads the data behind the [Option]. *)
Definition deref (self : Arc) : prog loc := unwrap_data (data (ptr (weak self))).

(** A read through the reference that [deref] or [get_mut] returns. *)
Definition read_data (p : loc) : prog val :=
  o ← read p;
  match o with VSome v => mret v | _ => UB end.

Definition clone (self : Arc) : prog Arc :=
  w ← clone_weak (weak self);
  n ← fetch_add usize_modulus (data_ref_count (ptr w)) 1 Relaxed;
  if (usize_MAX / 2 <? n)%Z then abort else mret (MkArc w).

(** The drop of an [Option<T>]; [glue] drops a [T]. *)
Definition drop_option (glue : val → prog unit) (p : loc) : prog unit :=
  o ← read p;
  match o with VSome v => glue v | VNone => mret () | _ => UB end.

(** [drop(Box::from_raw(ptr))] *)
Definition drop_box (glue : val → prog unit) (x : ArcData) : prog unit :=
  drop_option glue (data x);;
  act (OFree (data x));;
  act (OFree (data_ref_count x));;
  act (OFree (alloc_ref_count x)).

Definition drop_weak (glue : val → prog unit) (self : Weak) : prog unit :=
  let x := ptr self in
  n ← fetch_sub usize_modulus (alloc_ref_count x) 1 Release;
  if (n =? 1)%Z then fence Acquire;; drop_box glue x else mret ().

(** The assignment of [None] drops the data first; the field [weak] is dropped
    at the end. *)
Definition drop (glue : val → prog unit) (self : Arc) : prog unit :=
  let x := ptr (weak self) in
  with_drop (drop_weak glue (weak self)) (
    n ← fetch_sub usize_modulus (data_ref_count x) 1 Release;
    if (n =? 1)%Z then
      fence Acquire;;
      with_drop (write (data x) VNone) (drop_option glue (data x))
    else mret ()).
End WeakPtr.

(** ** Ghost state *)

Class weakG Σ := WeakG {
  weak_shareG :: shareG Σ;
  weak_arcG :: arcG Σ;
  weak_baseG :: ghost_varG Σ view
}.
Definition weakΣ : gFunctors := #[shareΣ; arcΣ; ghost_varΣ view].
#[export] Instance subG_weakΣ Σ : subG weakΣ Σ → weakG Σ.
Proof. solve_inG. Qed.

(** The tokens of the handles of the allocation, the protocol of the data
    counter, what its users have observed, the cell of the data, the view in
    which the reserve may be used, and which handle of the allocation belongs
    to a handle of the data. *)
Record weak_name : Type := WeakName {
  wk_ids : gname; wk_data : arc_name; wk_init : view; wk_cell : cell_name;
  wk_base : gname; wk_link : gname
}.

(** ** The protocol of the data counter *)

Section strong.
Context `{!rustGS Σ, !weakG Σ}.
Context (T : Qp → val → iProp Σ) `{!FracVal T}.
Implicit Types (γ : weak_name) (x : WeakPtr.ArcData) (q c : Qp) (W A : view) (V : tview).
Implicit Types (M : handles) (L : gmap nat nat) (h : hist) (v : val) (i j k : nat).

(** What a handle of the data owns. *)
Definition data_part γ : Qp → view → iProp Σ := cell_part T VSome (wk_cell γ).

#[global] Instance data_part_frac γ : FracView (data_part γ).
Proof. apply _. Qed.
#[global] Instance data_part_timeless γ q W : Timeless (data_part γ q W).
Proof. apply _. Qed.

Definition token γ (i : nat) : iProp Σ := ∃ b : time, i ↪[wk_ids γ] b.

(** The handles of the allocation whose tokens are here. *)
Definition linked γ L : iProp Σ :=
  ghost_map_auth (wk_link γ) 1 L ∗ [∗ map] i ∈ L, token γ i.

(** The data is shared: a part is in reserve, for a view that every handle of
    the allocation has seen... *)
Definition st_shared γ c M L : iProp Σ :=
  ⌜M ≠ ∅⌝ ∗ ⌜dom L = dom M⌝ ∗
  ∃ q0 B, ⌜(q0 + c)%Qp = 1%Qp⌝ ∗ data_part γ q0 B ∗ ghost_var (wk_base γ) (1/2) B.
(** ... or lent by [get_mut], or being dropped, or dropped. *)
Definition st_lent γ c M L : iProp Σ :=
  ⌜∃ k b a, M = {[k := (b, a, c)]}⌝ ∗ ⌜dom L = dom M⌝ ∗ ⌜(c < 1)%Qp⌝ ∗
  ∃ B : view, ghost_var (wk_base γ) 1 B.
Definition st_dropping M L : iProp Σ := ⌜M = ∅⌝ ∗ ⌜∃ k i, L = {[k := i]}⌝.
Definition st_dropped γ M L : iProp Σ := ⌜M = ∅⌝ ∗ ⌜L = ∅⌝ ∗ ∃ W, data_val (wk_cell γ) 1 VNone W.

Definition strong_proto γ h A : iProp Σ :=
  ∃ M R L c, counter_proto (data_part γ) None (wk_data γ) c M R h ∗ ⌜R ⊆ A⌝ ∗ linked γ L ∗
    (st_shared γ c M L ∨ st_lent γ c M L ∨ st_dropping M L ∨ st_dropped γ M L).

#[global] Instance strong_proto_timeless γ h A : Timeless (strong_proto γ h A).
Proof. apply _. Qed.

(** The view that the handles of the allocation have seen. *)
Definition base γ : Qp → view → iProp Σ := based (wk_base γ).

#[global] Instance base_frac γ : FracView (base γ).
Proof. apply _. Qed.

(** What a handle of the allocation owns. *)
Definition strong_share γ x q W : iProp Σ :=
  at_share (arc_shares (wk_data γ)) (WeakPtr.data_ref_count x) (wk_init γ) (strong_proto γ) q W.
Definition alloc_part γ x q W : iProp Σ :=
  strong_share γ x q W ∗ data_share (wk_cell γ) (WeakPtr.data x) q W ∗ base γ q W.

#[global] Instance alloc_part_frac γ x : FracView (alloc_part γ x).
Proof. apply _. Qed.

(** A handle of the data with the identity [k], which belongs to the handle [i]
    of the allocation. *)
Definition strong_use γ x (k : nat) W : iProp Σ :=
  ∃ b a q, k ↪[arc_handles (wk_data γ)] (b, a, q) ∗
    ⌜Coh (WeakPtr.data_ref_count x) a ∈ W⌝ ∗ data_part γ q W.
Definition strong γ x (k i : nat) W : iProp Σ :=
  strong_use γ x k W ∗ born (wk_data γ) (WeakPtr.data_ref_count x) k W ∗ k ↪[wk_link γ] i.

#[global] Instance strong_use_mono γ x k : ViewMono (strong_use γ x k).
Proof.
  intros W W' Hle. iIntros "(%b & %a & %q & Hk & % & H)". iExists b, a, q. iFrame "Hk".
  iSplit; [iPureIntro; set_solver|]. by iApply (view_mono with "H").
Qed.

#[global] Instance strong_mono γ x k i : ViewMono (strong γ x k i).
Proof.
  intros W W' Hle. iIntros "(H & Hb & $)". mono "H Hb" Hle. iFrame.
Qed.

(** While there is a handle of the data, and a handle of the allocation is in
    use, the data is shared. *)
Lemma states_shared γ c M L k q W :
  is_Some (M !! k) →
  (st_shared γ c M L ∨ st_lent γ c M L ∨ st_dropping M L ∨ st_dropped γ M L) -∗ base γ q W -∗
  st_shared γ c M L ∗ base γ q W.
Proof.
  iIntros ([y Hk]) "[$|[(_ & _ & _ & %B & HB)|[[-> _]|[-> _]]]] Hb"; [done| |done..].
  iDestruct "Hb" as (B') "[Hb _]". iCombine "HB Hb" gives %[Hv _].
  by apply Qp.not_add_le_l in Hv.
Qed.

Lemma linked_insert γ L k i :
  L !! k = None → linked γ L -∗ token γ i ==∗ linked γ (<[k := i]> L) ∗ k ↪[wk_link γ] i.
Proof.
  iIntros (Hk) "[HL Ht] Hi". iMod (ghost_map_insert k i with "HL") as "[$ $]"; [done|].
  rewrite big_sepM_insert //. by iFrame.
Qed.

Lemma linked_delete γ L k i :
  linked γ L -∗ k ↪[wk_link γ] i ==∗ ⌜L !! k = Some i⌝ ∗ linked γ (delete k L) ∗ token γ i.
Proof.
  iIntros "[HL Ht] Hk". iDestruct (ghost_map_lookup with "HL Hk") as %Hk.
  iMod (ghost_map_delete with "HL Hk") as "$". rewrite big_sepM_delete //.
  iDestruct "Ht" as "[$ $]". done.
Qed.

(** *** Loading the counter

    [F] is what is known, [Q] what it says of the values that are read. *)
Definition knows γ x W0 (F : iProp Σ) (Q : Z → Prop) : Prop :=
  ∀ W h t m c M R, W0 ⊆ W → h !! t = Some m → coh_le (WeakPtr.data_ref_count x) h W t →
    counter_proto (data_part γ) None (wk_data γ) c M R h -∗ F -∗ ⌜Q (mval m)⌝.

(** What is read of the counter. *)
Definition counted γ (Q : Z → Prop) (n : Z) : Prop :=
  Q n ∧ (0 <= n <= Z.of_nat (S (arc_budget (wk_data γ))))%Z.

Lemma strong_proto_read γ x W0 F Q W h A t m :
  knows γ x W0 F Q → W0 ⊆ W → h !! t = Some m → coh_le (WeakPtr.data_ref_count x) h W t →
  strong_proto γ h A -∗ F -∗ ⌜counted γ Q (mval m)⌝.
Proof.
  iIntros (HQ HW Hm Hle) "(%M & %R & %L & %c & HPr & _) HF".
  iDestruct (counter_bound with "HPr") as %Hb; [done|].
  iDestruct (HQ with "HPr HF") as %?; [done..|]. done.
Qed.

Lemma strong_proto_grow γ h A A' : A ⊆ A' → strong_proto γ h A -∗ strong_proto γ h A'.
Proof.
  iIntros (Hle) "(%M & %R & %L & %c & HPr & % & H)". iExists M, R, L, c. iFrame.
  iPureIntro. by etrans.
Qed.

Lemma wpp_strong_load γ x q W0 F Q V Φ :
  knows γ x W0 F Q → W0 ⊆ cur V →
  F -∗ alloc_part γ x q (cur V) -∗
  (∀ n V', ⌜V ⊆ V'⌝ -∗ ⌜counted γ Q n⌝ -∗ F -∗ alloc_part γ x q (cur V') -∗ Φ n V') -∗
  wpp (load (WeakPtr.data_ref_count x) Relaxed) V Φ.
Proof.
  iIntros (HQ HW) "HF (Hs & Hd & Hb) HΦ". iApply (wpp_share_load with "Hs"); [done|].
  iIntros "!>" (h A t m e Hm Hle) "HPr". set (V1 := load_view _ _ _ _ _ _).
  assert (V ⊆ V1) as Hle1 by apply load_view_le.
  iDestruct (strong_proto_read with "HPr HF") as %Hn; [done..|].
  iModIntro. iSplitL "HPr"; [iApply (strong_proto_grow with "HPr"); set_solver|].
  iIntros "Hs". iApply ("HΦ" with "[//] [//] HF"). iFrame "Hs".
  iSplitL "Hd"; [iApply (view_mono with "Hd")|iApply (view_mono with "Hb")]; apply Hle1.
Qed.

(** *** A new handle from a weak one *)

Lemma strong_proto_join γ x h A t m m' q W i A' :
  h !! t = Some m → h !! S t = None → mval m ≠ 0%Z → mval m' = (mval m + 1)%Z →
  mview m ⊆ mview m' → A ⊆ A' → Coh (WeakPtr.data_ref_count x) (S t) ∈ W →
  strong_proto γ h A -∗ base γ q W -∗ token γ i -∗
  credit (wk_data γ) (WeakPtr.data_ref_count x) W ==∗
  strong_proto γ (<[S t := m']> h) A' ∗ base γ q W ∗ ∃ k, strong γ x k i W.
Proof.
  iIntros (Hm Hfree Hne Hv Hw HA Hcoh) "(%M & %R & %L & %c & HPr & %HR & HL & Hst) Hb Hi (%n & %tn & Hn & _)".
  iDestruct (counter_newest with "HPr") as %[_ Hsz]; [done..|].
  assert (M ≠ ∅) as HM by (intros ->; by rewrite map_size_empty in Hsz).
  destruct (map_choose M HM) as (k0 & y & Hk0).
  iDestruct (states_shared with "Hst Hb") as "[(_ & %Hdom & %q0 & %B & %Hq & Hres & HB) Hb]"; [by eexists|].
  set (k := fresh (dom M)). assert (M !! k = None) as Hk by apply not_elem_of_dom, is_fresh.
  iMod (counter_join _ _ _ _ _ _ _ _ _ _ (q0 / 2)%Qp k with "HPr Hn") as "(_ & HPr & Hk & Hk')"; [done..|].
  iMod (linked_insert _ _ k i with "HL Hi") as "[HL Hl]".
  { apply not_elem_of_dom. rewrite Hdom. by apply not_elem_of_dom. }
  rewrite (frac_view_div_2 (data_part γ)). iDestruct "Hres" as "[Hres Hnew]".
  iDestruct "Hb" as (B') "[Hb %HB']". iDestruct (ghost_var_agree with "HB Hb") as %<-.
  iModIntro. iSplitL "HPr HL Hres HB".
  { iExists _, R, _, _. iFrame "HPr HL". iSplit; [iPureIntro; by etrans|]. iLeft.
    iSplit; [iPureIntro; apply insert_non_empty|]. iSplit; [iPureIntro; by rewrite !dom_insert_L Hdom|].
    iExists _, B. iFrame "Hres HB". iPureIntro.
    by rewrite (comm_L Qp.add c) assoc_L Qp.div_2. }
  iSplitL "Hb"; [iExists B; by iFrame|]. iExists k. iFrame "Hl".
  iSplitR "Hk'"; [|iExists _; by iFrame "Hk'"]. iExists _, _, _. iFrame "Hk".
  iSplit; [done|]. by iApply (view_mono with "Hnew").
Qed.

Lemma wpp_strong_cas γ x q W0 F Q i n V Φ :
  knows γ x W0 F Q → W0 ⊆ cur V → n ≠ 0%Z →
  F -∗ alloc_part γ x q (cur V) -∗ token γ i -∗
  credit (wk_data γ) (WeakPtr.data_ref_count x) (cur V) -∗
  (∀ k V', ⌜V ⊆ V'⌝ -∗ F -∗ alloc_part γ x q (cur V') -∗ strong γ x k i (cur V') -∗
     Φ (inl n) V') ∧
  (∀ e V', ⌜V ⊆ V'⌝ -∗ ⌜counted γ Q e⌝ -∗ F -∗ alloc_part γ x q (cur V') -∗ token γ i -∗
     credit (wk_data γ) (WeakPtr.data_ref_count x) (cur V') -∗ Φ (inr e) V') -∗
  wpp (compare_exchange_weak (WeakPtr.data_ref_count x) n (n + 1) Relaxed Relaxed) V Φ.
Proof.
  iIntros (HQ HW Hn) "HF (Hs & Hd & Hb) Hi Hk HΦ". iApply wpp_bind.
  iApply (wpp_share_rmw with "Hs"); [done..|].
  iIntros "!>" (h A t m e Hm Hle) "HPr".
  iDestruct (strong_proto_read with "HPr HF") as %Hcnt; [done..|]. iSplit.
  - iIntros (z Hz Hfree). set (V1 := rmw_view _ _ _ _ _ _). iDestruct "HΦ" as "[HΦ _]".
    assert (V ⊆ V1) as Hle1 by apply rmw_view_le.
    revert Hz. rewrite /cas_fun. destruct (Z.eqb_spec (mval m) n) as [<-|]; [|done]. intros [= <-].
    iMod (strong_proto_join _ x _ _ _ _ _ _ (cur V1) with "HPr [Hb] Hi [Hk]") as "($ & Hb & %k & Hst)".
    + exact Hm.
    + exact Hfree.
    + exact Hn.
    + done.
    + simpl. set_solver.
    + apply union_subseteq_l.
    + apply rmw_view_coh.
    + iApply (view_mono with "Hb"). apply Hle1.
    + iApply (view_mono with "Hk"). apply Hle1.
    + iIntros "!> Hs". iApply wpp_ret. iApply ("HΦ" with "[//] HF [Hs Hd Hb] Hst"). iFrame "Hs Hb".
      iApply (view_mono with "Hd"). apply Hle1.
  - set (V1 := load_view _ _ _ _ _ _). iIntros (_). iDestruct "HΦ" as "[_ HΦ]".
    assert (V ⊆ V1) as Hle1 by apply load_view_le. iModIntro.
    iSplitL "HPr"; [iApply (strong_proto_grow with "HPr"); set_solver|]. iIntros "Hs". iApply wpp_ret.
    iApply ("HΦ" with "[//] [//] HF [Hs Hd Hb] Hi [Hk]").
    + iFrame "Hs". iSplitL "Hd"; [iApply (view_mono with "Hd")|iApply (view_mono with "Hb")]; apply Hle1.
    + iApply (view_mono with "Hk"). apply Hle1.
Qed.

(** Opening the protocol between two steps. *)
Lemma strong_acc γ x q W :
  strong_share γ x q W ={⊤,⊤ ∖ ↑shareN}=∗ ∃ h A, strong_proto γ h A ∗
    (⌜q = 1%Qp → A ⊆ W⌝) ∗
    (strong_proto γ h A ={⊤ ∖ ↑shareN,⊤}=∗ strong_share γ x q W).
Proof.
  iIntros "(#Hc & %HB & HS)".
  iMod (share_acc with "Hc HS")
    as "((%h & %N & %A & %A' & >Hl & >%HN & >HA & >%HA & >%Hne & >HPr) & HS & Hclose)".
  iAssert ⌜q = 1%Qp → A' ⊆ W⌝%I as %Hall.
  { iIntros (->). iApply (accesses_all with "HA HS"). }
  iModIntro. iExists h, A'. iFrame "HPr". iSplit; [done|]. iIntros "HPr".
  iMod ("Hclose" with "[Hl HA HPr]") as "_".
  { iNext. iExists h, N, A, A'. by iFrame. }
  iModIntro. by iFrame "Hc HS".
Qed.

(** The handle [k] of the data goes from the handle [i] to the handle [j]. *)
Lemma strong_relink γ x q W k i j :
  alloc_part γ x q W -∗ strong γ x k i W -∗ token γ j ={⊤}=∗
  alloc_part γ x q W ∗ strong γ x k j W ∗ token γ i.
Proof.
  iIntros "(Hs & $ & Hb) [(%b & %a & %q' & Hk & Hrest) [$ Hl]] Hj".
  iMod (strong_acc with "Hs") as (h A) "((%M & %R & %L & %c & HPr & %HR & HL & Hst) & _ & Hclose)".
  iDestruct (counter_handle with "HPr Hk") as %Hk.
  iDestruct (states_shared with "Hst Hb") as "[(%Hne & %Hdom & Hres) $]"; [by eexists|].
  iMod (linked_delete with "HL Hl") as "(%HLk & HL & $)".
  iMod (linked_insert _ _ k j with "HL Hj") as "[HL $]"; [apply lookup_delete_eq|].
  rewrite insert_delete_eq. iMod ("Hclose" with "[HPr HL Hres]") as "$".
  { iExists M, R, _, c. iFrame "HPr HL". iSplit; [done|]. iLeft. iFrame "Hres". iSplit; [done|].
    iPureIntro. rewrite dom_insert_L Hdom. apply elem_of_dom_2 in HLk. rewrite Hdom in HLk. set_solver. }
  iModIntro. iExists b, a, q'. iFrame.
Qed.

(** *** A new handle from a handle *)

Lemma wpp_strong_incr γ x q k j V Φ :
  alloc_part γ x q (cur V) -∗ strong_use γ x k (cur V) -∗ token γ j -∗
  credit (wk_data γ) (WeakPtr.data_ref_count x) (cur V) -∗
  (∀ n k' V', ⌜V ⊆ V'⌝ -∗ alloc_part γ x q (cur V') -∗ strong_use γ x k (cur V') -∗
     strong γ x k' j (cur V') -∗ Φ n V') -∗
  wpp (fetch_add usize_modulus (WeakPtr.data_ref_count x) 1 Relaxed) V Φ.
Proof.
  iIntros "(Hs & Hd & Hb) (%b & %a & %q' & Hk & %Ha & Hp) Hj (%n & %tn & Hn & _) HΦ".
  iApply wpp_bind. iApply (wpp_share_rmw with "Hs"); [done..|].
  iIntros "!>" (h A t m e Hm Hle) "(%M & %R & %L & %c & HPr & %HR & HL & Hst)".
  iSplit; [|by iIntros ([?|?])].
  iIntros (z [= <-] Hfree). set (V1 := rmw_view _ _ _ _ _ _).
  assert (V ⊆ V1) as Hle1 by apply rmw_view_le.
  iDestruct (counter_handle with "HPr Hk") as %Hk.
  iDestruct (states_shared with "Hst Hb") as "[(%Hne & %Hdom & Hres) Hb]"; [by eexists|].
  set (k' := fresh (dom M)). assert (M !! k' = None) as Hk' by apply not_elem_of_dom, is_fresh.
  iMod (counter_clone _ _ _ _ _ _ _ _ _ (rmw_msg Relaxed (mval m + 1) m V1) with "HPr Hk Hn")
    as "(%Hlt & HPr & Hk & Hnew & Hnew')"; [done..|simpl; set_solver|].
  rewrite wrap_add_small; [|rewrite /usize_MAX in Hlt; lia].
  iMod (linked_insert _ _ k' j with "HL Hj") as "[HL Hl']".
  { apply not_elem_of_dom. rewrite Hdom. by apply not_elem_of_dom. }
  iModIntro. iSplitL "HPr HL Hres".
  { iExists _, R, _, c. iFrame "HPr HL". iSplit; [iPureIntro; set_solver|]. iLeft. iFrame "Hres".
    iPureIntro. split; [apply insert_non_empty|]. rewrite !dom_insert_L Hdom.
    apply elem_of_dom_2 in Hk. set_solver. }
  iIntros "Hs". iApply wpp_ret. rewrite (frac_view_div_2 (data_part γ)). iDestruct "Hp" as "[Hp1 Hp2]".
  iApply ("HΦ" with "[//] [Hs Hd Hb] [Hk Hp1] [Hnew Hp2 Hnew' Hl']").
  - iFrame "Hs". iSplitL "Hd"; [iApply (view_mono with "Hd")|iApply (view_mono with "Hb")]; apply Hle1.
  - mono "Hp1" Hle1. iExists _, _, _. iFrame "Hk Hp1". iPureIntro. apply rmw_view_coh.
  - mono "Hp2" Hle1. iFrame "Hl'". iSplitR "Hnew'".
    + iExists _, _, _. iFrame "Hnew Hp2". iPureIntro. apply rmw_view_coh.
    + iExists _. iFrame "Hnew'". iPureIntro. apply rmw_view_coh.
Qed.

(** *** Dropping a handle *)

(** The state after a drop: the token comes back, unless it was the last. *)
Lemma strong_proto_drop γ h t m A A' W k i b a q' q W2 :
  h !! t = Some m → h !! S t = None → A ∪ W ⊆ A' →
  strong_proto γ h A -∗ base γ q W2 -∗ k ↪[arc_handles (wk_data γ)] (b, a, q') -∗
  alive (wk_data γ) k -∗ k ↪[wk_link γ] i -∗ data_part γ q' W ==∗
  ⌜(1 <= mval m <= usize_MAX)%Z⌝ ∗
  strong_proto γ (<[S t := Msg (mval m - 1) (W ∪ mview m)]> h) A' ∗ base γ q W2 ∗
  (∃ n : nat, n ↪[arc_credits (wk_data γ)] S t) ∗
  (⌜mval m = 1%Z⌝ ∗ gone (wk_data γ) (S t) ∗ k ↪[wk_link γ] i ∗
     data_part γ 1 (W ∪ mview m ∪ W2) ∨
   ⌜mval m ≠ 1%Z⌝ ∗ token γ i).
Proof.
  iIntros (Hm Hfree HA) "(%M & %R & %L & %c & HPr & %HR & HL & Hst) Hb Hk Hk' Hl Hp".
  iDestruct (counter_handle with "HPr Hk") as %Hk.
  iDestruct (states_shared with "Hst Hb") as "[(%Hne & %Hdom & %q0 & %B & %Hq & Hres & HB) Hb]"; [by eexists|].
  iMod (counter_drop _ _ _ _ _ _ _ t m with "HPr Hk Hk' Hp") as "(% & %Hsz & _ & %HRm & HPr & Hcr & Hlast)"; [done..|].
  iSplitR; [done|].
  iDestruct "Hlast" as "[(%H1 & Hg & Hc)|%H1]".
  - assert (M = {[k := (b, a, q')]}) as HM by (apply map_size_1_inv; [done|lia]).
    iDestruct "Hb" as (B') "[Hb %HB']". iDestruct (ghost_var_agree with "HB Hb") as %<-.
    iModIntro. iSplitL "HPr HL".
    { iExists _, _, L, c. iFrame "HPr HL". iSplit; [iPureIntro; set_solver|]. iRight. iRight. iLeft.
      iPureIntro. rewrite HM delete_singleton_eq. split; [done|]. rewrite HM dom_singleton_L in Hdom.
      apply dom_singleton_inv_L in Hdom as [i' ->]. by eexists _, _. }
    iSplitL "Hb"; [iExists B; by iFrame|]. iSplitL "Hcr"; [done|]. iLeft. iFrame "Hg Hl".
    iSplit; [done|]. rewrite -Hq (frac_view_split (P := data_part γ)). iSplitL "Hres"; [iApply (view_mono with "Hres"); set_solver|].
    iApply (view_mono with "Hc"). set_solver.
  - iMod (linked_delete with "HL Hl") as "(%HLk & HL & Hi)". iModIntro.
    iSplitR "Hb Hcr Hi"; [|iFrame "Hb"; iSplitL "Hcr"; [done|]; iRight; by iFrame "Hi"].
    iExists _, _, _, c. iFrame "HPr HL". iSplit; [iPureIntro; set_solver|]. iLeft.
    iSplit; [|iSplit; [by rewrite !dom_delete_L Hdom|iExists q0, B; by iFrame]].
    iPureIntro. intros Hd. apply (f_equal size) in Hd. rewrite map_size_empty map_size_delete_Some in Hd; [|by eexists].
    lia.
Qed.

(** What the last handle of the data finds. *)
Definition last_strong γ x k i V : iProp Σ :=
  ∃ t W, gone (wk_data γ) t ∗ ⌜Coh (WeakPtr.data_ref_count x) t ∈ cur V⌝ ∗
    ⌜W ⊆ acq V ∪ cur V⌝ ∗ data_part γ 1 W ∗ k ↪[wk_link γ] i.

Lemma wpp_strong_decr γ x q k i (F : iProp Σ) (Q : Z → Prop) V Φ :
  (∀ h t m c M R b a q', h !! t = Some m → h !! S t = None →
     coh_le (WeakPtr.data_ref_count x) h (cur V) t →
     Coh (WeakPtr.data_ref_count x) a ∈ cur V →
     counter_proto (data_part γ) None (wk_data γ) c M R h -∗
     k ↪[arc_handles (wk_data γ)] (b, a, q') -∗ alive (wk_data γ) k -∗ F -∗ ⌜Q (mval m)⌝) →
  F -∗ alloc_part γ x q (cur V) -∗ strong γ x k i (cur V) -∗
  (∀ n V', ⌜V ⊆ V'⌝ -∗ ⌜Q n⌝ -∗ F -∗ alloc_part γ x q (cur V') -∗
     credit (wk_data γ) (WeakPtr.data_ref_count x) (cur V') -∗
     (⌜n = 1%Z⌝ ∗ last_strong γ x k i V' ∨ ⌜n ≠ 1%Z⌝ ∗ token γ i) -∗ Φ n V') -∗
  wpp (fetch_sub usize_modulus (WeakPtr.data_ref_count x) 1 Release) V Φ.
Proof.
  iIntros (HQ) "HF (Hs & Hd & Hb) [(%b & %a & %q' & Hk & %Ha & Hp) [Hk' Hl]] HΦ".
  iDestruct (born_alive with "Hk'") as "Hk'".
  iApply wpp_bind. iApply (wpp_share_rmw with "Hs"); [done..|].
  iIntros "!>" (h A t m e Hm Hle) "HPr". iSplit; [|by iIntros ([?|?])].
  iIntros (z [= <-] Hfree). set (V1 := rmw_view _ _ _ _ _ _).
  assert (V ⊆ V1) as Hle1 by apply rmw_view_le.
  iAssert ⌜Q (mval m)⌝%I as %Hn.
  { iDestruct "HPr" as (M R L c) "[HPr _]". iApply (HQ with "HPr Hk Hk' HF"); done. }
  iMod (strong_proto_drop _ _ _ _ A (A ∪ cur V1) (cur V1) with "HPr Hb Hk Hk' Hl [Hp]")
    as "(%Hlt & HPr & Hb & (%n & Hcr) & Hlast)"; [done..| |].
  { iApply (view_mono with "Hp"). apply Hle1. }
  rewrite wrap_add_small; [|rewrite /usize_MAX in Hlt; lia].
  iModIntro. iFrame "HPr". iIntros "Hs". iApply wpp_ret.
  iApply ("HΦ" with "[//] [//] HF [Hs Hd Hb] [Hcr]").
  { iFrame "Hs". iSplitL "Hd"; [iApply (view_mono with "Hd")|iApply (view_mono with "Hb")]; apply Hle1. }
  { iExists n, (S t). iFrame. iPureIntro. apply rmw_view_coh. }
  iDestruct "Hlast" as "[(% & Hg & Hl & Hp)|[% Hi]]"; [iLeft|iRight; by iFrame]. iSplit; [done|].
  iExists (S t), _. iFrame "Hg Hp Hl". iPureIntro. split; [apply rmw_view_coh|].
  pose proof (rmw_view_later Release (WeakPtr.data_ref_count x) t m e V). destruct Hle1. set_solver.
Qed.

(** The data was dropped: the handle of the allocation is whole again. *)
Lemma strong_finish γ x q W W' k i :
  alloc_part γ x q W -∗ k ↪[wk_link γ] i -∗ data_val (wk_cell γ) 1 VNone W' ={⊤}=∗
  alloc_part γ x q W ∗ token γ i.
Proof.
  iIntros "(Hs & $ & Hb) Hl Hv".
  iMod (strong_acc with "Hs") as (h A) "((%M & %R & %L & %c & HPr & %HR & HL & Hst) & _ & Hclose)".
  iMod (linked_delete with "HL Hl") as "(%HLk & HL & $)".
  iDestruct "Hst" as "[(_ & _ & %q0 & %B & _ & (%v & Hv' & _) & _)|[(_ & _ & _ & %B & HB)|[[%HM %HL]|(_ & %HL & _)]]]".
  - by iDestruct (data_val_exclusive with "Hv Hv'") as "[]".
  - iDestruct "Hb" as (B') "[Hb _]". iCombine "HB Hb" gives %[Hv _]. by apply Qp.not_add_le_l in Hv.
  - destruct HL as (k' & i' & ->). apply lookup_singleton_Some in HLk as [-> ->].
    iFrame "Hb". iMod ("Hclose" with "[HPr HL Hv]") as "$"; [|done].
    iExists M, R, _, c. iFrame "HPr HL". iSplit; [done|]. do 3 iRight. iSplit; [done|].
    iSplit; [by rewrite delete_singleton_eq|]. by iExists _.
  - by rewrite HL lookup_empty in HLk.
Qed.

(** Who has all of the allocation takes the counter down; either the data was
    dropped, or some handle of the allocation is still there. *)
Lemma strong_cancel γ x W :
  strong_share γ x 1 W ={⊤}=∗ ∃ h N A, WeakPtr.data_ref_count x ↦ CAtomic h N A ∗ ⌜A ⊆ W⌝ ∗
    ((∃ W', data_val (wk_cell γ) 1 VNone W') ∨ ∃ i, token γ i).
Proof.
  iIntros "Hs". iMod (at_share_cancel with "Hs") as (h N A A') "(Hl & %HA & _ & _ & >HPr)"; [done|].
  iModIntro. iExists h, N, A. iFrame "Hl". iSplit; [done|].
  iDestruct "HPr" as (M R L c) "(_ & _ & [_ HL] & Hst)".
  destruct (decide (L = ∅)) as [->|Hne].
  - iLeft. iDestruct "Hst" as "[(%HM & %Hd & _)|[(%HM & %Hd & _)|[[_ %Hd]|(_ & _ & $)]]]".
    + exfalso. apply HM, dom_empty_inv_L. by rewrite -Hd dom_empty_L.
    + destruct HM as (k & b & a & ->). by rewrite dom_singleton_L dom_empty_L in Hd; set_solver.
    + by destruct Hd as (k & i & Hd%symmetry%map_non_empty_singleton).
  - iRight. destruct (map_choose L Hne) as (k & i & Hk). iExists i.
    by iDestruct (big_sepM_lookup with "HL") as "$".
Qed.

(** *** Lending the data

    The handle [k] is the only one: it takes the reserve and what the others
    returned... *)
Lemma strong_proto_lend γ h c M R L k b a q W :
  (∀ k', is_Some (L !! k') → k' = k) → R ⊆ W →
  counter_proto (data_part γ) None (wk_data γ) c M R h -∗ st_shared γ c M L -∗ base γ 1 W -∗
  k ↪[arc_handles (wk_data γ)] (b, a, q) -∗ data_part γ q W ==∗
  ∃ M', counter_proto (data_part γ) None (wk_data γ) c M' R h ∗ st_lent γ c M' L ∗
    k ↪[arc_handles (wk_data γ)] (b, a, c) ∗ data_part γ 1 W.
Proof.
  iIntros (HL HR) "HPr (_ & %Hdom & %q0 & %B & %Hq & Hres & HB) (%B' & HB' & %HB) Hk Hp".
  iDestruct (counter_handle with "HPr Hk") as %Hk.
  assert (M = {[k := (b, a, q)]}) as ->.
  { apply map_eq. intros k'. destruct (decide (k' = k)) as [->|Hne].
    - by rewrite Hk lookup_singleton_eq.
    - rewrite lookup_singleton_ne //. apply not_elem_of_dom. rewrite -Hdom.
      intros Hk'%elem_of_dom. by apply Hne, HL. }
  iMod (counter_take with "HPr Hk") as "(HPr & Hk & %r & %t & %m & _ & _ & %Hr & _ & Hret)".
  iDestruct (returned_add (data_part γ) _ _ W with "[Hret] Hp") as (r' Hr') "Hret".
  { by iApply (returned_mono with "Hret"). }
  iDestruct (returned_full _ _ c with "Hret") as "Hp"; [by rewrite Hr'|].
  iDestruct (ghost_var_agree with "HB HB'") as %<-. iCombine "HB HB'" as "HB".
  iModIntro. iExists _. iFrame "HPr Hk". iSplitL "HB".
  - iSplit; [iPureIntro; by eexists _, _, _|].
    iSplit; [by rewrite Hdom !dom_singleton_L|]. iSplit; [|by iExists B].
    iPureIntro. rewrite -Hq. apply Qp.lt_add_r.
  - rewrite -Hq (frac_view_split (P := data_part γ)). iFrame "Hp".
    by iApply (view_mono with "Hres").
Qed.

(** ... and gives it back. *)
Lemma strong_proto_return γ h A k b a c W :
  strong_proto γ h A -∗ k ↪[arc_handles (wk_data γ)] (b, a, c) -∗ data_part γ 1 W ==∗
  strong_proto γ h A ∗ k ↪[arc_handles (wk_data γ)] (b, a, c) ∗ data_part γ c W ∗ base γ 1 W.
Proof.
  iIntros "(%M & %R & %L & %c' & HPr & %HR & HL & Hst) Hk Hp".
  iDestruct (counter_handle with "HPr Hk") as %Hk.
  iDestruct "Hst" as "[(_ & _ & %q0 & %B & _ & Hp' & _)|[(%HM & %Hdom & %Hc & %B & HB)|[[-> _]|[-> _]]]]";
    [by iDestruct (cell_part_exclusive with "Hp Hp'") as "[]"| |done..].
  destruct HM as (k' & b' & a' & ->). apply lookup_singleton_Some in Hk as [-> [= -> -> ->]].
  apply Qp.lt_sum in Hc as [q0 Hq].
  iEval (rewrite Hq (frac_view_split (P := data_part γ))) in "Hp".
  iDestruct "Hp" as "[Hp Hr]". iMod (ghost_var_update W with "HB") as "[HB HB']".
  iModIntro. iFrame "Hk Hp". iSplitR "HB'"; [|iExists W; by iFrame].
  iExists _, R, L, c. iFrame "HPr HL". iSplit; [done|]. iLeft.
  iSplit; [iPureIntro; apply insert_non_empty|]. iSplit; [done|].
  iExists q0, W. iFrame. iPureIntro. by rewrite Hq (comm_L Qp.add).
Qed.

(** *** A new counter, with one handle, and the other half of the data in reserve *)
Lemma strong_alloc x (γi : gname) n N A W v E :
  (Z.of_nat (S n) <= usize_MAX)%Z → N ∪ A ⊆ W → Coh (WeakPtr.data_ref_count x) 0 ∈ W →
  WeakPtr.data_ref_count x ↦ CAtomic {[0 := Msg 1 ∅]} N A -∗
  own_na (WeakPtr.data x) (VSome v) W -∗ T 1 v -∗ 0 ↪[γi] 0 ={E}=∗
  ∃ γ, ⌜wk_ids γ = γi⌝ ∗ ⌜arc_budget (wk_data γ) = n⌝ ∗ alloc_part γ x 1 W ∗ strong γ x 0 0 W ∗
    [∗ list] _ ∈ seq 0 n, credit (wk_data γ) (WeakPtr.data_ref_count x) W.
Proof.
  iIntros (Hn HA Hcoh) "Hl Hp HT Hi".
  iMod (counter_new None (1/2) n Hn) as (γh γj γk γg) "(HPr & Hh & Hj & Hk)".
  iMod (data_alloc with "Hp") as (γc) "[Hd Hv]".
  iMod (ghost_var_alloc W) as (γb) "[Hb Hb']".
  iMod (ghost_map_alloc ({[0 := 0]} : gmap nat nat)) as (γl) "[HL Hl0]".
  rewrite big_sepM_singleton.
  set (γ γs := WeakName γi (ArcName γs γh γj γk γg n) N γc γb γl).
  iAssert (data_part (γ (γi, γi)) 1 W) with "[Hv HT]" as "Hp"; [iExists v; by iFrame|].
  rewrite (frac_view_div_2 (data_part _)). iDestruct "Hp" as "[Hp Hr]".
  iMod (at_share_alloc N _ _ _ _ (λ γs, strong_proto (γ γs)) W with "Hl [HPr HL Hi Hr Hb]")
    as (γs) "Hs"; [done|done|apply insert_non_empty| |].
  { iIntros (γs). iExists _, ∅, {[0 := 0]}, (1/2)%Qp. iSplitL "HPr"; [iApply "HPr"|].
    iSplit; [done|]. iSplitL "HL Hi".
    { iFrame "HL". rewrite big_sepM_singleton. by iExists 0. }
    iLeft. do 2 (iSplit; [done|]). iExists (1/2)%Qp, W. iSplit; [by rewrite Qp.div_2|]. iFrame. }
  iModIntro. iExists (γ γs). do 2 (iSplit; [done|]). iFrame "Hs Hd". iSplitL "Hb'".
  { iExists W. by iFrame. }
  iSplitR "Hk"; [|by iApply (credits_init (ArcName γs γh γj γk γg n) with "Hk")].
  iFrame "Hl0". iSplitR "Hj"; [|iExists 0; by iFrame]. iExists 0, 0, (1/2)%Qp. by iFrame.
Qed.
End strong.
