(* ===== verification/WeakArc.v ===== *)
(** * The operations of 06-02

    What each method of [Weak] and [Arc] of 06-02_weak-pointer.rs does with the
    handles: [weak γ i x] is a weak pointer and [strong_arc γ i k x] an [Arc]
    to the allocation [x]. *)

From iris.proofmode Require Import proofmode.
From iris.base_logic.lib Require Import invariants cancelable_invariants ghost_map ghost_var.
From S2P Require Import Prelude Memory History Lang Logic Rules Std Shares Counted Arc.
From S2P Require Import WeakApi DataCell Weak.

Section handles.
Context `{!rustGS Σ, !weakG Σ}.
Context (T : Qp → val → iProp Σ) `{!FracVal T}.
Implicit Types (γ : arc_name * weak_name) (x : WeakPtr.ArcData) (V : tview) (W : view).
Implicit Types (i j k : nat).

(** The handles of the allocation have the tokens that the protocol of the data
    counter keeps, and the counter of the data stays below its maximum. *)
Definition names_ok γ : Prop :=
  arc_ids γ.1 = wk_ids γ.2 ∧ (Z.of_nat (S (arc_budget (wk_data γ.2))) < usize_MAX)%Z.

Abbreviation shown γ i x W :=
  (arc_shown (alloc_part T γ.2 x) γ.1 i (WeakPtr.alloc_ref_count x) W).

Definition weak γ i x W : iProp Σ := ⌜names_ok γ⌝ ∗ shown γ i x W ∗ token γ.2 i.
Definition strong_arc γ i k x W : iProp Σ :=
  ⌜names_ok γ⌝ ∗ shown γ i x W ∗ strong T γ.2 x k i W.

(** An [Arc] without the token that is needed to drop it. *)
Definition arc_use γ i k x W : iProp Σ :=
  ⌜names_ok γ⌝ ∗ shown γ i x W ∗ strong_use T γ.2 x k W ∗ k ↪[wk_link γ.2] i.
Abbreviation arc_born γ k x W := (born (wk_data γ.2) (WeakPtr.data_ref_count x) k W).

Lemma strong_arc_use γ i k x W : strong_arc γ i k x W ⊣⊢ arc_use γ i k x W ∗ arc_born γ k x W.
Proof.
  iSplit.
  - iIntros "($ & $ & $ & $ & $)".
  - iIntros "[($ & $ & $ & $) $]".
Qed.

#[global] Instance arc_use_mono γ i k x : ViewMono (arc_use γ i k x).
Proof.
  intros W W' Hle. iIntros "($ & H & Hs & $)". iSplitL "H"; [by iApply (arc_shown_mono with "H")|].
  by iApply (view_mono with "Hs").
Qed.

(** The rights to make one more handle of either kind. *)
Abbreviation alloc_credit γ x W := (credit γ.1 (WeakPtr.alloc_ref_count x) W).
Abbreviation data_credit γ x W := (credit (wk_data γ.2) (WeakPtr.data_ref_count x) W).

#[global] Instance weak_mono γ i x : ViewMono (weak γ i x).
Proof. intros W W' Hle. iIntros "($ & H & $)". by iApply (arc_shown_mono with "H"). Qed.
#[global] Instance strong_arc_mono γ i k x : ViewMono (strong_arc γ i k x).
Proof.
  intros W W' Hle. iIntros "($ & H & Hs)". iSplitL "H"; [by iApply (arc_shown_mono with "H")|].
  by iApply (view_mono with "Hs").
Qed.

Lemma token_alive γ i : names_ok γ → token γ.2 i ⊣⊢ alive γ.1 i.
Proof. intros [Hi _]. by rewrite /token /alive /alive_since Hi. Qed.

Lemma wpp_clone_weak γ i x V Φ :
  names_ok γ → shown γ i x (cur V) -∗ alloc_credit γ x (cur V) -∗
  (∀ j V', ⌜V ⊆ V'⌝ -∗ shown γ i x (cur V') -∗ weak γ j x (cur V') -∗
     Φ (WeakPtr.MkWeak x) V') -∗
  wpp (WeakPtr.clone_weak (WeakPtr.MkWeak x)) V Φ.
Proof.
  iIntros (Hok) "Ha Hk HΦ". iApply wpp_bind. iApply (wpp_arc_incr with "Ha Hk").
  iIntros (n j V' Hle) "Hi [Hj Hd]". case_match; [iApply wpp_abort|]. iApply wpp_ret.
  iApply ("HΦ" with "[//] Hi"). iFrame "Hj". iSplit; [done|]. by rewrite token_alive.
Qed.

(** [Arc::downgrade] *)
Lemma wpp_downgrade γ i k x V Φ :
  arc_use γ i k x (cur V) -∗ alloc_credit γ x (cur V) -∗
  (∀ j V', ⌜V ⊆ V'⌝ -∗ arc_use γ i k x (cur V') -∗ weak γ j x (cur V') -∗
     Φ (WeakPtr.MkWeak x) V') -∗
  wpp (WeakPtr.downgrade (WeakPtr.MkArc (WeakPtr.MkWeak x))) V Φ.
Proof.
  iIntros "(%Hok & Ha & Hs & Hl) Hk HΦ". iApply (wpp_clone_weak with "Ha Hk"); [done|].
  iIntros (j V' Hle) "Ha Hj". mono "Hs" Hle. by iApply ("HΦ" with "[//] [$Ha $Hs $Hl] Hj").
Qed.

(** [Weak::clone] *)
Lemma wpp_weak_clone γ i x V Φ :
  weak γ i x (cur V) -∗ alloc_credit γ x (cur V) -∗
  (∀ j V', ⌜V ⊆ V'⌝ -∗ weak γ i x (cur V') -∗ weak γ j x (cur V') -∗ Φ (WeakPtr.MkWeak x) V') -∗
  wpp (WeakPtr.clone_weak (WeakPtr.MkWeak x)) V Φ.
Proof.
  iIntros "(%Hok & Ha & Hi) Hk HΦ". iApply (wpp_clone_weak with "Ha Hk"); [done|].
  iIntros (j V' Hle) "Ha Hj". iApply ("HΦ" with "[//] [Ha Hi] Hj"). by iFrame.
Qed.

(** [Arc::clone] *)
Lemma wpp_arc_clone_strong γ i k x V Φ :
  arc_use γ i k x (cur V) -∗ alloc_credit γ x (cur V) -∗ data_credit γ x (cur V) -∗
  (∀ j k' V', ⌜V ⊆ V'⌝ -∗ arc_use γ i k x (cur V') -∗ strong_arc γ j k' x (cur V') -∗
     Φ (WeakPtr.MkArc (WeakPtr.MkWeak x)) V') -∗
  wpp (WeakPtr.clone (WeakPtr.MkArc (WeakPtr.MkWeak x))) V Φ.
Proof.
  iIntros "(%Hok & Ha & Hs & Hl) Hk Hk' HΦ". iApply wpp_bind.
  iApply (wpp_clone_weak with "Ha Hk"); [done|].
  iIntros (j V1 Hle1) "Ha (_ & Hj & Hd)". iApply wpp_bind. mono "Hs Hk'" Hle1.
  iDestruct (arc_shown_data with "Ha") as (q) "[Hp Ha]".
  iApply (wpp_strong_incr with "Hp Hs Hd Hk'").
  iIntros (n k' V2 Hle2) "Hp Hs Hs'". iDestruct ("Ha" with "[%] Hp") as "Ha"; [apply Hle2|].
  iDestruct (arc_shown_mono with "Hj") as "Hj"; [apply Hle2|].
  case_match; [iApply wpp_abort|]. iApply wpp_ret.
  iApply ("HΦ" with "[%] [$Ha $Hs $Hl //] [$Hj $Hs' //]"). by etrans.
Qed.

(** What [Weak::upgrade] promises; [F] is what is known about the count. *)
Definition upgrade_post γ i x F (Q : Z → Prop) V (Φ : option WeakPtr.Arc → tview → iProp Σ)
    : iProp Σ :=
  (∀ V', ⌜V ⊆ V'⌝ -∗ ⌜Q 0%Z⌝ -∗ F -∗ weak γ i x (cur V') -∗ alloc_credit γ x (cur V') -∗
     data_credit γ x (cur V') -∗ Φ None V') ∧
  (∀ j k n V', ⌜V ⊆ V'⌝ -∗ ⌜Q n ∧ n ≠ 0%Z⌝ -∗ F -∗ weak γ i x (cur V') -∗
     strong_arc γ j k x (cur V') -∗ Φ (Some (WeakPtr.MkArc (WeakPtr.MkWeak x))) V').

Lemma wpp_upgrade γ i x W0 F Q V Φ :
  knows T γ.2 x W0 F Q → W0 ⊆ cur V →
  F -∗ weak γ i x (cur V) -∗ alloc_credit γ x (cur V) -∗ data_credit γ x (cur V) -∗
  upgrade_post γ i x F Q V Φ -∗
  wpp (WeakPtr.upgrade (WeakPtr.MkWeak x)) V Φ.
Proof.
  iIntros (HQ HW) "HF (%Hok & Ha & Hi) Hk Hk' HΦ". iApply wpp_bind.
  iDestruct (arc_shown_data with "Ha") as (q) "[Hp Ha]".
  iApply (wpp_strong_load with "HF Hp"); [done..|]. iIntros (n V1 Hle1 Hn) "HF Hp".
  iDestruct ("Ha" with "[%] Hp") as "Ha"; [apply Hle1|].
  iApply (wpp_loop (λ n V', ⌜V ⊆ V'⌝ ∗ ⌜counted γ.2 Q n⌝ ∗ F ∗ weak γ i x (cur V') ∗
    alloc_credit γ x (cur V') ∗ data_credit γ x (cur V') ∗ upgrade_post γ i x F Q V Φ)%I with "[] [$HF $Ha $Hi Hk Hk' $HΦ]").
  2: { do 3 (iSplit; [done|]). iSplitL "Hk"; [iApply (view_mono with "Hk"); apply Hle1|].
       iApply (view_mono with "Hk'"). apply Hle1. }
  clear n Hn. iIntros "!>" (n V2 _) "(%Hle2 & %Hn & HF & (_ & Ha & Hi) & Hk & Hk' & HΦ)".
  destruct (Z.eqb_spec n 0) as [->|Hne].
  { iApply wpp_ret. iDestruct "HΦ" as "[HΦ _]".
    iApply ("HΦ" with "[//] [%] HF [$Ha $Hi //] Hk Hk'"). apply Hn. }
  iApply wpp_bind. rewrite /assert. destruct (Z.ltb_spec n usize_MAX); last first.
  { destruct Hn as [_ Hn], Hok as [_ Hmax]. lia. }
  iApply wpp_ret. iApply wpp_bind. iDestruct (arc_shown_data with "Ha") as (q') "[Hp Ha]".
  iApply (wpp_strong_cas with "HF Hp Hi Hk'"); [done|etrans; [done|apply Hle2]|done|]. iSplit.
  - iIntros (k V3 Hle3) "HF Hp Hs". iDestruct ("Ha" with "[%] Hp") as "Ha"; [apply Hle3|].
    iApply wpp_bind. iApply (wpp_clone_weak with "Ha [Hk]"); [done| |].
    { iApply (view_mono with "Hk"). apply Hle3. }
    iIntros (j V4 Hle4) "Ha (_ & Hj & Hd)".
    iDestruct (view_mono with "Hs") as "Hs"; [apply Hle4|].
    iDestruct (arc_shown_data with "Ha") as (q2) "[Hp Ha]".
    iMod (strong_relink with "Hp Hs Hd") as "(Hp & Hs & Hi)".
    iDestruct ("Ha" with "[//] Hp") as "Ha". iDestruct "HΦ" as "[_ HΦ]". iApply wpp_ret.
    iApply ("HΦ" with "[%] [%] HF [$Ha $Hi //] [$Hj $Hs //]"); [etrans; [done|by etrans]|].
    split; [apply Hn|done].
  - iIntros (e V3 Hle3 He) "HF Hp Hi Hk'". iDestruct ("Ha" with "[%] Hp") as "Ha"; [apply Hle3|].
    iApply wpp_ret. iFrame "HF Ha Hi Hk' HΦ". iSplit; [iPureIntro; by etrans|].
    do 2 (iSplit; [done|]). iApply (view_mono with "Hk"). apply Hle3.
Qed.

(** *** Dropping *)

(** The allocation is freed after the last handle of it: the data is gone. *)
Lemma wpp_drop_box γ glue x V (Φ : unit → tview → iProp Σ) :
  names_ok γ → last_arc (alloc_part T γ.2 x) γ.1 (WeakPtr.alloc_ref_count x) V -∗
  (∀ V', ⌜V ⊆ V'⌝ -∗ Φ tt V') -∗
  wpp (fence Acquire;; WeakPtr.drop_box glue x) V Φ.
Proof.
  iIntros (Hok) "(%N & %W & %t & #Hc & _ & %HW & #Hg & HS & Hp) HΦ".
  iApply wpp_bind. iApply wpp_acquire_fence. iIntros (V1 Hle1 Hacq).
  iDestruct (view_mono _ (cur V1) with "Hp") as "(Hs & Hd & _)"; [by etrans|].
  iMod (strong_cancel with "Hs") as (h N' A) "(Hl & %HA & [(%W' & Hv)|(%i & Hi)])"; last first.
  { rewrite (token_alive γ) //. by iMod (arc_gone_alive with "Hc Hg HS Hi") as "[]". }
  iMod (data_cancel with "Hd Hv") as "Hd"; [done|].
  iApply wpp_bind. iApply wpp_bind. iApply (wpp_read with "Hd"). iIntros "!>" (V2 Hle2) "Hd".
  iApply wpp_ret. iApply wpp_bind. iApply (wpp_free with "Hd"). iNext.
  iApply wpp_bind. iApply (wpp_free_atomic with "Hl"); [etrans; [done|apply Hle2]|]. iIntros "!> _".
  iApply (wpp_arc_free with "Hc HS").
  { etrans; [exact HW|]. etrans; [exact Hacq|apply Hle2]. }
  iApply "HΦ". iPureIntro. by etrans.
Qed.

Lemma wpp_drop_weak γ i glue x V (Φ : unit → tview → iProp Σ) :
  weak γ i x (cur V) -∗ (∀ V', ⌜V ⊆ V'⌝ -∗ alloc_credit γ x (cur V') -∗ Φ tt V') -∗
  wpp (WeakPtr.drop_weak glue (WeakPtr.MkWeak x)) V Φ.
Proof.
  iIntros "(%Hok & Ha & Hi) HΦ". iApply wpp_bind. rewrite token_alive //.
  iApply (wpp_arc_decr _ True%I (λ _, True) with "[] [//] [$Ha $Hi]"); [by iIntros|].
  iIntros (n V1 Hle1 _) "_ Hk [[-> Hlast]|%Hne]"; last first.
  { rewrite (proj2 (Z.eqb_neq _ _) Hne). iApply wpp_ret. by iApply ("HΦ" with "[//] Hk"). }
  iApply (wpp_drop_box with "Hlast"); [done|]. iIntros (V2 Hle2).
  iApply ("HΦ" with "[%]"); [by etrans|]. iApply (view_mono with "Hk"). apply Hle2.
Qed.

(** The last [Arc] drops the data and leaves [None]. *)
Lemma wpp_last_drop γ i k glue x V (Φ : unit → tview → iProp Σ) :
  shown γ i x (cur V) -∗ last_strong T γ.2 x k i V -∗
  (∀ v V' t, ⌜V ⊆ V'⌝ -∗ gone (wk_data γ.2) t -∗
     ⌜Coh (WeakPtr.data_ref_count x) t ∈ cur V'⌝ -∗ T 1 v -∗
     wpp (glue v) V' (λ _ V2, ∀ V3, ⌜V2 ⊆ V3⌝ -∗ shown γ i x (cur V3) -∗ token γ.2 i -∗ Φ tt V3)) -∗
  wpp (fence Acquire;;
       with_drop (write (WeakPtr.data x) VNone) (WeakPtr.drop_option glue (WeakPtr.data x))) V Φ.
Proof.
  iIntros "Ha (%t & %W & Hg & %Ht & %HW & Hp & Hl) HΦ".
  iApply wpp_bind. iApply wpp_acquire_fence. iIntros (V1 Hle1 Hacq).
  iDestruct (arc_shown_mono with "Ha") as "Ha"; [apply Hle1|].
  iDestruct (arc_shown_data with "Ha") as (q) "[(Hs & Hd & Hb) Ha]".
  iDestruct "Hp" as (v) "[Hv HT]". iDestruct (view_mono _ (cur V1) with "Hv") as "Hv"; [by etrans|].
  iApply wpp_with_drop. iApply wpp_bind. iApply (wpp_data_read with "Hd Hv").
  iIntros (V2 Hle2) "Hd Hv". iApply (wpp_wand with "[HΦ Hg HT]").
  { iApply ("HΦ" with "[%] Hg [%] HT"); [by etrans|].
    destruct Hle1 as [Hle1 _], Hle2 as [Hle2 _]. by apply Hle2, Hle1. }
  iIntros ([] V3 Hle3) "HΦ". assert (cur V1 ⊆ cur V3) by (etrans; [apply Hle2|apply Hle3]).
  iDestruct (view_mono with "Hd") as "Hd"; [apply Hle3|].
  iDestruct (view_mono with "Hv") as "Hv"; [apply Hle3|].
  iApply wpp_post_fupd. iApply (wpp_data_write with "Hd Hv"). iIntros (V4 Hle4) "Hd Hv".
  iMod (strong_finish T _ _ _ (cur V4) with "[Hs Hd Hb] Hl Hv") as "[Hp Hi]".
  { iFrame "Hd". iSplitL "Hs"; [iApply (view_mono with "Hs")|iApply (view_mono with "Hb")];
      (etrans; [done|apply Hle4]). }
  iModIntro. iApply ("HΦ" with "[//] [Ha Hp] Hi"). iApply ("Ha" with "[%] Hp").
  etrans; [done|apply Hle4].
Qed.

(** [Arc::drop]; [F] and [Q] say what is known of the counts.  The last [Arc]
    drops the data, with what belongs to it. *)
Lemma wpp_strong_drop γ i k glue x (F : iProp Σ) (Q : Z → Prop) V (Φ : unit → tview → iProp Σ) :
  (∀ h t m c M R b a q', h !! t = Some m → h !! S t = None →
     coh_le (WeakPtr.data_ref_count x) h (cur V) t →
     Coh (WeakPtr.data_ref_count x) a ∈ cur V →
     counter_proto (data_part T γ.2) None (wk_data γ.2) c M R h -∗
     k ↪[arc_handles (wk_data γ.2)] (b, a, q') -∗ alive (wk_data γ.2) k -∗ F -∗ ⌜Q (mval m)⌝) →
  F -∗ strong_arc γ i k x (cur V) -∗
  (∀ n V', ⌜V ⊆ V'⌝ -∗ ⌜Q n⌝ -∗ ⌜n ≠ 1%Z⌝ -∗ F -∗ alloc_credit γ x (cur V') -∗
     data_credit γ x (cur V') -∗ Φ tt V') ∧
  (∀ v V' t, ⌜V ⊆ V'⌝ -∗ ⌜Q 1%Z⌝ -∗ F -∗ gone (wk_data γ.2) t -∗
     ⌜Coh (WeakPtr.data_ref_count x) t ∈ cur V'⌝ -∗ T 1 v -∗ data_credit γ x (cur V') -∗
     wpp (glue v) V' (λ _ V2, ∀ V3, ⌜V2 ⊆ V3⌝ -∗ alloc_credit γ x (cur V3) -∗ Φ tt V3)) -∗
  wpp (WeakPtr.drop glue (WeakPtr.MkArc (WeakPtr.MkWeak x))) V Φ.
Proof.
  iIntros (HQ) "HF (%Hok & Ha & Hs) HΦ". iApply wpp_with_drop. iApply wpp_bind.
  iDestruct (arc_shown_data with "Ha") as (q) "[Hp Ha]".
  iApply (wpp_strong_decr with "HF Hp Hs"); [done|].
  iIntros (n V1 Hle1 Hn) "HF Hp Hk [[-> Hl]|[%Hne Hi]]";
    (iDestruct ("Ha" with "[%] Hp") as "Ha"; [apply Hle1|]); last first.
  { rewrite (proj2 (Z.eqb_neq _ _) Hne). iApply wpp_ret. iDestruct "HΦ" as "[HΦ _]".
    iApply (wpp_drop_weak with "[$Ha $Hi //]"). iIntros (V2 Hle2) "Hk'".
    iApply ("HΦ" with "[%] [//] [//] HF Hk' [Hk]"); [by etrans|].
    iApply (view_mono with "Hk"). apply Hle2. }
  iDestruct "HΦ" as "[_ HΦ]". simpl. iApply (wpp_last_drop with "Ha Hl").
  iIntros (v V2 t Hle2) "Hg %Ht HT".
  iDestruct (view_mono with "Hk") as "Hk"; [apply Hle2|].
  iApply (wpp_wand with "[HΦ HF Hg HT Hk]").
  { iApply ("HΦ" with "[%] [//] HF Hg [//] HT Hk"). by etrans. }
  iIntros ([] V3 Hle3) "HΦ". iIntros (V4 Hle4) "Ha Hi".
  iApply (wpp_drop_weak with "[$Ha $Hi //]"). iIntros (V5 Hle5) "Hk".
  iApply ("HΦ" with "[%] Hk"). by etrans.
Qed.

(** [Arc::deref] finds the data; the reference may be read. *)
Lemma wpp_use_read {A} γ i k x (f : val → prog A) V Φ :
  shown γ i x (cur V) -∗ strong_use T γ.2 x k (cur V) -∗
  (∀ q v V', ⌜V ⊆ V'⌝ -∗ T q v -∗
     (T q v -∗ shown γ i x (cur V') ∗ strong_use T γ.2 x k (cur V')) -∗
     wpp (f (VSome v)) V' Φ) -∗
  wpp (read (WeakPtr.data x) ≫= f) V Φ.
Proof.
  iIntros "Ha (%b & %a & %q & Hk & %Hc & %v & Hv & HT) HΦ". iApply wpp_bind.
  iDestruct (arc_shown_data with "Ha") as (q') "[(Hp & Hd & Hb) Ha]".
  iApply (wpp_data_read with "Hd Hv"). iIntros (V' Hle) "Hd Hv".
  iApply ("HΦ" with "[//] HT"). iIntros "HT". iSplitR "Hk Hv HT".
  - iApply ("Ha" with "[%]"); [apply Hle|]. iFrame "Hd".
    iSplitL "Hp"; [iApply (view_mono with "Hp")|iApply (view_mono with "Hb")]; apply Hle.
  - iExists b, a, q. iFrame "Hk". iSplit; [iPureIntro; by apply Hle|]. iExists v. iFrame.
Qed.

Lemma wpp_deref γ i k x V Φ :
  shown γ i x (cur V) -∗ strong_use T γ.2 x k (cur V) -∗
  (∀ V', ⌜V ⊆ V'⌝ -∗ shown γ i x (cur V') -∗ strong_use T γ.2 x k (cur V') -∗
     Φ (WeakPtr.data x) V') -∗
  wpp (WeakPtr.deref (WeakPtr.MkArc (WeakPtr.MkWeak x))) V Φ.
Proof.
  iIntros "Ha Hk HΦ". iApply (wpp_use_read with "Ha Hk"). iIntros (q v V' Hle) "HT Hback".
  iDestruct ("Hback" with "HT") as "[Ha Hk]". iApply wpp_ret. by iApply ("HΦ" with "[//] Ha").
Qed.

Lemma wpp_read_data γ i k x V Φ :
  shown γ i x (cur V) -∗ strong_use T γ.2 x k (cur V) -∗
  (∀ q v V', ⌜V ⊆ V'⌝ -∗ T q v -∗
     (T q v -∗ shown γ i x (cur V') ∗ strong_use T γ.2 x k (cur V')) -∗ Φ v V') -∗
  wpp (WeakPtr.read_data (WeakPtr.data x)) V Φ.
Proof.
  iIntros "Ha Hk HΦ". iApply (wpp_use_read with "Ha Hk"). iIntros (q v V' Hle) "HT Hback".
  iApply wpp_ret. by iApply ("HΦ" with "[//] HT").
Qed.

(** *** What may be known of the counter *)

Lemma knows_nothing γ x : knows T γ.2 x ∅ True (λ _, True).
Proof. iIntros (W h t m c M R _ _ _) "_ _". done. Qed.

(** Some [Arc] is still there... *)
Lemma knows_born γ x k W :
  knows T γ.2 x W (born (wk_data γ.2) (WeakPtr.data_ref_count x) k W) (λ n, n ≠ 0%Z).
Proof.
  iIntros (W' h t m c M R HW Hm Hle) "HPr Hk". mono "Hk" HW.
  iDestruct (counter_born with "HPr Hk") as %H1; [done..|]. iPureIntro. lia.
Qed.

(** ... or the last one is gone. *)
Lemma knows_gone γ x t :
  knows T γ.2 x {[Coh (WeakPtr.data_ref_count x) t]} (gone (wk_data γ.2) t) (λ n, n = 0%Z).
Proof.
  iIntros (W h t' m c M R HW Hm Hle) "HPr Hg".
  iDestruct (counter_gone with "HPr Hg") as %(_ & Hnew & m' & Hm' & H0). iPureIntro.
  assert (t' = t) as ->; [|by simplify_eq]. apply Nat.le_antisymm.
  - by eapply (proj2 Hnew).
  - apply (Hle t m' Hm'). set_solver.
Qed.

(** *** [Arc::get_mut] *)

(** The [Arc] from which the data is borrowed: its handle is the only one. *)
Definition alloc_sole γ i x W : iProp Σ :=
  ∃ N, is_arc (alloc_part T γ.2 x) γ.1 (WeakPtr.alloc_ref_count x) N ∗ ⌜N ⊆ W⌝ ∗
    handle γ.1 i (WeakPtr.alloc_ref_count x) 1 W ∗ access_share (arc_shares γ.1) 1 W.
Definition lent_handle γ i k x W : iProp Σ :=
  (∃ b a c, k ↪[arc_handles (wk_data γ.2)] (b, a, c) ∗
     ⌜Coh (WeakPtr.data_ref_count x) a ∈ W⌝) ∗
  k ↪[wk_link γ.2] i.
Definition lent γ i k x W : iProp Σ :=
  ⌜names_ok γ⌝ ∗ alloc_sole γ i x W ∗ strong_share T γ.2 x 1 W ∗
  data_share (wk_cell γ.2) (WeakPtr.data x) 1 W ∗ lent_handle γ i k x W.

#[global] Instance alloc_sole_mono γ i x : ViewMono (alloc_sole γ i x).
Proof.
  intros W W' Hle. iIntros "(%N & $ & % & Hi & HS)". iSplit; [iPureIntro; by etrans|].
  iSplitL "Hi"; [by iApply (view_mono with "Hi")|by iApply (access_share_mono with "HS")].
Qed.
#[global] Instance lent_handle_mono γ i k x : ViewMono (lent_handle γ i k x).
Proof.
  intros W W' Hle. iIntros "((%b & %a & %c & Hk & %) & $)". iExists b, a, c. iFrame.
  iPureIntro. by apply Hle.
Qed.

#[global] Instance lent_mono γ i k x : ViewMono (lent γ i k x).
Proof. apply _. Qed.

(** Every handle of the data belongs to a handle of the allocation, so the
    only one of these has the only one of those. *)
Lemma linked_sole γ i k x W L E :
  names_ok γ → ↑(shareN .@ (arc_shares γ.1).1) ⊆ E → L !! k = Some i →
  alloc_sole γ i x W -∗ linked γ.2 L ={E}=∗
  alloc_sole γ i x W ∗ linked γ.2 L ∗ ⌜∀ k', is_Some (L !! k') → k' = k⌝.
Proof.
  iIntros (Hok HE Hk) "(%N & #Hc & % & Hi & HS) [HL Ht]".
  destruct (decide (delete k L = ∅)) as [Hd|Hd].
  { iModIntro. iSplitL "Hi HS"; [iExists N; by iFrame "Hc Hi HS"|]. iFrame. iPureIntro.
    intros k' [i' Hk']. destruct (decide (k = k')) as [|Hne]; [done|].
    by rewrite -(lookup_delete_ne L k k') // Hd in Hk'. }
  destruct (map_choose _ Hd) as (k' & i' & Hk').
  rewrite (big_sepM_delete _ L) // (big_sepM_delete _ (delete k L)) //.
  iDestruct "Ht" as "(Ht & Ht' & _)". rewrite (token_alive γ i') //.
  iMod (arc_sole_alive with "Hc Hi HS Ht'") as "(-> & _ & _ & Ht')"; [done|].
  iDestruct "Ht" as (b) "Ht". rewrite -(token_alive γ i) //. iDestruct "Ht'" as (b') "Ht'".
  by iDestruct (ghost_map_elem_ne with "Ht Ht'") as %Hne.
Qed.

Lemma strong_lend γ i k x W :
  names_ok γ →
  alloc_sole γ i x W -∗ alloc_part T γ.2 x 1 W -∗ strong_use T γ.2 x k W -∗
  k ↪[wk_link γ.2] i ={⊤}=∗
  lent γ i k x W ∗ data_part T γ.2 1 W.
Proof.
  iIntros (Hok) "Ha ((#Hc & %HB & HS) & Hd & Hb) (%b & %a & %q & Hk & %Hcoh & Hp) Hl".
  iAssert ⌜(arc_shares γ.1).1 ≠ (arc_shares (wk_data γ.2)).1⌝%I as %Hne.
  { iDestruct "Ha" as (N) "(_ & _ & _ & HS')". iApply (access_share_distinct with "HS' HS"). }
  iMod (share_acc_mask with "Hc HS")
    as "((%h & %N & %A & %A' & >Hat & >%HN & >HA & >%HA & >%Hh & >HPr) & HS & Hclose)"; [done|].
  iDestruct "HPr" as (M R L c) "(HPr & %HR & HL & Hst)".
  iDestruct (accesses_all with "HA HS") as %Hall.
  iDestruct (counter_handle with "HPr Hk") as %HM.
  iDestruct (states_shared with "Hst Hb") as "[Hst Hb]"; [by eexists|].
  iAssert ⌜L !! k = Some i⌝%I as %HL.
  { iDestruct "HL" as "[HL _]". iApply (ghost_map_lookup with "HL Hl"). }
  iMod (linked_sole with "Ha HL") as "(Ha & HL & %Hsole)"; [done| |done|].
  { apply namespaces.coPset_subseteq_difference_r. { by apply ndot_ne_disjoint. } done. }
  iMod (strong_proto_lend with "HPr Hst Hb Hk Hp") as (M') "(HPr & Hst & Hk & Hp)"; [done|by etrans|].
  iMod ("Hclose" with "[Hat HA HPr HL Hst]") as "_".
  { iNext. iExists h, N, A, A'. iFrame "Hat HA". do 3 (iSplit; [done|]).
    iExists M', R, L, c. iFrame "HPr HL". iSplit; [done|]. iRight. by iLeft. }
  iModIntro. iFrame "Hp". iFrame "Ha Hd Hl". iSplit; [done|]. iSplitL "HS"; [by iFrame "Hc HS"|].
  iExists b, a, c. by iFrame.
Qed.

(** The borrow ends. *)
Lemma lent_return γ i k x W :
  lent γ i k x W -∗ data_part T γ.2 1 W ={⊤}=∗ arc_use γ i k x W.
Proof.
  iIntros "(%Hok & (%N & #Hc & %HN & Hi & HS) & Hs & Hd & (%b & %a & %c & Hk & %) & $) Hp".
  iMod (strong_acc with "Hs") as (h A) "(HPr & _ & Hclose)".
  iMod (strong_proto_return with "HPr Hk Hp") as "(HPr & Hk & Hp & Hb)".
  iMod ("Hclose" with "HPr") as "Hs". iModIntro. iSplit; [done|].
  iSplitR "Hk Hp"; [|iExists b, a, c; by iFrame]. iExists N, 1%Qp. iFrame "Hc Hi HS Hs Hd Hb". done.
Qed.

(** The data may be read and written through the reference. *)
Lemma lent_data γ i k x W :
  lent γ i k x W -∗ data_share (wk_cell γ.2) (WeakPtr.data x) 1 W ∗
  ∀ W', ⌜W ⊆ W'⌝ -∗ data_share (wk_cell γ.2) (WeakPtr.data x) 1 W' -∗ lent γ i k x W'.
Proof.
  iIntros "($ & Ha & Hs & $ & Hk)" (W' Hle) "$".
  iSplitL "Ha"; [by iApply (view_mono with "Ha")|].
  iSplitL "Hs"; [by iApply (view_mono with "Hs")|by iApply (view_mono with "Hk")].
Qed.

Lemma wpp_lent_read γ i k x v V Φ :
  lent γ i k x (cur V) -∗ data_val (wk_cell γ.2) 1 v (cur V) -∗
  (∀ V', ⌜V ⊆ V'⌝ -∗ lent γ i k x (cur V') -∗ data_val (wk_cell γ.2) 1 v (cur V') -∗ Φ v V') -∗
  wpp (read (WeakPtr.data x)) V Φ.
Proof.
  iIntros "Hl Hv HΦ". iDestruct (lent_data with "Hl") as "[Hd Hl]".
  iApply (wpp_data_read with "Hd Hv"). iIntros (V' Hle) "Hd Hv".
  iApply ("HΦ" with "[//] [Hl Hd] Hv"). iApply ("Hl" with "[%] Hd"). apply Hle.
Qed.

Lemma wpp_lent_write γ i k x v w V Φ :
  lent γ i k x (cur V) -∗ data_val (wk_cell γ.2) 1 v (cur V) -∗
  (∀ V', ⌜V ⊆ V'⌝ -∗ lent γ i k x (cur V') -∗ data_val (wk_cell γ.2) 1 w (cur V') -∗ Φ tt V') -∗
  wpp (write (WeakPtr.data x) w) V Φ.
Proof.
  iIntros "Hl Hv HΦ". iDestruct (lent_data with "Hl") as "[Hd Hl]".
  iApply (wpp_data_write with "Hd Hv"). iIntros (V' Hle) "Hd Hv".
  iApply ("HΦ" with "[//] [Hl Hd] Hv"). iApply ("Hl" with "[%] Hd"). apply Hle.
Qed.

(** [get_mut] gives out the data only to the only handle of the allocation. *)
Lemma wpp_weak_get_mut (F : view → iProp Σ) `{!ViewMono F} (Q : Z → Prop) γ i k x V Φ :
  (∀ h t m b a q, ⌜h !! t = Some m⌝ -∗ ⌜coh_le (WeakPtr.alloc_ref_count x) h (cur V) t⌝ -∗
     ⌜Coh (WeakPtr.alloc_ref_count x) a ∈ cur V⌝ -∗ arc_proto (alloc_part T γ.2 x) γ.1 h -∗
     i ↪[arc_handles γ.1] (b, a, q) -∗ F (cur V) -∗ ⌜Q (mval m)⌝) -∗
  F (cur V) -∗ arc_use γ i k x (cur V) -∗
  (∀ n V', ⌜V ⊆ V'⌝ -∗ ⌜Q n⌝ -∗ ⌜n ≠ 1%Z⌝ -∗ arc_use γ i k x (cur V') -∗ Φ None V') ∧
  (∀ v V', ⌜V ⊆ V'⌝ -∗ lent γ i k x (cur V') -∗ data_val (wk_cell γ.2) 1 (VSome v) (cur V') -∗ T 1 v -∗
     Φ (Some (WeakPtr.data x)) V') -∗
  wpp (WeakPtr.get_mut (WeakPtr.MkArc (WeakPtr.MkWeak x))) V Φ.
Proof.
  iIntros "HQ HF (%Hok & Ha & Hs & Hl) HΦ". iApply wpp_bind.
  iApply (wpp_arc_count with "HQ HF Ha").
  iIntros (n V1 Hle1 HQ) "_ [[%Hne Ha]|(-> & %N & #Hc & %HN & Hi & Hall)]".
  { rewrite (proj2 (Z.eqb_neq _ _) Hne). iApply wpp_ret. iDestruct "HΦ" as "[HΦ _]".
    mono "Hs" Hle1. by iApply ("HΦ" with "[//] [//] [//] [$Ha $Hs $Hl]"). }
  iDestruct "HΦ" as "[_ HΦ]". iApply wpp_bind. iApply wpp_acquire_fence. iIntros (V2 Hle2 Hacq).
  iDestruct ("Hall" with "[//]") as "[HS Hp]". mono "Hi" Hle2. mono "Hs" Hle1. mono "Hs" Hle2.
  iMod (strong_lend with "[Hi HS] Hp Hs Hl") as "[Hl (%v & Hv & HT)]"; [done| |].
  { iExists N. iFrame "Hc HS Hi". iPureIntro. etrans; [done|apply Hle2]. }
  do 2 iApply wpp_bind. iApply (wpp_lent_read with "Hl Hv"). iIntros (V3 Hle3) "Hl Hv".
  iApply wpp_ret. iApply wpp_ret. iApply ("HΦ" with "[%] Hl Hv HT"). etrans; [done|by etrans].
Qed.

(** *** [Arc::new] *)

Lemma wpp_weak_new v na nd V Φ :
  (Z.of_nat (S na) <= usize_MAX)%Z → (Z.of_nat (S nd) < usize_MAX)%Z →
  T 1 v -∗
  (∀ γ x V', ⌜V ⊆ V'⌝ -∗ ⌜arc_budget γ.1 = na ∧ arc_budget (wk_data γ.2) = nd⌝ -∗
     strong_arc γ 0 0 x (cur V') -∗
     ([∗ list] _ ∈ seq 0 na, alloc_credit γ x (cur V')) -∗
     ([∗ list] _ ∈ seq 0 nd, data_credit γ x (cur V')) -∗
     Φ (WeakPtr.MkArc (WeakPtr.MkWeak x)) V') -∗
  wpp (WeakPtr.new v) V Φ.
Proof.
  iIntros (Hna Hnd) "HT HΦ". iApply wpp_bind. iApply wpp_alloc_atomic. iIntros "!>" (d e) "Hd".
  set (V1 := observe _ _ V). assert (V ⊆ V1) as Hle1 by apply observe_le.
  assert ({[Acc e]} ∪ {[Acc e]} ∪ {[Coh d 0]} ⊆ cur V1) as HV1 by (simpl; set_solver).
  clearbody V1. iApply wpp_bind. iApply wpp_alloc_atomic. iIntros "!>" (a e') "Ha".
  set (V2 := observe _ _ V1). assert (V1 ⊆ V2) as Hle2 by apply observe_le.
  assert ({[Acc e']} ∪ {[Acc e']} ∪ {[Coh a 0]} ⊆ cur V2) as HV2 by (simpl; set_solver).
  clearbody V2. iApply wpp_bind. iApply wpp_new. iIntros "!>" (p V3 Hle3) "Hp".
  assert (cur V1 ⊆ cur V3) as Hle13 by (etrans; [apply Hle2|apply Hle3]).
  assert (cur V2 ⊆ cur V3) as Hle23 by apply Hle3.
  iMod (counter_new (Some 0) 1 na Hna) as (γh γi γk γg) "(HPr & Hi & Hi' & Hk)".
  iMod (strong_alloc T (WeakPtr.MkArcData d a p) γi nd _ _ (cur V3) with "Hd Hp HT Hi'")
    as (γ Hids Hb) "(Hp & Hs & Hkd)"; [lia|set_solver|simpl; set_solver|].
  iMod (arc_alloc_named (alloc_part T γ _) with "Ha HPr Hi Hp") as (γs) "Ha";
    [set_solver|set_solver|].
  iApply wpp_ret.
  iApply ("HΦ" $! (ArcName γs γh γi γk γg na, γ) (WeakPtr.MkArcData d a p) with "[%] [//] [$Ha $Hs] [Hk] Hkd").
  - etrans; [done|]. by etrans.
  - iPureIntro. split; [done|]. simpl. by rewrite Hb.
  - iApply (credits_init (ArcName γs γh γi γk γg na) with "Hk"). simpl. set_solver.
Qed.
End handles.
