(* ===== verification/WeakPrograms.v ===== *)
(** * 06-02 meets the interface of weak pointers

    So the test of 06-02_weak-pointer.rs passes in every execution, and any
    number of threads may use the pointers. *)

From iris.proofmode Require Import proofmode.
From iris.base_logic.lib Require Import invariants ghost_map ghost_var token.
From S2P Require Import Prelude Memory History Lang Runs Logic Rules Std Shares Counted.
From S2P Require Import Arc.
From S2P Require Import WeakApi DataCell Weak WeakArc.

#[export] Instance weak_ptr : WeakImpl WeakPtr.Arc WeakPtr.Weak := {|
  w_new := WeakPtr.new;
  w_downgrade := WeakPtr.downgrade;
  w_upgrade := WeakPtr.upgrade;
  w_read a := p ← WeakPtr.deref a; WeakPtr.read_data p;
  w_get_mut := WeakPtr.get_mut;
  w_put p v := write p (VSome v);
  w_clone := WeakPtr.clone;
  w_clone_weak := WeakPtr.clone_weak;
  w_drop := WeakPtr.drop;
  w_drop_weak := WeakPtr.drop_weak
|}.

Section spec.
Context `{!rustGS Σ, !weakG Σ}.
Context (T : Qp → val → iProp Σ) `{!FracVal T}.
Implicit Types (V : tview) (W : view) (i j k : nat).

(** The ghost names and the addresses. *)
Abbreviation wp_name := ((arc_name * weak_name) * WeakPtr.ArcData)%type.
Implicit Types (γ : wp_name) (a : WeakPtr.Arc) (b : WeakPtr.Weak).

Abbreviation weak_of γ := (WeakPtr.MkWeak γ.2).
Abbreviation arc_of γ := (WeakPtr.MkArc (weak_of γ)).

Definition wp_strong γ k a W : iProp Σ := ⌜a = arc_of γ⌝ ∗ ∃ i, arc_use T γ.1 i k γ.2 W.
Definition wp_alive γ k W : iProp Σ :=
  born (wk_data γ.1.2) (WeakPtr.data_ref_count γ.2) k W.
Definition wp_weak γ b W : iProp Σ := ⌜b = weak_of γ⌝ ∗ ∃ i, weak T γ.1 i γ.2 W.
Definition wp_acr γ W : iProp Σ :=
  credit γ.1.1 (WeakPtr.alloc_ref_count γ.2) W.
Definition wp_dcr γ W : iProp Σ :=
  credit (wk_data γ.1.2) (WeakPtr.data_ref_count γ.2) W.
Definition wp_gone γ W : iProp Σ :=
  ∃ t, gone (wk_data γ.1.2) t ∗ ⌜Coh (WeakPtr.data_ref_count γ.2) t ∈ W⌝.
Definition wp_lent γ k a (r : loc) v W : iProp Σ :=
  ⌜a = arc_of γ ∧ r = WeakPtr.data γ.2⌝ ∗
  ∃ i, lent T γ.1 i k γ.2 W ∗ data_val (wk_cell γ.1.2) 1 (VSome v) W.

#[local] Instance wp_strong_mono γ k a : ViewMono (wp_strong γ k a).
Proof. apply _. Qed.
#[local] Instance wp_alive_mono γ k : ViewMono (wp_alive γ k).
Proof. apply _. Qed.
#[local] Instance wp_weak_mono γ b : ViewMono (wp_weak γ b).
Proof. apply _. Qed.
#[local] Instance wp_lent_mono γ k a r v : ViewMono (wp_lent γ k a r v).
Proof. apply _. Qed.
#[local] Instance wp_gone_mono γ : ViewMono (wp_gone γ).
Proof. intros W W' Hle. iIntros "(%t & $ & %)". iPureIntro. by apply Hle. Qed.

Lemma wpp_wp_upgrade W0 F Q γ b V Φ :
  knows T γ.1.2 γ.2 W0 F Q → W0 ⊆ cur V →
  F -∗ wp_weak γ b (cur V) -∗ wp_acr γ (cur V) -∗ wp_dcr γ (cur V) -∗
  (∀ V', ⌜V ⊆ V'⌝ -∗ ⌜Q 0%Z⌝ -∗ F -∗ wp_weak γ b (cur V') -∗ wp_acr γ (cur V') -∗
     wp_dcr γ (cur V') -∗ Φ None V') ∧
  (∀ n k a V', ⌜V ⊆ V'⌝ -∗ ⌜Q n ∧ n ≠ 0%Z⌝ -∗ F -∗ wp_weak γ b (cur V') -∗
     wp_strong γ k a (cur V') -∗ wp_alive γ k (cur V') -∗ Φ (Some a) V') -∗
  wpp (WeakPtr.upgrade b) V Φ.
Proof.
  iIntros (HQ HW) "HF (-> & %i & Hb) Hk Hd HΦ".
  iApply (wpp_upgrade with "HF Hb Hk Hd"); [done..|]. iSplit.
  - iIntros (V' Hle Hn) "HF Hb". iDestruct "HΦ" as "[HΦ _]".
    iApply ("HΦ" with "[//] [//] HF"). iSplit; [done|]. by iExists i.
  - iIntros (j k n V' Hle Hn) "HF Hb Ha". iDestruct "HΦ" as "[_ HΦ]". rewrite strong_arc_use.
    iDestruct "Ha" as "[Ha Hi]". iApply ("HΦ" with "[//] [//] HF [Hb] [Ha] Hi"); (iSplit; [done|]).
    + by iExists i.
    + by iExists j.
Qed.

Lemma wpp_wp_drop glue (F : iProp Σ) (Q : Z → Prop) γ k a V Φ :
  (∀ h t m c M R (bt o : time) q, h !! t = Some m → h !! S t = None →
     coh_le (WeakPtr.data_ref_count γ.2) h (cur V) t →
     Coh (WeakPtr.data_ref_count γ.2) o ∈ cur V →
     counter_proto (data_part T γ.1.2) None (wk_data γ.1.2) c M R h -∗
     k ↪[arc_handles (wk_data γ.1.2)] (bt, o, q) -∗ alive (wk_data γ.1.2) k -∗ F -∗
     ⌜Q (mval m)⌝) →
  F -∗ wp_strong γ k a (cur V) -∗ wp_alive γ k (cur V) -∗
  (∀ n V', ⌜V ⊆ V'⌝ -∗ ⌜Q n⌝ -∗ ⌜n ≠ 1%Z⌝ -∗ F -∗ wp_acr γ (cur V') -∗ wp_dcr γ (cur V') -∗
     Φ tt V') ∧
  (∀ v V', ⌜V ⊆ V'⌝ -∗ ⌜Q 1%Z⌝ -∗ F -∗ T 1%Qp v -∗
     wpp (glue v) V' (λ _ V2, ∀ V3, ⌜V2 ⊆ V3⌝ -∗ wp_gone γ (cur V3) -∗ wp_acr γ (cur V3) -∗
       wp_dcr γ (cur V3) -∗ Φ tt V3)) -∗
  wpp (WeakPtr.drop glue a) V Φ.
Proof.
  iIntros (HQ) "HF (-> & %i & Ha) Hi HΦ". iDestruct (strong_arc_use with "[$Ha $Hi]") as "Ha".
  iApply (wpp_strong_drop with "HF Ha"); [done|]. iSplit; [by iDestruct "HΦ" as "[$ _]"|].
  iIntros (v V1 t Hle1 Hn) "HF Hg %Ht HT Hd". iDestruct "HΦ" as "[_ HΦ]".
  iApply (wpp_wand with "[HΦ HF HT]"); [by iApply ("HΦ" with "[//] [//] HF")|].
  iIntros ([] V2 Hle2) "HΦ". iIntros (V3 Hle3) "Hk". mono "Hd" Hle2. mono "Hd" Hle3.
  iApply ("HΦ" with "[//] [Hg] Hk Hd"). iExists t. iFrame. iPureIntro.
  destruct Hle2 as [Hle2 _], Hle3 as [Hle3 _]. by apply Hle3, Hle2.
Qed.

#[export] Program Instance weak_ptr_spec : WeakSpec weak_ptr T := {|
  w_name := wp_name;
  w_budget γ := (arc_budget γ.1.1, arc_budget (wk_data γ.1.2));
  w_strong := wp_strong;
  w_alive := wp_alive;
  w_weak := wp_weak;
  w_acr := wp_acr;
  w_dcr := wp_dcr;
  w_gone := wp_gone;
  w_lent := wp_lent;
  w_strong_mono := wp_strong_mono;
  w_alive_mono := wp_alive_mono;
  w_weak_mono := wp_weak_mono;
  w_gone_mono := wp_gone_mono;
  w_lent_mono := wp_lent_mono
|}.
Next Obligation.
  iIntros (v na nd V Φ Hna Hnd) "HT HΦ".
  iApply (wpp_weak_new T v na nd with "HT"); [lia..|]. iIntros (γ x V' Hle [<- <-]) "Ha Hk Hd".
  rewrite strong_arc_use. iDestruct "Ha" as "[Ha Hi]".
  iApply ("HΦ" $! (γ, x) with "[//] [//] [Ha] Hi Hk Hd"). iSplit; [done|]. by iExists 0.
Qed.
Next Obligation.
  iIntros (γ k a V Φ) "(-> & %i & Ha) Hk HΦ". iApply (wpp_downgrade with "Ha Hk").
  iIntros (j V' Hle) "Ha Hb". iApply ("HΦ" with "[//] [Ha]"); (iSplit; [done|]);
    [by iExists i|by iExists j].
Qed.
Next Obligation.
  iIntros (γ k a V Φ) "(-> & %i & %Hok & Ha & Hs & Hl) HΦ". iApply wpp_bind.
  iApply (wpp_deref with "Ha Hs"). iIntros (V1 Hle1) "Ha Hs".
  iApply (wpp_read_data with "Ha Hs"). iIntros (q v V2 Hle2) "HT Hback".
  iApply ("HΦ" with "[%] HT"); [by etrans|]. iIntros "HT". iSplit; [done|]. iExists i.
  iDestruct ("Hback" with "HT") as "[$ $]". by iFrame.
Qed.
Next Obligation.
  iIntros (γ k a V Φ) "(-> & %i & Ha) Hk Hd HΦ". iApply (wpp_arc_clone_strong with "Ha Hk Hd").
  iIntros (j k' V' Hle) "Ha Ha'". rewrite strong_arc_use. iDestruct "Ha'" as "[Ha' Hi]".
  iApply ("HΦ" with "[//] [Ha] [Ha'] Hi"); (iSplit; [done|]); [by iExists i|by iExists j].
Qed.
Next Obligation.
  iIntros (γ b V Φ) "(-> & %i & Hb) Hk HΦ". iApply (wpp_weak_clone with "Hb Hk").
  iIntros (j V' Hle) "Hb Hb'". iApply ("HΦ" with "[//] [Hb]"); (iSplit; [done|]);
    [by iExists i|by iExists j].
Qed.
Next Obligation.
  iIntros (γ b V Φ) "Hb Hk Hd HΦ".
  iApply (wpp_wp_upgrade ∅ True%I (λ _, True) with "[//] Hb Hk Hd");
    [apply knows_nothing|set_solver|]. iSplit.
  - iIntros (V' Hle _) "_". iDestruct "HΦ" as "[HΦ _]". by iApply "HΦ".
  - iIntros (n k a V' Hle _) "_". iDestruct "HΦ" as "[_ HΦ]". by iApply "HΦ".
Qed.
Next Obligation.
  iIntros (γ b k0 V Φ) "Hb Hk Hd Hi HΦ".
  iApply (wpp_wp_upgrade (cur V) _ (λ n, n ≠ 0%Z) with "Hi Hb Hk Hd"); [apply knows_born|done|].
  iSplit; [by iIntros (V' _ ?)|]. iIntros (n k a V' Hle _) "Hi Hb Ha Hk".
  iApply ("HΦ" with "[//] Hb Ha Hk"). iApply (view_mono with "Hi"). apply Hle.
Qed.
Next Obligation.
  iIntros (γ b V Φ) "Hb Hk Hd (%t & #Hg & %Ht) HΦ".
  iApply (wpp_wp_upgrade {[Coh (WeakPtr.data_ref_count γ.2) t]} _ (λ n, n = 0%Z)
    with "Hg Hb Hk Hd"); [exact (knows_gone T γ.1 γ.2 t)|set_solver|].
  iSplit; [|by iIntros (n k a V' _ [-> ?])]. iIntros (V' Hle _) "_". by iApply "HΦ".
Qed.
Next Obligation.
  iIntros (glue γ k a V Φ) "Ha Hi HΦ".
  iApply (wpp_wp_drop _ True%I (λ _, True) with "[//] Ha Hi"); [eauto|]. iSplit.
  - iIntros (n V' Hle _ _) "_". iDestruct "HΦ" as "[HΦ _]". by iApply "HΦ".
  - iIntros (v V' Hle _) "_ HT". iDestruct "HΦ" as "[_ HΦ]".
    iApply (wpp_wand with "[HΦ HT]"); [by iApply ("HΦ" with "[//]")|].
    iIntros ([] V2 _) "HΦ". iIntros (V3 Hle3) "_". by iApply "HΦ".
Qed.
Next Obligation.
  iIntros (glue γ k a k0 V Φ) "Ha Hi Hi0 HΦ".
  iApply (wpp_wp_drop _ (wp_alive γ k0 (cur V)) (λ n, n ≠ 1%Z) with "Hi0 Ha Hi").
  { iIntros (h t m c M R b o q Hm Hf _ _) "HPr Hk Hi Hi0". iDestruct (born_alive with "Hi0") as "Hi0".
    by iApply (counter_alive with "HPr Hk Hi Hi0"). }
  iSplit; [|by iIntros (v V' _ ?)]. iIntros (n V' Hle _ _) "Hi0". mono "Hi0" Hle.
  by iApply ("HΦ" with "[//]").
Qed.
Next Obligation.
  iIntros (glue γ k a V Φ) "Ha Hi Hd HΦ".
  iApply (wpp_wp_drop _ (all_credits (wk_data γ.1.2) (WeakPtr.data_ref_count γ.2) (cur V))
    (λ n, n = 1%Z) with "Hd Ha Hi").
  { iIntros (h t m c M R b o q Hm Hf Hle Ho) "HPr Hk _ Hd".
    by iApply (counter_all_credits with "HPr Hk Hd"). }
  iSplit; [by iIntros (n V' _ -> ?)|]. iIntros (v V' Hle _) "_". by iApply "HΦ".
Qed.
Next Obligation.
  iIntros (glue γ b V Φ) "(-> & %i & Hb) HΦ". by iApply (wpp_drop_weak with "Hb").
Qed.
Next Obligation.
  iIntros (γ k a V Φ) "(-> & %i & Ha) HΦ".
  iApply (wpp_weak_get_mut T (λ _, True)%I (λ _, True) with "[] [//] Ha"); [eauto|]. iSplit.
  - iIntros (n V' Hle _ _) "Ha". iDestruct "HΦ" as "[HΦ _]". iApply ("HΦ" with "[//]").
    iSplit; [done|]. by iExists i.
  - iIntros (v V' Hle) "Hl Hv HT". iDestruct "HΦ" as "[_ HΦ]". iApply ("HΦ" with "[//] [Hl Hv] HT").
    iSplit; [done|]. iExists i. iFrame.
Qed.
Next Obligation.
  iIntros (γ k a V Φ) "(-> & %i & Ha) Hk _ HΦ".
  iApply (wpp_weak_get_mut T (all_credits γ.1.1 (WeakPtr.alloc_ref_count γ.2)) (λ n, n = 1%Z)
    with "[] Hk Ha").
  { iIntros (h t m b o q Hm Hle Ho) "HPr Hi Hk". by iApply (arc_proto_all_credits with "HPr Hi Hk"). }
  iSplit; [by iIntros (n V' _ -> ?)|]. iIntros (v V' Hle) "Hl Hv HT".
  iApply ("HΦ" with "[//] [Hl Hv] HT"). iSplit; [done|]. iExists i. iFrame.
Qed.
Next Obligation.
  iIntros (γ k a r v w V Φ) "([-> ->] & %i & Hl & Hv) HΦ". iApply (wpp_lent_write with "Hl Hv").
  iIntros (V' Hle) "Hl Hv". iApply ("HΦ" with "[//]"). iSplit; [done|]. iExists i. iFrame.
Qed.
Next Obligation.
  iIntros (γ k a r v W) "([-> ->] & %i & Hl & Hv) HT".
  iMod (lent_return with "Hl [Hv HT]") as "Ha"; [iExists v; iFrame|]. iModIntro.
  iSplit; [done|]. by iExists i.
Qed.
End spec.

(** ** What the programs do *)

(** The test of 06-02: all its assertions hold in every execution.  A weak
    pointer can be upgraded while the [Arc] is there, the data is dropped once,
    with the last [Arc], and then no weak pointer can be upgraded.  Such an
    execution exists. *)
Theorem weak_ptr_test_safe :
  safe (weak_test (I := weak_ptr)) (λ σ, out σ = []) (λ o _, o = Ok tt) ∧
  can_end (weak_test (I := weak_ptr)) (Ok tt) [].
Proof.
  split; [|by_running 200%Z].
  apply (weak_test_safe #[rustΣ; weakΣ; tokenΣ]). intros. apply weak_ptr_spec, _.
Qed.

(** C3. Any number of threads that share the data by [Arc] and [Weak] of 06-02:
    each of them upgrades, downgrades, reads, changes the data when [get_mut]
    gives access, and drops its pointers, in any order.  No race, no use after
    free, no double free; readers see one of the values written, and the data
    is dropped at most once. *)
Theorem weak_ptr_crowd_safe v0 v1 kinds
    (Hn : (Z.of_nat (S (S (length kinds + length kinds))) < usize_MAX - 1)%Z) :
  safe (weak_crowd (I := weak_ptr) v0 v1 kinds) (λ σ, dropped_once v0 v1 (out σ))
    (λ o _, o = Ok tt).
Proof.
  apply (weak_crowd_safe #[rustΣ; weakΣ; tokenΣ; ghost_varΣ unit]); [|done].
  intros. apply weak_ptr_spec, _.
Qed.

(** There is an execution in which the other thread is alone in the end,
    changes the data and drops it. *)
Lemma weak_ptr_crowd_safe_witness :
  safe (weak_crowd (I := weak_ptr) (VStr "a") (VStr "b") [true])
    (λ σ, dropped_once (VStr "a") (VStr "b") (out σ)) (λ o _, o = Ok tt) ∧
  can_print (weak_crowd (I := weak_ptr) (VStr "a") (VStr "b") [true])
    [("dropped {}"%string, [VStr "b"])].
Proof.
  split; [apply (weak_ptr_crowd_safe (VStr "a") (VStr "b") [true]); vm_compute; reflexivity|].
  apply (can_print_follow (replicate 40 (0, None) ++ replicate 40 (1, None))).
  vm_compute. reflexivity.
Defined.

(** [get_mut] of 06-02 gives access once the other pointers are gone, and the
    change is seen by the later read. *)
Theorem weak_ptr_update_safe v0 v1 :
  safe (weak_update (I := weak_ptr) v0 v1) (λ σ, out σ = []) (λ o _, o = Ok tt).
Proof.
  apply (weak_update_safe #[rustΣ; weakΣ; ghost_varΣ val]). intros. apply weak_ptr_spec, _.
Qed.
