(* ===== verification/Optimized.v ===== *)
(** * The optimised reference counter with weak pointers

    [Optimized] is the code of 06-03_optimization.rs: [alloc_ref_count] counts
    the [Weak]s, and one more for all the [Arc]s together.  In the protocol of
    that counter the [Arc]s own the handle 0 in common, each of them a fraction
    of it; [get_mut] closes the counter for a while. *)

From Stdlib Require Import Qcanon.
From iris.proofmode Require Import proofmode.
From iris.algebra Require Import gset.
From iris.algebra.lib Require Import frac_auth.
From iris.base_logic.lib Require Import invariants cancelable_invariants ghost_map ghost_var.
From S2P Require Import Prelude Memory History Lang Logic Rules Std Shares Counted.
From S2P Require Import WeakApi DataCell.

(** ** The code *)

Module Optimized.

(** The addresses of the fields. *)
Record ArcData : Type := MkArcData {
  data_ref_count : loc; alloc_ref_count : loc; data : loc
}.
Record Arc : Type := MkArc { arc_data : ArcData }.
Record Weak : Type := MkWeak { weak_data : ArcData }.

Definition new (v : val) : prog Arc :=
  d ← atomic_new 1;
  a ← atomic_new 1;
  p ← new_cell v;
  mret (MkArc (MkArcData d a p)).

Definition get_mut (arc : Arc) : prog (option loc) :=
  let x := arc_data arc in
  r ← compare_exchange (alloc_ref_count x) 1 usize_MAX Acquire Relaxed;
  if is_err r then mret None
  else
    n ← load (data_ref_count x) Relaxed;
    store (alloc_ref_count x) 1 Release;;
    if negb (n =? 1)%Z then mret None
    else fence Acquire;; mret (Some (data x)).

Definition downgrade (arc : Arc) : prog Weak :=
  let a := alloc_ref_count (arc_data arc) in
  n ← load a Relaxed;
  loop (λ n,
    if (n =? usize_MAX)%Z then
      spin_loop;;
      n ← load a Relaxed;
      mret (inl n)
    else
      assert (n <? usize_MAX - 1)%Z "assertion failed: n < usize::MAX - 1";;
      r ← compare_exchange_weak a n (n + 1) Acquire Relaxed;
      match r with
      | inr e => mret (inl e)
      | inl _ => mret (inr (MkWeak (arc_data arc)))
      end) n.

Definition deref (self : Arc) : loc := data (arc_data self).

Definition upgrade (self : Weak) : prog (option Arc) :=
  let d := data_ref_count (weak_data self) in
  n ← load d Relaxed;
  loop (λ n,
    if (n =? 0)%Z then mret (inr None)
    else
      assert (n <? usize_MAX)%Z "assertion failed: n < usize::MAX";;
      r ← compare_exchange_weak d n (n + 1) Relaxed Relaxed;
      match r with
      | inr e => mret (inl e)
      | inl _ => mret (inr (Some (MkArc (weak_data self))))
      end) n.

Definition clone_weak (self : Weak) : prog Weak :=
  n ← fetch_add usize_modulus (alloc_ref_count (weak_data self)) 1 Relaxed;
  if (usize_MAX / 2 <? n)%Z then abort else mret (MkWeak (weak_data self)).

(** [drop(Box::from_raw(ptr))]: a [ManuallyDrop] does not drop what it holds. *)
Definition drop_box (x : ArcData) : prog unit :=
  act (OFree (data x));;
  act (OFree (data_ref_count x));;
  act (OFree (alloc_ref_count x)).

Definition drop_weak (self : Weak) : prog unit :=
  let x := weak_data self in
  n ← fetch_sub usize_modulus (alloc_ref_count x) 1 Release;
  if (n =? 1)%Z then fence Acquire;; drop_box x else mret ().

Definition clone (self : Arc) : prog Arc :=
  n ← fetch_add usize_modulus (data_ref_count (arc_data self)) 1 Relaxed;
  if (usize_MAX / 2 <? n)%Z then abort else mret (MkArc (arc_data self)).

(** [ManuallyDrop::drop]; [glue] drops a [T]. *)
Definition manually_drop (glue : val → prog unit) (p : loc) : prog unit :=
  v ← read p; glue v.

Definition drop (glue : val → prog unit) (self : Arc) : prog unit :=
  let x := arc_data self in
  n ← fetch_sub usize_modulus (data_ref_count x) 1 Release;
  if (n =? 1)%Z then
    fence Acquire;;
    manually_drop glue (data x);;
    drop_weak (MkWeak x)
  else mret ().
End Optimized.

(** ** Ghost state *)

Class optG Σ := OptG {
  opt_shareG :: shareG Σ;
  opt_arcG :: arcG Σ;
  opt_baseG :: ghost_varG Σ view;
  opt_lockG :: ghost_varG Σ (option (time * option Qp))
}.
Definition optΣ : gFunctors :=
  #[shareΣ; arcΣ; ghost_varΣ view; ghost_varΣ (option (time * option Qp))].
#[export] Instance subG_optΣ Σ : subG optΣ Σ → optG Σ.
Proof. solve_inG. Qed.

(** The protocols of the two counters, the cell of the data, what the users of
    the counters have observed of their creation; the views in which the
    reserves of the two counters may be used; the upgrades, as the [Weak]s have
    seen them; the unlockings of the allocation counter, as the [Arc]s have
    seen them; who has locked it. *)
Record opt_name : Type := OptName {
  op_data : arc_name; op_alloc : arc_name; op_cell : cell_name; op_init : view;
  op_base : gname; op_abase : gname; op_joins : gname; op_unlocks : gname; op_lock : gname
}.

(** The part of the handle 0, which all the [Arc]s own together. *)
Abbreviation implicit_part := (1/2)%Qp.

(** A part of that handle, and of its token. *)
Abbreviation handle_part γ q :=
  (0 ↪[arc_handles (op_alloc γ)]{#q} (0, 0, implicit_part))%I.
Abbreviation id_part γ q := (0 ↪[arc_ids (op_alloc γ)]{#q} 0)%I.

Section parts.
Context `{!rustGS Σ, !optG Σ}.
Context (T : Qp → val → iProp Σ) `{!FracVal T}.
Implicit Types (γ : opt_name) (x : Optimized.ArcData) (q c : Qp) (W A : view) (V : tview).

(** What any handle of the allocation owns: the right to use the counters and
    the cell, and the reserves. *)
Definition use_part γ q W : iProp Σ :=
  access_share (arc_shares (op_data γ)) q W ∗ access_share (arc_shares (op_alloc γ)) q W ∗
  access_share (cell_shares (op_cell γ)) q W ∗ based (op_abase γ) q W.
Definition own_part γ q W : iProp Σ := use_part γ q W ∗ based (op_base γ) q W.

(** A [Weak] also knows the upgrades made with it... *)
Definition weak_part γ q W : iProp Σ := own_part γ q W ∗ recorded (op_joins γ) q W.

(** ... and an [Arc] has a part of the data, of the handle 0 and of what that
    handle owns, and knows the unlockings made with it.  Who locks the
    allocation counter leaves the token there. *)
Definition arc_own γ q : view → iProp Σ := own_part γ (q / 2).
Definition locked_part γ q W : iProp Σ :=
  cell_part T id (op_cell γ) q W ∗ handle_part γ q ∗ arc_own γ q W ∗
  recorded (op_unlocks γ) q W.
Definition arc_part γ q W : iProp Σ := locked_part γ q W ∗ id_part γ q.

#[global] Instance use_part_frac γ : FracView (use_part γ).
Proof. apply _. Qed.
#[global] Instance own_part_frac γ : FracView (own_part γ).
Proof. apply _. Qed.
#[global] Instance weak_part_frac γ : FracView (weak_part γ).
Proof. apply _. Qed.
#[global] Instance arc_own_frac γ : FracView (arc_own γ).
Proof. apply (half_frac (own_part γ)), _. Qed.
#[global] Instance locked_part_frac γ : FracView (locked_part γ).
Proof. apply _. Qed.
#[global] Instance arc_part_frac γ : FracView (arc_part γ).
Proof. apply _. Qed.

(** *** What is used of a part, and given back in a later view *)

Lemma use_part_data γ q W :
  use_part γ q W -∗ access_share (arc_shares (op_data γ)) q W ∗
  ∀ W', ⌜W ⊆ W'⌝ -∗ access_share (arc_shares (op_data γ)) q W' -∗ use_part γ q W'.
Proof. iIntros "($ & Ha & Hc & Hb)" (W' Hle) "$". mono "Ha Hc Hb" Hle. iFrame. Qed.

Lemma use_part_alloc γ q W :
  use_part γ q W -∗ access_share (arc_shares (op_alloc γ)) q W ∗ based (op_abase γ) q W ∗
  ∀ W', ⌜W ⊆ W'⌝ -∗ access_share (arc_shares (op_alloc γ)) q W' -∗ based (op_abase γ) q W -∗
    use_part γ q W'.
Proof.
  iIntros "(Hd & $ & Hc & $)" (W' Hle) "$ Hb". mono "Hd Hc Hb" Hle. iFrame.
Qed.

Lemma use_part_cell γ q W :
  use_part γ q W -∗ access_share (cell_shares (op_cell γ)) q W ∗
  ∀ W', ⌜W ⊆ W'⌝ -∗ access_share (cell_shares (op_cell γ)) q W' -∗ use_part γ q W'.
Proof. iIntros "(Hd & Ha & $ & Hb)" (W' Hle) "$". mono "Hd Ha Hb" Hle. iFrame. Qed.

Lemma weak_part_use γ q W :
  weak_part γ q W -∗ use_part γ q W ∗
  ∀ W', ⌜W ⊆ W'⌝ -∗ use_part γ q W' -∗ weak_part γ q W'.
Proof. iIntros "[[$ Hb] Hj]" (W' Hle) "$". mono "Hb Hj" Hle. iFrame. Qed.

Lemma locked_part_use γ q W :
  locked_part γ q W -∗ use_part γ (q / 2) W ∗
  ∀ W', ⌜W ⊆ W'⌝ -∗ use_part γ (q / 2) W' -∗ locked_part γ q W'.
Proof.
  iIntros "(Hp & $ & [$ Hb] & Hx)" (W' Hle) "$". mono "Hp Hb Hx" Hle. iFrame.
Qed.
(** All there is, for the first or the only [Arc]. *)
Lemma opt_parts γ W :
  use_part γ 1 W -∗ based (op_base γ) 1 W -∗ recorded (op_joins γ) implicit_part W -∗
  own_part γ implicit_part W ∗ weak_part γ implicit_part W.
Proof.
  iIntros "Hu Hb $". rewrite (frac_view_halves (use_part γ)) (frac_view_halves (based _)).
  iDestruct "Hu" as "[$ $]". iDestruct "Hb" as "[$ $]".
Qed.

End parts.
