(* ===== verification/OptAlloc.v ===== *)
(** * The allocation counter of 06-03

    The protocol of [alloc_ref_count]: the [Weak]s are its handles, the [Arc]s
    share the handle 0, and [get_mut] locks it. *)

From Stdlib Require Import Qcanon.
From iris.proofmode Require Import proofmode.
From iris.base_logic.lib Require Import ghost_map ghost_var.
From S2P Require Import Prelude Memory History Lang Logic Shares Counted DataCell.
From S2P Require Import Optimized.

(** ** The history of the allocation counter

    The counter has the value [usize::MAX] while it is locked.  The protocol is
    that of a counter with the history [h'], in which these writes count 1; it
    ends with the same write, at [tm].  The store that unlocks, the last of them
    at [u], may leave a gap after such a write. *)
Definition alloc_hist (n : nat) (h h' : hist) (tm u : time) : Prop :=
  newest h tm ∧ newest h' tm ∧ u ≤ tm ∧ is_Some (h !! u) ∧
  (∀ t m, h !! t = Some m → h !! S t = None → t = tm ∨ mval m = usize_MAX ∧ t < u) ∧
  map_Forall (λ _ m, mval m = usize_MAX ∨ (0 <= mval m <= Z.of_nat (S n))%Z) h.

(** The [Weak]s were used after the last unlocking. *)
Definition weak_ops (h : hist) (u : time) (M : handles) : Prop :=
  ∀ i b a q, M !! i = Some (b, a, q) → i ≠ 0 → u ≤ a ∧ is_Some (h !! a).

(** The only handle is that of the [Arc]s. *)
Abbreviation no_weak := ({[0 := (0, 0, implicit_part)]} : handles).

Lemma no_weak_own : total no_weak = Qp_to_Qc implicit_part.
Proof. by rewrite -insert_empty total_insert // /total map_fold_empty Qcplus_0_r. Qed.

Lemma no_weak_total : (Qp_to_Qc implicit_part + total no_weak)%Qc = Qp_to_Qc 1.
Proof. by rewrite no_weak_own -Qp.to_Qc_inj_add Qp.half_half. Qed.

(** There is always something left for a new [Weak]. *)
Definition spare (M : handles) : Prop := ∃ r : Qp, (Qp_to_Qc r + total M)%Qc = Qp_to_Qc 1.

Lemma alloc_hist_step n h h' tm u m m' :
  alloc_hist n h h' tm u → mval m = usize_MAX ∨ (0 <= mval m <= Z.of_nat (S n))%Z →
  alloc_hist n (<[S tm := m]> h) (<[S tm := m']> h') (S tm) u.
Proof.
  intros (Hnew & Hnew' & Hu & Hhu & Hgap & Hb) Hm. split_and!.
  - eapply newest_insert_last; [done|lia].
  - eapply newest_insert_last; [done|lia].
  - lia.
  - rewrite lookup_insert_ne //. lia.
  - intros t m0 [[<- <-]|[Hne Hm0]]%lookup_insert_Some Hfree; [by left|].
    apply lookup_insert_None in Hfree as [Hfree ?]. right.
    destruct (Hgap _ _ Hm0 Hfree) as [->|?]; [lia|done].
  - by apply map_Forall_insert_2.
Qed.

Lemma alloc_hist_unlock n h h' h2 tm u t m :
  alloc_hist n h h' tm u → mval <$> h !! tm = Some usize_MAX → tm < t → newest h2 t →
  (0 <= mval m <= Z.of_nat (S n))%Z → alloc_hist n (<[t := m]> h) h2 t t.
Proof.
  intros (Hnew & Hnew' & Hu & Hhu & Hgap & Hb) Hmax Ht Hnew2 Hm. split_and!; try done.
  - eapply newest_insert_last; [done|lia].
  - rewrite lookup_insert_eq. by eexists.
  - intros t0 m0 [[<- <-]|[Hne Hm0]]%lookup_insert_Some Hfree; [by left|right].
    apply lookup_insert_None in Hfree as [Hfree ?].
    destruct (Hgap _ _ Hm0 Hfree) as [->|[? ?]]; [|split; [done|lia]].
    rewrite Hm0 in Hmax. by injection Hmax.
  - apply map_Forall_insert_2; [by right|done].
Qed.

(** A successful read-modify-write reads the newest write. *)
Lemma alloc_hist_newest n h h' tm u t m :
  alloc_hist n h h' tm u → h !! t = Some m → h !! S t = None →
  mval m ≠ usize_MAX ∨ u ≤ t → t = tm.
Proof.
  intros (_ & _ & _ & _ & Hgap & _) Hm Hfree H.
  destruct (Hgap _ _ Hm Hfree) as [|[? ?]]; [done|]. destruct H; [done|lia].
Qed.

Lemma weak_ops_step h u M M' t m :
  weak_ops h u M → u ≤ t →
  (∀ i b a q, M' !! i = Some (b, a, q) → i ≠ 0 → a = S t ∨ ∃ y, M !! i = Some (b, a, y)) →
  weak_ops (<[S t := m]> h) u M'.
Proof.
  intros Hops Hu HM i b a q Hi Hne. destruct (HM _ _ _ _ Hi Hne) as [->|[y Hy]].
  - rewrite lookup_insert_eq. split; [lia|by eexists].
  - destruct (Hops _ _ _ _ Hy Hne) as [? ?]. split; [done|].
    rewrite lookup_insert_is_Some. destruct (decide (S t = a)); [by left|by right].
Qed.

Lemma spare_total M M' : total M' = total M → spare M → spare M'.
Proof. by rewrite /spare => ->. Qed.

Lemma no_weak_spare : spare no_weak.
Proof. exists implicit_part. apply no_weak_total. Qed.

Lemma spare_delete M i y : M !! i = Some y → spare M → spare (delete i M).
Proof.
  intros Hi [r Hr]. exists (r + y.2)%Qp. rewrite -Hr (total_delete M i y) // Qp.to_Qc_inj_add.
  ring.
Qed.

(** ** The protocol of the allocation counter *)

Section alloc.
Context `{!rustGS Σ, !optG Σ}.
Implicit Types (γ : opt_name) (l : loc) (q c : Qp) (W R B : view) (V : tview).
Implicit Types (M : handles) (h : hist) (i j k : nat) (t u : time) (m : msg).

(** What dropped [Weak]s returned may be used in the view [B] too. *)
Definition returned_part γ B q R : iProp Σ := weak_part γ q (R ∪ B).

#[global] Instance returned_part_frac γ B : FracView (returned_part γ B).
Proof.
  split.
  - intros q W W' Hle. apply (frac_view_mono (P := weak_part γ)). by apply union_mono_r.
  - intros q1 q2 W. apply (frac_view_split (P := weak_part γ)).
Qed.

Abbreviation alloc_counter γ B := (counter_proto (returned_part γ B) None (op_alloc γ)).
Abbreviation lock_state γ := (ghost_var (op_lock γ)).

Definition alloc_rest γ l h h' t u M B : iProp Σ :=
  (∃ X, record (op_unlocks γ) X ∗ ⌜Coh l u ∈ X⌝) ∗ ghost_var (op_abase γ) (1/2) B ∗
  ⌜alloc_hist (arc_budget (op_alloc γ)) h h' t u⌝ ∗ ⌜weak_ops h u M⌝.

(** The counter is open... *)
Definition alloc_open γ l h t m M : iProp Σ :=
  ∃ h' u R B, alloc_counter γ B 1 M R h' ∗ alloc_rest γ l h h' t u M B ∗ ⌜spare M⌝ ∗
    ⌜h !! t = Some m⌝ ∗ ⌜h' !! t = Some m⌝ ∗ lock_state γ 1 None.
(** ... or locked, by an [Arc] that left its part of the handle 0 and its credit... *)
Definition alloc_shut γ l h t s q : iProp Σ :=
  ∃ h' u B, alloc_counter γ B implicit_part no_weak ∅ h' ∗
    alloc_rest γ l h h' t u no_weak B ∗
    ⌜s = None → h !! t = h' !! t⌝ ∗ ⌜s ≠ None → mval <$> h !! t = Some usize_MAX⌝ ∗
    lock_state γ (1/2) (Some (t, s)) ∗ id_part γ q ∗ ∃ n : nat, n ↪[arc_credits (op_alloc γ)] t.
(** ... which is unlocked while the data is lent. *)
Definition alloc_proto γ l h : iProp Σ :=
  (∃ t m M, alloc_open γ l h t m M) ∨ (∃ t q, alloc_shut γ l h t (Some q) q) ∨
  (∃ t, alloc_shut γ l h t None 1).

#[global] Instance alloc_proto_timeless γ l h : Timeless (alloc_proto γ l h).
Proof. apply _. Qed.

Lemma alloc_rest_bound γ l h h' t u M B t' m :
  h !! t' = Some m → alloc_rest γ l h h' t u M B -∗
  ⌜mval m = usize_MAX ∨ (0 <= mval m <= Z.of_nat (S (arc_budget (op_alloc γ))))%Z⌝.
Proof.
  iIntros (Hm) "(_ & _ & %Hh & _)". iPureIntro. destruct Hh as (_ & _ & _ & _ & _ & Hb).
  by apply (Hb t').
Qed.

(** What can be read. *)
Lemma alloc_read γ l h t m :
  h !! t = Some m → alloc_proto γ l h -∗
  ⌜mval m = usize_MAX ∨ (0 <= mval m <= Z.of_nat (S (arc_budget (op_alloc γ))))%Z⌝.
Proof.
  iIntros (Hm) "[(%t' & %m' & %M & %h' & %u & %R & %B & _ & Hr & _)|
    [(%t' & %q & %h' & %u & %B & _ & Hr & _)|(%t' & %h' & %u & %B & _ & Hr & _)]]";
    by iApply (alloc_rest_bound with "Hr").
Qed.

(** Who has a part of the handle 0 and reads a count finds the counter open. *)
Lemma alloc_enter_value γ l h t m q :
  h !! t = Some m → h !! S t = None → mval m ≠ usize_MAX →
  alloc_proto γ l h -∗ id_part γ q -∗ ∃ M, alloc_open γ l h t m M ∗ id_part γ q.
Proof.
  iIntros (Hm Hfree Hv) "[(%t' & %m' & %M & %h' & %u & %R & %B & HPr & Hr & %Hsp & %Ht & %Ht' & Hl)|
    [(%t' & %q' & %h' & %u & %B & _ & Hr & _ & %Hmax & _)|(%t' & %h' & %u & %B & _ & _ & _ & _ & _ & Hi' & _)]] Hi".
  - iAssert ⌜t = t'⌝%I as %<-.
    { iDestruct "Hr" as "(_ & _ & %Hh & _)". iPureIntro. eapply alloc_hist_newest; [done..|by left]. }
    simplify_eq. iExists M. iFrame "Hi". iExists h', u, R, B. by iFrame.
  - iDestruct "Hr" as "(_ & _ & %Hh & _)".
    assert (t = t') as <- by (eapply alloc_hist_newest; [done..|by left]).
    rewrite Hm in Hmax. by injection (Hmax ltac:(done)).
  - iCombine "Hi Hi'" gives %[Hq _]. exfalso. by apply Qp.not_add_le_r in Hq.
Qed.

(** What the holder of a [Weak] knows of the unlockings: a [Weak] was made after
    the last one, and the last [Arc] has seen them all. *)
Definition unlocks_seen γ l i a W : iProp Σ :=
  ⌜Coh l a ∈ W⌝ ∗ (⌜i ≠ 0⌝ ∨ recorded (op_unlocks γ) 1 W).

Lemma alloc_enter_handle γ l h t m i b a q W :
  h !! t = Some m → h !! S t = None → coh_le l h W t →
  alloc_proto γ l h -∗ i ↪[arc_handles (op_alloc γ)] (b, a, q) -∗ alive (op_alloc γ) i -∗
  unlocks_seen γ l i a W -∗
  ∃ M, alloc_open γ l h t m M ∗ i ↪[arc_handles (op_alloc γ)] (b, a, q) ∗ alive (op_alloc γ) i ∗
    unlocks_seen γ l i a W.
Proof.
  iIntros (Hm Hfree Hle) "[(%t' & %m' & %M & %h' & %u & %R & %B & HPr & Hr & %Hsp & %Ht & %Ht' & Hl)|H] Hi Hi' Hs".
  - iDestruct (counter_handle with "HPr Hi") as %Hi. iDestruct "Hs" as "[%Ha Hs]".
    iAssert ⌜u ≤ t⌝%I as %Hu.
    { iDestruct "Hr" as "((%X & HX & %HuX) & _ & %Hh & %Hops)".
      destruct Hh as (_ & _ & _ & [mu Hmu] & _).
      iDestruct "Hs" as "[%Hne|Hs]".
      - iPureIntro. destruct (Hops _ _ _ _ Hi Hne) as [? [ma Hma]].
        etrans; [done|]. by apply (Hle a ma).
      - iDestruct (record_all with "HX Hs") as %HX. iPureIntro. apply (Hle u mu); [done|]. by apply HX. }
    iAssert ⌜t = t'⌝%I as %<-.
    { iDestruct "Hr" as "(_ & _ & %Hh & _)". iPureIntro. eapply alloc_hist_newest; [done..|by right]. }
    simplify_eq. iExists M. iFrame "Hi Hi'". iSplitR "Hs"; [|by iFrame "Hs"]. iExists h', u, R, B. by iFrame.
  - iAssert (∃ h' B q', alloc_counter γ B implicit_part no_weak ∅ h' ∗
      id_part γ q')%I with "[H]" as (h' B q') "[HPr Hid]".
    { iDestruct "H" as "[(%t' & %q' & %h' & %u & %B & HPr & _ & _ & _ & _ & Hid & _)|
        (%t' & %h' & %u & %B & HPr & _ & _ & _ & _ & Hid & _)]"; iExists h', B, _; iFrame. }
    iDestruct (counter_handle with "HPr Hi") as %[<- _]%lookup_singleton_Some.
    iDestruct "Hi'" as (b') "Hi'". iCombine "Hi' Hid" gives %[Hq _]. exfalso. by apply Qp.not_add_le_l in Hq.
Qed.

(** The next write, with which the counter stays open. *)
Lemma alloc_step γ l h h' t u M M' B R m m' :
  h !! t = Some m →
  (∀ i b a q, M' !! i = Some (b, a, q) → i ≠ 0 → a = S t ∨ ∃ y, M !! i = Some (b, a, y)) →
  spare M' →
  alloc_counter γ B 1 M' R (<[S t := m']> h') -∗ alloc_rest γ l h h' t u M B -∗
  lock_state γ 1 None -∗ alloc_proto γ l (<[S t := m']> h).
Proof.
  iIntros (Hm HM Hsp) "HPr (HX & HB & %Hh & %Hops) Hl".
  iDestruct (counter_bound _ _ _ _ _ _ _ (S t) m' with "HPr") as %Hb; [apply lookup_insert_eq|].
  iLeft. iExists (S t), m', M', _, u, R, B. iFrame "HPr Hl HB HX". rewrite !lookup_insert_eq.
  iPureIntro. split_and!; try done; [by apply alloc_hist_step; [|right]|].
  eapply weak_ops_step; [done| |done]. by destruct Hh as (_ & _ & ? & _).
Qed.

Lemma alloc_fresh M : ∃ j, M !! j = None ∧ j ≠ 0.
Proof.
  exists (fresh ({[0]} ∪ dom M)). pose proof (is_fresh ({[0]} ∪ dom M)) as Hf.
  split; [apply not_elem_of_dom; set_solver|set_solver].
Qed.

(** [Weak::clone] *)
Lemma alloc_clone γ l h t m M m' i b a q (k : nat) (tk : time) :
  h !! S t = None → mval m' = (mval m + 1)%Z → mview m ⊆ mview m' →
  alloc_open γ l h t m M -∗ i ↪[arc_handles (op_alloc γ)] (b, a, q) -∗
  k ↪[arc_credits (op_alloc γ)] tk ==∗
  ∃ j, ⌜j ≠ 0⌝ ∗ ⌜(0 <= mval m < usize_MAX)%Z⌝ ∗ alloc_proto γ l (<[S t := m']> h) ∗
    i ↪[arc_handles (op_alloc γ)] (b, S t, (q / 2)%Qp) ∗
    j ↪[arc_handles (op_alloc γ)] (S t, S t, (q / 2)%Qp) ∗ alive_since (op_alloc γ) j (S t).
Proof.
  iIntros (Hfree Hv Hw) "(%h' & %u & %R & %B & HPr & Hr & %Hsp & %Hm & %Hm' & Hl) Hi Hk".
  destruct (alloc_fresh M) as (j & Hj & Hj0). iDestruct (counter_handle with "HPr Hi") as %Hi.
  iAssert ⌜h' !! S t = None⌝%I as %Hfree'.
  { iDestruct "Hr" as "(_ & _ & %Hh & _)". iPureIntro. apply newest_succ_free, Hh. }
  iMod (counter_clone _ _ _ _ _ _ _ t m m' i b a q j with "HPr Hi Hk") as "($ & HPr & $ & Hj & Hd)"; [done..|].
  iModIntro. iExists j. iFrame "Hj Hd". iSplit; [done|].
  iApply (alloc_step with "HPr Hr Hl"); [done| |].
  - intros i' b' a' q' [[<- [= <- <- <-]]|[_ Hi']]%lookup_insert_Some _; [by left|].
    apply lookup_insert_Some in Hi' as [[<- [= <- <- <-]]|[_ Hi']]; [by left|by right; eexists].
  - eapply spare_total; [|done]. rewrite total_insert ?lookup_insert_ne; [|congruence..].
    rewrite (total_update _ _ (b, a, q)) //= -{3}(Qp.div_2 q) Qp.to_Qc_inj_add. ring.
Qed.

(** [Weak::drop]; the last one takes all that was returned. *)
Lemma alloc_drop γ l h t m M i b a q W :
  alloc_open γ l h t m M -∗ i ↪[arc_handles (op_alloc γ)] (b, a, q) -∗ alive (op_alloc γ) i -∗
  weak_part γ q W ==∗
  ⌜(1 <= mval m <= usize_MAX)%Z⌝ ∗
  alloc_proto γ l (<[S t := Msg (mval m - 1) (W ∪ mview m)]> h) ∗
  (∃ k : nat, k ↪[arc_credits (op_alloc γ)] S t) ∗
  (⌜mval m = 1%Z⌝ ∗ gone (op_alloc γ) (S t) ∗ weak_part γ 1 (W ∪ mview m) ∨ ⌜mval m ≠ 1%Z⌝).
Proof.
  iIntros "(%h' & %u & %R & %B & HPr & Hr & %Hsp & %Hm & %Hm' & Hl) Hi Hi' Hp".
  iDestruct (counter_handle with "HPr Hi") as %Hi.
  iAssert ⌜h' !! S t = None⌝%I as %Hfree'.
  { iDestruct "Hr" as "(_ & _ & %Hh & _)". iPureIntro. apply newest_succ_free, Hh. }
  iAssert ⌜B ⊆ W⌝%I as %HB.
  { iDestruct "Hr" as "(_ & HB & _)". iDestruct "Hp" as "[[(_ & _ & _ & Hb) _] _]".
    iApply (based_seen with "HB Hb"). }
  iMod (counter_drop _ _ _ _ _ _ _ t m W with "HPr Hi Hi' [Hp]") as "($ & _ & _ & %HR & HPr & $ & Hlast)"; [done..| |].
  { iApply (frac_view_mono (P := weak_part γ) with "Hp"). set_solver. }
  iModIntro. iSplitR "Hlast".
  - iApply (alloc_step with "HPr Hr Hl"); [done| |by eapply spare_delete].
    intros i' b' a' q' [_ Hi']%lookup_delete_Some _. by right; eexists.
  - iDestruct "Hlast" as "[(% & Hg & Hp)|%]"; [iLeft|by iRight]. iFrame "Hg". iSplit; [done|].
    iApply (frac_view_mono (P := weak_part γ) with "Hp"). set_solver.
Qed.

(** A new [Weak] gets half of what dropped [Weak]s returned. *)
Lemma alloc_join γ l h t m M m' q q0 W (k : nat) (tk : time) :
  h !! S t = None → mval m' = (mval m + 1)%Z → mview m ⊆ mview m' →
  alloc_open γ l h t m M -∗ id_part γ q -∗ based (op_abase γ) q0 W -∗
  k ↪[arc_credits (op_alloc γ)] tk ==∗
  ∃ j q', ⌜j ≠ 0⌝ ∗ alloc_proto γ l (<[S t := m']> h) ∗ id_part γ q ∗ based (op_abase γ) q0 W ∗
    j ↪[arc_handles (op_alloc γ)] (S t, S t, q') ∗ alive_since (op_alloc γ) j (S t) ∗
    weak_part γ q' (mview m ∪ W).
Proof.
  iIntros (Hfree Hv Hw) "(%h' & %u & %R & %B & HPr & Hr & %Hsp & %Hm & %Hm' & Hl) Hid Hb Hk".
  destruct (alloc_fresh M) as (j & Hj & Hj0).
  iDestruct (counter_made with "HPr Hid") as %(a & q1 & H0).
  assert (M ≠ ∅) as HM by (intros ->; done). destruct (total_Qp M HM) as [s Hs].
  iAssert ⌜B ⊆ W⌝%I as %HB.
  { iDestruct "Hr" as "(_ & HB & _)". iApply (based_seen with "HB Hb"). }
  iAssert ⌜h' !! S t = None⌝%I as %Hfree'.
  { iDestruct "Hr" as "(_ & _ & %Hh & _)". iPureIntro. apply newest_succ_free, Hh. }
  iDestruct (counter_newest with "HPr") as %[Hok Hval]; [done..|].
  destruct Hsp as [r Hr]. iDestruct (counter_returned with "HPr") as (r' t' m0 Hnew Hm0 HR Hr') "[Hret HPr]"; [done|].
  assert (t' = t) as -> by (eapply newest_unique; [done|apply Hok]). simplify_eq.
  iDestruct (returned_full (returned_part γ B) _ r with "Hret") as "Hret".
  { apply (Qcplus_inj_r (total M)). by rewrite !(Qcplus_comm (total M)) Hr' Hr. }
  rewrite (frac_view_div_2 (returned_part γ B)). iDestruct "Hret" as "[Hret Hnew]".
  iDestruct ("HPr" $! _ (Some (r / 2)%Qp) R (r / 2 + s)%Qp with "[%] [//] Hret") as "HPr".
  { by rewrite Qp.to_Qc_inj_add -Hs. }
  iMod (counter_join _ _ _ _ _ _ _ t m m' (r / 2)%Qp j with "HPr Hk") as "(_ & HPr & Hj & Hd)"; [done..| |done|done|].
  { rewrite Hval. intros H%(Nat2Z.inj _ 0). by apply HM, map_size_empty_inv. }
  replace (r / 2 + s + r / 2)%Qp with 1%Qp; last first.
  { apply Qp.to_Qc_inj_iff. etrans; [symmetry; exact Hr|].
    rewrite -{1}(Qp.div_2 r) !Qp.to_Qc_inj_add Hs. ring. }
  iModIntro. iExists j, (r / 2)%Qp. iFrame "Hid Hb Hj Hd". iSplit; [done|]. iSplitR "Hnew".
  - iApply (alloc_step with "HPr Hr Hl"); [done| |].
    + intros i' b' a' q' [[<- [= <- <- <-]]|[_ Hi']]%lookup_insert_Some _; [by left|by right; eexists].
    + exists (r / 2)%Qp. rewrite total_insert // -Hr -{3}(Qp.div_2 r) Qp.to_Qc_inj_add. cbn [snd]. ring.
  - iApply (frac_view_mono (P := weak_part γ) with "Hnew"). set_solver.
Qed.

(** *** Locking *)

Lemma alloc_lock γ l h t m M m' q q0 q1 W (k : nat) (tk : time) :
  h !! S t = None → mval m = 1%Z → mval m' = usize_MAX →
  alloc_open γ l h t m M -∗ handle_part γ q1 -∗ id_part γ q -∗ based (op_abase γ) q0 W -∗
  k ↪[arc_credits (op_alloc γ)] tk ==∗
  alloc_proto γ l (<[S t := m']> h) ∗ handle_part γ q1 ∗ based (op_abase γ) q0 W ∗
  lock_state γ (1/2) (Some (S t, Some q)) ∗ weak_part γ implicit_part (mview m ∪ W).
Proof.
  iIntros (Hfree H1 Hmax) "(%h' & %u & %R & %B & HPr & (HX & HB & %Hh & %Hops) & %Hsp & %Hm & %Hm' & Hl) Hi Hid Hb Hk".
  pose proof (newest_succ_free _ _ (proj1 (proj2 Hh))) as Hfree'.
  iDestruct (counter_newest with "HPr") as %[Hok Hval]; [done..|].
  iDestruct (counter_handle with "HPr Hi") as %Hi.
  assert (M = no_weak) as -> by (apply map_size_1_inv; [done|lia]).
  iDestruct (based_seen with "HB Hb") as %HB.
  iDestruct (counter_returned with "HPr") as (r' t' m0 Hnew Hm0 HR Hr') "[Hret HPr]"; [done|].
  assert (t' = t) as -> by (eapply newest_unique; [done|apply Hok]). simplify_eq.
  iDestruct (returned_full (returned_part γ B) _ implicit_part with "Hret") as "Hret".
  { apply (Qcplus_inj_r (total no_weak)). rewrite !(Qcplus_comm (total no_weak)) Hr'.
    symmetry. apply no_weak_total. }
  iDestruct ("HPr" $! (returned_part γ B) None ∅ implicit_part with "[%] [%] [//]") as "HPr".
  { by rewrite no_weak_own Qcplus_0_l. }
  { apply empty_subseteq. }
  iMod (counter_touch _ _ _ _ _ _ t m (Msg (mval m) ∅) with "HPr Hk") as "[HPr Hk]"; [done..|].
  iMod (ghost_var_update (Some (S t, Some q)) with "Hl") as "[Hl $]".
  iModIntro. iFrame "Hi Hb". iSplitR "Hret".
  - iRight. iLeft. iExists (S t), q, _, u, B. iFrame "HPr Hl Hid HX HB". iSplit; [|iSplit; [done|iSplit]].
    + iPureIntro. split; [apply alloc_hist_step; [done|by left]|].
      eapply weak_ops_step; [done|apply Hh|]. intros. by right; eexists.
    + iPureIntro. intros _. by rewrite lookup_insert_eq /= Hmax.
    + by iExists k.
  - iApply (frac_view_mono (P := weak_part γ) with "Hret"). set_solver.
Qed.

(** The lock is taken: the store that releases it. *)
Lemma alloc_unlock γ l h t tl q q1 W W2 m :
  coh_lt l h W t → Coh l tl ∈ W → mval m = 1%Z →
  alloc_proto γ l h -∗ lock_state γ (1/2) (Some (tl, Some q)) -∗
  recorded (op_unlocks γ) q1 W2 ==∗
  ∃ h' B, alloc_counter γ B implicit_part no_weak ∅ h' ∗
    alloc_rest γ l (<[t := m]> h) h' t t no_weak B ∗ ⌜h' !! t = Some m⌝ ∗
    lock_state γ 1 (Some (tl, Some q)) ∗ id_part γ q ∗
    (∃ k : nat, k ↪[arc_credits (op_alloc γ)] t) ∗ recorded (op_unlocks γ) q1 (W2 ∪ {[Coh l t]}).
Proof.
  iIntros (Hlt Htl H1) "[(%t' & %m' & %M & %h' & %u & %R & %B & _ & _ & _ & _ & _ & Hl)|
    [(%t' & %q' & %h' & %u & %B & HPr & ((%X & HX & %HuX) & HB & %Hh & %Hops) & _ & %Hmax & Hl & Hid & %k & Hk)|
     (%t' & %h' & %u & %B & _ & _ & _ & _ & Hl & _)]] Hl' Hu".
  1: { iCombine "Hl Hl'" gives %[Hv _]. by apply Qp.not_add_le_l in Hv. }
  2: { by iDestruct (ghost_var_agree with "Hl Hl'") as %?. }
  iDestruct (ghost_var_agree with "Hl Hl'") as %[= -> ->]. iCombine "Hl Hl'" as "Hl".
  destruct (Hh) as (_ & Hnew' & _). destruct (proj1 Hnew') as [m0 Hm0].
  specialize (Hmax ltac:(done)). destruct (h !! tl) as [m2|] eqn:Hm2; [|done].
  pose proof (Hlt _ _ Hm2 Htl) as Ht. simpl in Ht.
  iDestruct (counter_newest with "HPr") as %[_ Hval]; [done|by apply newest_succ_free|].
  iMod (counter_jump _ _ _ _ _ _ tl m0 t m with "HPr Hk") as (h2 Hnew2 Hm) "[HPr Hk]"; [done..| |done|done|done|].
  { by rewrite H1 Hval. }
  iDestruct (counter_bound with "HPr") as %Hb; [exact Hm|].
  iMod (record_add _ _ _ _ {[Coh l t]} with "HX Hu") as "[HX $]".
  iModIntro. iExists h2, B. iFrame "HPr Hl Hid HB". iSplitL "HX".
  - iSplitL; [iExists _; iFrame "HX"; iPureIntro; set_solver|]. iPureIntro. split.
    + eapply alloc_hist_unlock; [done|by rewrite Hm2|done..].
    + by intros i b a q2 [<- _]%lookup_singleton_Some ?.
  - iSplit; [done|]. by iExists k.
Qed.

(** The counter is open again, with what was taken out. *)
Lemma alloc_reopen γ l h h' t u B B' R m (s : option (time * option Qp)) :
  h !! t = Some m → h' !! t = Some m → R ⊆ mview m →
  alloc_counter γ B implicit_part no_weak ∅ h' -∗ alloc_rest γ l h h' t u no_weak B' -∗
  weak_part γ implicit_part (R ∪ B') -∗ lock_state γ 1 s ==∗ alloc_proto γ l h.
Proof.
  iIntros (Hm Hm' HR) "HPr Hr Hp Hl". iMod (ghost_var_update None with "Hl") as "Hl". iModIntro.
  iDestruct (counter_returned with "HPr") as (r' t' m0 Hnew Hm0 _ _) "[_ HPr]"; [done|].
  iAssert ⌜t' = t⌝%I as %->.
  { iDestruct "Hr" as "(_ & _ & %Hh & _)". iPureIntro. eapply newest_unique; [done|apply Hh]. }
  simplify_eq.
  iDestruct ("HPr" $! (returned_part γ B') (Some implicit_part) R 1%Qp with "[%] [//] Hp") as "HPr".
  { apply no_weak_total. }
  iLeft. iExists t, m, no_weak, h', u, R, B'. iFrame "HPr Hr Hl". iPureIntro.
  split_and!; [apply no_weak_spare|done..].
Qed.

(** While the data is lent all of the handle 0 is here... *)
Lemma alloc_lend γ l h h' t B m (s : option (time * option Qp)) (k : nat) :
  h !! t = Some m → h' !! t = Some m →
  alloc_counter γ B implicit_part no_weak ∅ h' -∗ alloc_rest γ l h h' t t no_weak B -∗
  lock_state γ 1 s -∗ id_part γ 1 -∗ k ↪[arc_credits (op_alloc γ)] t ==∗
  alloc_proto γ l h ∗ lock_state γ (1/2) (Some (t, None)).
Proof.
  iIntros (Hm Hm') "HPr Hr Hl Hid Hk".
  iMod (ghost_var_update (Some (t, None)) with "Hl") as "[Hl $]". iModIntro.
  do 2 iRight. iExists t, h', t, B. iFrame "HPr Hr Hl Hid". rewrite Hm Hm'.
  do 2 (iSplit; [done|]). by iExists k.
Qed.

(** ... and it is given back when the borrow ends, in the view [W]. *)
Lemma alloc_return γ l h tl W :
  alloc_proto γ l h -∗ lock_state γ (1/2) (Some (tl, None)) -∗ based (op_abase γ) 1 W ==∗
  based (op_abase γ) 1 W ∗
  (weak_part γ implicit_part W ==∗
   alloc_proto γ l h ∗ id_part γ 1 ∗ ∃ k : nat, k ↪[arc_credits (op_alloc γ)] tl).
Proof.
  iIntros "[(%t' & %m' & %M & %h' & %u & %R & %B & _ & _ & _ & _ & _ & Hl)|
    [(%t' & %q' & %h' & %u & %B & _ & _ & _ & _ & Hl & _)|
     (%t' & %h' & %u & %B & HPr & ((%X & HX & %HuX) & HB & %Hh & %Hops) & %Heq & _ & Hl & Hid & Hk)]] Hl' Hb".
  1: { iCombine "Hl Hl'" gives %[Hv _]. by apply Qp.not_add_le_l in Hv. }
  1: { by iDestruct (ghost_var_agree with "Hl Hl'") as %?. }
  iDestruct (ghost_var_agree with "Hl Hl'") as %[= ->]. iCombine "Hl Hl'" as "Hl".
  iDestruct (based_all with "HB Hb") as "[HB _]". iMod (based_set _ _ W with "HB") as "[HB $]".
  iIntros "!> Hp". iFrame "Hid Hk". specialize (Heq eq_refl). destruct (proj1 (proj1 Hh)) as [m Hm].
  iApply (alloc_reopen _ _ _ _ _ _ B W ∅ m with "HPr [HX HB] [Hp] Hl"); [done|by rewrite -Heq|apply empty_subseteq| |].
  - iFrame "HB". iSplitL; [by iExists X; iFrame|done].
  - by rewrite (left_id_L ∅ (∪)).
Qed.

(** *** What may be known *)

Lemma alloc_gone γ l h t dq : alloc_proto γ l h -∗ gone (op_alloc γ) t -∗
  0 ↪[arc_ids (op_alloc γ)]{dq} 0 -∗ False.
Proof.
  iIntros "H #Hg Hid".
  iAssert (∃ B c M R h', alloc_counter γ B c M R h')%I with "[H]" as (B c M R h') "HPr".
  { iDestruct "H" as "[(%t' & %m & %M & %h' & %u & %R & %B & HPr & _)|
      [(%t' & %q' & %h' & %u & %B & HPr & _)|(%t' & %h' & %u & %B & HPr & _)]]";
    iExists B, _, _, _, h'; iFrame "HPr". }
  iDestruct (counter_made with "HPr Hid") as %(a & q & Hi).
  by iDestruct (counter_gone with "HPr Hg") as %(-> & _).
Qed.

(** Who has all the credits finds the count 1. *)
Lemma alloc_all_credits γ l h t m W q :
  h !! t = Some m → coh_le l h W t → Coh l 0 ∈ W →
  alloc_proto γ l h -∗ handle_part γ q -∗ all_credits (op_alloc γ) l W -∗ ⌜mval m = 1%Z⌝.
Proof.
  iIntros (Hm Hle H0) "[(%t' & %m' & %M & %h' & %u & %R & %B & HPr & Hr & _ & %Hm' & %Hm2 & _)|H] Hi Hc".
  - iDestruct (counter_credits_newest with "HPr Hi Hc") as %(tm & m1 & Hnew & Hm1 & H1 & Htm); [done|].
    iDestruct "Hr" as "(_ & _ & %Hh & _)". iPureIntro. destruct Hh as (Hnewh & Hnewh' & _).
    assert (tm = t') as -> by by eapply newest_unique. simplify_eq.
    pose proof (proj2 Hnewh _ _ Hm) as Ht. pose proof (Hle _ _ Hm' Htm) as Ht'. simpl in Ht, Ht'.
    assert (t = t') as -> by lia. by simplify_eq.
  - iDestruct "H" as "[(%t' & %q' & %h' & %u & %B & HPr & _ & _ & _ & _ & _ & %k & Hk)|
      (%t' & %h' & %u & %B & HPr & _ & _ & _ & _ & _ & %k & Hk)]";
    by iDestruct (counter_no_credit with "HPr Hi Hc Hk") as "[]".
Qed.
End alloc.
