(* ===== verification/OptData.v ===== *)
(** * The data counter of 06-03

    The protocol of [data_ref_count]: its handles are the [Arc]s.  A part of
    what they own is in reserve, for a [Weak] that is upgraded.  An upgrade is
    made without a handle of this counter, so the protocol keeps track of the
    last one: who has what all the [Weak]s own has seen it. *)

From Stdlib Require Import Qcanon.
From iris.proofmode Require Import proofmode.
From iris.base_logic.lib Require Import ghost_map ghost_var.
From S2P Require Import Prelude Memory History Lang Logic Rules Std Shares Counted.
From S2P Require Import WeakApi DataCell Optimized.

Section data.
Context `{!rustGS Σ, !optG Σ}.
Context (T : Qp → val → iProp Σ) `{!FracVal T}.
Implicit Types (γ : opt_name) (l : loc) (q c : Qp) (W R B J : view) (V : tview).
Implicit Types (M : handles) (h : hist) (i j k : nat) (t : time) (m : msg) (v : val).

Abbreviation data_counter γ t0 := (counter_proto (arc_part T γ) (Some t0) (op_data γ)).

(** The [Weak]s have seen the last upgrade; no [Arc] made one. *)
Definition joins γ l h t0 : iProp Σ :=
  ∃ J, record (op_joins γ) J ∗ ⌜Coh l t0 ∈ J⌝ ∗ ⌜is_Some (h !! t0)⌝.

(** The data is shared... *)
Definition ds_shared γ c M : iProp Σ :=
  ⌜M ≠ ∅⌝ ∗ recorded (op_joins γ) implicit_part ∅ ∗
  ∃ q0 B, ⌜(q0 + c)%Qp = 1%Qp⌝ ∗ arc_part T γ q0 B ∗ ghost_var (op_base γ) (1/2) B.
(** ... or lent by [get_mut], or being dropped, or dropped. *)
Definition ds_lent γ c M : iProp Σ :=
  ⌜∃ k b a, M = {[k := (b, a, c)]}⌝ ∗ ⌜(c < 1)%Qp⌝ ∗ recorded (op_joins γ) implicit_part ∅ ∗
  ∃ B : view, ghost_var (op_base γ) 1 B.
Definition ds_dropping γ M : iProp Σ := ⌜M = ∅⌝ ∗ id_part γ (1/2).
Definition ds_dropped γ M : iProp Σ := ⌜M = ∅⌝ ∗ ∃ v W, data_val (op_cell γ) 1 v W.

Abbreviation data_state γ c M :=
  (ds_shared γ c M ∨ ds_lent γ c M ∨ ds_dropping γ M ∨ ds_dropped γ M)%I.

Definition data_proto γ l h : iProp Σ :=
  ∃ M R c t0, data_counter γ t0 c M R h ∗ joins γ l h t0 ∗ data_state γ c M.

#[global] Instance data_proto_timeless γ l h : Timeless (data_proto γ l h).
Proof. apply _. Qed.

Lemma state_shared γ c M k q W :
  is_Some (M !! k) → data_state γ c M -∗ based (op_base γ) q W -∗
  ds_shared γ c M ∗ based (op_base γ) q W.
Proof.
  iIntros ([y Hk]) "[$|[(_ & _ & _ & %B & HB)|[[-> _]|[-> _]]]] Hb"; [done| |done..].
  by iDestruct (based_exclusive with "HB Hb") as "[]".
Qed.

Lemma joins_step γ l h t0 t m : joins γ l h t0 -∗ joins γ l (<[t := m]> h) t0.
Proof.
  iIntros "(%J & HJ & % & %)". iExists J. iFrame "HJ". iSplit; [done|]. iPureIntro.
  rewrite lookup_insert_is_Some. destruct (decide (t = t0)); [by left|by right].
Qed.

(** *** Reading the counter

    [F] is what is known, [Q] what it says of the values that are read. *)
Definition data_knows γ l W0 (F : iProp Σ) (Q : Z → Prop) : Prop :=
  ∀ W h t m c M R t0, W0 ⊆ W → h !! t = Some m → coh_le l h W t →
    data_counter γ t0 c M R h -∗ F -∗ ⌜Q (mval m)⌝.
Definition data_counted γ (Q : Z → Prop) (n : Z) : Prop :=
  Q n ∧ (0 <= n <= Z.of_nat (S (arc_budget (op_data γ))))%Z.

Lemma data_read γ l W0 F Q W h t m :
  data_knows γ l W0 F Q → W0 ⊆ W → h !! t = Some m → coh_le l h W t →
  data_proto γ l h -∗ F -∗ ⌜data_counted γ Q (mval m)⌝.
Proof.
  iIntros (HQ HW Hm Hle) "(%M & %R & %c & %t0 & HPr & _) HF".
  iDestruct (counter_bound with "HPr") as %Hb; [done|].
  by iDestruct (HQ with "HPr HF") as %?.
Qed.

Lemma data_knows_nothing γ l : data_knows γ l ∅ True (λ _, True).
Proof. iIntros (W h t m c M R t0 _ _ _) "_ _". done. Qed.

Lemma data_knows_born γ l k W :
  data_knows γ l W (born (op_data γ) l k W) (λ n, n ≠ 0%Z).
Proof.
  iIntros (W' h t m c M R t0 HW Hm Hle) "HPr Hk". mono "Hk" HW.
  iDestruct (counter_born with "HPr Hk") as %H1; [done..|]. iPureIntro. lia.
Qed.

Lemma data_knows_gone γ l t :
  data_knows γ l {[Coh l t]} (gone (op_data γ) t) (λ n, n = 0%Z).
Proof.
  iIntros (W h t' m c M R t0 HW Hm Hle) "HPr Hg".
  iDestruct (counter_gone with "HPr Hg") as %(_ & Hnew & m' & Hm' & H0). iPureIntro.
  assert (t' = t) as ->; [|by simplify_eq]. apply Nat.le_antisymm.
  - by eapply (proj2 Hnew).
  - apply (Hle t m' Hm'). set_solver.
Qed.

(** *** [Weak::upgrade] *)

Lemma data_join γ l h t m m' q W (n : nat) (tn : time) :
  h !! t = Some m → h !! S t = None → mval m ≠ 0%Z → mval m' = (mval m + 1)%Z →
  mview m ⊆ mview m' → Coh l (S t) ∈ W →
  data_proto γ l h -∗ weak_part γ q W -∗ n ↪[arc_credits (op_data γ)] tn ==∗
  data_proto γ l (<[S t := m']> h) ∗ weak_part γ q W ∗
  ∃ k q', k ↪[arc_handles (op_data γ)] (S t, S t, q') ∗ alive_since (op_data γ) k (S t) ∗
    arc_part T γ q' W.
Proof.
  iIntros (Hm Hfree Hne Hv Hw Hcoh) "(%M & %R & %c & %t0 & HPr & (%J & HJ & _) & Hst) [[$ Hb] Hj] Hn".
  iDestruct (counter_newest with "HPr") as %[_ Hsz]; [done..|].
  assert (M ≠ ∅) as HM by (intros ->; by rewrite map_size_empty in Hsz).
  destruct (map_choose M HM) as (k0 & y & Hk0).
  iDestruct (state_shared with "Hst Hb") as "[(_ & Hj0 & %q0 & %B & %Hq & Hres & HB) Hb]"; [by eexists|].
  set (k := fresh (dom M)). assert (M !! k = None) as Hk by apply not_elem_of_dom, is_fresh.
  iMod (counter_join _ _ _ _ _ _ _ _ _ _ (q0 / 2)%Qp k with "HPr Hn") as "(_ & HPr & Hk & Hk')"; [done..|].
  rewrite (frac_view_div_2 (arc_part T γ)). iDestruct "Hres" as "[Hres Hnew]".
  iDestruct (based_seen with "HB Hb") as %HB. iFrame "Hb".
  iMod (record_add _ _ _ _ {[Coh l (S t)]} with "HJ Hj") as "[HJ Hj]".
  iDestruct (recorded_mono _ _ _ W with "Hj") as "$"; [set_solver|]. iModIntro.
  iSplitR "Hk Hk' Hnew".
  - iExists _, R, _, (S t). iFrame "HPr". iSplitL "HJ".
    { iExists _. iFrame "HJ". rewrite lookup_insert_eq. iPureIntro. split; [set_solver|by eexists]. }
    iLeft. iFrame "Hj0". iSplit; [iPureIntro; apply insert_non_empty|].
    iExists _, B. iFrame "Hres HB". iPureIntro. by rewrite (comm_L Qp.add c) assoc_L Qp.div_2.
  - iExists k, _. iFrame "Hk Hk'". by iApply (frac_view_mono (P := arc_part T γ) with "Hnew").
Qed.

(** *** [Arc::clone] *)

Lemma data_clone γ l h t m m' k b a q q0 W (n : nat) (tn : time) :
  h !! t = Some m → h !! S t = None → mval m' = (mval m + 1)%Z → mview m ⊆ mview m' →
  data_proto γ l h -∗ k ↪[arc_handles (op_data γ)] (b, a, q) -∗ based (op_base γ) q0 W -∗
  n ↪[arc_credits (op_data γ)] tn ==∗
  ⌜(0 <= mval m < usize_MAX)%Z⌝ ∗ data_proto γ l (<[S t := m']> h) ∗ based (op_base γ) q0 W ∗
  k ↪[arc_handles (op_data γ)] (b, S t, (q / 2)%Qp) ∗
  ∃ k', k' ↪[arc_handles (op_data γ)] (S t, S t, (q / 2)%Qp) ∗ alive_since (op_data γ) k' (S t).
Proof.
  iIntros (Hm Hfree Hv Hw) "(%M & %R & %c & %t0 & HPr & HJ & Hst) Hk Hb Hn".
  iDestruct (counter_handle with "HPr Hk") as %Hk.
  iDestruct (state_shared with "Hst Hb") as "[(_ & Hres) $]"; [by eexists|].
  set (k' := fresh (dom M)). assert (M !! k' = None) as Hk' by apply not_elem_of_dom, is_fresh.
  iMod (counter_clone _ _ _ _ _ _ _ t m m' k b a q k' with "HPr Hk Hn")
    as "($ & HPr & $ & Hnew & Hnew')"; [done..|].
  iModIntro. iSplitR "Hnew Hnew'"; [|iExists k'; iFrame].
  iExists _, R, c, t0. iFrame "HPr". iSplitL "HJ"; [by iApply joins_step|].
  iLeft. iFrame "Hres". iPureIntro. apply insert_non_empty.
Qed.

(** *** [Arc::drop] *)

(** What the last [Arc] finds: all of the data and of the handle 0. *)
Definition last_part γ W : iProp Σ :=
  locked_part T γ 1 W ∗ id_part γ (1/2) ∗ recorded (op_joins γ) implicit_part ∅.

Lemma data_drop γ l h t m k b a q W :
  h !! t = Some m → h !! S t = None →
  data_proto γ l h -∗ k ↪[arc_handles (op_data γ)] (b, a, q) -∗ alive (op_data γ) k -∗
  arc_part T γ q W ==∗
  ⌜(1 <= mval m <= usize_MAX)%Z⌝ ∗
  data_proto γ l (<[S t := Msg (mval m - 1) (W ∪ mview m)]> h) ∗
  (∃ n : nat, n ↪[arc_credits (op_data γ)] S t) ∗
  (⌜mval m = 1%Z⌝ ∗ gone (op_data γ) (S t) ∗ last_part γ (W ∪ mview m) ∨ ⌜mval m ≠ 1%Z⌝).
Proof.
  iIntros (Hm Hfree) "(%M & %R & %c & %t0 & HPr & HJ & Hst) Hk Hk' Hp".
  iDestruct (counter_handle with "HPr Hk") as %Hk.
  iDestruct "Hp" as "[(Hp & Hh & [Hu Hb] & Hx) Hid]".
  iDestruct (state_shared with "Hst Hb") as "[(_ & Hj0 & %q0 & %B & %Hq & Hres & HB) Hb]"; [by eexists|].
  iDestruct (based_seen with "HB Hb") as %HBW.
  iMod (counter_drop _ _ _ _ _ _ _ t m W with "HPr Hk Hk' [$Hp $Hh $Hu $Hb $Hx $Hid]")
    as "(%Hlt & %Hsz & _ & %HR & HPr & $ & Hlast)"; [done..|]. iSplitR; [done|].
  iDestruct "Hlast" as "[(%H1 & Hg & Hc)|%H1]".
  - assert (M = {[k := (b, a, q)]}) as -> by (apply map_size_1_inv; [done|lia]).
    iAssert (arc_part T γ 1 (W ∪ mview m)) with "[Hres Hc]" as "[Hall [Hid Hid']]".
    { rewrite -Hq (frac_view_split (P := arc_part T γ)).
      iSplitL "Hres"; [iApply (frac_view_mono (P := arc_part T γ) with "Hres")|
        iApply (frac_view_mono (P := arc_part T γ) with "Hc")]; set_solver. }
    iModIntro. iSplitR "Hg Hall Hid Hj0".
    + iExists _, _, c, t0. iFrame "HPr". iSplitL "HJ"; [by iApply joins_step|].
      iRight. iRight. iLeft. iFrame "Hid'". by rewrite delete_singleton_eq.
    + iLeft. iSplit; [done|]. iFrame.
  - iModIntro. iSplitL; [|by iRight]. iExists _, _, c, t0. iFrame "HPr".
    iSplitL "HJ"; [by iApply joins_step|]. iLeft. iFrame "Hj0". iSplit.
    + iPureIntro. intros Hd. apply (f_equal size) in Hd.
      rewrite map_size_empty map_size_delete_Some in Hd; [|by eexists]. lia.
    + iExists q0, B. by iFrame.
Qed.

(** The data was dropped. *)
Lemma data_finish γ l h v q W W' :
  data_proto γ l h -∗ data_val (op_cell γ) 1 v W -∗ based (op_base γ) q W' -∗
  data_proto γ l h ∗ based (op_base γ) q W' ∗ id_part γ (1/2).
Proof.
  iIntros "(%M & %R & %c & %t0 & HPr & HJ & Hst) Hv Hb".
  iDestruct "Hst" as "[(_ & _ & %q0 & %B & _ & [((%v' & Hv' & _) & _) _] & _)|
    [(_ & _ & _ & %B & HB)|[[%HM $]|(_ & %v' & %W2 & Hv')]]]".
  - by iDestruct (data_val_exclusive with "Hv Hv'") as "[]".
  - by iDestruct (based_exclusive with "HB Hb") as "[]".
  - iFrame "Hb". iExists M, R, c, t0. iFrame "HPr HJ". do 3 iRight. iSplit; [done|].
    iExists v, W. iFrame.
  - by iDestruct (data_val_exclusive with "Hv Hv'") as "[]".
Qed.

(** What is left in the end: the content of the cell, unless some [Arc] is still
    there. *)
Lemma data_over γ l h :
  data_proto γ l h -∗ (∃ v W, data_val (op_cell γ) 1 v W) ∨ (∃ q, id_part γ q) ∨
    ∃ B : view, ghost_var (op_base γ) 1 B.
Proof.
  iIntros "(%M & %R & %c & %t0 & _ & _ & Hst)".
  iDestruct "Hst" as "[(_ & _ & %q0 & %B & _ & [_ Hid] & _)|[(_ & _ & _ & HB)|[[_ Hid]|[_ $]]]]".
  - iRight. iLeft. by iExists q0.
  - by iRight; iRight.
  - iRight. iLeft. by iExists _.
Qed.

(** *** [Arc::get_mut]

    Who has locked the allocation counter has what all the [Weak]s own.  When
    it reads 1 it is the only [Arc], and has all after an acquire fence... *)
Lemma data_lend γ l h t m k b a q W :
  h !! t = Some m → coh_le l h W t → Coh l a ∈ W → mval m = 1%Z →
  data_proto γ l h -∗ k ↪[arc_handles (op_data γ)] (b, a, q) -∗ locked_part T γ q W -∗
  based (op_base γ) implicit_part W -∗ recorded (op_joins γ) implicit_part W ==∗
  data_proto γ l h ∗ recorded (op_joins γ) implicit_part W ∗
  ∃ c q', k ↪[arc_handles (op_data γ)] (b, a, c) ∗ ⌜(q + q')%Qp = 1%Qp⌝ ∗ id_part γ q' ∗
    cell_part T id (op_cell γ) 1 (W ∪ mview m) ∗ handle_part γ 1 ∗
    use_part γ implicit_part (W ∪ mview m) ∗ recorded (op_unlocks γ) 1 (W ∪ mview m).
Proof.
  iIntros (Hm Hle Ha H1) "(%M & %R & %c & %t0 & HPr & (%J & HJ & %HtJ & %Ht0) & Hst) Hk Hp Hb Hj".
  iDestruct (counter_handle with "HPr Hk") as %Hk.
  iDestruct (state_shared with "Hst Hb") as "[(_ & Hj0 & %q0 & %B & %Hq & Hres & HB) Hb]"; [by eexists|].
  iAssert ⌜J ⊆ W⌝%I as %HJW.
  { iApply (record_all with "HJ"). iApply (frac_view_halves (recorded _)). iFrame "Hj".
    iApply (recorded_mono with "Hj0"). apply empty_subseteq. }
  assert (t0 ≤ t) as Hle0 by (destruct Ht0 as [m0 Hm0]; apply (Hle t0 m0); [done|by apply HJW]).
  iMod (counter_sole with "HPr Hk") as "(-> & HPr & Hk & %r & %Hr & Hret)"; [done..|].
  iDestruct (based_seen with "HB Hb") as %HBW.
  iAssert (∃ q', ⌜(q + q')%Qp = 1%Qp⌝ ∗ arc_part T γ q' (W ∪ mview m))%I with "[Hret Hres]"
    as (q') "[%Hq' [Hp' Hid]]".
  { iDestruct (frac_view_mono (P := arc_part T γ) q0 B (W ∪ mview m) with "Hres") as "Hres"; [set_solver|].
    iDestruct (returned_mono (arc_part T γ) _ _ (W ∪ mview m) with "Hret") as "Hret"; [set_solver|].
    destruct r as [r|]; simpl in Hr.
    - rewrite -Qp.to_Qc_inj_add in Hr. apply Qp.to_Qc_inj_iff in Hr as <-.
      iExists (q0 + r)%Qp. rewrite (frac_view_split (P := arc_part T γ)). iFrame "Hret Hres".
      iPureIntro. rewrite -Hq !(assoc_L Qp.add) (comm_L Qp.add q). done.
    - rewrite Qcplus_0_r in Hr. apply Qp.to_Qc_inj_iff in Hr as <-. iExists q0. iFrame "Hres".
      by rewrite (comm_L Qp.add). }
  iDestruct (frac_view_mono (P := locked_part T γ) q W (W ∪ mview m) with "Hp") as "Hp"; [set_solver|].
  iAssert (locked_part T γ 1 (W ∪ mview m)) with "[Hp Hp']" as "(Hp & Hh & [Hu Hb'] & Hx)".
  { rewrite -Hq' (frac_view_split (P := locked_part T γ)). iFrame. }
  iAssert (based (op_base γ) 1 (W ∪ mview m)) with "[Hb Hb']" as "Hb".
  { iApply (frac_view_halves (based _)). iFrame "Hb'". iApply (view_mono with "Hb"). set_solver. }
  iDestruct (based_all with "HB Hb") as "[HB _]". iModIntro. iFrame "Hj". iSplitL "HPr HJ Hj0 HB".
  - iExists _, R, c, t0. iFrame "HPr". iSplitL "HJ"; [iExists J; by iFrame|]. iRight. iLeft. iFrame "Hj0".
    iSplit; [by eauto|]. iSplit; [|by iExists B]. iPureIntro. rewrite -Hq. apply Qp.lt_add_r.
  - iExists c, q'. by iFrame.
Qed.

(** ... and gives it back in the view [W]. *)
Lemma data_return γ l h k b a c W W' :
  data_proto γ l h -∗ k ↪[arc_handles (op_data γ)] (b, a, c) -∗
  cell_part T id (op_cell γ) 1 W' ==∗
  based (op_base γ) 1 W ∗ cell_part T id (op_cell γ) 1 W' ∗
  (arc_part T γ 1 W -∗
   data_proto γ l h ∗ k ↪[arc_handles (op_data γ)] (b, a, c) ∗ arc_part T γ c W).
Proof.
  iIntros "(%M & %R & %c' & %t0 & HPr & HJ & Hst) Hk Hp".
  iDestruct (counter_handle with "HPr Hk") as %Hk.
  iDestruct "Hst" as "[(_ & _ & %q0 & %B & _ & [[Hp' _] _] & _)|[(%HM & %Hc & Hj0 & %B & HB)|[[-> _]|[-> _]]]]";
    [by iDestruct (cell_part_exclusive with "Hp Hp'") as "[]"| |done..].
  destruct HM as (k' & b' & a' & ->). apply lookup_singleton_Some in Hk as [-> [= -> -> ->]].
  apply Qp.lt_sum in Hc as [q0 Hq]. iMod (based_set _ _ W with "HB") as "[HB $]".
  iFrame "Hp". iIntros "!> Hp". iEval (rewrite Hq (frac_view_split (P := arc_part T γ))) in "Hp".
  iDestruct "Hp" as "[$ Hr]". iFrame "Hk". iExists _, R, c, t0. iFrame "HPr HJ". iLeft. iFrame "Hj0".
  iSplit; [iPureIntro; apply insert_non_empty|]. iExists q0, W. iFrame. iPureIntro.
  by rewrite Hq (comm_L Qp.add).
Qed.
End data.
