(* ===== verification/OptArc.v ===== *)
(** * The operations of 06-03

    What each method of [Weak] and [Arc] of 06-03_optimization.rs does with the
    handles: [opt_weak γ i x] is a weak pointer and [opt_arc γ k x] an [Arc] to
    the allocation [x]. *)

From iris.proofmode Require Import proofmode.
From iris.base_logic.lib Require Import invariants cancelable_invariants ghost_map ghost_var.
From S2P Require Import Prelude Memory History Lang Logic Rules Std Shares Counted Arc.
From S2P Require Import WeakApi DataCell Optimized OptAlloc OptData.

Section handles.
Context `{!rustGS Σ, !optG Σ}.
Context (T : Qp → val → iProp Σ) `{!FracVal T}.
Implicit Types (γ : opt_name) (x : Optimized.ArcData) (V : tview) (W : view) (q : Qp).
Implicit Types (i j k : nat) (v : val).

Abbreviation dcount x := (Optimized.data_ref_count x).
Abbreviation acount x := (Optimized.alloc_ref_count x).

(** The two counters and the cell, and what every user of them has seen. *)
Definition opt_ctx γ x W : iProp Σ :=
  share_cinv (arc_shares (op_data γ))
    (at_inv (arc_shares (op_data γ)) (dcount x) (op_init γ) (λ h _, data_proto T γ (dcount x) h)) ∗
  share_cinv (arc_shares (op_alloc γ))
    (at_inv (arc_shares (op_alloc γ)) (acount x) (op_init γ) (λ h _, alloc_proto γ (acount x) h)) ∗
  share_cinv (cell_shares (op_cell γ)) (data_inv (op_cell γ) (Optimized.data x)) ∗
  ⌜op_init γ ∪ {[Coh (acount x) 0]} ⊆ W⌝ ∗
  ⌜(Z.of_nat (S (arc_budget (op_alloc γ))) < usize_MAX - 1)%Z ∧
   (Z.of_nat (S (arc_budget (op_data γ))) < usize_MAX)%Z⌝.

#[global] Instance opt_ctx_persistent γ x W : Persistent (opt_ctx γ x W).
Proof. apply _. Qed.
#[global] Instance opt_ctx_mono γ x : ViewMono (opt_ctx γ x).
Proof. intros W W' Hle. iIntros "($ & $ & $ & % & $)". iPureIntro. by etrans. Qed.

Abbreviation alloc_credit γ x := (credit (op_alloc γ) (acount x)).
Abbreviation data_credit γ x := (credit (op_data γ) (dcount x)).

(** A weak pointer; the handle 0 is that of the [Arc]s together. *)
Definition opt_handle γ i x W : iProp Σ :=
  ∃ b a q, i ↪[arc_handles (op_alloc γ)] (b, a, q) ∗ unlocks_seen γ (acount x) i a W ∗
    weak_part γ q W.
Definition opt_weak γ i x W : iProp Σ :=
  opt_ctx γ x W ∗ opt_handle γ i x W ∗ alive (op_alloc γ) i.

(** An [Arc], without its token; it carries a right to write the allocation
    counter. *)
Definition opt_use γ k x W : iProp Σ :=
  ∃ b a q, k ↪[arc_handles (op_data γ)] (b, a, q) ∗ ⌜Coh (dcount x) a ∈ W⌝ ∗ arc_part T γ q W.
Definition opt_arc γ k x W : iProp Σ :=
  opt_ctx γ x W ∗ opt_use γ k x W ∗ alloc_credit γ x W.

#[global] Instance opt_handle_mono γ i x : ViewMono (opt_handle γ i x).
Proof.
  intros W W' Hle. iIntros "(%b & %a & %q & Hi & [% Hs] & Hp)". iExists b, a, q. iFrame "Hi".
  iSplitL "Hs"; [|by iApply (view_mono with "Hp")]. iSplit; [iPureIntro; by apply Hle|].
  iDestruct "Hs" as "[$|Hs]". iRight. by iApply (recorded_mono with "Hs").
Qed.
#[global] Instance opt_weak_mono γ i x : ViewMono (opt_weak γ i x).
Proof. apply _. Qed.
#[global] Instance opt_use_mono γ k x : ViewMono (opt_use γ k x).
Proof.
  intros W W' Hle. iIntros "(%b & %a & %q & Hk & % & Hp)". iExists b, a, q. iFrame "Hk".
  iSplit; [iPureIntro; by apply Hle|]. by iApply (view_mono with "Hp").
Qed.
#[global] Instance opt_arc_mono γ k x : ViewMono (opt_arc γ k x).
Proof. apply _. Qed.

(** *** Upgrading *)

Lemma wpp_opt_load γ x q W0 F Q V Φ :
  data_knows T γ (dcount x) W0 F Q → W0 ⊆ cur V →
  opt_ctx γ x (cur V) -∗ F -∗ weak_part γ q (cur V) -∗
  (∀ n V', ⌜V ⊆ V'⌝ -∗ ⌜data_counted γ Q n⌝ -∗ F -∗ weak_part γ q (cur V') -∗ Φ n V') -∗
  wpp (load (dcount x) Relaxed) V Φ.
Proof.
  iIntros (HQ HW) "(#Hc & _ & _ & %Hin & _) HF Hp HΦ".
  iDestruct (weak_part_use with "Hp") as "[Hu Hp]". iDestruct (use_part_data with "Hu") as "[HS Hu]".
  iApply (wpp_share_load with "[$Hc $HS]"); [done|iPureIntro; set_solver|].
  iIntros "!>" (h A t m e Hm Hle) "HPr". set (V1 := load_view _ _ _ _ _ _).
  assert (V ⊆ V1) as Hle1 by apply load_view_le. assert (cur V ⊆ cur V1) by apply Hle1.
  iDestruct (data_read with "HPr HF") as %Hn; [done..|].
  iModIntro. iFrame "HPr". iIntros "(_ & _ & HS)". iApply ("HΦ" with "[//] [//] HF").
  iApply ("Hp" with "[//]"). by iApply ("Hu" with "[//]").
Qed.

Lemma wpp_opt_upgrade_cas γ x q W0 F Q n V Φ :
  data_knows T γ (dcount x) W0 F Q → W0 ⊆ cur V → n ≠ 0%Z →
  opt_ctx γ x (cur V) -∗ F -∗ weak_part γ q (cur V) -∗ data_credit γ x (cur V) -∗
  (∀ k V', ⌜V ⊆ V'⌝ -∗ F -∗ weak_part γ q (cur V') -∗ opt_use γ k x (cur V') -∗
     born (op_data γ) (dcount x) k (cur V') -∗ Φ (inl n) V') ∧
  (∀ e V', ⌜V ⊆ V'⌝ -∗ ⌜data_counted γ Q e⌝ -∗ F -∗ weak_part γ q (cur V') -∗
     data_credit γ x (cur V') -∗ Φ (inr e) V') -∗
  wpp (compare_exchange_weak (dcount x) n (n + 1) Relaxed Relaxed) V Φ.
Proof.
  iIntros (HQ HW Hn) "(#Hc & _ & _ & %Hin & _) HF Hp Hk HΦ".
  iDestruct (weak_part_use with "Hp") as "[Hu Hp]". iDestruct (use_part_data with "Hu") as "[HS Hu]".
  iApply wpp_bind. iApply (wpp_rmw_open with "Hc HS"); [done..|set_solver|].
  iIntros "!>" (h A t m e Hm Hle) "HPr". iDestruct (data_read with "HPr HF") as %Hcnt; [done..|]. iSplit.
  - iIntros (z Hz Hfree) "HS". set (V1 := rmw_view _ _ _ _ _ _). iDestruct "HΦ" as "[HΦ _]".
    assert (V ⊆ V1) as Hle1 by apply rmw_view_le. assert (cur V ⊆ cur V1) by apply Hle1.
    revert Hz. rewrite /cas_fun. destruct (Z.eqb_spec (mval m) n) as [<-|]; [|done]. intros [= <-].
    iDestruct ("Hu" with "[//] HS") as "Hu". iDestruct ("Hp" with "[//] Hu") as "Hp".
    iDestruct "Hk" as (k0 tk) "[Hk _]".
    iMod (data_join _ _ _ _ _ m (rmw_msg Relaxed (mval m + 1) m V1) with "HPr Hp Hk")
      as "($ & Hp & %k & %q' & Hk & Hk' & Hnew)"; [done..|simpl; set_solver|apply rmw_view_coh|].
    iModIntro. iApply wpp_ret. iApply ("HΦ" $! k with "[//] HF Hp [Hk Hnew]").
    + iExists _, _, q'. iFrame. iPureIntro. apply rmw_view_coh.
    + iExists _. iFrame. iPureIntro. apply rmw_view_coh.
  - set (V1 := load_view _ _ _ _ _ _). iIntros (_) "HS". iDestruct "HΦ" as "[_ HΦ]".
    assert (V ⊆ V1) as Hle1 by apply load_view_le. assert (cur V ⊆ cur V1) by apply Hle1.
    iModIntro. iFrame "HPr". iApply wpp_ret. mono "Hk" Hle1.
    iApply ("HΦ" with "[//] [//] HF [Hu Hp HS] Hk").
    iApply ("Hp" with "[//]"). by iApply ("Hu" with "[//]").
Qed.

(** What [Weak::upgrade] promises; [F] is what is known about the count. *)
Definition opt_upgrade_post γ i x F (Q : Z → Prop) V (Φ : option Optimized.Arc → tview → iProp Σ)
    : iProp Σ :=
  (∀ V', ⌜V ⊆ V'⌝ -∗ ⌜Q 0%Z⌝ -∗ F -∗ opt_weak γ i x (cur V') -∗ alloc_credit γ x (cur V') -∗
     data_credit γ x (cur V') -∗ Φ None V') ∧
  (∀ k n V', ⌜V ⊆ V'⌝ -∗ ⌜Q n ∧ n ≠ 0%Z⌝ -∗ F -∗ opt_weak γ i x (cur V') -∗
     opt_arc γ k x (cur V') -∗ born (op_data γ) (dcount x) k (cur V') -∗
     Φ (Some (Optimized.MkArc x)) V').

(** The parts of a handle, and the handle in a later view. *)
Lemma opt_handle_part γ i x W :
  opt_handle γ i x W -∗ ∃ q, weak_part γ q W ∗
    ∀ W', ⌜W ⊆ W'⌝ -∗ weak_part γ q W' -∗ opt_handle γ i x W'.
Proof.
  iIntros "(%b & %a & %q & Hi & [% Hs] & Hp)". iExists q. iFrame "Hp". iIntros (W' Hle) "Hp".
  iExists b, a, q. iFrame "Hi Hp". iSplit; [iPureIntro; by apply Hle|].
  iDestruct "Hs" as "[$|Hs]". iRight. by iApply (recorded_mono with "Hs").
Qed.

Lemma wpp_opt_upgrade γ i x W0 F Q V Φ :
  data_knows T γ (dcount x) W0 F Q → W0 ⊆ cur V →
  F -∗ opt_weak γ i x (cur V) -∗ alloc_credit γ x (cur V) -∗ data_credit γ x (cur V) -∗
  opt_upgrade_post γ i x F Q V Φ -∗
  wpp (Optimized.upgrade (Optimized.MkWeak x)) V Φ.
Proof.
  iIntros (HQ HW) "HF (#Hc & Ha & Hi) Hk Hk' HΦ". iApply wpp_bind.
  iDestruct (opt_handle_part with "Ha") as (q) "[Hp Ha]".
  iApply (wpp_opt_load with "Hc HF Hp"); [done..|]. iIntros (n V1 Hle1 Hn) "HF Hp".
  iDestruct ("Ha" with "[%] Hp") as "Ha"; [apply Hle1|].
  iApply (wpp_loop (λ n V', ⌜V ⊆ V'⌝ ∗ ⌜data_counted γ Q n⌝ ∗ F ∗ opt_weak γ i x (cur V') ∗
    alloc_credit γ x (cur V') ∗ data_credit γ x (cur V') ∗ opt_upgrade_post γ i x F Q V Φ)%I
    with "[] [$HF $Ha $Hi Hk Hk' $HΦ]").
  2: { do 2 (iSplit; [done|]). mono "Hk Hk'" Hle1. iFrame "Hk Hk'". iApply (view_mono with "Hc"). apply Hle1. }
  clear n Hn. iIntros "!>" (n V2 _) "(%Hle2 & %Hn & HF & (#Hc2 & Ha & Hi) & Hk & Hk' & HΦ)".
  destruct (Z.eqb_spec n 0) as [->|Hne].
  { iApply wpp_ret. iDestruct "HΦ" as "[HΦ _]".
    iApply ("HΦ" with "[//] [%] HF [$Ha $Hi //] Hk Hk'"). apply Hn. }
  iApply wpp_bind. rewrite /assert. destruct (Z.ltb_spec n usize_MAX); last first.
  { iDestruct "Hc" as "(_ & _ & _ & _ & %Hmax)". destruct Hn as [_ Hn], Hmax as [_ Hmax]. lia. }
  iApply wpp_ret. iApply wpp_bind. iDestruct (opt_handle_part with "Ha") as (q') "[Hp Ha]".
  iApply (wpp_opt_upgrade_cas with "Hc2 HF Hp Hk'"); [done|etrans; [done|apply Hle2]|done|]. iSplit.
  - iIntros (k V3 Hle3) "HF Hp Hs Hb". iDestruct ("Ha" with "[%] Hp") as "Ha"; [apply Hle3|].
    iDestruct (view_mono with "Hc2") as "#Hc3"; [apply Hle3|].
    mono "Hk" Hle3. iApply wpp_ret. iDestruct "HΦ" as "[_ HΦ]".
    iApply ("HΦ" with "[%] [%] HF [$Hc3 $Ha $Hi] [$Hc3 $Hs $Hk] Hb"); [by etrans|].
    split; [apply Hn|done].
  - iIntros (e V3 Hle3 He) "HF Hp Hk'". iDestruct ("Ha" with "[%] Hp") as "Ha"; [apply Hle3|].
    iDestruct (view_mono with "Hc2") as "#Hc3"; [apply Hle3|]. mono "Hk" Hle3. iApply wpp_ret.
    iFrame "HF Ha Hi Hk' HΦ Hk Hc3". iPureIntro. split; [by etrans|done].
Qed.

(** *** Cloning *)

(** [Arc::clone] *)
Lemma wpp_opt_clone γ k x V Φ :
  opt_arc γ k x (cur V) -∗ alloc_credit γ x (cur V) -∗ data_credit γ x (cur V) -∗
  (∀ k' V', ⌜V ⊆ V'⌝ -∗ opt_arc γ k x (cur V') -∗ opt_arc γ k' x (cur V') -∗
     born (op_data γ) (dcount x) k' (cur V') -∗ Φ (Optimized.MkArc x) V') -∗
  wpp (Optimized.clone (Optimized.MkArc x)) V Φ.
Proof.
  iIntros "(#Hc & (%b & %a & %q & Hk & %Ha & [(Hp & Hh & [Hu Hb] & Hx) Hid]) & Hcr) Hcr' (%n & %tn & Hn & _) HΦ".
  iPoseProof "Hc" as "(#Hcd & _ & _ & %Hin & _)". iDestruct (use_part_data with "Hu") as "[HS Hu]".
  do 2 iApply wpp_bind. iApply (wpp_rmw_open with "Hcd HS"); [done..|set_solver|].
  iIntros "!>" (h A t m e Hm Hle) "HPr". iSplit; [|by iIntros ([?|?])].
  iIntros (z [= <-] Hfree) "HS". set (V1 := rmw_view _ _ _ _ _ _).
  assert (V ⊆ V1) as Hle1 by apply rmw_view_le. assert (cur V ⊆ cur V1) by apply Hle1.
  iMod (data_clone _ _ _ _ _ m (rmw_msg Relaxed (mval m + 1) m V1) with "HPr Hk Hb Hn")
    as "(%Hlt & HPr & Hb & Hk & %k' & Hk' & Hd)"; [done..|simpl; set_solver|].
  rewrite wrap_add_small; [|rewrite /usize_MAX in Hlt; lia]. iModIntro. iFrame "HPr". iApply wpp_ret.
  iDestruct ("Hu" with "[//] HS") as "Hu". mono "Hp Hb Hx Hcr Hcr'" Hle1.
  iDestruct (view_mono with "Hc") as "#Hc1"; [exact H|].
  iAssert (arc_part T γ q (cur V1)) with "[$Hp $Hh $Hu $Hb $Hx $Hid]" as "Hp".
  rewrite (frac_view_div_2 (arc_part T γ)). iDestruct "Hp" as "[Hp Hp']".
  assert (Coh (dcount x) (S t) ∈ cur V1) by apply rmw_view_coh.
  case_match; [iApply wpp_abort|]. iApply wpp_ret.
  iApply ("HΦ" $! k' with "[//] [Hk Hp Hcr] [Hk' Hp' Hcr'] [Hd]").
  - iFrame "Hc1 Hcr". iExists _, _, _. by iFrame.
  - iFrame "Hc1 Hcr'". iExists _, _, _. by iFrame.
  - iExists _. by iFrame.
Qed.

(** [Weak::clone] *)
Lemma wpp_opt_clone_weak γ i x V Φ :
  opt_weak γ i x (cur V) -∗ alloc_credit γ x (cur V) -∗
  (∀ j V', ⌜V ⊆ V'⌝ -∗ opt_weak γ i x (cur V') -∗ opt_weak γ j x (cur V') -∗
     Φ (Optimized.MkWeak x) V') -∗
  wpp (Optimized.clone_weak (Optimized.MkWeak x)) V Φ.
Proof.
  iIntros "(#Hc & (%b & %a & %q & Hi & Hs & Hp) & Hi') (%n & %tn & Hn & _) HΦ".
  iPoseProof "Hc" as "(_ & #Hca & _ & %Hin & _)". iDestruct (weak_part_use with "Hp") as "[Hu Hp]".
  iDestruct (use_part_alloc with "Hu") as "(HS & Hb & Hu)".
  do 2 iApply wpp_bind. iApply (wpp_rmw_open with "Hca HS"); [done..|set_solver|].
  iIntros "!>" (h A t m e Hm Hle) "HPr". iSplit; [|by iIntros ([?|?])].
  iIntros (z [= <-] Hfree) "HS". set (V1 := rmw_view _ _ _ _ _ _).
  assert (V ⊆ V1) as Hle1 by apply rmw_view_le. assert (cur V ⊆ cur V1) by apply Hle1.
  iDestruct (alloc_enter_handle with "HPr Hi Hi' Hs") as (M) "(HPr & Hi & Hi' & [_ Hs])"; [done..|].
  iMod (alloc_clone _ _ _ _ m _ (rmw_msg Relaxed (mval m + 1) m V1) with "HPr Hi Hn")
    as (j Hj0 Hlt) "(HPr & Hi & Hj & Hj')"; [done..|simpl; set_solver|].
  rewrite wrap_add_small; [|rewrite /usize_MAX in Hlt; lia]. iModIntro. iFrame "HPr". iApply wpp_ret.
  iDestruct ("Hu" with "[//] HS Hb") as "Hu". iDestruct ("Hp" with "[//] Hu") as "Hp".
  iDestruct (view_mono with "Hc") as "#Hc1"; [exact H|].
  rewrite (frac_view_div_2 (weak_part γ)). iDestruct "Hp" as "[Hp Hp']".
  assert (Coh (acount x) (S t) ∈ cur V1) by apply rmw_view_coh.
  case_match; [iApply wpp_abort|]. iApply wpp_ret.
  iApply ("HΦ" $! j with "[//] [Hi Hi' Hs Hp] [Hj Hj' Hp']"); iFrame "Hc1".
  - iFrame "Hi'". iExists _, _, _. iFrame "Hi Hp". iSplit; [done|].
    iDestruct "Hs" as "[$|Hs]". iRight. by iApply (recorded_mono with "Hs").
  - iSplitR "Hj'"; [|by iExists _]. iExists _, _, _. iFrame "Hj Hp'". iSplit; [done|by iLeft].
Qed.

(** *** Dropping *)

(** After the last handle of the allocation the data is gone too. *)
Lemma opt_over γ x t W :
  opt_ctx γ x W -∗ gone (op_alloc γ) t -∗ weak_part γ 1 W ={⊤}=∗
  ∃ v h N A, own_na (Optimized.data x) v W ∗ dcount x ↦ CAtomic h N A ∗ ⌜A ⊆ W⌝ ∗
    access_share (arc_shares (op_alloc γ)) 1 W.
Proof.
  iIntros "(#Hd & #Ha & #Hc & %Hin & _) #Hg [[(HSd & HSa & HSc & _) Hb] _]".
  iMod (at_share_cancel with "[$Hd $HSd]") as (h N A A') "(Hl & %HA & _ & _ & >HPr)"; [done|iPureIntro; set_solver|].
  iDestruct (data_over with "HPr") as "[(%v & %W' & Hv)|[(%q & Hid)|(%B & HB)]]".
  - iMod (data_cancel with "[$Hc $HSc] Hv") as "Hd'"; [done|]. iModIntro. iExists v, h, N, A. by iFrame.
  - iMod (share_acc with "Ha HSa") as "((%h' & %N' & %A2 & %A3 & _ & _ & _ & _ & _ & >HPr) & _ & _)".
    by iDestruct (alloc_gone with "HPr Hg Hid") as "[]".
  - by iDestruct (based_exclusive with "HB Hb") as "[]".
Qed.

Lemma wpp_opt_drop_box γ x t W V (Φ : unit → tview → iProp Σ) :
  W ⊆ acq V ∪ cur V → opt_ctx γ x (cur V) -∗ gone (op_alloc γ) t -∗ weak_part γ 1 W -∗
  (∀ V', ⌜V ⊆ V'⌝ -∗ Φ tt V') -∗ wpp (fence Acquire;; Optimized.drop_box x) V Φ.
Proof.
  iIntros (HW) "#Hc #Hg Hp HΦ". iApply wpp_bind. iApply wpp_acquire_fence. iIntros (V1 Hle1 Hacq).
  iDestruct (view_mono with "Hc") as "#Hc1"; [apply Hle1|].
  iDestruct (view_mono _ (cur V1) with "Hp") as "Hp"; [by etrans|].
  iMod (opt_over with "Hc1 Hg Hp") as (v h N A) "(Hd & Hl & %HA & HS)".
  iApply wpp_bind. iApply (wpp_free with "Hd"). iNext.
  iApply wpp_bind. iApply (wpp_free_atomic with "Hl"); [done|]. iIntros "!> _".
  iDestruct "Hc1" as "(_ & #Ha & _ & %Hin & _)".
  iMod (at_share_cancel with "[$Ha $HS]") as (h' N' A' A2) "(Hl & %HA' & _)"; [done|iPureIntro; set_solver|].
  iApply (wpp_free_atomic with "Hl"); [done|]. iIntros "!> _". by iApply "HΦ".
Qed.

Lemma wpp_opt_drop_weak γ i x V (Φ : unit → tview → iProp Σ) :
  opt_weak γ i x (cur V) -∗ (∀ V', ⌜V ⊆ V'⌝ -∗ alloc_credit γ x (cur V') -∗ Φ tt V') -∗
  wpp (Optimized.drop_weak (Optimized.MkWeak x)) V Φ.
Proof.
  iIntros "(#Hc & (%b & %a & %q & Hi & Hs & Hp) & Hi') HΦ".
  iPoseProof "Hc" as "(_ & #Hca & _ & %Hin & _)". iDestruct (weak_part_use with "Hp") as "[Hu Hp]".
  iDestruct (use_part_alloc with "Hu") as "(HS & Hb & Hu)".
  do 2 iApply wpp_bind. iApply (wpp_rmw_open with "Hca HS"); [done..|set_solver|].
  iIntros "!>" (h A t m e Hm Hle) "HPr". iSplit; [|by iIntros ([?|?])].
  iIntros (z [= <-] Hfree) "HS". set (V1 := rmw_view _ _ _ _ _ _).
  assert (V ⊆ V1) as Hle1 by apply rmw_view_le. assert (cur V ⊆ cur V1) by apply Hle1.
  iDestruct (alloc_enter_handle with "HPr Hi Hi' Hs") as (M) "(HPr & Hi & Hi' & _)"; [done..|].
  iDestruct ("Hu" with "[//] HS Hb") as "Hu". iDestruct ("Hp" with "[//] Hu") as "Hp".
  iMod (alloc_drop with "HPr Hi Hi' Hp") as "(%Hlt & HPr & (%n & Hn) & Hlast)".
  rewrite wrap_add_small; [|rewrite /usize_MAX in Hlt; lia]. iModIntro. iFrame "HPr". iApply wpp_ret.
  iAssert (alloc_credit γ x (cur V1)) with "[Hn]" as "Hk".
  { iExists n, (S t). iFrame. iPureIntro. apply rmw_view_coh. }
  iDestruct "Hlast" as "[(-> & Hg & Hp)|%Hne]"; last first.
  { rewrite (proj2 (Z.eqb_neq _ _) Hne). iApply wpp_ret. by iApply ("HΦ" with "[//] Hk"). }
  iDestruct (view_mono with "Hc") as "#Hc1"; [exact H|].
  iApply (wpp_opt_drop_box with "Hc1 Hg Hp").
  { pose proof (rmw_view_later Release (acount x) t m e V). set_solver. }
  iIntros (V2 Hle2). mono "Hk" Hle2. iApply ("HΦ" with "[%] Hk"). by etrans.
Qed.
End handles.
