(* ===== verification/OptMut.v ===== *)
(** * The [Arc]s of 06-03

    [Arc::drop], [Arc::downgrade], [Arc::get_mut] and [Arc::new]. *)

From iris.proofmode Require Import proofmode.
From iris.base_logic.lib Require Import invariants cancelable_invariants ghost_map ghost_var.
From S2P Require Import Prelude Memory History Lang Logic Rules Std Shares Counted Arc.
From S2P Require Import WeakApi DataCell Optimized OptAlloc OptData OptArc.

Section arcs.
Context `{!rustGS Σ, !optG Σ}.
Context (T : Qp → val → iProp Σ) `{!FracVal T}.
Implicit Types (γ : opt_name) (x : Optimized.ArcData) (V : tview) (W : view) (q : Qp).
Implicit Types (i j k : nat) (v : val).

Abbreviation dcount x := (Optimized.data_ref_count x).
Abbreviation acount x := (Optimized.alloc_ref_count x).
Abbreviation alloc_credit γ x := (credit (op_alloc γ) (acount x)).
Abbreviation data_credit γ x := (credit (op_data γ) (dcount x)).

(** *** [Arc::drop] *)

(** The data was dropped: what is left is the handle 0. *)
Lemma opt_finish γ x v W :
  opt_ctx T γ x W -∗ data_val (op_cell γ) 1 v W -∗ handle_part γ 1 -∗ own_part γ implicit_part W -∗
  recorded (op_unlocks γ) 1 W -∗ id_part γ (1/2) -∗ recorded (op_joins γ) implicit_part ∅ ={⊤}=∗
  opt_weak T γ 0 x W.
Proof.
  iIntros "#Hc Hv Hh [Hu Hb] Hx Hid Hj". iPoseProof "Hc" as "(#Hd & _ & _ & %Hin & _)".
  iDestruct (use_part_data with "Hu") as "[HS Hu]".
  iMod (share_acc with "Hd HS")
    as "((%h & %N & %A & %A' & Hl & HN & HA & HA' & Hne & >HPr) & HS & Hclose)".
  iDestruct (data_finish with "HPr Hv Hb") as "(HPr & Hb & Hid')".
  iMod ("Hclose" with "[Hl HN HA HA' Hne HPr]") as "_".
  { iNext. iExists h, N, A, A'. iFrame. }
  iModIntro. iFrame "Hc". iSplitR "Hid Hid'"; [|iExists 0; iCombine "Hid Hid'" as "$"].
  iExists 0, 0, implicit_part. iFrame "Hh". iSplitL "Hx".
  { iSplit; [iPureIntro; set_solver|by iRight]. }
  iSplitR "Hj"; [|iApply (recorded_mono with "Hj"); apply empty_subseteq]. iFrame "Hb".
  by iApply ("Hu" with "[//]").
Qed.

(** The last [Arc] drops the data, and then the handle 0. *)
Lemma wpp_opt_last γ x glue W t V (Φ : unit → tview → iProp Σ) :
  W ⊆ acq V ∪ cur V → Coh (dcount x) t ∈ cur V →
  opt_ctx T γ x (cur V) -∗ last_part T γ W -∗
  (∀ v V', ⌜V ⊆ V'⌝ -∗ T 1 v -∗ wpp (glue v) V' (λ _ V2, ∀ V3, ⌜V2 ⊆ V3⌝ -∗ Φ tt V3)) -∗
  wpp (fence Acquire;; Optimized.manually_drop glue (Optimized.data x);;
       Optimized.drop_weak (Optimized.MkWeak x)) V Φ.
Proof.
  iIntros (HW Ht) "#Hc (((%v & Hv & HT) & Hh & [Hu Hb] & Hx) & Hid & Hj) HΦ".
  iApply wpp_bind. iApply wpp_acquire_fence. iIntros (V1 Hle1 Hacq).
  assert (W ⊆ cur V1) as HW1 by by etrans. mono "Hv Hu Hb Hx" HW1.
  iPoseProof "Hc" as "(_ & _ & #Hcc & _)". iDestruct (use_part_cell with "Hu") as "[HS Hu]".
  do 2 iApply wpp_bind. iApply (wpp_data_read with "[$Hcc $HS] Hv").
  iIntros (V2 Hle2) "[_ HS] Hv". iDestruct ("Hu" with "[%] HS") as "Hu"; [apply Hle2|].
  iApply (wpp_wand with "[HΦ HT]"); [iApply ("HΦ" with "[%] HT"); by etrans|].
  iIntros ([] V3 Hle3) "HΦ". mono "Hb Hx" Hle2. mono "Hv Hb Hx Hu" Hle3.
  iDestruct (view_mono _ (cur V3) with "Hc") as "#Hc3".
  { etrans; [apply Hle1|]. etrans; [apply Hle2|apply Hle3]. }
  iMod (opt_finish with "Hc3 Hv Hh [$Hu $Hb] Hx Hid Hj") as "Hw".
  iApply (wpp_opt_drop_weak with "Hw"). iIntros (V4 Hle4) "_". by iApply "HΦ".
Qed.

(** [F] and [Q] say what is known of the count. *)
Lemma wpp_opt_drop γ k glue x (F : iProp Σ) (Q : Z → Prop) V (Φ : unit → tview → iProp Σ) :
  (∀ h t m c M R t0 b a q', h !! t = Some m → h !! S t = None →
     coh_le (dcount x) h (cur V) t → Coh (dcount x) a ∈ cur V →
     counter_proto (arc_part T γ) (Some t0) (op_data γ) c M R h -∗
     k ↪[arc_handles (op_data γ)] (b, a, q') -∗ alive (op_data γ) k -∗ F -∗ ⌜Q (mval m)⌝) →
  F -∗ opt_arc T γ k x (cur V) -∗ born (op_data γ) (dcount x) k (cur V) -∗
  (∀ n V', ⌜V ⊆ V'⌝ -∗ ⌜Q n⌝ -∗ ⌜n ≠ 1%Z⌝ -∗ F -∗ alloc_credit γ x (cur V') -∗
     data_credit γ x (cur V') -∗ Φ tt V') ∧
  (∀ v V' t, ⌜V ⊆ V'⌝ -∗ ⌜Q 1%Z⌝ -∗ F -∗ gone (op_data γ) t -∗
     ⌜Coh (dcount x) t ∈ cur V'⌝ -∗ T 1 v -∗ alloc_credit γ x (cur V') -∗
     data_credit γ x (cur V') -∗
     wpp (glue v) V' (λ _ V2, ∀ V3, ⌜V2 ⊆ V3⌝ -∗ Φ tt V3)) -∗
  wpp (Optimized.drop glue (Optimized.MkArc x)) V Φ.
Proof.
  iIntros (HQ) "HF (#Hc & (%b & %a & %q & Hk & %Ha & [(Hp & Hh & [Hu Hb] & Hx) Hid]) & Hcr) Hk' HΦ".
  iDestruct (born_alive with "Hk'") as "Hk'".
  iPoseProof "Hc" as "(#Hcd & _ & _ & %Hin & _)". iDestruct (use_part_data with "Hu") as "[HS Hu]".
  do 2 iApply wpp_bind. iApply (wpp_rmw_open with "Hcd HS"); [done..|set_solver|].
  iIntros "!>" (h A t m e Hm Hle) "HPr". iSplit; [|by iIntros ([?|?])].
  iIntros (z [= <-] Hfree) "HS". set (V1 := rmw_view _ _ _ _ _ _).
  assert (V ⊆ V1) as Hle1 by apply rmw_view_le. assert (cur V ⊆ cur V1) by apply Hle1.
  iAssert ⌜Q (mval m)⌝%I as %Hn.
  { iDestruct "HPr" as (M R c t0) "[HPr _]". iApply (HQ with "HPr Hk Hk' HF"); done. }
  iDestruct ("Hu" with "[//] HS") as "Hu". mono "Hp Hb Hx Hcr" Hle1.
  iMod (data_drop with "HPr Hk Hk' [$Hp $Hh $Hu $Hb $Hx $Hid]") as "(%Hlt & HPr & (%n & Hn) & Hlast)"; [done..|].
  rewrite wrap_add_small; [|rewrite /usize_MAX in Hlt; lia]. iModIntro. iFrame "HPr". iApply wpp_ret.
  assert (Coh (dcount x) (S t) ∈ cur V1) by apply rmw_view_coh.
  iAssert (data_credit γ x (cur V1)) with "[Hn]" as "Hn"; [iExists n, (S t); by iFrame|].
  iDestruct "Hlast" as "[(%H1 & Hg & Hlast)|%Hne]"; last first.
  { rewrite (proj2 (Z.eqb_neq _ _) Hne). iApply wpp_ret. iDestruct "HΦ" as "[HΦ _]".
    by iApply ("HΦ" with "[//] [//] [//] HF Hcr Hn"). }
  rewrite H1 in Hn |- *. iDestruct "HΦ" as "[_ HΦ]".
  iDestruct (view_mono with "Hc") as "#Hc1"; [exact H|].
  iApply (wpp_opt_last with "Hc1 Hlast"); [|done|].
  { pose proof (rmw_view_later Release (dcount x) t m e V). set_solver. }
  iIntros (v V2 Hle2) "HT". mono "Hcr Hn" Hle2. iApply ("HΦ" with "[%] [//] HF Hg [%] HT Hcr Hn"); [by etrans|].
  destruct Hle2 as [Hle2 _]. by apply Hle2.
Qed.

(** *** [Arc::downgrade] *)

Lemma opt_use_alloc γ k x W :
  opt_use T γ k x W -∗ ∃ q, access_share (arc_shares (op_alloc γ)) (q / 2) W ∗
    based (op_abase γ) (q / 2) W ∗ id_part γ q ∗
    ∀ W', ⌜W ⊆ W'⌝ -∗ access_share (arc_shares (op_alloc γ)) (q / 2) W' -∗
      based (op_abase γ) (q / 2) W -∗ id_part γ q -∗ opt_use T γ k x W'.
Proof.
  iIntros "(%b & %a & %q & Hk & %Ha & [Hp $])". iDestruct (locked_part_use with "Hp") as "[Hu Hp]".
  iDestruct (use_part_alloc with "Hu") as "($ & $ & Hu)". iIntros (W' Hle) "HS Hb $".
  iExists b, a. iFrame "Hk". iSplit; [iPureIntro; by apply Hle|]. iApply ("Hp" with "[//]").
  by iApply ("Hu" with "[//] HS").
Qed.

(** What is read of the allocation counter. *)
Definition alloc_counted γ (n : Z) : Prop :=
  n = usize_MAX ∨ (0 <= n <= Z.of_nat (S (arc_budget (op_alloc γ))))%Z.

Lemma wpp_opt_alloc_load γ k x V Φ :
  opt_arc T γ k x (cur V) -∗
  (∀ n V', ⌜V ⊆ V'⌝ -∗ ⌜alloc_counted γ n⌝ -∗ opt_arc T γ k x (cur V') -∗ Φ n V') -∗
  wpp (load (acount x) Relaxed) V Φ.
Proof.
  iIntros "(#Hc & Hk & Hcr) HΦ". iPoseProof "Hc" as "(_ & #Hca & _ & %Hin & _)".
  iDestruct (opt_use_alloc with "Hk") as (q) "(HS & Hb & Hid & Hk)".
  iApply (wpp_share_load with "[$Hca $HS]"); [done|iPureIntro; set_solver|].
  iIntros "!>" (h A t m e Hm Hle) "HPr". set (V1 := load_view _ _ _ _ _ _).
  assert (V ⊆ V1) as Hle1 by apply load_view_le. assert (cur V ⊆ cur V1) by apply Hle1.
  iDestruct (alloc_read with "HPr") as %Hn; [done|]. iModIntro. iFrame "HPr". iIntros "(_ & _ & HS)".
  mono "Hcr" Hle1. iDestruct (view_mono with "Hc") as "#Hc1"; [exact H|].
  iApply ("HΦ" with "[//] [//]"). iFrame "Hc1 Hcr". iApply ("Hk" with "[//] HS Hb Hid").
Qed.

Lemma wpp_opt_downgrade_cas γ k x n V Φ :
  n ≠ usize_MAX →
  opt_arc T γ k x (cur V) -∗ alloc_credit γ x (cur V) -∗
  (∀ j V', ⌜V ⊆ V'⌝ -∗ opt_arc T γ k x (cur V') -∗ opt_weak T γ j x (cur V') -∗ Φ (inl n) V') ∧
  (∀ e V', ⌜V ⊆ V'⌝ -∗ ⌜alloc_counted γ e⌝ -∗ opt_arc T γ k x (cur V') -∗
     alloc_credit γ x (cur V') -∗ Φ (inr e) V') -∗
  wpp (compare_exchange_weak (acount x) n (n + 1) Acquire Relaxed) V Φ.
Proof.
  iIntros (Hn) "(#Hc & Hk & Hcr) Hcr' HΦ". iPoseProof "Hc" as "(_ & #Hca & _ & %Hin & _)".
  iDestruct (opt_use_alloc with "Hk") as (q) "(HS & Hb & Hid & Hk)".
  iApply wpp_bind. iApply (wpp_rmw_open with "Hca HS"); [done..|set_solver|].
  iIntros "!>" (h A t m e Hm Hle) "HPr". iSplit.
  - iIntros (z Hz Hfree) "HS". set (V1 := rmw_view _ _ _ _ _ _). iDestruct "HΦ" as "[HΦ _]".
    assert (V ⊆ V1) as Hle1 by apply rmw_view_le. assert (cur V ⊆ cur V1) by apply Hle1.
    revert Hz. rewrite /cas_fun. destruct (Z.eqb_spec (mval m) n) as [<-|]; [|done]. intros [= <-].
    iDestruct (alloc_enter_value with "HPr Hid") as (M) "[HPr Hid]"; [done..|].
    iDestruct "Hcr'" as (n tn) "[Hn _]".
    iMod (alloc_join _ _ _ _ m _ (rmw_msg Acquire (mval m + 1) m V1) with "HPr Hid Hb Hn")
      as (j q') "(%Hj0 & $ & Hid & Hb & Hj & Hj' & Hp)"; [done..|simpl; set_solver|].
    iModIntro. iApply wpp_ret. mono "Hcr" Hle1. iDestruct (view_mono with "Hc") as "#Hc1"; [exact H|].
    iApply ("HΦ" $! j with "[//] [Hk HS Hb Hid Hcr]"); iFrame "Hc1".
    + iFrame "Hcr". iApply ("Hk" with "[//] HS Hb Hid").
    + iSplitR "Hj'"; [|by iExists _]. iExists _, _, q'. iFrame "Hj". iSplitR.
      { iSplit; [iPureIntro; apply rmw_view_coh|by iLeft]. }
      iApply (view_mono with "Hp"). simpl. set_solver.
  - set (V1 := load_view _ _ _ _ _ _). iIntros (_) "HS". iDestruct "HΦ" as "[_ HΦ]".
    assert (V ⊆ V1) as Hle1 by apply load_view_le. assert (cur V ⊆ cur V1) by apply Hle1.
    iDestruct (alloc_read with "HPr") as %He; [done|]. iModIntro. iFrame "HPr". iApply wpp_ret.
    mono "Hcr Hcr'" Hle1. iDestruct (view_mono with "Hc") as "#Hc1"; [exact H|].
    iApply ("HΦ" with "[//] [//] [Hk HS Hb Hid Hcr] Hcr'"). iFrame "Hc1 Hcr".
    iApply ("Hk" with "[//] HS Hb Hid").
Qed.

Lemma wpp_opt_downgrade γ k x V Φ :
  opt_arc T γ k x (cur V) -∗ alloc_credit γ x (cur V) -∗
  (∀ j V', ⌜V ⊆ V'⌝ -∗ opt_arc T γ k x (cur V') -∗ opt_weak T γ j x (cur V') -∗
     Φ (Optimized.MkWeak x) V') -∗
  wpp (Optimized.downgrade (Optimized.MkArc x)) V Φ.
Proof.
  iIntros "Ha Hk HΦ". iAssert ⌜(Z.of_nat (S (arc_budget (op_alloc γ))) < usize_MAX - 1)%Z⌝%I as %Hmax.
  { by iDestruct "Ha" as "[(_ & _ & _ & _ & %H) _]"; destruct H. }
  iApply wpp_bind. iApply (wpp_opt_alloc_load with "Ha"). iIntros (n V1 Hle1 Hn) "Ha". mono "Hk" Hle1.
  iApply (wpp_loop (λ n V', ⌜V ⊆ V'⌝ ∗ ⌜alloc_counted γ n⌝ ∗ opt_arc T γ k x (cur V') ∗
    alloc_credit γ x (cur V') ∗ ∀ j V', ⌜V ⊆ V'⌝ -∗ opt_arc T γ k x (cur V') -∗
      opt_weak T γ j x (cur V') -∗ Φ (Optimized.MkWeak x) V')%I with "[] [$Ha $Hk $HΦ //]").
  clear n Hn. iIntros "!>" (n V2 _) "(%Hle2 & %Hn & Ha & Hk & HΦ)".
  destruct (Z.eqb_spec n usize_MAX) as [->|Hne].
  { iApply wpp_bind. iApply wpp_ret. iApply wpp_bind. iApply (wpp_opt_alloc_load with "Ha").
    iIntros (n V3 Hle3 Hn2) "Ha". mono "Hk" Hle3. iApply wpp_ret. iFrame "Ha Hk HΦ". iPureIntro.
    split; [by etrans|done]. }
  iApply wpp_bind. rewrite /assert. destruct (Z.ltb_spec n (usize_MAX - 1)); last first.
  { destruct Hn; [done|lia]. }
  iApply wpp_ret. iApply wpp_bind. iApply (wpp_opt_downgrade_cas with "Ha Hk"); [done|]. iSplit.
  - iIntros (j V3 Hle3) "Ha Hw". iApply wpp_ret. iApply ("HΦ" with "[%] Ha Hw"). by etrans.
  - iIntros (e V3 Hle3 He) "Ha Hk". iApply wpp_ret. iFrame "Ha Hk HΦ". iPureIntro. split; [by etrans|done].
Qed.

(** *** [Arc::deref], and a read through the reference *)

Lemma wpp_opt_read γ k x V Φ :
  opt_arc T γ k x (cur V) -∗
  (∀ q v V', ⌜V ⊆ V'⌝ -∗ T q v -∗ (T q v -∗ opt_arc T γ k x (cur V')) -∗ Φ v V') -∗
  wpp (read (Optimized.deref (Optimized.MkArc x))) V Φ.
Proof.
  iIntros "(#Hc & (%b & %a & %q & Hk & %Ha & [((%v & Hv & HT) & Hh & [Hu Hb] & Hx) Hid]) & Hcr) HΦ".
  iPoseProof "Hc" as "(_ & _ & #Hcc & _)". iDestruct (use_part_cell with "Hu") as "[HS Hu]".
  iApply (wpp_data_read with "[$Hcc $HS] Hv"). iIntros (V' Hle) "[_ HS] Hv".
  assert (cur V ⊆ cur V') as Hle' by apply Hle. iDestruct ("Hu" with "[//] HS") as "Hu". mono "Hb Hx Hcr" Hle'.
  iDestruct (view_mono with "Hc") as "#Hc'"; [exact Hle'|].
  iApply ("HΦ" with "[//] HT"). iIntros "HT". iFrame "Hc' Hcr". iExists b, a, q.
  iFrame "Hk Hh Hu Hb Hx Hid". iSplit; [iPureIntro; by apply Hle'|]. iExists v. iFrame.
Qed.

End arcs.

(** *** [Arc::new] *)

Section new.
Context `{!rustGS Σ, !optG Σ}.
Context (T : Qp → val → iProp Σ) `{!FracVal T}.
Implicit Types (γ : opt_name) (V : tview) (W N A : view).

(** The counter of the data, of which half is in reserve. *)
Lemma data_proto_new γ l W :
  Coh l 0 ∈ W →
  counter_proto (arc_part T γ) (Some 0) (op_data γ) (1/2) {[0 := (0, 0, (1/2)%Qp)]} ∅
    {[0 := Msg 1 ∅]} -∗
  record (op_joins γ) W -∗ recorded (op_joins γ) implicit_part ∅ -∗
  arc_part T γ (1/2) W -∗ ghost_var (op_base γ) (1/2) W -∗ data_proto T γ l {[0 := Msg 1 ∅]}.
Proof.
  iIntros (Hl) "HPr HJ Hj Hp HB". iExists _, ∅, (1/2)%Qp, 0. iFrame "HPr". iSplitL "HJ".
  { iExists W. iFrame "HJ". iPureIntro. split; [done|]. by rewrite lookup_singleton_eq. }
  iLeft. iFrame "Hj". iSplit; [done|]. iExists (1/2)%Qp, W. iFrame. by rewrite Qp.half_half.
Qed.

(** The counter of the allocation, with the handle 0. *)
Lemma alloc_proto_new γ l W :
  Coh l 0 ∈ W →
  (∀ Pt, counter_proto Pt None (op_alloc γ) implicit_part no_weak ∅ {[0 := Msg 1 ∅]}) -∗
  record (op_unlocks γ) W -∗ ghost_var (op_abase γ) (1/2) W -∗ weak_part γ implicit_part W -∗
  ghost_var (op_lock γ) 1 None ==∗ alloc_proto γ l {[0 := Msg 1 ∅]}.
Proof.
  iIntros (Hl) "HPr HX HB Hp Hl".
  iApply (alloc_reopen _ _ _ {[0 := Msg 1 ∅]} 0 0 W W ∅ (Msg 1 ∅) with "HPr [HX HB] [Hp] Hl").
  - apply lookup_singleton_eq.
  - apply lookup_singleton_eq.
  - done.
  - iFrame "HB". iSplitL; [by iExists W; iFrame|]. iPureIntro. split.
    + split_and!; [apply newest_singleton|apply newest_singleton|lia|by eexists| |].
      * intros t m [<- _]%lookup_singleton_Some _. by left.
      * apply map_Forall_singleton. simpl. lia.
    + by intros i b a q [<- _]%lookup_singleton_Some ?.
  - by rewrite (left_id_L ∅ (∪)).
Qed.

Lemma opt_alloc x v na nd N N' A A' W :
  (Z.of_nat (S (S na)) < usize_MAX - 1)%Z → (Z.of_nat (S nd) < usize_MAX)%Z →
  N ∪ N' ∪ A ∪ A' ⊆ W → Coh (Optimized.data_ref_count x) 0 ∈ W →
  Coh (Optimized.alloc_ref_count x) 0 ∈ W →
  Optimized.data_ref_count x ↦ CAtomic {[0 := Msg 1 ∅]} N A -∗
  Optimized.alloc_ref_count x ↦ CAtomic {[0 := Msg 1 ∅]} N' A' -∗
  own_na (Optimized.data x) v W -∗ T 1 v ={⊤}=∗
  ∃ γ, ⌜arc_budget (op_alloc γ) = S na ∧ arc_budget (op_data γ) = nd⌝ ∗ opt_arc T γ 0 x W ∗
    born (op_data γ) (Optimized.data_ref_count x) 0 W ∗
    ([∗ list] _ ∈ seq 0 na, credit (op_alloc γ) (Optimized.alloc_ref_count x) W) ∗
    [∗ list] _ ∈ seq 0 nd, credit (op_data γ) (Optimized.data_ref_count x) W.
Proof.
  iIntros (Hna Hnd HW Hd0 Ha0) "Hd Ha Hp HT".
  iMod (counter_new (Some 0) (1/2) nd) as (γh γi γk γg) "(HPr & Hi & Hi' & Hk)"; [lia|].
  iMod (counter_new None (1/2) (S na)) as (γh' γi' γk' γg') "(HPr' & Hj & Hj' & Hk')"; [lia|].
  iMod (accesses_alloc W W) as (γs) "(HA & HS & Halloc)"; [done|].
  iMod (accesses_alloc W W) as (γs') "(HA' & HS' & Halloc')"; [done|].
  iMod (data_alloc with "Hp") as (γc) "[[#Hcc HSc] Hv]".
  iMod (based_alloc W) as (γb) "[HB Hb]". iMod (based_alloc W) as (γb') "[HB' Hb']".
  iMod (record_alloc W W) as (γj) "[HJ Hjs]"; [done|]. iMod (record_alloc W W) as (γu) "[HX Hx]"; [done|].
  iMod (ghost_var_alloc (None : option (time * option Qp))) as (γl) "Hl".
  set (γ := OptName (ArcName γs γh γi γk γg nd) (ArcName γs' γh' γi' γk' γg' (S na)) γc W γb γb' γj γu γl).
  iEval (rewrite -Qp.half_half) in "Hjs". iDestruct (recorded_split_empty with "Hjs") as "[Hjs Hj0]".
  iDestruct (opt_parts γ with "[$HS $HS' $HSc $Hb'] Hb Hjs") as "[Ho Hw]".
  iAssert (arc_part T γ 1 W) with "[Hv HT Hj Hj' Ho Hx]" as "Hp".
  { iFrame "Hj Hj' Ho Hx". iExists v. iFrame. }
  rewrite (frac_view_halves (arc_part T γ)). iDestruct "Hp" as "[Hp Hr]".
  iMod (alloc_proto_new γ with "[HPr'] HX HB' Hw Hl") as "HPr'"; [done|iIntros (Pt); iApply "HPr'"|].
  iMod ("Halloc" $! (at_inv γs _ W (λ h _, data_proto T γ (Optimized.data_ref_count x) h))
    with "[Hd HA HPr HJ Hj0 Hr HB]") as "#Hcd".
  { iNext. iExists _, N, A, W. iFrame "Hd HA". do 3 (iSplit; [iPureIntro; set_solver|]).
    iApply (data_proto_new γ with "[HPr] HJ Hj0 Hr HB"); [done|iApply "HPr"]. }
  iMod ("Halloc'" $! (at_inv γs' _ W (λ h _, alloc_proto γ (Optimized.alloc_ref_count x) h))
    with "[Ha HA' HPr']") as "#Hca".
  { iNext. iExists _, N', A', W. iFrame "Ha HA' HPr'". iPureIntro. set_solver. }
  iModIntro. iExists γ. iSplit; [done|].
  iDestruct (credits_init (op_alloc γ) with "Hk'") as "Hk'"; [exact Ha0|].
  iDestruct (credits_init (op_data γ) with "Hk") as "$"; [exact Hd0|].
  rewrite seq_S big_sepL_app big_sepL_singleton. iDestruct "Hk'" as "[$ Hcr]".
  iSplitR "Hi'"; [|iExists 0; by iFrame]. iFrame "Hcr". iSplit.
  { iFrame "Hcd Hca Hcc". iPureIntro. split; [set_solver|simpl; lia]. }
  iExists 0, 0, (1/2)%Qp. by iFrame.
Qed.

Lemma wpp_opt_new v na nd V Φ :
  (Z.of_nat (S (S na)) < usize_MAX - 1)%Z → (Z.of_nat (S nd) < usize_MAX)%Z →
  T 1 v -∗
  (∀ γ x V', ⌜V ⊆ V'⌝ -∗ ⌜arc_budget (op_alloc γ) = S na ∧ arc_budget (op_data γ) = nd⌝ -∗
     opt_arc T γ 0 x (cur V') -∗
     born (op_data γ) (Optimized.data_ref_count x) 0 (cur V') -∗
     ([∗ list] _ ∈ seq 0 na, credit (op_alloc γ) (Optimized.alloc_ref_count x) (cur V')) -∗
     ([∗ list] _ ∈ seq 0 nd, credit (op_data γ) (Optimized.data_ref_count x) (cur V')) -∗
     Φ (Optimized.MkArc x) V') -∗
  wpp (Optimized.new v) V Φ.
Proof.
  iIntros (Hna Hnd) "HT HΦ". iApply wpp_bind. iApply wpp_alloc_atomic. iIntros "!>" (d e) "Hd".
  set (V1 := observe _ _ V). assert (V ⊆ V1) as Hle1 by apply observe_le.
  assert ({[Acc e]} ∪ {[Coh d 0]} ⊆ cur V1) as HV1 by (simpl; set_solver).
  clearbody V1. iApply wpp_bind. iApply wpp_alloc_atomic. iIntros "!>" (a e') "Ha".
  set (V2 := observe _ _ V1). assert (V1 ⊆ V2) as Hle2 by apply observe_le.
  assert ({[Acc e']} ∪ {[Coh a 0]} ⊆ cur V2) as HV2 by (simpl; set_solver).
  clearbody V2. iApply wpp_bind. iApply wpp_new. iIntros "!>" (p V3 Hle3) "Hp".
  assert (cur V1 ⊆ cur V3) as Hle13 by (etrans; [apply Hle2|apply Hle3]).
  assert (cur V2 ⊆ cur V3) as Hle23 by apply Hle3.
  iMod (opt_alloc (Optimized.MkArcData d a p) v na nd _ _ _ _ (cur V3) with "Hd Ha Hp HT")
    as (γ Hb) "(Harc & Hi & Hk & Hk')"; [done|done|set_solver|simpl; set_solver..|].
  iApply wpp_ret. iApply ("HΦ" with "[%] [//] Harc Hi Hk Hk'"). etrans; [done|by etrans].
Qed.
End new.
