(* ===== verification/OptLend.v ===== *)
(** * [Arc::get_mut] of 06-03

    [get_mut] locks the allocation counter, looks at the data counter, unlocks,
    and gives the data out when both counts are 1.  [opt_lent] is an [Arc] from
    which the data is borrowed. *)

From iris.proofmode Require Import proofmode.
From iris.base_logic.lib Require Import invariants cancelable_invariants ghost_map ghost_var.
From S2P Require Import Prelude Memory History Lang Logic Rules Std Shares Counted.
From S2P Require Import WeakApi DataCell Optimized OptAlloc OptData OptArc OptMut.

Section lend.
Context `{!rustGS Σ, !optG Σ}.
Context (T : Qp → val → iProp Σ) `{!FracVal T}.
Implicit Types (γ : opt_name) (x : Optimized.ArcData) (V : tview) (W : view) (q : Qp).
Implicit Types (i j k : nat) (v : val) (tl : time).

Abbreviation dcount x := (Optimized.data_ref_count x).
Abbreviation acount x := (Optimized.alloc_ref_count x).
Abbreviation alloc_credit γ x := (credit (op_alloc γ) (acount x)).
Abbreviation lock_state γ := (ghost_var (op_lock γ)).

(** An [Arc] that has locked the allocation counter with the write [tl]. *)
Definition opt_locked γ k x q tl W : iProp Σ :=
  opt_ctx T γ x W ∗
  (∃ b a, k ↪[arc_handles (op_data γ)] (b, a, q) ∗ ⌜Coh (dcount x) a ∈ W⌝) ∗
  locked_part T γ q W ∗ weak_part γ implicit_part W ∗
  lock_state γ (1/2) (Some (tl, Some q)) ∗ ⌜Coh (acount x) tl ∈ W⌝.

Lemma wpp_opt_lock (F : iProp Σ) (Q : Z → Prop) γ k x V Φ :
  (∀ h t m q, h !! t = Some m → coh_le (acount x) h (cur V) t → Coh (acount x) 0 ∈ cur V →
     alloc_proto γ (acount x) h -∗ handle_part γ q -∗ alloc_credit γ x (cur V) -∗ F -∗
     ⌜Q (mval m)⌝) →
  F -∗ opt_arc T γ k x (cur V) -∗
  (∀ n V', ⌜V ⊆ V'⌝ -∗ ⌜Q n ∧ n ≠ 1%Z⌝ -∗ opt_arc T γ k x (cur V') -∗ Φ (inr n) V') ∧
  (∀ n q tl V', ⌜V ⊆ V'⌝ -∗ opt_locked γ k x q tl (cur V') -∗ Φ (inl n) V') -∗
  wpp (compare_exchange (acount x) 1 usize_MAX Acquire Relaxed) V Φ.
Proof.
  iIntros (HQ) "HF (#Hc & (%b & %a & %q & Hk & %Ha & [(Hp & Hh & [Hu Hb] & Hx) Hid]) & Hcr) HΦ".
  iPoseProof "Hc" as "(_ & #Hca & _ & %Hin & _)".
  iDestruct (use_part_alloc with "Hu") as "(HS & Hab & Hu)".
  iApply wpp_bind. iApply (wpp_rmw_open with "Hca HS"); [done..|set_solver|].
  iIntros "!>" (h A t m e Hm Hle) "HPr".
  iAssert ⌜Q (mval m)⌝%I as %HQm.
  { iApply (HQ with "HPr Hh Hcr HF"); [done..|set_solver]. }
  iSplit.
  - iIntros (z Hz Hfree) "HS". set (V1 := rmw_view _ _ _ _ _ _). iDestruct "HΦ" as "[_ HΦ]".
    assert (V ⊆ V1) as Hle1 by apply rmw_view_le. assert (cur V ⊆ cur V1) by apply Hle1.
    revert Hz. rewrite /cas_fun. destruct (Z.eqb_spec (mval m) 1) as [H1|]; [|done]. intros [= <-].
    iDestruct (alloc_enter_value with "HPr Hid") as (M) "[HPr Hid]"; [done..|by rewrite H1|].
    iDestruct "Hcr" as (n tn) "[Hn _]".
    iMod (alloc_lock _ _ _ _ m _ (rmw_msg Acquire usize_MAX m V1) with "HPr Hh Hid Hab Hn")
      as "($ & Hh & Hab & Hl & Hw)"; [done..|].
    iModIntro. iApply wpp_ret. iDestruct ("Hu" with "[//] HS Hab") as "Hu". mono "Hp Hb Hx" Hle1.
    iDestruct (view_mono with "Hc") as "#Hc1"; [exact H|].
    iApply ("HΦ" with "[//]"). iFrame "Hc1 Hl Hp Hh Hu Hb Hx Hk". iSplit; [iPureIntro; by apply H|].
    iSplitL; [iApply (view_mono with "Hw"); simpl; set_solver|]. iPureIntro. apply rmw_view_coh.
  - set (V1 := load_view _ _ _ _ _ _). iIntros (Hf) "HS". iDestruct "HΦ" as "[HΦ _]".
    assert (V ⊆ V1) as Hle1 by apply load_view_le. assert (cur V ⊆ cur V1) by apply Hle1.
    iModIntro. iFrame "HPr". iApply wpp_ret. iDestruct ("Hu" with "[//] HS Hab") as "Hu".
    mono "Hp Hb Hx Hcr" Hle1. iDestruct (view_mono with "Hc") as "#Hc1"; [exact H|].
    iApply ("HΦ" with "[//] [%]").
    { split; [done|]. intros H1. by destruct Hf as [Hf|]; [rewrite /cas_fun H1 in Hf|]. }
    iFrame "Hc1 Hcr". iExists b, a, q. iFrame. iPureIntro. by apply H.
Qed.

(** What the only [Arc] has before the acquire fence, besides the token [q] that
    it left. *)
Definition opt_taken γ k x q V : iProp Σ :=
  opt_ctx T γ x (cur V) ∗ use_part γ implicit_part (cur V) ∗
  recorded (op_joins γ) implicit_part (cur V) ∗
  (∃ b a c, k ↪[arc_handles (op_data γ)] (b, a, c) ∗ ⌜Coh (dcount x) a ∈ cur V⌝) ∗
  (∃ q', ⌜(q + q')%Qp = 1%Qp⌝ ∗ id_part γ q') ∗
  ∃ W, ⌜W ⊆ acq V ∪ cur V⌝ ∗ cell_part T id (op_cell γ) 1 W ∗ handle_part γ 1 ∗
    use_part γ implicit_part W ∗ recorded (op_unlocks γ) 1 W.

Lemma wpp_opt_unique (F : iProp Σ) (Q : Z → Prop) γ k x q tl V Φ :
  (∀ h t m c M R t0 b a q', h !! t = Some m → coh_le (dcount x) h (cur V) t →
     Coh (dcount x) a ∈ cur V →
     counter_proto (arc_part T γ) (Some t0) (op_data γ) c M R h -∗
     k ↪[arc_handles (op_data γ)] (b, a, q') -∗ F -∗ ⌜Q (mval m)⌝) →
  F -∗ opt_locked γ k x q tl (cur V) -∗
  (∀ n V', ⌜V ⊆ V'⌝ -∗ ⌜Q n⌝ -∗ ⌜n ≠ 1%Z⌝ -∗ opt_locked γ k x q tl (cur V') -∗ Φ n V') ∧
  (∀ V', ⌜V ⊆ V'⌝ -∗ opt_taken γ k x q V' -∗ lock_state γ (1/2) (Some (tl, Some q)) -∗
     ⌜Coh (acount x) tl ∈ cur V'⌝ -∗ Φ 1%Z V') -∗
  wpp (load (dcount x) Relaxed) V Φ.
Proof.
  iIntros (HQ) "HF (#Hc & (%b & %a & Hk & %Ha) & Hp & Hw & Hl & %Htl) HΦ".
  iPoseProof "Hc" as "(#Hcd & _ & _ & %Hin & _)".
  iDestruct "Hw" as "[[Hu Hb] Hj]". iDestruct (use_part_data with "Hu") as "[HS Hu]".
  iApply (wpp_share_load with "[$Hcd $HS]"); [done|iPureIntro; set_solver|].
  iIntros "!>" (h A t m e Hm Hle) "HPr". set (V1 := load_view _ _ _ _ _ _).
  assert (V ⊆ V1) as Hle1 by apply load_view_le. assert (cur V ⊆ cur V1) by apply Hle1.
  iAssert ⌜Q (mval m)⌝%I as %HQm.
  { iDestruct "HPr" as (M R c t0) "[HPr _]". iApply (HQ with "HPr Hk HF"); done. }
  iDestruct (view_mono with "Hc") as "#Hc1"; [exact H|].
  destruct (decide (mval m = 1%Z)) as [H1|H1]; last first.
  { iModIntro. iFrame "HPr". iIntros "(_ & _ & HS)". iDestruct "HΦ" as "[HΦ _]".
    iDestruct ("Hu" with "[//] HS") as "Hu". mono "Hp Hb Hj" Hle1.
    iApply ("HΦ" with "[//] [//] [//]"). iFrame "Hc1 Hp Hu Hb Hj Hl Hk". iPureIntro. split; by apply H. }
  iMod (data_lend with "HPr Hk Hp Hb Hj")
    as "(HPr & Hj & %c & %q' & Hk & %Hq & Hid & Hp & Hh & Hu' & Hx)"; [done..|].
  iModIntro. iFrame "HPr". iIntros "(_ & _ & HS)". iDestruct "HΦ" as "[_ HΦ]". rewrite H1.
  iDestruct ("Hu" with "[//] HS") as "Hu". mono "Hj" Hle1.
  iApply ("HΦ" with "[//] [-Hl] Hl [%]"); [|by apply H].
  iFrame "Hc1 Hu Hj Hid Hp Hh Hu' Hx". iSplitL "Hk"; [iExists b, a, c; iFrame; iPureIntro; by apply H|].
  iSplit; [done|]. iPureIntro. pose proof (load_view_later Relaxed (dcount x) t m e V).
  destruct Hle1. set_solver.
Qed.

(** The store that unlocks: other [Arc]s are there... *)
Lemma wpp_opt_unlock γ k x q tl V (Φ : unit → tview → iProp Σ) :
  opt_locked γ k x q tl (cur V) -∗
  (∀ V', ⌜V ⊆ V'⌝ -∗ opt_arc T γ k x (cur V') -∗ Φ tt V') -∗
  wpp (store (acount x) 1 Release) V Φ.
Proof.
  iIntros "(#Hc & (%b & %a & Hk & %Ha) & (Hp & Hh & [Hu Hb] & Hx) & Hw & Hl & %Htl) HΦ".
  iPoseProof "Hc" as "(_ & #Hca & _ & %Hin & _)".
  iDestruct (use_part_alloc with "Hu") as "(HS & Hab & Hu)".
  iApply (wpp_share_store with "[$Hca $HS]"); [done|iPureIntro; set_solver|].
  iIntros "!>" (h A t e Hfree Hlt) "HPr". set (V1 := store_view _ _ _ _).
  assert (V ⊆ V1) as Hle1 by apply store_view_le. assert (cur V ⊆ cur V1) by apply Hle1.
  assert (Coh (acount x) t ∈ cur V1) by (simpl; set_solver).
  iMod (alloc_unlock _ _ _ _ _ _ _ _ _ (store_msg Release 1 V1) with "HPr Hl Hx")
    as (h' B) "(HPr & Hr & %Hm & Hl & Hid & (%n & Hn) & Hx)"; [done..|].
  iMod (alloc_reopen _ _ _ _ _ _ _ _ (cur V1) with "HPr Hr [Hw] Hl") as "$";
    [apply lookup_insert_eq|done|done| |].
  { iApply (view_mono with "Hw"). set_solver. }
  iModIntro. iIntros "(_ & _ & HS)". iDestruct ("Hu" with "[//] HS Hab") as "Hu". mono "Hp Hb" Hle1.
  iDestruct (recorded_mono _ _ _ (cur V1) with "Hx") as "Hx"; [set_solver|].
  iDestruct (view_mono with "Hc") as "#Hc1"; [exact H|].
  iApply ("HΦ" with "[//]"). iFrame "Hc1". iSplitR "Hn"; [|iExists n, t; by iFrame].
  iExists b, a, q. iFrame. iPureIntro. by apply H.
Qed.

(** ... or this is the only one. *)
Definition opt_alone γ k x tl V : iProp Σ :=
  opt_ctx T γ x (cur V) ∗ use_part γ implicit_part (cur V) ∗
  recorded (op_joins γ) implicit_part (cur V) ∗
  (∃ b a c, k ↪[arc_handles (op_data γ)] (b, a, c) ∗ ⌜Coh (dcount x) a ∈ cur V⌝) ∗
  lock_state γ (1/2) (Some (tl, None)) ∗ ⌜Coh (acount x) tl ∈ cur V⌝ ∗
  ∃ W, ⌜W ⊆ acq V ∪ cur V⌝ ∗ cell_part T id (op_cell γ) 1 W ∗ handle_part γ 1 ∗
    use_part γ implicit_part W ∗ recorded (op_unlocks γ) 1 W.

Lemma wpp_opt_unlock_alone γ k x q tl V (Φ : unit → tview → iProp Σ) :
  Coh (acount x) tl ∈ cur V →
  opt_taken γ k x q V -∗ lock_state γ (1/2) (Some (tl, Some q)) -∗
  (∀ t V', ⌜V ⊆ V'⌝ -∗ opt_alone γ k x t V' -∗ Φ tt V') -∗
  wpp (store (acount x) 1 Release) V Φ.
Proof.
  iIntros (Htl) "(#Hc & Hu & Hj & (%b & %a & %c & Hk & %Ha) & (%q' & %Hq & Hid') & %W & %HW & Hp & Hh & Hu' & Hx) Hl HΦ".
  iPoseProof "Hc" as "(_ & #Hca & _ & %Hin & _)".
  iDestruct (use_part_alloc with "Hu") as "(HS & Hab & Hu)".
  iApply (wpp_share_store with "[$Hca $HS]"); [done|iPureIntro; set_solver|].
  iIntros "!>" (h A t e Hfree Hlt) "HPr". set (V1 := store_view _ _ _ _).
  assert (V ⊆ V1) as Hle1 by apply store_view_le. assert (cur V ⊆ cur V1) by apply Hle1.
  assert (Coh (acount x) t ∈ cur V1) by (simpl; set_solver).
  iMod (alloc_unlock _ _ _ _ _ _ _ _ _ (store_msg Release 1 V1) with "HPr Hl Hx")
    as (h' B) "(HPr & Hr & %Hm & Hl & Hid & (%n & Hn) & Hx)"; [done..|].
  iAssert (id_part γ 1) with "[Hid Hid']" as "Hid".
  { rewrite -Hq. iCombine "Hid Hid'" as "$". }
  iMod (alloc_lend with "HPr Hr Hl Hid Hn") as "[$ Hl]"; [apply lookup_insert_eq|done|].
  iModIntro. iIntros "(_ & _ & HS)". iDestruct ("Hu" with "[//] HS Hab") as "Hu". mono "Hj" Hle1.
  iDestruct (view_mono with "Hc") as "#Hc1"; [exact H|]. iApply ("HΦ" with "[//]").
  iFrame "Hc1 Hu Hj Hl". iSplitL "Hk"; [iExists b, a, c; iFrame; iPureIntro; by apply H|].
  iSplit; [done|]. iExists (W ∪ {[Coh (acount x) t]}). iFrame "Hh Hx". iSplit.
  { iPureIntro. apply union_subseteq. split; [|by apply singleton_subseteq_l, elem_of_union_r].
    etrans; [exact HW|]. apply union_mono; apply Hle1. }
  iSplitL "Hp"; [iApply (view_mono with "Hp")|iApply (view_mono with "Hu'")]; set_solver.
Qed.

(** The data is borrowed from the only [Arc]. *)
Definition opt_lent γ k x v W : iProp Σ :=
  opt_ctx T γ x W ∗ use_part γ 1 W ∗ recorded (op_joins γ) implicit_part W ∗
  (∃ b a c, k ↪[arc_handles (op_data γ)] (b, a, c) ∗ ⌜Coh (dcount x) a ∈ W⌝) ∗
  (∃ tl, lock_state γ (1/2) (Some (tl, None)) ∗ ⌜Coh (acount x) tl ∈ W⌝) ∗
  data_val (op_cell γ) 1 v W ∗ handle_part γ 1 ∗ recorded (op_unlocks γ) 1 W.

#[global] Instance opt_lent_mono γ k x v : ViewMono (opt_lent γ k x v).
Proof.
  intros W W' Hle. iIntros "(#Hc & Hu & Hj & (%b & %a & %c & Hk & %Ha) & (%tl & Hl & %Htl) & Hv & Hh & Hx)".
  iDestruct (view_mono with "Hc") as "#Hc'"; [exact Hle|]. mono "Hu Hj Hv Hx" Hle. iFrame "Hc' Hu Hj Hv Hh Hx".
  iSplitL "Hk"; [iExists b, a, c; iFrame|iExists tl; iFrame]; iPureIntro; by apply Hle.
Qed.

Lemma opt_alone_lent γ k x tl V W :
  acq V ∪ cur V ⊆ W → opt_alone γ k x tl V -∗ ∃ v, opt_lent γ k x v W ∗ T 1 v.
Proof.
  iIntros (HW) "(#Hc & Hu & Hj & (%b & %a & %c & Hk & %Ha) & Hl & %Htl & %W' & %HW' & (%v & Hv & HT) & Hh & Hu' & Hx)".
  assert (cur V ⊆ W) as Hle by set_solver. assert (W' ⊆ W) as Hle' by by etrans.
  iDestruct (view_mono with "Hc") as "#Hc'"; [exact Hle|]. mono "Hu Hj" Hle. mono "Hv Hu' Hx" Hle'.
  iExists v. iFrame "HT Hc' Hj Hv Hh Hx". iSplitL "Hu Hu'".
  { iApply (frac_view_halves (use_part γ)). iFrame. }
  iSplitL "Hk"; [iExists b, a, c; iFrame|iExists tl; iFrame]; iPureIntro; by apply Hle.
Qed.

Lemma wpp_opt_lent_write γ k x v w V Φ :
  opt_lent γ k x v (cur V) -∗ (∀ V', ⌜V ⊆ V'⌝ -∗ opt_lent γ k x w (cur V') -∗ Φ tt V') -∗
  wpp (write (Optimized.data x) w) V Φ.
Proof.
  iIntros "(#Hc & Hu & Hj & (%b & %a & %c & Hk & %Ha) & (%tl & Hl & %Htl) & Hv & Hh & Hx) HΦ".
  iPoseProof "Hc" as "(_ & _ & #Hcc & _)". iDestruct (use_part_cell with "Hu") as "[HS Hu]".
  iApply (wpp_data_write with "[$Hcc $HS] Hv"). iIntros (V' Hle) "[_ HS] Hv".
  assert (cur V ⊆ cur V') as Hle' by apply Hle. iDestruct ("Hu" with "[//] HS") as "Hu". mono "Hj Hx" Hle'.
  iDestruct (view_mono with "Hc") as "#Hc'"; [exact Hle'|]. iApply ("HΦ" with "[//]").
  iFrame "Hc' Hu Hj Hv Hh Hx".
  iSplitL "Hk"; [iExists b, a, c; iFrame|iExists tl; iFrame]; iPureIntro; by apply Hle'.
Qed.

(** [get_mut] gives out the data only to the only pointer; [Q] and [Q'] are what
    is known of the counts. *)
Lemma wpp_opt_get_mut (F F' : iProp Σ) (Q Q' : Z → Prop) γ k x V Φ :
  (∀ h t m q, h !! t = Some m → coh_le (acount x) h (cur V) t → Coh (acount x) 0 ∈ cur V →
     alloc_proto γ (acount x) h -∗ handle_part γ q -∗ alloc_credit γ x (cur V) -∗ F -∗
     ⌜Q (mval m)⌝) →
  (∀ W h t m c M R t0 b a q', cur V ⊆ W → h !! t = Some m → coh_le (dcount x) h W t →
     Coh (dcount x) a ∈ W →
     counter_proto (arc_part T γ) (Some t0) (op_data γ) c M R h -∗
     k ↪[arc_handles (op_data γ)] (b, a, q') -∗ F' -∗ ⌜Q' (mval m)⌝) →
  F -∗ F' -∗ opt_arc T γ k x (cur V) -∗
  (∀ V', ⌜V ⊆ V'⌝ -∗ ⌜∃ n, (Q n ∨ Q' n) ∧ n ≠ 1%Z⌝ -∗ opt_arc T γ k x (cur V') -∗ Φ None V') ∧
  (∀ v V', ⌜V ⊆ V'⌝ -∗ opt_lent γ k x v (cur V') -∗ T 1 v -∗ Φ (Some (Optimized.data x)) V') -∗
  wpp (Optimized.get_mut (Optimized.MkArc x)) V Φ.
Proof.
  iIntros (HQ HQ') "HF HF' Ha HΦ". iApply wpp_bind. iApply (wpp_opt_lock with "HF Ha"); [done|]. iSplit.
  { iIntros (n V1 Hle1 [Hn Hne]) "Ha". iApply wpp_ret. iDestruct "HΦ" as "[HΦ _]".
    iApply ("HΦ" with "[//] [%] Ha"). eauto. }
  iIntros (n q tl V1 Hle1) "Ha". iApply wpp_bind. iApply (wpp_opt_unique F' Q' with "HF' Ha").
  { intros h t m c M R t0 b a q' Hm Hcoh Ha. eapply HQ'; [apply Hle1|done..]. }
  iSplit.
  - iIntros (n' V2 Hle2 Hn Hne) "Ha". iApply wpp_bind. iApply (wpp_opt_unlock with "Ha").
    iIntros (V3 Hle3) "Ha". rewrite (proj2 (Z.eqb_neq _ _) Hne). iApply wpp_ret.
    iDestruct "HΦ" as "[HΦ _]". iApply ("HΦ" with "[%] [%] Ha"); [etrans; [done|by etrans]|eauto].
  - iIntros (V2 Hle2) "Ha Hl %Htl". iApply wpp_bind. iApply (wpp_opt_unlock_alone with "Ha Hl"); [done|].
    iIntros (t V3 Hle3) "Ha". iApply wpp_bind. iApply wpp_acquire_fence. iIntros (V4 Hle4 Hacq).
    iDestruct (opt_alone_lent with "Ha") as (v) "[Ha HT]"; [exact Hacq|]. iApply wpp_ret.
    iDestruct "HΦ" as "[_ HΦ]". iApply ("HΦ" with "[%] Ha HT"). do 2 (etrans; [done|]). by etrans.
Qed.

(** The borrow ends. *)
Lemma opt_lent_end γ k x v W : opt_lent γ k x v W -∗ T 1 v ={⊤}=∗ opt_arc T γ k x W.
Proof.
  iIntros "(#Hc & (HSd & HSa & HSc & Hab) & Hj & (%b & %a & %c & Hk & %Ha) & (%tl & Hl & %Htl) & Hv & Hh & Hx) HT".
  iPoseProof "Hc" as "(#Hcd & #Hca & _)".
  iDestruct (access_share_distinct with "HSd HSa") as %Hne.
  iMod (share_acc_mask with "Hca HSa")
    as "((%h & %N & %A & %A' & Hat & HN & HA & HA' & Hh' & >HPr) & HSa & Hclose)"; [done|].
  iMod (share_acc_mask with "Hcd HSd")
    as "((%h2 & %N2 & %A2 & %A2' & Hat2 & HN2 & HA2 & HA2' & Hh2 & >HPr2) & HSd & Hclose2)".
  { apply namespaces.coPset_subseteq_difference_r; [by apply ndot_ne_disjoint|done]. }
  iMod (alloc_return with "HPr Hl Hab") as "[Hab HPr]".
  iMod (data_return _ _ _ _ _ _ _ _ W with "HPr2 Hk [Hv HT]") as "(Hb & Hp & HPr2)".
  { iExists v. iFrame. }
  iDestruct (opt_parts with "[$HSd $HSa $HSc $Hab] Hb Hj") as "[Ho Hw]".
  iMod ("HPr" with "Hw") as "(HPr & Hid & %n & Hn)".
  iDestruct ("HPr2" with "[$Hp $Hh $Ho $Hx $Hid]") as "(HPr2 & Hk & Hp)".
  iMod ("Hclose2" with "[Hat2 HN2 HA2 HA2' Hh2 HPr2]") as "_".
  { iNext. iExists h2, N2, A2, A2'. iFrame. }
  iMod ("Hclose" with "[Hat HN HA HA' Hh' HPr]") as "_".
  { iNext. iExists h, N, A, A'. iFrame. }
  iModIntro. iFrame "Hc". iSplitR "Hn"; [|iExists n, tl; by iFrame]. iExists b, a, c. by iFrame.
Qed.
End lend.
