(* ===== verification/OptPrograms.v ===== *)
(** * 06-03 meets the interface of weak pointers

    So the test of 06-03_optimization.rs passes in every execution, and any
    number of threads may use the pointers. *)

From iris.proofmode Require Import proofmode.
From iris.base_logic.lib Require Import invariants ghost_map ghost_var token.
From S2P Require Import Prelude Memory History Lang Runs Logic Rules Std Shares Counted.
From S2P Require Import WeakApi DataCell Optimized OptAlloc OptData OptArc OptMut.
From S2P Require Import OptLend.

#[export] Instance opt_ptr : WeakImpl Optimized.Arc Optimized.Weak := {|
  w_new := Optimized.new;
  w_downgrade := Optimized.downgrade;
  w_upgrade := Optimized.upgrade;
  w_read a := read (Optimized.deref a);
  w_get_mut := Optimized.get_mut;
  w_put := write;
  w_clone := Optimized.clone;
  w_clone_weak := Optimized.clone_weak;
  w_drop := Optimized.drop;
  w_drop_weak _ := Optimized.drop_weak
|}.

(** The test of 06-03 is that of 06-02, word for word, with these pointers. *)
Definition test : prog unit := weak_test (I := opt_ptr).

Section spec.
Context `{!rustGS Σ, !optG Σ}.
Context (T : Qp → val → iProp Σ) `{!FracVal T}.
Implicit Types (V : tview) (W : view) (i j k : nat).

(** The ghost names and the addresses. *)
Abbreviation op_name := (opt_name * Optimized.ArcData)%type.
Implicit Types (γ : op_name) (a : Optimized.Arc) (b : Optimized.Weak).

Definition os_strong γ k a W : iProp Σ :=
  ⌜a = Optimized.MkArc γ.2⌝ ∗ ⌜arc_budget (op_alloc γ.1) ≠ 0⌝ ∗ opt_arc T γ.1 k γ.2 W.
Definition os_alive γ k W : iProp Σ := born (op_data γ.1) (Optimized.data_ref_count γ.2) k W.
Definition os_weak γ b W : iProp Σ :=
  ⌜b = Optimized.MkWeak γ.2⌝ ∗ ⌜arc_budget (op_alloc γ.1) ≠ 0⌝ ∗ ∃ i, opt_weak T γ.1 i γ.2 W.
Definition os_acr γ W : iProp Σ := credit (op_alloc γ.1) (Optimized.alloc_ref_count γ.2) W.
Definition os_dcr γ W : iProp Σ := credit (op_data γ.1) (Optimized.data_ref_count γ.2) W.
Definition os_gone γ W : iProp Σ :=
  ∃ t, gone (op_data γ.1) t ∗ ⌜Coh (Optimized.data_ref_count γ.2) t ∈ W⌝.
Definition os_lent γ k a (r : loc) v W : iProp Σ :=
  ⌜a = Optimized.MkArc γ.2 ∧ r = Optimized.data γ.2⌝ ∗ ⌜arc_budget (op_alloc γ.1) ≠ 0⌝ ∗
  opt_lent T γ.1 k γ.2 v W.

#[local] Instance os_strong_mono γ k a : ViewMono (os_strong γ k a).
Proof. apply _. Qed.
#[local] Instance os_weak_mono γ b : ViewMono (os_weak γ b).
Proof. apply _. Qed.
#[local] Instance os_lent_mono γ k a r v : ViewMono (os_lent γ k a r v).
Proof. apply _. Qed.
#[local] Instance os_gone_mono γ : ViewMono (os_gone γ).
Proof. intros W W' Hle. iIntros "(%t & $ & %)". iPureIntro. by apply Hle. Qed.

Lemma wpp_os_upgrade W0 F Q γ b V Φ :
  data_knows T γ.1 (Optimized.data_ref_count γ.2) W0 F Q → W0 ⊆ cur V →
  F -∗ os_weak γ b (cur V) -∗ os_acr γ (cur V) -∗ os_dcr γ (cur V) -∗
  (∀ V', ⌜V ⊆ V'⌝ -∗ ⌜Q 0%Z⌝ -∗ F -∗ os_weak γ b (cur V') -∗ os_acr γ (cur V') -∗
     os_dcr γ (cur V') -∗ Φ None V') ∧
  (∀ n k a V', ⌜V ⊆ V'⌝ -∗ ⌜Q n ∧ n ≠ 0%Z⌝ -∗ F -∗ os_weak γ b (cur V') -∗
     os_strong γ k a (cur V') -∗ os_alive γ k (cur V') -∗ Φ (Some a) V') -∗
  wpp (Optimized.upgrade b) V Φ.
Proof.
  iIntros (HQ HW) "HF (-> & %Hb & %i & Hb) Hk Hd HΦ".
  iApply (wpp_opt_upgrade with "HF Hb Hk Hd"); [done..|]. iSplit.
  - iIntros (V' Hle Hn) "HF Hb". iDestruct "HΦ" as "[HΦ _]".
    iApply ("HΦ" with "[//] [//] HF"). do 2 (iSplit; [done|]). by iExists i.
  - iIntros (k n V' Hle Hn) "HF Hb Ha". iDestruct "HΦ" as "[_ HΦ]".
    iApply ("HΦ" with "[//] [//] HF [Hb] [Ha]"); do 2 (iSplit; [done|]); [by iExists i|done].
Qed.

Lemma wpp_os_drop glue (F : iProp Σ) (Q : Z → Prop) γ k a V Φ :
  (∀ h t m c M R t0 (bt o : time) q, h !! t = Some m → h !! S t = None →
     coh_le (Optimized.data_ref_count γ.2) h (cur V) t →
     Coh (Optimized.data_ref_count γ.2) o ∈ cur V →
     counter_proto (arc_part T γ.1) (Some t0) (op_data γ.1) c M R h -∗
     k ↪[arc_handles (op_data γ.1)] (bt, o, q) -∗ alive (op_data γ.1) k -∗ F -∗
     ⌜Q (mval m)⌝) →
  F -∗ os_strong γ k a (cur V) -∗ os_alive γ k (cur V) -∗
  (∀ n V', ⌜V ⊆ V'⌝ -∗ ⌜Q n⌝ -∗ ⌜n ≠ 1%Z⌝ -∗ F -∗ os_acr γ (cur V') -∗ os_dcr γ (cur V') -∗
     Φ tt V') ∧
  (∀ v V', ⌜V ⊆ V'⌝ -∗ ⌜Q 1%Z⌝ -∗ F -∗ T 1%Qp v -∗
     wpp (glue v) V' (λ _ V2, ∀ V3, ⌜V2 ⊆ V3⌝ -∗ os_gone γ (cur V3) -∗ os_acr γ (cur V3) -∗
       os_dcr γ (cur V3) -∗ Φ tt V3)) -∗
  wpp (Optimized.drop glue a) V Φ.
Proof.
  iIntros (HQ) "HF (-> & _ & Ha) Hi HΦ".
  iApply (wpp_opt_drop with "HF Ha Hi"); [done|]. iSplit; [by iDestruct "HΦ" as "[$ _]"|].
  iIntros (v V1 t Hle1 Hn) "HF #Hg %Ht HT Hk Hd". iDestruct "HΦ" as "[_ HΦ]".
  iApply (wpp_wand with "[HΦ HF HT]"); [by iApply ("HΦ" with "[//] [//] HF")|].
  iIntros ([] V2 Hle2) "HΦ". iIntros (V3 Hle3). mono "Hk Hd" Hle2. mono "Hk Hd" Hle3.
  iApply ("HΦ" with "[//] [] Hk Hd"). iExists t. iFrame "Hg". iPureIntro.
  destruct Hle2 as [Hle2 _], Hle3 as [Hle3 _]. by apply Hle3, Hle2.
Qed.

#[export] Program Instance opt_ptr_spec : WeakSpec opt_ptr T := {|
  w_name := op_name;
  w_budget γ := (pred (arc_budget (op_alloc γ.1)), arc_budget (op_data γ.1));
  w_strong := os_strong;
  w_alive := os_alive;
  w_weak := os_weak;
  w_acr := os_acr;
  w_dcr := os_dcr;
  w_gone := os_gone;
  w_lent := os_lent;
  w_strong_mono := os_strong_mono;
  w_weak_mono := os_weak_mono;
  w_gone_mono := os_gone_mono;
  w_lent_mono := os_lent_mono
|}.
Next Obligation.
  iIntros (v na nd V Φ Hna Hnd) "HT HΦ".
  iApply (wpp_opt_new T v na nd with "HT"); [lia..|]. iIntros (γ x V' Hle [Hb Hb']) "Ha Hi Hk Hd".
  iApply ("HΦ" $! (γ, x) with "[//] [%] [Ha] Hi Hk Hd").
  - by rewrite /= Hb Hb'.
  - iSplit; [done|]. iFrame "Ha". iPureIntro. simpl. lia.
Qed.
Next Obligation.
  iIntros (γ k a V Φ) "(-> & %Hb & Ha) Hk HΦ". iApply (wpp_opt_downgrade with "Ha Hk").
  iIntros (j V' Hle) "Ha Hw". iApply ("HΦ" with "[//] [Ha]"); do 2 (iSplit; [done|]);
    [done|by iExists j].
Qed.
Next Obligation.
  iIntros (γ k a V Φ) "(-> & %Hb & Ha) HΦ". iApply (wpp_opt_read with "Ha").
  iIntros (q v V' Hle) "HT Hback". iApply ("HΦ" with "[//] HT"). iIntros "HT".
  do 2 (iSplit; [done|]). by iApply "Hback".
Qed.
Next Obligation.
  iIntros (γ k a V Φ) "(-> & %Hb & Ha) Hk Hd HΦ". iApply (wpp_opt_clone with "Ha Hk Hd").
  iIntros (k' V' Hle) "Ha Ha' Hi". iApply ("HΦ" with "[//] [$Ha //] [$Ha' //] Hi").
Qed.
Next Obligation.
  iIntros (γ b V Φ) "(-> & %Hb & %i & Hb) Hk HΦ". iApply (wpp_opt_clone_weak with "Hb Hk").
  iIntros (j V' Hle) "Hb Hb'". iApply ("HΦ" with "[//] [Hb]"); do 2 (iSplit; [done|]);
    [by iExists i|by iExists j].
Qed.
Next Obligation.
  iIntros (γ b V Φ) "Hb Hk Hd HΦ".
  iApply (wpp_os_upgrade ∅ True%I (λ _, True) with "[//] Hb Hk Hd");
    [apply data_knows_nothing|set_solver|]. iSplit.
  - iIntros (V' Hle _) "_". iDestruct "HΦ" as "[HΦ _]". by iApply "HΦ".
  - iIntros (n k a V' Hle _) "_". iDestruct "HΦ" as "[_ HΦ]". by iApply "HΦ".
Qed.
Next Obligation.
  iIntros (γ b k0 V Φ) "Hb Hk Hd Hi HΦ".
  iApply (wpp_os_upgrade (cur V) _ (λ n, n ≠ 0%Z) with "Hi Hb Hk Hd"); [apply data_knows_born|done|].
  iSplit; [by iIntros (V' _ ?)|]. iIntros (n k a V' Hle _) "Hi Hb Ha Hk".
  iApply ("HΦ" with "[//] Hb Ha Hk"). iApply (view_mono with "Hi"). apply Hle.
Qed.
Next Obligation.
  iIntros (γ b V Φ) "Hb Hk Hd (%t & #Hg & %Ht) HΦ".
  iApply (wpp_os_upgrade {[Coh (Optimized.data_ref_count γ.2) t]} _ (λ n, n = 0%Z)
    with "Hg Hb Hk Hd"); [exact (data_knows_gone T γ.1 _ t)|set_solver|].
  iSplit; [|by iIntros (n k a V' _ [-> ?])]. iIntros (V' Hle _) "_". by iApply "HΦ".
Qed.
Next Obligation.
  iIntros (glue γ k a V Φ) "Ha Hi HΦ".
  iApply (wpp_os_drop _ True%I (λ _, True) with "[//] Ha Hi"); [eauto|]. iSplit.
  - iIntros (n V' Hle _ _) "_". iDestruct "HΦ" as "[HΦ _]". by iApply "HΦ".
  - iIntros (v V' Hle _) "_ HT". iDestruct "HΦ" as "[_ HΦ]".
    iApply (wpp_wand with "[HΦ HT]"); [by iApply ("HΦ" with "[//]")|].
    iIntros ([] V2 _) "HΦ". iIntros (V3 Hle3) "_". by iApply "HΦ".
Qed.
Next Obligation.
  iIntros (glue γ k a k0 V Φ) "Ha Hi Hi0 HΦ".
  iApply (wpp_os_drop _ (os_alive γ k0 (cur V)) (λ n, n ≠ 1%Z) with "Hi0 Ha Hi").
  { iIntros (h t m c M R t0 b o q Hm Hf _ _) "HPr Hk Hi Hi0".
    iDestruct (born_alive with "Hi0") as "Hi0". by iApply (counter_alive with "HPr Hk Hi Hi0"). }
  iSplit; [|by iIntros (v V' _ ?)]. iIntros (n V' Hle _ _) "Hi0". mono "Hi0" Hle.
  by iApply ("HΦ" with "[//]").
Qed.
Next Obligation.
  iIntros (glue γ k a V Φ) "Ha Hi Hd HΦ".
  iApply (wpp_os_drop _ (all_credits (op_data γ.1) (Optimized.data_ref_count γ.2) (cur V))
    (λ n, n = 1%Z) with "Hd Ha Hi").
  { iIntros (h t m c M R t0 b o q Hm Hf Hle Ho) "HPr Hk _ Hd".
    by iApply (counter_all_credits with "HPr Hk Hd"). }
  iSplit; [by iIntros (n V' _ -> ?)|]. iIntros (v V' Hle _) "_". by iApply "HΦ".
Qed.
Next Obligation.
  iIntros (glue γ b V Φ) "(-> & _ & %i & Hb) HΦ". by iApply (wpp_opt_drop_weak with "Hb").
Qed.
Next Obligation.
  iIntros (γ k a V Φ) "(-> & %Hb & Ha) HΦ".
  iApply (wpp_opt_get_mut T True%I True%I (λ _, True) (λ _, True) with "[//] [//] Ha"); [eauto..|]. iSplit.
  - iIntros (V' Hle _) "Ha". iDestruct "HΦ" as "[HΦ _]". by iApply ("HΦ" with "[//] [$Ha]").
  - iIntros (v V' Hle) "Hl HT". iDestruct "HΦ" as "[_ HΦ]". by iApply ("HΦ" with "[//] [$Hl] HT").
Qed.
Next Obligation.
  iIntros (γ k a V Φ) "(-> & %Hb & Ha) Hk Hd HΦ".
  iApply (wpp_opt_get_mut T _ (all_credits (op_data γ.1) (Optimized.data_ref_count γ.2) (cur V))
    (λ n, n = 1%Z) (λ n, n = 1%Z) with "Hk Hd Ha").
  - iIntros (h t m q Hm Hle H0) "HPr Hh Hcr Hk". iApply (alloc_all_credits with "HPr Hh"); [done..|].
    rewrite /all_credits -(Nat.succ_pred (arc_budget (op_alloc γ.1))) // seq_S big_sepL_app.
    iFrame "Hk". by rewrite big_sepL_singleton.
  - iIntros (W h t m c M R t0 b o q HW Hm Hle Ho) "HPr Hk Hd". mono "Hd" HW.
    by iApply (counter_all_credits with "HPr Hk Hd").
  - iSplit; [by iIntros (V' _ (n & [-> | ->] & ?))|]. iIntros (v V' Hle) "Hl HT".
    by iApply ("HΦ" with "[//] [$Hl] HT").
Qed.
Next Obligation.
  iIntros (γ k a r v w V Φ) "([-> ->] & %Hb & Hl) HΦ". iApply (wpp_opt_lent_write with "Hl").
  iIntros (V' Hle) "Hl". by iApply ("HΦ" with "[//] [$Hl]").
Qed.
Next Obligation.
  iIntros (γ k a r v W) "([-> ->] & %Hb & Hl) HT".
  iMod (opt_lent_end with "Hl HT") as "Ha". iModIntro. by iFrame "Ha".
Qed.
End spec.

(** ** What the programs do *)

(** C32. The test of 06-03: all its assertions hold in every execution, as those of
    the same test of 06-02; the data is dropped once, with the last [Arc], and
    then no weak pointer can be upgraded.  Such an execution exists. *)
Theorem opt_test_safe :
  safe test (λ σ, out σ = []) (λ o _, o = Ok tt) ∧ can_end test (Ok tt) [].
Proof.
  rewrite /test. split; [|by_running 200%Z].
  apply (weak_test_safe #[rustΣ; optΣ; tokenΣ]). intros. apply opt_ptr_spec, _.
Qed.

(** C2. Any number of threads that share the data by [Arc] and [Weak] of 06-03, where
    the two counters are changed apart: each of them upgrades, downgrades,
    reads, changes the data when [get_mut] gives access (which it does by
    locking the allocation counter against [downgrade]), and drops its
    pointers, in any order.  No race, no use after free, no double free;
    readers see one of the values written, and the data is dropped at most
    once. *)
Theorem opt_crowd_safe v0 v1 kinds
    (Hn : (Z.of_nat (S (S (length kinds + length kinds))) < usize_MAX - 1)%Z) :
  safe (weak_crowd (I := opt_ptr) v0 v1 kinds) (λ σ, dropped_once v0 v1 (out σ))
    (λ o _, o = Ok tt).
Proof.
  apply (weak_crowd_safe #[rustΣ; optΣ; tokenΣ; ghost_varΣ unit]); [|done].
  intros. apply opt_ptr_spec, _.
Qed.

(** There is an execution in which the other thread is alone in the end,
    changes the data and drops it. *)
Lemma opt_crowd_safe_witness :
  safe (weak_crowd (I := opt_ptr) (VStr "a") (VStr "b") [true])
    (λ σ, dropped_once (VStr "a") (VStr "b") (out σ)) (λ o _, o = Ok tt) ∧
  can_print (weak_crowd (I := opt_ptr) (VStr "a") (VStr "b") [true])
    [("dropped {}"%string, [VStr "b"])].
Proof.
  split; [apply (opt_crowd_safe (VStr "a") (VStr "b") [true]); vm_compute; reflexivity|].
  apply (can_print_follow (replicate 40 (0, None) ++ replicate 40 (1, None))).
  vm_compute. reflexivity.
Defined.

(** [get_mut] of 06-03 gives access once the other pointers are gone, and the
    change is seen by the later read: when no other pointer is left, neither the
    lock on the allocation counter nor the count of the [Arc]s makes it fail. *)
Theorem opt_update_safe v0 v1 :
  safe (weak_update (I := opt_ptr) v0 v1) (λ σ, out σ = []) (λ o _, o = Ok tt).
Proof.
  apply (weak_update_safe #[rustΣ; optΣ; ghost_varΣ val]). intros. apply opt_ptr_spec, _.
Qed.
