(* ===== verification/SeqRules.v ===== *)
(** * The operations of the standard library in one thread

    What the operations of [Std] do to the memory of [Sequential]. *)

From iris.program_logic Require Import language.
From S2P Require Import Prelude Memory Lang Runs Sequential Std.

Section rules.
Implicit Types (m : smem) (l : loc) (z : Z) (v : val) (o : ordering).

Lemma evals_op x m r m' :
  choiceless x → sexec false 0 x m = Some (r, m') → evals (act x) m (Ok r) m'.
Proof. intros Hc He. eapply evals_act; [done..|]. apply evals_ret. Qed.

Lemma evals_load m l z o :
  sheap m !! l = Some (SAtomic z) → evals (load l o) m (Ok z) m.
Proof. intros Hl. apply (evals_op (OLoad l o)); [done|]. cbn. by rewrite Hl. Qed.

Lemma evals_store m l z z' o :
  sheap m !! l = Some (SAtomic z) → evals (store l z' o) m (Ok tt) (sset l (SAtomic z') m).
Proof. intros Hl. apply (evals_op (OStore l z' o)); [done|]. cbn. by rewrite Hl. Qed.

Lemma evals_fence m o : evals (fence o) m (Ok tt) m.
Proof. by apply (evals_op (OFence o)). Qed.

Lemma evals_read m l v : sheap m !! l = Some (SData v) → evals (read l) m (Ok v) m.
Proof. intros Hl. apply (evals_op (ORead l)); [done|]. cbn. by rewrite Hl. Qed.

Lemma evals_write m l v v' :
  sheap m !! l = Some (SData v) → evals (write l v') m (Ok tt) (sset l (SData v') m).
Proof. intros Hl. apply (evals_op (OWrite l v')); [done|]. cbn. by rewrite Hl. Qed.

Lemma evals_println m fmt args :
  evals (println fmt args) m (Ok tt) (SMem (sheap m) (sout m ++ [(fmt, args)])).
Proof. by apply (evals_op (OPrint (fmt, args))). Qed.

(** The read-modify-writes. *)
Lemma evals_rmw m l z f o o' z' :
  sheap m !! l = Some (SAtomic z) → f z = Some z' →
  evals (act (ORmw l f false o o')) m (Ok (z, true)) (sset l (SAtomic z') m).
Proof. intros Hl Hf. apply (evals_op (ORmw l f false o o')); [done|]. cbn. by rewrite Hl Hf. Qed.

Lemma evals_fetch_add m l z n o :
  sheap m !! l = Some (SAtomic z) → (0 <= z + n < usize_modulus)%Z →
  evals (fetch_add usize_modulus l n o) m (Ok z) (sset l (SAtomic (z + n)) m).
Proof.
  intros Hl Hn. eapply evals_bind; [by eapply evals_rmw|].
  rewrite wrap_add_small //. apply evals_ret.
Qed.

Lemma evals_fetch_sub m l z n o :
  sheap m !! l = Some (SAtomic z) → (0 <= z - n < usize_modulus)%Z →
  evals (fetch_sub usize_modulus l n o) m (Ok z) (sset l (SAtomic (z - n)) m).
Proof.
  intros Hl Hn. eapply evals_bind; [by eapply evals_rmw|].
  rewrite wrap_add_small //. apply evals_ret.
Qed.

Lemma evals_compare_exchange m l z c n o o' :
  sheap m !! l = Some (SAtomic z) →
  evals (compare_exchange l c n o o') m
    (Ok (if (z =? c)%Z then inl z else inr z))
    (if (z =? c)%Z then sset l (SAtomic n) m else m).
Proof.
  intros Hl. apply (evals_bind _ _ _ (z, (z =? c)%Z)
    (if (z =? c)%Z then sset l (SAtomic n) m else m)).
  - apply (evals_op (ORmw l (cas_fun c n) false o o') m (z, (z =? c)%Z)); [done|].
    cbn. rewrite Hl /cas_fun. by destruct (z =? c)%Z.
  - destruct (z =? c)%Z; apply evals_ret.
Qed.

(** A weak exchange with the value that is there: it succeeds, or it fails and
    changes nothing. *)
Lemma sends_compare_exchange_weak m l z n o o' r m' :
  sheap m !! l = Some (SAtomic z) →
  sends (compare_exchange_weak l z n o o') m r m' ↔
  r = Ok (inl z) ∧ m' = sset l (SAtomic n) m ∨ r = Ok (inr z) ∧ m' = m.
Proof.
  intros Hl. rewrite /compare_exchange_weak sends_bind /act. split.
  - intros (o1 & m1 & H1 & H2). apply sends_act in H1 as (f & i & x & m2 & He & H1).
    apply sends_ret in H1 as [-> ->]. revert He. cbn. rewrite Hl /cas_fun Z.eqb_refl.
    destruct f; intros [= <- <-]; apply sends_ret in H2; tauto.
  - intros [[-> ->]|[-> ->]].
    + exists (Ok (z, true)), (sset l (SAtomic n) m). split; [|by apply sends_ret].
      apply sends_act. exists false, 0%Z. cbn. rewrite Hl /cas_fun Z.eqb_refl.
      eexists _, _. split; [done|]. by apply sends_ret.
    + exists (Ok (z, false)), m. split; [|by apply sends_ret].
      apply sends_act. exists true, 0%Z. cbn. rewrite Hl.
      eexists _, _. split; [done|]. by apply sends_ret.
Qed.

Lemma evals_compare_exchange_weak_other m l z c n o o' :
  sheap m !! l = Some (SAtomic z) → z ≠ c →
  evals (compare_exchange_weak l c n o o') m (Ok (inr z)) m.
Proof.
  intros Hl Hz r m'. rewrite /compare_exchange_weak sends_bind /act.
  assert (cas_fun c n z = None) as Hc by (rewrite /cas_fun; by destruct (Z.eqb_spec z c)). split.
  - intros (o1 & m1 & H1 & H2). apply sends_act in H1 as (f & i & x & m2 & He & H1).
    apply sends_ret in H1 as [-> ->]. revert He. cbn. rewrite Hl Hc.
    destruct f; intros [= <- <-]; by apply sends_ret in H2.
  - intros [-> ->]. exists (Ok (z, false)), m. split; [|by apply sends_ret].
    apply sends_act. exists false, 0%Z. cbn. rewrite Hl Hc.
    eexists _, _. split; [done|]. by apply sends_ret.
Qed.

(** The loop around it: [q] is what follows the success. *)
Lemma evals_exchange_loop {R} (body : Z → prog (Z + R)) q m l z n o o' r m' :
  sheap m !! l = Some (SAtomic z) →
  body z = (x ← compare_exchange_weak l z n o o';
            match x with inr e => mret (inl e) | inl _ => q end) →
  evals q (sset l (SAtomic n) m) (Ok (inr r)) m' →
  evals (loop body z) m (Ok r) m'.
Proof.
  intros Hl Hb Hq. eapply evals_retry; [|apply evals_ret]. intros o2 m2. rewrite Hb sends_bind. split.
  - intros (o1 & m1 & H1 & H2). apply sends_compare_exchange_weak in H1 as [[-> ->]|[-> ->]]; [|..|done].
    + apply Hq in H2. tauto.
    + apply sends_ret in H2. tauto.
  - intros [[-> ->]|[-> ->]].
    + exists (Ok (inr z)), m. split; [|by apply sends_ret].
      apply sends_compare_exchange_weak; [done|]. by right.
    + exists (Ok (inl z)), (sset l (SAtomic n) m). split; [|by apply Hq].
      apply sends_compare_exchange_weak; [done|]. by left.
Qed.

(** A loop ends only as its invariant allows. *)
Lemma sends_loop_inv {S R} (P : S → smem → Prop) (Q : outcome R → smem → Prop)
    (body : S → prog (S + R)) s m (o : outcome R) m' :
  (∀ s m (o1 : outcome (S + R)) m1, P s m → sends (body s) m o1 m1 →
    match o1 with
    | Ok (inl s') => P s' m1
    | Ok (inr r) => Q (Ok r) m1
    | Panicked e => Q (Panicked e) m1
    end) →
  P s m → sends (loop body s) m o m' → Q o m'.
Proof.
  intros Hb HP [n Hn]%rtc_nsteps. revert s m HP Hn. induction n as [n IH] using lt_wf_ind.
  intros s m HP Hn. inversion Hn as [|n' ? ? ? Hs Hn']; subst; [by destruct o|].
  apply sred_loop in Hs as ->.
  destruct (nsends_catch _ _ _ _ _ _ Hn') as (n1 & n2 & o3 & m3 & -> & H1 & H2).
  apply rtc_nsteps_2 in H1. apply (Hb _ _ _ _ HP) in H1. destruct o3 as [[s'|r]|e].
  - apply (IH n2 ltac:(lia) s' m3 H1 H2).
  - apply rtc_nsteps_2 in H2. apply sends_ret in H2 as [-> ->]. done.
  - apply rtc_nsteps_2 in H2. apply sends_panic in H2 as [-> ->]. done.
Qed.

(** [while] *)
Lemma sends_while_inv (P : smem → Prop) (Q : smem → Prop) cond body m (o : outcome unit) m' :
  (∀ m (o1 : outcome bool) m1, P m → sends cond m o1 m1 →
    match o1 with
    | Ok true => ∀ (o2 : outcome unit) m2, sends body m1 o2 m2 → o2 = Ok tt ∧ P m2
    | Ok false => Q m1
    | Panicked _ => False
    end) →
  P m → sends (while_loop cond body) m o m' → o = Ok tt ∧ Q m'.
Proof.
  intros Hc HP. apply (sends_loop_inv (λ _, P) (λ (o : outcome unit) m, o = Ok tt ∧ Q m)); [|done].
  clear m HP. intros [] m o1 m1 HP H. apply sends_bind in H as ([b|e] & m2 & H1 & H2).
  - pose proof (Hc _ _ _ HP H1) as Hb. destruct b.
    + apply sends_bind in H2 as (o3 & m3 & [-> H3]%Hb & H4). apply sends_ret in H4 as [-> ->]. done.
    + apply sends_ret in H2 as [-> ->]. done.
  - by destruct (Hc _ _ _ HP H1).
Qed.
End rules.
