(* ===== verification/SeqWeak.v ===== *)
(** * The two reference counters with weak pointers, in one thread

    06-03 is an optimisation of 06-02: cloning an [Arc] changes one counter
    instead of two.  A thread that is alone cannot tell them apart: whatever it
    does with its pointers, both answer as a pair of plain numbers, how many
    [Arc]s and how many [Weak]s there are. *)

From iris.program_logic Require Import language.
From S2P Require Import Prelude Memory Lang Runs Sequential Std SeqRules.
From S2P Require Import WeakApi Weak WeakPrograms Optimized OptPrograms.

(** ** A client *)

(** What a client does; a pointer is named by its place in a [Vec]. *)
Inductive call : Type :=
| Downgrade (i : nat)
| Upgrade (i : nat)
| Clone (i : nat)
| CloneWeak (i : nat)
| Drop (i : nat)
| DropWeak (i : nat)
| Read (i : nat)
(** [if let Some(r) = Arc::get_mut(..) { *r = v }] *)
| Assign (i : nat) (v : val).

Section client.
Context `{I : WeakImpl A B}.

(** Run [f] on a pointer, if it is there. *)
Definition with_nth {X} (xs : list X) (i : nat) (ps : list A * list B)
    (f : X → prog (list A * list B)) : prog (list A * list B) :=
  match xs !! i with Some x => f x | None => mret ps end.

Definition perform (x : call) (ps : list A * list B) : prog (list A * list B) :=
  let '(arcs, weaks) := ps in
  match x with
  | Downgrade i => with_nth arcs i ps (λ a, b ← w_downgrade a; mret (arcs, b :: weaks))
  | Upgrade i => with_nth weaks i ps (λ b,
      r ← w_upgrade b;
      match r with
      | Some a => println "upgraded" [];; mret (a :: arcs, weaks)
      | None => println "gone" [];; mret ps
      end)
  | Clone i => with_nth arcs i ps (λ a, a' ← w_clone a; mret (a' :: arcs, weaks))
  | CloneWeak i => with_nth weaks i ps (λ b, b' ← w_clone_weak b; mret (arcs, b' :: weaks))
  | Drop i => with_nth arcs i ps (λ a, w_drop tell a;; mret (delete i arcs, weaks))
  | DropWeak i => with_nth weaks i ps (λ b, w_drop_weak tell b;; mret (arcs, delete i weaks))
  | Read i => with_nth arcs i ps (λ a, v ← w_read a; println "{}" [v];; mret ps)
  | Assign i v => with_nth arcs i ps (λ a,
      r ← w_get_mut a;
      match r with
      | Some p => w_put p v;; println "set" [];; mret ps
      | None => println "shared" [];; mret ps
      end)
  end.

Fixpoint perform_all (xs : list call) (ps : list A * list B) : prog (list A * list B) :=
  match xs with [] => mret ps | x :: xs => ps ← perform x ps; perform_all xs ps end.

Definition client (v : val) (xs : list call) : prog unit :=
  a ← w_new v; _ ← perform_all xs ([a], []); mret ().

Lemma no_fork_weak_client v xs :
  (∀ v, no_fork (w_new v)) → (∀ a, no_fork (w_downgrade a)) → (∀ b, no_fork (w_upgrade b)) →
  (∀ a, no_fork (w_read a)) → (∀ a, no_fork (w_get_mut a)) → (∀ p v, no_fork (w_put p v)) →
  (∀ a, no_fork (w_clone a)) → (∀ b, no_fork (w_clone_weak b)) →
  (∀ a, no_fork (w_drop tell a)) → (∀ b, no_fork (w_drop_weak tell b)) →
  no_fork (client v xs).
Proof.
  intros Hn Hdo Hup Hre Hge Hpu Hc Hcw Hd Hdw. apply no_fork_bind; [done|]. intros a.
  apply no_fork_bind; [|done]. generalize ([a], [] : list B) as ps.
  induction xs as [|x xs IH]; intros ps; [done|]. apply no_fork_bind; [|done].
  destruct ps as [arcs weaks]. destruct x; rewrite /= /with_nth; destruct (_ !! _); try done;
    repeat first [solve [simpl; auto]|apply no_fork_bind|progress intros|case_match].
Qed.
End client.

(** ** What it sees *)

(** The data, and how many [Arc]s and [Weak]s there are. *)
Record counts : Type := Counts { value : val; strong_count : nat; weak_count : nat }.

Definition answer (x : call) (c : counts) : counts * list output :=
  let '(Counts v s w) := c in
  match x with
  | Downgrade i => if i <? s then (Counts v s (S w), []) else (c, [])
  | Upgrade i =>
      if i <? w then
        if s =? 0 then (c, [("gone"%string, [])])
        else (Counts v (S s) w, [("upgraded"%string, [])])
      else (c, [])
  | Clone i => if i <? s then (Counts v (S s) w, []) else (c, [])
  | CloneWeak i => if i <? w then (Counts v s (S w), []) else (c, [])
  | Drop i =>
      if i <? s then
        (Counts v (pred s) w, if s =? 1 then [("dropped {}"%string, [v])] else [])
      else (c, [])
  | DropWeak i => if i <? w then (Counts v s (pred w), []) else (c, [])
  | Read i => if i <? s then (c, [("{}"%string, [v])]) else (c, [])
  | Assign i v' =>
      if i <? s then
        if (s =? 1) && (w =? 0) then (Counts v' s w, [("set"%string, [])])
        else (c, [("shared"%string, [])])
      else (c, [])
  end.

Fixpoint answers (xs : list call) (c : counts) : list output :=
  match xs with
  | [] => []
  | x :: xs => let '(c', os) := answer x c in os ++ answers xs c'
  end.

(** ** What the pointers promise to a thread that is alone *)

(** The counters do not overflow. *)
Definition few (s w : nat) : Prop := (Z.of_nat (s + w) < usize_MAX / 2)%Z.

(** All the [Arc]s are the same pointer, and so are the [Weak]s; [ws_mem] is
    the memory when there are [s] and [w] of them. *)
Class WeakSeq `(I : WeakImpl A B) : Type := {
  ws_arc : A;
  ws_weak : B;
  ws_place : loc;
  ws_mem : val → nat → nat → list output → smem;
  ws_print v s w os x :
    SMem (sheap (ws_mem v s w os)) (sout (ws_mem v s w os) ++ [x]) = ws_mem v s w (os ++ [x]);
  ws_out v s w os : sout (ws_mem v s w os) = os;
  ws_new v : evals (w_new v) sinit (Ok ws_arc) (ws_mem v 1 0 []);
  ws_downgrade v s w os : few (S s) w →
    evals (w_downgrade ws_arc) (ws_mem v (S s) w os) (Ok ws_weak) (ws_mem v (S s) (S w) os);
  ws_upgrade_gone v w os :
    evals (w_upgrade ws_weak) (ws_mem v 0 (S w) os) (Ok None) (ws_mem v 0 (S w) os);
  ws_upgrade v s w os : few (S s) (S w) →
    evals (w_upgrade ws_weak) (ws_mem v (S s) (S w) os) (Ok (Some ws_arc))
      (ws_mem v (S (S s)) (S w) os);
  ws_clone v s w os : few (S s) w →
    evals (w_clone ws_arc) (ws_mem v (S s) w os) (Ok ws_arc) (ws_mem v (S (S s)) w os);
  ws_clone_weak v s w os : few s (S w) →
    evals (w_clone_weak ws_weak) (ws_mem v s (S w) os) (Ok ws_weak) (ws_mem v s (S (S w)) os);
  ws_drop v s w os : few (S s) w →
    evals (w_drop tell ws_arc) (ws_mem v (S s) w os) (Ok tt)
      (ws_mem v s w (os ++ if s =? 0 then [("dropped {}"%string, [v])] else []));
  ws_drop_weak v s w os : few s (S w) →
    evals (w_drop_weak tell ws_weak) (ws_mem v s (S w) os) (Ok tt) (ws_mem v s w os);
  ws_read v s w os : evals (w_read ws_arc) (ws_mem v (S s) w os) (Ok v) (ws_mem v (S s) w os);
  ws_get_mut v s w os : few (S s) w →
    evals (w_get_mut ws_arc) (ws_mem v (S s) w os)
      (Ok (if (s =? 0) && (w =? 0) then Some ws_place else None)) (ws_mem v (S s) w os);
  ws_put v v' os : evals (w_put ws_place v') (ws_mem v 1 0 os) (Ok tt) (ws_mem v' 1 0 os);
  ws_no_fork v xs : no_fork (client v xs)
}.

Lemma delete_replicate {X} (x : X) n i : i < n → delete i (replicate n x) = replicate (pred n) x.
Proof.
  revert i. induction n as [|n IH]; intros i Hi; [lia|]. destruct i as [|i]; [done|]. simpl.
  rewrite IH; [|lia]. destruct n; [lia|done].
Qed.

Section answers.
Context `{I : WeakImpl A B, !WeakSeq I}.

Definition pointers (s w : nat) : list A * list B := (replicate s ws_arc, replicate w ws_weak).

Lemma evals_print v s w os fmt args :
  evals (println fmt args) (ws_mem v s w os) (Ok tt) (ws_mem v s w (os ++ [(fmt, args)])).
Proof. rewrite -ws_print. apply evals_println. Qed.

(** A pointer is there if its place is below their number. *)
Lemma with_nth_replicate {X} (x : X) n i ps (f : X → prog (list A * list B)) :
  with_nth (replicate n x) i ps f = if i <? n then f x else mret ps.
Proof.
  rewrite /with_nth. destruct (Nat.ltb_spec i n) as [Hi|Hi].
  - by rewrite lookup_replicate_2.
  - by rewrite (proj1 (lookup_replicate_None n x i)).
Qed.

Lemma evals_perform x v s w os :
  few s w →
  let '(Counts v' s' w', os') := answer x (Counts v s w) in
  evals (perform x (pointers s w)) (ws_mem v s w os) (Ok (pointers s' w'))
    (ws_mem v' s' w' (os ++ os')).
Proof.
  intros Hf. rewrite /pointers.
  destruct x as [i|i|i|i|i|i|i|i v']; cbn [perform answer]; rewrite with_nth_replicate;
    match goal with |- context [?i <? ?n] => destruct (Nat.ltb_spec i n) as [Hi|_] end;
    rewrite ?app_nil_r; try apply evals_ret;
    first [destruct s as [|s]; [lia|]|destruct w as [|w]; [lia|]]; cbn [Nat.eqb andb pred].
  - eapply evals_bind; [by apply ws_downgrade|apply evals_ret].
  - destruct s as [|s]; cbn [Nat.eqb].
    + eapply evals_bind; [apply ws_upgrade_gone|]. eapply evals_bind; [apply evals_print|apply evals_ret].
    + eapply evals_bind; [by apply ws_upgrade|]. eapply evals_bind; [apply evals_print|apply evals_ret].
  - eapply evals_bind; [by apply ws_clone|apply evals_ret].
  - eapply evals_bind; [by apply ws_clone_weak|apply evals_ret].
  - eapply evals_bind; [by apply ws_drop|]. rewrite delete_replicate //. apply evals_ret.
  - eapply evals_bind; [by apply ws_drop_weak|]. rewrite delete_replicate //. apply evals_ret.
  - eapply evals_bind; [apply ws_read|]. eapply evals_bind; [apply evals_print|apply evals_ret].
  - pose proof (ws_get_mut v s w os Hf) as Hm. destruct ((s =? 0) && (w =? 0)) eqn:Hsw.
    + apply andb_true_iff in Hsw as [->%Nat.eqb_eq ->%Nat.eqb_eq]. eapply evals_bind; [exact Hm|].
      eapply evals_bind; [apply ws_put|]. eapply evals_bind; [apply evals_print|apply evals_ret].
    + eapply evals_bind; [exact Hm|]. eapply evals_bind; [apply evals_print|apply evals_ret].
Qed.

(** One call makes at most one more pointer. *)
Lemma answer_counts x c :
  strong_count (answer x c).1 + weak_count (answer x c).1 ≤
  S (strong_count c + weak_count c).
Proof. destruct c as [v s w], x; simpl; repeat case_match; simpl; lia. Qed.

Lemma evals_perform_all xs v s w os :
  (Z.of_nat (s + w + length xs) < usize_MAX / 2)%Z →
  ∃ v' s' w', evals (perform_all xs (pointers s w)) (ws_mem v s w os) (Ok (pointers s' w'))
    (ws_mem v' s' w' (os ++ answers xs (Counts v s w))).
Proof.
  revert v s w os. induction xs as [|x xs IH]; intros v s w os Hn; cbn [perform_all answers length] in *.
  - exists v, s, w. rewrite app_nil_r. apply evals_ret.
  - assert (few s w) as Hf by (rewrite /few; lia).
    pose proof (evals_perform x v s w os Hf) as H1.
    pose proof (answer_counts x (Counts v s w)) as Hc.
    destruct (answer x (Counts v s w)) as [[v1 s1 w1] os1]. simpl in Hc.
    destruct (IH v1 s1 w1 (os ++ os1) ltac:(lia)) as (v2 & s2 & w2 & H2).
    exists v2, s2, w2. rewrite -app_assoc in H2. eapply evals_bind; [exact H1|exact H2].
Qed.

Lemma weak_client_answers v xs :
  (Z.of_nat (S (length xs)) < usize_MAX / 2)%Z →
  ∀ o os, can_end (client v xs) o os ↔ o = Ok tt ∧ os = answers xs (Counts v 1 0).
Proof.
  intros Hn. destruct (evals_perform_all xs v 1 0 [] Hn) as (v' & s' & w' & H1).
  rewrite -(ws_out v' s' w' (answers xs _)). apply evals_can_end; [apply ws_no_fork|].
  eapply evals_bind; [apply ws_new|]. eapply evals_bind; [exact H1|apply evals_ret].
Qed.
End answers.

(** ** The memory *)

(** The two counters and the data, and after the last pointer. *)
Definition cells (d a : Z) (x : val) (os : list output) : smem :=
  SMem (<[4%positive := SData x]> (<[3%positive := SAtomic a]> {[2%positive := SAtomic d]})) os.
Definition freed (os : list output) : smem :=
  SMem (<[4%positive := SFreed]> (<[3%positive := SFreed]> {[2%positive := SFreed]})) os.

Lemma evals_to {A} (p : prog A) m o m' m'' : evals p m o m' → m' = m'' → evals p m o m''.
Proof. by intros H <-. Qed.

Lemma evals_cells {A} (p : prog A) m o d a x os d' a' :
  evals p m o (cells d a x os) → d = d' → a = a' → evals p m o (cells d' a' x os).
Proof. by intros H <- <-. Qed.

Lemma evals_with_drop {A} (dr : prog unit) (p : prog A) m o m1 m2 :
  evals p m o m1 → evals dr m1 (Ok tt) m2 → evals (with_drop dr p) m o m2.
Proof.
  intros Hp Hd. eapply evals_catch; [exact Hp|]. eapply evals_bind; [exact Hd|].
  destruct o; [apply evals_ret|apply evals_panic].
Qed.

Lemma usize_half : (usize_MAX / 2 < usize_MAX - 1)%Z ∧ (usize_MAX < usize_modulus)%Z.
Proof. done. Qed.

(** Arithmetic on the counters. *)
Ltac count := pose proof usize_half; unfold few in *; lia.

(** ** 06-02 *)

Section weak_ptr.
Abbreviation x0 := (WeakPtr.MkArcData 2 3 4).
Abbreviation w0 := (WeakPtr.MkWeak x0).

Definition weak_mem (v : val) (s w : nat) (os : list output) : smem :=
  if s + w =? 0 then freed os
  else cells (Z.of_nat s) (Z.of_nat (s + w)) (if s =? 0 then VNone else VSome v) os.

Lemma evals_clone_weak d a x os :
  (0 <= a <= usize_MAX / 2)%Z →
  evals (WeakPtr.clone_weak w0) (cells d a x os) (Ok w0) (cells d (a + 1) x os).
Proof.
  intros Ha. eapply evals_bind.
  - apply evals_fetch_add; [done|]. count.
  - rewrite (proj2 (Z.ltb_ge _ _)); [|lia]. apply evals_ret.
Qed.

Lemma evals_drop_weak d a x os :
  (0 < a < usize_modulus)%Z → (a = 1%Z → x = VNone) →
  evals (WeakPtr.drop_weak tell w0) (cells d a x os) (Ok tt)
    (if (a =? 1)%Z then freed os else cells d (a - 1) x os).
Proof.
  intros Ha Hx. eapply evals_bind; [apply evals_fetch_sub; [done|lia]|].
  destruct (Z.eqb_spec a 1) as [->|]; [|apply evals_ret]. rewrite Hx //.
  by apply (seval_sound 20).
Qed.

Lemma evals_upgrade d a x os :
  (0 < d < usize_MAX)%Z → (0 <= a <= usize_MAX / 2)%Z →
  evals (WeakPtr.upgrade w0) (cells d a x os) (Ok (Some (WeakPtr.MkArc w0)))
    (cells (d + 1) (a + 1) x os).
Proof.
  intros Hd Ha. eapply evals_bind; [by apply evals_load|].
  eapply (evals_exchange_loop _ (w ← WeakPtr.clone_weak w0; mret (inr (Some (WeakPtr.MkArc w))))
    _ 2%positive); [done| |].
  - rewrite (proj2 (Z.eqb_neq _ _)); [|lia]. rewrite (proj2 (Z.ltb_lt _ _)); [|lia]. done.
  - eapply evals_bind; [by apply evals_clone_weak|apply evals_ret].
Qed.

Lemma evals_drop_arc d a x os v :
  (0 < d)%Z → (d <= a < usize_modulus)%Z → x = VSome v →
  evals (WeakPtr.drop tell (WeakPtr.MkArc w0)) (cells d a x os) (Ok tt)
    (let os' := if (d =? 1)%Z then os ++ [("dropped {}"%string, [v])] else os in
     if (a =? 1)%Z then freed os'
     else cells (d - 1) (a - 1) (if (d =? 1)%Z then VNone else x) os').
Proof.
  intros Hd Ha ->. eapply evals_with_drop.
  - eapply evals_bind; [apply evals_fetch_sub; [done|lia]|].
    instantiate (1 := cells (d - 1) a (if (d =? 1)%Z then VNone else VSome v)
      (if (d =? 1)%Z then os ++ [("dropped {}"%string, [v])] else os)).
    destruct (Z.eqb_spec d 1) as [->|]; [|apply evals_ret]. by apply (seval_sound 20).
  - eapply evals_to; [apply evals_drop_weak; [lia|]|].
    + intros ->. assert (d = 1%Z) as -> by lia. done.
    + done.
Qed.

Lemma weak_mem_live v s w os :
  0 < s + w →
  weak_mem v s w os = cells (Z.of_nat s) (Z.of_nat (s + w)) (if s =? 0 then VNone else VSome v) os.
Proof. intros H. rewrite /weak_mem. destruct (Nat.eqb_spec (s + w) 0); [lia|done]. Qed.

#[export] Program Instance weak_ptr_seq : WeakSeq weak_ptr := {|
  ws_arc := WeakPtr.MkArc w0; ws_weak := w0; ws_place := 4%positive; ws_mem := weak_mem
|}.
Next Obligation. intros. rewrite /weak_mem. by destruct (_ =? 0). Qed.
Next Obligation. intros. rewrite /weak_mem. by destruct (_ =? 0). Qed.
Next Obligation. intros. by apply (seval_sound 20). Qed.
Next Obligation.
  intros v s w os Hf. rewrite !weak_mem_live; [|lia..].
  eapply evals_cells; [apply evals_clone_weak; count|lia..].
Qed.
Next Obligation. intros v w os. rewrite weak_mem_live; [|lia]. by apply (seval_sound 20). Qed.
Next Obligation.
  intros v s w os Hf. rewrite !weak_mem_live; [|lia..].
  eapply evals_cells; [apply evals_upgrade; count|lia..].
Qed.
Next Obligation.
  intros v s w os Hf. rewrite !weak_mem_live; [|lia..].
  eapply evals_bind; [apply evals_clone_weak; count|]. cbn [Nat.eqb].
  eapply evals_bind; [apply evals_fetch_add; [done|count]|].
  rewrite (proj2 (Z.ltb_ge _ _)); [|count]. eapply (evals_cells _ _ _ (Z.of_nat (S s) + 1)); [apply evals_ret|lia..].
Qed.
Next Obligation.
  intros v s w os Hf. rewrite !weak_mem_live; [|lia..].
  eapply evals_cells; [apply evals_clone_weak; count|lia..].
Qed.
Next Obligation.
  intros v s w os Hf. rewrite (weak_mem_live v (S s)); [|lia].
  eapply evals_to; [apply (evals_drop_arc _ _ _ _ v); [lia|count|done]|].
  destruct s as [|s]; [destruct w as [|w]|].
  - done.
  - rewrite weak_mem_live; [|lia]. cbn [Nat.eqb]. rewrite (proj2 (Z.eqb_neq (Z.of_nat (1 + S w)) 1)); [|lia].
    cbn zeta. rewrite (proj2 (Z.eqb_eq _ _)) //. f_equal. lia.
  - rewrite weak_mem_live; [|lia]. cbn [Nat.eqb]. rewrite !(proj2 (Z.eqb_neq _ 1)); [|lia..].
    rewrite app_nil_r. f_equal; lia.
Qed.
Next Obligation.
  intros v s w os Hf. rewrite (weak_mem_live v s (S w)); [|lia].
  destruct (Nat.eqb_spec (s + w) 0).
  - assert (s = 0 ∧ w = 0) as [-> ->] by lia. by apply (seval_sound 20).
  - rewrite weak_mem_live; [|lia]. eapply evals_to; [apply evals_drop_weak; [count|lia]|].
    rewrite (proj2 (Z.eqb_neq _ 1)); [|lia]. f_equal. lia.
Qed.
Next Obligation. intros v s w os. rewrite weak_mem_live; [|lia]. by apply (seval_sound 20). Qed.
Next Obligation.
  intros v s w os Hf. rewrite weak_mem_live; [|lia]. eapply evals_bind; [by apply evals_load|].
  destruct (Z.eqb_spec (Z.of_nat (S s + w)) 1).
  - assert (s = 0 ∧ w = 0) as [-> ->] by lia. by apply (seval_sound 20).
  - assert ((s =? 0) && (w =? 0) = false) as ->; [|apply evals_ret].
    destruct (Nat.eqb_spec s 0), (Nat.eqb_spec w 0); try done. lia.
Qed.
Next Obligation. intros. by apply (seval_sound 20). Qed.
Next Obligation.
  intros v xs. apply no_fork_weak_client; no_fork_follow.
Qed.
End weak_ptr.

(** ** 06-03 *)

Section opt_ptr.
Abbreviation y0 := (Optimized.MkArcData 2 3 4).
Abbreviation b0 := (Optimized.MkWeak y0).
Abbreviation a0 := (Optimized.MkArc y0).

(** The [Arc]s count once, together, among the [Weak]s. *)
Definition opt_mem (v : val) (s w : nat) (os : list output) : smem :=
  if s + w =? 0 then freed os
  else cells (Z.of_nat s) (Z.of_nat (w + if s =? 0 then 0 else 1)) v os.

Lemma opt_mem_live v s w os :
  0 < s + w →
  opt_mem v s w os = cells (Z.of_nat s) (Z.of_nat (w + if s =? 0 then 0 else 1)) v os.
Proof. intros H. rewrite /opt_mem. destruct (Nat.eqb_spec (s + w) 0); [lia|done]. Qed.

Lemma evals_opt_drop_weak d a x os :
  (0 < a < usize_modulus)%Z →
  evals (Optimized.drop_weak b0) (cells d a x os) (Ok tt)
    (if (a =? 1)%Z then freed os else cells d (a - 1) x os).
Proof.
  intros Ha. eapply evals_bind; [apply evals_fetch_sub; [done|lia]|].
  destruct (Z.eqb_spec a 1) as [->|]; [|apply evals_ret]. by apply (seval_sound 20).
Qed.

Lemma evals_opt_downgrade d a x os :
  (0 <= a < usize_MAX - 1)%Z →
  evals (Optimized.downgrade a0) (cells d a x os) (Ok b0) (cells d (a + 1) x os).
Proof.
  intros Ha. eapply evals_bind; [by apply evals_load|].
  eapply (evals_exchange_loop _ (mret (inr b0)) _ 3%positive); [done| |apply evals_ret].
  rewrite (proj2 (Z.eqb_neq _ _)); [|lia]. rewrite (proj2 (Z.ltb_lt _ _)); [|lia]. done.
Qed.

Lemma evals_opt_upgrade d a x os :
  (0 < d < usize_MAX)%Z →
  evals (Optimized.upgrade b0) (cells d a x os) (Ok (Some a0)) (cells (d + 1) a x os).
Proof.
  intros Hd. eapply evals_bind; [by apply evals_load|].
  eapply (evals_exchange_loop _ (mret (inr (Some a0))) _ 2%positive); [done| |apply evals_ret].
  rewrite (proj2 (Z.eqb_neq _ _)); [|lia]. rewrite (proj2 (Z.ltb_lt _ _)); [|lia]. done.
Qed.

Lemma evals_opt_drop d a v os :
  (0 < d < usize_modulus)%Z → (0 < a < usize_modulus)%Z →
  evals (Optimized.drop tell a0) (cells d a v os) (Ok tt)
    (if (d =? 1)%Z then
       let os' := os ++ [("dropped {}"%string, [v])] in
       if (a =? 1)%Z then freed os' else cells 0 (a - 1) v os'
     else cells (d - 1) a v os).
Proof.
  intros Hd Ha. eapply evals_bind; [apply evals_fetch_sub; [done|lia]|].
  destruct (Z.eqb_spec d 1) as [->|]; [|apply evals_ret].
  eapply evals_bind; [apply evals_fence|]. eapply evals_bind; [by apply (seval_sound 20)|].
  by apply evals_opt_drop_weak.
Qed.

(** The counter that [get_mut] locks is as before when it returns. *)
Lemma evals_opt_get_mut d a v os :
  evals (Optimized.get_mut a0) (cells d a v os)
    (Ok (if (a =? 1)%Z && (d =? 1)%Z then Some 4%positive else None)) (cells d a v os).
Proof.
  eapply evals_bind; [by apply (evals_compare_exchange _ 3 a)|].
  destruct (Z.eqb_spec a 1) as [->|]; [|apply evals_ret]. cbn [is_err is_ok negb andb].
  eapply evals_bind; [by apply (evals_load _ 2 d)|]. eapply evals_bind; [by apply (evals_store _ 3 usize_MAX)|].
  destruct (d =? 1)%Z; cbn [negb]; [|apply evals_ret].
  eapply evals_bind; [apply evals_fence|apply evals_ret].
Qed.

#[export] Program Instance opt_ptr_seq : WeakSeq opt_ptr := {|
  ws_arc := a0; ws_weak := b0; ws_place := 4%positive; ws_mem := opt_mem
|}.
Next Obligation. intros. rewrite /opt_mem. by destruct (_ =? 0). Qed.
Next Obligation. intros. rewrite /opt_mem. by destruct (_ =? 0). Qed.
Next Obligation. intros. by apply (seval_sound 20). Qed.
Next Obligation.
  intros v s w os Hf. rewrite !opt_mem_live; [|lia..]. cbn [Nat.eqb].
  eapply evals_cells; [apply evals_opt_downgrade; count|lia..].
Qed.
Next Obligation. intros v w os. rewrite opt_mem_live; [|lia]. by apply (seval_sound 20). Qed.
Next Obligation.
  intros v s w os Hf. rewrite !opt_mem_live; [|lia..].
  eapply evals_cells; [apply evals_opt_upgrade; count|lia|done].
Qed.
Next Obligation.
  intros v s w os Hf. rewrite !opt_mem_live; [|lia..].
  eapply evals_bind; [apply evals_fetch_add; [done|count]|].
  rewrite (proj2 (Z.ltb_ge _ _)); [|count].
  eapply (evals_cells _ _ _ (Z.of_nat (S s) + 1)); [apply evals_ret|lia|done].
Qed.
Next Obligation.
  intros v s w os Hf. rewrite !opt_mem_live; [|lia..]. eapply evals_bind.
  - apply evals_fetch_add; [done|]. destruct (s =? 0) eqn:?; count.
  - rewrite (proj2 (Z.ltb_ge _ _)); [|destruct s; simpl; count].
    eapply (evals_cells _ _ _ _ (Z.of_nat (S w + if s =? 0 then 0 else 1) + 1)); [apply evals_ret|done|lia].
Qed.
Next Obligation.
  intros v s w os Hf. rewrite (opt_mem_live v (S s)); [|lia].
  eapply evals_to; [apply evals_opt_drop; cbn [Nat.eqb]; count|]. cbn [Nat.eqb].
  destruct s as [|s].
  - cbn [Nat.eqb]. rewrite (proj2 (Z.eqb_eq _ _)) //. cbn zeta. destruct w as [|w]; [done|].
    rewrite opt_mem_live; [|lia]. rewrite (proj2 (Z.eqb_neq _ 1)); [|lia]. f_equal. simpl. lia.
  - rewrite opt_mem_live; [|lia]. cbn [Nat.eqb]. rewrite (proj2 (Z.eqb_neq _ 1)); [|lia].
    rewrite app_nil_r. f_equal. lia.
Qed.
Next Obligation.
  intros v s w os Hf. rewrite (opt_mem_live v s (S w)); [|lia].
  eapply evals_to; [apply evals_opt_drop_weak; destruct s; simpl; count|].
  destruct (Nat.eqb_spec (s + w) 0).
  - by assert (s = 0 ∧ w = 0) as [-> ->] by lia.
  - rewrite opt_mem_live; [|lia]. rewrite (proj2 (Z.eqb_neq _ 1)); [f_equal; lia|].
    destruct s; cbn [Nat.eqb]; lia.
Qed.
Next Obligation. intros v s w os. rewrite opt_mem_live; [|lia]. by apply (seval_sound 20). Qed.
Next Obligation.
  intros v s w os Hf. rewrite opt_mem_live; [|lia]. cbn [Nat.eqb].
  pose proof (evals_opt_get_mut (Z.of_nat (S s)) (Z.of_nat (w + 1)) v os) as H.
  assert ((Z.of_nat (w + 1) =? 1)%Z && (Z.of_nat (S s) =? 1)%Z = (s =? 0) && (w =? 0)) as <-; [|exact H].
  destruct (Nat.eqb_spec s 0), (Nat.eqb_spec w 0), (Z.eqb_spec (Z.of_nat (w + 1)) 1),
    (Z.eqb_spec (Z.of_nat (S s)) 1); try done; lia.
Qed.
Next Obligation. intros. by apply (seval_sound 20). Qed.
Next Obligation. intros v xs. apply no_fork_weak_client; no_fork_follow. Qed.
End opt_ptr.

(** C6. The optimised reference counter of 06-03 is equivalent to that of 06-02 for a
    thread that is alone: whatever it does with its pointers, in whatever order
    (cloning, downgrading, upgrading, reading, writing through [get_mut],
    dropping), it sees the same with both, and what the numbers of [Arc]s and
    [Weak]s say: [upgrade] succeeds while there is an [Arc], [get_mut] when
    there is no other pointer, and the data is dropped with the last [Arc]. *)
Theorem weak_pointers_equivalent (v : val) (xs : list call)
    (Hn : (Z.of_nat (S (length xs)) < usize_MAX / 2)%Z) o os :
  (can_end (client (I := weak_ptr) v xs) o os ↔ can_end (client (I := opt_ptr) v xs) o os) ∧
  (can_end (client (I := opt_ptr) v xs) o os ↔ o = Ok tt ∧ os = answers xs (Counts v 1 0)).
Proof. rewrite (weak_client_answers (I := weak_ptr)) // (weak_client_answers (I := opt_ptr)) //. Qed.

Lemma weak_pointers_equivalent_witness :
  can_end (client (I := opt_ptr) (VInt 1)
    [Downgrade 0; Clone 0; Assign 0 (VInt 2); Drop 1; DropWeak 0; Assign 0 (VInt 2); Downgrade 0;
     Read 0; Drop 0; Upgrade 0])
    (Ok tt)
    [("shared"%string, []); ("set"%string, []); ("{}"%string, [VInt 2]);
     ("dropped {}"%string, [VInt 2]); ("gone"%string, [])].
Proof. eapply weak_pointers_equivalent; [done|]. done. Defined.
