(* ===== verification/Flag.v ===== *)
(** * The [ready] flag of the one-shot channels

    One thread stores [true] with [Release] when the message is there; a
    receiver takes the message when it reads [true], by a swap that puts
    [false] back (05-03 to 05-06) or by a load (05-02). *)

From iris.proofmode Require Import proofmode.
From iris.base_logic.lib Require Import invariants cancelable_invariants ghost_map token.
From S2P Require Import Prelude Memory History Lang Logic Rules Std Shares.

Class flagG Σ := FlagG { flag_sentG :: ghost_mapG Σ unit time }.
Definition flagΣ : gFunctors := #[ghost_mapΣ unit time].
#[export] Instance subG_flagΣ Σ : subG flagΣ Σ → flagG Σ.
Proof. solve_inG. Qed.

(** When the message was sent, the right to send, the right to receive, and
    when the flag was cleared first. *)
Record flag_name : Type := FlagName {
  flag_sent : gname; flag_send : gname; flag_recv : gname; flag_start : time
}.

(** No write of [true] yet, and only swaps since [t0]. *)
Definition hist_unsent (t0 : time) (h : hist) : Prop :=
  ∃ tm, newest h tm ∧ contiguous h t0 tm ∧
    map_Forall (λ t m, t0 ≤ t ∧ mval m = 0%Z) h.

(** The only write of [true] is [m], at [ts]. *)
Definition hist_sent (h : hist) (ts : time) (m : msg) : Prop :=
  h !! ts = Some m ∧ mval m = 1%Z ∧ map_Forall (λ t m', t ≠ ts → mval m' = 0%Z) h.

Lemma hist_unsent_new t W : hist_unsent t {[t := Msg 0 W]}.
Proof.
  exists t. split; [apply newest_singleton|]. split; [apply contiguous_singleton|].
  by intros t' m [<- <-]%lookup_singleton_Some.
Qed.

Lemma hist_unsent_value t0 h t m : hist_unsent t0 h → h !! t = Some m → mval m = 0%Z.
Proof. intros (? & _ & _ & Hz) Hm. by apply (Hz t m). Qed.

Lemma hist_unsent_rmw t0 h t m m' :
  hist_unsent t0 h → h !! t = Some m → h !! S t = None → mval m' = 0%Z →
  hist_unsent t0 (<[S t := m']> h).
Proof.
  intros (tm & Hnew & Hcon & Hz) Hm Hfree Hm'. destruct (Hz _ _ Hm) as [Ht0 _].
  assert (t = tm) as -> by (by eapply contiguous_newest).
  destruct (contiguous_extend h t0 tm m' Hnew Hcon). exists (S tm). split; [done|].
  split; [done|]. apply map_Forall_insert_2; [split; [lia|done]|done].
Qed.

Lemma hist_unsent_send l t0 h W t m :
  hist_unsent t0 h → Coh l t0 ∈ W → coh_lt l h W t → h !! t = None → mval m = 1%Z →
  hist_sent (<[t := m]> h) t m ∧ newest (<[t := m]> h) t.
Proof.
  intros (tm & Hnew & Hcon & Hz) Hcoh Hlt Hfree Hm.
  assert (t0 < t) as Ht0.
  { destruct (proj2 Hcon t0) as [m0 Hm0]; [split; [lia|apply Hcon]|]. by apply (Hlt t0 m0). }
  assert (tm < t) by (eapply contiguous_free; [done|lia|done]).
  split; [split; [by rewrite lookup_insert_eq|split; [done|]]|].
  - intros t' m' [[<- <-]|[_ ?]]%lookup_insert_Some Hne; [done|by eapply Hz].
  - replace t with (t `max` tm) at 2 by lia. by apply newest_insert.
Qed.

Lemma hist_sent_value h ts m t m' :
  hist_sent h ts m → h !! t = Some m' →
  t = ts ∧ m' = m ∧ mval m' = 1%Z ∨ t ≠ ts ∧ mval m' = 0%Z.
Proof.
  intros (Hts & Hm & Hz) Hm'. destruct (decide (t = ts)) as [->|Hne].
  - left. by simplify_eq.
  - right. split; [done|]. by apply (Hz t m').
Qed.

Lemma hist_sent_rmw h ts m t m' :
  hist_sent h ts m → h !! S t = None → mval m' = 0%Z →
  hist_sent (<[S t := m']> h) ts m.
Proof.
  intros (Hts & Hm & Hz) Hfree Hm'. split; [rewrite lookup_insert_ne //; congruence|].
  split; [done|]. intros t' m'' [[<- <-]|[_ ?]]%lookup_insert_Some Hne; [done|].
  by eapply Hz.
Qed.

(** A swap that fails leaves the write of [true] the newest one. *)
Lemma newest_rmw_older h ts t m m' :
  newest h ts → h !! t = Some m → t ≠ ts → h !! S t = None → newest (<[S t := m']> h) ts.
Proof.
  intros Hnew Hm Hne Hfree. pose proof (proj2 Hnew _ _ Hm) as Ht. simpl in Ht.
  assert (S t ≠ ts) by (intros <-; destruct Hnew as [[? ?] _]; congruence).
  replace ts with (S t `max` ts) by lia. by apply newest_insert.
Qed.

(** ** The protocol *)

Section flag.
Context `{!rustGS Σ, !shareG Σ, !flagG Σ, !tokenG Σ}.
(** [Q] is the message; [byswap] says how it is taken. *)
Context (byswap : bool) (Q : view → iProp Σ) `{!ViewMono Q}.
Implicit Types (V : tview) (l : loc) (W : view).

Definition flag_waiting (γ : flag_name) (h : hist) (A : view) (ts : time) (m : msg)
    : iProp Σ :=
  ⌜newest h ts⌝ ∗ (⌜mview m ⊆ A⌝ ∗ Q (mview m) ∨ ⌜byswap = false⌝ ∗ token (flag_recv γ)).
Definition flag_taken (γ : flag_name) (h : hist) (ts : time) : iProp Σ :=
  ⌜byswap = true⌝ ∗ ⌜is_Some (h !! S ts)⌝ ∗ token (flag_recv γ).

Definition flag_proto (γ : flag_name) (h : hist) (A : view) : iProp Σ :=
  (⌜hist_unsent (flag_start γ) h⌝ ∗ ghost_map_auth (flag_sent γ) 1 ∅) ∨
  (∃ ts m, ⌜hist_sent h ts m⌝ ∗ ghost_map_auth (flag_sent γ) 1 {[() := ts]} ∗
     () ↪[flag_sent γ]□ ts ∗ token (flag_send γ) ∗
     (flag_waiting γ h A ts m ∨ flag_taken γ h ts)).

(** The thread has seen the write of [true]. *)
Definition flag_seen (γ : flag_name) (l : loc) (W : view) : iProp Σ :=
  ∃ ts, () ↪[flag_sent γ]□ ts ∗ ⌜Coh l ts ∈ W⌝.

#[global] Instance flag_seen_persistent γ l W : Persistent (flag_seen γ l W).
Proof. apply _. Qed.

Lemma flag_waiting_grow γ h A A' ts m :
  A ⊆ A' → flag_waiting γ h A ts m -∗ flag_waiting γ h A' ts m.
Proof.
  iIntros (?) "[$ [[% HQ]|[% Ht]]]"; [iLeft|iRight; by iFrame].
  iFrame. iPureIntro. set_solver.
Qed.

Lemma flag_proto_grow γ h A A' : A ⊆ A' → flag_proto γ h A -∗ flag_proto γ h A'.
Proof.
  iIntros (?) "[H|(%ts & %m & Hh & Ha & Hs & Ht & Hc)]"; [by iLeft|iRight].
  iExists ts, m. iFrame. iDestruct "Hc" as "[Hw|Ht]"; [iLeft|by iRight].
  by iApply (flag_waiting_grow with "Hw").
Qed.

(** Publishing the message. *)
Lemma wpp_flag_store γs γ l B q V Φ :
  Coh l (flag_start γ) ∈ cur V →
  at_share γs l B (flag_proto γ) q (cur V) -∗ token (flag_send γ) -∗ Q (cur V) -∗
  (∀ V', ⌜V ⊆ V'⌝ -∗ at_share γs l B (flag_proto γ) q (cur V') -∗ Φ tt V') -∗
  wpp (store l 1 Release) V Φ.
Proof.
  iIntros (Hcoh) "Hs Htok HQ HΦ". iApply (wpp_share_store with "Hs"); [done|].
  iIntros "!>" (h A t e Hfree Hlt) "[[%Hh Ha]|(%ts & %m & _ & _ & _ & Htok' & _)]"; last first.
  { by iDestruct (token_exclusive with "Htok Htok'") as %[]. }
  iMod (ghost_map_insert_persist () t with "Ha") as "[Ha #Hts]"; [done|].
  set (V' := store_view l t e V). assert (V ⊆ V') as Hle by apply store_view_le.
  destruct (hist_unsent_send l _ h _ t (store_msg Release 1 V') Hh Hcoh Hlt Hfree eq_refl)
    as [Hh' Hnew].
  iModIntro. iSplitR "HΦ"; [|by iApply "HΦ"].
  iRight. iExists t, _. rewrite insert_empty. iFrame "Ha Hts Htok". iSplit; [done|].
  iLeft. iSplit; [done|]. iLeft. iSplit; [iPureIntro; simpl; set_solver|].
  iApply (view_mono with "HQ"). apply Hle.
Qed.

(** Looking at the flag. *)
Lemma wpp_flag_load γs γ l B q o V Φ :
  is_seqcst o = false →
  at_share γs l B (flag_proto γ) q (cur V) -∗
  (∀ b V', ⌜V ⊆ V'⌝ -∗ (if (b : bool) then flag_seen γ l (cur V') else True) -∗
     at_share γs l B (flag_proto γ) q (cur V') -∗ Φ (of_bool b) V') -∗
  wpp (load l o) V Φ.
Proof.
  iIntros (Ho) "Hs HΦ". iApply (wpp_share_load with "Hs"); [done|].
  iIntros "!>" (h A t m e Hm Hle) "HPr". set (V' := load_view o l t m e V).
  assert (V ⊆ V') as HleV by apply load_view_le.
  iAssert (∃ b, ⌜mval m = of_bool b⌝ ∗ if (b : bool) then flag_seen γ l (cur V') else True)%I
    as "#(%b & %Hb & Hseen)".
  { iDestruct "HPr" as "[[%Hh _]|(%ts & %m' & %Hh & _ & #Hts & _)]".
    - iExists false. iSplit; [|done]. iPureIntro. by eapply hist_unsent_value.
    - destruct (hist_sent_value _ _ _ _ _ Hh Hm) as [(-> & -> & H1)|[_ H0]].
      + iExists true. iSplit; [done|]. iExists ts. iFrame "Hts". iPureIntro.
        apply load_view_coh.
      + by iExists false. }
  iModIntro. rewrite Hb. iSplitL "HPr".
  { iApply (flag_proto_grow with "HPr"). apply union_subseteq_l. }
  iIntros "Hs". by iApply ("HΦ" with "[//] Hseen Hs").
Qed.

(** A swap of [false] into the flag takes the message if it is there. *)
Lemma wpp_flag_swap γs γ l B q V Φ :
  byswap = true →
  at_share γs l B (flag_proto γ) q (cur V) -∗
  (∀ V', ⌜V ⊆ V'⌝ -∗
     (Q (cur V') -∗ token (flag_recv γ) ∗
        (at_share γs l B (flag_proto γ) q (cur V') -∗ Φ 1%Z V')) ∧
     (at_share γs l B (flag_proto γ) q (cur V') -∗ Φ 0%Z V')) -∗
  wpp (swap l 0 Acquire) V Φ.
Proof.
  iIntros (Hby) "Hs HΦ". iApply (wpp_share_swap with "Hs"); [done|].
  iIntros "!>" (h A t m e Hm Hle Hfree) "HPr". set (V' := rmw_view _ _ _ _ _ _).
  iSpecialize ("HΦ" $! V' with "[%]"); [apply rmw_view_le|].
  set (m' := rmw_msg _ _ _ _).
  iDestruct "HPr" as "[[%Hh Ha]|(%ts & %ms & %Hh & Ha & #Hts & Htok & Hc)]".
  { assert (mval m = 0%Z) as -> by (by eapply hist_unsent_value).
    iModIntro. iSplitL "Ha"; [|by iDestruct "HΦ" as "[_ $]"]. iLeft. iFrame. iPureIntro.
    by eapply hist_unsent_rmw. }
  assert (hist_sent (<[S t := m']> h) ts ms) as Hh' by (by eapply hist_sent_rmw).
  destruct (hist_sent_value _ _ _ _ _ Hh Hm) as [(-> & -> & H1)|[Hne H0]].
  - rewrite H1. iDestruct "Hc" as "[[_ [[_ HQ]|[% _]]]|(_ & [% %] & _)]"; [|congruence..].
    iDestruct "HΦ" as "[HΦ _]". iDestruct ("HΦ" with "[HQ]") as "[Hr HΦ]".
    { iApply (view_mono with "HQ"). by apply rmw_view_acq. }
    iModIntro. iFrame "HΦ". iRight. iExists ts, ms. iFrame "Ha Hts Htok". iSplit; [done|].
    iRight. iFrame "Hr". iSplit; [done|]. iPureIntro. rewrite lookup_insert_eq. eauto.
  - rewrite H0. iModIntro. iSplitR "HΦ"; [|by iDestruct "HΦ" as "[_ $]"].
    iRight. iExists ts, ms. iFrame "Ha Hts Htok". iSplit; [done|].
    iDestruct "Hc" as "[[%Hnew Hc]|(% & %Hn & Hr)]".
    + iLeft. iApply (flag_waiting_grow _ _ A); [set_solver|]. iFrame "Hc".
      iPureIntro. by eapply newest_rmw_older.
    + iRight. iFrame "Hr". iSplit; [done|]. iPureIntro.
      apply lookup_insert_is_Some'. by right.
Qed.

(** After the flag was seen, the only receiver's swap succeeds. *)
Lemma wpp_flag_swap_seen γs γ l B q V Φ :
  byswap = true →
  at_share γs l B (flag_proto γ) q (cur V) -∗ token (flag_recv γ) -∗
  flag_seen γ l (cur V) -∗
  (∀ V', ⌜V ⊆ V'⌝ -∗ Q (cur V') -∗ at_share γs l B (flag_proto γ) q (cur V') -∗
     Φ 1%Z V') -∗
  wpp (swap l 0 Acquire) V Φ.
Proof.
  iIntros (Hby) "Hs Hr (%ts' & #Hts' & %Hcoh) HΦ". iApply (wpp_share_swap with "Hs"); [done|].
  iIntros "!>" (h A t m e Hm Hle Hfree) "HPr". set (V' := rmw_view _ _ _ _ _ _).
  set (m' := rmw_msg _ _ _ _).
  iDestruct "HPr" as "[[%Hh Ha]|(%ts & %ms & %Hh & Ha & #Hts & Htok & Hc)]".
  { by iDestruct (ghost_map_lookup with "Ha Hts'") as %?. }
  iDestruct (ghost_map_elem_agree with "Hts Hts'") as %<-.
  iDestruct "Hc" as "[[%Hnew [[_ HQ]|[% _]]]|(_ & _ & Hr')]";
    [|congruence|by iDestruct (token_exclusive with "Hr Hr'") as %[]].
  assert (t = ts) as ->.
  { pose proof (proj2 Hnew _ _ Hm) as Ht. destruct Hh as [Hts _].
    specialize (Hle _ _ Hts Hcoh). simpl in Ht. lia. }
  destruct (hist_sent_value _ _ _ _ _ Hh Hm) as [(_ & -> & H1)|[? _]]; [|done]. rewrite H1.
  iDestruct ("HΦ" $! V' with "[%] [HQ]") as "$"; [apply rmw_view_le| |].
  { iApply (view_mono with "HQ"). by apply rmw_view_acq. }
  iModIntro. iRight. iExists ts, ms. iFrame "Ha Hts Htok". iSplit.
  { iPureIntro. by eapply hist_sent_rmw. }
  iRight. iFrame "Hr". iSplit; [done|]. iPureIntro. rewrite lookup_insert_eq. eauto.
Qed.

(** Taking the message with an acquiring load. *)
Lemma wpp_flag_load_acquire γs γ l B q V Φ :
  byswap = false →
  at_share γs l B (flag_proto γ) q (cur V) -∗ token (flag_recv γ) -∗
  (∀ b V', ⌜V ⊆ V'⌝ -∗ (if (b : bool) then Q (cur V') else token (flag_recv γ)) -∗
     at_share γs l B (flag_proto γ) q (cur V') -∗ Φ (of_bool b) V') -∗
  wpp (load l Acquire) V Φ.
Proof.
  iIntros (Hby) "Hs Hr HΦ". iApply (wpp_share_load with "Hs"); [done|].
  iIntros "!>" (h A t m e Hm Hle) "HPr". set (V' := load_view _ _ _ _ _ _).
  assert (V ⊆ V') as HleV by apply load_view_le.
  iDestruct "HPr" as "[[%Hh Ha]|(%ts & %ms & %Hh & Ha & #Hts & Htok & Hc)]".
  { assert (mval m = of_bool false) as -> by (by eapply hist_unsent_value).
    iModIntro. iSplitL "Ha"; [iLeft; by iFrame|by iApply ("HΦ" $! false with "[//] Hr")]. }
  destruct (hist_sent_value _ _ _ _ _ Hh Hm) as [(-> & -> & H1)|[Hne H0]].
  - rewrite H1. iDestruct "Hc" as "[[%Hnew [[_ HQ]|[_ Hr']]]|(% & _)]";
      [|by iDestruct (token_exclusive with "Hr Hr'") as %[]|congruence].
    iModIntro. iSplitR "HΦ HQ"; last first.
    { iApply ("HΦ" $! true with "[//]"). iApply (view_mono with "HQ"). by apply load_view_acq. }
    iRight. iExists ts, ms. iFrame "Ha Hts Htok". iSplit; [done|]. iLeft.
    iSplit; [done|]. iRight. by iFrame.
  - rewrite H0. iModIntro. iSplitR "HΦ Hr"; [|by iApply ("HΦ" $! false with "[//] Hr")].
    iApply (flag_proto_grow _ _ A); [set_solver|]. iRight. iExists ts, ms. by iFrame "#∗".
Qed.

(** The owner of all the shares finds the message if it was not taken. *)
Lemma flag_cancel γs γ l B W E :
  ↑shareN ⊆ E →
  at_share γs l B (flag_proto γ) 1 W ={E}=∗
  ∃ h N A t m b, l ↦ CAtomic h N A ∗ ⌜A ⊆ W⌝ ∗ ⌜newest h t⌝ ∗ ⌜h !! t = Some m⌝ ∗
    ⌜mval m = of_bool b⌝ ∗
    ▷ if (b : bool) then Q W ∨ ⌜byswap = false⌝ ∗ token (flag_recv γ) else True.
Proof.
  iIntros (HE) "Hs". iMod (at_share_cancel with "Hs") as (h N A A') "(Hl & % & %HA' & %Hne & HPr)";
    [done|].
  iDestruct "HPr" as "[[>%Hh _]|(%ts & %ms & >%Hh & _ & _ & _ & Hc)]".
  { destruct Hh as (tm & [[m Hm] Hmax] & _ & Hz). iModIntro. iExists h, N, A, tm, m, false.
    iFrame "Hl". iPureIntro. split_and!; [done|by split; [eauto|]|done| |done].
    by apply (Hz tm m). }
  iDestruct "Hc" as "[[>%Hnew Hc]|(_ & >%Hn & _)]".
  { destruct Hh as (Hts & H1 & _). iModIntro. iExists h, N, A, ts, ms, true.
    iFrame "Hl". do 4 (iSplit; [done|]). iNext. iDestruct "Hc" as "[[% HQ]|Hc]"; [iLeft|by iRight].
    iApply (view_mono with "HQ"). by etrans. }
  destruct (newest_exists h Hne) as (t & Hnew). pose proof Hnew as [[m Hm] Hmax].
  iModIntro. iExists h, N, A, t, m, false. iFrame "Hl". iPureIntro. split_and!; [done..| |done].
  destruct (hist_sent_value _ _ _ _ _ Hh Hm) as [(-> & _ & _)|[_ H0]]; [|done].
  destruct Hn as [mn Hn]. apply Hmax in Hn. simpl in Hn. lia.
Qed.
End flag.

(** The message may involve the names of the flag. *)
Lemma flag_alloc `{!rustGS Σ, !shareG Σ, !flagG Σ, !tokenG Σ} byswap
    (Q : flag_name → view → iProp Σ) B l t0 W0 N A W E :
  N ⊆ B → B ∪ A ⊆ W →
  l ↦ CAtomic {[t0 := Msg 0 W0]} N A ={E}=∗
  ∃ γs γ, ⌜flag_start γ = t0⌝ ∗ at_share γs l B (flag_proto byswap (Q γ) γ) 1 W ∗
    token (flag_send γ) ∗ token (flag_recv γ).
Proof.
  iIntros (HN HA) "Hl". iMod token_alloc as (γt) "Ht". iMod token_alloc as (γr) "Hr".
  iMod (ghost_map_alloc_empty (K := unit) (V := time)) as (γm) "Hm".
  set (γ := FlagName γm γt γr t0).
  iMod (at_share_alloc B l _ _ _ (λ _, flag_proto byswap (Q γ) γ) W with "Hl [Hm]")
    as (γs) "Hs"; [done|done|apply insert_non_empty|..].
  { iIntros (_). iLeft. iFrame. iPureIntro. apply hist_unsent_new. }
  iModIntro. iExists γs, γ. by iFrame.
Qed.
