(* ===== verification/Channel.v ===== *)
(** * What the one-shot channels of chapter 5 share

    A channel is a message cell and an atomic that says whether the message is
    there.  Here: the operations on the message cell and the ownership of a
    channel that is shared by reference. *)

From iris.proofmode Require Import proofmode.
From iris.base_logic.lib Require Import invariants cancelable_invariants ghost_map token.
From S2P Require Import Prelude Memory History Lang Logic Rules Std Parking Shares Flag.

(** ** [MaybeUninit<T>] *)

(** The drop glue of [T]: [None] when dropping a [T] does nothing. *)
Abbreviation drop_glue := (option (val → prog unit)).

Definition uninit : prog loc := new_cell VUninit.

(** [assume_init_read] copies the bits; reading nothing is undefined. *)
Definition assume_init_read (p : loc) : prog val :=
  v ← read p;
  match v with VUninit => UB | _ => mret v end.

Definition assume_init_drop (glue : drop_glue) (p : loc) : prog unit :=
  match glue with
  | Some drop_in_place => v ← assume_init_read p; drop_in_place v
  | None => mret ()
  end.

(** [Channel<T> { message: UnsafeCell<MaybeUninit<T>>, ready: AtomicBool }] *)
Record Channel : Type := MkChannel { message : loc; ready : loc }.

(** ** A channel shared by reference *)

Record chan_name : Type := ChanName {
  chan_cell : gname * gname; chan_content : gname;
  chan_shares : gname * gname; chan_flag : flag_name; chan_base : view
}.

Section channel.
Context `{!rustGS Σ, !shareG Σ, !flagG Σ, !tokenG Σ}.
(** [P v] is what is sent along with the message [v]. *)
Context (byswap : bool) (P : val → view → iProp Σ) `{!∀ v, ViewMono (P v)}.
Implicit Types (V : tview) (c : Channel) (W : view).

Definition sent (γ : chan_name) (W : view) : iProp Σ :=
  ∃ v, ⌜v ≠ VUninit⌝ ∗ lent_own (chan_content γ) v W ∗ P v W.

#[global] Instance sent_mono γ : ViewMono (sent γ).
Proof. apply _. Qed.

(** A share of the channel. *)
Definition chan (γ : chan_name) (c : Channel) (q : Qp) (W : view) : iProp Σ :=
  lent_share (chan_cell γ) (chan_content γ) (message c) q W ∗
  at_share (chan_shares γ) (ready c) (chan_base γ)
    (flag_proto byswap (sent γ) (chan_flag γ)) q W.

#[global] Instance chan_frac γ c : FracView (chan γ c).
Proof. apply _. Qed.

(** The right to send, and the right to receive. *)
Definition sender (γ : chan_name) (c : Channel) (W : view) : iProp Σ :=
  ⌜Coh (ready c) (flag_start (chan_flag γ)) ∈ chan_base γ⌝ ∗
  token (flag_send (chan_flag γ)) ∗ ∃ v, lent_own (chan_content γ) v W.
Definition receiver (γ : chan_name) : iProp Σ := token (flag_recv (chan_flag γ)).

#[global] Instance sender_mono γ c : ViewMono (sender γ c).
Proof. apply _. Qed.

(** Sending: the message is written, then the flag is set with [Release]. *)
Definition sending (γ : chan_name) (c : Channel) (v : val) (W : view) : iProp Σ :=
  ⌜Coh (ready c) (flag_start (chan_flag γ)) ∈ chan_base γ⌝ ∗
  token (flag_send (chan_flag γ)) ∗ lent_own (chan_content γ) v W.

Lemma wpp_chan_write γ c q v V Φ :
  chan γ c q (cur V) -∗ sender γ c (cur V) -∗
  (∀ V', ⌜V ⊆ V'⌝ -∗ chan γ c q (cur V') -∗ sending γ c v (cur V') -∗ Φ tt V') -∗
  wpp (write (message c) v) V Φ.
Proof.
  iIntros "[Hm Hr] (%Hcoh & Htok & %w & Ho) HΦ".
  iApply (wpp_write_lent with "Hm Ho"). iIntros "!>" (V1 Hle1) "Hm Ho".
  iApply ("HΦ" with "[//] [Hm Hr]"); [|by iFrame]. iFrame "Hm".
  iApply (at_share_mono with "Hr"). apply Hle1.
Qed.

Lemma wpp_chan_publish γ c q v V Φ :
  v ≠ VUninit →
  chan γ c q (cur V) -∗ sending γ c v (cur V) -∗ P v (cur V) -∗
  (∀ V', ⌜V ⊆ V'⌝ -∗ chan γ c q (cur V') -∗ Φ tt V') -∗
  wpp (store_bool (ready c) true Release) V Φ.
Proof.
  iIntros (Hv) "[Hm Hr] (%Hcoh & Htok & Ho) HP HΦ".
  iDestruct (at_share_base with "Hr") as %HB.
  iApply (wpp_flag_store with "Hr Htok [Ho HP]"); [by apply HB|by iExists v; iFrame|].
  iIntros (V2 Hle2) "Hr". iApply ("HΦ" with "[//]"). iFrame "Hr".
  iApply (lent_share_mono with "Hm"). apply Hle2.
Qed.

Lemma wpp_chan_send γ c q v V Φ :
  v ≠ VUninit →
  chan γ c q (cur V) -∗ sender γ c (cur V) -∗ P v (cur V) -∗
  (∀ V', ⌜V ⊆ V'⌝ -∗ chan γ c q (cur V') -∗ Φ tt V') -∗
  wpp (write (message c) v;; store_bool (ready c) true Release) V Φ.
Proof.
  iIntros (Hv) "Hc Hs HP HΦ". iApply wpp_bind. iApply (wpp_chan_write with "Hc Hs").
  iIntros (V1 Hle1) "Hc Hs". iApply (wpp_chan_publish with "Hc Hs [HP]"); [done|..].
  - iApply (view_mono with "HP"). apply Hle1.
  - iIntros (V2 Hle2) "Hc". iApply ("HΦ" with "[%] Hc"). by etrans.
Qed.

Lemma wpp_chan_is_ready γ c q o V Φ :
  is_seqcst o = false →
  chan γ c q (cur V) -∗
  (∀ b V', ⌜V ⊆ V'⌝ -∗
     (if (b : bool) then flag_seen (chan_flag γ) (ready c) (cur V') else True) -∗
     chan γ c q (cur V') -∗ Φ b V') -∗
  wpp (load_bool (ready c) o) V Φ.
Proof.
  iIntros (Ho) "[Hm Hr] HΦ". iApply wpp_bind. iApply (wpp_flag_load with "Hr"); [done|].
  iIntros (b V' Hle) "Hseen Hr". iApply wpp_ret.
  replace (to_bool (of_bool b)) with b by (by destruct b).
  iApply ("HΦ" with "[//] Hseen"). iFrame "Hr". iApply (lent_share_mono with "Hm"). apply Hle.
Qed.

(** The message that was taken out of the flag is read from its cell. *)
Lemma wpp_chan_read_own γ c q v V Φ :
  v ≠ VUninit →
  chan γ c q (cur V) -∗ lent_own (chan_content γ) v (cur V) -∗
  (∀ V', ⌜V ⊆ V'⌝ -∗ chan γ c q (cur V') -∗ Φ v V') -∗
  wpp (assume_init_read (message c)) V Φ.
Proof.
  iIntros (Hv) "[Hm Hr] Ho HΦ". iApply wpp_bind.
  iApply (wpp_read_lent with "Hm Ho"). iIntros "!>" (V' Hle) "Hm _".
  iSpecialize ("HΦ" with "[//] [Hm Hr]").
  { iFrame "Hm". iApply (at_share_mono with "Hr"). apply Hle. }
  destruct v; [done|..]; iApply wpp_ret; iApply "HΦ".
Qed.

Lemma wpp_chan_read γ c q V Φ :
  chan γ c q (cur V) -∗ sent γ (cur V) -∗
  (∀ v V', ⌜V ⊆ V'⌝ -∗ chan γ c q (cur V') -∗ P v (cur V') -∗ Φ v V') -∗
  wpp (assume_init_read (message c)) V Φ.
Proof.
  iIntros "Hc (%v & %Hv & Ho & HP) HΦ". iApply (wpp_chan_read_own with "Hc Ho"); [done|].
  iIntros (V' Hle) "Hc". iApply ("HΦ" with "[//] Hc"). iApply (view_mono with "HP"). apply Hle.
Qed.

(** The loop of the mains: [while !is_ready() { park() }]. *)
Lemma wpp_wait_ready γ c q t V Φ :
  chan γ c q (cur V) -∗ is_park t (cur V) -∗
  (∀ V', ⌜V ⊆ V'⌝ -∗ flag_seen (chan_flag γ) (ready c) (cur V') -∗ chan γ c q (cur V') -∗
     Φ tt V') -∗
  wpp (while_loop (b ← load_bool (ready c) Relaxed; mret (negb b)) (park t)) V Φ.
Proof.
  iIntros "Hc #Ht HΦ". iApply (wpp_while (λ V', chan γ c q (cur V') ∗
    ∀ V2, ⌜V ⊆ V2⌝ -∗ flag_seen (chan_flag γ) (ready c) (cur V2) -∗
      chan γ c q (cur V2) -∗ Φ tt V2)%I with "[] [$Hc $HΦ]").
  iIntros "!>" (V1 Hle1) "[Hc HΦ]". iApply wpp_bind.
  iApply (wpp_chan_is_ready with "Hc"); [done|].
  iIntros (b V2 Hle2) "Hseen Hc". iApply wpp_ret. assert (V ⊆ V2) as Hle by by etrans.
  destruct b; simpl; [by iApply ("HΦ" with "[//] Hseen")|].
  iApply (wpp_park with "[]"); [iApply (is_park_mono with "Ht"); apply Hle|].
  iIntros (V3 Hle3). iFrame "HΦ". iApply (view_mono with "Hc"). apply Hle3.
Qed.

(** [receive] by a swap, after the flag was seen. *)
Lemma wpp_chan_receive γ c q V Φ :
  byswap = true →
  chan γ c q (cur V) -∗ receiver γ -∗ flag_seen (chan_flag γ) (ready c) (cur V) -∗
  (∀ v V', ⌜V ⊆ V'⌝ -∗ chan γ c q (cur V') -∗ P v (cur V') -∗ Φ v V') -∗
  wpp (r ← swap_bool (ready c) false Acquire;
    if negb r then Panic "no message available!" else assume_init_read (message c)) V Φ.
Proof.
  iIntros (Hby) "[Hm Hr] Hrecv #Hseen HΦ". do 2 iApply wpp_bind.
  iApply (wpp_flag_swap_seen with "Hr Hrecv Hseen"); [done|].
  iIntros (V1 Hle1) "Hsent Hr". iApply wpp_ret. simpl.
  iApply (wpp_chan_read with "[Hm Hr] Hsent").
  { iFrame "Hr". iApply (lent_share_mono with "Hm"). apply Hle1. }
  iIntros (v V2 Hle2) "Hc HP". iApply ("HΦ" with "[%] Hc HP"). by etrans.
Qed.
End channel.

(** What is sent may involve the names of the flag. *)
Lemma chan_alloc_names `{!rustGS Σ, !shareG Σ, !flagG Σ, !tokenG Σ} byswap
    (P : flag_name → val → view → iProp Σ) c t0 W0 N A v W E :
  N ∪ A ⊆ W → Coh (ready c) t0 ∈ W →
  own_na (message c) v W -∗
  ready c ↦ CAtomic {[t0 := Msg 0 W0]} N A ={E}=∗
  ∃ γ, ⌜chan_base γ = W⌝ ∗ chan byswap (P (chan_flag γ)) γ c 1 W ∗ sender γ c W ∗
    receiver γ.
Proof.
  iIntros (HN Hcoh) "Hm Hr". iMod (lent_alloc with "Hm") as (γc γo) "[Hm Ho]".
  iMod (flag_alloc byswap (λ γ W, ∃ v, ⌜v ≠ VUninit⌝ ∗ lent_own γo v W ∗ P γ v W)%I W
    (ready c) t0 W0 N A W with "Hr") as (γs γf) "(%Ht0 & Hr & Hs & Ht)"; [set_solver..|].
  iModIntro. iExists (ChanName γc γo γs γf W). iSplit; [done|].
  iFrame "Hm Hr Hs Ht". rewrite Ht0. iSplit; [done|]. by iExists _.
Qed.

Lemma chan_alloc `{!rustGS Σ, !shareG Σ, !flagG Σ, !tokenG Σ} byswap
    (P : val → view → iProp Σ) c t0 W0 N A v W E :
  N ∪ A ⊆ W → Coh (ready c) t0 ∈ W →
  own_na (message c) v W -∗
  ready c ↦ CAtomic {[t0 := Msg 0 W0]} N A ={E}=∗
  ∃ γ, chan byswap P γ c 1 W ∗ sender γ c W ∗ receiver γ.
Proof.
  iIntros (HN Hcoh) "Hm Hr".
  iMod (chan_alloc_names byswap (λ _, P) with "Hm Hr") as (γ) "(_ & H)"; [done..|].
  iModIntro. by iExists γ.
Qed.

(** The memory of the channel is released after its drop. *)
Definition dealloc (c : Channel) : prog unit :=
  act (OFree (message c));; act (OFree (ready c)).

(** [drop] of 05-03 to 05-06: the message is dropped if it was not received. *)
Definition drop_channel (glue : drop_glue) (self : Channel) : prog unit :=
  r ← act (OGetMut (ready self));
  if to_bool r then assume_init_drop glue (message self) else mret ().

Section drop.
Context `{!rustGS Σ, !shareG Σ, !flagG Σ, !tokenG Σ}.

(** A channel without users, as [default] leaves it. *)
Definition fresh (c : Channel) (W : view) : iProp Σ :=
  ∃ W0 N A, own_na (message c) VUninit W ∗ ready c ↦ CAtomic {[0 := Msg 0 W0]} N A ∗
    ⌜N ∪ A ⊆ W⌝ ∗ ⌜Coh (ready c) 0 ∈ W⌝.

(** The body of [default]. *)
Lemma wpp_default V Φ :
  (∀ c V', ⌜V ⊆ V'⌝ -∗ fresh c (cur V') -∗ Φ c V') -∗
  wpp (message ← uninit; ready ← atomic_new (of_bool false); mret (MkChannel message ready)) V Φ.
Proof.
  iIntros "HΦ". iApply wpp_bind. iApply wpp_new. iIntros "!>" (m V1 Hle1) "Hm".
  iApply wpp_bind. iApply wpp_alloc_atomic. iIntros "!>" (r e) "Hr".
  set (V2 := observe _ _ V1). assert (V1 ⊆ V2) as Hle2 by apply observe_le.
  iApply wpp_ret. iApply ("HΦ" with "[%]"); [by etrans|]. iExists _, _, _. iFrame "Hr".
  iSplit; [iApply (own_na_mono with "Hm"); apply Hle2|]. iPureIntro. simpl. set_solver.
Qed.

Context (P : val → view → iProp Σ) `{!∀ v, ViewMono (P v)}.

(** The drop glue may destroy what came with a message. *)
Definition glue_ok (glue : drop_glue) : iProp Σ :=
  match glue with
  | Some drop_in_place => □ ∀ v V Φ, P v (cur V) -∗ (∀ V', ⌜V ⊆ V'⌝ -∗ Φ tt V') -∗
      wpp (drop_in_place v) V Φ
  | None => True
  end.

#[global] Instance glue_ok_persistent glue : Persistent (glue_ok glue).
Proof. destruct glue; apply _. Qed.

(** The body of [split]: the channel is replaced by a new one. *)
Lemma wpp_split {X} (x : X) glue c V Φ :
  fresh c (cur V) -∗
  (∀ γ V', ⌜V ⊆ V'⌝ -∗ chan true P γ c 1 (cur V') -∗ sender γ c (cur V') -∗
     receiver γ -∗ Φ x V') -∗
  wpp (drop_channel glue c;; write (message c) VUninit;;
    act (OSetMut (ready c) (of_bool false));; mret x) V Φ.
Proof.
  iIntros "(%W0 & %N & %A & Hm & Hr & %HA & _) HΦ". do 2 iApply wpp_bind.
  iApply (wpp_get_mut_inv ⊤). iModIntro. iExists _, _, _, 0, _. iFrame "Hr".
  iSplit; [iPureIntro; set_solver|]. iSplit; [iPureIntro; apply newest_singleton|].
  rewrite lookup_singleton_eq. iSplit; [done|]. iIntros "!>" (e) "Hr !>". simpl.
  set (V1 := observe _ _ V). assert (V ⊆ V1) as Hle1 by apply observe_le.
  assert (A ∪ {[Acc e]} ⊆ cur V1) as HA1 by (simpl; set_solver).
  assert (N ∪ {[Acc e]} ⊆ cur V1) as HN1 by (simpl; set_solver). clearbody V1.
  iApply wpp_ret. iApply wpp_bind.
  iDestruct (own_na_mono _ _ _ (cur V1) with "Hm") as "Hm"; [apply Hle1|].
  iApply (wpp_write with "Hm"). iIntros "!>" (V2 Hle2) "Hm". iApply wpp_bind.
  iApply (wpp_set_mut with "Hr"); [etrans; [done|apply Hle2]|].
  iIntros "!>" (t e2) "Hr". set (V3 := store_view _ _ _ _).
  assert (V2 ⊆ V3) as Hle3 by apply store_view_le.
  assert (cur V1 ⊆ cur V3) as Hle13 by (etrans; [apply Hle2|apply Hle3]).
  iMod (chan_alloc true P c t _ _ _ _ (cur V3) with "[Hm] Hr") as (γ) "(Hc & Hs & Hr)".
  { pose proof (store_view_acc (ready c) t e2 V2). set_solver. }
  { apply store_view_coh. }
  { iApply (own_na_mono with "Hm"). apply Hle3. }
  iApply wpp_ret. iApply ("HΦ" with "[%] Hc Hs Hr"). do 2 (etrans; [done|]). done.
Qed.

(** The channel is destroyed by the owner of all its shares. *)
Lemma wpp_drop_dealloc γ c glue V Φ :
  glue_ok glue -∗ chan true P γ c 1 (cur V) -∗
  (∀ V', ⌜V ⊆ V'⌝ -∗ Φ tt V') -∗
  wpp (drop_channel glue c;; dealloc c) V Φ.
Proof.
  iIntros "#Hglue [Hm Hr] HΦ". do 2 iApply wpp_bind.
  iMod (flag_cancel with "Hr") as (h N A t m b) "(Hr & %HA & %Hnew & %Hm & %Hb & Hsent)"; [done|].
  iApply (wpp_get_mut_inv ⊤). iModIntro. iExists h, N, A, t, m. iFrame "Hr".
  do 3 (iSplit; [done|]). iIntros "!>" (e) "Hr !>". rewrite Hb.
  set (V1 := observe _ _ V). assert (V ⊆ V1) as Hle1 by apply observe_le.
  assert (A ∪ {[Acc e]} ⊆ cur V1) as HA1 by (simpl; set_solver). clearbody V1.
  iAssert (∀ v V2, ⌜V1 ⊆ V2⌝ -∗ own_na (message c) v (cur V2) -∗ wpp (dealloc c) V2 Φ)%I
    with "[Hr HΦ]" as "Hdealloc".
  { iIntros (v V2 Hle2) "Hm". iApply wpp_bind. iApply (wpp_free with "Hm"). iNext.
    iApply (wpp_free_atomic with "Hr").
    - etrans; [done|apply Hle2].
    - iIntros "!> _". iApply "HΦ". iPureIntro. by etrans. }
  destruct b; simpl; last first.
  { iApply wpp_ret. iMod (lent_cancel with "Hm") as (v) "Hm"; [done|].
    iApply ("Hdealloc" with "[//]"). iApply (own_na_mono with "Hm"). apply Hle1. }
  iDestruct "Hsent" as "[(%v & %Hv & Ho & HP)|[% _]]"; [|done].
  iMod (lent_cancel_own with "Hm Ho") as "Hm"; [done|].
  iDestruct (own_na_mono with "Hm") as "Hm"; [apply Hle1|].
  destruct glue as [dip|]; simpl; [|iApply wpp_ret; by iApply ("Hdealloc" with "[//]")].
  do 2 iApply wpp_bind. iApply (wpp_read with "Hm"). iIntros "!>" (V2 Hle2) "Hm".
  iAssert (wpp (dip v) V2 (λ _ V3, wpp (dealloc c) V3 Φ)) with "[HP Hm Hdealloc]" as "Hdip".
  { iApply ("Hglue" with "[HP]").
    - iApply (view_mono with "HP"). etrans; [apply Hle1|apply Hle2].
    - iIntros (V3 Hle3). iApply ("Hdealloc" with "[%]"); [by etrans|].
      iApply (own_na_mono with "Hm"). apply Hle3. }
  destruct v; [done|..]; iApply wpp_ret; iApply "Hdip".
Qed.
End drop.
