(* ===== verification/Channels.v ===== *)
(** * The one-shot channels of chapter 5

    [Borrowed] is 05-05_avoiding-memory-allocation-by-using-borrowing.rs,
    [Blocking] is 05-06_blocking.rs, [Typed] is 05-04_safety-with-types.rs. *)

From iris.proofmode Require Import proofmode.
From iris.base_logic.lib Require Import invariants cancelable_invariants ghost_map token.
From S2P Require Import Prelude Memory History Lang Logic Rules Std Parking Shares.
From S2P Require Import Counted Arc.
From S2P Require Import Flag.
From S2P Require Import Channel.

(** ** Borrowing the channel *)

Module Borrowed.

Record Sender : Type := MkSender { sender_channel : Channel }.
Record Receiver : Type := MkReceiver { receiver_channel : Channel }.

Definition default : prog Channel :=
  message ← uninit;
  ready ← atomic_new (of_bool false);
  mret (MkChannel message ready).

Definition drop (glue : drop_glue) (self : Channel) : prog unit :=
  r ← act (OGetMut (ready self));
  if to_bool r then assume_init_drop glue (message self) else mret ().

(** The assignment drops the old channel and writes the new one in place. *)
Definition split (glue : drop_glue) (self : Channel) : prog (Sender * Receiver) :=
  drop glue self;;
  write (message self) VUninit;;
  act (OSetMut (ready self) (of_bool false));;
  mret (MkSender self, MkReceiver self).

Definition send (self : Sender) (m : val) : prog unit :=
  write (message (sender_channel self)) m;;
  store_bool (ready (sender_channel self)) true Release.

Definition is_ready (self : Receiver) : prog bool :=
  load_bool (ready (receiver_channel self)) Relaxed.

Definition receive (self : Receiver) : prog val :=
  r ← swap_bool (ready (receiver_channel self)) false Acquire;
  if negb r then Panic "no message available!"
  else assume_init_read (message (receiver_channel self)).

Definition main : prog unit :=
  channel ← default;
  with_drop (drop None channel;; dealloc channel) (
    '(sender, receiver) ← split None channel;
    t ← park_token_new;
    scope [send sender (VStr "hello world!");; unpark t] (
      while_loop (b ← is_ready receiver; mret (negb b)) (park t);;
      v ← receive receiver;
      assert_eq v (VStr "hello world!"))).

(** A client that sends a box: it is freed by who receives it, or else by the
    drop of the channel. *)
Definition box_drop (v : val) : prog unit :=
  match v with VInt (Zpos b) => act (OFree b) | _ => UB end.

Definition send_box (sender : Sender) (t : loc) : prog unit :=
  b ← new_cell (VInt 42);
  send sender (VInt (Zpos b));;
  unpark t.

Definition box_client (receives : bool) : prog unit :=
  channel ← default;
  with_drop (drop (Some box_drop) channel;; dealloc channel) (
    '(sender, receiver) ← split (Some box_drop) channel;
    t ← park_token_new;
    scope [send_box sender t] (
      if receives then
        while_loop (b ← is_ready receiver; mret (negb b)) (park t);;
        v ← receive receiver;
        box_drop v
      else mret ())).

Section proof.
Context `{!rustGS Σ, !shareG Σ, !flagG Σ, !tokenG Σ}.

(** The shape of the two programs: a sending thread, and the main thread. *)
Lemma wpp_exchange P `{!∀ v, ViewMono (P v)} glue th (body : Receiver → loc → prog unit) V :
  glue_ok P glue -∗
  (∀ γ c t V', is_park t (cur V') -∗ chan true P γ c (1/2) (cur V') -∗
     sender γ c (cur V') -∗
     wpp (th (MkSender c) t) V' (λ _ V2, chan true P γ c (1/2) (cur V2))) -∗
  (∀ γ c t V', is_park t (cur V') -∗ chan true P γ c (1/2) (cur V') -∗ receiver γ -∗
     wpp (body (MkReceiver c) t) V' (λ _ V2, chan true P γ c (1/2) (cur V2))) -∗
  wpp (channel ← default;
    with_drop (drop glue channel;; dealloc channel) (
      '(sender, receiver) ← split glue channel;
      t ← park_token_new;
      scope [th sender t] (body receiver t))) V (λ _ _, True).
Proof.
  iIntros "#Hglue Hth Hbody". iApply wpp_bind. iApply wpp_default.
  iIntros (c V1 Hle1) "Hc". iApply wpp_with_drop. iApply wpp_bind.
  iApply (wpp_split P _ glue with "Hc"). iIntros (γ V2 Hle2) "Hc Hs Hr".
  iApply wpp_bind. iApply wpp_park_new. iIntros (t V3 Hle3) "#Ht".
  iDestruct (view_mono (cur V2) (cur V3) with "Hc") as "Hc"; [apply Hle3|].
  iDestruct (frac_view_halves (chan true P γ c) with "Hc") as "[Hc1 Hc2]".
  iApply (wpp_scope [()] (λ _, th (MkSender c) t) _ (λ _, chan true P γ c (1/2))
    (λ _ V', chan true P γ c (1/2) (cur V')) with "[Hth Hc1 Hs] [Hbody Hc2 Hr]").
  { iSplitL; [|done]. iIntros (V' Hle). iApply ("Hth" with "[] [Hc1] [Hs]").
    - by iApply (is_park_mono with "Ht").
    - by iApply (view_mono with "Hc1").
    - iApply (view_mono with "Hs"). etrans; [apply Hle3|done]. }
  { iIntros (V' Hle). iApply ("Hbody" with "[] [Hc2] Hr").
    - iApply (is_park_mono with "Ht"). apply Hle.
    - iApply (view_mono with "Hc2"). apply Hle. }
  iIntros ([] V4 V5 _ Hle5) "Hc1 [Hc2 _]".
  iDestruct (view_mono (cur V4) (cur V5) with "Hc1") as "Hc1"; [apply Hle5|].
  iDestruct (frac_view_halves (chan true P γ c) with "[$Hc1 $Hc2]") as "Hc".
  iApply (wpp_drop_dealloc P γ c glue with "Hglue Hc"). by iIntros.
Qed.

Lemma wpp_borrowed_main V : ⊢ wpp main V (λ _ _, True).
Proof.
  iApply (wpp_exchange (λ v _, ⌜v = VStr "hello world!"⌝)%I None
    (λ s t, send s (VStr "hello world!");; unpark t)
    (λ r t, while_loop (b ← is_ready r; mret (negb b)) (park t);;
       v ← receive r; assert_eq v (VStr "hello world!"))); [done|..].
  - iIntros (γ c t V') "#Ht Hc Hs". iApply wpp_bind.
    iApply (wpp_chan_send with "Hc Hs"); [done|done|]. iIntros (V1 Hle1) "Hc".
    iApply (wpp_unpark with "[]"); [iApply (is_park_mono with "Ht"); apply Hle1|].
    iIntros (V2 Hle2). iApply (view_mono with "Hc"). apply Hle2.
  - iIntros (γ c t V') "#Ht Hc Hr". iApply wpp_bind.
    iApply (wpp_wait_ready with "Hc Ht"). iIntros (V1 Hle1) "#Hseen Hc".
    iApply wpp_bind. iApply (wpp_chan_receive with "Hc Hr Hseen"); [done|].
    iIntros (v V2 Hle2) "Hc ->". by iApply wpp_assert_eq.
Qed.

(** The box that is sent. *)
Definition a_box (v : val) (W : view) : iProp Σ :=
  ∃ b, ⌜v = VInt (Zpos b)⌝ ∗ own_na b (VInt 42) W.

#[local] Instance a_box_mono v : ViewMono (a_box v).
Proof.
  intros W W' Hle. iIntros "(%b & $ & Hb)". by iApply (own_na_mono with "Hb").
Qed.

Lemma wpp_box_drop v V Φ :
  a_box v (cur V) -∗ (∀ V', ⌜V ⊆ V'⌝ -∗ Φ tt V') -∗ wpp (box_drop v) V Φ.
Proof.
  iIntros "(%b & -> & Hb) HΦ". iApply (wpp_free with "Hb"). iNext. by iApply "HΦ".
Qed.

Lemma wpp_box_client receives V : ⊢ wpp (box_client receives) V (λ _ _, True).
Proof.
  iApply (wpp_exchange a_box (Some box_drop) send_box
    (λ r t, if receives then
       while_loop (b ← is_ready r; mret (negb b)) (park t);; v ← receive r; box_drop v
     else mret ())).
  - iIntros "!>" (v V' Φ) "Hv HΦ". by iApply (wpp_box_drop with "Hv").
  - iIntros (γ c t V') "#Ht Hc Hs". iApply wpp_bind. iApply wpp_new.
    iIntros "!>" (b V1 Hle1) "Hb". iApply wpp_bind.
    iDestruct (view_mono (cur V') (cur V1) with "Hc") as "Hc"; [apply Hle1|].
    iDestruct (view_mono (cur V') (cur V1) with "Hs") as "Hs"; [apply Hle1|].
    iApply (wpp_chan_send with "Hc Hs [Hb]"); [done|by iExists b; iFrame|].
    iIntros (V2 Hle2) "Hc". iApply (wpp_unpark with "[]").
    { iApply (is_park_mono with "Ht"). etrans; [apply Hle1|apply Hle2]. }
    iIntros (V3 Hle3). iApply (view_mono with "Hc"). apply Hle3.
  - iIntros (γ c t V') "#Ht Hc Hr". destruct receives; [|by iApply wpp_ret].
    iApply wpp_bind. iApply (wpp_wait_ready with "Hc Ht"). iIntros (V1 Hle1) "#Hseen Hc".
    iApply wpp_bind. iApply (wpp_chan_receive with "Hc Hr Hseen"); [done|].
    iIntros (v V2 Hle2) "Hc Hv". iApply (wpp_box_drop with "Hv"). iIntros (V3 Hle3).
    iApply (view_mono with "Hc"). apply Hle3.
Qed.
End proof.
End Borrowed.

(** ** Blocking *)

Module Blocking.

(** A [Thread] is its parking token. *)
Record Sender : Type := MkSender { sender_channel : Channel; receiving_thread : loc }.
Record Receiver : Type := MkReceiver { receiver_channel : Channel }.

Definition default : prog Channel :=
  message ← uninit;
  ready ← atomic_new (of_bool false);
  mret (MkChannel message ready).

Definition drop (glue : drop_glue) (self : Channel) : prog unit :=
  r ← act (OGetMut (ready self));
  if to_bool r then assume_init_drop glue (message self) else mret ().

(** [current] is the thread that calls the function. *)
Definition split (glue : drop_glue) (current : loc) (self : Channel)
    : prog (Sender * Receiver) :=
  drop glue self;;
  write (message self) VUninit;;
  act (OSetMut (ready self) (of_bool false));;
  mret (MkSender self current, MkReceiver self).

Definition send (self : Sender) (m : val) : prog unit :=
  write (message (sender_channel self)) m;;
  store_bool (ready (sender_channel self)) true Release;;
  unpark (receiving_thread self).

Definition receive (current : loc) (self : Receiver) : prog val :=
  while_loop (
    r ← swap_bool (ready (receiver_channel self)) false Acquire;
    mret (negb r)) (park current);;
  assume_init_read (message (receiver_channel self)).

Definition main : prog unit :=
  current ← park_token_new;
  channel ← default;
  with_drop (drop None channel;; dealloc channel) (
    '(sender, receiver) ← split None current channel;
    scope [send sender (VStr "hello world!")] (
      v ← receive current receiver;
      assert_eq v (VStr "hello world!"))).

Section proof.
Context `{!rustGS Σ, !shareG Σ, !flagG Σ, !tokenG Σ}.

Lemma wpp_blocking_send P `{!∀ v, ViewMono (P v)} γ c t q v V Φ :
  v ≠ VUninit →
  is_park t (cur V) -∗ chan true P γ c q (cur V) -∗ sender γ c (cur V) -∗ P v (cur V) -∗
  (∀ V', ⌜V ⊆ V'⌝ -∗ chan true P γ c q (cur V') -∗ Φ tt V') -∗
  wpp (send (MkSender c t) v) V Φ.
Proof.
  iIntros (Hv) "#Ht Hc Hs HP HΦ". iApply wpp_bind.
  iApply (wpp_chan_write with "Hc Hs"). iIntros (V1 Hle1) "Hc Hs".
  iApply wpp_bind. iApply (wpp_chan_publish with "Hc Hs [HP]"); [done| |].
  { iApply (view_mono with "HP"). apply Hle1. }
  iIntros (V2 Hle2) "Hc". iApply (wpp_unpark with "[]").
  { iApply (is_park_mono with "Ht"). etrans; [apply Hle1|apply Hle2]. }
  iIntros (V3 Hle3). iApply ("HΦ" with "[%]").
  { etrans; [done|]. by etrans. }
  iApply (view_mono with "Hc"). apply Hle3.
Qed.

Lemma wpp_blocking_receive P `{!∀ v, ViewMono (P v)} γ c t q V Φ :
  is_park t (cur V) -∗ chan true P γ c q (cur V) -∗ receiver γ -∗
  (∀ v V', ⌜V ⊆ V'⌝ -∗ chan true P γ c q (cur V') -∗ P v (cur V') -∗ Φ v V') -∗
  wpp (receive t (MkReceiver c)) V Φ.
Proof.
  iIntros "#Ht Hc Hr HΦ". iApply wpp_bind.
  iApply (wpp_while (λ V', chan true P γ c q (cur V') ∗ receiver γ ∗
    ∀ v V2, ⌜V ⊆ V2⌝ -∗ chan true P γ c q (cur V2) -∗ P v (cur V2) -∗ Φ v V2)%I
    with "[] [$Hc $Hr $HΦ]").
  iIntros "!>" (V1 Hle1) "([Hm Hr] & Hrecv & HΦ)". do 2 iApply wpp_bind.
  iApply (wpp_flag_swap with "Hr"); [done|]. iIntros (V2 Hle2).
  assert (V ⊆ V2) as Hle by by etrans.
  iDestruct (lent_share_mono with "Hm") as "Hm"; [apply Hle2|]. iSplit.
  - iIntros "Hsent". iFrame "Hrecv". iIntros "Hr". iApply wpp_ret. iApply wpp_ret. simpl.
    iApply (wpp_chan_read with "[$Hm $Hr] Hsent"). iIntros (v V3 Hle3) "Hc HP".
    iApply ("HΦ" with "[%] Hc HP"). by etrans.
  - iIntros "Hr". iApply wpp_ret. iApply wpp_ret. simpl.
    iApply (wpp_park with "[]"); [iApply (is_park_mono with "Ht"); apply Hle|].
    iIntros (V3 Hle3). iFrame "Hrecv HΦ".
    iApply (view_mono (P := chan true P γ c q) (cur V2)); [apply Hle3|]. by iFrame.
Qed.

Lemma wpp_blocking_main V : ⊢ wpp main V (λ _ _, True).
Proof.
  set (P := (λ v _, ⌜v = VStr "hello world!"⌝)%I : val → view → iProp Σ).
  iApply wpp_bind. iApply wpp_park_new. iIntros (t V0 Hle0) "#Ht".
  iApply wpp_bind. iApply wpp_default. iIntros (c V1 Hle1) "Hc".
  iApply wpp_with_drop. iApply wpp_bind. iApply (wpp_split P _ None with "Hc").
  iIntros (γ V2 Hle2) "Hc Hs Hr". assert (V0 ⊆ V2) as Hle02 by by etrans.
  iDestruct (frac_view_halves (chan true P γ c) with "Hc") as "[Hc1 Hc2]".
  iApply (wpp_scope [()] (λ _, send (MkSender c t) (VStr "hello world!")) _
    (λ _, chan true P γ c (1/2)) (λ _ V', chan true P γ c (1/2) (cur V'))
    with "[Hc1 Hs] [Hc2 Hr]").
  { iSplitL; [|done]. iIntros (V' Hle).
    iDestruct (view_mono (cur V2) (cur V') with "Hs") as "Hs"; [done|].
    iDestruct (view_mono (cur V2) (cur V') with "Hc1") as "Hc"; [done|].
    iApply (wpp_blocking_send P with "[] Hc Hs"); [done|..|done|].
    - iApply (is_park_mono with "Ht"). etrans; [apply Hle02|done].
    - by iIntros (V3 _) "$". }
  { iIntros (V' Hle). iApply wpp_bind.
    iDestruct (view_mono (cur V2) (cur V') with "Hc2") as "Hc"; [apply Hle|].
    iApply (wpp_blocking_receive P with "[] Hc Hr").
    - iApply (is_park_mono with "Ht"). etrans; [apply Hle02|apply Hle].
    - iIntros (v V3 Hle3) "Hc ->". by iApply wpp_assert_eq. }
  iIntros ([] V4 V5 _ Hle5) "Hc1 [Hc2 _]".
  iDestruct (view_mono (cur V4) (cur V5) with "Hc1") as "Hc1"; [apply Hle5|].
  iDestruct (frac_view_halves (chan true P γ c) with "[$Hc1 $Hc2]") as "Hc".
  iApply (wpp_drop_dealloc P γ c None with "[//] Hc"). by iIntros.
Qed.
End proof.
End Blocking.

(** ** Two handles of a counted channel *)

Module Typed.

(** [Sender<T>] and [Receiver<T>] hold an [Arc<Channel<T>>]; the [Arc] of the
    standard library counts as that of chapter 6 does. *)
Record Sender : Type := MkSender { sender_channel : Basic.Arc Channel }.
Record Receiver : Type := MkReceiver { receiver_channel : Basic.Arc Channel }.

Definition channel : prog (Sender * Receiver) :=
  channel ← Basic.new (
    message ← uninit;
    ready ← atomic_new (of_bool false);
    mret (MkChannel message ready));
  clone ← Basic.clone channel;
  mret (MkSender clone, MkReceiver channel).

Definition drop (glue : drop_glue) (self : Channel) : prog unit :=
  r ← act (OGetMut (ready self));
  if to_bool r then assume_init_drop glue (message self) else mret ().

(** The drop of the last [Arc]. *)
Definition drop_data (glue : drop_glue) (c : Channel) : prog unit :=
  drop glue c;; dealloc c.

(** [send] and [receive] take [self]: the handle is dropped at their end. *)
Definition send (glue : drop_glue) (self : Sender) (m : val) : prog unit :=
  let c := Basic.deref (sender_channel self) in
  with_drop (Basic.drop (drop_data glue) (sender_channel self)) (
    write (message c) m;;
    store_bool (ready c) true Release).

Definition is_ready (self : Receiver) : prog bool :=
  load_bool (ready (Basic.deref (receiver_channel self))) Relaxed.

Definition receive (glue : drop_glue) (self : Receiver) : prog val :=
  let c := Basic.deref (receiver_channel self) in
  with_drop (Basic.drop (drop_data glue) (receiver_channel self)) (
    r ← swap_bool (ready c) false Acquire;
    if negb r then Panic "no message available!" else assume_init_read (message c)).

Definition main : prog unit :=
  '(sender, receiver) ← channel;
  t ← park_token_new;
  scope [send None sender (VStr "hello world!");; unpark t] (
    while_loop (b ← is_ready receiver; mret (negb b)) (park t);;
    v ← receive None receiver;
    assert_eq v (VStr "hello world!")).

Section proof.
Context `{!rustGS Σ, !shareG Σ, !flagG Σ, !arcG Σ, !tokenG Σ}.
Context (P : val → view → iProp Σ) `{!∀ v, ViewMono (P v)} (glue : drop_glue).

(** The handles of the channel. *)
Definition channel_arc (γ : chan_name) (γa : arc_name) (i : nat) (l : loc) (c : Channel)
    (W : view) : iProp Σ := arc (chan true P γ c) γa i l W.

Lemma wpp_typed_channel V Φ :
  (∀ γ γa i j l c V', ⌜V ⊆ V'⌝ -∗ channel_arc γ γa i l c (cur V') -∗ sender γ c (cur V') -∗
     channel_arc γ γa j l c (cur V') -∗ receiver γ -∗
     Φ (MkSender (Basic.MkArc l c), MkReceiver (Basic.MkArc l c)) V') -∗
  wpp channel V Φ.
Proof.
  iIntros "HΦ". do 2 iApply wpp_bind. iApply wpp_alloc_atomic. iIntros "!>" (l e) "Hl".
  set (V1 := observe _ _ V). assert (V ⊆ V1) as Hle1 by apply observe_le.
  assert ({[Acc e]} ∪ {[Acc e]} ∪ {[Coh l 0]} ⊆ cur V1) as HV1 by (simpl; set_solver).
  clearbody V1. iApply wpp_bind. iApply wpp_default. iIntros (c V2 Hle2) "Hc".
  iApply wpp_ret. iDestruct "Hc" as (W0 N A) "(Hm & Hr & %HA & %Hcoh)".
  iMod (chan_alloc true P c 0 _ _ _ _ (cur V2) with "Hm Hr") as (γ) "(Hc & Hs & Hr)"; [done..|].
  iMod (arc_alloc (chan true P γ c) l _ _ (cur V2) 1 with "Hl Hc")
    as (γa i) "(Ha & _ & Hk & _)"; [|apply Hle2; set_solver|done|].
  { etrans; [|apply Hle2]. set_solver. }
  iApply wpp_bind. iApply (wpp_arc_clone with "Ha Hk"). iIntros (j V3 Hle3) "Ha Hb".
  iApply wpp_ret. iApply ("HΦ" with "[%] Hb [Hs] Ha Hr").
  - etrans; [done|]. by etrans.
  - iApply (view_mono with "Hs"). apply Hle3.
Qed.

(** Dropping a handle. *)
Lemma wpp_typed_drop γ γa i l c V Φ :
  glue_ok P glue -∗ channel_arc γ γa i l c (cur V) -∗ (∀ V', ⌜V ⊆ V'⌝ -∗ Φ tt V') -∗
  wpp (Basic.drop (drop_data glue) (Basic.MkArc l c)) V Φ.
Proof.
  iIntros "#Hglue Ha HΦ". iApply (wpp_arc_drop with "Ha"). iSplit.
  - iIntros (V' Hle) "Hc". iApply (wpp_drop_dealloc P γ c glue with "Hglue Hc").
    iIntros (V2 Hle2). iApply "HΦ". iPureIntro. by etrans.
  - iIntros (V' Hle) "_". by iApply "HΦ".
Qed.

Lemma wpp_typed_send γ γa i l c v V Φ :
  v ≠ VUninit →
  glue_ok P glue -∗ channel_arc γ γa i l c (cur V) -∗ sender γ c (cur V) -∗ P v (cur V) -∗
  (∀ V', ⌜V ⊆ V'⌝ -∗ Φ tt V') -∗
  wpp (send glue (MkSender (Basic.MkArc l c)) v) V Φ.
Proof.
  iIntros (Hv) "#Hglue Ha Hs HP HΦ". iApply wpp_with_drop.
  iDestruct (arc_data with "Ha") as (q) "[Hc Ha]".
  iApply (wpp_chan_send with "Hc Hs HP"); [done|]. iIntros (V1 Hle1) "Hc".
  iDestruct ("Ha" with "[%] Hc") as "Ha"; [apply Hle1|].
  iApply (wpp_typed_drop with "Hglue Ha"). iIntros (V2 Hle2). iApply "HΦ".
  iPureIntro. by etrans.
Qed.

Lemma wpp_typed_wait γ γa i l c t V Φ :
  channel_arc γ γa i l c (cur V) -∗ is_park t (cur V) -∗
  (∀ V', ⌜V ⊆ V'⌝ -∗ flag_seen (chan_flag γ) (ready c) (cur V') -∗
     channel_arc γ γa i l c (cur V') -∗ Φ tt V') -∗
  wpp (while_loop (b ← is_ready (MkReceiver (Basic.MkArc l c)); mret (negb b)) (park t)) V Φ.
Proof.
  iIntros "Ha #Ht HΦ". iDestruct (arc_data with "Ha") as (q) "[Hc Ha]".
  iApply (wpp_wait_ready with "Hc Ht"). iIntros (V1 Hle1) "Hseen Hc".
  iApply ("HΦ" with "[//] Hseen"). iApply ("Ha" with "[%] Hc"). apply Hle1.
Qed.

Lemma wpp_typed_receive γ γa i l c V Φ :
  glue_ok P glue -∗ channel_arc γ γa i l c (cur V) -∗ receiver γ -∗
  flag_seen (chan_flag γ) (ready c) (cur V) -∗
  (∀ v V', ⌜V ⊆ V'⌝ -∗ P v (cur V') -∗ Φ v V') -∗
  wpp (receive glue (MkReceiver (Basic.MkArc l c))) V Φ.
Proof.
  iIntros "#Hglue Ha Hr #Hseen HΦ". iApply wpp_with_drop.
  iDestruct (arc_data with "Ha") as (q) "[Hc Ha]".
  iApply (wpp_chan_receive with "Hc Hr Hseen"); [done|]. iIntros (v V1 Hle1) "Hc HP".
  iDestruct ("Ha" with "[%] Hc") as "Ha"; [apply Hle1|].
  iApply (wpp_typed_drop with "Hglue Ha"). iIntros (V2 Hle2).
  iApply ("HΦ" with "[%]"); [by etrans|]. iApply (view_mono with "HP"). apply Hle2.
Qed.
End proof.

Lemma wpp_typed_main `{!rustGS Σ, !shareG Σ, !flagG Σ, !arcG Σ, !tokenG Σ} V :
  ⊢ wpp main V (λ _ _, True).
Proof.
  set (P := (λ v _, ⌜v = VStr "hello world!"⌝)%I : val → view → iProp Σ).
  iApply wpp_bind. iApply (wpp_typed_channel P).
  iIntros (γ γa i j l c V1 Hle1) "Ha Hs Hb Hr".
  iApply wpp_bind. iApply wpp_park_new. iIntros (t V2 Hle2) "#Ht".
  iApply (wpp_scope [()] (λ _, send None (MkSender (Basic.MkArc l c)) (VStr "hello world!");;
    unpark t) _ (λ _ _, True)%I (λ _ _, True)%I with "[Ha Hs] [Hb Hr]").
  { iSplitL; [|done]. iIntros (V' Hle). assert (cur V1 ⊆ cur V') by (etrans; [apply Hle2|done]).
    iApply wpp_bind. iDestruct (arc_mono with "Ha") as "Ha"; [done|].
    iApply (wpp_typed_send P None with "[//] Ha [Hs]"); [done| |done|].
    { by iApply (view_mono with "Hs"). }
    iIntros (V3 Hle3). iApply (wpp_unpark with "[]"); [|by iIntros].
    iApply (is_park_mono with "Ht"). etrans; [done|apply Hle3]. }
  { iIntros (V' Hle). iDestruct (arc_mono _ _ _ _ _ (cur V') with "Hb") as "Hb".
    { etrans; [apply Hle2|apply Hle]. }
    iApply wpp_bind. iApply (wpp_typed_wait P with "Hb").
    { iApply (is_park_mono with "Ht"). apply Hle. }
    iIntros (V3 Hle3) "#Hseen Hb". iApply wpp_bind.
    iApply (wpp_typed_receive P None with "[//] Hb Hr Hseen").
    iIntros (v V4 Hle4) "->". by iApply wpp_assert_eq. }
  by iIntros ([] V3 V4 _ _) "_ _".
Qed.
End Typed.

(** ** What the programs do *)

(** The [main] of 05-05: the message is received, the assertion
    on it holds, and nothing races. *)
Theorem borrowed_main_safe : safe Borrowed.main (λ σ, out σ = []) (λ o _, o = Ok tt).
Proof.
  apply (safe_quiet #[rustΣ; shareΣ; flagΣ; tokenΣ]). iIntros (?).
  iApply Borrowed.wpp_borrowed_main.
Qed.


(** The [main] of 05-06: the blocking [receive] returns the
    message that was sent, and nothing races. *)
Theorem blocking_main_safe : safe Blocking.main (λ σ, out σ = []) (λ o _, o = Ok tt).
Proof.
  apply (safe_quiet #[rustΣ; shareΣ; flagΣ; tokenΣ]). iIntros (?).
  iApply Blocking.wpp_blocking_main.
Qed.

(** The [main] of 05-04: the handles are consumed by [send] and
    [receive], the last one frees the channel, and the assertion holds. *)
Theorem typed_main_safe : safe Typed.main (λ σ, out σ = []) (λ o _, o = Ok tt).
Proof.
  apply (safe_quiet #[rustΣ; shareΣ; flagΣ; arcΣ; tokenΣ]). iIntros (?).
  iApply Typed.wpp_typed_main.
Qed.
