(* ===== verification/OneshotApi.v ===== *)
(** * The interface of a one-shot channel that checks its use

    [send] and [receive] of the two channels of 05-03 may be called by any
    thread at any time; what is wrong panics.  [OneshotImpl] holds the
    operations, [OneshotSpec] what a client may rely on; a client with any
    number of senders and receivers is verified against it. *)

From iris.proofmode Require Import proofmode.
From iris.base_logic.lib Require Import invariants ghost_map token.
From S2P Require Import Prelude Memory Lang Logic Rules Std Shares Counted Arc.

Class OneshotImpl (C : Type) : Type := {
  os_default : prog C;
  os_send : C → val → prog unit;
  os_is_ready : C → prog bool;
  os_receive : C → prog val;
  (** the drop of a channel of messages without a destructor, and of its memory *)
  os_drop : C → prog unit
}.

(** [T] is taken by the first sender, which provides [P v] in exchange;
    [P v] goes to who receives the message [v]. *)
Class OneshotSpec `{!rustGS Σ} {C} (I : OneshotImpl C) : Type := {
  os_name : Type;
  os_chan (T : iProp Σ) (P : val → view → iProp Σ) : os_name → C → Qp → view → iProp Σ;
  os_frac T P γ c :: FracView (os_chan T P γ c);
  os_default_spec T P V (Φ : C → tview → iProp Σ) :
    T -∗ (∀ γ c V', ⌜V ⊆ V'⌝ -∗ os_chan T P γ c 1 (cur V') -∗ Φ c V') -∗
    wpp os_default V Φ;
  os_send_spec T P `{!∀ v, ViewMono (P v)} γ c q v V :
    v ≠ VUninit →
    os_chan T P γ c q (cur V) -∗ (T -∗ P v (cur V)) -∗
    wpo (os_send c v) V (λ _ V', os_chan T P γ c q (cur V'));
  os_receive_spec T P `{!∀ v, ViewMono (P v)} γ c q V :
    os_chan T P γ c q (cur V) -∗
    wpo (os_receive c) V (λ o V', os_chan T P γ c q (cur V') ∗
      match o with Ok v => P v (cur V') | Panicked _ => True end);
  os_drop_spec T P `{!∀ v, ViewMono (P v)} γ c V (Φ : unit → tview → iProp Σ) :
    os_chan T P γ c 1 (cur V) -∗ (∀ V', ⌜V ⊆ V'⌝ -∗ Φ tt V') -∗
    wpp (os_drop c) V Φ
}.

(** ** The crowd *)

Section code.
Context `{I : OneshotImpl C}.

(** Threads that send and threads that receive, each with a handle. *)
Definition sending_thread (a : Basic.Arc C) (v : val) : prog unit :=
  with_drop (Basic.drop os_drop a) (os_send (Basic.deref a) v).

Definition receiving_thread (a : Basic.Arc C) : prog unit :=
  with_drop (Basic.drop os_drop a) (
    v ← os_receive (Basic.deref a);
    println "{}" [v]).

Fixpoint spawn_with (a : Basic.Arc C) (ths : list (Basic.Arc C → prog unit)) : prog unit :=
  match ths with
  | [] => mret ()
  | th :: ths => b ← Basic.clone a; _ ← spawn (th b); spawn_with a ths
  end.

Definition crowd (msgs : list val) (receivers : nat) : prog unit :=
  a ← Basic.new os_default;
  with_drop (Basic.drop os_drop a) (
    spawn_with a ((λ v a, sending_thread a v) <$> msgs);;
    spawn_with a (replicate receivers receiving_thread)).
End code.

(** What has been printed: nothing, or one of the messages, once. *)
Definition one_message (msgs : list val) (os : list output) : Prop :=
  os = [] ∨ ∃ v, v ∈ msgs ∧ os = [("{}"%string, [v])].

Section crowd.
Context `{!rustGS Σ, !shareG Σ, !arcG Σ, !tokenG Σ, I : OneshotImpl C, !OneshotSpec I}.
Context (msgs : list val) (γp : gname).

(** The token [γp] is the right to print. *)
Definition crowd_out : iProp Σ :=
  ∃ os, printed os ∗ ⌜one_message msgs os⌝ ∗ (⌜os = []⌝ ∨ token γp).

Definition crowd_msg (v : val) (_ : view) : iProp Σ := ⌜v ∈ msgs⌝ ∗ token γp.

Abbreviation handle γ γa i l c := (arc (os_chan (token γp) crowd_msg γ c) γa i l).

Lemma wpp_crowd_drop γ γa i l c V (Φ : unit → tview → iProp Σ) :
  handle γ γa i l c (cur V) -∗ (∀ V', ⌜V ⊆ V'⌝ -∗ Φ tt V') -∗
  wpp (Basic.drop os_drop (Basic.MkArc l c)) V Φ.
Proof.
  iIntros "Ha HΦ". iApply (wpp_arc_drop with "Ha"). iSplit.
  - iIntros (V' Hle) "Hc". iApply (os_drop_spec with "Hc"). iIntros (V2 Hle2).
    iApply "HΦ". iPureIntro. by etrans.
  - iIntros (V' Hle) "_". by iApply "HΦ".
Qed.

Lemma wpo_sending_thread γ γa i l c v V :
  v ∈ msgs → v ≠ VUninit →
  handle γ γa i l c (cur V) -∗
  wpo (sending_thread (Basic.MkArc l c) v) V (λ _ _, True).
Proof.
  iIntros (Hin Hv) "Ha". iApply wpo_with_drop.
  iDestruct (arc_data with "Ha") as (q) "[Hc Ha]". iApply (wpo_wand with "[Hc]").
  { iApply (os_send_spec with "Hc"); [done|]. by iIntros "$". }
  iIntros (o V1 Hle1) "Hc". iDestruct ("Ha" with "[%] Hc") as "Ha"; [apply Hle1|].
  iApply (wpp_crowd_drop with "Ha"). by iIntros.
Qed.

Lemma wpp_print_message v V Φ :
  v ∈ msgs → inv outN crowd_out -∗ token γp -∗ Φ tt V -∗ wpp (println "{}" [v]) V Φ.
Proof.
  iIntros (Hin) "#Hinv Hp HΦ". iApply wpp_print_inv.
  iInv "Hinv" as (os) "(>Hos & >_ & >Hcase)" "Hclose". iModIntro. iExists os. iFrame "Hos".
  iIntros "!> Hos". iDestruct "Hcase" as "[->|Hp']"; last first.
  { iDestruct (token_exclusive with "Hp Hp'") as %[]. }
  iFrame "HΦ". iApply "Hclose". iExists _. iFrame "Hos Hp". iPureIntro. right. by exists v.
Qed.

Lemma wpo_receiving_thread γ γa i l c V :
  inv outN crowd_out -∗ handle γ γa i l c (cur V) -∗
  wpo (receiving_thread (Basic.MkArc l c)) V (λ _ _, True).
Proof.
  iIntros "#Hinv Ha". iApply wpo_with_drop.
  iDestruct (arc_data with "Ha") as (q) "[Hc Ha]". iApply wpo_bind.
  iApply (wpo_wand with "[Hc]"); [by iApply (os_receive_spec with "Hc")|].
  iIntros (o V1 Hle1) "[Hc Ho]". iDestruct ("Ha" with "[%] Hc") as "Ha"; [apply Hle1|].
  destruct o as [v|m].
  - iDestruct "Ho" as "[%Hin Hp]". iApply wpp_wpo.
    iApply (wpp_print_message with "Hinv Hp"); [done|].
    iApply (wpp_crowd_drop with "Ha"). by iIntros.
  - iApply (wpp_crowd_drop with "Ha"). by iIntros.
Qed.

Lemma wpp_spawn_with γ γa i l c ths V Φ :
  ([∗ list] th ∈ ths, ∀ j V', handle γ γa j l c (cur V') -∗
     wpo (th (Basic.MkArc l c)) V' (λ _ _, True)) -∗
  handle γ γa i l c (cur V) -∗ ([∗ list] _ ∈ ths, credit γa l (cur V)) -∗
  (∀ V', ⌜V ⊆ V'⌝ -∗ handle γ γa i l c (cur V') -∗ Φ tt V') -∗
  wpp (spawn_with (Basic.MkArc l c) ths) V Φ.
Proof.
  iIntros "Hths Ha Hk HΦ". iInduction ths as [|th ths] "IH" forall (V).
  { iApply wpp_ret. by iApply ("HΦ" with "[//]"). }
  iDestruct "Hths" as "[Hth Hths]". iDestruct "Hk" as "[Hk Hks]". iApply wpp_bind.
  iApply (wpp_arc_clone with "Ha Hk"). iIntros (j V1 Hle1) "Ha Hb".
  iApply wpp_bind. iApply (wpp_spawn _ (λ _ _, True)%I with "[Hth Hb]").
  { iIntros (V' Hle). iApply "Hth". by iApply (arc_mono with "Hb"). }
  iIntros (h V2 Hle2) "_". iApply ("IH" with "Hths [Ha] [Hks] [HΦ]").
  - iApply (arc_mono with "Ha"). apply Hle2.
  - iApply (big_sepL_impl with "Hks"). iIntros "!>" (? ? _) "Hk".
    iApply (view_mono with "Hk"). etrans; [apply Hle1|apply Hle2].
  - iIntros (V3 Hle3). iApply "HΦ". iPureIntro. by do 2 (etrans; [done|]).
Qed.

Lemma wpp_crowd receivers V :
  (Z.of_nat (S (length msgs + receivers)) <= usize_MAX)%Z → VUninit ∉ msgs →
  inv outN crowd_out -∗ token γp -∗ wpp (crowd msgs receivers) V (λ _ _, True).
Proof.
  iIntros (Hn Hun) "#Hinv Hp". iApply wpp_bind. iApply wpp_arc_new; [done|].
  iIntros (V1 Hle1). iApply (os_default_spec (token γp) crowd_msg with "Hp").
  iIntros (γ c V2 Hle2) "Hc". iExists (os_chan (token γp) crowd_msg γ c), _.
  iFrame "Hc". iIntros (γa i l _) "Ha Hk".
  rewrite seq_app big_sepL_app. iDestruct "Hk" as "[Hk1 Hk2]".
  iApply wpp_with_drop. iApply wpp_bind. iApply (wpp_spawn_with with "[] Ha [Hk1]").
  - iApply big_sepL_intro. iIntros "!>" (k th Hth j V').
    apply list_lookup_fmap_Some in Hth as (v & -> & Hv).
    apply list_elem_of_lookup_2 in Hv. iApply wpo_sending_thread; [done|]. by intros ->.
  - iApply (big_sepL_const_length with "Hk1"). by rewrite length_seq length_fmap.
  - iIntros (V3 Hle3) "Ha". iApply (wpp_spawn_with with "[] Ha [Hk2]").
    + iApply big_sepL_intro. iIntros "!>" (k th Hth j V').
      apply lookup_replicate in Hth as [-> _]. by iApply wpo_receiving_thread.
    + iApply (big_sepL_const_length (seq (0 + length msgs) receivers));
        [by rewrite length_seq length_replicate|].
      iApply (big_sepL_impl with "Hk2"). iIntros "!>" (? ? _) "Hk".
      iApply (view_mono with "Hk"). apply Hle3.
    + iIntros (V4 _) "Ha". iApply (wpp_crowd_drop with "Ha"). by iIntros.
Qed.
End crowd.

(** The closed form, for every implementation that meets the interface with
    the ghost state [Σ']. *)
Lemma crowd_safe `{I : OneshotImpl C} Σ `{!rustGpreS Σ, !shareG Σ, !arcG Σ, !tokenG Σ} msgs
    receivers :
  (∀ `{!rustGS Σ}, OneshotSpec I) →
  (Z.of_nat (S (length msgs + receivers)) <= usize_MAX)%Z → VUninit ∉ msgs →
  safe (crowd msgs receivers) (λ σ, one_message msgs (out σ)) (λ o _, o = Ok tt).
Proof.
  intros HI Hn Hm. apply (safe_invariant Σ _ (one_message msgs) (λ o, o = Ok tt)).
  iIntros (?) "Hp". iMod token_alloc as (γp) "Hγp".
  iExists (λ os, ⌜os = []⌝ ∨ token γp)%I.
  iMod (inv_alloc outN _ (crowd_out msgs γp) with "[Hp]") as "#Hinv".
  { iExists []. iFrame "Hp". iSplit; [by iPureIntro; left|]. by iLeft. }
  iModIntro. iFrame "Hinv". specialize (HI _). iApply (wpo_wand with "[Hγp]").
  { by iApply (wpp_crowd with "Hinv Hγp"). }
  by iIntros ([[]|m] V _) "H".
Qed.
