(* ===== verification/Checked.v ===== *)
(** * The channel with runtime checks

    05-03_safety-through-runtime-checks.rs: [send] panics when it is not the
    first, [receive] panics when there is no message, so that no use of the
    channel is undefined. *)

From iris.proofmode Require Import proofmode.
From iris.base_logic.lib Require Import invariants cancelable_invariants ghost_map token.
From S2P Require Import Prelude Memory History Lang Logic Rules Std Parking Shares.
From S2P Require Import Counted Arc.
From S2P Require Import Flag.
From S2P Require Import Channel OneshotApi.

(** ** The code *)

(** [Channel<T> { message, in_use: AtomicBool, ready: AtomicBool }] *)
Record Checked : Type := MkChecked { message : loc; in_use : loc; ready : loc }.

Definition default : prog Checked :=
  message ← uninit;
  in_use ← atomic_new (of_bool false);
  ready ← atomic_new (of_bool false);
  mret (MkChecked message in_use ready).

Definition send (self : Checked) (m : val) : prog unit :=
  used ← swap_bool (in_use self) true Relaxed;
  if (used : bool) then Panic "can't send more than one message!"
  else
    write (message self) m;;
    store_bool (ready self) true Release.

Definition is_ready (self : Checked) : prog bool := load_bool (ready self) Relaxed.

Definition receive (self : Checked) : prog val :=
  r ← swap_bool (ready self) false Acquire;
  if negb r then Panic "no message available!" else assume_init_read (message self).

Definition drop (glue : drop_glue) (self : Checked) : prog unit :=
  r ← act (OGetMut (ready self));
  if to_bool r then assume_init_drop glue (message self) else mret ().

Definition chan_of (c : Checked) : Channel := MkChannel (message c) (ready c).

(** The drop of the last [Arc]: the channel, then its memory. *)
Definition drop_data (glue : drop_glue) (c : Checked) : prog unit :=
  (drop glue c;; dealloc (chan_of c));; act (OFree (in_use c)).

Definition main : prog unit :=
  channel ← Basic.new default;
  t ← park_token_new;
  with_drop (Basic.drop (drop_data None) channel) (
    let c := Basic.deref channel in
    scope [send c (VStr "hello world!");; unpark t] (
      while_loop (b ← is_ready c; mret (negb b)) (park t);;
      v ← receive c;
      assert_eq v (VStr "hello world!"))).

#[export] Instance impl : OneshotImpl Checked := {|
  os_default := default;
  os_send := send;
  os_is_ready := is_ready;
  os_receive := receive;
  os_drop := drop_data None
|}.

(** ** The [in_use] flag *)

(** Every write but the first is [true]. *)
Definition hist_used (h : hist) : Prop :=
  is_Some (h !! 1) ∧ ∀ t m, h !! t = Some m → t = 0 ∧ mval m = 0%Z ∨ mval m = 1%Z.

Section once.
Context `{!rustGS Σ, !shareG Σ}.
(** The first swap takes [T] and leaves [K]. *)
Context (T K : iProp Σ).

Definition once_proto (h : hist) (_ : view) : iProp Σ :=
  (∃ W0, ⌜h = {[0 := Msg 0 W0]}⌝ ∗ T) ∨ (⌜hist_used h⌝ ∗ K).

Lemma wpp_once_swap γ l B q V Φ :
  at_share γ l B once_proto q (cur V) -∗
  (∀ V', ⌜V ⊆ V'⌝ -∗
     (T -∗ K ∗ (at_share γ l B once_proto q (cur V') -∗ Φ 0%Z V')) ∧
     (K -∗ K ∗ (at_share γ l B once_proto q (cur V') -∗ Φ 1%Z V'))) -∗
  wpp (swap l 1 Relaxed) V Φ.
Proof.
  iIntros "Hs HΦ". iApply (wpp_share_swap with "Hs"); [done|].
  iIntros "!>" (h A t m e Hm Hle Hfree) "HPr". set (V' := rmw_view _ _ _ _ _ _).
  set (m' := rmw_msg _ _ _ _). iSpecialize ("HΦ" $! V' with "[%]"); [apply rmw_view_le|].
  iDestruct "HPr" as "[(%W0 & -> & HT)|[%Hh HK]]".
  - apply lookup_singleton_Some in Hm as [<- <-]. iDestruct "HΦ" as "[HΦ _]".
    iDestruct ("HΦ" with "HT") as "[HK $]". iModIntro. iRight. iFrame "HK". iPureIntro.
    split; [rewrite lookup_insert_eq; eauto|].
    intros t m [[<- <-]|[_ [<- <-]%lookup_singleton_Some]]%lookup_insert_Some;
      [by right|by left].
  - destruct Hh as [H1 Hh]. destruct (Hh _ _ Hm) as [[-> _]|Hv].
    { destruct H1. congruence. }
    rewrite Hv. iDestruct "HΦ" as "[_ HΦ]". iDestruct ("HΦ" with "HK") as "[HK $]".
    iModIntro. iRight. iFrame "HK". iPureIntro. split.
    + apply lookup_insert_is_Some'. by right.
    + intros t' m'' [[<- <-]|[_ ?]]%lookup_insert_Some; [by right|by eapply Hh].
Qed.
End once.

(** ** The channel *)

Section checked.
Context `{!rustGS Σ, !shareG Σ, !flagG Σ, !tokenG Σ}.
Context (P : val → view → iProp Σ) `{!∀ v, ViewMono (P v)} (T K : iProp Σ).

Definition checked (γ : chan_name) (γu : gname * gname) (c : Checked) (q : Qp) (W : view)
    : iProp Σ :=
  chan true P γ (chan_of c) q W ∗
  at_share γu (in_use c) (chan_base γ) (once_proto T K) q W.

#[global] Instance checked_frac γ γu c : FracView (checked γ γu c).
Proof. apply _. Qed.

(** The write and the store of [send], by the thread that may send. *)
Lemma wpp_checked_write γ γu c q v V Φ :
  v ≠ VUninit →
  checked γ γu c q (cur V) -∗ sender γ (chan_of c) (cur V) -∗ P v (cur V) -∗
  (∀ V', ⌜V ⊆ V'⌝ -∗ checked γ γu c q (cur V') -∗ Φ tt V') -∗
  wpp (write (message c) v;; store_bool (ready c) true Release) V Φ.
Proof.
  iIntros (Hv) "[Hc Hu] Hs HP HΦ".
  iApply (wpp_chan_send true P γ (chan_of c) with "Hc Hs HP"); [done|].
  iIntros (V' Hle) "Hc". iApply ("HΦ" with "[//]"). iFrame "Hc".
  iApply (at_share_mono with "Hu"). apply Hle.
Qed.

(** [send]: the first call takes [T] and sends, the others panic. *)
Lemma wpo_checked_send γ γu c q v V :
  v ≠ VUninit →
  checked γ γu c q (cur V) -∗
  (∀ W, ⌜cur V ⊆ W⌝ -∗ T -∗ K ∗ sender γ (chan_of c) W ∗ P v W) -∗
  wpo (send c v) V (λ _ V', checked γ γu c q (cur V')).
Proof.
  iIntros (Hv) "[Hc Hu] HT". do 2 iApply wpp_bind_wpo. iApply (wpp_once_swap with "Hu").
  iIntros (V1 Hle1). iDestruct (view_mono (cur V) (cur V1) with "Hc") as "Hc"; [apply Hle1|].
  iSplit.
  - iIntros "HT'". iDestruct ("HT" $! (cur V1) with "[%] HT'") as "($ & Hs & HP)"; [apply Hle1|].
    iIntros "Hu". iApply wpp_ret. simpl. iApply wpp_wpo.
    iApply (wpp_checked_write with "[$Hc $Hu] Hs HP"); [done|]. by iIntros (V2 _) "$".
  - iIntros "$ Hu". iApply wpp_ret. simpl. iApply wpo_panic. iFrame.
Qed.

(** [send] by a thread that knows that it is the first. *)
Lemma wpp_checked_send γ γu c q v V Φ :
  v ≠ VUninit → (K -∗ K -∗ False) →
  checked γ γu c q (cur V) -∗ K -∗ sender γ (chan_of c) (cur V) -∗ P v (cur V) -∗
  (∀ V', ⌜V ⊆ V'⌝ -∗ checked γ γu c q (cur V') -∗ Φ tt V') -∗
  wpp (send c v) V Φ.
Proof.
  iIntros (Hv Hex) "[Hc Hu] HK Hs HP HΦ". do 2 iApply wpp_bind.
  iApply (wpp_once_swap with "Hu"). iIntros (V1 Hle1). iSplit; last first.
  { iIntros "HK'". iExFalso. iApply (Hex with "HK HK'"). }
  iIntros "_". iFrame "HK". iIntros "Hu". iApply wpp_ret. simpl.
  iDestruct (view_mono (cur V) (cur V1) with "Hc") as "Hc"; [apply Hle1|].
  iApply (wpp_checked_write with "[$Hc $Hu] [Hs] [HP]"); [done|..].
  - iApply (view_mono with "Hs"). apply Hle1.
  - iApply (view_mono with "HP"). apply Hle1.
  - iIntros (V2 Hle2) "Hc". iApply ("HΦ" with "[%] Hc"). by etrans.
Qed.

(** [receive]: a message that is there is taken, or the call panics. *)
Lemma wpo_checked_receive γ γu c q (P' : val → view → iProp Σ) `{!∀ v, ViewMono (P' v)} V :
  (∀ v W, P v W ⊢ receiver γ ∗ P' v W) →
  checked γ γu c q (cur V) -∗
  wpo (receive c) V (λ o V', checked γ γu c q (cur V') ∗
    match o with Ok v => P' v (cur V') | Panicked _ => True end).
Proof.
  iIntros (HP) "[[Hm Hr] Hu]". do 2 iApply wpp_bind_wpo.
  iApply (wpp_flag_swap with "Hr"); [done|]. iIntros (V1 Hle1).
  iDestruct (lent_share_mono with "Hm") as "Hm"; [apply Hle1|].
  iDestruct (at_share_mono with "Hu") as "Hu"; [apply Hle1|]. iSplit.
  - iIntros "(%v & %Hv & Ho & HPv)". rewrite HP. iDestruct "HPv" as "[$ HP']".
    iIntros "Hr". iApply wpp_ret. simpl. iApply wpp_wpo.
    iApply (wpp_chan_read_own true P γ (chan_of c) with "[$Hm $Hr] Ho"); [done|].
    iIntros (V2 Hle2) "Hc". iSplitR "HP'"; [|iApply (view_mono with "HP'"); apply Hle2].
    iFrame "Hc". iApply (at_share_mono with "Hu"). apply Hle2.
  - iIntros "Hr". iApply wpp_ret. simpl. iApply wpo_panic. iFrame.
Qed.

(** The drop of the channel by the owner of all shares. *)
Lemma wpp_checked_drop γ γu c glue V Φ :
  glue_ok P glue -∗ checked γ γu c 1 (cur V) -∗ (∀ V', ⌜V ⊆ V'⌝ -∗ Φ tt V') -∗
  wpp (drop_data glue c) V Φ.
Proof.
  iIntros "Hglue [Hc Hu] HΦ". iApply wpp_bind.
  iApply (wpp_drop_dealloc P γ (chan_of c) glue with "Hglue Hc"). iIntros (V1 Hle1).
  iMod (at_share_cancel with "Hu") as (h N A A') "(Hu & %HA & _)"; [done|].
  iApply (wpp_free_atomic with "Hu"); [etrans; [done|apply Hle1]|].
  iIntros "!> _". by iApply "HΦ".
Qed.

End checked.

(** Making the channel; [T] and [K] are chosen with the names of the flag. *)
Lemma wpp_checked_new `{!rustGS Σ, !shareG Σ, !flagG Σ, !tokenG Σ}
    (P : flag_name → val → view → iProp Σ) V (Φ : Checked → tview → iProp Σ) :
  (∀ γ c V', ⌜V ⊆ V'⌝ -∗ sender γ (chan_of c) (chan_base γ) -∗ receiver γ -∗
     ∃ T K, T ∗ ∀ γu, checked (P (chan_flag γ)) T K γ γu c 1 (cur V') -∗ Φ c V') -∗
  wpp default V Φ.
Proof.
  iIntros "HΦ". iApply wpp_bind. iApply wpp_new. iIntros "!>" (m V1 Hle1) "Hm".
  iApply wpp_bind. iApply wpp_alloc_atomic. iIntros "!>" (u e) "Hu".
  set (V2 := observe _ _ V1). assert (V1 ⊆ V2) as Hle2 by apply observe_le.
  assert ({[Acc e]} ∪ {[Acc e]} ⊆ cur V2) as HV2 by (simpl; set_solver). clearbody V2.
  iApply wpp_bind. iApply wpp_alloc_atomic. iIntros "!>" (r e') "Hr".
  set (V3 := observe _ _ V2). assert (V2 ⊆ V3) as Hle3 by apply observe_le.
  assert ({[Acc e']} ∪ {[Acc e']} ⊆ cur V3 ∧ Coh r 0 ∈ cur V3) as [HV3 Hcoh]
    by (simpl; split; set_solver). clearbody V3.
  iMod (chan_alloc_names true P (MkChannel m r) 0 _ _ _ _ (cur V3) with "[Hm] Hr")
    as (γ) "(%Hbase & Hc & Hs & Hrecv)"; [done..| |].
  { iApply (own_na_mono with "Hm"). etrans; [apply Hle2|apply Hle3]. }
  iDestruct ("HΦ" $! γ (MkChecked m u r) V3 with "[%] [Hs] Hrecv") as (T K) "[HT HΦ]";
    [|by rewrite Hbase|].
  { etrans; [done|]. by etrans. }
  iMod (at_share_alloc (cur V3) u _ _ _ (λ _, once_proto T K) (cur V3) with "Hu [HT]")
    as (γu) "Hu"; [|..|apply insert_non_empty| |].
  { etrans; [|apply Hle3]. set_solver. }
  { apply union_least; [done|]. etrans; [|apply Hle3]. set_solver. }
  { iIntros (_). iLeft. iExists _. by iFrame. }
  iApply wpp_ret. iApply "HΦ". iFrame "Hc". rewrite Hbase. iFrame "Hu".
Qed.

(** ** The programs *)

Section programs.
Context `{!rustGS Σ, !shareG Σ, !flagG Σ, !arcG Σ, !tokenG Σ}.

(** The drop of a handle. *)
Lemma wpp_checked_arc_drop P `{!∀ v, ViewMono (P v)} T K γ γu γa i l c V Φ :
  arc (checked P T K γ γu c) γa i l (cur V) -∗ (∀ V', ⌜V ⊆ V'⌝ -∗ Φ tt V') -∗
  wpp (Basic.drop (drop_data None) (Basic.MkArc l c)) V Φ.
Proof.
  iIntros "Ha HΦ". iApply (wpp_arc_drop with "Ha"). iSplit.
  - iIntros (V' Hle) "Hc". iApply (wpp_checked_drop P T K γ γu c None with "[//] Hc"). iIntros (V2 Hle2).
    iApply "HΦ". iPureIntro. by etrans.
  - iIntros (V' Hle) "_". by iApply "HΦ".
Qed.

Lemma wpp_checked_main V : ⊢ wpp main V (λ _ _, True).
Proof.
  set (P := (λ v _, ⌜v = VStr "hello world!"⌝)%I : val → view → iProp Σ).
  iMod token_alloc as (γk) "Hk". iApply wpp_bind. iApply (wpp_arc_new _ 0); [done|].
  iIntros (V1 Hle1). iApply (wpp_checked_new (λ _, P)). iIntros (γ c V2 Hle2) "Hs Hr".
  iExists True%I, (token γk). iSplit; [done|]. iIntros (γu) "Hc".
  iExists (checked P True (token γk) γ γu c), _. iFrame "Hc".
  iIntros (γa i l _) "Ha _". iApply wpp_bind. iApply wpp_park_new.
  iIntros (t V3 Hle3) "#Ht". iApply wpp_with_drop.
  iDestruct (arc_data with "Ha") as (q) "[Hc Ha]".
  iDestruct (view_mono (cur V2) (cur V3) with "Hc") as "Hc"; [apply Hle3|].
  set (C := checked P True (token γk) γ γu c).
  iDestruct (frac_view_div_2 C with "Hc") as "[Hc1 Hc2]".
  iApply (wpp_scope [()] (λ _, send c (VStr "hello world!");; unpark t) _
    (λ _, C (q/2)%Qp) (λ _ V', C (q/2)%Qp (cur V')) with "[Hk Hs Hc1] [Hr Hc2]").
  { iSplitL; [|done]. iIntros (V' Hle).
    iDestruct (view_mono (cur V3) (cur V') with "Hc1") as "[Hc Hu]"; [done|].
    iDestruct (at_share_base with "Hu") as %Hbase. iApply wpp_bind.
    iApply (wpp_checked_send P True (token γk) with "[$Hc $Hu] Hk [Hs]"); [done|..|done|].
    - iIntros "H1 H2". iApply (token_exclusive with "H1 H2").
    - by iApply (view_mono with "Hs").
    - iIntros (V4 Hle4) "Hc". iApply (wpp_unpark with "[]").
      { iApply (is_park_mono with "Ht"). etrans; [done|apply Hle4]. }
      iIntros (V5 Hle5). iApply (view_mono with "Hc"). apply Hle5. }
  { iIntros (V' Hle).
    iDestruct (view_mono (cur V3) (cur V') with "Hc2") as "[Hc Hu]"; [apply Hle|].
    iApply wpp_bind. iApply (wpp_wait_ready true P γ (chan_of c) with "Hc").
    { iApply (is_park_mono with "Ht"). apply Hle. }
    iIntros (V4 Hle4) "#Hseen Hc". iApply wpp_bind.
    iApply (wpp_chan_receive true P γ (chan_of c) with "Hc Hr Hseen"); [done|].
    iIntros (v V5 Hle5) "Hc ->". iApply wpp_assert_eq; [done|]. iFrame "Hc".
    iApply (at_share_mono with "Hu"). etrans; [apply Hle4|apply Hle5]. }
  iIntros ([] V4 V5 Hle4 Hle5) "Hc1 [Hc2 _]".
  iDestruct (view_mono (cur V4) (cur V5) with "Hc1") as "Hc1"; [apply Hle5|].
  iDestruct (frac_view_div_2 C with "[$Hc1 $Hc2]") as "Hc".
  iDestruct ("Ha" with "[%] Hc") as "Ha".
  { etrans; [apply Hle3|]. etrans; [apply Hle4|apply Hle5]. }
  iApply (wpp_checked_arc_drop with "Ha"). by iIntros.
Qed.
End programs.

(** ** The interface *)

Section interface.
Context `{!rustGS Σ, !shareG Σ, !flagG Σ, !tokenG Σ}.

(** The right to receive goes with the message. *)
Definition checked_msg (P : val → view → iProp Σ) (γf : flag_name) (v : val) (W : view)
    : iProp Σ := token (flag_recv γf) ∗ P v W.
Definition checked_first (T : iProp Σ) (γ : chan_name) (c : Checked) : iProp Σ :=
  sender γ (chan_of c) (chan_base γ) ∗ receiver γ ∗ T.
Definition checked_chan (T : iProp Σ) (P : val → view → iProp Σ) (γ : chan_name * (gname * gname))
    (c : Checked) : Qp → view → iProp Σ :=
  checked (checked_msg P (chan_flag γ.1)) (checked_first T γ.1 c) True γ.1 γ.2 c.

#[local] Instance checked_chan_frac T P γ c : FracView (checked_chan T P γ c).
Proof. rewrite /checked_chan. apply checked_frac. Qed.
#[local] Instance checked_msg_mono P `{!∀ v, ViewMono (P v)} γf v :
  ViewMono (checked_msg P γf v).
Proof. rewrite /checked_msg. apply _. Qed.

#[global] Instance checked_spec : OneshotSpec impl.
Proof.
  refine {| os_chan := checked_chan |}.
  - iIntros (T P V Φ) "HT HΦ". iApply (wpp_checked_new (checked_msg P)).
    iIntros (γ c V' Hle) "Hs Hr". iExists (checked_first T γ c), True%I.
    iFrame "Hs Hr HT". iIntros (γu) "Hc". by iApply ("HΦ" $! (γ, γu) with "[//]").
  - iIntros (T P ? [γ γu] c q v V Hv) "[Hc Hu] HP". iDestruct (at_share_base with "Hu") as %HB.
    iApply (wpo_checked_send _ (checked_first T γ c) True with "[$Hc $Hu]"); [done|].
    iIntros (W Hle) "(Hs & Hr & HT)". iSplit; [done|]. iDestruct ("HP" with "HT") as "HP".
    iSplitL "Hs"; [iApply (view_mono with "Hs"); by etrans|]. iFrame "Hr".
    by iApply (view_mono with "HP").
  - iIntros (T P ? [γ γu] c q V) "Hc".
    iApply (wpo_checked_receive (checked_msg P (chan_flag γ)) (checked_first T γ c) True γ γu c q P
      with "Hc"). by iIntros (v W) "$".
  - iIntros (T P ? [γ γu] c V Φ) "Hc HΦ".
    iApply (wpp_checked_drop (checked_msg P (chan_flag γ)) (checked_first T γ c) True γ γu c None
      with "[//] Hc HΦ").
Defined.
End interface.

(** ** What the programs do *)

(** The [main] of 05-03 (runtime checks): the message is received,
    the assertion on it holds, neither [send] nor [receive] panics. *)
Theorem checked_main_safe : safe main (λ σ, out σ = []) (λ o _, o = Ok tt).
Proof.
  apply (safe_quiet #[rustΣ; shareΣ; flagΣ; arcΣ; tokenΣ]). iIntros (?).
  iApply wpp_checked_main.
Qed.

(** C1. Any number of threads that call [send] and [receive] of 05-03 in
    any order have no undefined behaviour; at any time at most one message
    has been received, and it is one of those sent. *)
Theorem checked_crowd_safe msgs receivers
    (Hn : (Z.of_nat (S (length msgs + receivers)) <= usize_MAX)%Z) (Hm : VUninit ∉ msgs) :
  safe (crowd (I := impl) msgs receivers) (λ σ, one_message msgs (out σ)) (λ o _, o = Ok tt).
Proof.
  apply (crowd_safe #[rustΣ; shareΣ; flagΣ; arcΣ; tokenΣ]); [|done..]. intros. apply _.
Qed.

Lemma checked_crowd_safe_witness :
  safe (crowd (I := impl) [VInt 1; VInt 2] 2) (λ σ, one_message [VInt 1; VInt 2] (out σ))
    (λ o _, o = Ok tt).
Proof.
  apply (checked_crowd_safe [VInt 1; VInt 2] 2).
  - vm_compute. discriminate.
  - set_solver.
Defined.
