(* ===== verification/SingleState.v ===== *)
(** * The channel whose state is one atomic

    05-03_represent_channel_state_with_single_atomic_variable.rs. *)

From iris.proofmode Require Import proofmode.
From iris.base_logic.lib Require Import invariants cancelable_invariants ghost_map token.
From S2P Require Import Prelude Memory History Lang Logic Rules Std Parking Shares.
From S2P Require Import Counted Arc.
From S2P Require Import Flag Channel.
From S2P Require Import OneshotApi.

(** ** The code *)

Module Single.

Definition EMPTY : Z := 0.
Definition WRITING : Z := 1.
Definition READY : Z := 2.
Definition READING : Z := 3.

(** [Channel<T> { message, state: AtomicU8 }] *)
Record Channel : Type := MkChannel { message : loc; state : loc }.

Definition default : prog Channel :=
  message ← uninit;
  state ← atomic_new EMPTY;
  mret (MkChannel message state).

Definition send (self : Channel) (m : val) : prog unit :=
  r ← compare_exchange (state self) EMPTY WRITING Relaxed Relaxed;
  if is_err r then Panic "can't send more than cone message!"
  else
    write (message self) m;;
    store (state self) READY Release.

Definition is_ready (self : Channel) : prog bool :=
  v ← load (state self) Relaxed; mret (v =? READY)%Z.

Definition receive (self : Channel) : prog val :=
  r ← compare_exchange (state self) READY READING Acquire Relaxed;
  if is_err r then Panic "no message available!"
  else assume_init_read (message self).

Definition drop (glue : drop_glue) (self : Channel) : prog unit :=
  v ← act (OGetMut (state self));
  if (v =? READY)%Z then assume_init_drop glue (message self) else mret ().

Definition dealloc (c : Channel) : prog unit :=
  act (OFree (message c));; act (OFree (state c)).

Definition main : prog unit :=
  channel ← default;
  with_drop (drop None channel;; dealloc channel) (
    t ← park_token_new;
    scope [send channel (VStr "hello world!");; unpark t] (
      while_loop (b ← is_ready channel; mret (negb b)) (park t);;
      v ← receive channel;
      assert_eq v (VStr "hello world!"))).

#[export] Instance impl : OneshotImpl Channel := {|
  os_default := default;
  os_send := send;
  os_is_ready := is_ready;
  os_receive := receive;
  os_drop c := drop None c;; dealloc c
|}.

(** ** The protocol of the state *)

Record state_name : Type := StateName {
  st_write : gname; st_recv : gname; st_ready : gname
}.

Section state.
Context `{!rustGS Σ, !shareG Σ, !flagG Σ, !tokenG Σ}.
(** The claim of the first sender takes [T] and leaves [K]; [Q] is what the
    store of [READY] publishes. *)
Context (T K : iProp Σ) (Q : view → iProp Σ) `{!ViewMono Q} (γ : state_name).

Definition st_empty (h : hist) : iProp Σ :=
  ⌜wrote h [(0, EMPTY)]⌝ ∗ ghost_map_auth (st_ready γ) 1 (∅ : gmap unit time) ∗
  T ∗ token (st_write γ).
Definition st_writing (h : hist) : iProp Σ :=
  ⌜wrote h [(1, WRITING); (0, EMPTY)]⌝ ∗
  ghost_map_auth (st_ready γ) 1 (∅ : gmap unit time) ∗ K.
Definition st_ready_at (h : hist) (A : view) : iProp Σ :=
  ∃ t m, ⌜wrote h [(t, READY); (1, WRITING); (0, EMPTY)]⌝ ∗ ⌜1 < t⌝ ∗ ⌜h !! t = Some m⌝ ∗
    ghost_map_auth (st_ready γ) 1 {[() := t]} ∗ () ↪[st_ready γ]□ t ∗
    K ∗ token (st_write γ) ∗ ⌜mview m ⊆ A⌝ ∗ Q (mview m).
Definition st_reading (h : hist) : iProp Σ :=
  ∃ t, ⌜wrote h [(S t, READING); (t, READY); (1, WRITING); (0, EMPTY)]⌝ ∗ ⌜1 < t⌝ ∗
    ghost_map_auth (st_ready γ) 1 {[() := t]} ∗ () ↪[st_ready γ]□ t ∗
    K ∗ token (st_write γ) ∗ token (st_recv γ).

Definition state_proto (h : hist) (A : view) : iProp Σ :=
  st_empty h ∨ st_writing h ∨ st_ready_at h A ∨ st_reading h.

Lemma state_proto_grow h A A' : A ⊆ A' → state_proto h A -∗ state_proto h A'.
Proof.
  iIntros (?) "[H|[H|[(%t & %m & ? & ? & ? & ? & ? & ? & ? & % & ?)|H]]]";
    [by iLeft|by iRight; iLeft| |by do 3 iRight].
  do 2 iRight. iLeft. iExists t, m. iFrame. iPureIntro. by etrans.
Qed.

(** Another value than [EMPTY] has been written: there was a first sender. *)
Lemma state_proto_not_empty h A A' t m :
  A ⊆ A' → h !! t = Some m → mval m ≠ EMPTY →
  state_proto h A -∗ K ∗ (K -∗ state_proto h A').
Proof.
  iIntros (HA Hm Hv) "HPr".
  iDestruct "HPr" as "[(%Hw & _)|[(%Hw & ? & $)|[(%t' & %m' & ? & ? & ? & ? & ? & $ & ? & % & ?)|(%t' & ? & ? & ? & ? & $ & ?)]]]".
  - pose proof (wrote_lookup _ _ _ _ Hw Hm) as Hin. by which_write Hin.
  - iIntros "HK". iRight. iLeft. by iFrame.
  - iIntros "HK". do 2 iRight. iLeft. iExists _, _. iFrame. iPureIntro. by etrans.
  - iIntros "HK". do 3 iRight. iExists _. iFrame.
Qed.

(** The claim of [send]. *)
Lemma wpp_state_claim γs l B q V Φ :
  at_share γs l B (state_proto) q (cur V) -∗
  (∀ V', ⌜V ⊆ V'⌝ -∗
     (T -∗ K ∗ (token (st_write γ) -∗ ⌜Coh l 1 ∈ cur V'⌝ -∗
        at_share γs l B (state_proto) q (cur V') -∗ Φ (inl EMPTY) V')) ∧
     (∀ v, K -∗ K ∗ (at_share γs l B (state_proto) q (cur V') -∗ Φ (inr v) V'))) -∗
  wpp (compare_exchange l EMPTY WRITING Relaxed Relaxed) V Φ.
Proof.
  iIntros "Hs HΦ". iApply wpp_bind. iApply (wpp_share_rmw with "Hs"); [done..|].
  iIntros "!>" (h A t m e Hm Hle) "HPr". iSplit.
  - iIntros (z). set (V' := rmw_view _ _ _ _ _ _). rewrite /cas_fun.
    iIntros (Hz Hfree). destruct (mval m =? EMPTY)%Z eqn:Hv; simplify_eq.
    iSpecialize ("HΦ" $! V' with "[%]"); [apply rmw_view_le|]. apply Z.eqb_eq in Hv.
    iDestruct "HPr" as "[(%Hw & Ha & HT & Ht)|[(%Hw & _)|[(%t' & %m' & %Hw & % & _)|(%t' & %Hw & % & _)]]]";
      pose proof (wrote_lookup _ _ _ _ Hw Hm) as Hin; pose proof (wrote_free _ _ _ Hw Hfree) as Hn;
      rewrite Hv in Hin; simpl in Hn; which_write Hin; [|exfalso; apply Hn; set_solver..]. iDestruct "HΦ" as "[HΦ _]".
    iDestruct ("HΦ" with "HT") as "[HK HΦ]". iModIntro. iSplitR "HΦ Ht".
    + iRight. iLeft. iFrame "Ha HK". iPureIntro. by apply wrote_insert.
    + iIntros "Hs". iApply wpp_ret. rewrite Hv. iApply ("HΦ" with "Ht [%] Hs"). apply rmw_view_coh.
  - set (V' := load_view _ _ _ _ _ _). assert (V ⊆ V') as HleV by apply load_view_le.
    iSpecialize ("HΦ" $! V' with "[//]"). rewrite /cas_fun. iIntros (Hf).
    destruct (mval m =? EMPTY)%Z eqn:Hv; [by destruct Hf|]. apply Z.eqb_neq in Hv.
    iDestruct (state_proto_not_empty _ _ (A ∪ cur V') with "HPr") as "[HK HPr]";
      [set_solver|done..|].
    iDestruct "HΦ" as "[_ HΦ]". iDestruct ("HΦ" with "HK") as "[HK HΦ]". iModIntro.
    iSplitR "HΦ"; [by iApply ("HPr" with "HK")|]. iIntros "Hs". iApply wpp_ret.
    by iApply "HΦ".
Qed.

(** Publishing the message. *)
Lemma wpp_state_publish γs l B q V Φ :
  Coh l 1 ∈ cur V →
  at_share γs l B state_proto q (cur V) -∗ token (st_write γ) -∗ Q (cur V) -∗
  (∀ V', ⌜V ⊆ V'⌝ -∗ at_share γs l B state_proto q (cur V') -∗ Φ tt V') -∗
  wpp (store l READY Release) V Φ.
Proof.
  iIntros (Hcoh) "Hs Ht HQ HΦ". iApply (wpp_share_store with "Hs"); [done|].
  iIntros "!>" (h A t e Hfree Hlt).
  iIntros "[(_ & _ & _ & Ht')|[(%Hw & Ha & HK)|[(% & % & _ & _ & _ & _ & _ & _ & Ht' & _)|(% & _ & _ & _ & _ & _ & Ht' & _)]]]";
    try by iDestruct (token_exclusive with "Ht Ht'") as %[].
  iMod (ghost_map_insert_persist () t with "Ha") as "[Ha #Hts]"; [done|].
  set (V' := store_view l t e V). assert (V ⊆ V') as Hle by apply store_view_le.
  iModIntro. iSplitR "HΦ"; [|by iApply "HΦ"]. do 2 iRight. iLeft.
  iExists t, _. rewrite insert_empty lookup_insert_eq. iFrame "Ha Hts HK Ht".
  iSplit; [iPureIntro; by apply (wrote_insert _ _ _ (store_msg Release READY V'))|].
  iSplit. { iPureIntro. destruct (wrote_some _ _ 1 WRITING Hw) as (m1 & Hm1 & _); [set_solver|].
    by apply (Hlt 1 m1). }
  iSplit; [done|]. iSplit; [iPureIntro; simpl; set_solver|].
  iApply (view_mono with "HQ"). apply Hle.
Qed.

(** The thread has seen [READY]. *)
Definition state_seen (l : loc) (W : view) : iProp Σ :=
  ∃ t, () ↪[st_ready γ]□ t ∗ ⌜Coh l t ∈ W⌝.

#[global] Instance state_seen_persistent l W : Persistent (state_seen l W).
Proof. apply _. Qed.

(** A write of [READY] in the history. *)
Lemma state_proto_ready h A t m :
  h !! t = Some m → mval m = READY →
  state_proto h A -∗ state_proto h A ∗ () ↪[st_ready γ]□ t.
Proof.
  iIntros (Hm Hv) "HPr".
  iDestruct "HPr" as "[(%Hw & _)|[(%Hw & _)|[(%t' & %m' & %Hw & % & % & ? & #? & ?)|(%t' & %Hw & % & ? & #? & ?)]]]";
    pose proof (wrote_lookup _ _ _ _ Hw Hm) as Hin; rewrite Hv in Hin; which_write Hin.
  - iSplitL; [|done]. do 2 iRight. iLeft. iExists _, _. by iFrame "∗#".
  - iSplitL; [|done]. do 3 iRight. iExists _. by iFrame "∗#".
Qed.

Lemma wpp_state_load γs l B q V Φ :
  at_share γs l B state_proto q (cur V) -∗
  (∀ v V', ⌜V ⊆ V'⌝ -∗ (if (v =? READY)%Z then state_seen l (cur V') else True) -∗
     at_share γs l B state_proto q (cur V') -∗ Φ v V') -∗
  wpp (load l Relaxed) V Φ.
Proof.
  iIntros "Hs HΦ". iApply (wpp_share_load with "Hs"); [done|].
  iIntros "!>" (h A t m e Hm Hle) "HPr". set (V' := load_view _ l t m e V).
  iSpecialize ("HΦ" $! (mval m) V' with "[%]"); [apply load_view_le|].
  destruct (mval m =? READY)%Z eqn:Hv.
  - iDestruct (state_proto_ready with "HPr") as "[HPr #Ht]"; [done|by apply Z.eqb_eq|].
    iModIntro. iSplitL "HPr"; [iApply (state_proto_grow with "HPr"); set_solver|].
    iApply "HΦ". iExists t. iFrame "Ht". iPureIntro. apply load_view_coh.
  - iModIntro. iSplitL "HPr"; [iApply (state_proto_grow with "HPr"); set_solver|].
    by iApply "HΦ".
Qed.

(** Taking the message out: [READY] is replaced by [READING]. *)
Lemma state_proto_take h A t m z W :
  h !! t = Some m → mval m = READY → h !! S t = None →
  state_proto h A -∗
  Q (mview m) ∗ (token (st_recv γ) -∗
    state_proto (<[S t := rmw_msg Acquire READING m z]> h) W).
Proof.
  iIntros (Hm Hv Hfree) "HPr".
  iDestruct "HPr" as "[(%Hw & _)|[(%Hw & _)|[(%t' & %m' & %Hw & % & %Hm' & ? & #? & ? & ? & % & HQ)|(%t' & %Hw & _)]]]";
    pose proof (wrote_lookup _ _ _ _ Hw Hm) as Hin; rewrite Hv in Hin; which_write Hin.
  - simplify_eq. iFrame "HQ". iIntros "Hr". do 3 iRight. iExists _. iFrame "∗#". iSplit; [|done].
    iPureIntro. by apply (wrote_insert _ _ _ (rmw_msg Acquire READING m z)).
  - exfalso. eapply wrote_free; [done..|]. simpl. set_solver.
Qed.

Lemma wpp_state_take γs l B q V Φ :
  at_share γs l B state_proto q (cur V) -∗
  (∀ V', ⌜V ⊆ V'⌝ -∗
     (Q (cur V') -∗ token (st_recv γ) ∗
        (at_share γs l B state_proto q (cur V') -∗ Φ (inl READY) V')) ∧
     (∀ v, at_share γs l B state_proto q (cur V') -∗ Φ (inr v) V')) -∗
  wpp (compare_exchange l READY READING Acquire Relaxed) V Φ.
Proof.
  iIntros "Hs HΦ". iApply wpp_bind. iApply (wpp_share_rmw with "Hs"); [done..|].
  iIntros "!>" (h A t m e Hm Hle) "HPr". iSplit.
  - iIntros (z). set (V' := rmw_view _ _ _ _ _ _). rewrite /cas_fun.
    iIntros (Hz Hfree). destruct (mval m =? READY)%Z eqn:Hv; simplify_eq. apply Z.eqb_eq in Hv.
    iDestruct ("HΦ" $! V' with "[%]") as "[HΦ _]"; [apply rmw_view_le|].
    iDestruct (state_proto_take _ _ _ _ V' with "HPr") as "[HQ HPr]"; [done..|].
    iDestruct ("HΦ" with "[HQ]") as "[Ht HΦ]".
    { iApply (view_mono with "HQ"). by apply rmw_view_acq. }
    iModIntro. iSplitL "Ht HPr"; [by iApply "HPr"|]. iIntros "Hs". iApply wpp_ret. rewrite Hv.
    by iApply "HΦ".
  - set (V' := load_view _ _ _ _ _ _). assert (V ⊆ V') as HleV by apply load_view_le.
    iDestruct ("HΦ" $! V' with "[//]") as "[_ HΦ]". iIntros (_). iModIntro.
    iSplitL "HPr"; [iApply (state_proto_grow with "HPr"); set_solver|].
    iIntros "Hs". iApply wpp_ret. by iApply "HΦ".
Qed.

(** A receiver that has seen [READY] and is the only one gets the message. *)
Lemma wpp_state_take_seen γs l B q V Φ :
  at_share γs l B state_proto q (cur V) -∗ token (st_recv γ) -∗ state_seen l (cur V) -∗
  (∀ V', ⌜V ⊆ V'⌝ -∗ Q (cur V') -∗ at_share γs l B state_proto q (cur V') -∗
     Φ (inl READY) V') -∗
  wpp (compare_exchange l READY READING Acquire Relaxed) V Φ.
Proof.
  iIntros "Hs Hr (%t0 & #Ht0 & %Hcoh) HΦ". iApply wpp_bind.
  iApply (wpp_share_rmw with "Hs"); [done..|]. iIntros "!>" (h A t m e Hm Hle) "HPr".
  iAssert ⌜mval m = READY⌝%I as %Hv.
  { iDestruct "HPr" as "[(_ & Ha & _)|[(_ & Ha & _)|[(%t' & %m' & %Hw & %Ht' & %Hm' & Ha & _)|(%t' & _ & _ & _ & _ & _ & _ & Hr')]]]";
      try iDestruct (ghost_map_lookup with "Ha Ht0") as %Hlk; try done; last first.
    { by iDestruct (token_exclusive with "Hr Hr'") as %[]. }
    rewrite lookup_singleton_eq in Hlk. simplify_eq. iPureIntro.
    pose proof (Hle _ _ Hm' Hcoh) as Hge. pose proof (wrote_lookup _ _ _ _ Hw Hm) as Hin.
    which_write Hin; simpl in *; lia. }
  iSplit.
  - iIntros (z). set (V' := rmw_view _ _ _ _ _ _). rewrite /cas_fun Hv /=.
    iIntros ([= <-] Hfree).
    iDestruct (state_proto_take _ _ _ _ V' with "HPr") as "[HQ HPr]"; [done..|].
    iModIntro. iSplitL "Hr HPr"; [by iApply "HPr"|]. iIntros "Hs". iApply wpp_ret.
    iApply ("HΦ" $! V' with "[%] [HQ] Hs"); [apply rmw_view_le|].
    iApply (view_mono with "HQ"). by apply rmw_view_acq.
  - iIntros ([Hf|Hf]); [|done]. by rewrite /cas_fun Hv in Hf.
Qed.

(** The end of the channel. *)
Lemma state_cancel γs l B W E :
  ↑shareN ⊆ E →
  at_share γs l B state_proto 1 W ={E}=∗
  ∃ h N A t m, l ↦ CAtomic h N A ∗ ⌜A ⊆ W⌝ ∗ ⌜newest h t⌝ ∗ ⌜h !! t = Some m⌝ ∗
    ▷ if (mval m =? READY)%Z then Q W else True.
Proof.
  iIntros (HE) "Hs".
  iMod (at_share_cancel with "Hs") as (h N A A') "(Hl & % & %HA' & %Hne & HPr)"; [done|].
  iDestruct "HPr" as "[(>%Hw & _)|[(>%Hw & _)|[(%t' & %m' & >%Hw & >%Ht' & >%Hm' & _ & _ & _ & _ & >% & HQ)|(%t' & >%Hw & >% & _)]]]".
  - destruct (wrote_last _ _ _ _ Hw) as (Hnew & m & Hm & Hv); [by constructor|].
    iModIntro. iExists h, N, A, 0, m. iFrame "Hl". by rewrite Hv.
  - destruct (wrote_last _ _ _ _ Hw) as (Hnew & m & Hm & Hv); [by repeat constructor|].
    iModIntro. iExists h, N, A, 1, m. iFrame "Hl". by rewrite Hv.
  - destruct (wrote_last _ _ _ _ Hw) as [Hnew _]; [repeat constructor; simpl; lia|].
    iModIntro. iExists h, N, A, t', m'. iFrame "Hl". do 3 (iSplit; [done|]).
    case_match; [|done]. iNext. iApply (view_mono with "HQ"). by etrans.
  - destruct (wrote_last _ _ _ _ Hw) as (Hnew & m & Hm & Hv); [repeat constructor; simpl; lia|].
    iModIntro. iExists h, N, A, (S t'), m. iFrame "Hl". by rewrite Hv.
Qed.
End state.

(** ** The channel *)

Record single_name : Type := SingleName {
  sg_cell : gname * gname; sg_content : gname;
  sg_shares : gname * gname; sg_state : state_name; sg_base : view
}.

Section channel.
Context `{!rustGS Σ, !shareG Σ, !flagG Σ, !tokenG Σ}.
Context (P : val → view → iProp Σ) `{!∀ v, ViewMono (P v)} (T K : iProp Σ).
Implicit Types (V : tview) (W : view).

Definition single_sent (γ : single_name) (W : view) : iProp Σ :=
  ∃ v, ⌜v ≠ VUninit⌝ ∗ lent_own (sg_content γ) v W ∗ P v W.

#[global] Instance single_sent_mono γ : ViewMono (single_sent γ).
Proof. apply _. Qed.

Definition single (γ : single_name) (c : Channel) (q : Qp) (W : view) : iProp Σ :=
  lent_share (sg_cell γ) (sg_content γ) (message c) q W ∗
  at_share (sg_shares γ) (state c) (sg_base γ)
    (state_proto T K (single_sent γ) (sg_state γ)) q W.

#[global] Instance single_frac γ c : FracView (single γ c).
Proof. apply _. Qed.

(** The cell, for the first sender. *)
Definition single_cell (γ : single_name) (W : view) : iProp Σ :=
  ∃ v, lent_own (sg_content γ) v W.

#[global] Instance single_cell_mono γ : ViewMono (single_cell γ).
Proof. apply _. Qed.

(** The write and the store of [send]. *)
Lemma wpp_single_write γ c q v V Φ :
  v ≠ VUninit → Coh (state c) 1 ∈ cur V →
  single γ c q (cur V) -∗ token (st_write (sg_state γ)) -∗ single_cell γ (cur V) -∗
  P v (cur V) -∗
  (∀ V', ⌜V ⊆ V'⌝ -∗ single γ c q (cur V') -∗ Φ tt V') -∗
  wpp (write (message c) v;; store (state c) READY Release) V Φ.
Proof.
  iIntros (Hv Hcoh) "[Hm Hr] Ht (%w & Ho) HP HΦ". iApply wpp_bind.
  iApply (wpp_write_lent with "Hm Ho"). iIntros "!>" (V1 Hle1) "Hm Ho".
  iDestruct (at_share_mono with "Hr") as "Hr"; [apply Hle1|].
  iApply (wpp_state_publish with "Hr Ht [Ho HP]"); [by apply Hle1| |].
  { iExists v. iFrame "Ho". iSplit; [done|]. iApply (view_mono with "HP"). apply Hle1. }
  iIntros (V2 Hle2) "Hr". iApply ("HΦ" with "[%]"); [by etrans|]. iFrame "Hr".
  iApply (lent_share_mono with "Hm"). apply Hle2.
Qed.

Lemma wpo_single_send γ c q v V :
  v ≠ VUninit →
  single γ c q (cur V) -∗
  (∀ W, ⌜cur V ⊆ W⌝ -∗ T -∗ K ∗ single_cell γ W ∗ P v W) -∗
  wpo (send c v) V (λ _ V', single γ c q (cur V')).
Proof.
  iIntros (Hv) "[Hm Hr] HT". iApply wpp_bind_wpo. iApply (wpp_state_claim with "Hr").
  iIntros (V1 Hle1). iDestruct (lent_share_mono with "Hm") as "Hm"; [apply Hle1|]. iSplit.
  - iIntros "HT'". iDestruct ("HT" $! (cur V1) with "[%] HT'") as "($ & Hs & HP)"; [apply Hle1|].
    iIntros "Ht %Hcoh Hr". iApply wpp_wpo.
    iApply (wpp_single_write with "[$Hm $Hr] Ht Hs HP"); [done..|]. by iIntros (V2 _) "$".
  - iIntros (w) "$ Hr". iApply wpo_panic. iFrame.
Qed.

(** [send] by a thread that knows that it is the first. *)
Lemma wpp_single_send γ c q v V Φ :
  v ≠ VUninit → (K -∗ K -∗ False) →
  single γ c q (cur V) -∗ K -∗ single_cell γ (cur V) -∗ P v (cur V) -∗
  (∀ V', ⌜V ⊆ V'⌝ -∗ single γ c q (cur V') -∗ Φ tt V') -∗
  wpp (send c v) V Φ.
Proof.
  iIntros (Hv Hex) "[Hm Hr] HK Hs HP HΦ". iApply wpp_bind.
  iApply (wpp_state_claim with "Hr"). iIntros (V1 Hle1). iSplit; last first.
  { iIntros (w) "HK'". iExFalso. iApply (Hex with "HK HK'"). }
  iIntros "_". iFrame "HK". iIntros "Ht %Hcoh Hr".
  iDestruct (lent_share_mono with "Hm") as "Hm"; [apply Hle1|].
  iApply (wpp_single_write with "[$Hm $Hr] Ht [Hs] [HP]"); [done..| | |].
  - iApply (view_mono with "Hs"). apply Hle1.
  - iApply (view_mono with "HP"). apply Hle1.
  - iIntros (V2 Hle2) "Hc". iApply ("HΦ" with "[%] Hc"). by etrans.
Qed.

(** The read of [receive]. *)
Lemma wpp_single_read γ c q v V Φ :
  v ≠ VUninit →
  single γ c q (cur V) -∗ lent_own (sg_content γ) v (cur V) -∗
  (∀ V', ⌜V ⊆ V'⌝ -∗ single γ c q (cur V') -∗ Φ v V') -∗
  wpp (assume_init_read (message c)) V Φ.
Proof.
  iIntros (Hv) "[Hm Hr] Ho HΦ". iApply wpp_bind.
  iApply (wpp_read_lent with "Hm Ho"). iIntros "!>" (V' Hle) "Hm _".
  iSpecialize ("HΦ" with "[//] [Hm Hr]").
  { iFrame "Hm". iApply (at_share_mono with "Hr"). apply Hle. }
  destruct v; [done|..]; iApply wpp_ret; iApply "HΦ".
Qed.

Lemma wpo_single_receive γ c q (P' : val → view → iProp Σ) `{!∀ v, ViewMono (P' v)} V :
  (∀ v W, P v W ⊢ token (st_recv (sg_state γ)) ∗ P' v W) →
  single γ c q (cur V) -∗
  wpo (receive c) V (λ o V', single γ c q (cur V') ∗
    match o with Ok v => P' v (cur V') | Panicked _ => True end).
Proof.
  iIntros (HP) "[Hm Hr]". iApply wpp_bind_wpo. iApply (wpp_state_take with "Hr").
  iIntros (V1 Hle1). iDestruct (lent_share_mono with "Hm") as "Hm"; [apply Hle1|]. iSplit.
  - iIntros "(%v & %Hv & Ho & HPv)". rewrite HP. iDestruct "HPv" as "[$ HP']".
    iIntros "Hr". iApply wpp_wpo. iApply (wpp_single_read with "[$Hm $Hr] Ho"); [done|].
    iIntros (V2 Hle2) "$". iApply (view_mono with "HP'"). apply Hle2.
  - iIntros (w) "Hr". iApply wpo_panic. iFrame.
Qed.

Lemma wpp_single_receive γ c q V Φ :
  single γ c q (cur V) -∗ token (st_recv (sg_state γ)) -∗
  state_seen (sg_state γ) (state c) (cur V) -∗
  (∀ v V', ⌜V ⊆ V'⌝ -∗ single γ c q (cur V') -∗ P v (cur V') -∗ Φ v V') -∗
  wpp (receive c) V Φ.
Proof.
  iIntros "[Hm Hr] Ht #Hseen HΦ". iApply wpp_bind.
  iApply (wpp_state_take_seen with "Hr Ht Hseen").
  iIntros (V1 Hle1) "(%v & %Hv & Ho & HP) Hr".
  iDestruct (lent_share_mono with "Hm") as "Hm"; [apply Hle1|].
  iApply (wpp_single_read with "[$Hm $Hr] Ho"); [done|]. iIntros (V2 Hle2) "Hc".
  iApply ("HΦ" with "[%] Hc"); [by etrans|]. iApply (view_mono with "HP"). apply Hle2.
Qed.

(** The loop of [main]. *)
Lemma wpp_single_wait γ c q t V Φ :
  single γ c q (cur V) -∗ is_park t (cur V) -∗
  (∀ V', ⌜V ⊆ V'⌝ -∗ state_seen (sg_state γ) (state c) (cur V') -∗
     single γ c q (cur V') -∗ Φ tt V') -∗
  wpp (while_loop (b ← is_ready c; mret (negb b)) (park t)) V Φ.
Proof.
  iIntros "Hc #Ht HΦ". iApply (wpp_while (λ V', single γ c q (cur V') ∗
    ∀ V2, ⌜V ⊆ V2⌝ -∗ state_seen (sg_state γ) (state c) (cur V2) -∗
      single γ c q (cur V2) -∗ Φ tt V2)%I with "[] [$Hc $HΦ]").
  iIntros "!>" (V1 Hle1) "[[Hm Hr] HΦ]". do 2 iApply wpp_bind.
  iApply (wpp_state_load with "Hr"). iIntros (v V2 Hle2) "Hseen Hr".
  iDestruct (lent_share_mono with "Hm") as "Hm"; [apply Hle2|].
  do 2 iApply wpp_ret. assert (V ⊆ V2) as Hle by by etrans.
  destruct (v =? READY)%Z; simpl; [by iApply ("HΦ" with "[//] Hseen [$Hm $Hr]")|].
  iApply (wpp_park with "[]"); [iApply (is_park_mono with "Ht"); apply Hle|].
  iIntros (V3 Hle3). iFrame "HΦ".
  iApply (view_mono (P := single γ c q) (cur V2)); [apply Hle3|]. by iFrame.
Qed.

(** The channel is destroyed by the owner of all its shares. *)
Lemma wpp_single_drop γ c glue V Φ :
  glue_ok P glue -∗ single γ c 1 (cur V) -∗ (∀ V', ⌜V ⊆ V'⌝ -∗ Φ tt V') -∗
  wpp (drop glue c;; dealloc c) V Φ.
Proof.
  iIntros "#Hglue [Hm Hr] HΦ". do 2 iApply wpp_bind.
  iMod (state_cancel with "Hr") as (h N A t m) "(Hr & %HA & %Hnew & %Hm & Hsent)"; [done|].
  iApply (wpp_get_mut_inv ⊤). iModIntro. iExists h, N, A, t, m. iFrame "Hr".
  do 3 (iSplit; [done|]). iIntros "!>" (e) "Hr !>".
  set (V1 := observe _ _ V). assert (V ⊆ V1) as Hle1 by apply observe_le.
  assert (A ∪ {[Acc e]} ⊆ cur V1) as HA1 by (simpl; set_solver). clearbody V1.
  iAssert (∀ v V2, ⌜V1 ⊆ V2⌝ -∗ own_na (message c) v (cur V2) -∗ wpp (dealloc c) V2 Φ)%I
    with "[Hr HΦ]" as "Hdealloc".
  { iIntros (v V2 Hle2) "Hm". iApply wpp_bind. iApply (wpp_free with "Hm"). iNext.
    iApply (wpp_free_atomic with "Hr").
    - etrans; [done|apply Hle2].
    - iIntros "!> _". iApply "HΦ". iPureIntro. by etrans. }
  destruct (mval m =? READY)%Z; simpl; last first.
  { iApply wpp_ret. iMod (lent_cancel with "Hm") as (v) "Hm"; [done|].
    iApply ("Hdealloc" with "[//]"). iApply (own_na_mono with "Hm"). apply Hle1. }
  iDestruct "Hsent" as "(%v & %Hv & Ho & HP)".
  iMod (lent_cancel_own with "Hm Ho") as "Hm"; [done|].
  iDestruct (own_na_mono with "Hm") as "Hm"; [apply Hle1|].
  destruct glue as [dip|]; simpl; [|iApply wpp_ret; by iApply ("Hdealloc" with "[//]")].
  do 2 iApply wpp_bind. iApply (wpp_read with "Hm"). iIntros "!>" (V2 Hle2) "Hm".
  iAssert (wpp (dip v) V2 (λ _ V3, wpp (dealloc c) V3 Φ)) with "[HP Hm Hdealloc]" as "Hdip".
  { iApply ("Hglue" with "[HP]").
    - iApply (view_mono with "HP"). etrans; [apply Hle1|apply Hle2].
    - iIntros (V3 Hle3). iApply ("Hdealloc" with "[%]"); [by etrans|].
      iApply (own_na_mono with "Hm"). apply Hle3. }
  destruct v; [done|..]; iApply wpp_ret; iApply "Hdip".
Qed.
End channel.

(** Making the channel; [T] and [K] are chosen with the names. *)
Lemma wpp_single_new `{!rustGS Σ, !shareG Σ, !flagG Σ, !tokenG Σ}
    (P : state_name → val → view → iProp Σ) V (Φ : Channel → tview → iProp Σ) :
  (∀ γ γo B c V', ⌜V ⊆ V'⌝ -∗ ⌜B ⊆ cur V'⌝ -∗ (∃ v, lent_own γo v B) -∗
     token (st_recv γ) -∗
     ∃ T K, T ∗ ∀ γc γs, single (P γ) T K (SingleName γc γo γs γ B) c 1 (cur V') -∗ Φ c V') -∗
  wpp default V Φ.
Proof.
  iIntros "HΦ". iApply wpp_bind. iApply wpp_new. iIntros "!>" (m V1 Hle1) "Hm".
  iApply wpp_bind. iApply wpp_alloc_atomic. iIntros "!>" (l e) "Hl".
  set (V2 := observe _ _ V1). assert (V1 ⊆ V2) as Hle2 by apply observe_le.
  assert ({[Acc e]} ∪ {[Acc e]} ⊆ cur V2) as HV2 by (simpl; set_solver). clearbody V2.
  iMod (lent_alloc with "[Hm]") as (γc γo) "[Hm Ho]".
  { iApply (own_na_mono with "Hm"). apply Hle2. }
  iMod token_alloc as (γw) "Hw". iMod token_alloc as (γr) "Hr".
  iMod (ghost_map_alloc_empty (K := unit) (V := time)) as (γm) "Ha".
  set (γ := StateName γw γr γm).
  iDestruct ("HΦ" $! γ γo (cur V2) (MkChannel m l) V2 with "[%] [//] [Ho] Hr") as (T K) "[HT HΦ]".
  { by etrans. }
  { by iExists _. }
  iMod (at_share_alloc (cur V2) l _ _ _ (λ γs, state_proto T K
      (single_sent (P γ) (SingleName γc γo γs γ (cur V2))) γ) (cur V2) with "Hl [HT Hw Ha]")
    as (γs) "Hl"; [set_solver|set_solver|apply insert_non_empty| |].
  { iIntros (γs). iLeft. iFrame "HT Hw Ha". iPureIntro.
    apply (wrote_singleton 0 (Msg EMPTY ∅)). }
  iApply wpp_ret. iApply ("HΦ" $! γc γs). iFrame "Hm Hl".
Qed.

(** ** The interface *)

Section interface.
Context `{!rustGS Σ, !shareG Σ, !flagG Σ, !tokenG Σ}.

(** The right to receive goes with the message. *)
Definition single_msg (P : val → view → iProp Σ) (γ : state_name) (v : val) (W : view)
    : iProp Σ := token (st_recv γ) ∗ P v W.
Definition single_first (T : iProp Σ) (γ : single_name) : iProp Σ :=
  single_cell γ (sg_base γ) ∗ token (st_recv (sg_state γ)) ∗ T.
Definition single_chan (T : iProp Σ) (P : val → view → iProp Σ) (γ : single_name)
    (c : Channel) : Qp → view → iProp Σ :=
  single (single_msg P (sg_state γ)) (single_first T γ) True γ c.

#[local] Instance single_chan_frac T P γ c : FracView (single_chan T P γ c).
Proof. rewrite /single_chan. apply single_frac. Qed.
#[local] Instance single_msg_mono P `{!∀ v, ViewMono (P v)} γ v :
  ViewMono (single_msg P γ v).
Proof. rewrite /single_msg. apply _. Qed.

#[global] Instance single_spec : OneshotSpec impl.
Proof.
  refine {| os_chan := single_chan |}.
  - iIntros (T P V Φ) "HT HΦ". iApply (wpp_single_new (single_msg P)).
    iIntros (γ γo B c V' Hle HB) "Ho Hr".
    iExists ((∃ v, lent_own γo v B) ∗ token (st_recv γ) ∗ T)%I, True%I.
    iFrame "Ho Hr HT". iIntros (γc γs) "Hc".
    by iApply ("HΦ" $! (SingleName γc γo γs γ B) with "[//] Hc").
  - iIntros (T P ? γ c q v V Hv) "[Hm Hr] HP". iDestruct (at_share_base with "Hr") as %HB.
    iApply (wpo_single_send _ (single_first T γ) True with "[$Hm $Hr]"); [done|].
    iIntros (W Hle) "(Hs & Hr & HT)". iSplit; [done|]. iDestruct ("HP" with "HT") as "HP".
    iSplitL "Hs"; [iApply (view_mono with "Hs"); by etrans|]. iFrame "Hr".
    by iApply (view_mono with "HP").
  - iIntros (T P ? γ c q V) "Hc".
    iApply (wpo_single_receive (single_msg P (sg_state γ)) (single_first T γ) True γ c q P
      with "Hc"). by iIntros (v W) "$".
  - iIntros (T P ? γ c V Φ) "Hc HΦ".
    iApply (wpp_single_drop (single_msg P (sg_state γ)) (single_first T γ) True γ c None
      with "[//] Hc HΦ").
Defined.
End interface.

Lemma wpp_single_main `{!rustGS Σ, !shareG Σ, !flagG Σ, !tokenG Σ} V :
  ⊢ wpp main V (λ _ _, True).
Proof.
  set (P := (λ v _, ⌜v = VStr "hello world!"⌝)%I : val → view → iProp Σ).
  iMod token_alloc as (γk) "Hk". iApply wpp_bind. iApply (wpp_single_new (λ _, P)).
  iIntros (γ0 γo B c V1 Hle1 HB) "Hs Hr". iExists True%I, (token γk). iSplit; [done|].
  iIntros (γc γs) "Hc". iApply wpp_with_drop. iApply wpp_bind. iApply wpp_park_new.
  iIntros (t V2 Hle2) "#Ht". set (γ := SingleName γc γo γs γ0 B).
  set (C := single P True (token γk) γ c).
  iDestruct (view_mono (P := C 1%Qp) (cur V1) (cur V2) with "Hc") as "Hc"; [apply Hle2|].
  iDestruct (frac_view_halves C with "Hc") as "[Hc1 Hc2]".
  iApply (wpp_scope [()] (λ _, send c (VStr "hello world!");; unpark t) _
    (λ _, C (1/2)%Qp) (λ _ V', C (1/2)%Qp (cur V')) with "[Hk Hs Hc1] [Hr Hc2]").
  { iSplitL; [|done]. iIntros (V' Hle).
    iDestruct (view_mono (P := C (1/2)%Qp) (cur V2) (cur V') with "Hc1") as "Hc"; [done|].
    iApply wpp_bind.
    iApply (wpp_single_send P True (token γk) γ c with "Hc Hk [Hs]"); [done|..|done|].
    - iIntros "H1 H2". iApply (token_exclusive with "H1 H2").
    - iApply (view_mono (P := single_cell γ) with "Hs"). etrans; [done|]. etrans; [apply Hle2|done].
    - iIntros (V4 Hle4) "Hc". iApply (wpp_unpark with "[]").
      { iApply (is_park_mono with "Ht"). etrans; [done|apply Hle4]. }
      iIntros (V5 Hle5). iApply (view_mono with "Hc"). apply Hle5. }
  { iIntros (V' Hle).
    iDestruct (view_mono (P := C (1/2)%Qp) (cur V2) (cur V') with "Hc2") as "Hc"; [apply Hle|].
    iApply wpp_bind. iApply (wpp_single_wait P True (token γk) γ c with "Hc").
    { iApply (is_park_mono with "Ht"). apply Hle. }
    iIntros (V4 Hle4) "#Hseen Hc". iApply wpp_bind.
    iApply (wpp_single_receive P True (token γk) γ c with "Hc Hr Hseen").
    iIntros (v V5 Hle5) "Hc ->". by iApply wpp_assert_eq. }
  iIntros ([] V4 V5 Hle4 Hle5) "Hc1 [Hc2 _]".
  iDestruct (view_mono (P := C (1/2)%Qp) (cur V4) (cur V5) with "Hc1") as "Hc1"; [apply Hle5|].
  iDestruct (frac_view_halves C with "[$Hc1 $Hc2]") as "Hc".
  iApply (wpp_single_drop P True (token γk) γ c None with "[//] Hc"). by iIntros.
Qed.
End Single.

(** ** What the programs do *)

(** The [main] of 05-03 (single state): the message is received, the
    assertion on it holds, neither [send] nor [receive] panics. *)
Theorem single_main_safe : safe Single.main (λ σ, out σ = []) (λ o _, o = Ok tt).
Proof.
  apply (safe_quiet #[rustΣ; shareΣ; flagΣ; tokenΣ]). iIntros (?).
  iApply Single.wpp_single_main.
Qed.

(** C10. Any number of threads that call [send] and [receive] of 05-03 (single
    state) in any order have no undefined behaviour; at any time at most one
    message has been received, and it is one of those sent. *)
Theorem single_crowd_safe msgs receivers
    (Hn : (Z.of_nat (S (length msgs + receivers)) <= usize_MAX)%Z) (Hm : VUninit ∉ msgs) :
  safe (crowd (I := Single.impl) msgs receivers) (λ σ, one_message msgs (out σ))
    (λ o _, o = Ok tt).
Proof.
  apply (crowd_safe #[rustΣ; shareΣ; flagΣ; arcΣ; tokenΣ]); [|done..]. intros. apply _.
Qed.

Lemma single_crowd_safe_witness :
  safe (crowd (I := Single.impl) [VInt 1; VInt 2] 2)
    (λ σ, one_message [VInt 1; VInt 2] (out σ)) (λ o _, o = Ok tt).
Proof.
  apply (single_crowd_safe [VInt 1; VInt 2] 2).
  - vm_compute. discriminate.
  - set_solver.
Defined.
