(* ===== verification/Oneshot.v ===== *)
(** * The unsafe one-shot channel

    05-02_unsafe-oneshot-channel.rs: the caller has to call [send] once, and
    [receive] once after [is_ready] returned [true].  [receive] leaves [ready]
    set, so that the drop of the channel drops the message again: nothing for
    the [i32] of [main], a double free for a type with a destructor. *)

From iris.proofmode Require Import proofmode.
From iris.base_logic.lib Require Import invariants cancelable_invariants ghost_map token.
From S2P Require Import Prelude Memory History Lang Logic Rules Interleaving Std.
From S2P Require Import Parking Output.
From S2P Require Import Shares Counted Arc Flag Channel.

Module Oneshot.

Definition default : prog Channel :=
  message ← uninit;
  ready ← atomic_new (of_bool false);
  mret (MkChannel message ready).

Definition send (self : Channel) (m : val) : prog unit :=
  write (message self) m;;
  store_bool (ready self) true Release.

Definition is_ready (self : Channel) : prog bool := load_bool (ready self) Acquire.

Definition receive (self : Channel) : prog val := assume_init_read (message self).

Definition drop (glue : drop_glue) (self : Channel) : prog unit :=
  r ← load_bool (ready self) Acquire;
  if (r : bool) then assume_init_drop glue (message self) else mret ().

(** The drop of the last [Arc]: the channel, then its memory. *)
Definition drop_data (glue : drop_glue) (c : Channel) : prog unit :=
  drop glue c;; dealloc c.

Definition main : prog unit :=
  channel ← Basic.new default;
  cloned_channel ← Basic.clone channel;
  sender ← spawn (with_drop (Basic.drop (drop_data None) channel) (
    send (Basic.deref channel) (VInt 42);;
    println "Sent message: 42" []));
  receiver ← spawn (with_drop (Basic.drop (drop_data None) cloned_channel) (
    while_loop (b ← is_ready (Basic.deref cloned_channel); mret (negb b)) spin_loop;;
    message ← receive (Basic.deref cloned_channel);
    println "Received message: {}" [message]));
  join_unwrap sender;;
  join_unwrap receiver.

(** A client that keeps to the rules, with a message that owns memory: a box,
    freed by who receives it. *)
Definition box_drop (v : val) : prog unit :=
  match v with VInt (Zpos b) => act (OFree b) | _ => UB end.

Definition box_client (receives : bool) : prog unit :=
  channel ← default;
  with_drop (drop_data (Some box_drop) channel) (
    b ← new_cell (VInt 42);
    send channel (VInt (Zpos b));;
    if receives then
      while_loop (r ← is_ready channel; mret (negb r)) spin_loop;;
      v ← receive channel;
      box_drop v
    else mret ()).

Section proof.
Context `{!rustGS Σ, !shareG Σ, !flagG Σ, !arcG Σ, !tokenG Σ}.
Context (P : val → view → iProp Σ) `{!∀ v, ViewMono (P v)}.

(** [is_ready] by the receiver: [true] comes with the message. *)
Lemma wpp_oneshot_is_ready γ c q V Φ :
  chan false P γ c q (cur V) -∗ receiver γ -∗
  (∀ b V', ⌜V ⊆ V'⌝ -∗ chan false P γ c q (cur V') -∗
     (if (b : bool) then sent P γ (cur V') else receiver γ) -∗ Φ b V') -∗
  wpp (is_ready c) V Φ.
Proof.
  iIntros "[Hm Hr] Hrecv HΦ". iApply wpp_bind.
  iApply (wpp_flag_load_acquire with "Hr Hrecv"); [done|]. iIntros (b V1 Hle1) "Hb Hr".
  iDestruct (lent_share_mono with "Hm") as "Hm"; [apply Hle1|].
  iApply wpp_ret. iSpecialize ("HΦ" $! b with "[//] [$Hm $Hr] Hb"). by destruct b.
Qed.

Lemma wpp_oneshot_wait γ c q V Φ :
  chan false P γ c q (cur V) -∗ receiver γ -∗
  (∀ V', ⌜V ⊆ V'⌝ -∗ chan false P γ c q (cur V') -∗ sent P γ (cur V') -∗ Φ tt V') -∗
  wpp (while_loop (b ← is_ready c; mret (negb b)) spin_loop) V Φ.
Proof.
  iIntros "Hc Hr HΦ". iApply (wpp_while (λ V', chan false P γ c q (cur V') ∗ receiver γ ∗
    ∀ V2, ⌜V ⊆ V2⌝ -∗ chan false P γ c q (cur V2) -∗ sent P γ (cur V2) -∗ Φ tt V2)%I
    with "[] [$Hc $Hr $HΦ]").
  iIntros "!>" (V1 Hle1) "(Hc & Hr & HΦ)". iApply wpp_bind.
  iApply (wpp_oneshot_is_ready with "Hc Hr"). iIntros (b V2 Hle2) "Hc Hb".
  iApply wpp_ret. destruct b; simpl.
  - iApply ("HΦ" with "[%] Hc Hb"). by etrans.
  - iApply wpp_ret. iFrame.
Qed.

(** The memory of the channel, without its drop. *)
Lemma wpp_chan_free γ c V Φ :
  chan false P γ c 1 (cur V) -∗ (∀ V', ⌜V ⊆ V'⌝ -∗ Φ tt V') -∗ wpp (dealloc c) V Φ.
Proof.
  iIntros "[Hm Hr] HΦ". iMod (lent_cancel with "Hm") as (v) "Hm"; [done|].
  iMod (at_share_cancel with "Hr") as (h N A A') "(Hr & %HA & _)"; [done|].
  iApply wpp_bind. iApply (wpp_free with "Hm"). iNext.
  iApply (wpp_free_atomic with "Hr"); [done|]. iIntros "!> _". by iApply "HΦ".
Qed.

(** The drop, when dropping a message does nothing. *)
Lemma wpp_oneshot_drop γ c V Φ :
  chan false P γ c 1 (cur V) -∗ (∀ V', ⌜V ⊆ V'⌝ -∗ Φ tt V') -∗
  wpp (drop_data None c) V Φ.
Proof.
  iIntros "Hc HΦ". do 2 iApply wpp_bind. iApply (wpp_chan_is_ready with "Hc"); [done|].
  iIntros (b V1 Hle1) "_ Hc".
  iAssert (wpp (dealloc c) V1 Φ) with "[Hc HΦ]" as "H".
  { iApply (wpp_chan_free with "Hc"). iIntros (V2 Hle2). iApply "HΦ". iPureIntro. by etrans. }
  by destruct b; iApply wpp_ret.
Qed.

(** Dropping a handle of the channel. *)
Lemma wpp_oneshot_arc_drop γ γa i l c V Φ :
  arc (chan false P γ c) γa i l (cur V) -∗ (∀ V', ⌜V ⊆ V'⌝ -∗ Φ tt V') -∗
  wpp (Basic.drop (drop_data None) (Basic.MkArc l c)) V Φ.
Proof.
  iIntros "Ha HΦ". iApply (wpp_arc_drop with "Ha"). iSplit.
  - iIntros (V' Hle) "Hc". iApply (wpp_oneshot_drop with "Hc"). iIntros (V2 Hle2).
    iApply "HΦ". iPureIntro. by etrans.
  - iIntros (V' Hle) "_". by iApply "HΦ".
Qed.
End proof.

Lemma wpp_oneshot_main `{!rustGS Σ, !shareG Σ, !flagG Σ, !arcG Σ, !tokenG Σ} fss γ1 γ2 V :
  writer fss γ1 [("Sent message: 42"%string, [])] -∗
  writer fss γ2 [("Received message: {}"%string, [VInt 42])] -∗
  wpp main V (λ _ _, writer fss γ1 [] ∗ writer fss γ2 []).
Proof.
  iIntros "H1 H2". set (P := (λ v _, ⌜v = VInt 42⌝)%I : val → view → iProp Σ).
  iApply wpp_bind. iApply (wpp_arc_new _ 1); [done|]. iIntros (V1 Hle1).
  iApply wpp_post_fupd. iApply wpp_default. iIntros (c V2 Hle2) "Hc".
  iDestruct "Hc" as (W0 N A) "(Hm & Hr & %HA & %Hcoh)".
  iMod (chan_alloc false P c 0 _ _ _ _ (cur V2) with "Hm Hr") as (γ) "(Hc & Hs & Hr)"; [done..|].
  iModIntro. iExists (chan false P γ c), _. iFrame "Hc". iIntros (γa i l _) "Ha [Hk _]".
  iApply wpp_bind. iApply (wpp_arc_clone with "Ha Hk"). iIntros (j V3 Hle3) "Ha Hb".
  iDestruct (view_mono (cur V2) (cur V3) with "Hs") as "Hs"; [apply Hle3|].
  iApply wpp_bind. iApply (wpp_spawn_ok _ (λ _, writer fss γ1 []) with "[Ha Hs H1]").
  { iIntros (V' Hle). iDestruct (arc_mono with "Ha") as "Ha"; [exact Hle|].
    iApply wpp_with_drop. iDestruct (arc_data with "Ha") as (q) "[Hc Ha]".
    iDestruct (view_mono (cur V3) (cur V') with "Hs") as "Hs"; [done|].
    iApply wpp_bind. iApply (wpp_chan_send with "Hc Hs"); [done|done|].
    iIntros (V4 Hle4) "Hc". iDestruct ("Ha" with "[%] Hc") as "Ha"; [apply Hle4|].
    iApply (wpp_println_writer with "H1"). iIntros "H1".
    iApply (wpp_oneshot_arc_drop with "Ha"). by iIntros. }
  iIntros (t1 V4 Hle4) "Ht1". iDestruct (arc_mono with "Hb") as "Hb"; [apply Hle4|].
  iApply wpp_bind. iApply (wpp_spawn_ok _ (λ _, writer fss γ2 []) with "[Hb Hr H2]").
  { iIntros (V' Hle). iDestruct (arc_mono with "Hb") as "Hb"; [exact Hle|].
    iApply wpp_with_drop. iDestruct (arc_data with "Hb") as (q) "[Hc Hb]".
    iApply wpp_bind. iApply (wpp_oneshot_wait with "Hc Hr"). iIntros (V5 Hle5) "Hc Hsent".
    iApply wpp_bind. iApply (wpp_chan_read with "Hc Hsent"). iIntros (v V6 Hle6) "Hc ->".
    iDestruct ("Hb" with "[%] Hc") as "Hb"; [etrans; [apply Hle5|apply Hle6]|].
    iApply (wpp_println_writer with "H2"). iIntros "H2".
    iApply (wpp_oneshot_arc_drop with "Hb"). by iIntros. }
  iIntros (t2 V5 Hle5) "Ht2". iDestruct (join_handle_mono with "Ht1") as "Ht1"; [apply Hle5|].
  iApply wpp_bind. iApply (wpp_join_unwrap with "Ht1"). iIntros (V6 Hle6) "H1".
  iDestruct (join_handle_mono with "Ht2") as "Ht2"; [apply Hle6|].
  iApply (wpp_join_unwrap with "Ht2"). iIntros (V7 _) "H2". iFrame.
Qed.
End Oneshot.

(** ** What the programs do *)

(** The [main] of 05-02: no race, no panic, the receiver prints the
    number that was sent; the two lines come in either order. *)
Theorem oneshot_main_safe :
  let lines := [[("Sent message: 42"%string, [])];
                [("Received message: {}"%string, [VInt 42])]] in
  safe Oneshot.main (λ σ, ∃ rests, progress lines (out σ) rests)
    (λ o σ, o = Ok tt ∧ interleaving lines (out σ)).
Proof.
  apply (safe_interleaved #[rustΣ; shareΣ; flagΣ; arcΣ; tokenΣ]). iIntros (? γs) "Hs".
  destruct γs as [|γ1 [|γ2 [|]]]; try by (iDestruct "Hs" as "[? [? ?]]" || iDestruct "Hs" as "[? ?]" || idtac).
  iDestruct "Hs" as "(H1 & H2 & _)". iApply (wpp_wand with "[H1 H2]").
  { iApply (Oneshot.wpp_oneshot_main with "H1 H2"). }
  iIntros ([] V _) "[$ $]". done.
Qed.

(** C33. A client of 05-02 that calls [send] once and then [receive]
    once, as the comments ask, with a message that owns memory: the message
    is freed by the receiver and again by the drop of the channel, which is
    undefined behaviour. *)
Theorem oneshot_double_free : ¬ safe (Oneshot.box_client true) (λ _, True) (λ _ _, True).
Proof. apply (run_undefined (replicate 11 (0, Choice 1 1 false 0))). vm_compute. reflexivity. Qed.
