(* ===== verification/SeqChannels.v ===== *)
(** * The channels of chapter 5 in one thread

    A thread that is alone can use a channel too, and then what it sees is
    determined: what is sent is received, for every channel, and the two
    channels of 05-03 answer every sequence of calls in the same way. *)

From S2P Require Import Prelude Memory Lang Runs Sequential Std Parking StdSync Fifo.
From S2P Require Import Arc Channel Channels OneshotApi Checked SingleState Oneshot.

(** ** Round trips *)

(** Send a message, receive it, print it. *)
Definition oneshot_trip (v : val) : prog unit :=
  c ← Oneshot.default; Oneshot.send c v;; r ← Oneshot.is_ready c;
  w ← Oneshot.receive c; println "{} {}" [VInt (of_bool r); w].
Definition checked_trip (v : val) : prog unit :=
  c ← Checked.default; Checked.send c v;; r ← Checked.is_ready c;
  w ← Checked.receive c; println "{} {}" [VInt (of_bool r); w].
Definition single_trip (v : val) : prog unit :=
  c ← Single.default; Single.send c v;; r ← Single.is_ready c;
  w ← Single.receive c; println "{} {}" [VInt (of_bool r); w].
Definition typed_trip (v : val) : prog unit :=
  '(tx, rx) ← Typed.channel; Typed.send None tx v;; r ← Typed.is_ready rx;
  w ← Typed.receive None rx; println "{} {}" [VInt (of_bool r); w].
Definition borrowed_trip (v : val) : prog unit :=
  c ← Borrowed.default; '(tx, rx) ← Borrowed.split None c; Borrowed.send tx v;;
  r ← Borrowed.is_ready rx; w ← Borrowed.receive rx;
  println "{} {}" [VInt (of_bool r); w].
Definition blocking_trip (v : val) : prog unit :=
  current ← park_token_new; c ← Blocking.default;
  '(tx, rx) ← Blocking.split None current c; Blocking.send tx v;;
  w ← Blocking.receive current rx; println "{} {}" [VInt (of_bool true); w].

Definition trips : list (val → prog unit) :=
  [oneshot_trip; checked_trip; single_trip; typed_trip; borrowed_trip; blocking_trip].

(** C11. What is sent over one of the one-shot channels of chapter 5 is ready, and
    received as it was sent: with every channel, the program that sends a
    message, receives it and prints it ends, and ends only with that output. *)
Theorem send_receive_roundtrip (v : val) (Hv : v ≠ VUninit) :
  Forall (λ p : val → prog unit, ∀ o os,
    can_end (p v) o os ↔ o = Ok tt ∧ os = [("{} {}"%string, [VInt 1; v])]) trips.
Proof.
  repeat apply Forall_cons_2; [..|by apply Forall_nil_2];
    (apply (seval_can_end 100);
      [no_fork_follow|destruct v; try done; eexists; split; vm_compute; reflexivity]).
Qed.

Lemma send_receive_roundtrip_witness :
  can_end (typed_trip (VStr "hello world!")) (Ok tt)
    [("{} {}"%string, [VInt 1; VStr "hello world!"])].
Proof.
  assert (VStr "hello world!" ≠ VUninit) as Hv by discriminate.
  pose proof (send_receive_roundtrip (VStr "hello world!") Hv) as H.
  rewrite Forall_forall in H. apply (H typed_trip); [|done]. unfold trips. set_solver.
Defined.

(** ** The channel with a mutex keeps the order *)

Fixpoint send_all (c : SimpleChannel.Channel) (vs : list val) : prog unit :=
  match vs with [] => mret () | v :: vs => SimpleChannel.send c v;; send_all c vs end.
Fixpoint receive_all (c : SimpleChannel.Channel) (n : nat) : prog unit :=
  match n with
  | 0 => mret ()
  | S n => v ← SimpleChannel.receive c; println "{}" [v];; receive_all c n
  end.
Definition queue_trip (vs : list val) : prog unit :=
  c ← SimpleChannel.default; send_all c vs;; receive_all c (length vs).

Lemma no_fork_send_all c vs : no_fork (send_all c vs).
Proof. induction vs; [exact I|]. apply no_fork_bind; [no_fork_follow|done]. Qed.
Lemma no_fork_receive_all c n : no_fork (receive_all c n).
Proof.
  induction n; [exact I|]. apply no_fork_bind; [no_fork_follow|]. intros v.
  apply no_fork_bind; [no_fork_follow|done].
Qed.

(** The memory of the channel: the queue holds [l], and [n] is the counter of
    the condition variable. *)
Definition queue_chan : SimpleChannel.Channel :=
  SimpleChannel.MkChannel (MkMutex 4 3 2) 5.
Definition queue_mem (l : list val) (n : Z) (os : list output) : smem :=
  SMem (<[5%positive := SAtomic n]> (<[4%positive := SAtomic 0]>
    (<[3%positive := SAtomic 0]> {[2%positive := SData (VList l)]}))) os.

Lemma evals_queue_send v l n os :
  evals (SimpleChannel.send queue_chan v) (queue_mem l n os) (Ok tt)
    (queue_mem (l ++ [v]) (wrap_add u32_modulus n 1) os).
Proof. apply (seval_sound 100). reflexivity. Qed.

Lemma evals_queue_receive v l n os :
  evals (SimpleChannel.receive queue_chan) (queue_mem (v :: l) n os) (Ok v) (queue_mem l n os).
Proof. apply (seval_sound 100). reflexivity. Qed.

Lemma evals_send_all vs l n os :
  ∃ n', evals (send_all queue_chan vs) (queue_mem l n os) (Ok tt) (queue_mem (l ++ vs) n' os).
Proof.
  revert l n. induction vs as [|v vs IH]; intros l n; simpl.
  - exists n. rewrite app_nil_r. apply evals_ret.
  - destruct (IH (l ++ [v]) (wrap_add u32_modulus n 1)) as [n' Hn]. exists n'.
    rewrite <-app_assoc in Hn. eapply evals_bind; [apply evals_queue_send|exact Hn].
Qed.

Lemma evals_receive_all vs l n os :
  evals (receive_all queue_chan (length vs)) (queue_mem (vs ++ l) n os) (Ok tt)
    (queue_mem l n (os ++ ((λ v, ("{}"%string, [v])) <$> vs))).
Proof.
  revert os. induction vs as [|v vs IH]; intros os; simpl.
  - rewrite app_nil_r. apply evals_ret.
  - eapply evals_bind; [apply evals_queue_receive|]. eapply evals_bind.
    + by apply (seval_sound 2).
    + simpl. specialize (IH (os ++ [("{}"%string, [v])])). by rewrite <-app_assoc in IH.
Qed.

(** C12. The channel of 05-01 gives back any list of messages in the order in which
    they were sent. *)
Theorem queue_roundtrip (vs : list val) o os :
  can_end (queue_trip vs) o os ↔ o = Ok tt ∧ os = (λ v, ("{}"%string, [v])) <$> vs.
Proof.
  destruct (evals_send_all vs [] 0 []) as [n Hs].
  pose proof (evals_receive_all vs [] n []) as Hr. rewrite app_nil_r in Hr.
  apply (evals_can_end (queue_trip vs) (Ok tt) (queue_mem [] n _)).
  - apply no_fork_bind; [no_fork_follow|]. intros c.
    apply no_fork_bind; intros; [apply no_fork_send_all|apply no_fork_receive_all].
  - eapply evals_bind; [by apply (seval_sound 100)|]. eapply evals_bind; [exact Hs|exact Hr].
Qed.

(** ** The two channels of 05-03 *)

(** The calls of a client, which prints what it sees and catches the panics of
    [send] and [receive]. *)
Inductive call : Type := Send (v : val) | IsReady | Receive.

Section calls.
Context `{I : OneshotImpl C}.

Definition perform (c : C) (x : call) : prog unit :=
  match x with
  | Send v => catch (os_send c v) (λ o,
      println (match o with Ok _ => "sent" | Panicked _ => "refused" end) [])
  | IsReady => b ← os_is_ready c; println "ready {}" [VInt (of_bool b)]
  | Receive => catch (os_receive c) (λ o,
      match o with Ok v => println "received {}" [v] | Panicked _ => println "nothing" [] end)
  end.

Fixpoint perform_all (c : C) (xs : list call) : prog unit :=
  match xs with [] => mret () | x :: xs => perform c x;; perform_all c xs end.

Definition client (xs : list call) : prog unit :=
  c ← os_default; perform_all c xs;; os_drop c.

Lemma no_fork_client xs :
  no_fork os_default → (∀ c v, no_fork (os_send c v)) → (∀ c, no_fork (os_is_ready c)) →
  (∀ c, no_fork (os_receive c)) → (∀ c, no_fork (os_drop c)) → no_fork (client xs).
Proof.
  intros Hn Hs Hi Hr Hd. apply no_fork_bind; [done|]. intros c.
  apply no_fork_bind; [|done]. induction xs as [|x xs IH]; [exact Logic.I|].
  apply no_fork_bind; [|done]. destruct x.
  - apply no_fork_catch; [done|]. no_fork_follow.
  - apply no_fork_bind; [done|]. no_fork_follow.
  - apply no_fork_catch; [done|]. no_fork_follow.
Qed.
End calls.

(** What a one-shot channel promises: one message, which is received once. *)
Inductive phase : Type := Empty | Full (v : val) | Taken (v : val).

Definition answer (x : call) (ph : phase) : phase * output :=
  match x, ph with
  | Send v, Empty => (Full v, ("sent"%string, []))
  | Send _, _ => (ph, ("refused"%string, []))
  | IsReady, Full _ => (ph, ("ready {}"%string, [VInt 1]))
  | IsReady, _ => (ph, ("ready {}"%string, [VInt 0]))
  | Receive, Full v => (Taken v, ("received {}"%string, [v]))
  | Receive, _ => (ph, ("nothing"%string, []))
  end.

Fixpoint answers (ph : phase) (xs : list call) : list output :=
  match xs with
  | [] => []
  | x :: xs => let '(ph', a) := answer x ph in a :: answers ph' xs
  end.

(** A message is a value of a type, so it is initialised. *)
Definition sendable (x : call) : Prop := match x with Send v => v ≠ VUninit | _ => True end.
Definition initialised (ph : phase) : Prop :=
  match ph with Full v => v ≠ VUninit | _ => True end.

(** An implementation answers so if its memory can represent the phases. *)
Lemma client_answers `{I : OneshotImpl C} (c : C) (rep : phase → list output → smem) xs :
  no_fork (client xs) → Forall sendable xs →
  evals os_default sinit (Ok c) (rep Empty []) →
  (∀ x ph os, sendable x → initialised ph →
    let '(ph', a) := answer x ph in
    evals (perform c x) (rep ph os) (Ok tt) (rep ph' (os ++ [a]))) →
  (∀ ph os, ∃ m, evals (os_drop c) (rep ph os) (Ok tt) m ∧ sout m = os) →
  ∀ o os, can_end (client xs) o os ↔ o = Ok tt ∧ os = answers Empty xs.
Proof.
  intros Hf Hxs Hnew Hdo Hdrop.
  assert (∀ ph os, initialised ph → ∃ ph',
    evals (perform_all c xs) (rep ph os) (Ok tt) (rep ph' (os ++ answers ph xs))) as Hall.
  { clear Hf Hnew. induction Hxs as [|x xs Hx _ IH]; intros ph os Hph; simpl.
    - exists ph. rewrite app_nil_r. apply evals_ret.
    - pose proof (Hdo x ph os Hx Hph) as H1. destruct (answer x ph) as [ph1 a] eqn:Ha.
      destruct (IH ph1 (os ++ [a])) as [ph2 H2]; [by destruct x, ph; simplify_eq/=|].
      exists ph2. rewrite <-app_assoc in H2. eapply evals_bind; [exact H1|exact H2]. }
  destruct (Hall Empty [] Logic.I) as [ph H1]. destruct (Hdrop ph (answers Empty xs)) as (m & H2 & <-).
  apply evals_can_end; [done|]. eapply evals_bind; [exact Hnew|].
  eapply evals_bind; [exact H1|exact H2].
Qed.

Definition checked_mem (ph : phase) (os : list output) : smem :=
  let content := match ph with Empty => VUninit | Full v | Taken v => v end in
  let used := match ph with Empty => 0%Z | _ => 1%Z end in
  let ready := match ph with Full _ => 1%Z | _ => 0%Z end in
  SMem (<[4%positive := SAtomic ready]> (<[3%positive := SAtomic used]>
    {[2%positive := SData content]})) os.

Definition single_mem (ph : phase) (os : list output) : smem :=
  let content := match ph with Empty => VUninit | Full v | Taken v => v end in
  let state := match ph with
    | Empty => Single.EMPTY | Full _ => Single.READY | Taken _ => Single.READING end in
  SMem (<[3%positive := SAtomic state]> {[2%positive := SData content]}) os.

Lemma checked_answers xs :
  Forall sendable xs →
  ∀ o os, can_end (client (I := Checked.impl) xs) o os ↔ o = Ok tt ∧ os = answers Empty xs.
Proof.
  intros Hxs. apply (client_answers (MkChecked 2 3 4) checked_mem); try done.
  - apply no_fork_client; no_fork_follow.
  - by apply (seval_sound 20).
  - intros x ph os Hx Hph. destruct x, ph; try (by apply (seval_sound 20)).
    destruct v; try done; by apply (seval_sound 20).
  - intros ph os. destruct ph; eexists; (split; [by apply (seval_sound 20)|done]).
Qed.

Lemma single_answers xs :
  Forall sendable xs →
  ∀ o os, can_end (client (I := Single.impl) xs) o os ↔ o = Ok tt ∧ os = answers Empty xs.
Proof.
  intros Hxs. apply (client_answers (Single.MkChannel 2 3) single_mem); try done.
  - apply no_fork_client; no_fork_follow.
  - by apply (seval_sound 20).
  - intros x ph os Hx Hph. destruct x, ph; try (by apply (seval_sound 20)).
    destruct v; try done; by apply (seval_sound 20).
  - intros ph os. destruct ph; eexists; (split; [by apply (seval_sound 20)|done]).
Qed.

(** C7. The channel of 05-03 with one state word is equivalent to the one with two
    flags: whatever a thread calls, in whatever order, [send], [is_ready] and
    [receive] answer alike, panics included, and as the abstract channel that
    holds one message. *)
Theorem channels_equivalent (xs : list call) (Hxs : Forall sendable xs) o os :
  (can_end (client (I := Checked.impl) xs) o os ↔ can_end (client (I := Single.impl) xs) o os) ∧
  (can_end (client (I := Single.impl) xs) o os ↔ o = Ok tt ∧ os = answers Empty xs).
Proof. rewrite checked_answers, single_answers; done. Qed.

Lemma channels_equivalent_witness :
  can_end (client (I := Single.impl) [Receive; Send (VInt 1); Send (VInt 2); IsReady; Receive; Receive])
    (Ok tt)
    [("nothing"%string, []); ("sent"%string, []); ("refused"%string, []);
     ("ready {}"%string, [VInt 1]); ("received {}"%string, [VInt 1]); ("nothing"%string, [])].
Proof.
  eapply channels_equivalent; [|done]. repeat constructor; discriminate.
Defined.
