(* ===== verification/SpinLock.v ===== *)
(** * The spin locks of chapter 4

    [Minimum] is 04-01_minimum-implementation.rs, [Unsafe] is
    04-02_unsafe-spin-lock.rs, [Guarded] is
    04-03_safe-interface-with-lock-guard.rs. *)

From iris.proofmode Require Import proofmode.
From iris.base_logic.lib Require Import invariants ghost_var token.
From S2P Require Import Prelude Memory Lang Logic Rules Interleaving Std LockWord.
From S2P Require Import LockApi Linearizable.

(** ** The minimal implementation *)

Module Minimum.

(** [SpinLock { locked: AtomicBool }] is the address of its only field. *)
Definition default : prog loc := atomic_new (of_bool false).

Definition lock (self : loc) : prog unit :=
  while_loop (
    r ← compare_exchange_weak self (of_bool false) (of_bool true) Acquire Relaxed;
    mret (is_err r)) spin_loop.

Definition unlock (self : loc) : prog unit := store_bool self false Release.

Definition main : prog unit :=
  lk ← default;
  lock lk;;
  sleep;;
  println "1 second passed in critical section" [];;
  unlock lk.

(** The lock with a plain value beside it. *)
#[export] Instance impl : LockImpl := {|
  lock_new v := w ← default; p ← new_cell v; mret (LockObj w p);
  lock_acquire x := lock (word x);
  lock_drop x := unlock (word x);
  lock_held v := v = 1%Z
|}.

Section proof.
Context `{!rustGS Σ, !lockG Σ}.

Lemma wpp_minimum_lock γ l N D R `{!ViewMono R} V Φ :
  D 1%Z → N ⊆ cur V →
  is_lock γ l N D R -∗
  (∀ V', ⌜V ⊆ V'⌝ -∗ locked γ l (cur V') -∗ R (cur V') -∗ Φ tt V') -∗
  wpp (lock l) V Φ.
Proof.
  iIntros (HD HN) "#Hlk HΦ".
  iApply (wpp_while (λ _, ∀ V', ⌜V ⊆ V'⌝ -∗ locked γ l (cur V') -∗ R (cur V') -∗ Φ tt V')%I
    with "[] HΦ").
  iIntros "!>" (V1 Hle1) "HΦ". do 2 iApply wpp_bind.
  iApply (wpp_acquire_cas with "Hlk"); [done|done|by etrans; [|apply Hle1]|].
  iIntros (v ok V2 Hle2 _) "Hres". iApply wpp_ret. iApply wpp_ret.
  destruct ok; simpl; [|by iApply wpp_ret].
  iDestruct "Hres" as "[Hlocked HR]". iApply ("HΦ" with "[%] Hlocked HR"). by etrans.
Qed.

#[global] Instance minimum_spec : LockSpec impl.
Proof.
  split.
  - iIntros (P v V Φ) "HP HΦ". by iApply (wpp_new_lock_obj with "HP").
  - iIntros (γ x P V Φ) "(%N & %HN & #Hlk) HΦ". iApply (wpp_minimum_lock with "Hlk"); [done..|].
    iIntros (V' Hle) "Hlocked HR". iApply ("HΦ" with "[//]"). iFrame.
  - iIntros (γ x P V Φ) "(%N & %HN & #Hlk) [Hlocked HR] HΦ".
    by iApply (wpp_release_store with "Hlk Hlocked HR").
Qed.

Lemma wpp_minimum_main V :
  printed [] -∗
  wpp main V (λ _ _, printed [("1 second passed in critical section"%string, [])]).
Proof.
  iIntros "Hp". iApply wpp_bind. iApply wpp_alloc_atomic. iIntros "!>" (l e) "Hl".
  set (V1 := observe _ _ V).
  iMod (is_lock_alloc lock_held (λ _, True)%I l _ (cur V1) with "Hl []") as (γ) "#Hlk";
    [set_solver|done|].
  iApply wpp_bind. iApply (wpp_minimum_lock with "Hlk"); [done..|].
  iIntros (V2 Hle2) "Hlocked _". iApply wpp_bind. iApply wpp_ret.
  iApply wpp_bind. iApply (wpp_println with "Hp"). iIntros "!> Hp".
  iApply (wpp_release_store with "Hlk Hlocked [//]"); [apply Hle2|].
  by iIntros (V' _).
Qed.
End proof.
End Minimum.

(** ** The unsafe interface *)

Module Unsafe.

(** [SpinLock<T> { locked: AtomicBool, value: UnsafeCell<T> }] *)
Definition new (v : val) : prog lock_obj :=
  locked ← atomic_new (of_bool false);
  value ← new_cell v;
  mret (LockObj locked value).

(** [lock] returns the [&mut T]: the address of the value. *)
Definition lock (self : lock_obj) : prog loc :=
  while_loop (swap_bool (word self) true Acquire) spin_loop;;
  mret (value self).

Definition unlock (self : lock_obj) : prog unit :=
  store_bool (word self) false Release.

Definition main : prog unit :=
  lk ← new (VInt 0);
  v ← lock lk;
  add_assign_i32 v 1;;
  unlock lk;;
  v ← lock lk;
  x ← read v;
  println "Value: {}" [x];;
  unlock lk.

#[export] Instance impl : LockImpl := {|
  lock_new := new;
  lock_acquire x := _ ← lock x; mret ();
  lock_drop := unlock;
  lock_held v := v = 1%Z
|}.

Section proof.
Context `{!rustGS Σ, !lockG Σ}.

Lemma wpp_spin γ x P V :
  is_mutex γ x (cur V) P -∗
  wpp (while_loop (swap_bool (word x) true Acquire) spin_loop) V
    (λ _ V', guard γ x (cur V') P).
Proof.
  iIntros "(%N & %HN & #Hlk)". iApply (wpp_while (λ _, True)%I with "[] [//]").
  iIntros "!>" (V1 Hle1) "_". iApply wpp_bind.
  iApply (wpp_acquire_swap with "Hlk"); [done|done|by etrans; [|apply Hle1]|].
  iIntros (v V2 Hle2 _) "Hres". iApply wpp_ret. rewrite /to_bool.
  destruct (v =? 0)%Z; simpl; [done|by iApply wpp_ret].
Qed.

Lemma wpp_unsafe_lock γ x P V Φ :
  is_mutex γ x (cur V) P -∗
  (∀ V', ⌜V ⊆ V'⌝ -∗ guard γ x (cur V') P -∗ Φ (value x) V') -∗
  wpp (lock x) V Φ.
Proof.
  iIntros "Hm HΦ". iApply wpp_bind. iApply (wpp_wand with "[Hm]").
  { by iApply (wpp_spin with "Hm"). }
  iIntros ([] V' Hle) "Hg". iApply wpp_ret. by iApply ("HΦ" with "[//]").
Qed.

#[global] Instance unsafe_spec : LockSpec impl.
Proof.
  split.
  - iIntros (P v V Φ) "HP HΦ". by iApply (wpp_new_lock_obj with "HP").
  - iIntros (γ x P V Φ) "Hm HΦ". iApply wpp_bind. iApply (wpp_unsafe_lock with "Hm").
    iIntros (V' Hle) "Hg". iApply wpp_ret. by iApply ("HΦ" with "[//]").
  - iIntros (γ x P V Φ) "(%N & %HN & #Hlk) [Hlocked HR] HΦ".
    by iApply (wpp_release_store with "Hlk Hlocked HR").
Qed.

(** The value is the number in a ghost variable of the main thread. *)
Definition known (γ : gname) (v : val) : iProp Σ :=
  ∃ n : nat, ⌜v = VInt (Z.of_nat n)⌝ ∗ ghost_var γ (1/2) n.

Lemma wpp_unsafe_main V :
  printed [] -∗ wpp main V (λ _ _, printed [("Value: {}"%string, [VInt 1])]).
Proof.
  iIntros "Hp". iMod (ghost_var_alloc 0) as (γn) "[Hn Hn']".
  iApply wpp_bind. iApply (wpp_new_lock_obj (known γn) with "[Hn']").
  { iExists 0. by iFrame. }
  iIntros (γ x V1 Hle1) "#Hm". iApply wpp_bind. iApply (wpp_unsafe_lock with "Hm").
  iIntros (V2 Hle2) "[Hlocked (%v & Hv & %n & -> & Hn')]".
  iDestruct (ghost_var_agree with "Hn Hn'") as %<-.
  iApply wpp_bind. iApply (wpp_add_assign_i32 with "Hv"); [done|].
  iIntros (V3 Hle3) "Hv".
  iMod (ghost_var_update_halves 1 with "Hn Hn'") as "[Hn Hn']".
  assert (V1 ⊆ V3) as Hle13 by (by etrans).
  iApply wpp_bind. iApply (lock_drop_spec (I := impl) with "[] [Hlocked Hv Hn']").
  { iApply (is_mutex_mono with "Hm"). apply Hle13. }
  { iSplitL "Hlocked"; [iApply (locked_mono with "Hlocked"); apply Hle3|].
    iExists _. iFrame "Hv". iExists 1. by iFrame. }
  iIntros (V4 Hle4). iApply wpp_bind. iApply (wpp_unsafe_lock with "[]").
  { iApply (is_mutex_mono with "Hm"). etrans; [apply Hle13|apply Hle4]. }
  iIntros (V5 Hle5) "[Hlocked (%v & Hv & %n & -> & Hn')]".
  iDestruct (ghost_var_agree with "Hn Hn'") as %<-.
  iApply wpp_bind. iApply (wpp_read with "Hv"). iIntros "!>" (V6 Hle6) "Hv".
  iApply wpp_bind. iApply (wpp_println with "Hp"). iIntros "!> Hp".
  iApply (lock_drop_spec (I := impl) with "[] [Hlocked Hv Hn']").
  { iApply (is_mutex_mono with "Hm").
    etrans; [apply Hle13|]. etrans; [apply Hle4|]. etrans; [apply Hle5|apply Hle6]. }
  { iSplitL "Hlocked"; [iApply (locked_mono with "Hlocked"); apply Hle6|].
    iExists _. iFrame "Hv". iExists 1. by iFrame. }
  by iIntros (V7 _).
Qed.
End proof.
End Unsafe.

(** ** The guard *)

Module Guarded.

Definition new (v : val) : prog lock_obj :=
  locked ← atomic_new (of_bool false);
  value ← new_cell v;
  mret (LockObj locked value).

(** [Guard<'a, T> { lock: &'a SpinLock<T> }] *)
Record Guard : Type := MkGuard { guard_lock : lock_obj }.

Definition lock (self : lock_obj) : prog Guard :=
  while_loop (swap_bool (word self) true Acquire) spin_loop;;
  mret (MkGuard self).

(** The references that [Deref] and [DerefMut] hand out. *)
Definition deref (self : Guard) : loc := value (guard_lock self).
Definition deref_mut (self : Guard) : loc := value (guard_lock self).

Definition drop (self : Guard) : prog unit :=
  store_bool (word (guard_lock self)) false Release.

#[export] Instance impl : LockImpl := {|
  lock_new := new;
  lock_acquire x := _ ← lock x; mret ();
  lock_drop x := drop (MkGuard x);
  lock_held v := v = 1%Z
|}.

(** [guard.as_slice().contains(&x)] *)
Definition contains (g : Guard) (x : Z) : prog bool :=
  l ← read_list (deref g);
  mret (bool_decide (VInt x ∈ l)).

Definition main : prog unit :=
  x ← new (VList []);
  let g := MkGuard x in
  scope [
    with_guard x (vec_push (deref_mut g) (VInt 1));
    with_guard x (
      vec_push (deref_mut g) (VInt 2);;
      vec_push (deref_mut g) (VInt 3))
  ] (mret ());;
  with_guard x (
    b1 ← contains g 1;
    assert b1 "assertion failed: guard.as_slice().contains(&1)";;
    b2 ← contains g 2;
    assert b2 "assertion failed: guard.as_slice().contains(&2)";;
    b3 ← contains g 3;
    assert b3 "assertion failed: guard.as_slice().contains(&3)").

Section proof.
Context `{!rustGS Σ, !lockG Σ, !tokenG Σ}.

#[global] Instance guarded_spec : LockSpec impl.
Proof.
  split.
  - iIntros (P v V Φ) "HP HΦ". by iApply (wpp_new_lock_obj with "HP").
  - iIntros (γ x P V Φ) "#Hm HΦ". do 2 iApply wpp_bind.
    iApply (wpp_wand with "[]").
    { by iApply (Unsafe.wpp_spin with "Hm"). }
    iIntros ([] V' Hle) "Hg". iApply wpp_ret. iApply wpp_ret.
    by iApply ("HΦ" with "[//]").
  - iIntros (γ x P V Φ) "(%N & %HN & #Hlk) [Hlocked HR] HΦ".
    by iApply (wpp_release_store with "Hlk Hlocked HR").
Qed.

(** What the two threads have pushed so far. *)
Definition pushed (γ1 γ2 : gname) (v : val) : iProp Σ :=
  ∃ vs (a b : nat), ⌜v = VList vs⌝ ∗
    ghost_var γ1 (1/2) a ∗ ⌜a = 1 → VInt 1 ∈ vs⌝ ∗
    ghost_var γ2 (1/2) b ∗ ⌜b = 1 → VInt 2 ∈ vs ∧ VInt 3 ∈ vs⌝.

Lemma wpp_push_1 γ x γ1 γ2 V :
  is_mutex γ x (cur V) (pushed γ1 γ2) -∗ ghost_var γ1 (1/2) 0 -∗
  wpp (with_guard x (vec_push (deref_mut (MkGuard x)) (VInt 1))) V
    (λ _ _, ghost_var γ1 (1/2) 1).
Proof.
  iIntros "#Hm Hγ1". iApply (wpp_with_guard with "Hm").
  iIntros (v V1 Hle1) "Hv (%vs & %a & %b & -> & H1 & _ & H2 & %H23)".
  iMod (ghost_var_update_halves 1 with "H1 Hγ1") as "[H1 Hγ1]".
  iApply (wpp_vec_push with "Hv"). iIntros (V2 Hle2) "Hv".
  iExists _. iFrame "Hv". iSplitR "Hγ1"; [|by iIntros (V3 _)].
  iExists _, _, _. iFrame. iPureIntro. split; [done|]. set_solver.
Qed.

Lemma wpp_push_23 γ x γ1 γ2 V :
  is_mutex γ x (cur V) (pushed γ1 γ2) -∗ ghost_var γ2 (1/2) 0 -∗
  wpp (with_guard x (
    vec_push (deref_mut (MkGuard x)) (VInt 2);;
    vec_push (deref_mut (MkGuard x)) (VInt 3))) V
    (λ _ _, ghost_var γ2 (1/2) 1).
Proof.
  iIntros "#Hm Hγ2". iApply (wpp_with_guard with "Hm").
  iIntros (v V1 Hle1) "Hv (%vs & %a & %b & -> & H1 & %Ha & H2 & _)".
  iMod (ghost_var_update_halves 1 with "H2 Hγ2") as "[H2 Hγ2]".
  iApply wpp_bind. iApply (wpp_vec_push with "Hv"). iIntros (V2 Hle2) "Hv".
  iApply (wpp_vec_push with "Hv"). iIntros (V3 Hle3) "Hv".
  iExists _. iFrame "Hv". iSplitR "Hγ2"; [|by iIntros (V4 _)].
  iExists _, _, _. iFrame. iPureIntro. split; [done|]. set_solver.
Qed.

Lemma wpp_contains g x vs V Φ :
  VInt x ∈ vs →
  own_na (deref g) (VList vs) (cur V) -∗
  (∀ V', ⌜V ⊆ V'⌝ -∗ own_na (deref g) (VList vs) (cur V') -∗ Φ true V') -∗
  wpp (contains g x) V Φ.
Proof.
  iIntros (Hx) "Hv HΦ". iApply wpp_bind. iApply (wpp_read_list with "Hv").
  iIntros (V' Hle) "Hv". iApply wpp_ret. rewrite bool_decide_eq_true_2 //.
  by iApply ("HΦ" with "[//]").
Qed.

Lemma wpp_guarded_main V : ⊢ wpp main V (λ _ _, True).
Proof.
  iMod (ghost_var_alloc 0) as (γ1) "[H1 H1']".
  iMod (ghost_var_alloc 0) as (γ2) "[H2 H2']".
  iApply wpp_bind. iApply (wpp_new_lock_obj (pushed γ1 γ2) with "[H1' H2']").
  { iExists [], 0, 0. iFrame. done. }
  iIntros (γ x V1 Hle1) "#Hm". iApply wpp_bind.
  iApply (wpp_scope [(_, γ1); (_, γ2)] fst _ (λ c _, ghost_var c.2 (1/2) 1)
    (λ _ _, True)%I with "[H1 H2] []"); simpl.
  { iSplitL "H1"; [|iSplit; [|done]]; iIntros (V' Hle).
    - iApply (wpp_push_1 with "[] H1"). by iApply (is_mutex_mono with "Hm").
    - iApply (wpp_push_23 with "[] H2"). by iApply (is_mutex_mono with "Hm"). }
  { iIntros (V' _). by iApply wpp_ret. }
  iIntros ([] V2 V3 Hle2 Hle3) "_ (H1 & H2 & _)".
  iApply (wpp_with_guard with "[]").
  { iApply (is_mutex_mono with "Hm"). etrans; [apply Hle2|apply Hle3]. }
  iIntros (v V4 Hle4) "Hv (%vs & %a & %b & -> & H1' & %Ha & H2' & %Hb)".
  iDestruct (ghost_var_agree with "H1 H1'") as %<-.
  iDestruct (ghost_var_agree with "H2 H2'") as %<-.
  destruct (Hb eq_refl) as [Hin2 Hin3]. specialize (Ha eq_refl).
  iApply wpp_bind. iApply (wpp_contains (MkGuard x) with "Hv"); [done|]. iIntros (V5 _) "Hv".
  iApply wpp_bind. iApply wpp_ret.
  iApply wpp_bind. iApply (wpp_contains (MkGuard x) with "Hv"); [done|]. iIntros (V6 _) "Hv".
  iApply wpp_bind. iApply wpp_ret.
  iApply wpp_bind. iApply (wpp_contains (MkGuard x) with "Hv"); [done|]. iIntros (V7 _) "Hv".
  iApply wpp_ret. iExists _. iFrame "Hv". iSplitL; [|by iIntros (V8 _)].
  iExists _, _, _. iFrame. by eauto.
Qed.
End proof.
End Guarded.

(** ** What the programs do *)

(** The [main] of 04-01: however the threads are scheduled and
    whatever the memory model allows, the program has no undefined behaviour,
    does not panic, and when it returns it has printed its line once. *)
Theorem minimum_main_safe :
  safe Minimum.main (λ _, True) (λ o σ, o = Ok tt ∧
    out σ = [("1 second passed in critical section"%string, [])]).
Proof.
  apply (safe_no_panic #[rustΣ; lockΣ] _ (λ os, os = _)). iIntros (?) "Hp _".
  iApply (wpp_wand with "[Hp]"); [by iApply (Minimum.wpp_minimum_main with "Hp")|].
  iIntros ([] V _) "Hp". iExists _. by iFrame.
Qed.

(** The [main] of 04-02: no data race, no panic, and the value
    printed under the second lock is the one written under the first. *)
Theorem unsafe_main_safe :
  safe Unsafe.main (λ _, True) (λ o σ, o = Ok tt ∧
    out σ = [("Value: {}"%string, [VInt 1])]).
Proof.
  apply (safe_no_panic #[rustΣ; lockΣ] _ (λ os, os = _)). iIntros (?) "Hp _".
  iApply (wpp_wand with "[Hp]"); [by iApply (Unsafe.wpp_unsafe_main with "Hp")|].
  iIntros ([] V _) "Hp". iExists _. by iFrame.
Qed.

(** The [main] of 04-03: the pushes of the two threads do not
    race, and the three assertions on the vector hold. *)
Theorem guarded_main_safe :
  safe Guarded.main (λ _, True) (λ o σ, o = Ok tt ∧ out σ = []).
Proof.
  apply (safe_no_panic #[rustΣ; lockΣ; tokenΣ] _ (λ os, os = _)). iIntros (?) "Hp _".
  iApply (wpp_wand with "[]"); [by iApply Guarded.wpp_guarded_main|].
  iIntros ([] V _) "_". iExists _. by iFrame.
Qed.

(** C9. Refinement of a sequential object by the spin lock of 04-03:
    whatever updates the threads make, each under its own guard, the final
    value is the one that some interleaving of the updates computes. *)
Theorem spinlock_linearizable v0 fss :
  safe (client (H := Guarded.impl) v0 fss) (λ _, True) (λ o σ, o = Ok tt ∧ ∃ log,
    interleaving fss log ∧ out σ = [("{}"%string, [replay v0 log])]).
Proof. apply client_safe. intros Σ ??. apply _. Qed.
