(* ===== verification/Futex.v ===== *)
(** * Futexes

    The operations [wait] and [wake_one], on which the mutexes of chapter 9 are
    built, as an interface, and 08-03-01_futex.rs, which implements them with
    the system call of Linux.  The system call is a parameter. *)

From iris.proofmode Require Import proofmode.
From iris.base_logic.lib Require Import invariants token.
From S2P Require Import Prelude Memory Lang Runs Logic Rules Std Monotone.

(** ** The interface, as the crate [atomic_wait] has it *)

Class Futex : Type := {
  wait : loc → Z → prog unit;
  wake_one : loc → prog unit
}.

(** Shared access to the atomic [l], good for looking at it at any time. *)
Definition atomic_access `{!rustGS Σ} (l : loc) (W : view) : iProp Σ :=
  □ |={⊤,∅}=> ∃ h N A, ▷ l ↦ CAtomic h N A ∗ ⌜N ⊆ W⌝ ∗ ⌜h ≠ ∅⌝ ∗
      ▷ ∀ A', l ↦ CAtomic h N A' ={∅,⊤}=∗ True.

(** What its documentation says, for safety: [wait] looks at the atomic, does
    not write to it, and may return at any time; [wake_one] does not use
    the atomic, only its address. *)
Class FutexSpec `{!rustGS Σ} (F : Futex) : Prop := {
  wait_spec l v V (Φ : unit → tview → iProp Σ) :
    atomic_access l (cur V) -∗ (∀ V', ⌜V ⊆ V'⌝ -∗ Φ tt V') -∗ wpp (wait l v) V Φ;
  wake_one_spec l V (Φ : unit → tview → iProp Σ) :
    (∀ V', ⌜V ⊆ V'⌝ -∗ Φ tt V') -∗ wpp (wake_one l) V Φ
}.

Definition futex_documented (F : Futex) : Prop := ∀ Σ `{!rustGS Σ}, FutexSpec F.

(** A futex that meets it: [wait] polls the value and may return spuriously. *)
Definition polling_wait (l : loc) (v : Z) : prog unit :=
  loop (λ _ : unit, x ← load l Relaxed; spurious ← act OInput;
    mret (if (x =? v)%Z && (spurious =? 0)%Z then inl () else inr ())) ().
Definition polling : Futex := {| wait := polling_wait; wake_one _ := mret () |}.

Lemma polling_documented : futex_documented polling.
Proof.
  intros Σ ?. split.
  - iIntros (l v V Φ) "#Hl HΦ".
    iApply (wpp_loop (λ _ _, ∀ V', ⌜V ⊆ V'⌝ -∗ Φ tt V')%I with "[] HΦ").
    iIntros "!>" ([] V1 Hle1) "HΦ". iApply wpp_bind. iApply wpp_load_inv; [done|].
    iMod "Hl" as (h N A) "(Hl' & % & % & Hclose)". iModIntro. iExists h, N, A.
    iFrame "Hl'". iSplit; [iPureIntro; etrans; [done|apply Hle1]|]. iSplit; [done|].
    iIntros "!>" (t m e Hm Hc) "Hl'". iMod ("Hclose" with "Hl'") as "_". iModIntro.
    iApply wpp_bind. iApply wpp_input. iIntros "!>" (z). iApply wpp_ret.
    destruct (_ && _); simpl; [done|]. iApply "HΦ". iPureIntro.
    etrans; [done|apply load_view_le].
  - iIntros (l V Φ) "HΦ". iApply wpp_ret. by iApply "HΦ".
Qed.

(** ** The system call *)

Inductive futex_op : Type := FUTEX_WAIT | FUTEX_WAKE.

(** [libc::syscall(SYS_futex, a, op, val, ..)], whose result is not used. *)
Class Kernel : Type := { sys_futex : loc → futex_op → Z → prog unit }.

(** The manual page, for safety: [FUTEX_WAIT] compares the value at the address
    and returns when it differs, when the thread is woken, or by a signal;
    [FUTEX_WAKE] only uses the address. *)
Class KernelSpec `{!rustGS Σ} (K : Kernel) : Prop := {
  futex_wait_spec l v V (Φ : unit → tview → iProp Σ) :
    atomic_access l (cur V) -∗ (∀ V', ⌜V ⊆ V'⌝ -∗ Φ tt V') -∗
    wpp (sys_futex l FUTEX_WAIT v) V Φ;
  futex_wake_spec l n V (Φ : unit → tview → iProp Σ) :
    (∀ V', ⌜V ⊆ V'⌝ -∗ Φ tt V') -∗ wpp (sys_futex l FUTEX_WAKE n) V Φ
}.
Definition kernel_documented (K : Kernel) : Prop := ∀ Σ `{!rustGS Σ}, KernelSpec K.

(** ** 08-03-01_futex.rs *)

Module LinuxFutex.
Section code.
Context {K : Kernel}.

Definition wait (a : loc) (expected : Z) : prog unit := sys_futex a FUTEX_WAIT expected.
Definition wake_one (a : loc) : prog unit := sys_futex a FUTEX_WAKE 1.

Definition main : prog unit :=
  a ← atomic_new 0;
  scope [sleep;; store a 1 Relaxed;; wake_one a]
    (println "Waiting..." [];;
     while_loop (v ← load a Relaxed; mret (v =? 0)%Z) (wait a 0);;
     println "Done!" []).
End code.
End LinuxFutex.

Definition linux_futex `{Kernel} : Futex :=
  {| wait := LinuxFutex.wait; wake_one := LinuxFutex.wake_one |}.

(** A kernel that meets its description. *)
Definition polling_kernel : Kernel :=
  {| sys_futex l op v := match op with FUTEX_WAIT => polling_wait l v | FUTEX_WAKE => mret () end |}.

Lemma polling_kernel_documented : kernel_documented polling_kernel.
Proof.
  intros Σ ?. destruct (polling_documented Σ _) as [Hwait Hwake]. split; [exact Hwait|].
  intros l n V Φ. exact (Hwake l V Φ).
Qed.

(** [wait] and [wake_one] of 08-03-01 do what the interface asks for, so the
    mutexes of chapter 9 can use them. *)
Theorem linux_futex_implements (K : Kernel) (HK : kernel_documented K) :
  futex_documented linux_futex.
Proof.
  intros Σ ?. destruct (HK Σ _) as [Hwait Hwake]. split; [exact Hwait|].
  intros l V Φ. exact (Hwake l 1%Z V Φ).
Qed.

Lemma linux_futex_implements_witness : futex_documented (@linux_futex polling_kernel).
Proof. apply (linux_futex_implements polling_kernel). apply polling_kernel_documented. Defined.

Section main.
Context `{!rustGS Σ, !monoG Σ, !tokenG Σ, K : Kernel, !KernelSpec K}.

Lemma is_mono_access (D : Z → iProp Σ) X `{!∀ h, Timeless (X h), !∀ v, Timeless (D v)} γ l W :
  is_mono D X γ l W -∗ atomic_access l W.
Proof.
  iIntros "(%N & %HN & #Hinv) !>".
  iInv "Hinv" as (h A) "(>Hl & >Hγ & >%Hne & >%Hr & >Hm & >HX)" "Hclose".
  iApply fupd_mask_intro; [set_solver|]. iIntros "Hmask". iExists h, N, A. iFrame "Hl".
  do 2 (iSplit; [done|]). iIntros "!>" (A') "Hl". iMod "Hmask" as "_". iApply "Hclose".
  iExists h, A'. by iFrame.
Qed.

Lemma wpp_wait_loop γ γw a V Φ :
  is_mono (λ _, True)%I (last_store γw) γ a (cur V) -∗ seen γ a 0 (cur V) -∗
  (∀ V', Φ tt V') -∗
  wpp (while_loop (v ← load a Relaxed; mret (v =? 0)%Z) (LinuxFutex.wait a 0)) V Φ.
Proof.
  iIntros "#Ha #Hs HΦ". iApply (wpp_while (λ _, ∀ V', Φ tt V')%I with "[] HΦ").
  iIntros "!>" (V1 Hle1) "HΦ". iApply wpp_bind.
  iApply (wpp_mono_load (λ _, True)%I (last_store γw) γ a _ 0 with "[] []"); [done| | |].
  - iApply (is_mono_mono with "Ha"). apply Hle1.
  - iApply (seen_mono with "Hs"). apply Hle1.
  - iIntros (v V2 Hle2 _) "_ _". iApply wpp_ret. destruct (v =? 0)%Z; [|iApply "HΦ"].
    iApply futex_wait_spec; [|by iIntros].
    iApply (is_mono_access (λ _, True)%I (last_store γw)). iApply (is_mono_mono with "Ha").
    etrans; [apply Hle1|apply Hle2].
Qed.
End main.


