(* ===== verification/FutexMutex.v ===== *)
(** * The mutexes of chapter 9

    [Simple] is 09-01_mutex.rs, [Avoiding] is 09-01-01_avoiding-system-call.rs,
    [Spinning] is 09-01-02_further-improvements.rs and 09-01-03_benchmark.rs,
    whose code is the same.  They block with [wait] and [wake_one] of the crate
    [atomic_wait], which are parameters here. *)

From iris.proofmode Require Import proofmode.
From iris.base_logic.lib Require Import invariants ghost_var token.
From S2P Require Import Prelude Memory Lang Logic Rules Interleaving Std LockWord.
From S2P Require Import Futex LockApi Linearizable.

Section futex.
Context `{!rustGS Σ, !lockG Σ, F : Futex, !FutexSpec F}.

(** Waiting on a lock word. *)
Lemma is_lock_access γ l N D R W : N ⊆ W → is_lock γ l N D R -∗ atomic_access l W.
Proof.
  rewrite /is_lock. iIntros (HN) "#Hinv !>".
  iInv "Hinv" as (h N0 A tm m) "(>Hl & >%HN0 & >%Hnew & >%Hm & >%Hz & >%Hd & Hst)" "Hclose".
  iApply fupd_mask_intro; [set_solver|]. iIntros "Hmask". iExists h, N0, A.
  iFrame "Hl". iSplit; [iPureIntro; by etrans|]. iSplit.
  { iPureIntro. intros ->. by rewrite lookup_empty in Hm. }
  iIntros "!>" (A') "Hl". iMod "Hmask" as "_". iApply "Hclose".
  iExists _, _, _, _, _. by iFrame.
Qed.

Lemma wpp_lock_wait γ l N D R v V Φ :
  N ⊆ cur V →
  is_lock γ l N D R -∗ (∀ V', ⌜V ⊆ V'⌝ -∗ Φ tt V') -∗ wpp (wait l v) V Φ.
Proof.
  iIntros (HN) "#Hlk HΦ". iApply (wait_spec with "[] HΦ").
  by iApply (is_lock_access with "Hlk").
Qed.

(** The waiting loop of the three mutexes: swap in [z] until the word was
    free. *)
Lemma wpp_swap_wait γ l N D R `{!ViewMono R} z (again : Z → bool) V :
  z ≠ 0%Z → D z → (∀ v, v = 0%Z ∨ D v → again v = negb (v =? 0)%Z) → N ⊆ cur V →
  is_lock γ l N D R -∗
  wpp (while_loop (v ← swap l z Acquire; mret (again v)) (wait l z)) V
    (λ _ V', locked γ l (cur V') ∗ R (cur V')).
Proof.
  iIntros (Hz HD Hag HN) "#Hlk". iApply (wpp_while (λ _, True)%I with "[] [//]").
  iIntros "!>" (V1 Hle1) "_". assert (N ⊆ cur V1) by (by etrans; [|apply Hle1]).
  iApply wpp_bind. iApply (wpp_acquire_swap with "Hlk"); [done..|].
  iIntros (v V2 Hle2 Hv) "Hres". iApply wpp_ret. rewrite Hag //.
  destruct (v =? 0)%Z; simpl; [done|].
  iApply (wpp_lock_wait with "Hlk"); [by etrans; [|apply Hle2]|]. by iIntros (V3 _).
Qed.
End futex.

(** ** 09-01: two states *)

Module Simple.
Section code.
Context `{Futex}.

(** [Mutex<T> { state: AtomicU32, value: UnsafeCell<T> }] *)
Definition new (v : val) : prog lock_obj :=
  state ← atomic_new 0;
  value ← new_cell v;
  mret (LockObj state value).

(** [MutexGuard<'a, T> { mutex: &'a Mutex<T> }] *)
Record MutexGuard : Type := MkMutexGuard { mutex : lock_obj }.

Definition deref (self : MutexGuard) : loc := value (mutex self).
Definition deref_mut (self : MutexGuard) : loc := value (mutex self).

Definition lock (self : lock_obj) : prog MutexGuard :=
  while_loop (v ← swap (word self) 1 Acquire; mret (v =? 1)%Z) (wait (word self) 1);;
  mret (MkMutexGuard self).

Definition drop (self : MutexGuard) : prog unit :=
  _ ← swap (word (mutex self)) 0 Release;
  wake_one (word (mutex self)).

#[export] Instance impl : LockImpl := {|
  lock_new := new;
  lock_acquire x := _ ← lock x; mret ();
  lock_drop x := drop (MkMutexGuard x);
  lock_held v := v = 1%Z
|}.

Definition main : prog unit := bench 4 (Z.to_nat 5000000).
End code.

#[global] Instance simple_spec `{!rustGS Σ, !lockG Σ, F : Futex, !FutexSpec F} :
  LockSpec impl.
Proof.
  split.
  - iIntros (P v V Φ) "HP HΦ". by iApply (wpp_new_lock_obj with "HP").
  - iIntros (γ x P V Φ) "(%N & %HN & #Hlk) HΦ". do 2 iApply wpp_bind.
    iApply (wpp_wand with "[]").
    { iApply (wpp_swap_wait with "Hlk"); [done..| |done]. by intros v [->| ->]. }
    iIntros ([] V' Hle) "[Hl HR]". iApply wpp_ret. iApply wpp_ret.
    iApply ("HΦ" with "[//]"). iFrame.
  - iIntros (γ x P V Φ) "(%N & %HN & #Hlk) [Hl HR] HΦ". iApply wpp_bind.
    iApply (wpp_release_swap with "Hlk Hl HR"); [done|]. iIntros (v V1 Hle1 _).
    iApply wake_one_spec. iIntros (V2 Hle2). iApply "HΦ". iPureIntro. by etrans.
Qed.
End Simple.

(** ** 09-01-01: no system call without waiters *)

Module Avoiding.
Section code.
Context `{Futex}.

Definition new (v : val) : prog lock_obj :=
  state ← atomic_new 0;
  value ← new_cell v;
  mret (LockObj state value).

Record MutexGuard : Type := MkMutexGuard { mutex : lock_obj }.

Definition deref (self : MutexGuard) : loc := value (mutex self).
Definition deref_mut (self : MutexGuard) : loc := value (mutex self).

Definition lock (self : lock_obj) : prog MutexGuard :=
  r ← compare_exchange (word self) 0 1 Acquire Relaxed;
  (if is_err r then
     while_loop (v ← swap (word self) 2 Acquire; mret (negb (v =? 0)%Z))
       (wait (word self) 2)
   else mret ());;
  mret (MkMutexGuard self).

Definition drop (self : MutexGuard) : prog unit :=
  v ← swap (word (mutex self)) 0 Release;
  if (v =? 2)%Z then wake_one (word (mutex self)) else mret ().

#[export] Instance impl : LockImpl := {|
  lock_new := new;
  lock_acquire x := _ ← lock x; mret ();
  lock_drop x := drop (MkMutexGuard x);
  lock_held v := v = 1%Z ∨ v = 2%Z
|}.

Definition main : prog unit := bench 4 (Z.to_nat 5000000).
End code.

(** The release, shared with the next version. *)
Lemma wpp_drop `{!rustGS Σ, !lockG Σ, F : Futex, !FutexSpec F} γ l (N : view) (D : Z → Prop)
    (R : view → iProp Σ) `{!ViewMono R} V Φ :
  N ⊆ cur V →
  is_lock γ l N D R -∗ locked γ l (cur V) -∗ R (cur V) -∗
  (∀ V', ⌜V ⊆ V'⌝ -∗ Φ tt V') -∗
  wpp (v ← swap l 0 Release; if (v =? 2)%Z then wake_one l else mret ()) V Φ.
Proof.
  iIntros (HN) "#Hlk Hl HR HΦ". iApply wpp_bind.
  iApply (wpp_release_swap with "Hlk Hl HR"); [done|]. iIntros (v V1 Hle1 _).
  case_match; [|by iApply wpp_ret; iApply "HΦ"].
  iApply wake_one_spec. iIntros (V2 Hle2). iApply "HΦ". iPureIntro. by etrans.
Qed.

#[global] Instance avoiding_spec `{!rustGS Σ, !lockG Σ, F : Futex, !FutexSpec F} :
  LockSpec impl.
Proof.
  split.
  - iIntros (P v V Φ) "HP HΦ". by iApply (wpp_new_lock_obj with "HP").
  - iIntros (γ x P V Φ) "(%N & %HN & #Hlk) HΦ". do 3 iApply wpp_bind.
    iApply (wpp_acquire_cas with "Hlk"); [done|by left|done|].
    iIntros (v ok V1 Hle1 _) "Hres". iApply wpp_ret. iApply wpp_bind.
    destruct ok; simpl.
    { iApply wpp_ret. iApply wpp_ret. iApply wpp_ret. iApply ("HΦ" with "[//]"). iFrame. }
    iApply (wpp_wand with "[]").
    { iApply (wpp_swap_wait with "Hlk"); [done|by right|done|by etrans; [|apply Hle1]]. }
    iIntros ([] V2 Hle2) "[Hl HR]". iApply wpp_ret. iApply wpp_ret.
    iApply ("HΦ" with "[%]"); [by etrans|]. iFrame.
  - iIntros (γ x P V Φ) "(%N & %HN & #Hlk) [Hl HR] HΦ".
    by iApply (wpp_drop with "Hlk Hl HR").
Qed.
End Avoiding.

(** ** 09-01-02 and 09-01-03: spin before waiting *)

Module Spinning.
Section code.
Context `{Futex}.

Definition new (v : val) : prog lock_obj :=
  state ← atomic_new 0;
  value ← new_cell v;
  mret (LockObj state value).

Record MutexGuard : Type := MkMutexGuard { mutex : lock_obj }.

Definition deref (self : MutexGuard) : loc := value (mutex self).
Definition deref_mut (self : MutexGuard) : loc := value (mutex self).

(** The [while] loop of [lock_contented] that spins. *)
Definition spin (state : loc) (spin_count : Z) : prog unit :=
  loop (λ spin_count : Z,
    v ← load state Relaxed;
    if (v =? 1)%Z && (spin_count <? 100)%Z then
      spin_loop;; mret (inl (spin_count + 1)%Z)
    else mret (inr ())) spin_count.

Definition lock_contented (state : loc) : prog unit :=
  spin state 0;;
  r ← compare_exchange state 0 1 Acquire Relaxed;
  if is_ok r then mret ()
  else while_loop (v ← swap state 2 Acquire; mret (negb (v =? 0)%Z)) (wait state 2).

Definition lock (self : lock_obj) : prog MutexGuard :=
  r ← compare_exchange (word self) 0 1 Acquire Relaxed;
  (if is_err r then lock_contented (word self) else mret ());;
  mret (MkMutexGuard self).

Definition drop (self : MutexGuard) : prog unit :=
  v ← swap (word (mutex self)) 0 Release;
  if (v =? 2)%Z then wake_one (word (mutex self)) else mret ().

#[export] Instance impl : LockImpl := {|
  lock_new := new;
  lock_acquire x := _ ← lock x; mret ();
  lock_drop x := drop (MkMutexGuard x);
  lock_held v := v = 1%Z ∨ v = 2%Z
|}.

Definition main : prog unit := bench 4 (Z.to_nat 5000000).
End code.

Section proof.
Context `{!rustGS Σ, !lockG Σ, F : Futex, !FutexSpec F}.

Lemma wpp_lock_contented γ l (N : view) (D : Z → Prop) (R : view → iProp Σ) `{!ViewMono R} V :
  D 1%Z → D 2%Z → N ⊆ cur V →
  is_lock γ l N D R -∗
  wpp (lock_contented l) V (λ _ V', locked γ l (cur V') ∗ R (cur V')).
Proof.
  iIntros (H1 H2 HN) "#Hlk". iApply wpp_bind.
  iApply (wpp_loop (λ _ _, True)%I with "[] [//]").
  iIntros "!>" (n V1 Hle1) "_". assert (N ⊆ cur V1) by (by etrans; [|apply Hle1]).
  iApply wpp_bind. iApply (wpp_lock_load with "Hlk"); [done..|].
  iIntros (v V2 Hle2 _). assert (N ⊆ cur V2) by (by etrans; [|apply Hle2]).
  destruct (_ && _).
  { iApply wpp_bind. iApply wpp_ret. by iApply wpp_ret. }
  iApply wpp_ret. do 2 iApply wpp_bind. iApply (wpp_acquire_cas with "Hlk"); [done..|].
  iIntros (w ok V3 Hle3 _) "Hres". iApply wpp_ret.
  destruct ok; simpl; [by iApply wpp_ret|].
  iApply (wpp_swap_wait with "Hlk"); [done..|by etrans; [|apply Hle3]].
Qed.

#[global] Instance spinning_spec : LockSpec impl.
Proof.
  split.
  - iIntros (P v V Φ) "HP HΦ". by iApply (wpp_new_lock_obj with "HP").
  - iIntros (γ x P V Φ) "(%N & %HN & #Hlk) HΦ". do 3 iApply wpp_bind.
    iApply (wpp_acquire_cas with "Hlk"); [done|by left|done|].
    iIntros (v ok V1 Hle1 _) "Hres". iApply wpp_ret. iApply wpp_bind.
    destruct ok; simpl.
    { iApply wpp_ret. iApply wpp_ret. iApply wpp_ret. iApply ("HΦ" with "[//]"). iFrame. }
    iApply (wpp_wand with "[]").
    { iApply (wpp_lock_contented with "Hlk"); [by left|by right|by etrans; [|apply Hle1]]. }
    iIntros ([] V2 Hle2) "[Hl HR]". iApply wpp_ret. iApply wpp_ret.
    iApply ("HΦ" with "[%]"); [by etrans|]. iFrame.
  - iIntros (γ x P V Φ) "(%N & %HN & #Hlk) [Hl HR] HΦ".
    by iApply (Avoiding.wpp_drop with "Hlk Hl HR").
Qed.
End proof.
End Spinning.

(** ** What the programs do *)

(** The claim of the three [main]s, for any implementation. *)
Lemma bench_main_safe (I : LockImpl) :
  (∀ Σ `{!rustGS Σ, !lockG Σ}, LockSpec I) →
  safe (bench 4 (Z.to_nat 5000000)) (λ _, True) (λ o σ, o = Ok tt ∧ ∃ d,
    out σ = [("locked {} times in {:?}"%string, [VInt 20000000; VInt d])]).
Proof.
  intros HI. pose proof (bench_safe 4 (Z.to_nat 5000000) HI) as Hs.
  rewrite Nat2Z.inj_mul Z2Nat.id in Hs; [|done]. by apply Hs.
Qed.

(** The benchmark of 09-01, for any [wait] and [wake_one] that
    behave as documented: no data race, no overflow, no panic, and when it
    returns the counter is 20,000,000, no increment lost. *)
Theorem simple_main_safe (F : Futex) (HF : futex_documented F) :
  safe Simple.main (λ _, True) (λ o σ, o = Ok tt ∧ ∃ d,
    out σ = [("locked {} times in {:?}"%string, [VInt 20000000; VInt d])]).
Proof. apply bench_main_safe. intros Σ ??. specialize (HF Σ _). apply _. Qed.

Lemma simple_main_safe_witness :
  safe (Simple.main (H := polling)) (λ _, True) (λ o σ, o = Ok tt ∧ ∃ d,
    out σ = [("locked {} times in {:?}"%string, [VInt 20000000; VInt d])]).
Proof. apply (simple_main_safe polling). apply polling_documented. Defined.

(** C31. The same for the mutex of 09-01-01, which wakes a waiter only
    in its third state. *)
Theorem avoiding_main_safe (F : Futex) (HF : futex_documented F) :
  safe Avoiding.main (λ _, True) (λ o σ, o = Ok tt ∧ ∃ d,
    out σ = [("locked {} times in {:?}"%string, [VInt 20000000; VInt d])]).
Proof. apply bench_main_safe. intros Σ ??. specialize (HF Σ _). apply _. Qed.

Lemma avoiding_main_safe_witness :
  safe (Avoiding.main (H := polling)) (λ _, True) (λ o σ, o = Ok tt ∧ ∃ d,
    out σ = [("locked {} times in {:?}"%string, [VInt 20000000; VInt d])]).
Proof. apply (avoiding_main_safe polling). apply polling_documented. Defined.

(** The same for the mutex of 09-01-02, which spins before it
    waits. *)
Theorem spinning_main_safe (F : Futex) (HF : futex_documented F) :
  safe Spinning.main (λ _, True) (λ o σ, o = Ok tt ∧ ∃ d,
    out σ = [("locked {} times in {:?}"%string, [VInt 20000000; VInt d])]).
Proof. apply bench_main_safe. intros Σ ??. specialize (HF Σ _). apply _. Qed.

Lemma spinning_main_safe_witness :
  safe (Spinning.main (H := polling)) (λ _, True) (λ o σ, o = Ok tt ∧ ∃ d,
    out σ = [("locked {} times in {:?}"%string, [VInt 20000000; VInt d])]).
Proof. apply (spinning_main_safe polling). apply polling_documented. Defined.

(** C5. Refinement of a sequential object by the mutex of 09-01-02:
    whatever updates the threads make under the lock, the final value is the
    one that some interleaving of the updates computes, each update whole. *)
Theorem mutex_linearizable (F : Futex) (HF : futex_documented F) v0 fss :
  safe (client (H := Spinning.impl) v0 fss) (λ _, True) (λ o σ, o = Ok tt ∧ ∃ log,
    interleaving fss log ∧ out σ = [("{}"%string, [replay v0 log])]).
Proof. apply client_safe. intros Σ ??. specialize (HF Σ _). apply _. Qed.

Lemma mutex_linearizable_witness :
  let fss := [[λ _, VInt 1]; [λ _, VInt 2; λ v, VSome v]] in
  safe (client (H := Spinning.impl (H := polling)) (VInt 0) fss) (λ _, True)
    (λ o σ, o = Ok tt ∧ ∃ log,
      interleaving fss log ∧ out σ = [("{}"%string, [replay (VInt 0) log])]).
Proof.
  apply (mutex_linearizable polling polling_documented (VInt 0)
    [[λ _, VInt 1]; [λ _, VInt 2; λ v, VSome v]]).
Defined.
