(* ===== verification/SeqLocks.v ===== *)
(** * The locks in one thread

    The benchmarks for a single thread, which the sources of chapter 9 keep in
    comments, and what becomes of a thread that locks twice. *)

From iris.program_logic Require Import language.
From S2P Require Import Prelude Memory Lang Runs Sequential Std SeqRules.
From S2P Require Import LockApi SpinLock Futex FutexMutex.

(** ** The code *)

(** The benchmark of chapter 9 without threads. *)
Definition single_bench `{LockImpl} (n : nat) : prog unit :=
  m ← lock_new (VInt 0);
  _ ← clock;
  for_range 0 n (λ _, lock_incr m);;
  duration ← clock;
  with_guard m (
    v ← read (value m);
    println "locked {} times in {:?}" [v; duration]).

Section mains.
Context `{Futex}.
Definition simple_single_main : prog unit := single_bench (H := Simple.impl) (Z.to_nat 5000000).
Definition avoiding_single_main : prog unit := single_bench (H := Avoiding.impl) (Z.to_nat 5000000).
Definition spinning_single_main : prog unit := single_bench (H := Spinning.impl) (Z.to_nat 5000000).
End mains.

(** [let a = m.lock(); let b = m.lock();] *)
Definition lock_twice `{LockImpl} (v : val) : prog unit :=
  m ← lock_new v; lock_acquire m;; lock_acquire m.

(** ** The memory of a lock *)

Abbreviation the_lock := (LockObj 2 3).
Definition lock_mem (w : Z) (v : val) (os : list output) : smem :=
  SMem (<[3%positive := SData v]> {[2%positive := SAtomic w]}) os.

(** What a lock does for a thread that is alone: it is taken and given back, and
    taking it again does not return. *)
Class LockSeq (I : LockImpl) : Prop := {
  ls_new v : evals (lock_new v) sinit (Ok the_lock) (lock_mem 0 v []);
  ls_acquire v os :
    evals (lock_acquire the_lock) (lock_mem 0 v os) (Ok tt) (lock_mem 1 v os);
  ls_drop v os : evals (lock_drop the_lock) (lock_mem 1 v os) (Ok tt) (lock_mem 0 v os);
  ls_held v os o m : ¬ sends (lock_acquire the_lock) (lock_mem 1 v os) o m;
  ls_no_fork_new v : no_fork (lock_new v);
  ls_no_fork_acquire x : no_fork (lock_acquire x);
  ls_no_fork_drop x : no_fork (lock_drop x)
}.

(** What the documentation of [wait] and [wake_one] says of a thread that is
    alone: they change nothing, and [wake_one] returns. *)
Class FutexSeq (F : Futex) : Prop := {
  fs_wake l m : evals (wake_one l) m (Ok tt) m;
  fs_wait l v m o m' : sends (wait l v) m o m' → o = Ok tt ∧ m' = m;
  fs_no_fork_wait l v : no_fork (wait l v);
  fs_no_fork_wake l : no_fork (wake_one l)
}.

Lemma sends_evals_bind {A B} (p : prog A) (k : A → prog B) m a m1 o m' :
  evals p m (Ok a) m1 → sends (p ≫= k) m o m' ↔ sends (k a) m1 o m'.
Proof.
  intros Hp. rewrite sends_bind. split; [by intros (? & ? & [-> ->]%Hp & ?)|].
  intros H. exists (Ok a), m1. split; [by apply Hp|done].
Qed.

Lemma sends_clock_bind {B} (k : val → prog B) m o m' :
  sends (clock ≫= k) m o m' ↔ ∃ z, sends (k (VInt z)) m o m'.
Proof.
  rewrite sends_bind. split.
  - intros (o1 & m1 & H1 & H2). apply sends_act in H1 as (f & z & r & m2 & [= <- <-] & H1).
    apply sends_ret in H1 as [-> ->]. by exists z.
  - intros (z & H). exists (Ok (VInt z)), m. split; [|done].
    apply sends_act. exists false, z, z, m. split; [done|]. by apply sends_ret.
Qed.

#[export] Instance polling_seq : FutexSeq polling.
Proof.
  split; [intros; apply evals_ret| |no_fork_follow..].
  intros l v m o m'. apply (sends_loop_inv (λ _ m1, m1 = m) (λ o m1, o = Ok tt ∧ m1 = m)); [|done].
  intros [] m1 o1 m2 -> H. apply sends_act in H as (f & z & x & m3 & Hx & H).
  revert Hx. cbn. destruct (sheap m !! l) as [[y| |]|]; try done. intros [= <- <-].
  apply sends_act in H as (f' & z' & x' & m3 & [= <- <-] & H). apply sends_ret in H as [-> ->].
  by destruct (_ && _).
Qed.

(** ** The spin locks *)

(** A loop that waits for the lock, when the thread holds it itself: every turn
    finds it held, and leaves it so. *)
Lemma held_forever (held : Z → Prop) cond body v os w o m :
  (∀ w, held w → ∃ w', held w' ∧ evals cond (lock_mem w v os) (Ok true) (lock_mem w' v os)) →
  (∀ m (o : outcome unit) m', sends body m o m' → o = Ok tt ∧ m' = m) →
  held w → ¬ sends (while_loop cond body) (lock_mem w v os) o m.
Proof.
  intros Hc Hb Hw H.
  apply (sends_while_inv (λ m, ∃ w, held w ∧ m = lock_mem w v os) (λ _, False)) in H as [_ []]; [|by eauto].
  intros m1 o1 m2 (w1 & Hw1 & Hm1) H1. rewrite Hm1 in H1.
  destruct (Hc w1 Hw1) as (w' & Hw' & He). destruct (proj1 (He _ _) H1) as [Ho Hm2]. rewrite Ho.
  intros o2 m3 [Ho2 Hm3]%Hb. split; [done|]. exists w'. by rewrite Hm3.
Qed.

Lemma sends_nothing m (o : outcome unit) m' : sends spin_loop m o m' → o = Ok tt ∧ m' = m.
Proof. by intros [-> ->]%sends_ret. Qed.

Lemma swap_held_forever v os o m :
  ¬ sends (while_loop (swap_bool 2 true Acquire) spin_loop) (lock_mem 1 v os) o m.
Proof.
  apply (held_forever (λ w, w = 1%Z)); [|apply sends_nothing|done].
  intros w ->. exists 1%Z. split; [done|]. by apply (seval_sound 10).
Qed.

#[export] Instance minimum_seq : LockSeq Minimum.impl.
Proof.
  split; try (intros; by apply (seval_sound 20)); [| |no_fork_follow..].
  - intros v os. eapply (evals_retry _ _ _ _ ()); [|apply evals_ret]. intros o2 m2.
    rewrite sends_bind. split.
    + intros (o1 & m1 & (o3 & m3 & H1 & H2)%sends_bind & H3).
      apply (sends_compare_exchange_weak _ _ 0) in H1 as [[-> ->]|[-> ->]]; [..|done];
        apply sends_ret in H2 as [-> ->]; apply sends_ret in H3; auto.
    + assert (∀ r m', sends (compare_exchange_weak 2 0 1 Acquire Relaxed) (lock_mem 0 v os) (Ok r) m' →
        sends (r ← compare_exchange_weak 2 0 1 Acquire Relaxed; mret (is_err r)) (lock_mem 0 v os)
          (Ok (is_err r)) m') as Hr.
      { intros r m' H. apply sends_bind. exists (Ok r), m'. split; [done|]. by apply sends_ret. }
      intros [[-> ->]|[-> ->]].
      * exists (Ok true), (lock_mem 0 v os). split; [|by apply (sends_ret (inl ()))].
        apply (Hr (inr 0%Z)), (sends_compare_exchange_weak _ _ 0); [done|]. by right.
      * exists (Ok false), (lock_mem 1 v os). split; [|by apply (sends_ret (inr ()))].
        apply (Hr (inl 0%Z)), (sends_compare_exchange_weak _ _ 0); [done|]. by left.
  - intros v os o m. apply (held_forever (λ w, w = 1%Z)); [|apply sends_nothing|done].
    intros w ->. exists 1%Z. split; [done|].
    eapply evals_bind; [by apply (evals_compare_exchange_weak_other _ _ 1)|apply evals_ret].
Qed.

#[export] Instance unsafe_seq : LockSeq Unsafe.impl.
Proof.
  split; try (intros; by apply (seval_sound 20)); [|no_fork_follow..].
  intros v os o m (o1 & m1 & H & _)%sends_bind. apply sends_bind in H as (o2 & m2 & H & _).
  by apply swap_held_forever in H.
Qed.

#[export] Instance guarded_seq : LockSeq Guarded.impl.
Proof.
  split; try (intros; by apply (seval_sound 20)); [|no_fork_follow..].
  intros v os o m (o1 & m1 & H & _)%sends_bind. apply sends_bind in H as (o2 & m2 & H & _).
  by apply swap_held_forever in H.
Qed.

(** ** The mutexes *)

Section futex.
Context (F : Futex) `{!FutexSeq F}.

(** The waiting loops: the word stays 1 or 2. *)
Lemma wait_held_forever w z (again : Z → bool) v os o m :
  (w = 1 ∨ w = 2)%Z → (z = 1 ∨ z = 2)%Z → (∀ w, (w = 1 ∨ w = 2)%Z → (w = 1 ∨ z = 2)%Z → again w = true) →
  (w = 1 ∨ z = 2)%Z →
  ¬ sends (while_loop (x ← swap 2 z Acquire; mret (again x)) (wait 2 z)) (lock_mem w v os) o m.
Proof.
  intros Hw Hz Ha Hwz. apply (held_forever (λ w, (w = 1 ∨ w = 2) ∧ (w = 1 ∨ z = 2))%Z);
    [|intros ???; apply fs_wait|done].
  intros w1 [Hw1 Hz1]. exists z. split; [lia|]. rewrite -(Ha w1) //. by apply (seval_sound 10).
Qed.

#[export] Instance simple_seq : LockSeq Simple.impl.
Proof.
  split; try (intros; by apply (seval_sound 20)); try (by no_fork_follow).
  - intros v os. eapply evals_bind; [by apply (seval_sound 10)|]. apply fs_wake.
  - intros v os o m (o1 & m1 & H & _)%sends_bind. apply sends_bind in H as (o2 & m2 & H & _).
    revert H. apply wait_held_forever; [auto..| |auto]. by intros w _ [->|?].
  - intros x. no_fork_follow. apply fs_no_fork_wait.
  - intros x. no_fork_follow. apply fs_no_fork_wake.
Qed.

Lemma again_held w : (w = 1 ∨ w = 2)%Z → negb (w =? 0)%Z = true.
Proof. by intros [-> | ->]. Qed.

#[export] Instance avoiding_seq : LockSeq Avoiding.impl.
Proof.
  split; try (intros; by apply (seval_sound 20)); try (by no_fork_follow).
  - intros v os o m (o1 & m1 & H & _)%sends_bind.
    rewrite /Avoiding.lock (sends_evals_bind _ _ _ (inr 1%Z) (lock_mem 1 v os)) in H;
      [|by apply (seval_sound 10)].
    apply sends_bind in H as (o2 & m2 & H & _). revert H.
    apply wait_held_forever; [by left|by right| |by left]. intros w Hw _. by apply again_held.
  - intros x. no_fork_follow. apply fs_no_fork_wait.
  - intros x. no_fork_follow. apply fs_no_fork_wake.
Qed.

(** The loop that spins ends, as nothing changes, after its hundred turns. *)
Lemma evals_spin v os (k : nat) (n : Z) :
  (100 - n = Z.of_nat k)%Z → evals (Spinning.spin 2 n) (lock_mem 1 v os) (Ok tt) (lock_mem 1 v os).
Proof.
  revert n. induction k as [|k IH]; intros n Hn; apply evals_loop;
    (eapply evals_act; [done..|]); cbn.
  - rewrite (proj2 (Z.ltb_ge _ _)); [|lia]. apply evals_ret.
  - rewrite (proj2 (Z.ltb_lt _ _)); [|lia]. apply IH. lia.
Qed.

#[export] Instance spinning_seq : LockSeq Spinning.impl.
Proof.
  split; try (intros; by apply (seval_sound 20)); try (by no_fork_follow).
  - intros v os o m (o1 & m1 & H & _)%sends_bind.
    rewrite /Spinning.lock (sends_evals_bind _ _ _ (inr 1%Z) (lock_mem 1 v os)) in H;
      [|by apply (seval_sound 10)].
    apply sends_bind in H as (o2 & m2 & H & _).
    apply (sends_evals_bind _ _ _ tt (lock_mem 1 v os)) in H; [|by apply (evals_spin v os 100)].
    apply (sends_evals_bind _ _ _ (inr 1%Z) (lock_mem 1 v os)) in H; [|by apply (seval_sound 10)].
    revert H. apply wait_held_forever; [by left|by right| |by left].
    intros w Hw _. by apply again_held.
  - intros x. no_fork_follow. apply fs_no_fork_wait.
  - intros x. no_fork_follow. apply fs_no_fork_wake.
Qed.
End futex.

(** ** What a single thread sees *)

Section single.
Context `{I : LockImpl, !LockSeq I}.

Lemma evals_lock_incr z os :
  (0 <= z < i32_MAX)%Z →
  evals (lock_incr the_lock) (lock_mem 0 (VInt z) os) (Ok tt) (lock_mem 0 (VInt (z + 1)) os).
Proof.
  intros Hz. eapply evals_bind; [apply ls_acquire|]. eapply evals_catch.
  - eapply evals_bind; [eapply evals_bind; [by apply evals_read|apply evals_ret]|].
    rewrite decide_True; [|unfold i32_MIN; lia]. by apply (evals_write _ _ (VInt z)).
  - eapply evals_bind; [apply ls_drop|apply evals_ret].
Qed.

Lemma evals_incr_all n start z os :
  (0 <= z)%Z → (z + Z.of_nat n <= i32_MAX)%Z →
  evals (for_range start n (λ _, lock_incr the_lock)) (lock_mem 0 (VInt z) os) (Ok tt)
    (lock_mem 0 (VInt (z + Z.of_nat n)) os).
Proof.
  revert start z. induction n as [|n IH]; intros start z Hz Hn.
  - rewrite Z.add_0_r. apply evals_ret.
  - eapply evals_bind; [apply evals_lock_incr; lia|].
    replace (z + Z.of_nat (S n))%Z with (z + 1 + Z.of_nat n)%Z by lia. apply IH; lia.
Qed.

Lemma no_fork_for_range start n body :
  (∀ i, no_fork (body i)) → no_fork (for_range start n body).
Proof.
  intros Hb. revert start. induction n as [|n IH]; intros start; [done|].
  apply no_fork_bind; [done|]. intros _. apply IH.
Qed.

Lemma no_fork_with_guard {A} x (p : prog A) : no_fork p → no_fork (with_guard x p).
Proof.
  intros Hp. apply no_fork_bind; [apply ls_no_fork_acquire|]. intros _.
  apply no_fork_catch; [done|]. intros o. apply no_fork_bind; [apply ls_no_fork_drop|].
  intros _. by destruct o.
Qed.

Lemma single_bench_prints n o os :
  (Z.of_nat n <= i32_MAX)%Z →
  can_end (single_bench n) o os ↔
  o = Ok tt ∧ ∃ d, os = [("locked {} times in {:?}"%string, [VInt (Z.of_nat n); VInt d])].
Proof.
  intros Hn. rewrite can_end_sequential; last first.
  { apply no_fork_bind; [apply ls_no_fork_new|]. intros m. apply no_fork_bind; [no_fork_follow|].
    intros _. apply no_fork_bind.
    { apply no_fork_for_range. intros _. apply no_fork_with_guard. no_fork_follow. }
    intros _. apply no_fork_bind; [no_fork_follow|]. intros d. apply no_fork_with_guard.
    no_fork_follow. }
  assert (∀ d, evals (with_guard the_lock (v ← read 3%positive;
      println "locked {} times in {:?}" [v; VInt d])) (lock_mem 0 (VInt (Z.of_nat n)) [])
    (Ok tt) (lock_mem 0 (VInt (Z.of_nat n))
      [("locked {} times in {:?}"%string, [VInt (Z.of_nat n); VInt d])])) as Hprint.
  { intros d. eapply evals_bind; [apply ls_acquire|]. eapply evals_catch.
    - eapply evals_bind; [by apply evals_read|apply evals_println].
    - eapply evals_bind; [apply ls_drop|apply evals_ret]. }
  rewrite /single_bench. setoid_rewrite (sends_evals_bind _ _ _ _ _ _ _ (ls_new _)).
  setoid_rewrite sends_clock_bind.
  setoid_rewrite (sends_evals_bind _ _ _ _ _ _ _ (evals_incr_all n 0 0 [] ltac:(lia) Hn)).
  setoid_rewrite sends_clock_bind. split.
  - intros (m & (_ & d & H) & <-). apply Hprint in H as [-> ->]. eauto.
  - intros (-> & d & ->). eexists. split; [exists 0%Z, d; by apply Hprint|done].
Qed.

Lemma lock_twice_stuck v o os : ¬ can_end (lock_twice v) o os.
Proof.
  rewrite can_end_sequential; last first.
  { apply no_fork_bind; [apply ls_no_fork_new|]. intros m.
    apply no_fork_bind; intros; apply ls_no_fork_acquire. }
  intros (m & H & _). revert H.
  rewrite /lock_twice (sends_evals_bind _ _ _ _ _ _ _ (ls_new _)).
  rewrite (sends_evals_bind _ _ _ _ _ _ _ (ls_acquire _ _)). apply ls_held.
Qed.
End single.

(** C18. The benchmarks for a single thread of the three mutexes of chapter 9 count
    right: they end, and only with the output that the lock was taken 5,000,000
    times, whatever the clock says. *)
Theorem single_mains_count (F : Futex) (HF : FutexSeq F) o os :
  let counted := o = Ok tt ∧
    ∃ d, os = [("locked {} times in {:?}"%string, [VInt 5000000; VInt d])] in
  (can_end simple_single_main o os ↔ counted) ∧
  (can_end avoiding_single_main o os ↔ counted) ∧
  (can_end spinning_single_main o os ↔ counted).
Proof.
  intros counted. assert (∀ n, Z.of_nat n = 5000000%Z → ∀ (I : LockImpl), LockSeq I →
    can_end (single_bench (H := I) n) o os ↔ counted) as Hall.
  { intros n Hn I HI. rewrite single_bench_prints Hn; [done|]. unfold i32_MAX. lia. }
  assert (Z.of_nat (Z.to_nat 5000000) = 5000000%Z) as Hn by (apply Z2Nat.id; lia).
  split_and!; apply (Hall _ Hn), _.
Qed.

Lemma single_mains_count_witness :
  can_end (simple_single_main (H := polling)) (Ok tt)
    [("locked {} times in {:?}"%string, [VInt 5000000; VInt 7])].
Proof.
  apply (single_mains_count polling polling_seq). split; [reflexivity|]. exists 7%Z. reflexivity.
Defined.

(** C19. None of the locks of chapters 4 and 9 can be taken twice by one thread: the
    second [lock] never returns, and does not panic either. *)
Theorem lock_twice_deadlocks (F : Futex) (HF : FutexSeq F) v o os :
  Forall (λ I : LockImpl, ¬ can_end (lock_twice (H := I) v) o os)
    [Minimum.impl; Unsafe.impl; Guarded.impl; Simple.impl; Avoiding.impl; Spinning.impl].
Proof. repeat apply Forall_cons_2; [apply lock_twice_stuck..|by apply Forall_nil_2]. Qed.

Lemma lock_twice_deadlocks_witness :
  ¬ can_end (lock_twice (H := Simple.impl (H := polling)) (VInt 0)) (Ok tt) [].
Proof.
  pose proof (lock_twice_deadlocks polling polling_seq (VInt 0) (Ok tt) []) as H.
  rewrite Forall_forall in H. apply H. set_solver.
Defined.
