(* ===== verification/WaitFree.v ===== *)
(** * Operations that end

    [wait_free n p]: a thread that runs [p] ends after at most [n] steps of its
    own, whatever the others do to the memory between its steps.  [solo]: the
    steps of a thread that runs alone. *)

From iris.program_logic Require Import language.
From S2P Require Import Prelude Memory History Lang Std.
From S2P Require Import Ids Channel Checked SingleState LockApi SpinLock Futex.
From S2P Require Import FutexMutex.

(** ** Steps of one thread *)

(** [own_steps n e e']: [n] steps, each from any state of the memory. *)
Inductive own_steps : nat → thread → thread → Prop :=
| own_steps_refl e : own_steps 0 e e
| own_steps_step n c e σ e' σ' efs e'' :
    step_thread c e σ = Some (e', σ', efs) → own_steps n e' e'' → own_steps (S n) e e''.

Definition wait_free {A} (n : nat) (p : prog A) : Prop :=
  ∀ V m e, own_steps m (_ ← p; mret (), V) e → m ≤ n.

(** A bound that can be read off the program: whatever the operations return. *)
Inductive bounded {A} : nat → prog A → Prop :=
| bounded_ret n a : bounded n (Ret a)
| bounded_panic n m : bounded n (Panic m)
| bounded_ub n : bounded n UB
| bounded_act n o k : (∀ r, bounded n (k r)) → bounded (S n) (Act o k)
| bounded_fork n c k : bounded n k → bounded (S n) (Fork c k)
| bounded_loop n S R (body : S → prog (S + R)) s k :
    bounded n (unroll body s k) → bounded (Datatypes.S n) (Loop body s k).

Lemma bounded_weaken {A} n n' (p : prog A) : bounded n p → n ≤ n' → bounded n' p.
Proof.
  intros Hp. induction Hp as [| | |n o k _ IH|n c k _ IH|n S R body s k _ IH] in n' |- *;
    intros Hle; try constructor; destruct n' as [|n']; try lia; constructor; eauto with lia.
Qed.

Lemma bounded_catch {A B} n n' (p : prog A) (k : outcome A → prog B) :
  bounded n p → (∀ o, bounded n' (k o)) → bounded (n + n') (catch p k).
Proof.
  intros Hp Hk. induction Hp as [| | |n o k' _ IH|n c k' _ IH|n S R body s k' _ IH]; simpl;
    try (constructor; by auto).
  - eapply bounded_weaken; [apply Hk|lia].
  - eapply bounded_weaken; [apply Hk|lia].
  - constructor. by rewrite -catch_unroll.
Qed.

Lemma bounded_bind {A B} n n' (p : prog A) (k : A → prog B) :
  bounded n p → (∀ a, bounded n' (k a)) → bounded (n + n') (p ≫= k).
Proof. intros Hp Hk. apply bounded_catch; [done|]. intros [a|m]; [apply Hk|constructor]. Qed.

Lemma bounded_step n c (p : prog unit) V σ p' V' σ' efs :
  bounded n p → step_thread c (p, V) σ = Some ((p', V'), σ', efs) →
  ∃ n', n = S n' ∧ bounded n' p'.
Proof.
  destruct 1 as [| | |n o k Hk|n d k Hk|n S R body s k Hk]; simpl; intros Hs; simplify_eq; eauto.
  apply bind_Some in Hs as ([[r V1] σ1] & _ & Hs). simplify_eq. eauto.
Qed.

Lemma bounded_wait_free {A} n (p : prog A) : bounded n p → wait_free n p.
Proof.
  intros Hp V m e Hs.
  assert (bounded n (_ ← p; mret ())) as Hb.
  { rewrite -(Nat.add_0_r n). apply bounded_bind; [done|]. intros _. constructor. }
  clear Hp. revert Hs Hb. generalize (_ ← p; mret () : prog unit) as q. intros q Hs Hb.
  remember (q, V) as e0 eqn:He0.
  induction Hs as [|m c e0 σ [q' V'] σ' efs e'' Hstep _ IH] in n, q, V, He0, Hb |- *; [lia|].
  subst e0. destruct (bounded_step _ _ _ _ _ _ _ _ _ Hb Hstep) as (n' & -> & Hb').
  specialize (IH n' V' q' eq_refl Hb'). lia.
Qed.

(** The programs without loops: by following them. *)
Ltac bounded_head :=
  match goal with |- bounded ?n ?p => let q := eval hnf in p in change (bounded n q) end.
Ltac bounded_follow :=
  repeat first
    [ progress intros
    | bounded_head; match goal with
      | |- bounded _ (Act _ _) => let r := fresh "r" in apply bounded_act; intros r; cbn in r;
          try match type of r with prod _ _ => destruct r end
      | |- bounded _ (Ret _) => apply bounded_ret
      | |- bounded _ (Panic _) => apply bounded_panic
      | |- bounded _ UB => apply bounded_ub
      | |- bounded _ match ?x with _ => _ end => destruct x
      | |- bounded _ (catch (assert ?b _) _) => destruct b
      end ].


(** One turn of the loop of [lock_contented] that spins. *)
Lemma bounded_spin_turn state (n : Z) (m : nat) :
  ((n < 100)%Z → bounded m (Spinning.spin state (n + 1))) →
  bounded (S (S m)) (Spinning.spin state n).
Proof.
  intros Hm. apply bounded_loop, bounded_act. intros v. cbn in v |- *.
  destruct (v =? 1)%Z; [|apply bounded_ret].
  destruct (Z.ltb_spec n 100) as [Hn|Hn]; [|apply bounded_ret]. by apply Hm.
Qed.

Lemma bounded_spin state (k : nat) (n : Z) :
  (100 - n <= Z.of_nat k)%Z → bounded (2 * S k) (Spinning.spin state n).
Proof.
  induction k as [|k IH] in n |- *; intros Hn.
  - apply bounded_spin_turn. lia.
  - replace (2 * S (S k)) with (S (S (2 * S k))) by lia.
    apply bounded_spin_turn. intros _. apply IH. lia.
Qed.

(** C30. The thread that finds the mutex held spins at most 100 times: whatever the
    others do, it leaves the loop after 202 steps of its own. *)
Theorem spinning_gives_up (state : loc) : wait_free 202 (Spinning.spin state 0).
Proof. apply bounded_wait_free, (bounded_spin state 100). lia. Qed.

(** ** A thread that runs alone *)

(** [solo n Q e σ]: a thread that runs alone ends after at most [n] steps,
    whatever the memory lets it read, without panic, and then [Q] holds. *)
Fixpoint solo (n : nat) (Q : tview → state → Prop) (e : thread) (σ : state) : Prop :=
  match e.1, n with
  | Ret _, _ => Q e.2 σ
  | _, 0 => False
  | _, S n =>
      (∃ c, is_Some (step_thread c e σ)) ∧
      ∀ c e' σ' efs, step_thread c e σ = Some (e', σ', efs) → solo n Q e' σ'
  end.

(** The newest value of an atomic, and that the thread has seen it. *)
Definition newest_value (l : loc) (z : Z) (σ : state) : Prop :=
  ∃ h N A t m, heap σ !! l = Some (CAtomic h N A) ∧ newest h t ∧ h !! t = Some m ∧ mval m = z.
Definition sees_newest (l : loc) (z : Z) (V : tview) (σ : state) : Prop :=
  ∃ h N A t m, heap σ !! l = Some (CAtomic h N A) ∧ newest h t ∧ h !! t = Some m ∧ mval m = z ∧
    N ⊆ cur V ∧ Coh l t ∈ cur V.

Lemma sees_newest_only l z V σ h N A o t :
  sees_newest l z V σ → heap σ !! l = Some (CAtomic h N A) → is_Some (h !! t) →
  coh_le l h (bound o V σ) t → newest h t ∧ mval <$> h !! t = Some z.
Proof.
  intros (h' & N' & A' & t' & m & Hl & Hn & Hm & Hz & _ & Hcoh) Hl' [m' Hm'] Hle.
  rewrite Hl in Hl'. injection Hl' as -> -> ->.
  assert (t = t') as ->; [|by rewrite Hm /= Hz].
  apply Nat.le_antisymm; [by eapply Hn|]. eapply Hle; [done|]. rewrite /bound. set_solver.
Qed.

(** The read-modify-write of a thread that has seen the newest value. *)
Lemma exec_rmw_newest c l f o o' z z' V σ r V' σ' :
  sees_newest l z V σ → f z = Some z' →
  exec_rmw c l f false o o' V σ = Some (r, V', σ') → r = (z, true) ∧ newest_value l z' σ'.
Proof.
  intros Hs Hf. rewrite /exec_rmw /hist_val /exec_rmw_write /exec_load /=.
  destruct (heap σ !! l) as [[h N A| |]|] eqn:Hl; [|done..]. cbn.
  destruct (h !! ch_read c) as [m|] eqn:Hm; [|done].
  rewrite /mbind /option_bind /=.
  assert (∀ o, coh_le l h (bound o V σ) (ch_read c) →
    newest h (ch_read c) ∧ mval m = z) as Honly.
  { intros o1 Hle. destruct (sees_newest_only _ _ _ _ _ _ _ _ _ Hs Hl ltac:(eauto) Hle) as [? Hz].
    rewrite Hm in Hz. by simplify_eq/=. }
  destruct (f (mval m)) as [z1|] eqn:Hf1; case_decide as Hd; simpl; [|done| |done];
    intros [= <- <- <-].
  - destruct Hd as (_ & Hfree & [Hn Hz]%Honly). subst z. rewrite Hf in Hf1. simplify_eq.
    split; [done|]. destruct Hn as [_ Hmax].
    eexists (<[S (ch_read c) := _]> h), _, _, (S (ch_read c)), _. split_and!.
    + rewrite /sc_record. destruct (is_seqcst o); apply lookup_insert_eq.
    + split; [by rewrite lookup_insert_eq; eauto|].
      apply map_Forall_insert_2; [lia|]. eapply map_Forall_impl; [done|]. cbn. lia.
    + by rewrite lookup_insert_eq.
    + done.
  - destruct Hd as (_ & [_ Hz]%Honly). subst z. by rewrite Hf in Hf1.
Qed.

Lemma solo_rmw n Q l f o o' z z' V σ k :
  sees_newest l z V σ → f z = Some z' →
  (∀ V' σ', newest_value l z' σ' → solo n Q (k (z, true), V') σ') →
  solo (S n) Q (Act (ORmw l f false o o') k, V) σ.
Proof.
  intros Hs Hf Hk. split.
  - destruct Hs as (h & N & A & t & m & Hl & Hn & Hm & Hz & HN & _).
    exists (Choice t 0 false 0). rewrite /= /exec_rmw /hist_val /exec_rmw_write Hl /= Hm /mbind /= Hz.
    rewrite Hf.
    rewrite decide_True; [|split_and!; auto with rust_db]. by eexists.
  - intros c e' σ' efs. cbn. destruct (exec_rmw _ _ _ _ _ _ _ _) as [[[r V1] σ1]|] eqn:He; [|done].
    intros [= <- <- <-]. destruct (exec_rmw_newest _ _ _ _ _ _ _ _ _ _ _ _ Hs Hf He) as [-> Hv].
    by apply Hk.
Qed.

Lemma solo_loop n Q S R (body : S → prog (S + R)) s k V σ :
  solo n Q (unroll body s k, V) σ → solo (Datatypes.S n) Q (Loop body s k, V) σ.
Proof. intros Hs. split; [exists (Choice 0 0 false 0); by eexists|]. cbn. intros. by simplify_eq. Qed.

(** C28. A thread that runs alone and has seen that the lock is free takes it: [lock]
    of the spin lock and of the three mutexes returns after at most two steps,
    and the newest value of the lock word is then 1. *)
Theorem uncontended_lock (F : Futex) (x : lock_obj) (V : tview) (σ : state) :
  sees_newest (word x) 0 V σ →
  let taken _ σ' := newest_value (word x) 1 σ' in
  solo 2 taken (_ ← Guarded.lock x; mret (), V) σ ∧
  solo 2 taken (_ ← Simple.lock x; mret (), V) σ ∧
  solo 1 taken (_ ← Avoiding.lock x; mret (), V) σ ∧
  solo 1 taken (_ ← Spinning.lock x; mret (), V) σ.
Proof.
  intros Hs taken. split_and!.
  - apply solo_loop. by eapply solo_rmw.
  - apply solo_loop. by eapply solo_rmw.
  - by eapply solo_rmw.
  - by eapply solo_rmw.
Qed.

(** The state after [AtomicU32::new(0)], in the thread that made it. *)
Lemma uncontended_lock_witness :
  let x := LockObj 1%positive 2%positive in
  let e := {[Acc 0]} : view in
  let V := observe ({[Coh 1%positive 0]} ∪ e) ∅ tview_init in
  let σ := set_cell 1%positive (CAtomic {[0 := Msg 0 ∅]} e e) state_init in
  solo 2 (λ _ σ', newest_value (word x) 1 σ') (_ ← Guarded.lock x; mret (), V) σ.
Proof.
  intros x e V σ. apply (uncontended_lock polling x V σ).
  exists {[0 := Msg 0 ∅]}, e, e, 0, (Msg 0 ∅). split_and!; try done.
  - split; [by eexists|]. by apply map_Forall_singleton.
  - rewrite /V /=. set_solver.
Defined.
