(* ===== verification/Typing.v ===== *)
(** * The values an atomic can hold

    The comments on the state of a mutex or a channel list its values.  Here this
    is a typing of programs: [keeps l T p] says that [p] writes only values of
    [T] to [l], if it reads only such values from it.  In every execution of
    threads that keep [T] the atomic holds values of [T] only ([keeps_typed]),
    whatever the other threads do at the same time. *)

From iris.program_logic Require Import language.
From S2P Require Import Prelude Memory Lang Runs Std Parking Channel SingleState.
From S2P Require Import LockApi SpinLock.
From S2P Require Import Futex FutexMutex.

(** ** The typing *)

Section typing.
Context (l : loc) (T : Z → Prop).

(** What an operation writes to [l]... *)
Definition op_keeps (o : op) : Prop :=
  match o with
  | OStore l' z _ | OSetMut l' z => l' = l → T z
  | ORmw l' f _ _ _ => l' = l → ∀ v z, T v → f v = Some z → T z
  | _ => True
  end.

(** ... and what it may return: [l] exists, so it is not allocated again. *)
Definition returns (o : op) : res o → Prop :=
  match o return res o → Prop with
  | OAlloc _ | OAllocAtomic _ => λ r, r ≠ l
  | OLoad l' _ | OGetMut l' => λ r, l' = l → T r
  | ORmw l' _ _ _ _ => λ r, l' = l → T r.1
  | _ => λ _, True
  end.

Fixpoint keeps {A} (p : prog A) : Prop :=
  match p with
  | Act o k => op_keeps o ∧ ∀ r, returns o r → keeps (k r)
  | Fork c k => keeps c ∧ keeps k
  | Loop body _ k => (∀ s, keeps (body s)) ∧ ∀ o, keeps (k o)
  | _ => True
  end.

Lemma keeps_catch {A B} (p : prog A) (k : outcome A → prog B) :
  keeps p → (∀ o, keeps (k o)) → keeps (catch p k).
Proof.
  intros Hp Hk.
  induction p as [ | | |? o k' IH|? c _ k' IH|? S R body _ s k' IH]; simpl in *; try done.
  - destruct Hp as [Ho Hp]. split; [done|]. intros r Hr. apply IH; auto.
  - destruct Hp as [Hc Hp]. auto.
  - destruct Hp as [Hb Hp]. split; [done|]. intros o. apply IH; auto.
Qed.

Lemma keeps_bind {A B} (p : prog A) (k : A → prog B) :
  keeps p → (∀ a, keeps (k a)) → keeps (p ≫= k).
Proof. intros Hp Hk. apply keeps_catch; [done|]. intros [a|m]; [apply Hk|done]. Qed.

Lemma keeps_unroll {A S R} (body : S → prog (S + R)) s (k : outcome R → prog A) :
  (∀ s, keeps (body s)) → (∀ o, keeps (k o)) → keeps (unroll body s k).
Proof. intros Hb Hk. apply keeps_catch; [done|]. intros [[s'|r]|m]; simpl; auto. Qed.

(** ** Soundness *)

(** The atomic exists, and all the values in its history are of type [T]. *)
Definition typed (σ : state) : Prop :=
  match heap σ !! l with
  | Some (CAtomic h _ _) => map_Forall (λ _ m, T (mval m)) h
  | Some CFreed => True
  | _ => False
  end.

Lemma typed_set l' c σ : l' ≠ l → typed σ → typed (set_cell l' c σ).
Proof. intros Hl. rewrite /typed /= lookup_insert_ne //. Qed.

Lemma typed_at h N A σ : map_Forall (λ _ m, T (mval m)) h → typed (set_cell l (CAtomic h N A) σ).
Proof. intros Hh. rewrite /typed /= lookup_insert_eq //. Qed.

Lemma typed_sc o l' t σ : typed (sc_record o l' t σ) ↔ typed σ.
Proof. rewrite /sc_record. by destruct (is_seqcst o). Qed.

(** An operation on another cell, or that leaves the history. *)
Lemma typed_touch l' h N A N' A' σ :
  heap σ !! l' = Some (CAtomic h N A) → typed σ → typed (set_cell l' (CAtomic h N' A') σ).
Proof.
  intros Hl' Hσ. destruct (decide (l' = l)) as [->|]; [|by apply typed_set].
  apply typed_at. by rewrite /typed Hl' in Hσ.
Qed.

Lemma typed_write l' h N A N' A' t m σ :
  heap σ !! l' = Some (CAtomic h N A) → (l' = l → T (mval m)) → typed σ →
  typed (set_cell l' (CAtomic (<[t := m]> h) N' A') σ).
Proof.
  intros Hl' Hm Hσ. destruct (decide (l' = l)) as [->|]; [|by apply typed_set].
  apply typed_at, map_Forall_insert_2; [by apply Hm|]. by rewrite /typed Hl' in Hσ.
Qed.

Lemma typed_lookup h N A t m σ :
  typed σ → heap σ !! l = Some (CAtomic h N A) → h !! t = Some m → T (mval m).
Proof. rewrite /typed. intros Hσ Hl Hm. rewrite Hl in Hσ. by eapply Hσ. Qed.

Lemma load_typed t l' o V σ z V' σ' :
  typed σ → exec_load t l' o V σ = Some (z, V', σ') → (l' = l → T z) ∧ typed σ'.
Proof.
  intros Hσ. rewrite /exec_load. destruct (heap σ !! l') as [[h N A| |]|] eqn:Hl; try done.
  destruct (h !! t) as [m|] eqn:Hm; [|done]. case_decide; [|done]. intros [= <- <- <-]. split.
  - intros ->. by eapply typed_lookup.
  - apply typed_sc. by eapply typed_touch.
Qed.

Lemma rmw_typed c l' f weak o o' V σ r V' σ' :
  (l' = l → ∀ v z, T v → f v = Some z → T z) → typed σ →
  exec_rmw c l' f weak o o' V σ = Some (r, V', σ') → (l' = l → T r.1) ∧ typed σ'.
Proof.
  intros Hf Hσ. rewrite /exec_rmw /hist_val.
  destruct (heap σ !! l') as [[h N A| |]|] eqn:Hl; [|done..]. cbn.
  destruct (h !! ch_read c) as [m|] eqn:Hm; [|done]. cbn.
  assert (l' = l → T (mval m)) as HT by (intros ->; by eapply typed_lookup).
  rewrite /mbind /=. destruct (if weak && ch_fail c then None else f (mval m)) as [z|] eqn:Hz; cbn.
  - rewrite /exec_rmw_write Hl Hm. case_decide; [|done]. intros [= <- <- <-]. split; [done|].
    apply typed_sc. eapply typed_write; [done| |done]. intros ->. cbn.
    destruct (weak && ch_fail c); [done|]. eapply Hf; [done|by apply HT|done].
  - destruct (exec_load _ _ _ _ _) as [[[u V1] σ1]|] eqn:He; [|done]. intros [= <- <- <-].
    split; [done|]. by eapply load_typed.
Qed.

Lemma exec_typed c o V σ r V' σ' :
  op_keeps o → typed σ → exec_op c o V σ = Some (r, V', σ') → returns o r ∧ typed σ'.
Proof.
  intros Ho Hσ. assert (fresh_loc (heap σ) ≠ l) as Hfresh.
  { intros Heq. by rewrite /typed -Heq fresh_loc_fresh in Hσ. }
  assert (∀ l' v W R, heap σ !! l' = Some (CData v W R) → l' ≠ l) as Hdata.
  { intros l' v W R Hl ->. by rewrite /typed Hl in Hσ. }
  destruct o; cbn [exec_op returns op_keeps] in *.
  - intros [= <- <- <-]. split; [done|]. by apply typed_set.
  - intros [= <- <- <-]. split; [done|]. by apply typed_set.
  - rewrite /exec_free. destruct (heap σ !! l0) as [[h N A|v W R|]|] eqn:Hl; try done;
      case_decide; try done; intros [= <- <- <-]; (split; [done|]).
    + destruct (decide (l0 = l)) as [->|]; [|by apply typed_set].
      by rewrite /typed /= lookup_insert_eq.
    + apply typed_set; [by eapply Hdata|done].
  - rewrite /exec_read. destruct (heap σ !! l0) as [[|v W R|]|] eqn:Hl; try done.
    case_decide; [|done]. intros [= <- <- <-]. split; [done|]. apply typed_set; [by eapply Hdata|done].
  - rewrite /exec_write. destruct (heap σ !! l0) as [[|v' W R|]|] eqn:Hl; try done.
    case_decide; [|done]. intros [= <- <- <-]. split; [done|]. apply typed_set; [by eapply Hdata|done].
  - by apply load_typed.
  - rewrite /exec_store. destruct (heap σ !! l0) as [[h N A| |]|] eqn:Hl; try done.
    case_decide; [|done]. intros [= <- <- <-]. split; [done|]. apply typed_sc.
    eapply typed_write; [done| |done]. by apply Ho.
  - by apply rmw_typed.
  - intros [= He]. destruct o; simpl in He; by simplify_eq.
  - rewrite /exec_get_mut. destruct (heap σ !! l0) as [[h N A| |]|] eqn:Hl; try done.
    destruct (h !! last_time h) as [m|] eqn:Hm; [|done]. case_decide; [|done].
    intros [= <- <- <-]. split; [intros ->; by eapply typed_lookup|]. by eapply typed_touch.
  - rewrite /exec_set_mut. destruct (heap σ !! l0) as [[h N A| |]|] eqn:Hl; try done.
    case_decide; [|done]. intros [= <- <- <-]. split; [done|].
    destruct (decide (l0 = l)) as [->|]; [|by apply typed_set].
    apply typed_at, map_Forall_singleton. by apply Ho.
  - intros [= <- <- <-]. done.
  - intros [= <- <- <-]. done.
Qed.

Definition well_typed (ρ : config) : Prop := Forall (λ e : thread, keeps e.1) ρ.1 ∧ typed ρ.2.

Lemma step_typed c (e : thread) σ e' σ' efs :
  keeps e.1 → typed σ → step_thread c e σ = Some (e', σ', efs) →
  keeps e'.1 ∧ Forall (λ e : thread, keeps e.1) efs ∧ typed σ'.
Proof.
  destruct e as [p V]. intros Hp Hσ. destruct p as [| | |o k|child k|S R body s k]; try done; cbn.
  - destruct (exec_op c o V σ) as [[[r V1] σ1]|] eqn:He; [|done]. intros [= <- <- <-].
    destruct Hp as [Ho Hk]. destruct (exec_typed _ _ _ _ _ _ _ Ho Hσ He) as [Hr Hσ'].
    split_and!; [by apply Hk|by apply Forall_nil_2|done].
  - intros [= <- <- <-]. destruct Hp as [Hc Hk]. split_and!; [done| |done].
    by apply Forall_cons_2; [|apply Forall_nil_2].
  - intros [= <- <- <-]. destruct Hp as [Hb Hk]. split_and!; [|by apply Forall_nil_2|done].
    by apply keeps_unroll.
Qed.

Lemma keeps_typed ρ ρ' : rtc erased_step ρ ρ' → well_typed ρ → well_typed ρ'.
Proof.
  induction 1 as [|ρ ρ1 ρ' [κ Hs] _ IH]; [done|]. intros [Htp Hσ]. apply IH. clear IH.
  inversion Hs as [e1 σ1 e2 σ2 efs t1 t2 -> -> (_ & c & Hstep)]. simpl in *.
  apply Forall_app in Htp as [Ht1 [He1 Ht2]%Forall_cons_1].
  destruct (step_typed _ _ _ _ _ _ He1 Hσ Hstep) as (He2 & Hefs & Hσ2). split; [|done]. simpl.
  apply Forall_app_2; [done|]. apply Forall_cons_2; [done|]. by apply Forall_app_2.
Qed.
End typing.

(** ** The standard library *)

Section std.
Context (l : loc) (T : Z → Prop).
Abbreviation kept := (keeps l T).

Lemma keeps_atomic_new {A} z (k : loc → prog A) :
  (∀ r, r ≠ l → kept (k r)) → kept (atomic_new z ≫= k).
Proof. intros Hk. split; [done|]. intros r Hr. by apply Hk. Qed.

Lemma keeps_new_cell {A} v (k : loc → prog A) :
  (∀ r, r ≠ l → kept (k r)) → kept (new_cell v ≫= k).
Proof. intros Hk. split; [done|]. intros r Hr. by apply Hk. Qed.

Lemma keeps_while cond body : kept cond → kept body → kept (while_loop cond body).
Proof.
  intros Hc Hb. split; [|by intros []]. intros _. apply keeps_bind; [done|].
  intros []; [|done]. by apply keeps_bind.
Qed.

Lemma keeps_with_drop {A} dr (p : prog A) : kept dr → kept p → kept (with_drop dr p).
Proof.
  intros Hd Hp. apply keeps_catch; [done|]. intros o. apply keeps_bind; [done|].
  intros _. by destruct o.
Qed.

Lemma keeps_for_range start n body : (∀ i, kept (body i)) → kept (for_range start n body).
Proof.
  intros Hb. revert start. induction n as [|n IH]; intros start; [done|].
  apply keeps_bind; [done|]. intros _. apply IH.
Qed.

Lemma keeps_spawn c : kept c → kept (spawn c).
Proof.
  intros Hc. apply keeps_atomic_new. intros h Hh. apply keeps_bind; [|done]. split; [|done].
  apply keeps_catch; [done|]. intros o. by split; [intros ->|].
Qed.

Lemma keeps_join h : kept (join h).
Proof. split; [|by intros []]. intros _. split; [done|]. by intros r _. Qed.

Lemma keeps_spawn_all fs : Forall kept fs → kept (spawn_all fs).
Proof.
  induction 1 as [|f fs Hf _ IH]; [done|]. apply keeps_bind; [by apply keeps_spawn|].
  intros h. by apply keeps_bind.
Qed.

Lemma keeps_join_all hs : kept (join_all hs).
Proof.
  induction hs as [|h hs IH]; [done|]. apply keeps_bind; [apply keeps_join|]. intros ok.
  by apply keeps_bind.
Qed.

Lemma keeps_scope {A} fs (body : prog A) : Forall kept fs → kept body → kept (scope fs body).
Proof.
  intros Hfs Hb. apply keeps_bind; [by apply keeps_spawn_all|]. intros hs.
  apply keeps_catch; [done|]. intros o. apply keeps_bind; [apply keeps_join_all|].
  intros []; by destruct o.
Qed.

(** A lock word that is changed by [lock] and the drop of the guard only. *)
Lemma keeps_bench `{LockImpl} x n k d :
  kept (lock_acquire x) → kept (lock_drop x) →
  kept (scope (replicate k (for_range 0 n (λ _, lock_incr x))) (mret ());;
    duration ← clock;
    with_guard x (
      v ← read (value x);
      println d [v; duration])).
Proof.
  intros Ha Hd. assert (∀ A (p : prog A), kept p → kept (with_guard x p)) as Hg.
  { intros A p Hp. apply keeps_bind; [done|]. intros _. by apply keeps_with_drop. }
  apply keeps_bind.
  - apply keeps_scope; [|done]. apply Forall_replicate, keeps_for_range. intros _. apply Hg.
    split; [done|]. intros v _. apply keeps_bind; [by destruct v|]. intros z.
    case_decide; [|done]. by split.
  - intros _. split; [done|]. intros z _. apply Hg. split; [done|]. intros v _. by split.
Qed.
End std.

(** ** The first allocation *)

Lemma first_atomic z (k : loc → prog unit) ρ :
  reachable (Act (OAllocAtomic z) k) ρ →
  ρ = config_init (Act (OAllocAtomic z) k) ∨
  ∃ V σ, typed 2 (λ z', z' = z) σ ∧ rtc erased_step ([(k 2%positive, V)], σ) ρ.
Proof.
  intros Hr. apply rtc_inv in Hr as [->|(ρ1 & [κ Hs] & Hr)]; [by left|]. right.
  inversion Hs as [e1 σ1 e2 σ2 efs t1 t2 Heq -> (_ & c & Hstep)].
  unfold config_init in Heq. destruct t1 as [|? [|? ?]]; simplify_eq/=.
  cbv [mbind option_bind exec_alloc_atomic] in Hstep. injection Hstep as <- <- <-.
  eexists _, _. split; [|exact Hr]. apply typed_at, map_Forall_singleton. done.
Qed.

(** All the values in the history of an atomic. *)
Definition holds (l : loc) (T : Z → Prop) (σ : state) : Prop :=
  ∀ h N A t m, heap σ !! l = Some (CAtomic h N A) → h !! t = Some m → T (mval m).

Lemma typed_holds l T σ : typed l T σ → holds l T σ.
Proof. intros Hσ h N A t m. by apply typed_lookup. Qed.

Lemma typed_weaken l (T T' : Z → Prop) σ : (∀ z, T z → T' z) → typed l T σ → typed l T' σ.
Proof.
  intros HT. rewrite /typed. destruct (heap σ !! l) as [[h N A| |]|]; try done.
  intros Hh t m Hm. by eapply HT, Hh.
Qed.

(** The atomic that a program makes first, at the address 2. *)
Lemma first_holds z (k : loc → prog unit) (T : Z → Prop) ρ :
  T z → keeps 2 T (k 2%positive) → reachable (Act (OAllocAtomic z) k) ρ → holds 2 T ρ.2.
Proof.
  intros Hz Hk [->|(V & σ & Hσ & Hr)]%first_atomic; [done|]. apply typed_holds.
  apply (keeps_typed 2 T _ _ Hr). split; [by apply Forall_cons_2; [|apply Forall_nil_2]|].
  eapply typed_weaken; [|done]. by intros ? ->.
Qed.

Lemma bench_holds (I : LockImpl) (T : Z → Prop) k n ρ :
  lock_new (VInt 0) = new_lock_obj (VInt 0) → T 0%Z →
  (∀ x, keeps (word x) T (lock_acquire x)) → (∀ x, keeps (word x) T (lock_drop x)) →
  reachable (bench k n) ρ → holds 2 T ρ.2.
Proof.
  intros Hnew H0 Ha Hd. rewrite /bench Hnew. apply first_holds; [done|].
  apply (keeps_new_cell 2 T). intros p _. apply (keeps_bind 2 T clock); [by repeat split|].
  intros _. apply (keeps_bench 2 T (LockObj 2 p)); [apply (Ha (LockObj 2 p))|apply (Hd (LockObj 2 p))].
Qed.

(** ** The mutexes *)

(** 0: free; 1: held. *)
Definition two_states (z : Z) : Prop := z = 0%Z ∨ z = 1%Z.
(** 0: free; 1: held, nobody waits; 2: held, somebody may wait. *)
Definition three_states (z : Z) : Prop := z = 0%Z ∨ z = 1%Z ∨ z = 2%Z.

(** [wait] and [wake_one] do not write, so says their documentation. *)
Class FutexKeeps (F : Futex) : Prop := {
  wait_keeps l T a v : keeps l T (wait a v);
  wake_keeps l T a : keeps l T (wake_one a)
}.

#[export] Instance polling_keeps : FutexKeeps polling.
Proof.
  split; [|done]. intros l T a v. split; [|by intros []]. intros _. split; [done|]. intros r _.
  by split.
Qed.

Lemma keeps_swap l (T : Z → Prop) a z o : T z → keeps l T (swap a z o).
Proof. intros Hz. split; [by intros _ v z' _ [= <-]|]. by intros [] _. Qed.

Lemma keeps_exchange l (T : Z → Prop) a c n o o' : T n → keeps l T (compare_exchange a c n o o').
Proof.
  intros Hn. split; [|by intros [? []] _]. intros _ v z _. rewrite /cas_fun.
  by destruct (v =? c)%Z; [intros [= <-]|].
Qed.

Section mutexes.
Context (F : Futex) `{!FutexKeeps F}.

(** The waiting loop of the three. *)
Lemma keeps_swap_wait l (T : Z → Prop) a z (again : Z → bool) :
  T z → keeps l T (while_loop (v ← swap a z Acquire; mret (again v)) (wait a z)).
Proof.
  intros Hz. apply keeps_while; [|apply wait_keeps]. apply keeps_bind; [by apply keeps_swap|done].
Qed.

Lemma keeps_drop l (T : Z → Prop) a :
  T 0%Z → keeps l T (v ← swap a 0 Release; if (v =? 2)%Z then wake_one a else mret ()).
Proof.
  intros Hz. apply keeps_bind; [by apply keeps_swap|]. intros v.
  destruct (v =? 2)%Z; [apply wake_keeps|done].
Qed.

Lemma simple_holds k n ρ : reachable (bench (H := Simple.impl) k n) ρ → holds 2 two_states ρ.2.
Proof.
  apply bench_holds; [done|by left|..]; intros x.
  - apply keeps_bind; [|done]. apply keeps_bind; [|done]. apply keeps_swap_wait. by right.
  - apply keeps_bind; [apply keeps_swap; by left|]. intros _. apply wake_keeps.
Qed.

Lemma avoiding_holds k n ρ : reachable (bench (H := Avoiding.impl) k n) ρ → holds 2 three_states ρ.2.
Proof.
  apply bench_holds; [done|by left|..]; intros x.
  - apply keeps_bind; [|done]. apply keeps_bind; [apply keeps_exchange; by right; left|].
    intros r. apply keeps_bind; [|done]. destruct (is_err r); [|done].
    apply keeps_swap_wait. by right; right.
  - apply keeps_drop. by left.
Qed.

Lemma spinning_holds k n ρ : reachable (bench (H := Spinning.impl) k n) ρ → holds 2 three_states ρ.2.
Proof.
  apply bench_holds; [done|by left|..]; intros x.
  - apply keeps_bind; [|done]. apply keeps_bind; [apply keeps_exchange; by right; left|].
    intros r. apply keeps_bind; [|done]. destruct (is_err r); [|done].
    apply keeps_bind.
    { split; [|by intros []]. intros s. split; [done|]. intros v _. cbn.
      by destruct (_ && _). }
    intros _. apply keeps_bind; [apply keeps_exchange; by right; left|].
    intros r'. destruct (is_ok r'); [done|]. apply keeps_swap_wait. by right; right.
  - apply keeps_drop. by left.
Qed.
End mutexes.



(** ** The channel with one state *)

Definition four_states (z : Z) : Prop :=
  z = Single.EMPTY ∨ z = Single.WRITING ∨ z = Single.READY ∨ z = Single.READING.

(** The atomic that a program makes after a plain object, at the address 3. *)
Lemma second_holds v z (k : loc → loc → prog unit) (T : Z → Prop) ρ :
  T z → keeps 3 T (k 2%positive 3%positive) →
  reachable (Act (OAlloc v) (λ p, Act (OAllocAtomic z) (k p))) ρ → holds 3 T ρ.2.
Proof.
  intros Hz Hk Hr. apply rtc_inv in Hr as [<-|(ρ1 & [κ Hs] & Hr)]; [done|].
  inversion Hs as [e1 σ1 e2 σ2 efs t1 t2 Heq -> (_ & c & Hstep)].
  unfold config_init in Heq. destruct t1 as [|? [|? ?]]; simplify_eq/=.
  cbv [mbind option_bind exec_alloc] in Hstep. injection Hstep as <- <- <-. clear Hs.
  apply rtc_inv in Hr as [<-|(ρ2 & [κ' Hs] & Hr)]; [by intros ???????|].
  inversion Hs as [e1 σ1 e2 σ2 efs t1 t2 Heq -> (_ & c' & Hstep)].
  destruct t1 as [|? [|? ?]]; simplify_eq/=.
  cbv [mbind option_bind exec_alloc_atomic] in Hstep. injection Hstep as <- <- <-.
  apply typed_holds, (keeps_typed 3 T _ _ Hr). split.
  - by apply Forall_cons_2; [|apply Forall_nil_2].
  - by apply typed_at, map_Forall_singleton.
Qed.

Lemma keeps_park l (T : Z → Prop) t : t ≠ l → keeps l T (park t) ∧ keeps l T (unpark t).
Proof.
  intros Ht. split.
  - split; [|by intros []]. intros _. split; [by intros ->|]. intros [] _. split; [done|]. by intros r _.
  - split; [by intros ->|]. by intros [] _.
Qed.


